(* ===== verification/_CoqProject ===== *)
-Q . S2P
Prelude.v
Bytes.v
Merkle.v
ProofMaterial.v
LiftJobStates.v
LiftJob.v
LiftJobTheory.v
JsString.v
PromoteJob.v
PromotePolicy.v
PromoteQueue.v
PromoteMachine.v
PromoteQueueTheory.v
PromoteQueueSafety.v
PromoteQueueSpec.v
JsMap.v
CodePoints.v
JsText.v
JsNumber.v
CanonicalJson.v
CanonicalJsonTheory.v
CanonicalJsonRoundtrip.v
PlainJson.v
WireScalars.v
KaTransfer.v
KaBundle.v
KaChunkTree.v
KaChunkProof.v
KaChunkProofTheory.v
KaChunkProofSafety.v
IriComponent.v
AuthorLane.v
AuthorCatalog.v
AuthorCatalogTheory.v
AuthorCatalogRows.v
AuthorCatalogSafety.v
JsonEquiv.v
ControlObject.v
ControlObjectTheory.v
ControlObjectSafety.v
CatalogObjects.v
CatalogObjectsTheory.v
CatalogDirectory.v
CatalogDirectoryTheory.v
CatalogDirectorySafety.v
CatalogAuthority.v
SignatureVerifier.v
SignatureTheory.v
RowAuthorship.v
RowAuthorshipTheory.v
RowAuthorshipSafety.v
RowAuthorshipTrust.v
OutboxStore.v
OutboxMemory.v
OutboxSqlite.v
ProtocolOutbox.v
Idempotency.v
IdempotencySqlite.v
OutboxDrainer.v
Messenger.v
MessengerTheory.v
MessengerExample.v
MessengerSafety.v
MessengerNetwork.v
