(* ===== verification/Prelude.v ===== *)
(** * A verification development for the DKG node

    The program is a node of the OriginTrail decentralized knowledge graph, a
    TypeScript monorepo (src/packages) with Solidity contracts.  This
    development models six of its parts, chosen because a wrong answer there
    loses data, acts twice or fails a proof:

    - the Merkle commitments of published knowledge assets and the proofs that
      random sampling asks for (packages/core/src/crypto and the contract
      RandomSampling.sol);
    - the state model of publish ("lift") jobs
      (packages/publisher/src/lift-job-*.ts);
    - the durable queue of promote ("share") jobs
      (packages/publisher/src/async-promote-queue-impl.ts and the modules it is
      built from);
    - reliable messages between nodes: the messenger of the agent
      (packages/agent/src/p2p/messenger.ts), its outbox and idempotency stores
      (packages/core/src/protocol-outbox.ts, packages/node-store/src) and the
      drainer that retries queued messages;
    - wire formats and the transfer of knowledge assets: canonical JSON
      (packages/core/src/canonical-json.ts), wire scalars and records
      (sync-wire-*.ts), and the descriptor, bundle, chunk tree and chunk proofs
      of a transfer (ka-*.ts);
    - author catalogs, the signed lists of the assets of an author: the codec of
      rows, scopes and subjects (packages/core/src/author-catalog-codec.ts and the
      identifiers it uses), signed control objects (sync-control-object.ts), the
      buckets, heads and directories of a catalog
      (author-catalog-objects.ts, author-catalog-directory.ts), delegations of the
      issuer key (author-catalog-authority-objects.ts), the verification of
      signatures (packages/chain/src/control-object-signature-verifier.ts) and of
      the authorship of rows
      (packages/agent/src/rfc64/catalog-row-authorship.ts).

    The publisher takes drafts of knowledge assets.  A promote job moves an
    assertion from working memory to the shared memory of its context graph; a
    lift job publishes it on chain; the commitment of what was published is the
    Merkle root that the contract later challenges.  These three parts meet only
    through stored records, so each is modelled on its own.  Nodes talk through
    the messenger: a send that fails is queued in the outbox, a periodic drain
    retries it, and the receiver answers copies from its record.  A published
    asset is fetched as a bundle in chunks: its descriptor names the root of the
    chunk tree, and every chunk comes with a proof that the receiver checks
    against that root; descriptors and proofs travel as canonical JSON.  Which
    assets an author has, and their descriptors, is read from the author's
    catalog: a signed head names the root of a directory, the path of an asset
    leads to a signed bucket with its row, and a row counts when the keys that
    signed lead back to the author.

    ** Files

    - Prelude.v: results of fallible code with their notations in [dkg_scope],
      the tactic [ok_inv], the hint database, JavaScript's array sort
      ([js_sort]), and lemmas on lists that components share.
    - Bytes.v: byte arrays, [compareBytes], [bytesEqual], [toHex].
    - Merkle.v: [V10MerkleTree], [MerkleTree], [V10CiphertextChunksMerkleTree]
      (v10-merkle.ts, merkle.ts, v10-ciphertext-merkle.ts).  A tree is its list
      of layers; [buildTree], [proof], [verify] and the constructors are the
      methods.  The source repeats the layer code in each class, it is defined
      once here.  The hash function is an argument.  A 32-byte hash has collisions
      somewhere, so theorems about binding conclude "or it collides on these
      inputs" ([CollisionIn] of Bytes.v), with the list of inputs that the code
      hashed ([treeHashed], [climbHashed]).
    - ProofMaterial.v: the structured root of a knowledge asset, the four
      builders of proof material and their check (proof-material.ts), and the
      acceptance of a submission by the contract ([submitProofAccepts],
      [treeHeight]).
    - LiftJobStates.v: lifecycle table and failure registry
      (lift-job-states.ts, lift-job-failures.ts).
    - LiftJob.v: records and the state model (lift-job-types.ts,
      lift-job-state-model.ts).  An optional property is an [option]; one that
      an object spread can set to undefined is an option of an option.
    - LiftJobTheory.v: its theorems.
    - JsString.v: the string methods and regular expressions the queue uses.
    - PromoteJob.v, PromotePolicy.v: promote records, bindings and lanes, and
      the pure decisions of the queue (one heading per source file).
    - PromoteQueue.v: the queue.  [QueueState] holds the control graph (a map
      from job id to record), the admissions in doubt and observed owners of the
      admission coordinator, and the fields of the queue object.  Every method
      is a function in a state and error monad ([M]); a throw keeps the changes
      made before it.
    - PromoteMachine.v: the abstract machine: the steps of one record
      ([JobStep]), the effects on the control graph ([effect]: a [change] or a
      clear) and their invariants.
    - PromoteQueueTheory.v: a program logic ([runs]) and the proof, operation by
      operation, that the queue only makes changes and clears of the machine;
      histories of operations ([queue_history]) and the queues between them
      ([queueStates]).
    - PromoteQueueSafety.v: what holds of every reachable queue.
    - PromoteQueueSpec.v: what single operations return and settle.
    - JsMap.v: JavaScript's [Map], with its insertion order.
    - CodePoints.v: strings as UTF-16 code units, [compareCodePoint] and sorted
      catalogs of strings (code-point-order.ts), and UTF-8.
    - JsText.v, JsNumber.v: the language: UTF-8 encoding and decoding, decimal
      and hexadecimal text, big-endian integers; numbers as binary64 values,
      [Number] of a decimal text and the shortest text of a number.
    - CanonicalJson.v: the bounded writer and the strict parser.  The position of
      the parser is what is left of the text.
    - CanonicalJsonTheory.v, CanonicalJsonRoundtrip.v: the canonical text of a
      value ([canonText]), values up to the order of fields ([jsonEquiv]), and the
      theorems.  PlainJson.v: the size of canonical texts.
    - WireScalars.v: decimals, digests, addresses and hexadecimal bytes, and
      records with exactly their fields.
    - KaTransfer.v, KaBundle.v: descriptors, bundles and their digests, with their
      theorems.
    - KaChunkTree.v: the chunk tree; [tree] is the tree whose digests the levels
      of the code hold.  KaChunkProof.v: building and checking proofs of chunks.
      KaChunkProofTheory.v: their schema and text.  KaChunkProofSafety.v: provider
      and receiver.
    - IriComponent.v, AuthorLane.v, AuthorCatalog.v: components of IRIs,
      identifiers and lanes, and the codec of author catalogs
      (canonical-iri-component-v1.ts, sync-wire-identifiers.ts,
      author-lane-scope-v1.ts, author-catalog-codec.ts).  AuthorCatalogTheory.v:
      scopes and subjects.  AuthorCatalogRows.v: scopes and rows as records.
      AuthorCatalogSafety.v: digests, buckets and authors of keys.
    - JsonEquiv.v: the checks of the codecs respect [jsonEquiv] ([Proper]
      instances), and the normal form of a value.
    - ControlObject.v: envelopes, signature variants and cache records; its facts
      are in ControlObjectTheory.v, its theorems in ControlObjectSafety.v.
    - CatalogObjects.v: buckets, heads and nodes; facts in CatalogObjectsTheory.v.
      CatalogDirectory.v: paths and their registry; facts in
      CatalogDirectoryTheory.v, theorems on both in CatalogDirectorySafety.v.
    - CatalogAuthority.v: delegations and receipts.
    - SignatureVerifier.v: the verifier and its registry; SignatureTheory.v: what
      the registry promises.  A capability, a frozen object that a weak map knows,
      is a position in the list of what was registered.
    - RowAuthorship.v: the closure of a bucket and its rows over values that carry
      capabilities ([Value]).  RowAuthorshipTheory.v: what each part of the closure
      establishes.  RowAuthorshipSafety.v: one row per asset, the batch verifier.
      RowAuthorshipTrust.v: the chain of keys.
    - OutboxStore.v: entries, pages and budgets (messenger-types.ts), the store
      interface as the class [OutboxStore] and what it promises as
      [OutboxStoreLaws], over the rows of the store.
    - OutboxMemory.v, OutboxSqlite.v: the two stores and that they are lawful.  A
      SQL statement is a filter, sort and limit over the rows of the table, which
      it visits in an arbitrary order ([plan]).
    - ProtocolOutbox.v: the in-flight guard and retry policy over any store.
    - Idempotency.v, IdempotencySqlite.v: the record of handled messages, its
      interface, laws and two implementations.
    - OutboxDrainer.v: the single-flight drain and its pool of workers
      (outbox-drainer.ts, map-with-concurrency.ts).
    - Messenger.v: the messenger over any two stores.  Between two awaits the
      code runs alone, so an async method is one function per such segment and a
      suspended activation is a [Task]; [step] and [run] interleave them with the
      answers of the router, of handlers and of the peer resolver, with expiry,
      pruning and restarts.
    - MessengerTheory.v: the effects of an event on stores, guards and tasks
      ([effect]) and the invariant of every reachable messenger.
    - MessengerSafety.v: what a messenger guarantees.
    - MessengerNetwork.v: messengers on a network that loses, repeats and
      reorders packets.
    - MessengerExample.v: concrete stores, codec and runs for the witnesses.

    ** What the theorems show

    - Commitments: a proof the builders return is accepted off chain and on
      chain; an accepted submission carries the stored content of the challenged
      leaf unless the hash collides; equal roots mean equal contents; every
      challenge in range can be answered; every error is returned exactly when
      its condition holds.
    - Lift jobs: transitions produce members of the record union, follow the
      table, keep immutable fields and transaction evidence over any history,
      and end; legal events succeed; projecting a stored job loses nothing.
    - Promote queue, for any sequence of operations and any outcome of every
      write (acknowledged, not started, lost, committed without acknowledgement,
      stopped between delete and insert): one owner per lane; a durable share is
      kept until it is finished; records are consistent; a promote that may have
      been published is not run again.  On a healthy store: expired leases are
      resolved, claims and sweeps make progress, a lease holder can report.  And:
      leases fence out stale workers, retry budgets and delays are respected, clears remove only
      finished jobs.
    - Messages, for any interleaving: a delivered message was handled by its
      receiver, on what was sent; a queued message stays until it is delivered or
      expires; a message is handled once while its record is kept; attempts and
      handlers exclude each other per message and no guard leaks; a failed retry
      is rescheduled; a drain starts, respects its budgets and concurrency and
      ends.  The SQLite store cannot be told from the in-memory one.  Code point
      order is the order of UTF-8.
    - Wire formats: what canonicalizes is read back, from text and from bytes; an
      accepted text is the only one of its value; the parser ends, with a
      well-formed value or an error; every valid descriptor and proof fits its
      byte limit.
    - Transfers: a bundle encodes what it decodes to; equal identity digests mean
      equal descriptors and equal roots mean equal bundles; the proofs of a
      request are accepted by the receiver; an accepted chunk is the chunk of the
      bundle, whatever length the receiver was told.  Each unless sha256 collides
      on inputs that were hashed.  The digest of a projection does not depend on
      how it is cut into pieces.
    - Catalogs: rows, scopes and subjects are read back, and different ones have
      different texts; digests of rows and of control objects bind what they are
      of; cache records give back exactly the envelope they were split from; an
      accepted bucket holds its rows in order and only its own; paths of a head
      lead to one descriptor per bucket; a registered signature is the issuer's;
      a verified row is the word of its author for its lane, and the only one of its asset
      under a head; verifying a bucket at once is verifying its rows one by one,
      but for the error on a bucket of another bucket count.

    ** Parameters, bounds and fuel

    - keccak256 and sha256 are functions from bytes to bytes, of 32 bytes where a
      theorem says so; an incremental hasher hashes the concatenation of its
      updates.  The host's string collation, the canonical digest of an author seal, the text search in a
      stored payload and the retry backoff are fields of [QueueConfig]; the
      hypothesis [payload_mentions_binding] says that the JSON text of a record
      with a recovery binding contains that property name.  Clocks, generated
      ids, tokens and random draws are arguments.
    - The codec of the message envelope (protobufjs) is a parameter; the
      hypothesis [codec_roundtrip] says that decoding gives back the id and
      payload that were encoded.  [plan_perm] says that SQL returns each row
      once.  Unicode normalization, the recovery of a signer
      ([verifyMessage]), the parser of a signature ([signatureSerialized]), the ABI
      encodings and the gateway to a chain are parameters without hypotheses:
      theorems on signatures say what these functions answered.  Peers and
      protocols of a message do not contain NUL, and identifiers
      are well-formed strings ([wfKey]).
    - Times, counts and versions are integers [Z]; the code keeps them below
      2^53.  The jitter of a delay is computed in rationals.
    - [treeHeight] runs with fuel 33: leaf counts are uint32, so 32 rounds
      suffice (proved).  [buildTree] recurses on the length of the layer.
      [sweepTurns] runs with the number of candidates as fuel; each turn takes
      at least one ([sweep_settles] covers the whole pass).
    - The JSON parser runs with fuel above twice the length of the text
      ([json_parser_sound]: it never runs out).  [levelLoop] runs with the width of
      the lowest level as fuel, each round halves it.  [decodeURILoop] runs
      with the length of the text, each round reads some of it.  Bucket counts are
      powers of two up to 2^63: [prefixBitsLoop] runs with fuel 64, one round per
      bit, and [directoryHeightLoop] with fuel 9, of which the height is at most 7
      (proved).  The search for the shortest
      decimal of a number may go on to its exact expansion ([numberText_spec]: it
      finds one).
    - Strings of the queue are sequences of code units below 256, those of the
      messenger and of JSON sequences of 16-bit code units.
    - Histories assume what callers guarantee: generated job ids are fresh, and
      identifiers of a request do not contain the key separator U+001F.

    ** Not modelled

    - Records whose payload does not parse, and how records are written as RDF;
      the key under which a record is found is the one the current code writes.
    - Failing store reads (an operation then throws before it writes), the
      listing and retention of promote jobs, share reconciliation, and the
      deadline timer of an admission firing while another admission is in
      flight.
    - Percentiles of the messenger's statistics (floating point), a messenger
      without stores, and statements of a store that throw; the compatibility
      facade for older outbox stores.
    - In-memory objects that are no JSON values (cycles, accessors, sparse arrays,
      symbols, other prototypes), the checks that a value is a Uint8Array with its
      own fixed buffer, and the chunked buffering of writer and parser.
    - Timers: whether the gateway, the deadline or an abort settles first is an
      input of the signature verifier.
    - The production, publication and activation of catalogs, message framing,
      caches and rate limits, the loops that drive jobs (network, chain and store
      calls), leaf extraction from the triple store, the other contracts, and the
      remaining packages: they are I/O around the parts above, or independent of
      them. *)

From stdpp Require Export base numbers list option strings sorting gmap sets.
From Stdlib Require Import Strings.Byte.
From Stdlib Require Export ZifyNat.

(** ** Results of fallible code

    A TypeScript function that may [throw] is a function into [result E A]:
    [Err e] stands for the thrown error, [Ok a] for the returned value. *)

Inductive result (E A : Type) : Type :=
| Ok (a : A)
| Err (e : E).
Arguments Ok {E A} a.
Arguments Err {E A} e.

Definition result_bind {E A B : Type} (r : result E A) (k : A -> result E B) : result E B :=
  match r with
  | Ok a => k a
  | Err e => Err e
  end.

(** [if (bad) throw e; rest] *)
Definition throw_if {E A : Type} (bad : bool) (e : E) (rest : result E A) : result E A :=
  if bad then Err e else rest.

Definition is_Ok {E A : Type} (r : result E A) : Prop :=
  match r with Ok _ => True | Err _ => False end.

Declare Scope dkg_scope.
Delimit Scope dkg_scope with dkg.

Notation "'let*' x ':=' c1 'in' c2" :=
  (result_bind c1 (fun x => c2))
  (at level 10, x pattern, c1 at level 100, c2 at level 200) : dkg_scope.
Notation "'throw' e 'when' b ; c" :=
  (throw_if b e c)
  (at level 10, e at level 99, b at level 99, c at level 200) : dkg_scope.

Open Scope dkg_scope.

Lemma result_bind_Ok {E A B} (r : result E A) (k : A -> result E B) b :
  result_bind r k = Ok b <-> exists a, r = Ok a /\ k a = Ok b.
Proof. destruct r; simpl; naive_solver. Qed.

Lemma throw_if_Ok {E A} bad (e : E) (rest : result E A) a :
  throw_if bad e rest = Ok a <-> bad = false /\ rest = Ok a.
Proof. destruct bad; simpl; naive_solver. Qed.

Create HintDb dkg.
Create Rewrite HintDb dkg.
#[export] Hint Rewrite @result_bind_Ok @throw_if_Ok : dkg.

(** Opens a successful run of a fallible function into its guards. *)
Ltac ok_inv :=
  repeat match goal with
  | H : result_bind _ _ = Ok _ |- _ => apply result_bind_Ok in H as (? & ? & H)
  | H : throw_if _ _ _ = Ok _ |- _ => apply throw_if_Ok in H as [? H]
  | H : Ok _ = Ok _ |- _ => injection H as H
  | H : Err _ = Ok _ |- _ => discriminate H
  end.

(** ** JavaScript values

    Numbers that the code uses as integers are [Z].  [xs[i]] is [js_at]:
    [undefined] (here [None]) outside the array, and negative indices are
    outside. *)

Definition js_at {A : Type} (l : list A) (i : Z) : option A :=
  if (i <? 0)%Z then None else l !! Z.to_nat i.

Definition js_length {A : Type} (l : list A) : Z := Z.of_nat (length l).

Lemma js_at_nat {A} (l : list A) (i : nat) : js_at l (Z.of_nat i) = l !! i.
Proof. unfold js_at. destruct (Z.ltb_spec (Z.of_nat i) 0); [lia|]. by rewrite Nat2Z.id. Qed.

Lemma js_at_Some {A} (l : list A) (i : Z) a :
  js_at l i = Some a -> (0 <= i < js_length l)%Z /\ l !! Z.to_nat i = Some a.
Proof.
  unfold js_at, js_length. destruct (Z.ltb_spec i 0); [done|].
  intros Hl. split; [|done]. apply lookup_lt_Some in Hl. lia.
Qed.

Lemma js_at_in_range {A} (l : list A) (i : Z) :
  (0 <= i < js_length l)%Z -> exists a, js_at l i = Some a /\ a ∈ l.
Proof.
  unfold js_at, js_length. intros Hi. destruct (Z.ltb_spec i 0); [lia|].
  destruct (lookup_lt_is_Some_2 l (Z.to_nat i)) as [a Ha]; [lia|].
  exists a. split; [done|]. by eapply list_elem_of_lookup_2.
Qed.

Lemma js_at_map {A B} (f : A -> B) l i : js_at (map f l) i = f <$> js_at l i.
Proof. unfold js_at. destruct (_ <? _)%Z; [done|]. apply list_lookup_fmap. Qed.

(** ** Lists *)

Lemma list_ind_2 {A} (P : list A -> Prop) :
  P [] -> (forall x, P [x]) -> (forall x y l, P l -> P (x :: y :: l)) -> forall l, P l.
Proof.
  intros H0 H1 H2. fix IH 1. intros [|x [|y l]]; [done|done|]. apply H2, IH.
Qed.

(** [Array.prototype.filter] *)

Lemma elem_of_js_filter {A} (p : A -> bool) l x : x ∈ List.filter p l <-> x ∈ l /\ p x = true.
Proof. by rewrite !list_elem_of_In, filter_In. Qed.

Lemma js_filter_filter {A} (p q : A -> bool) l :
  List.filter q (List.filter p l) = List.filter (fun x => p x && q x) l.
Proof. induction l as [|x l IH]; simpl; [done|]. destruct (p x); simpl; [|done]. by rewrite IH. Qed.

#[export] Instance js_filter_perm {A} (p : A -> bool) :
  Proper (Permutation ==> Permutation) (List.filter p).
Proof.
  intros l1 l2 Hp. induction Hp as [|x l l' Hp IH|x y l|l l' l'' Hp IH Hp' IH']; simpl; [done| | |by etrans].
  - case_match; by rewrite IH.
  - destruct (p x), (p y); [constructor|done..].
Qed.

(** ** [Array.prototype.sort]

    The sort of ECMAScript is stable, so for a consistent comparator its
    result is determined; [js_sort] computes it by insertion. *)

Section JsSort.
Context {A : Type} (cmp : A -> A -> Z).

Fixpoint js_insert (x : A) (l : list A) : list A :=
  match l with
  | [] => [x]
  | y :: l' => if (cmp x y <=? 0)%Z then x :: y :: l' else y :: js_insert x l'
  end.

Definition js_sort (l : list A) : list A := foldr js_insert [] l.

(** What a consistent comparator guarantees. *)
Class Comparator : Prop := {
  cmp_refl : forall x, (cmp x x = 0)%Z;
  cmp_flip : forall x y, (cmp x y < 0)%Z <-> (0 < cmp y x)%Z;
  cmp_trans : forall x y z, (cmp x y <= 0)%Z -> (cmp y z <= 0)%Z -> (cmp x z <= 0)%Z
}.

Definition cmp_le (x y : A) : Prop := (cmp x y <= 0)%Z.

Lemma js_insert_perm x l : js_insert x l ≡ₚ x :: l.
Proof.
  induction l as [|y l IH]; simpl; [done|]. case_match; [done|].
  rewrite IH. constructor.
Qed.

Lemma js_sort_perm l : js_sort l ≡ₚ l.
Proof. induction l as [|x l IH]; simpl; [done|]. by rewrite js_insert_perm, IH. Qed.

Lemma js_sort_length l : length (js_sort l) = length l.
Proof. by rewrite js_sort_perm. Qed.

Context `{!Comparator}.

Lemma cmp_total x y : cmp_le x y \/ cmp_le y x.
Proof.
  unfold cmp_le. destruct (Z.le_gt_cases (cmp x y) 0); [by left|right].
  assert (cmp y x < 0)%Z by (apply cmp_flip; lia). lia.
Qed.

Lemma cmp_ge x y : (0 <= cmp x y <-> cmp y x <= 0)%Z.
Proof. pose proof (cmp_flip x y). lia. Qed.

Lemma cmp_lt_le_trans x y z : (cmp x y < 0 -> cmp y z <= 0 -> cmp x z < 0)%Z.
Proof.
  intros Hxy Hyz. destruct (Z.lt_ge_cases (cmp x z) 0) as [?|Hzx]; [done|].
  apply cmp_ge in Hzx. pose proof (cmp_trans y z x Hyz Hzx) as Hyx.
  apply (cmp_flip x y) in Hxy. lia.
Qed.

Lemma cmp_le_lt_trans x y z : (cmp x y <= 0 -> cmp y z < 0 -> cmp x z < 0)%Z.
Proof.
  intros Hxy Hyz. destruct (Z.lt_ge_cases (cmp x z) 0) as [?|Hzx]; [done|].
  apply cmp_ge in Hzx. pose proof (cmp_trans z x y Hzx Hxy) as Hzy.
  apply (cmp_flip y z) in Hyz. lia.
Qed.

Lemma js_insert_sorted x l :
  StronglySorted cmp_le l -> StronglySorted cmp_le (js_insert x l).
Proof.
  induction 1 as [|y l Hl IH Hy]; simpl; [repeat constructor|].
  case_match eqn:E.
  - apply Z.leb_le in E. constructor; [by constructor|].
    constructor; [done|]. eapply Forall_impl; [exact Hy|].
    intros z Hz. by apply (cmp_trans x y z).
  - apply Z.leb_gt in E. constructor; [done|]. rewrite js_insert_perm.
    constructor; [|done]. destruct (cmp_total y x) as [?|Hxy]; [done|].
    unfold cmp_le in Hxy; lia.
Qed.

Lemma js_sort_sorted l : StronglySorted cmp_le (js_sort l).
Proof. induction l; simpl; [constructor|]. by apply js_insert_sorted. Qed.

(** Where the comparator separates the elements there is one sorted list of them. *)
Lemma sorted_unique l1 l2 :
  (forall x y, x ∈ l1 -> y ∈ l1 -> (cmp x y = 0)%Z -> x = y) ->
  StronglySorted cmp_le l1 -> StronglySorted cmp_le l2 -> l1 ≡ₚ l2 -> l1 = l2.
Proof.
  intros Hsep Hs1 Hs2 Hp. apply (StronglySorted_unique_strong cmp_le); [|done..].
  intros x y Hx Hy Hxy Hyx. rewrite <- Hp in Hy. apply Hsep; [done..|].
  unfold cmp_le in *. destruct (Z.eq_dec (cmp x y) 0%Z); [done|].
  assert (0 < cmp y x)%Z by (apply cmp_flip; lia). lia.
Qed.

Lemma js_insert_filter (q : A -> bool) x l :
  StronglySorted cmp_le l ->
  List.filter q (js_insert x l) = if q x then js_insert x (List.filter q l) else List.filter q l.
Proof.
  induction 1 as [|y l Hl IH Hy]; simpl; [done|].
  destruct (Z.leb_spec (cmp x y) 0) as [E|E]; simpl.
  - destruct (q x); [|done]. destruct (q y); simpl; [by rewrite (proj2 (Z.leb_le _ _))|].
    destruct (List.filter q l) as [|z l'] eqn:El; simpl; [done|]. rewrite (proj2 (Z.leb_le _ _)); [done|].
    apply (cmp_trans x y z); [done|]. rewrite Forall_forall in Hy. apply Hy.
    assert (z ∈ List.filter q l) as Hz by (rewrite El; left). by apply elem_of_js_filter in Hz as [? _].
  - rewrite IH. destruct (q y), (q x); simpl; try done. by rewrite (proj2 (Z.leb_gt _ _)).
Qed.

(** Filtering a sorted list, and sorting a filtered one. *)
Lemma js_sort_filter (q : A -> bool) l : List.filter q (js_sort l) = js_sort (List.filter q l).
Proof.
  induction l as [|x l IH]; simpl; [done|]. rewrite js_insert_filter by apply js_sort_sorted.
  rewrite IH. by destruct (q x).
Qed.

Lemma js_sort_unique l1 l2 :
  (forall x y, x ∈ l1 -> y ∈ l1 -> (cmp x y = 0)%Z -> x = y) -> l1 ≡ₚ l2 -> js_sort l1 = js_sort l2.
Proof.
  intros Hsep Hp. apply sorted_unique; [|apply js_sort_sorted..|by rewrite !js_sort_perm].
  intros x y. rewrite js_sort_perm. apply Hsep.
Qed.
End JsSort.

(** ** Sorting by another comparator, and through a projection *)

Lemma js_insert_ext {A} (f g : A -> A -> Z) x l :
  (forall y, y ∈ l -> (f x y <=? 0)%Z = (g x y <=? 0)%Z) -> js_insert f x l = js_insert g x l.
Proof.
  induction l as [|y l IH]; intros H; simpl; [done|].
  rewrite (H y) by left. rewrite IH; [done|]. intros z Hz. apply H. by right.
Qed.

Lemma js_sort_ext {A} (f g : A -> A -> Z) l :
  (forall x y, x ∈ l -> y ∈ l -> (f x y <=? 0)%Z = (g x y <=? 0)%Z) -> js_sort f l = js_sort g l.
Proof.
  induction l as [|x l IH]; intros H; simpl; [done|].
  rewrite IH; [|intros y z Hy Hz; apply H; by right]. apply js_insert_ext.
  intros y Hy. rewrite js_sort_perm in Hy. apply H; [left|by right].
Qed.

Lemma js_sort_fmap {A B} (cmp : B -> B -> Z) (h : A -> B) l :
  js_sort cmp (h <$> l) = h <$> js_sort (fun a b => cmp (h a) (h b)) l.
Proof.
  assert (forall x l, js_insert cmp (h x) (h <$> l) = h <$> js_insert (fun a b => cmp (h a) (h b)) x l) as Hins.
  { clear l. intros x l. induction l as [|y l IH]; [done|]. csimpl. case_match; [done|]. csimpl. by rewrite IH. }
  induction l as [|x l IH]; [done|]. csimpl. unfold js_sort in *. by rewrite IH, Hins.
Qed.

(** ** Comparators from smaller ones *)

(** [x || y] on numbers *)
Definition orElse (x y : Z) : Z := if (x =? 0)%Z then y else x.

Lemma comparator_difference {A} (key : A -> Z) : Comparator (fun a b => key a - key b)%Z.
Proof. split; lia. Qed.

Lemma comparator_on {A B} (cmp : B -> B -> Z) (key : A -> B) :
  Comparator cmp -> Comparator (fun a b => cmp (key a) (key b)).
Proof.
  intros H. split; intros *; [apply (cmp_refl cmp)|apply (cmp_flip cmp)|apply (cmp_trans cmp)].
Qed.

Lemma comparator_orElse {A} (f g : A -> A -> Z) :
  Comparator f -> Comparator g -> Comparator (fun a b => orElse (f a b) (g a b)).
Proof.
  intros Hf Hg. unfold orElse. split.
  - intros x. by rewrite (cmp_refl f), (cmp_refl g).
  - intros x y. pose proof (cmp_flip f x y). pose proof (cmp_flip f y x). pose proof (cmp_flip g x y).
    destruct (Z.eqb_spec (f x y) 0), (Z.eqb_spec (f y x) 0); lia.
  - intros x y z. pose proof (cmp_trans f x y z). pose proof (cmp_trans g x y z).
    pose proof (cmp_ge f x y). pose proof (cmp_ge f y z). pose proof (cmp_ge f x z).
    pose proof (cmp_trans f z y x). pose proof (cmp_lt_le_trans f x y z). pose proof (cmp_le_lt_trans f x y z).
    destruct (Z.eqb_spec (f x y) 0), (Z.eqb_spec (f y z) 0), (Z.eqb_spec (f x z) 0); lia.
Qed.

Lemma orElse_zero x y : orElse x y = 0%Z <-> x = 0%Z /\ y = 0%Z.
Proof. unfold orElse. destruct (Z.eqb_spec x 0); lia. Qed.
