(* ===== verification/Bytes.v ===== *)
(** * Byte arrays

    [Uint8Array] values as lists of bytes, with the helpers that the Merkle
    code of packages/core/src/crypto defines on them: [compareBytes]
    (v10-merkle.ts), [bytesEqual] and [toHex] (proof-material.ts). *)

From stdpp Require Import base numbers list option strings sorting countable.
From Stdlib Require Import Strings.Byte Ascii.
From S2P Require Import Prelude.

Abbreviation bytes := (list byte).

#[export] Instance byte_eq_decision : EqDecision byte := Byte.byte_eq_dec.

#[export] Program Instance byte_countable : Countable byte := inj_countable Byte.to_N Byte.of_N Byte.of_to_N.

(** The number an element of a [Uint8Array] reads as. *)
Definition byteZ (b : byte) : Z := Z.of_N (Byte.to_N b).

(** [new Uint8Array(n)] *)
Definition zeroBytes (n : nat) : bytes := replicate n x00.

(** [compareBytes]: the difference at the first index where the arrays
    differ, or the difference of the lengths. *)
Fixpoint compareBytes (a b : bytes) : Z :=
  match a, b with
  | x :: a', y :: b' =>
      if Byte.eqb x y then compareBytes a' b' else (byteZ x - byteZ y)%Z
  | _, _ => (js_length a - js_length b)%Z
  end.

(** [bytesEqual]: equal lengths and equal elements. *)
Fixpoint allEqual (a b : bytes) : bool :=
  match a, b with
  | x :: a', y :: b' => if Byte.eqb x y then allEqual a' b' else false
  | _, _ => true
  end.

Definition bytesEqual (a b : bytes) : bool :=
  if negb (js_length a =? js_length b)%Z then false else allEqual a b.

(** [b.toString(16).padStart(2, '0')] *)
Definition hexDigit (n : N) : ascii :=
  ascii_of_N (if (n <? 10)%N then 48 + n else 87 + n)%N.

Definition byteHex (b : byte) : string :=
  String (hexDigit (Byte.to_N b / 16)) (String (hexDigit (Byte.to_N b mod 16)) EmptyString).

Definition toHex (b : bytes) : string :=
  String.append "0x" (String.concat "" (map byteHex b)).

(** ** The order of [compareBytes] *)

Lemma byteZ_range b : (0 <= byteZ b < 256)%Z.
Proof. unfold byteZ. pose proof (Byte.to_N_bounded b). lia. Qed.

Lemma byteZ_inj x y : byteZ x = byteZ y -> x = y.
Proof.
  unfold byteZ. intros H%N2Z.inj.
  enough (Some x = Some y) by congruence.
  by rewrite <- (Byte.of_to_N x), <- (Byte.of_to_N y), H.
Qed.

Lemma byte_eqb_spec x y : reflect (x = y) (Byte.eqb x y).
Proof.
  destruct (Byte.eqb x y) eqn:E; constructor.
  - by apply Byte.byte_dec_bl.
  - by apply Byte.eqb_false.
Qed.

Lemma compareBytes_eq a b : compareBytes a b = 0%Z <-> a = b.
Proof.
  revert b. induction a as [|x a IH]; intros [|y b]; simpl; unfold js_length; simpl; try naive_solver lia.
  destruct (byte_eqb_spec x y) as [->|Hne]; rewrite ?IH; [naive_solver|].
  split; [|naive_solver]. intros H. destruct Hne. apply byteZ_inj. lia.
Qed.

Lemma compareBytes_flip a b : (compareBytes a b = - compareBytes b a)%Z.
Proof.
  revert b. induction a as [|x a IH]; intros [|y b]; simpl; unfold js_length; simpl; try lia.
  destruct (byte_eqb_spec x y), (byte_eqb_spec y x); first [congruence | apply IH | lia].
Qed.

Lemma compareBytes_trans a b c :
  (compareBytes a b <= 0)%Z -> (compareBytes b c <= 0)%Z -> (compareBytes a c <= 0)%Z.
Proof.
  revert b c. induction a as [|x a IH]; intros [|y b] [|z c]; simpl; unfold js_length; simpl; try lia.
  destruct (byte_eqb_spec x y), (byte_eqb_spec y z), (byte_eqb_spec x z); subst;
    try congruence; try lia; [apply IH|].
  intros H1 H2. assert (z = y) by (apply byteZ_inj; lia). congruence.
Qed.

#[export] Instance compareBytes_comparator : Comparator compareBytes.
Proof.
  split.
  - intros x. by apply compareBytes_eq.
  - intros x y. rewrite (compareBytes_flip x y). lia.
  - apply compareBytes_trans.
Qed.

(** ** [bytesEqual] and [toHex] decide and reflect equality *)

Lemma allEqual_eq a b : length a = length b -> allEqual a b = true <-> a = b.
Proof.
  revert b. induction a as [|x a IH]; intros [|y b] Hl; simplify_eq/=; [done|].
  destruct (byte_eqb_spec x y) as [->|]; [|naive_solver]. rewrite IH by done. naive_solver.
Qed.

Lemma bytesEqual_eq a b : bytesEqual a b = true <-> a = b.
Proof.
  unfold bytesEqual, js_length. destruct (Z.eqb_spec (Z.of_nat (length a)) (Z.of_nat (length b))); simpl.
  - apply allEqual_eq. lia.
  - split; [done|]. intros ->. lia.
Qed.

Definition hexVal (c : ascii) : option N :=
  let n := N_of_ascii c in
  if ((48 <=? n) && (n <? 58))%N then Some (n - 48)%N
  else if ((97 <=? n) && (n <? 103))%N then Some (n - 87)%N else None.

(** Reads back the digits [byteHex] prints. *)
Fixpoint ofHexDigits (s : string) : option bytes :=
  match s with
  | EmptyString => Some []
  | String c1 (String c2 s') =>
      n1 ← hexVal c1; n2 ← hexVal c2; b ← Byte.of_N (n1 * 16 + n2)%N;
      l ← ofHexDigits s'; Some (b :: l)
  | String _ EmptyString => None
  end.

Lemma ofHexDigits_byteHex b s :
  ofHexDigits (String.append (byteHex b) s) = l ← ofHexDigits s; Some (b :: l).
Proof. by destruct b. Qed.

Lemma concat_empty_cons s l : String.concat "" (s :: l) = String.append s (String.concat "" l).
Proof.
  destruct l; [|done]. induction s as [|c s IH]; [done|].
  change (String c (String.concat "" [s]) = String c (String.append s "")). f_equal. exact IH.
Qed.

Lemma ofHexDigits_concat b : ofHexDigits (String.concat "" (map byteHex b)) = Some b.
Proof.
  induction b as [|x b IH]; [done|].
  rewrite map_cons, concat_empty_cons, ofHexDigits_byteHex, IH. done.
Qed.

Lemma toHex_inj a b : toHex a = toHex b -> a = b.
Proof.
  unfold toHex. simpl. intros H. simplify_eq.
  enough (Some a = Some b) by congruence.
  by rewrite <- (ofHexDigits_concat a), <- (ofHexDigits_concat b), H.
Qed.

(** ** Collisions

    Two different ones among the given inputs with the same hash. *)

Definition CollisionIn (hash : bytes -> bytes) (inputs : list bytes) : Prop :=
  exists x y, x ∈ inputs /\ y ∈ inputs /\ x <> y /\ hash x = hash y.

Lemma collision_mono hash l l' : l ⊆ l' -> CollisionIn hash l -> CollisionIn hash l'.
Proof. intros Hl (x & y & Hx & Hy & H). exists x, y. split_and!; [by apply Hl..|by destruct H|by destruct H]. Qed.

(** Equal hashes of two inputs are equal inputs or a collision. *)
Lemma hash_inj_or hash inputs x y :
  x ∈ inputs -> y ∈ inputs -> hash x = hash y -> x = y \/ CollisionIn hash inputs.
Proof. intros Hx Hy E. destruct (decide (x = y)); [by left|right]. by exists x, y. Qed.
