(* ===== verification/Merkle.v ===== *)
(** * Merkle trees

    The three tree classes of packages/core/src/crypto: [V10MerkleTree]
    (v10-merkle.ts: leaves sorted and deduplicated), [MerkleTree] (merkle.ts:
    leaves sorted) and [V10CiphertextChunksMerkleTree]
    (v10-ciphertext-merkle.ts: leaves kept in order).  They share the pair
    hashing, the layer construction, [proof] and [verify], which the source
    repeats in each class and which are defined once here over a hash
    function.  The hash (keccak256 or sha256 of a third-party package) is a
    parameter. *)

From stdpp Require Import base numbers list option strings sorting gmap sets.
From Stdlib Require Import Strings.Byte.
From Equations Require Import Equations.
From S2P Require Import Prelude Bytes.

Abbreviation layer := (list bytes).

(** [RangeError] of an index outside the leaves, and of a leaf that is not
    32 bytes long. *)
Inductive merkle_error : Type :=
| LeafIndexOutOfRange (leafIndex : Z)
| LeafNot32Bytes (index : nat).

(** The two private fields of the tree classes. *)
Record MerkleTreeState : Type := {
  layers : list layer;
  leafCount : Z
}.

(** ** The shared construction *)

(** [if (current.length % 2 !== 0) current = [...current, current[current.length - 1]]] *)
Definition padOdd (current : layer) : layer :=
  if negb (js_length current mod 2 =? 0)%Z
  then current ++ option_list (js_at current (js_length current - 1))
  else current.

Lemma padOdd_length l : length (padOdd l) = length l + length l mod 2.
Proof.
  unfold padOdd, js_length. destruct (Z.eqb_spec (Z.of_nat (length l) mod 2) 0) as [E|E]; cbn [negb].
  - lia.
  - destruct (js_at_in_range l (Z.of_nat (length l) - 1)) as (a & -> & _).
    { unfold js_length. lia. }
    rewrite length_app. change (length (option_list (Some a))) with 1. lia.
Qed.

Section WithHash.
  Context (hash : bytes -> bytes).

Definition hashPair (left right : bytes) : bytes := hash (left ++ right).

(** [for (i = 0; i < current.length; i += 2) next.push(hashPair(current[i], current[i + 1]))];
    the loop runs on a layer of even length, so no element is left over. *)
Fixpoint pairUp (current : layer) : layer :=
  match current with
  | a :: b :: rest => hashPair a b :: pairUp rest
  | _ => []
  end.

Lemma pairUp_length l : length (pairUp l) = length l / 2.
Proof.
  induction l as [| |x y l IH] using list_ind_2; [done|done|].
  simpl length. rewrite IH. lia.
Qed.

(** The [while] loop of [buildTree]: the layer that is current when the loop
    tests its guard, padded in place when the loop runs once more. *)
Equations? buildTree (current : layer) : list layer by wf (length current) lt :=
  buildTree current with decide (1 < length current) => {
    | left _ := padOdd current :: buildTree (pairUp (padOdd current));
    | right _ := [current] }.
Proof.
  rewrite pairUp_length, padOdd_length. lia.
Qed.

(** [get root()]: 32 zero bytes for the empty tree, otherwise the first node
    of the last layer. *)
Definition root (t : MerkleTreeState) : bytes :=
  match layers t with
  | [] :: _ => zeroBytes 32
  | ls => default [] (last ls ≫= head)
  end.

(** The loop of [proof] over all layers but the last. *)
Fixpoint proofLoop (ls : list layer) (idx : Z) : list bytes :=
  match ls with
  | current :: (_ :: _) as rest =>
      let siblingIdx := if (idx mod 2 =? 0)%Z then (idx + 1)%Z else (idx - 1)%Z in
      let siblings := if (siblingIdx <? js_length current)%Z
                      then option_list (js_at current siblingIdx) else [] in
      siblings ++ proofLoop rest (idx / 2)
  | _ => []
  end.

Definition proof (t : MerkleTreeState) (leafIndex : Z) : result merkle_error (list bytes) :=
  throw (LeafIndexOutOfRange leafIndex) when ((leafIndex <? 0) || (leafIndex >=? leafCount t))%Z;
  Ok (proofLoop (layers t) leafIndex).

Definition leafAt (t : MerkleTreeState) (leafIndex : Z) : result merkle_error bytes :=
  throw (LeafIndexOutOfRange leafIndex) when ((leafIndex <? 0) || (leafIndex >=? leafCount t))%Z;
  Ok (default [] (head (layers t) ≫= fun l => js_at l leafIndex)).

(** The loop of [verify]: the hash reached from [h] at index [idx]. *)
Fixpoint climb (h : bytes) (idx : Z) (siblings : list bytes) : bytes :=
  match siblings with
  | [] => h
  | sibling :: rest =>
      let h' := if (idx mod 2 =? 0)%Z then hashPair h sibling else hashPair sibling h in
      climb h' (idx / 2) rest
  end.

Definition verify (rootHash leaf : bytes) (siblings : list bytes) (leafIndex : Z) : bool :=
  (compareBytes (climb leaf leafIndex siblings) rootHash =? 0)%Z.

(** ** [V10MerkleTree] *)

(** [for (i = 1; ...) if (compareBytes(sorted[i], sorted[i - 1]) !== 0) deduped.push(sorted[i])] *)
Fixpoint dedupeFrom (prev : bytes) (sorted : list bytes) : list bytes :=
  match sorted with
  | [] => []
  | x :: rest =>
      if negb (compareBytes x prev =? 0)%Z then x :: dedupeFrom x rest else dedupeFrom x rest
  end.

Definition dedupe (sorted : list bytes) : list bytes :=
  match sorted with
  | [] => []
  | x :: rest => x :: dedupeFrom x rest
  end.

Definition V10MerkleTree (leaves : list bytes) : MerkleTreeState :=
  match leaves with
  | [] => {| layers := [[]]; leafCount := 0 |}
  | _ => let sorted := js_sort compareBytes leaves in
         let deduped := dedupe sorted in
         {| layers := buildTree deduped; leafCount := js_length deduped |}
  end.

(** [static computeKARoot(publicRoot?, privateRoot?)] *)
Definition computeKARoot (publicRoot privateRoot : option bytes) : bytes :=
  match publicRoot, privateRoot with
  | Some pub, Some priv => hashPair pub priv
  | Some pub, None => pub
  | None, Some priv => priv
  | None, None => zeroBytes 32
  end.

(** [static computeKCRoot(kaRoots)] *)
Definition computeKCRoot (kaRoots : list bytes) : bytes := root (V10MerkleTree kaRoots).

(** ** [MerkleTree] (merkle.ts): sorted, duplicates kept *)

Definition MerkleTree (leaves : list bytes) : MerkleTreeState :=
  match leaves with
  | [] => {| layers := [[]]; leafCount := 0 |}
  | _ => let sorted := js_sort compareBytes leaves in
         {| layers := buildTree sorted; leafCount := js_length sorted |}
  end.

(** ** [V10CiphertextChunksMerkleTree]: leaves in chunk order *)

(** The first leaf whose length is not 32, as the constructor's loop finds it. *)
Fixpoint firstNot32 (i : nat) (leaves : list bytes) : option nat :=
  match leaves with
  | [] => None
  | l :: rest => if negb (js_length l =? 32)%Z then Some i else firstNot32 (S i) rest
  end.

Definition V10CiphertextChunksMerkleTree (leaves : list bytes) : result merkle_error MerkleTreeState :=
  match leaves with
  | [] => Ok {| layers := [[]]; leafCount := 0 |}
  | _ => match firstNot32 0 leaves with
         | Some i => Err (LeafNot32Bytes i)
         | None => Ok {| layers := buildTree leaves; leafCount := js_length leaves |}
         end
  end.

End WithHash.

(** ** Facts about layers *)

(** What [hashPair] hashes for an element at an index and its sibling. *)
Definition pairInput (i : nat) (a s : bytes) : bytes := if Nat.even i then a ++ s else s ++ a.

(** The inputs that the loop of [verify] hashes. *)
Fixpoint climbHashed (hash : bytes -> bytes) (h : bytes) (i : nat) (siblings : list bytes) : list bytes :=
  match siblings with
  | [] => []
  | s :: rest => pairInput i h s :: climbHashed hash (hash (pairInput i h s)) (i / 2) rest
  end.

(** The inputs that were hashed to build the layers of a tree. *)
Fixpoint pairsOf (l : layer) : list bytes :=
  match l with
  | a :: b :: rest => (a ++ b) :: pairsOf rest
  | _ => []
  end.

Definition treeHashed (t : MerkleTreeState) : list bytes := flat_map pairsOf (layers t).

Abbreviation all32 := (Forall (fun b : bytes => length b = 32)).

(** The node of a layer next to index [i]. *)
Definition sib (i : nat) : nat := if Nat.even i then S i else pred i.

Lemma log2_up_half n : 1 < n -> Nat.log2_up n = S (Nat.log2_up ((n + n mod 2) / 2)).
Proof.
  intros Hn. set (m := (n + n mod 2) / 2).
  destruct (decide (m = 1)) as [Hm|Hm].
  - rewrite Hm. assert (n = 2) as -> by (unfold m in Hm; lia). done.
  - assert (1 < m) as Hm' by (unfold m in *; lia).
    destruct (Nat.log2_up_spec m Hm') as [Hlo Hhi].
    assert (0 < Nat.log2_up m) as Hpos by (apply Nat.log2_up_pos; lia).
    apply Nat.log2_up_unique; [lia|]. rewrite Nat.pred_succ.
    replace (2 ^ S (Nat.log2_up m)) with (2 * 2 ^ Nat.log2_up m) by (simpl; lia).
    replace (2 ^ Nat.log2_up m) with (2 * 2 ^ pred (Nat.log2_up m)) in *
      by (rewrite <- Nat.pow_succ_r', Nat.succ_pred_pos; lia).
    unfold m in *. lia.
Qed.

Section LayerFacts.
Context (hash : bytes -> bytes).
#[local] Abbreviation buildTree := (buildTree hash).
#[local] Abbreviation pairUp := (pairUp hash).
#[local] Abbreviation hashPair := (hashPair hash).
#[local] Abbreviation climb := (climb hash).

Lemma buildTree_small L : ~ 1 < length L -> buildTree L = [L].
Proof. intros H. rewrite buildTree_equation_1. by destruct (decide _). Qed.

Lemma buildTree_big L :
  1 < length L -> buildTree L = padOdd L :: buildTree (pairUp (padOdd L)).
Proof. intros H. rewrite buildTree_equation_1. by destruct (decide _). Qed.

(** Induction that follows the [while] loop. *)
Lemma layer_ind (P : layer -> Prop) :
  (forall L, ~ 1 < length L -> P L) ->
  (forall L, 1 < length L -> P (pairUp (padOdd L)) -> P L) -> forall L, P L.
Proof.
  intros Hs Hb L. remember (length L) as n eqn:Hn. revert L Hn.
  induction n as [n IH] using lt_wf_ind. intros L ->.
  destruct (decide (1 < length L)); [|by apply Hs]. apply Hb; [done|].
  eapply IH; [|done]. rewrite pairUp_length, padOdd_length. lia.
Qed.

Lemma next_length L : length (pairUp (padOdd L)) = (length L + length L mod 2) / 2.
Proof. by rewrite pairUp_length, padOdd_length. Qed.

Lemma buildTree_cons L : exists l ls, buildTree L = l :: ls.
Proof.
  destruct (decide (1 < length L)); [rewrite buildTree_big|rewrite buildTree_small]; eauto.
Qed.

Lemma padOdd_lookup L i : i < length L -> padOdd L !! i = L !! i.
Proof.
  intros Hi. unfold padOdd. destruct (negb _); [|done]. by apply lookup_app_l.
Qed.

Lemma pairUp_lookup l k a b :
  l !! (2 * k) = Some a -> l !! S (2 * k) = Some b -> pairUp l !! k = Some (hashPair a b).
Proof.
  revert k. induction l as [| |x y l IH] using list_ind_2; intros k.
  - done.
  - destruct k; [done|]. replace (2 * S k) with (S (S (2 * k))) by lia. done.
  - destruct k as [|k]; [naive_solver|].
    replace (2 * S k) with (S (S (2 * k))) by lia. apply IH.
Qed.

Definition combineAt (i : nat) (a s : bytes) : bytes :=
  if Nat.even i then hashPair a s else hashPair s a.

Lemma pairUp_sib l i a s :
  l !! i = Some a -> l !! sib i = Some s -> pairUp l !! (i / 2) = Some (combineAt i a s).
Proof.
  unfold sib, combineAt. destruct (Nat.even i) eqn:E; intros Ha Hs.
  - apply Nat.even_spec in E as [k ->]. replace (2 * k / 2) with k by lia.
    by apply pairUp_lookup.
  - apply (f_equal negb) in E. rewrite Nat.negb_even in E. apply Nat.odd_spec in E as [k ->].
    replace ((2 * k + 1) / 2) with k by lia.
    replace (2 * k + 1) with (S (2 * k)) in * by lia. by apply pairUp_lookup.
Qed.

Lemma even_Zmod i : (Z.of_nat i mod 2 =? 0)%Z = Nat.even i.
Proof.
  destruct (Nat.even i) eqn:E.
  - apply Nat.even_spec in E as [k ->]. apply Z.eqb_eq. lia.
  - apply (f_equal negb) in E. rewrite Nat.negb_even in E. apply Nat.odd_spec in E as [k ->].
    apply Z.eqb_neq. lia.
Qed.

Lemma climb_cons h i s rest :
  climb h (Z.of_nat i) (s :: rest) = climb (combineAt i h s) (Z.of_nat (i / 2)) rest.
Proof.
  cbn [Merkle.climb]. rewrite even_Zmod. unfold combineAt. f_equal. lia.
Qed.

(** The node the top layer of [L] holds. *)
Definition top (L : layer) : bytes := default [] (last (buildTree L) ≫= head).

Lemma top_small L : ~ 1 < length L -> top L = default [] (head L).
Proof. intros H. unfold top. by rewrite buildTree_small. Qed.

Lemma top_big L : 1 < length L -> top L = top (pairUp (padOdd L)).
Proof.
  intros H. unfold top. rewrite (buildTree_big L) by done.
  destruct (buildTree_cons (pairUp (padOdd L))) as (l & ls & ->). done.
Qed.

Lemma sib_lt i n : i < n -> Nat.even n = true -> sib i < n.
Proof.
  unfold sib. intros Hi Hn. apply Nat.even_spec in Hn as [k ->].
  destruct (Nat.even i) eqn:E; [|lia]. apply Nat.even_spec in E as [j ->]. lia.
Qed.

Lemma padOdd_even L : Nat.even (length (padOdd L)) = true.
Proof.
  rewrite padOdd_length. apply Nat.even_spec. exists ((length L + length L mod 2) / 2). lia.
Qed.

Lemma proofLoop_cons current l ls idx :
  proofLoop (current :: l :: ls) idx =
    let siblingIdx := if (idx mod 2 =? 0)%Z then (idx + 1)%Z else (idx - 1)%Z in
    (if (siblingIdx <? js_length current)%Z
     then option_list (js_at current siblingIdx) else []) ++ proofLoop (l :: ls) (idx / 2).
Proof. done. Qed.

(** One round of the loop of [proof]. *)
Lemma proofLoop_step L i :
  1 < length L -> i < length L ->
  exists s, padOdd L !! sib i = Some s /\
    proofLoop (buildTree L) (Z.of_nat i) =
      s :: proofLoop (buildTree (pairUp (padOdd L))) (Z.of_nat (i / 2)).
Proof.
  intros HL Hi.
  assert (sib i < length (padOdd L)) as Hsib.
  { apply sib_lt, padOdd_even. rewrite padOdd_length. lia. }
  destruct (lookup_lt_is_Some_2 _ _ Hsib) as [s Hs]. exists s. split; [done|].
  rewrite (buildTree_big L) by done.
  destruct (buildTree_cons (pairUp (padOdd L))) as (l & ls & ->).
  rewrite proofLoop_cons, even_Zmod. cbv zeta.
  assert ((if Nat.even i then Z.of_nat i + 1 else Z.of_nat i - 1)%Z = Z.of_nat (sib i)) as ->.
  { unfold sib. destruct (Nat.even i) eqn:E; [lia|]. destruct i; [done|lia]. }
  unfold js_length. rewrite (proj2 (Z.ltb_lt _ _)), js_at_nat, Hs by lia.
  change (option_list (Some s)) with [s]. cbn [app]. do 2 f_equal. lia.
Qed.

Lemma proofLoop_small L i : ~ 1 < length L -> proofLoop (buildTree L) i = [].
Proof. intros H. by rewrite buildTree_small. Qed.

Lemma next_index L i : 1 < length L -> i < length L -> i / 2 < length (pairUp (padOdd L)).
Proof. intros. rewrite next_length. lia. Qed.

(** The proof of a leaf leads from the leaf to the top. *)
Lemma climb_proofLoop L i a :
  L !! i = Some a -> climb a (Z.of_nat i) (proofLoop (buildTree L) (Z.of_nat i)) = top L.
Proof.
  revert i a. induction L as [L HL|L HL IH] using layer_ind; intros i a Ha.
  - rewrite proofLoop_small, top_small by done.
    destruct L as [|x [|]]; simpl in *; [done| |lia]. destruct i; naive_solver.
  - pose proof (lookup_lt_Some _ _ _ Ha) as Hi.
    destruct (proofLoop_step L i) as (s & Hs & ->); [done..|].
    rewrite climb_cons, top_big by done. apply IH.
    apply pairUp_sib; [|done]. by rewrite padOdd_lookup.
Qed.

Lemma proofLoop_length L i :
  i < length L -> length (proofLoop (buildTree L) (Z.of_nat i)) = Nat.log2_up (length L).
Proof.
  revert i. induction L as [L HL|L HL IH] using layer_ind; intros i Hi.
  - rewrite proofLoop_small by done. symmetry. apply Nat.log2_up_null. lia.
  - destruct (proofLoop_step L i) as (s & Hs & ->); [done..|].
    cbn [length]. rewrite IH by (by apply next_index).
    rewrite next_length. by rewrite <- log2_up_half.
Qed.

Lemma combineAt_input i a s : combineAt i a s = hash (pairInput i a s).
Proof. unfold combineAt, pairInput, Merkle.hashPair. by destruct (Nat.even i). Qed.

Lemma pairInput_inj i a s a' s' :
  length a = length a' -> length s = length s' -> pairInput i a s = pairInput i a' s' -> a = a' /\ s = s'.
Proof.
  intros Ha Hs. unfold pairInput. destruct (Nat.even i); intros E; apply app_inj_1 in E; naive_solver.
Qed.

Lemma pairsOf_elem l k a b : l !! (2 * k) = Some a -> l !! S (2 * k) = Some b -> a ++ b ∈ pairsOf l.
Proof.
  revert k. induction l as [| |x y l IH] using list_ind_2; intros k.
  - done.
  - destruct k; [done|]. replace (2 * S k) with (S (S (2 * k))) by lia. done.
  - destruct k as [|k]; [simpl; intros [= ->] [= ->]; left|].
    replace (2 * S k) with (S (S (2 * k))) by lia. simpl. intros Ha Hb. right. by apply (IH k).
Qed.

(** A node and its sibling were hashed when the layer was built. *)
Lemma pairsOf_sib l i a s : l !! i = Some a -> l !! sib i = Some s -> pairInput i a s ∈ pairsOf l.
Proof.
  unfold sib, pairInput. destruct (Nat.even i) eqn:E; intros Ha Hs.
  - apply Nat.even_spec in E as [k ->]. by apply (pairsOf_elem l k).
  - apply (f_equal negb) in E. rewrite Nat.negb_even in E. apply Nat.odd_spec in E as [k ->].
    replace (2 * k + 1) with (S (2 * k)) in * by lia. by apply (pairsOf_elem l k).
Qed.

(** Checking the proof of a leaf hashes what building the layers hashed. *)
Lemma climbHashed_proofLoop L i a :
  L !! i = Some a ->
  climbHashed hash a i (proofLoop (buildTree L) (Z.of_nat i)) ⊆ flat_map pairsOf (buildTree L).
Proof.
  revert i a. induction L as [L HL|L HL IH] using layer_ind; intros i a Ha.
  - rewrite proofLoop_small by done. set_solver.
  - pose proof (lookup_lt_Some _ _ _ Ha) as Hi.
    destruct (proofLoop_step L i) as (s & Hs & ->); [done..|]. rewrite (buildTree_big L) by done.
    assert (padOdd L !! i = Some a) as Ha' by (by rewrite padOdd_lookup).
    cbn [climbHashed flat_map]. rewrite <- combineAt_input.
    pose proof (pairsOf_sib _ _ _ _ Ha' Hs). pose proof (IH _ _ (pairUp_sib _ _ _ _ Ha' Hs)). set_solver.
Qed.

Lemma pairUp_all32 l : (forall x, length (hash x) = 32) -> all32 (pairUp l).
Proof.
  intros Hh. induction l as [| |x y l IH] using list_ind_2; simpl; [by constructor..|].
  constructor; [apply Hh|done].
Qed.

Lemma padOdd_all32 L : all32 L -> all32 (padOdd L).
Proof.
  intros H. unfold padOdd. destruct (negb _); [|done]. apply Forall_app_2; [done|].
  destruct (js_at L _) as [x|] eqn:E; [|by constructor].
  apply js_at_Some in E as [_ E]. apply Forall_singleton.
  exact (Forall_lookup_1 _ _ _ _ H E).
Qed.

Lemma proofLoop_all32 L i :
  (forall x, length (hash x) = 32) -> all32 L -> i < length L ->
  all32 (proofLoop (buildTree L) (Z.of_nat i)).
Proof.
  intros Hh. revert i. induction L as [L HL|L HL IH] using layer_ind; intros i H32 Hi.
  - rewrite proofLoop_small by done. constructor.
  - destruct (proofLoop_step L i) as (s & Hs & ->); [done..|]. constructor.
    + exact (Forall_lookup_1 _ _ _ _ (padOdd_all32 _ H32) Hs).
    + apply IH; [by apply pairUp_all32|by apply next_index].
Qed.

(** A second path of the same length to the same top gives back the leaf and
    its siblings, or exhibits a collision among the hashed inputs. *)
Lemma climb_binding L :
  (forall x, length (hash x) = 32) -> all32 L ->
  forall i a leaf pf, L !! i = Some a ->
    length pf = Nat.log2_up (length L) -> length leaf = 32 -> all32 pf ->
    climb leaf (Z.of_nat i) pf = top L ->
    (leaf = a /\ pf = proofLoop (buildTree L) (Z.of_nat i)) \/
    CollisionIn hash (climbHashed hash leaf i pf ++ flat_map pairsOf (buildTree L)).
Proof.
  intros Hh. induction L as [L HL|L HL IH] using layer_ind; intros H32 i a leaf pf Ha Hlen Hleaf Hpf Hc.
  - rewrite (proj2 (Nat.log2_up_null (length L))) in Hlen by lia.
    apply nil_length_inv in Hlen as ->. rewrite proofLoop_small by done. left. split; [|done].
    rewrite top_small in Hc by done. simpl in Hc. subst leaf.
    destruct L as [|x [|]]; simpl in *; [done| |lia]. destruct i; naive_solver.
  - pose proof (lookup_lt_Some _ _ _ Ha) as Hi.
    destruct (proofLoop_step L i) as (s & Hs & Hpl); [done..|]. rewrite Hpl.
    rewrite log2_up_half, <- next_length in Hlen by done.
    destruct pf as [|s' pf]; [done|]. rewrite climb_cons, top_big in Hc by done.
    apply Forall_cons in Hpf as [Hs' Hpf].
    pose proof (Forall_lookup_1 _ _ _ _ H32 Ha) as Ha32.
    pose proof (Forall_lookup_1 _ _ _ _ (padOdd_all32 _ H32) Hs) as Hs32.
    assert (padOdd L !! i = Some a) as Ha' by (by rewrite padOdd_lookup).
    rewrite (buildTree_big L) by done. cbn [climbHashed flat_map]. rewrite combineAt_input in Hc.
    destruct (IH (pairUp_all32 _ Hh) (i / 2) (combineAt i a s) (hash (pairInput i leaf s')) pf)
      as [[Heq ->]|Hcol]; [by apply pairUp_sib|naive_solver lia|apply Hh|done|done| |].
    + rewrite combineAt_input in Heq. pose proof (pairsOf_sib _ _ _ _ Ha' Hs).
      edestruct (hash_inj_or hash) as [E|Hcol]; [| |exact Heq| |right; exact Hcol]; [set_solver..|].
      apply pairInput_inj in E as [-> ->]; [by left|congruence..].
    + right. eapply collision_mono; [|exact Hcol]. set_solver.
Qed.
End LayerFacts.

(** ** The contract of a tree over a leaf list

    What the tree classes promise to the code that builds and checks proofs;
    the clients are verified against this interface. *)

Class TreeContract (hash : bytes -> bytes) (t : MerkleTreeState) (L : list bytes) : Prop := {
  tc_count : leafCount t = js_length L;
  tc_empty : L = [] -> root t = zeroBytes 32;
  tc_leaf : forall i a, js_at L i = Some a -> leafAt t i = Ok a;
  tc_range : forall i, ~ (0 <= i < js_length L)%Z ->
    leafAt t i = Err (LeafIndexOutOfRange i) /\ proof t i = Err (LeafIndexOutOfRange i);
  tc_complete : forall i a, js_at L i = Some a ->
    exists pf, proof t i = Ok pf /\ length pf = Nat.log2_up (length L) /\ climb hash a i pf = root t;
  tc_proof32 : (forall x, length (hash x) = 32) -> all32 L ->
    forall i pf, proof t i = Ok pf -> all32 pf;
  tc_binding : (forall x, length (hash x) = 32) -> all32 L ->
    forall i a leaf pf, js_at L i = Some a ->
      length pf = Nat.log2_up (length L) -> length leaf = 32 -> all32 pf ->
      climb hash leaf i pf = root t ->
      (leaf = a /\ proof t i = Ok pf) \/ CollisionIn hash (climbHashed hash leaf (Z.to_nat i) pf ++ treeHashed t);
  tc_hashed : forall i a pf, js_at L i = Some a -> proof t i = Ok pf ->
    climbHashed hash a (Z.to_nat i) pf ⊆ treeHashed t
}.

Definition treeOf (hash : bytes -> bytes) (L : list bytes) : MerkleTreeState :=
  {| layers := buildTree hash L; leafCount := js_length L |}.

Section TreeOf.
Context (hash : bytes -> bytes).

Lemma root_treeOf L : L <> [] -> root (treeOf hash L) = top hash L.
Proof.
  intros HL. unfold root, top. simpl layers.
  destruct (decide (1 < length L)) as [H|H].
  - rewrite buildTree_big by done. destruct (padOdd L) eqn:E; [|done].
    apply (f_equal length) in E. rewrite padOdd_length in E. simpl in E. lia.
  - rewrite buildTree_small by done. by destruct L.
Qed.

Lemma in_range_guard (L : list bytes) i a :
  js_at L i = Some a -> ((i <? 0) || (i >=? js_length L))%Z = false.
Proof. intros [? _]%js_at_Some. apply orb_false_iff. lia. Qed.

Lemma out_of_range_guard (L : list bytes) i :
  ~ (0 <= i < js_length L)%Z -> ((i <? 0) || (i >=? js_length L))%Z = true.
Proof. intros. apply orb_true_iff. lia. Qed.

Lemma layer0_lookup L i a :
  js_at L i = Some a -> (head (buildTree hash L) ≫= fun l => js_at l i) = Some a.
Proof.
  intros Ha. destruct (decide (1 < length L)) as [H|H].
  - rewrite buildTree_big by done. simpl. unfold js_at in *.
    destruct (i <? 0)%Z; [done|]. rewrite padOdd_lookup; [done|]. by eapply lookup_lt_Some.
  - by rewrite buildTree_small.
Qed.

Lemma js_at_nonempty (L : list bytes) i a : js_at L i = Some a -> L <> [].
Proof. intros [? H]%js_at_Some. by destruct L. Qed.

#[export] Instance treeOf_contract L : TreeContract hash (treeOf hash L) L.
Proof.
  split.
  - done.
  - intros ->. unfold root, treeOf. simpl. by rewrite buildTree_small by (simpl; lia).
  - intros i a Ha. unfold leafAt. simpl. rewrite (in_range_guard L i a) by done.
    simpl. by rewrite (layer0_lookup L i a).
  - intros i Hi. unfold leafAt, proof. simpl. by rewrite out_of_range_guard.
  - intros i a Ha. unfold proof. simpl. rewrite (in_range_guard L i a) by done.
    eexists. split; [done|]. apply js_at_Some in Ha as Hr. destruct Hr as [Hr Hl].
    rewrite root_treeOf by (by eapply js_at_nonempty).
    replace i with (Z.of_nat (Z.to_nat i)) by lia. unfold js_length in Hr.
    split; [apply proofLoop_length; lia|by apply climb_proofLoop].
  - intros Hh H32 i pf Hpf. unfold proof in Hpf. ok_inv. simpl in *. subst pf.
    apply orb_false_iff in H as [H1 H2]. unfold js_length in H2.
    replace i with (Z.of_nat (Z.to_nat i)) by lia. apply proofLoop_all32; [done..|lia].
  - intros Hh H32 i a leaf pf Ha Hlen Hleaf Hpf Hc.
    rewrite root_treeOf in Hc by (by eapply js_at_nonempty).
    unfold proof. simpl. rewrite (in_range_guard L i a) by done. simpl.
    apply js_at_Some in Ha as [Hr Ha].
    replace i with (Z.of_nat (Z.to_nat i)) in Hc by lia. replace (proofLoop _ i) with (proofLoop (buildTree hash L) (Z.of_nat (Z.to_nat i))) by (f_equal; lia).
    destruct (climb_binding hash L Hh H32 (Z.to_nat i) a leaf pf) as [[-> ->]|?]; auto.
  - intros i a pf [Hr Ha]%js_at_Some Hpf. unfold proof in Hpf. ok_inv. simpl in *. subst pf.
    replace (proofLoop _ i) with (proofLoop (buildTree hash L) (Z.of_nat (Z.to_nat i))) by (f_equal; lia).
    by apply climbHashed_proofLoop.
Qed.

Lemma V10MerkleTree_treeOf leaves :
  V10MerkleTree hash leaves = treeOf hash (dedupe (js_sort compareBytes leaves)).
Proof.
  destruct leaves; [|done]. unfold treeOf. simpl. by rewrite buildTree_small by (simpl; lia).
Qed.

Lemma MerkleTree_treeOf leaves :
  MerkleTree hash leaves = treeOf hash (js_sort compareBytes leaves).
Proof.
  destruct leaves; [|done]. unfold treeOf. simpl. by rewrite buildTree_small by (simpl; lia).
Qed.

Lemma firstNot32_None k leaves : firstNot32 k leaves = None <-> all32 leaves.
Proof.
  revert k. induction leaves as [|l leaves IH]; intros k; simpl; [by split|].
  rewrite Forall_cons, <- (IH (S k)). unfold js_length.
  destruct (Z.eqb_spec (Z.of_nat (length l)) 32); simpl; naive_solver lia.
Qed.

Lemma ChunksTree_treeOf leaves :
  all32 leaves -> V10CiphertextChunksMerkleTree hash leaves = Ok (treeOf hash leaves).
Proof.
  intros H. destruct leaves as [|l leaves].
  - unfold treeOf. simpl. by rewrite buildTree_small by (simpl; lia).
  - unfold V10CiphertextChunksMerkleTree. by rewrite (proj2 (firstNot32_None 0 _) H).
Qed.
End TreeOf.

(** ** The canonical leaf list of [V10MerkleTree] *)

Definition bytes_lt (a b : bytes) : Prop := (compareBytes a b < 0)%Z.

Definition canonicalLeaves (leaves : list bytes) : list bytes :=
  dedupe (js_sort compareBytes leaves).

Lemma bytes_lt_irrefl a : ~ bytes_lt a a.
Proof. unfold bytes_lt. rewrite (proj2 (compareBytes_eq a a)) by done. lia. Qed.

Lemma bytes_le_lt a b : cmp_le compareBytes a b -> a <> b -> bytes_lt a b.
Proof.
  unfold cmp_le, bytes_lt. intros H Hne.
  assert (compareBytes a b <> 0%Z) by (by rewrite compareBytes_eq). lia.
Qed.

Lemma bytes_lt_trans a b c : bytes_lt a b -> cmp_le compareBytes b c -> bytes_lt a c.
Proof.
  intros H1 H2. apply bytes_le_lt.
  - apply (compareBytes_trans a b c); [unfold bytes_lt in H1; lia|done].
  - intros ->. unfold bytes_lt, cmp_le in *. rewrite compareBytes_flip in H2. lia.
Qed.

Lemma dedupeFrom_elem prev l x : x ∈ prev :: dedupeFrom prev l <-> x ∈ prev :: l.
Proof.
  revert prev. induction l as [|y l IH]; intros prev; simpl; [done|].
  destruct (Z.eqb_spec (compareBytes y prev) 0) as [E|E]; simpl.
  - apply compareBytes_eq in E as ->. rewrite IH. set_solver.
  - rewrite elem_of_cons, IH. set_solver.
Qed.

Lemma dedupe_elem l x : x ∈ dedupe l <-> x ∈ l.
Proof. destruct l as [|y l]; [done|]. apply dedupeFrom_elem. Qed.

Lemma dedupeFrom_sorted prev l :
  StronglySorted (cmp_le compareBytes) (prev :: l) ->
  StronglySorted bytes_lt (prev :: dedupeFrom prev l).
Proof.
  revert prev. induction l as [|y l IH]; intros prev Hs; simpl; [repeat constructor|].
  apply StronglySorted_inv in Hs as [Hs [Hy Hl]%Forall_cons].
  destruct (Z.eqb_spec (compareBytes y prev) 0) as [E|E]; simpl.
  - apply compareBytes_eq in E as ->. by apply IH.
  - constructor; [by apply IH|]. apply Forall_forall. intros z Hz.
    rewrite list_elem_of_In, dedupeFrom_elem in Hz || rewrite dedupeFrom_elem in Hz.
    assert (bytes_lt prev y) as Hlt.
    { apply bytes_le_lt; [done|]. intros ->. apply E. by apply compareBytes_eq. }
    apply elem_of_cons in Hz as [->|Hz]; [done|].
    apply (bytes_lt_trans _ y); [done|].
    apply StronglySorted_inv in Hs as [_ Hs]. rewrite Forall_forall in Hs. by apply Hs.
Qed.

Lemma canonicalLeaves_sorted leaves : StronglySorted bytes_lt (canonicalLeaves leaves).
Proof.
  unfold canonicalLeaves. pose proof (js_sort_sorted compareBytes leaves) as H.
  destruct (js_sort compareBytes leaves); [constructor|]. by apply dedupeFrom_sorted.
Qed.

Lemma canonicalLeaves_elem leaves x : x ∈ canonicalLeaves leaves <-> x ∈ leaves.
Proof. unfold canonicalLeaves. rewrite dedupe_elem. by rewrite js_sort_perm. Qed.

(** A strictly sorted list is determined by its elements. *)
Lemma strict_sorted_unique l1 l2 :
  StronglySorted bytes_lt l1 -> StronglySorted bytes_lt l2 ->
  (forall x, x ∈ l1 <-> x ∈ l2) -> l1 = l2.
Proof.
  intros H1. revert l2. induction H1 as [|a l1 H1 IH Ha]; intros l2 H2 Heq.
  - destruct l2 as [|b l2]; [done|]. specialize (Heq b). set_solver.
  - destruct H2 as [|b l2 H2 Hb]; [specialize (Heq a); set_solver|].
    rewrite Forall_forall in Ha, Hb.
    assert (a = b) as <-.
    { destruct (decide (a = b)) as [|Hne]; [done|].
      assert (bytes_lt a b) as Hab by (apply Ha; specialize (Heq b); set_solver).
      assert (bytes_lt b a) as Hba by (apply Hb; specialize (Heq a); set_solver).
      unfold bytes_lt in *. rewrite compareBytes_flip in Hba. lia. }
    f_equal. apply IH; [done|]. intros x.
    assert (~ a ∈ l1) by (intros Hin; apply (bytes_lt_irrefl a); by apply Ha).
    assert (~ a ∈ l2) by (intros Hin; apply (bytes_lt_irrefl a); by apply Hb).
    specialize (Heq x). set_solver.
Qed.

Lemma canonicalLeaves_set l1 l2 :
  (forall x, x ∈ l1 <-> x ∈ l2) -> canonicalLeaves l1 = canonicalLeaves l2.
Proof.
  intros H. apply strict_sorted_unique; [apply canonicalLeaves_sorted..|].
  intros x. by rewrite !canonicalLeaves_elem.
Qed.

Lemma strict_sorted_NoDup l : StronglySorted bytes_lt l -> NoDup l.
Proof.
  induction 1 as [|a l Hl IH Ha]; constructor; [|done].
  intros Hin. rewrite Forall_forall in Ha. by apply (bytes_lt_irrefl a), Ha.
Qed.

Lemma canonicalLeaves_length leaves :
  length (canonicalLeaves leaves) = length (remove_dups leaves).
Proof.
  apply Permutation_length. apply NoDup_Permutation.
  - apply strict_sorted_NoDup, canonicalLeaves_sorted.
  - apply NoDup_remove_dups.
  - intros x. by rewrite canonicalLeaves_elem, elem_of_remove_dups.
Qed.

Lemma canonicalLeaves_all32 leaves : all32 leaves -> all32 (canonicalLeaves leaves).
Proof.
  rewrite !Forall_forall. intros H x Hx. apply H. by apply canonicalLeaves_elem.
Qed.

Lemma V10MerkleTree_canonical hash leaves :
  V10MerkleTree hash leaves = treeOf hash (canonicalLeaves leaves).
Proof. apply V10MerkleTree_treeOf. Qed.

#[export] Instance V10MerkleTree_contract hash leaves :
  TreeContract hash (V10MerkleTree hash leaves) (canonicalLeaves leaves).
Proof. rewrite V10MerkleTree_canonical. apply _. Qed.

(** ** Using a contract *)

Section Contract.
Context (hash : bytes -> bytes) (t : MerkleTreeState) (L : list bytes) `{!TreeContract hash t L}.

Lemma verify_true r leaf pf i : verify hash r leaf pf i = true <-> climb hash leaf i pf = r.
Proof. unfold verify. rewrite Z.eqb_eq. apply compareBytes_eq. Qed.

Lemma contract_leafAt i a : leafAt t i = Ok a <-> js_at L i = Some a.
Proof.
  split; [|apply (tc_leaf i a)]. intros H.
  destruct (decide (0 <= i < js_length L)%Z) as [Hi|Hi].
  - destruct (js_at_in_range L i Hi) as (b & Hb & _).
    rewrite (tc_leaf i b Hb) in H. naive_solver.
  - destruct (tc_range i Hi) as [Hl _]. congruence.
Qed.

Lemma contract_in_range i :
  (0 <= i < leafCount t)%Z -> exists a, js_at L i = Some a /\ a ∈ L.
Proof. rewrite tc_count. apply js_at_in_range. Qed.

Lemma contract_count_nat : Z.to_nat (leafCount t) = length L.
Proof. rewrite tc_count. unfold js_length. lia. Qed.

Lemma contract_complete i a : js_at L i = Some a ->
  exists pf, proof t i = Ok pf /\ length pf = Nat.log2_up (Z.to_nat (leafCount t)) /\
    verify hash (root t) a pf i = true.
Proof.
  intros Ha. destruct (tc_complete i a Ha) as (pf & Hpf & Hpl & Hc).
  exists pf. by rewrite contract_count_nat, verify_true.
Qed.

Lemma contract_binds : (forall x, length (hash x) = 32) -> all32 L ->
  forall i a leaf pf, leafAt t i = Ok a ->
    length pf = Nat.log2_up (Z.to_nat (leafCount t)) -> length leaf = 32 -> all32 pf ->
    verify hash (root t) leaf pf i = true ->
    (leaf = a /\ proof t i = Ok pf) \/ CollisionIn hash (climbHashed hash leaf (Z.to_nat i) pf ++ treeHashed t).
Proof.
  intros Hh H32 i a leaf pf Ha%contract_leafAt. rewrite contract_count_nat.
  intros Hlen Hleaf Hpf Hv%verify_true. by apply (tc_binding Hh H32 i a).
Qed.
End Contract.

(** Two trees with as many leaves and the same root have the same leaves, or
    the hash collides on inputs hashed to build them. *)
Lemma contract_root_binds hash t1 L1 t2 L2 `{!TreeContract hash t1 L1, !TreeContract hash t2 L2} :
  (forall x, length (hash x) = 32) -> all32 L1 -> all32 L2 ->
  leafCount t1 = leafCount t2 -> root t1 = root t2 ->
  L1 = L2 \/ CollisionIn hash (treeHashed t1 ++ treeHashed t2).
Proof.
  intros Hh H1 H2 Hc Hr.
  assert (length L1 = length L2) as Hlen.
  { rewrite <- (contract_count_nat hash t1 L1), <- (contract_count_nat hash t2 L2). by rewrite Hc. }
  destruct (decide (L1 = L2)) as [|Hne]; [by left|right].
  assert (exists n a b, L1 !! n = Some a /\ L2 !! n = Some b /\ a <> b) as (n & a & b & Ha & Hb & Hab).
  { clear -Hlen Hne. revert L2 Hlen Hne. induction L1 as [|a L1 IH]; intros [|b L2] Hlen Hne; try done.
    destruct (decide (a = b)) as [->|]; [|by exists 0, a, b].
    destruct (IH L2) as (n & x & y & ?); [naive_solver..|]. by exists (S n), x, y. }
  rewrite <- js_at_nat in Ha, Hb.
  destruct (tc_complete (Z.of_nat n) a Ha) as (pf & Hpf & Hpl & Hcl).
  rewrite Hlen in Hpl. rewrite Hr in Hcl.
  destruct (tc_binding Hh H2 (Z.of_nat n) b a pf) as [[-> _]|Hcol]; [done..| | |done|done|].
  - apply js_at_Some in Ha as [_ Ha]. exact (Forall_lookup_1 _ _ _ _ H1 Ha).
  - exact (tc_proof32 Hh H1 _ _ Hpf).
  - eapply collision_mono; [|exact Hcol]. pose proof (tc_hashed _ _ _ Ha Hpf). set_solver.
Qed.

(** ** Properties of the tree classes *)

(** A 32-byte function with which the properties are evaluated. *)
Definition sampleHash (b : bytes) : bytes := take 32 (b ++ zeroBytes 32).

Lemma sampleHash_length b : length (sampleHash b) = 32.
Proof. unfold sampleHash, zeroBytes. rewrite length_take, length_app, length_replicate. lia. Qed.

Definition sampleLeaf (b : byte) : bytes := b :: zeroBytes 31.
Definition sampleLeaves : list bytes := [sampleLeaf x03; sampleLeaf x01; sampleLeaf x02; sampleLeaf x01].

(** C15: Every index below the leaf count of a [V10MerkleTree] has a leaf that was
    given to the constructor and a proof, and [verify] accepts that leaf, proof
    and index against the root; the proof has ceil(log2(leafCount)) siblings. *)
Theorem v10_proof_verifies hash leaves i :
  let t := V10MerkleTree hash leaves in
  (0 <= i < leafCount t)%Z ->
  exists leaf pf, leafAt t i = Ok leaf /\ leaf ∈ leaves /\ proof t i = Ok pf /\
    length pf = Nat.log2_up (Z.to_nat (leafCount t)) /\
    verify hash (root t) leaf pf i = true.
Proof.
  intros t Hi. destruct (contract_in_range hash t (canonicalLeaves leaves) i Hi) as (a & Ha & Hin).
  destruct (contract_complete hash t (canonicalLeaves leaves) i a Ha) as (pf & Hpf & Hpl & Hv).
  exists a, pf. split_and!; [|by apply canonicalLeaves_elem|done..].
  by apply (contract_leafAt hash t (canonicalLeaves leaves)).
Qed.

Lemma v10_proof_verifies_witness :
  let t := V10MerkleTree sampleHash sampleLeaves in
  exists leaf pf, leafAt t 2 = Ok leaf /\ leaf ∈ sampleLeaves /\ proof t 2 = Ok pf /\
    length pf = Nat.log2_up (Z.to_nat (leafCount t)) /\
    verify sampleHash (root t) leaf pf 2 = true.
Proof. apply (v10_proof_verifies sampleHash sampleLeaves 2). vm_compute. split; congruence. Defined.

(** C31: Binding of [V10MerkleTree.verify]: a 32-byte leaf with 32-byte siblings of the
    tree's height that verifies at an index is the leaf the tree holds there and its
    siblings are the tree's own proof, unless the hash collides on inputs hashed by
    [verify] and for the tree. *)
Theorem v10_verify_binding hash leaves i a leaf pf :
  let t := V10MerkleTree hash leaves in
  (forall x, length (hash x) = 32) -> all32 leaves ->
  leafAt t i = Ok a ->
  length pf = Nat.log2_up (Z.to_nat (leafCount t)) -> length leaf = 32 -> all32 pf ->
  verify hash (root t) leaf pf i = true ->
  (leaf = a /\ proof t i = Ok pf) \/ CollisionIn hash (climbHashed hash leaf (Z.to_nat i) pf ++ treeHashed t).
Proof.
  intros t Hh H32. apply (contract_binds hash t (canonicalLeaves leaves) Hh).
  by apply canonicalLeaves_all32.
Qed.

Lemma v10_verify_binding_witness :
  let t := V10MerkleTree sampleHash sampleLeaves in
  let pf := [sampleLeaf x03; sampleHash (sampleLeaf x01 ++ sampleLeaf x02)] in
  (sampleLeaf x03 = sampleLeaf x03 /\ proof t 2 = Ok pf) \/
  CollisionIn sampleHash (climbHashed sampleHash (sampleLeaf x03) 2 pf ++ treeHashed t).
Proof.
  apply (v10_verify_binding sampleHash sampleLeaves 2 (sampleLeaf x03) (sampleLeaf x03)).
  - exact sampleHash_length.
  - repeat constructor.
  - reflexivity.
  - reflexivity.
  - reflexivity.
  - repeat constructor.
  - vm_compute. reflexivity.
Defined.

(** A [V10MerkleTree] depends only on the set of leaves: order and repetition
    of the input leave the whole tree unchanged. *)
Theorem v10_tree_of_set hash l1 l2 :
  (forall x, x ∈ l1 <-> x ∈ l2) -> V10MerkleTree hash l1 = V10MerkleTree hash l2.
Proof. intros H. by rewrite !V10MerkleTree_canonical, (canonicalLeaves_set l1 l2 H). Qed.

Lemma v10_tree_of_set_witness :
  V10MerkleTree sampleHash [sampleLeaf x02; sampleLeaf x01; sampleLeaf x02] =
  V10MerkleTree sampleHash [sampleLeaf x01; sampleLeaf x02].
Proof. apply v10_tree_of_set. intros x. set_solver. Defined.

(** The index space of a [V10MerkleTree]: the leaf count is the number of distinct
    leaves, every given leaf has an index and only given leaves do, and leaves strictly
    increase with their index. *)
Theorem v10_index_space hash leaves :
  let t := V10MerkleTree hash leaves in
  leafCount t = js_length (remove_dups leaves) /\
  (forall x, x ∈ leaves <-> exists i, leafAt t i = Ok x) /\
  (forall i j a b, leafAt t i = Ok a -> leafAt t j = Ok b -> (i < j)%Z <-> (compareBytes a b < 0)%Z).
Proof.
  intros t. pose proof (canonicalLeaves_sorted leaves) as Hs.
  split_and!.
  - rewrite (tc_count (hash := hash) (L := canonicalLeaves leaves)). unfold js_length.
    by rewrite canonicalLeaves_length.
  - intros x. rewrite <- canonicalLeaves_elem, list_elem_of_lookup. split.
    + intros [n Hn]. exists (Z.of_nat n).
      by rewrite (contract_leafAt hash t (canonicalLeaves leaves)), js_at_nat.
    + intros [i [_ Hi]%(contract_leafAt hash t (canonicalLeaves leaves))%js_at_Some]. eauto.
  - intros i j a b [Hi Ha]%(contract_leafAt hash t (canonicalLeaves leaves))%js_at_Some
      [Hj Hb]%(contract_leafAt hash t (canonicalLeaves leaves))%js_at_Some.
    assert (forall i j a b, i < j -> canonicalLeaves leaves !! i = Some a ->
      canonicalLeaves leaves !! j = Some b -> bytes_lt a b) as Hlt.
    { clear -Hs. induction Hs as [|x l Hl IH Hx]; intros i j a b Hij; [done|].
      destruct j; [lia|]. destruct i; simpl; [|apply IH; lia].
      intros [= <-] Hb. rewrite Forall_forall in Hx. apply Hx. by eapply list_elem_of_lookup_2. }
    split; [intros; eapply (Hlt (Z.to_nat i) (Z.to_nat j)); [lia|done..]|].
    intros Hab. destruct (Z.lt_trichotomy i j) as [|[->|Hji]]; [done| |].
    + assert (a = b) as -> by congruence. by destruct (bytes_lt_irrefl b).
    + assert (bytes_lt b a) as Hba by (eapply (Hlt (Z.to_nat j) (Z.to_nat i)); [lia|done..]).
      unfold bytes_lt in Hba. rewrite compareBytes_flip in Hba. lia.
Qed.

(** Root commitment of [V10MerkleTree]: two leaf lists with the same number of
    distinct leaves and the same root have the same leaves, unless the hash collides
    on inputs hashed for the two trees. *)
Theorem v10_root_binds_leaves hash l1 l2 :
  (forall x, length (hash x) = 32) -> all32 l1 -> all32 l2 ->
  leafCount (V10MerkleTree hash l1) = leafCount (V10MerkleTree hash l2) ->
  root (V10MerkleTree hash l1) = root (V10MerkleTree hash l2) ->
  (forall x, x ∈ l1 <-> x ∈ l2) \/
  CollisionIn hash (treeHashed (V10MerkleTree hash l1) ++ treeHashed (V10MerkleTree hash l2)).
Proof.
  intros Hh H1 H2 Hc Hr.
  destruct (contract_root_binds hash _ (canonicalLeaves l1) _ (canonicalLeaves l2) Hh
    (canonicalLeaves_all32 _ H1) (canonicalLeaves_all32 _ H2) Hc Hr) as [Heq|?]; [|by right].
  left. intros x. by rewrite <- (canonicalLeaves_elem l1), <- (canonicalLeaves_elem l2), Heq.
Qed.

Lemma v10_root_binds_leaves_witness :
  let l := [sampleLeaf x01; sampleLeaf x02; sampleLeaf x03] in
  (forall x, x ∈ sampleLeaves <-> x ∈ l) \/
  CollisionIn sampleHash (treeHashed (V10MerkleTree sampleHash sampleLeaves) ++ treeHashed (V10MerkleTree sampleHash l)).
Proof.
  apply v10_root_binds_leaves.
  - exact sampleHash_length.
  - repeat constructor.
  - repeat constructor.
  - vm_compute. reflexivity.
  - vm_compute. reflexivity.
Defined.
