(* ===== verification/ProofMaterial.v ===== *)
(** * Random-sampling proof material

    The structured Knowledge Asset commitment of packages/core/src/crypto
    (v10-merkle.ts: [collapsePrivateDataHashV10], [structuredKARootV10]), the
    proof builders and the self-check of proof-material.ts, and the guards
    with which RandomSampling.submitProof
    (packages/evm-module/contracts/RandomSampling.sol) accepts a submission.
    [keccak256] comes from a third-party package and is a parameter. *)

From stdpp Require Import base numbers list option strings gmap sets.
From Stdlib Require Import Strings.Byte Ascii.
From S2P Require Import Prelude Bytes Merkle.

(** [new TextEncoder().encode(s)] of a string of ASCII characters. *)
Definition encodeAscii (s : string) : bytes := map byte_of_ascii (String.list_ascii_of_string s).

(** ** Data of proof-material.ts *)

Record V10ProofMaterial : Type := {
  pm_content : bytes;
  pm_leaf : bytes;
  pm_proof : list bytes;
  pm_merkleRoot : bytes;
  pm_leafCount : Z
}.

Record V10MerkleCommitment : Type := {
  mc_merkleRoot : bytes;
  mc_merkleLeafCount : Z
}.

(** The errors the builders throw; [TreeRangeError] is a [RangeError] of the
    tree they call. *)
Inductive proof_error : Type :=
| V10ProofRootMismatchError (computed expected : bytes)
| V10ProofLeafCountMismatchError (computed expected : Z)
| V10ProofChunkOutOfRangeError (chunkId leafCount : Z)
| NoContentForLeaf
| TreeRangeError (e : merkle_error).

Definition liftTree {A : Type} (r : result merkle_error A) : result proof_error A :=
  match r with Ok a => Ok a | Err e => Err (TreeRangeError e) end.

(** Result of [structuredKARootV10]. *)
Record StructuredKARootResult : Type := {
  sk_root : bytes;
  sk_leafCount : Z;
  sk_publicTree : MerkleTreeState;
  sk_privateDataHash : bytes
}.

(** Result of [buildCiphertextChunksRoot]. *)
Record CiphertextChunksCommitment : Type := {
  cc_root : bytes;
  cc_leafCount : Z;
  cc_leaves : list bytes;
  cc_tree : MerkleTreeState
}.

Section WithKeccak.
  Context (keccak256 : bytes -> bytes).

Definition SENTINEL_NO_PRIVATE_V10 : bytes := keccak256 (encodeAscii "DKG_NO_PRIVATE_DATA_V10").
Definition SENTINEL_NO_PUBLIC_V10 : bytes := keccak256 (encodeAscii "DKG_NO_PUBLIC_DATA_V10").

Definition collapsePrivateDataHashV10 (privateRoots : list bytes) : bytes :=
  if (0 <? js_length privateRoots)%Z
  then root (V10MerkleTree keccak256 privateRoots)
  else SENTINEL_NO_PRIVATE_V10.

Definition structuredKARootV10 (publicLeaves privateRoots : list bytes) : StructuredKARootResult :=
  let publicTree := V10MerkleTree keccak256 publicLeaves in
  let publicRoot := if (0 <? js_length publicLeaves)%Z then root publicTree else SENTINEL_NO_PUBLIC_V10 in
  let privateDataHash := collapsePrivateDataHashV10 privateRoots in
  {| sk_root := computeKARoot keccak256 (Some publicRoot) (Some privateDataHash);
     sk_leafCount := leafCount publicTree;
     sk_publicTree := publicTree;
     sk_privateDataHash := privateDataHash |}.

(** [new Map(leaves.map((h, i) => [toHex(h), contents[i]]))]: a later entry
    replaces an earlier one with the same key. *)
Definition byHash (leaves contents : list bytes) : gmap string bytes :=
  foldl (fun m e => <[toHex e.1 := e.2]> m) ∅ (zip leaves contents).

Definition buildV10ProofMaterial (publicLeafContents privateRoots : list bytes) (chunkId : Z)
    (expected : V10MerkleCommitment) : result proof_error V10ProofMaterial :=
  let leaves := map keccak256 publicLeafContents in
  let r := structuredKARootV10 leaves privateRoots in
  throw (V10ProofLeafCountMismatchError (sk_leafCount r) (mc_merkleLeafCount expected))
    when negb (sk_leafCount r =? mc_merkleLeafCount expected)%Z;
  throw (V10ProofRootMismatchError (sk_root r) (mc_merkleRoot expected))
    when negb (bytesEqual (sk_root r) (mc_merkleRoot expected));
  throw (V10ProofChunkOutOfRangeError chunkId (sk_leafCount r))
    when ((chunkId <? 0) || (chunkId >=? sk_leafCount r))%Z;
  let* leafHash := liftTree (leafAt (sk_publicTree r) chunkId) in
  let* content := match byHash leaves publicLeafContents !! toHex leafHash with
                  | Some c => Ok c
                  | None => Err NoContentForLeaf
                  end in
  let* pf := liftTree (proof (sk_publicTree r) chunkId) in
  Ok {| pm_content := content; pm_leaf := leafHash;
        pm_proof := pf ++ [sk_privateDataHash r];
        pm_merkleRoot := sk_root r; pm_leafCount := sk_leafCount r |}.

Definition buildV10CatalogProofMaterial (catalogContents : list bytes) (chunkId : Z)
    (expected : V10MerkleCommitment) : result proof_error V10ProofMaterial :=
  let leaves := map keccak256 catalogContents in
  let tree := V10MerkleTree keccak256 leaves in
  throw (V10ProofLeafCountMismatchError (leafCount tree) (mc_merkleLeafCount expected))
    when negb (leafCount tree =? mc_merkleLeafCount expected)%Z;
  throw (V10ProofRootMismatchError (root tree) (mc_merkleRoot expected))
    when negb (bytesEqual (root tree) (mc_merkleRoot expected));
  throw (V10ProofChunkOutOfRangeError chunkId (leafCount tree))
    when ((chunkId <? 0) || (chunkId >=? leafCount tree))%Z;
  let* leafHash := liftTree (leafAt tree chunkId) in
  let* content := match byHash leaves catalogContents !! toHex leafHash with
                  | Some c => Ok c
                  | None => Err NoContentForLeaf
                  end in
  let* pf := liftTree (proof tree chunkId) in
  Ok {| pm_content := content; pm_leaf := leafHash; pm_proof := pf;
        pm_merkleRoot := root tree; pm_leafCount := leafCount tree |}.

Definition verifyV10ProofMaterial (material : V10ProofMaterial) (chunkId : Z)
    (expected : V10MerkleCommitment) : bool :=
  if negb (pm_leafCount material =? mc_merkleLeafCount expected)%Z then false
  else if negb (bytesEqual (pm_merkleRoot material) (mc_merkleRoot expected)) then false
  else let leaf := keccak256 (pm_content material) in
       if negb (bytesEqual leaf (pm_leaf material)) then false
       else verify keccak256 (mc_merkleRoot expected) leaf (pm_proof material) chunkId.

Definition buildCiphertextChunksRoot (chunks : list bytes) : result merkle_error CiphertextChunksCommitment :=
  let leaves := map keccak256 chunks in
  let* tree := V10CiphertextChunksMerkleTree keccak256 leaves in
  Ok {| cc_root := root tree; cc_leafCount := leafCount tree; cc_leaves := leaves; cc_tree := tree |}.

Definition buildV10CiphertextChunksProofMaterial (ciphertextChunks : list bytes) (chunkId : Z)
    (expected : V10MerkleCommitment) : result proof_error V10ProofMaterial :=
  let* c := liftTree (buildCiphertextChunksRoot ciphertextChunks) in
  throw (V10ProofLeafCountMismatchError (cc_leafCount c) (mc_merkleLeafCount expected))
    when negb (cc_leafCount c =? mc_merkleLeafCount expected)%Z;
  throw (V10ProofRootMismatchError (cc_root c) (mc_merkleRoot expected))
    when negb (bytesEqual (cc_root c) (mc_merkleRoot expected));
  throw (V10ProofChunkOutOfRangeError chunkId (cc_leafCount c))
    when ((chunkId <? 0) || (chunkId >=? cc_leafCount c))%Z;
  let* leaf := liftTree (leafAt (cc_tree c) chunkId) in
  let* pf := liftTree (proof (cc_tree c) chunkId) in
  Ok {| pm_content := default [] (js_at ciphertextChunks chunkId); pm_leaf := leaf;
        pm_proof := pf; pm_merkleRoot := cc_root c; pm_leafCount := cc_leafCount c |}.

(** ** RandomSampling.submitProof *)

(** [while ((1 << h) < n) ++h]: the loop stops at 32 for a [uint32] count. *)
Fixpoint treeHeightLoop (fuel : nat) (h n : Z) : Z :=
  match fuel with
  | O => h
  | S fuel' => if (Z.shiftl 1 h <? n)%Z then treeHeightLoop fuel' (h + 1) n else h
  end.

Definition treeHeight (n : Z) : Z := treeHeightLoop 33 0 n.

(** The guards between reading the pinned challenge and marking it solved. *)
Definition submitProofAccepts (challengeRoot : bytes) (challengeLeafCount chunkId : Z)
    (isCurated : bool) (content : bytes) (merkleProof : list bytes) : bool :=
  if ((challengeLeafCount =? 0) || (chunkId >=? challengeLeafCount))%Z then false
  else
    let leaf := keccak256 content in
    let expectedProofLen := (treeHeight challengeLeafCount + (if isCurated then 0 else 1))%Z in
    if negb (js_length merkleProof =? expectedProofLen)%Z then false
    else verify keccak256 challengeRoot leaf merkleProof chunkId.

End WithKeccak.

(** ** Supporting facts *)

Lemma liftTree_Ok {A} (r : result merkle_error A) a : liftTree r = Ok a <-> r = Ok a.
Proof. destruct r; simpl; naive_solver. Qed.

Lemma treeHeightLoop_spec fuel h n :
  (0 <= h)%Z -> (n <= 2 ^ (h + Z.of_nat fuel))%Z ->
  let r := treeHeightLoop fuel h n in
  (h <= r)%Z /\ (n <= 2 ^ r)%Z /\ (r = h \/ 2 ^ (r - 1) < n)%Z.
Proof.
  revert h. induction fuel as [|fuel IH]; intros h Hh Hn; cbn [treeHeightLoop].
  - replace (h + Z.of_nat 0)%Z with h in Hn by lia. lia.
  - rewrite Z.shiftl_1_l. destruct (Z.ltb_spec (2 ^ h) n); [|lia].
    destruct (IH (h + 1)%Z) as (H1 & H2 & H3); [lia| |].
    { by replace (h + 1 + Z.of_nat fuel)%Z with (h + Z.of_nat (S fuel))%Z by lia. }
    split_and!; [lia|done|]. right. destruct H3 as [->|]; [|done].
    by replace (h + 1 - 1)%Z with h by lia.
Qed.

Lemma treeHeightLoop_nonneg fuel h n : (0 <= h)%Z -> (0 <= treeHeightLoop fuel h n)%Z.
Proof.
  revert h. induction fuel as [|fuel IH]; intros h Hh; cbn [treeHeightLoop]; [done|].
  destruct (_ <? _)%Z; [apply IH; lia|done].
Qed.

Lemma treeHeight_log2_up (n : nat) :
  (Z.of_nat n < 2 ^ 32)%Z -> treeHeight (Z.of_nat n) = Z.of_nat (Nat.log2_up n).
Proof.
  intros Hn. unfold treeHeight.
  destruct (treeHeightLoop_spec 33 0 (Z.of_nat n)) as (H1 & H2 & H3); [lia..|].
  set (r := treeHeightLoop 33 0 (Z.of_nat n)) in *. clearbody r.
  replace r with (Z.of_nat (Z.to_nat r)) by lia. f_equal. symmetry.
  destruct (decide (n <= 1)) as [Hle|Hgt].
  - rewrite (proj2 (Nat.log2_up_null n)) by done. destruct H3 as [->|H3]; [done|].
    destruct (decide (r = 0)%Z) as [->|]; [done|].
    pose proof (Z.pow_pos_nonneg 2 (r - 1)). lia.
  - assert (r <> 0)%Z by (intros ->; simpl in H2; lia).
    destruct H3 as [|H3]; [done|].
    apply Nat.log2_up_unique; [lia|].
    split; apply Nat2Z.inj_lt || apply Nat2Z.inj_le; rewrite Nat2Z.inj_pow; simpl (Z.of_nat 2).
    + by replace (Z.of_nat (pred (Z.to_nat r))) with (r - 1)%Z by lia.
    + by replace (Z.of_nat (Z.to_nat r)) with r by lia.
Qed.

Lemma byHash_fold (l : list (bytes * bytes)) (m : gmap string bytes) k v :
  foldl (fun m e => <[toHex e.1 := e.2]> m) m l !! k = Some v ->
  (exists e, e ∈ l /\ toHex e.1 = k /\ e.2 = v) \/ m !! k = Some v.
Proof.
  revert m. induction l as [|e l IH]; intros m; simpl; [by right|].
  intros [(e' & He' & ?)|H]%IH; [left; exists e'; set_solver|].
  destruct (decide (toHex e.1 = k)) as [<-|Hne].
  - rewrite lookup_insert_eq in H. left. exists e. set_solver.
  - rewrite lookup_insert_ne in H by done. by right.
Qed.

Lemma byHash_fold_is_Some (l : list (bytes * bytes)) (m : gmap string bytes) k :
  (exists e, e ∈ l /\ toHex e.1 = k) \/ is_Some (m !! k) ->
  is_Some (foldl (fun m e => <[toHex e.1 := e.2]> m) m l !! k).
Proof.
  revert m. induction l as [|e l IH]; intros m H; simpl; [set_solver|].
  apply IH. destruct (decide (toHex e.1 = k)) as [<-|Hne].
  - right. by rewrite lookup_insert_eq.
  - rewrite lookup_insert_ne by done. destruct H as [(e' & He' & Hk)|]; [left|by right].
    exists e'. set_solver.
Qed.

Lemma zip_map_elem (f : bytes -> bytes) cs e :
  e ∈ zip (map f cs) cs <-> exists c, c ∈ cs /\ e = (f c, c).
Proof. induction cs as [|c cs IH]; simpl; [set_solver|]. rewrite elem_of_cons, IH. set_solver. Qed.

Lemma climb_app hash h i p q :
  climb hash h i (p ++ q) = climb hash (climb hash h i p) (i / 2 ^ js_length p) q.
Proof.
  revert h i. induction p as [|s p IH]; intros h i.
  - unfold js_length. simpl. by rewrite Z.div_1_r.
  - cbn [app climb]. rewrite IH. f_equal. unfold js_length. simpl length.
    rewrite Z.div_div by lia. f_equal.
    rewrite Nat2Z.inj_succ, Z.pow_succ_r by lia. lia.
Qed.

Section Facts.
Context (keccak256 : bytes -> bytes).

Lemma byHash_content cs h c :
  byHash (map keccak256 cs) cs !! toHex h = Some c -> keccak256 c = h /\ c ∈ cs.
Proof.
  unfold byHash. intros [(e & He & Hk & Hv)|H]%byHash_fold; [|done].
  apply zip_map_elem in He as (c' & Hin & ->). simpl in *. subst c'.
  split; [by apply toHex_inj|done].
Qed.

Lemma byHash_total cs h :
  h ∈ map keccak256 cs -> exists c, byHash (map keccak256 cs) cs !! toHex h = Some c.
Proof.
  intros Hin. apply byHash_fold_is_Some. left.
  apply list_elem_of_fmap in Hin as (c & -> & Hc).
  exists (keccak256 c, c). split; [|done]. apply zip_map_elem. eauto.
Qed.

Lemma computeKARoot_both p q : computeKARoot keccak256 (Some p) (Some q) = keccak256 (p ++ q).
Proof. done. Qed.

(** The last fold of a public proof combines on the right: the path from a
    leaf has reached index 0. *)
Lemma climb_snoc_top h i p x :
  (0 <= i < 2 ^ js_length p)%Z ->
  climb keccak256 h i (p ++ [x]) = keccak256 (climb keccak256 h i p ++ x).
Proof. intros Hi. rewrite climb_app, Z.div_small by done. done. Qed.

Lemma climbHashed_snoc_top h i p x :
  i < 2 ^ length p ->
  climbHashed keccak256 h i (p ++ [x]) = climbHashed keccak256 h i p ++ [climb keccak256 h (Z.of_nat i) p ++ x].
Proof.
  revert h i. induction p as [|s p IH]; intros h i Hi.
  - simpl in Hi. assert (i = 0) as -> by lia. done.
  - cbn [app climbHashed]. rewrite IH; [|cbn [length] in Hi; rewrite Nat.pow_succ_r' in Hi; lia].
    by rewrite climb_cons, combineAt_input.
Qed.

Lemma index_below_height (L : list bytes) i :
  (0 <= i < js_length L)%Z -> (i < 2 ^ Z.of_nat (Nat.log2_up (length L)))%Z.
Proof.
  unfold js_length. intros Hi.
  destruct (decide (length L <= 1)) as [Hle|Hgt].
  - rewrite (proj2 (Nat.log2_up_null _)) by done. simpl. lia.
  - destruct (Nat.log2_up_spec (length L)) as [_ Hhi]; [lia|].
    apply Nat2Z.inj_le in Hhi. rewrite Nat2Z.inj_pow in Hhi. simpl (Z.of_nat 2) in Hhi. lia.
Qed.
End Facts.

(** ** The public path *)

Section PublicPath.
Context (keccak256 : bytes -> bytes) (contents privateRoots : list bytes).
#[local] Abbreviation leaves := (map keccak256 contents).
#[local] Abbreviation tree := (V10MerkleTree keccak256 leaves).
#[local] Abbreviation committed := (structuredKARootV10 keccak256 leaves privateRoots).
#[local] Abbreviation priv := (collapsePrivateDataHashV10 keccak256 privateRoots).

Lemma structured_leafCount : sk_leafCount committed = js_length (canonicalLeaves leaves).
Proof. apply (tc_count (hash := keccak256)). Qed.

Lemma structured_root : contents <> [] -> sk_root committed = keccak256 (root tree ++ priv).
Proof. intros H. unfold structuredKARootV10. simpl. by destruct contents. Qed.

Lemma in_range_nonempty i a : js_at (canonicalLeaves leaves) i = Some a -> contents <> [].
Proof. intros [_ H]%js_at_Some ->. done. Qed.

(** The proof of the public subtree followed by the private sibling leads to
    the structured root. *)
Lemma structured_climb i a pf :
  js_at (canonicalLeaves leaves) i = Some a -> proof tree i = Ok pf ->
  length pf = Nat.log2_up (length (canonicalLeaves leaves)) /\
  climb keccak256 a i (pf ++ [priv]) = sk_root committed.
Proof.
  intros Ha Hpf. destruct (tc_complete (hash := keccak256) (t := tree) i a Ha) as (pf' & Hpf' & Hlen & Hc).
  assert (pf' = pf) as -> by congruence. split; [done|].
  apply js_at_Some in Ha as Hr. destruct Hr as [Hr _].
  rewrite climb_snoc_top, Hc, structured_root; [done|by eapply in_range_nonempty|].
  pose proof (index_below_height _ _ Hr). unfold js_length in *. rewrite Hlen. lia.
Qed.

Lemma build_inv chunkId expected m :
  buildV10ProofMaterial keccak256 contents privateRoots chunkId expected = Ok m ->
  exists pf,
    js_at (canonicalLeaves leaves) chunkId = Some (pm_leaf m) /\ proof tree chunkId = Ok pf /\
    pm_proof m = pf ++ [priv] /\ keccak256 (pm_content m) = pm_leaf m /\ pm_content m ∈ contents /\
    pm_merkleRoot m = sk_root committed /\ pm_merkleRoot m = mc_merkleRoot expected /\
    pm_leafCount m = sk_leafCount committed /\ pm_leafCount m = mc_merkleLeafCount expected.
Proof.
  unfold buildV10ProofMaterial. cbv zeta. intros H. ok_inv. subst m. cbn -[structuredKARootV10].
  apply liftTree_Ok, (contract_leafAt keccak256 tree (canonicalLeaves leaves)) in H3.
  apply liftTree_Ok in H5. destruct (byHash _ _ !! _) as [c|] eqn:Hc; [|done]. ok_inv. subst c.
  apply byHash_content in Hc as [Hk Hin]. eexists. apply negb_false_iff in H0, H1.
  apply bytesEqual_eq in H1. apply Z.eqb_eq in H0. by split_and!.
Qed.

Lemma build_total chunkId expected :
  mc_merkleLeafCount expected = sk_leafCount committed ->
  mc_merkleRoot expected = sk_root committed ->
  (0 <= chunkId < sk_leafCount committed)%Z ->
  exists m, buildV10ProofMaterial keccak256 contents privateRoots chunkId expected = Ok m.
Proof.
  intros Hc Hr Hi. pose proof Hi as Hi'. rewrite structured_leafCount in Hi'.
  destruct (js_at_in_range _ _ Hi') as (a & Ha & Hin). apply (canonicalLeaves_elem leaves) in Hin.
  destruct (byHash_total keccak256 contents a Hin) as [c Hby].
  destruct (contract_complete keccak256 tree _ _ _ Ha) as (pf & Hpf & _).
  unfold buildV10ProofMaterial. cbv zeta. rewrite Hc, Hr, Z.eqb_refl.
  rewrite (proj2 (bytesEqual_eq _ _) eq_refl).
  assert (((chunkId <? 0) || (chunkId >=? sk_leafCount committed))%Z = false) as -> by (apply orb_false_iff; lia).
  cbn -[structuredKARootV10]. change (sk_publicTree committed) with tree.
  rewrite (tc_leaf (hash := keccak256) _ _ Ha). simpl. rewrite Hby. simpl. rewrite Hpf. simpl. eauto.
Qed.
End PublicPath.

(** A successful [buildV10ProofMaterial] returns content taken from the given
    contents whose hash is the returned leaf, echoes the expected commitment, and its
    result passes [verifyV10ProofMaterial]. *)
Theorem build_passes_self_check keccak256 contents privateRoots chunkId expected m :
  buildV10ProofMaterial keccak256 contents privateRoots chunkId expected = Ok m ->
  pm_content m ∈ contents /\ keccak256 (pm_content m) = pm_leaf m /\
  pm_merkleRoot m = mc_merkleRoot expected /\ pm_leafCount m = mc_merkleLeafCount expected /\
  verifyV10ProofMaterial keccak256 m chunkId expected = true.
Proof.
  intros (pf & Ha & Hpf & Hp & Hk & Hin & Hroot & Hroot' & Hlc & Hlc')%build_inv.
  split_and!; [done..|]. unfold verifyV10ProofMaterial.
  rewrite Hlc', Z.eqb_refl, Hroot', Hk, !(proj2 (bytesEqual_eq _ _) eq_refl). simpl.
  apply verify_true. rewrite Hp, <- Hroot', Hroot.
  by destruct (structured_climb _ _ privateRoots _ _ _ Ha Hpf).
Qed.

Definition sampleContents : list bytes := [[x61]; [x62]; [x63]; [x61]].
Definition sampleCommitment : V10MerkleCommitment :=
  let r := structuredKARootV10 sampleHash (map sampleHash sampleContents) [sampleLeaf x07] in
  {| mc_merkleRoot := sk_root r; mc_merkleLeafCount := sk_leafCount r |}.
Definition sampleMaterial : V10ProofMaterial :=
  match buildV10ProofMaterial sampleHash sampleContents [sampleLeaf x07] 2 sampleCommitment with
  | Ok m => m
  | Err _ => {| pm_content := []; pm_leaf := []; pm_proof := []; pm_merkleRoot := []; pm_leafCount := 0 |}
  end.

Lemma build_passes_self_check_witness :
  pm_content sampleMaterial ∈ sampleContents /\
  sampleHash (pm_content sampleMaterial) = pm_leaf sampleMaterial /\
  pm_merkleRoot sampleMaterial = mc_merkleRoot sampleCommitment /\
  pm_leafCount sampleMaterial = mc_merkleLeafCount sampleCommitment /\
  verifyV10ProofMaterial sampleHash sampleMaterial 2 sampleCommitment = true.
Proof. apply (build_passes_self_check _ _ [sampleLeaf x07]). vm_compute. reflexivity. Defined.

(** The outcome of [buildV10ProofMaterial] on every input: a leaf-count mismatch is
    reported first, then a root mismatch, then a chunk outside the leaves, and when the
    commitment matches and the chunk is in range the material is always built (no other
    error can occur). *)
Theorem build_outcome keccak256 contents privateRoots chunkId expected :
  let r := structuredKARootV10 keccak256 (map keccak256 contents) privateRoots in
  let out := buildV10ProofMaterial keccak256 contents privateRoots chunkId expected in
  if decide (sk_leafCount r <> mc_merkleLeafCount expected)
  then out = Err (V10ProofLeafCountMismatchError (sk_leafCount r) (mc_merkleLeafCount expected))
  else if decide (sk_root r <> mc_merkleRoot expected)
  then out = Err (V10ProofRootMismatchError (sk_root r) (mc_merkleRoot expected))
  else if decide (0 <= chunkId < sk_leafCount r)%Z
  then exists m, out = Ok m
  else out = Err (V10ProofChunkOutOfRangeError chunkId (sk_leafCount r)).
Proof.
  intros r out. case_decide as Hc.
  { unfold out, buildV10ProofMaterial. cbv zeta. fold r.
    by rewrite (proj2 (Z.eqb_neq _ _) Hc). }
  case_decide as Hr.
  { unfold out, buildV10ProofMaterial. cbv zeta. fold r. rewrite (proj2 (Z.eqb_eq _ _) Hc).
    destruct (bytesEqual _ _) eqn:E; [by apply bytesEqual_eq in E|done]. }
  case_decide as Hi.
  - by apply build_total.
  - unfold out, buildV10ProofMaterial. cbv zeta. fold r.
    rewrite (proj2 (Z.eqb_eq _ _) Hc), (proj2 (bytesEqual_eq _ _) Hr). cbn [negb throw_if].
    assert (((chunkId <? 0) || (chunkId >=? sk_leafCount r))%Z = true) as ->; [|done].
    apply orb_true_iff. lia.
Qed.

(** ** Acceptance on chain *)

(** The inputs hashed to check a submission, for the tree over contents, and for
    a structured commitment. *)
Definition submissionHashed (keccak256 : bytes -> bytes) (content : bytes) (chunkId : Z) (pf : list bytes) : list bytes :=
  content :: climbHashed keccak256 (keccak256 content) (Z.to_nat chunkId) pf.

Definition catalogHashed (keccak256 : bytes -> bytes) (contents : list bytes) : list bytes :=
  contents ++ treeHashed (V10MerkleTree keccak256 (map keccak256 contents)).

Definition commitmentHashed (keccak256 : bytes -> bytes) (contents privateRoots : list bytes) : list bytes :=
  (root (V10MerkleTree keccak256 (map keccak256 contents)) ++ collapsePrivateDataHashV10 keccak256 privateRoots)
  :: catalogHashed keccak256 contents.

Section OnChain.
Context (keccak256 : bytes -> bytes) (contents privateRoots : list bytes).
Context (keccak32 : forall x, length (keccak256 x) = 32).
#[local] Abbreviation leaves := (map keccak256 contents).
#[local] Abbreviation tree := (V10MerkleTree keccak256 leaves).
#[local] Abbreviation priv := (collapsePrivateDataHashV10 keccak256 privateRoots).

Lemma climb32 h i p : length h = 32 -> length (climb keccak256 h i p) = 32.
Proof.
  revert h i. induction p as [|s p IH]; intros h i Hh; [done|]. cbn [climb]. apply IH.
  unfold hashPair. destruct (_ =? _)%Z; apply keccak32.
Qed.

Lemma hashed_all32 : all32 leaves.
Proof. rewrite Forall_forall. intros x (c & -> & _)%list_elem_of_fmap. apply keccak32. Qed.

Lemma canonical_leaf i a :
  js_at (canonicalLeaves leaves) i = Some a -> exists c, c ∈ contents /\ a = keccak256 c.
Proof.
  intros [_ Ha]%js_at_Some. apply list_elem_of_lookup_2, (canonicalLeaves_elem leaves) in Ha.
  apply list_elem_of_fmap in Ha as (c & -> & Hc). eauto.
Qed.

(** A path of the tree's height to the root of the tree over the contents
    starts at the hash of a stored content. *)
Lemma path_to_tree i a content pf :
  js_at (canonicalLeaves leaves) i = Some a ->
  length pf = Nat.log2_up (length (canonicalLeaves leaves)) -> all32 pf ->
  climb keccak256 (keccak256 content) i pf = root tree ->
  (content ∈ contents /\ keccak256 content = a) \/
  CollisionIn keccak256 (submissionHashed keccak256 content i pf ++ catalogHashed keccak256 contents).
Proof.
  intros Ha Hlen Hpf Hc.
  destruct (tc_binding (hash := keccak256) (t := tree) keccak32 (canonicalLeaves_all32 _ hashed_all32)
    i a (keccak256 content) pf Ha Hlen (keccak32 _) Hpf Hc) as [[Hk _]|Hcol].
  2:{ right. eapply collision_mono; [|exact Hcol]. unfold submissionHashed, catalogHashed. set_solver. }
  destruct (canonical_leaf i a Ha) as (c & Hin & Hac). assert (keccak256 content = keccak256 c) as Heq by congruence.
  edestruct (hash_inj_or keccak256) as [->|Hcol]; [| |exact Heq|by left|right; exact Hcol];
    unfold submissionHashed, catalogHashed; set_solver.
Qed.

Lemma root32 i a : js_at (canonicalLeaves leaves) i = Some a -> length (root tree) = 32.
Proof.
  intros Ha. destruct (tc_complete (hash := keccak256) (t := tree) i a Ha) as (pf & _ & _ & <-).
  apply climb32. destruct (canonical_leaf i a Ha) as (c & _ & ->). apply keccak32.
Qed.

Lemma nonempty_root32 : contents <> [] -> length (root tree) = 32.
Proof.
  intros Hne. destruct contents as [|c cs] eqn:E; [done|].
  assert (keccak256 c ∈ canonicalLeaves (map keccak256 (c :: cs))) as Hin
    by (apply canonicalLeaves_elem; set_solver).
  apply list_elem_of_lookup_1 in Hin as [n Hn]. rewrite <- E in *.
  apply (root32 (Z.of_nat n) (keccak256 c)). by rewrite js_at_nat.
Qed.

Lemma accepts_guards r n chunkId cur content pf :
  submitProofAccepts keccak256 r n chunkId cur content pf = true ->
  (n <> 0)%Z /\ (chunkId < n)%Z /\
  js_length pf = (treeHeight n + (if cur then 0 else 1))%Z /\
  climb keccak256 (keccak256 content) chunkId pf = r.
Proof.
  unfold submitProofAccepts. destruct (_ || _) eqn:E1; [done|].
  apply orb_false_iff in E1 as [E1 E2]. destruct (negb _) eqn:E3; [done|].
  apply negb_false_iff, Z.eqb_eq in E3. rewrite verify_true. intros Hc. split_and!; [lia|lia|done..].
Qed.

Lemma canonical_height :
  (js_length (canonicalLeaves leaves) < 2 ^ 32)%Z ->
  treeHeight (js_length (canonicalLeaves leaves)) =
    Z.of_nat (Nat.log2_up (length (canonicalLeaves leaves))).
Proof. apply treeHeight_log2_up. Qed.

Lemma public_path_sound chunkId content pf :
  let r := structuredKARootV10 keccak256 leaves privateRoots in
  (sk_leafCount r < 2 ^ 32)%Z -> (0 <= chunkId)%Z -> all32 pf ->
  submitProofAccepts keccak256 (sk_root r) (sk_leafCount r) chunkId false content pf = true ->
  (content ∈ contents /\ leafAt tree chunkId = Ok (keccak256 content)) \/
  CollisionIn keccak256 (submissionHashed keccak256 content chunkId pf ++ commitmentHashed keccak256 contents privateRoots).
Proof.
  intros r Hbig Hi Hpf (Hn & Hlt & Hlen & Hc)%accepts_guards. unfold r in *.
  rewrite structured_leafCount in *. rewrite canonical_height in Hlen by done.
  destruct (js_at_in_range (canonicalLeaves leaves) chunkId) as (a & Ha & _); [lia|].
  destruct pf as [|x p _] using rev_ind; [unfold js_length in Hlen; simpl in Hlen; lia|].
  apply Forall_app in Hpf as [Hp Hx%Forall_singleton].
  unfold js_length in Hlen. rewrite length_app in Hlen. simpl in Hlen.
  pose proof (index_below_height (canonicalLeaves leaves) chunkId) as Hih.
  assert (0 <= chunkId < 2 ^ js_length p)%Z as Hip.
  { split; [lia|]. unfold js_length in *.
    replace (Z.of_nat (length p)) with (Z.of_nat (Nat.log2_up (length (canonicalLeaves leaves)))) by lia. apply Hih. lia. }
  rewrite climb_snoc_top, structured_root in Hc by eauto using in_range_nonempty.
  unfold submissionHashed, commitmentHashed. rewrite climbHashed_snoc_top.
  2:{ apply Nat2Z.inj_lt. rewrite Nat2Z.inj_pow, Z2Nat.id by lia. apply Hip. }
  rewrite Z2Nat.id by lia.
  edestruct (hash_inj_or keccak256) as [Hc'|Hcol]; [| |exact Hc| |right; exact Hcol]; [set_solver..|].
  apply app_inj_1 in Hc' as [Hc' _]; [|by rewrite climb32, (root32 chunkId a)].
  destruct (path_to_tree chunkId a content p) as [[Hin Hk]|Hcol]; [done|lia|done|done| |].
  2:{ right. eapply collision_mono; [|exact Hcol]. unfold submissionHashed. set_solver. }
  left. split; [done|]. by apply (contract_leafAt keccak256 tree (canonicalLeaves leaves)); rewrite Hk.
Qed.
End OnChain.

(** Contents with the same set of hashes are the same set, or two of them
    collide. *)
Lemma same_hashes_same_contents keccak256 c1 c2 :
  (forall h, h ∈ map keccak256 c1 <-> h ∈ map keccak256 c2) ->
  (forall c, c ∈ c1 <-> c ∈ c2) \/ CollisionIn keccak256 (c1 ++ c2).
Proof.
  intros Hset.
  assert (forall a b, (forall h, h ∈ map keccak256 a -> h ∈ map keccak256 b) ->
    a ⊆ b \/ CollisionIn keccak256 (a ++ b)) as Hsub.
  { intros a b Hab. destruct (decide (Forall (fun c => c ∈ b) a)) as [Hf|Hf].
    - left. intros c Hc. rewrite Forall_forall in Hf. by apply Hf.
    - right. apply not_Forall_Exists in Hf; [|apply _].
      apply Exists_exists in Hf as (c & Hc & Hnb).
      assert (keccak256 c ∈ map keccak256 b) as (d & Hd & Hin)%list_elem_of_fmap
        by (apply Hab, list_elem_of_fmap; eauto).
      exists c, d. split_and!; [set_solver..|by intros ->|done]. }
  destruct (Hsub c1 c2) as [H1|]; [by intros h; apply Hset| |by right].
  destruct (Hsub c2 c1) as [H2|Hcol]; [by intros h; apply Hset| |].
  2:{ right. eapply collision_mono; [|exact Hcol]. set_solver. }
  left. set_solver.
Qed.

(** What [buildV10ProofMaterial] builds for a commitment is accepted by the
    on-chain guards of [submitProof] for that commitment, whenever the leaf count
    fits the contract's [uint32]. *)
Theorem built_material_accepted keccak256 contents privateRoots chunkId expected m :
  (mc_merkleLeafCount expected < 2 ^ 32)%Z ->
  buildV10ProofMaterial keccak256 contents privateRoots chunkId expected = Ok m ->
  submitProofAccepts keccak256 (mc_merkleRoot expected) (mc_merkleLeafCount expected)
    chunkId false (pm_content m) (pm_proof m) = true.
Proof.
  intros Hbig (pf & Ha & Hpf & Hp & Hk & Hin & Hroot & Hroot' & Hlc & Hlc')%build_inv.
  destruct (structured_climb _ _ privateRoots _ _ _ Ha Hpf) as [Hlen Hc].
  rewrite Hlc, structured_leafCount in Hlc'. rewrite <- Hlc' in *.
  apply js_at_Some in Ha as [Hr _]. unfold submitProofAccepts. cbv zeta.
  assert ((js_length (canonicalLeaves (map keccak256 contents)) =? 0)
    || (chunkId >=? js_length (canonicalLeaves (map keccak256 contents))) = false)%Z as ->
    by (apply orb_false_iff; lia).
  rewrite canonical_height by done. rewrite Hp. unfold js_length at 1. rewrite length_app, Hlen.
  simpl length. rewrite (proj2 (Z.eqb_eq _ _)) by lia. simpl.
  apply verify_true. congruence.
Qed.

Lemma built_material_accepted_witness :
  submitProofAccepts sampleHash (mc_merkleRoot sampleCommitment) (mc_merkleLeafCount sampleCommitment)
    2 false (pm_content sampleMaterial) (pm_proof sampleMaterial) = true.
Proof.
  apply (built_material_accepted _ sampleContents [sampleLeaf x07]).
  - vm_compute. reflexivity.
  - vm_compute. reflexivity.
Defined.

(** C2: Soundness of the on-chain guards for a structured commitment: an accepted
    submission carries the stored content whose hash is the challenged leaf of the
    public tree, unless keccak256 collides on inputs hashed for the submission and for
    the commitment. *)
Theorem accepted_submission_is_stored keccak256 contents privateRoots chunkId content pf :
  let leaves := map keccak256 contents in
  let r := structuredKARootV10 keccak256 leaves privateRoots in
  (forall x, length (keccak256 x) = 32) ->
  (sk_leafCount r < 2 ^ 32)%Z -> (0 <= chunkId)%Z -> all32 pf ->
  submitProofAccepts keccak256 (sk_root r) (sk_leafCount r) chunkId false content pf = true ->
  (content ∈ contents /\ leafAt (V10MerkleTree keccak256 leaves) chunkId = Ok (keccak256 content)) \/
  CollisionIn keccak256 (submissionHashed keccak256 content chunkId pf ++ commitmentHashed keccak256 contents privateRoots).
Proof. intros leaves r H32. by apply public_path_sound. Qed.

Lemma accepted_submission_is_stored_witness :
  ([x63] ∈ sampleContents /\
   leafAt (V10MerkleTree sampleHash (map sampleHash sampleContents)) 2 = Ok (sampleHash [x63])) \/
  CollisionIn sampleHash (submissionHashed sampleHash [x63] 2 (pm_proof sampleMaterial) ++
    commitmentHashed sampleHash sampleContents [sampleLeaf x07]).
Proof.
  apply (accepted_submission_is_stored sampleHash sampleContents [sampleLeaf x07] 2 [x63]
    (pm_proof sampleMaterial)).
  - exact sampleHash_length.
  - vm_compute. reflexivity.
  - lia.
  - vm_compute. repeat constructor.
  - vm_compute. reflexivity.
Defined.

(** C38: [verifyV10ProofMaterial] does not bind the proof length to the leaf count: for
    every public commitment with at least one triple, the 64 bytes
    [publicRoot ++ privateDataHash] with an empty proof pass it at every chunk index,
    although the on-chain guards reject that submission. *)
Theorem self_check_accepts_root_preimage keccak256 contents privateRoots chunkId :
  contents <> [] ->
  let leaves := map keccak256 contents in
  let r := structuredKARootV10 keccak256 leaves privateRoots in
  let expected := {| mc_merkleRoot := sk_root r; mc_merkleLeafCount := sk_leafCount r |} in
  let forged := {| pm_content := root (V10MerkleTree keccak256 leaves) ++ sk_privateDataHash r;
                   pm_leaf := sk_root r; pm_proof := []; pm_merkleRoot := sk_root r;
                   pm_leafCount := sk_leafCount r |} in
  verifyV10ProofMaterial keccak256 forged chunkId expected = true /\
  submitProofAccepts keccak256 (sk_root r) (sk_leafCount r) chunkId false (pm_content forged) [] = false.
Proof.
  intros Hne leaves r expected forged. split.
  - assert (keccak256 (pm_content forged) = sk_root r) as Hr by (symmetry; by apply structured_root).
    unfold verifyV10ProofMaterial. cbv zeta. rewrite Hr.
    cbn [forged expected pm_leafCount pm_merkleRoot pm_leaf pm_proof mc_merkleRoot mc_merkleLeafCount].
    rewrite Z.eqb_refl, (proj2 (bytesEqual_eq _ _) eq_refl). by apply verify_true.
  - unfold submitProofAccepts. destruct (_ || _); [done|]. cbv zeta.
    destruct (Z.eqb_spec (js_length (@nil bytes)) (treeHeight (sk_leafCount r) + 1)) as [E|]; [|done].
    exfalso. change (js_length (@nil bytes)) with 0%Z in E. unfold treeHeight in E.
    pose proof (treeHeightLoop_nonneg 33 0 (sk_leafCount r)). lia.
Qed.

Lemma self_check_accepts_root_preimage_witness :
  let r := structuredKARootV10 sampleHash (map sampleHash sampleContents) [] in
  let expected := {| mc_merkleRoot := sk_root r; mc_merkleLeafCount := sk_leafCount r |} in
  let forged := {| pm_content := root (V10MerkleTree sampleHash (map sampleHash sampleContents))
                                 ++ sk_privateDataHash r;
                   pm_leaf := sk_root r; pm_proof := []; pm_merkleRoot := sk_root r;
                   pm_leafCount := sk_leafCount r |} in
  verifyV10ProofMaterial sampleHash forged 1 expected = true /\
  submitProofAccepts sampleHash (sk_root r) (sk_leafCount r) 1 false (pm_content forged) [] = false.
Proof. apply (self_check_accepts_root_preimage sampleHash sampleContents [] 1). discriminate. Defined.

(** The structured root commits to both sides: equal roots over equally many public
    leaves have the same public contents and the same private data hash, unless
    keccak256 collides on inputs hashed for the two roots. *)
Theorem structured_root_binds keccak256 c1 c2 p1 p2 :
  let r1 := structuredKARootV10 keccak256 (map keccak256 c1) p1 in
  let r2 := structuredKARootV10 keccak256 (map keccak256 c2) p2 in
  (forall x, length (keccak256 x) = 32) -> c1 <> [] -> c2 <> [] ->
  sk_leafCount r1 = sk_leafCount r2 -> sk_root r1 = sk_root r2 ->
  ((forall c, c ∈ c1 <-> c ∈ c2) /\ sk_privateDataHash r1 = sk_privateDataHash r2)
  \/ CollisionIn keccak256 (commitmentHashed keccak256 c1 p1 ++ commitmentHashed keccak256 c2 p2).
Proof.
  intros r1 r2 H32 Hn1 Hn2 Hcnt Hroot. unfold r1, r2 in *.
  rewrite !structured_root in Hroot by done.
  unfold commitmentHashed, catalogHashed.
  edestruct (hash_inj_or keccak256) as [Hroot'|Hcol]; [| |exact Hroot| |right; exact Hcol]; [set_solver..|].
  clear Hroot. rename Hroot' into Hroot. apply app_inj_1 in Hroot as [Hroot Hpriv].
  2: { by rewrite !(nonempty_root32 keccak256). }
  rewrite !structured_leafCount in Hcnt.
  destruct (contract_root_binds keccak256 (V10MerkleTree keccak256 (map keccak256 c1)) _
    (V10MerkleTree keccak256 (map keccak256 c2)) _ H32
    (canonicalLeaves_all32 _ (hashed_all32 _ c1 H32)) (canonicalLeaves_all32 _ (hashed_all32 _ c2 H32)))
    as [Heq|Hcol]; [by rewrite !(tc_count (hash := keccak256))|done| |].
  2:{ right. eapply collision_mono; [|exact Hcol]. set_solver. }
  assert (forall h, h ∈ map keccak256 c1 <-> h ∈ map keccak256 c2) as Hset.
  { intros h. by rewrite <- (canonicalLeaves_elem (map keccak256 c1)),
      <- (canonicalLeaves_elem (map keccak256 c2)), Heq. }
  destruct (same_hashes_same_contents keccak256 c1 c2 Hset) as [?|Hcol]; [by left|].
  right. eapply collision_mono; [|exact Hcol]. set_solver.
Qed.

Lemma structured_root_binds_witness :
  let c2 := [[x63]; [x62]; [x61]] in
  let r1 := structuredKARootV10 sampleHash (map sampleHash sampleContents) [sampleLeaf x07] in
  let r2 := structuredKARootV10 sampleHash (map sampleHash c2) [sampleLeaf x07; sampleLeaf x07] in
  ((forall c, c ∈ sampleContents <-> c ∈ c2) /\ sk_privateDataHash r1 = sk_privateDataHash r2)
  \/ CollisionIn sampleHash (commitmentHashed sampleHash sampleContents [sampleLeaf x07] ++
       commitmentHashed sampleHash c2 [sampleLeaf x07; sampleLeaf x07]).
Proof.
  apply (structured_root_binds sampleHash sampleContents [[x63]; [x62]; [x61]]
    [sampleLeaf x07] [sampleLeaf x07; sampleLeaf x07]).
  - exact sampleHash_length.
  - discriminate.
  - discriminate.
  - vm_compute. reflexivity.
  - vm_compute. reflexivity.
Defined.

(** ** The curated catalog path *)

Section CatalogPath.
Context (keccak256 : bytes -> bytes) (contents : list bytes).
#[local] Abbreviation leaves := (map keccak256 contents).
#[local] Abbreviation tree := (V10MerkleTree keccak256 leaves).

Lemma catalog_build_inv chunkId expected m :
  buildV10CatalogProofMaterial keccak256 contents chunkId expected = Ok m ->
  js_at (canonicalLeaves leaves) chunkId = Some (pm_leaf m) /\ proof tree chunkId = Ok (pm_proof m) /\
  keccak256 (pm_content m) = pm_leaf m /\ pm_content m ∈ contents /\
  mc_merkleRoot expected = root tree /\ mc_merkleLeafCount expected = leafCount tree.
Proof.
  unfold buildV10CatalogProofMaterial. cbv zeta. intros H. ok_inv. subst m. cbn -[V10MerkleTree].
  apply liftTree_Ok, (contract_leafAt keccak256 tree (canonicalLeaves leaves)) in H3.
  apply liftTree_Ok in H5. destruct (byHash _ _ !! _) as [c|] eqn:Hc; [|done]. ok_inv. subst c.
  apply byHash_content in Hc as [Hk Hin]. apply negb_false_iff in H0, H1.
  apply bytesEqual_eq in H1. apply Z.eqb_eq in H0. by split_and!.
Qed.

Lemma catalog_build_total chunkId expected :
  mc_merkleLeafCount expected = leafCount tree -> mc_merkleRoot expected = root tree ->
  (0 <= chunkId < leafCount tree)%Z ->
  exists m, buildV10CatalogProofMaterial keccak256 contents chunkId expected = Ok m.
Proof.
  intros Hc Hr Hi. destruct (contract_in_range keccak256 tree _ _ Hi) as (a & Ha & Hin).
  apply (canonicalLeaves_elem leaves) in Hin.
  destruct (byHash_total keccak256 contents a Hin) as [c Hby].
  destruct (contract_complete keccak256 tree _ _ _ Ha) as (pf & Hpf & _).
  unfold buildV10CatalogProofMaterial. cbv zeta. rewrite Hc, Hr, Z.eqb_refl.
  rewrite (proj2 (bytesEqual_eq _ _) eq_refl).
  assert (((chunkId <? 0) || (chunkId >=? leafCount tree))%Z = false) as -> by (apply orb_false_iff; lia).
  cbn -[V10MerkleTree]. rewrite (tc_leaf (hash := keccak256) _ _ Ha). simpl. rewrite Hby. simpl.
  rewrite Hpf. simpl. eauto.
Qed.
End CatalogPath.

(** The curated catalog path end to end: for the commitment of the catalog tree
    itself, material is built for every chunk in range, and the on-chain guards accept
    it as a curated submission with content taken from the catalog. *)
Theorem catalog_challenge_answerable keccak256 contents chunkId :
  let t := V10MerkleTree keccak256 (map keccak256 contents) in
  let expected := {| mc_merkleRoot := root t; mc_merkleLeafCount := leafCount t |} in
  (leafCount t < 2 ^ 32)%Z -> (0 <= chunkId < leafCount t)%Z ->
  exists m, buildV10CatalogProofMaterial keccak256 contents chunkId expected = Ok m /\
    pm_content m ∈ contents /\
    submitProofAccepts keccak256 (root t) (leafCount t) chunkId true (pm_content m) (pm_proof m) = true.
Proof.
  intros t expected Hbig Hi. destruct (catalog_build_total keccak256 contents chunkId expected) as [m Hm]; [done..|].
  exists m. split; [done|]. apply catalog_build_inv in Hm as (Ha & Hpf & Hk & Hin & _ & _). split; [done|].
  destruct (tc_complete (hash := keccak256) (t := t) _ _ Ha) as (pf & Hpf' & Hlen & Hc).
  assert (Ok pf = Ok (pm_proof m) :> result merkle_error _) as [= ->] by (etrans; [symmetry|]; done).
  unfold submitProofAccepts. cbv zeta.
  assert ((leafCount t =? 0) || (chunkId >=? leafCount t) = false)%Z as -> by (apply orb_false_iff; lia).
  unfold t in *. rewrite (tc_count (hash := keccak256)) in Hbig |- *.
  rewrite canonical_height by done. unfold js_length at 1. rewrite Hlen, Z.add_0_r, Z.eqb_refl. simpl.
  apply verify_true. congruence.
Qed.

Lemma catalog_challenge_answerable_witness :
  let t := V10MerkleTree sampleHash (map sampleHash sampleContents) in
  let expected := {| mc_merkleRoot := root t; mc_merkleLeafCount := leafCount t |} in
  exists m, buildV10CatalogProofMaterial sampleHash sampleContents 1 expected = Ok m /\
    pm_content m ∈ sampleContents /\
    submitProofAccepts sampleHash (root t) (leafCount t) 1 true (pm_content m) (pm_proof m) = true.
Proof.
  apply catalog_challenge_answerable.
  - vm_compute. reflexivity.
  - vm_compute. split; congruence.
Defined.

(** Soundness of the on-chain guards for a curated catalog commitment: an accepted
    submission is the catalog content at the challenged index, unless keccak256
    collides on inputs hashed for the submission and for the catalog. *)
Theorem curated_submission_is_stored keccak256 contents chunkId content pf :
  let t := V10MerkleTree keccak256 (map keccak256 contents) in
  (forall x, length (keccak256 x) = 32) ->
  (leafCount t < 2 ^ 32)%Z -> (0 <= chunkId)%Z -> all32 pf ->
  submitProofAccepts keccak256 (root t) (leafCount t) chunkId true content pf = true ->
  (content ∈ contents /\ leafAt t chunkId = Ok (keccak256 content)) \/
  CollisionIn keccak256 (submissionHashed keccak256 content chunkId pf ++ catalogHashed keccak256 contents).
Proof.
  intros t H32 Hbig Hi Hpf (Hn & Hlt & Hlen & Hc)%accepts_guards. unfold t in *.
  rewrite (tc_count (hash := keccak256)) in Hbig, Hlt, Hlen.
  rewrite canonical_height in Hlen by done.
  destruct (js_at_in_range (canonicalLeaves (map keccak256 contents)) chunkId) as (a & Ha & _); [lia|].
  destruct (path_to_tree keccak256 contents H32 chunkId a content pf) as [[Hin Hk]|];
    [done|unfold js_length in Hlen; lia|done|done| |by right].
  left. split; [done|]. rewrite Hk.
  by apply (contract_leafAt keccak256 _ (canonicalLeaves (map keccak256 contents))).
Qed.

Lemma curated_submission_is_stored_witness :
  let t := V10MerkleTree sampleHash (map sampleHash [[x61]; [x62]]) in
  ([x62] ∈ [[x61]; [x62]] /\ leafAt t 1 = Ok (sampleHash [x62])) \/
  CollisionIn sampleHash (submissionHashed sampleHash [x62] 1 [sampleHash [x61]] ++ catalogHashed sampleHash [[x61]; [x62]]).
Proof.
  apply (curated_submission_is_stored sampleHash [[x61]; [x62]] 1 [x62] [sampleHash [x61]]).
  - exact sampleHash_length.
  - vm_compute. reflexivity.
  - lia.
  - repeat constructor.
  - vm_compute. reflexivity.
Defined.

(** ** The ciphertext-chunk path *)

Lemma chunks_commitment keccak256 chunks :
  (forall x, length (keccak256 x) = 32) ->
  buildCiphertextChunksRoot keccak256 chunks =
    Ok {| cc_root := root (treeOf keccak256 (map keccak256 chunks));
          cc_leafCount := js_length chunks;
          cc_leaves := map keccak256 chunks;
          cc_tree := treeOf keccak256 (map keccak256 chunks) |}.
Proof.
  intros H32. unfold buildCiphertextChunksRoot. rewrite ChunksTree_treeOf by (by apply hashed_all32).
  simpl. unfold js_length. by rewrite length_map.
Qed.

(** The ciphertext-chunk commitment preserves chunk identity: for the commitment of
    the chunks themselves, every chunk index (duplicates included) yields material whose
    content is exactly the chunk at that index, and which passes the self-check. *)
Theorem chunk_challenge_answerable keccak256 chunks chunkId chunk :
  (forall x, length (keccak256 x) = 32) ->
  js_at chunks chunkId = Some chunk ->
  exists c m, buildCiphertextChunksRoot keccak256 chunks = Ok c /\
    cc_leafCount c = js_length chunks /\
    let expected := {| mc_merkleRoot := cc_root c; mc_merkleLeafCount := cc_leafCount c |} in
    buildV10CiphertextChunksProofMaterial keccak256 chunks chunkId expected = Ok m /\
    pm_content m = chunk /\ pm_leaf m = keccak256 chunk /\
    verifyV10ProofMaterial keccak256 m chunkId expected = true.
Proof.
  intros H32 Hat. set (L := map keccak256 chunks). assert (js_at L chunkId = Some (keccak256 chunk)) as HL
    by (unfold L; by rewrite js_at_map, Hat).
  destruct (contract_complete keccak256 (treeOf keccak256 L) L _ _ HL) as (pf & Hpf & _ & Hv).
  apply js_at_Some in Hat as Hr. destruct Hr as [Hr _].
  eexists _, _. rewrite (chunks_commitment _ _ H32). split; [done|]. split; [done|].
  split; [|split].
  - unfold buildV10CiphertextChunksProofMaterial. rewrite (chunks_commitment _ _ H32). fold L.
    cbn -[treeOf]. rewrite Z.eqb_refl, (proj2 (bytesEqual_eq _ _) eq_refl).
    assert (((chunkId <? 0) || (chunkId >=? js_length chunks))%Z = false) as -> by (apply orb_false_iff; lia).
    cbn -[treeOf]. rewrite (tc_leaf (hash := keccak256) _ _ HL). cbn -[treeOf].
    rewrite Hpf, Hat. done.
  - done.
  - split; [done|]. unfold verifyV10ProofMaterial. cbn -[treeOf].
    rewrite Z.eqb_refl, !(proj2 (bytesEqual_eq _ _) eq_refl). exact Hv.
Qed.

Lemma chunk_challenge_answerable_witness :
  let chunks := [[x02]; [x01]; [x02]] in
  exists c m, buildCiphertextChunksRoot sampleHash chunks = Ok c /\
    cc_leafCount c = js_length chunks /\
    let expected := {| mc_merkleRoot := cc_root c; mc_merkleLeafCount := cc_leafCount c |} in
    buildV10CiphertextChunksProofMaterial sampleHash chunks 2 expected = Ok m /\
    pm_content m = [x02] /\ pm_leaf m = sampleHash [x02] /\
    verifyV10ProofMaterial sampleHash m 2 expected = true.
Proof.
  apply chunk_challenge_answerable.
  - exact sampleHash_length.
  - reflexivity.
Defined.
