(* ===== verification/LiftJobStates.v ===== *)
(** * Lift job states and failure policies

    The lifecycle states of a publish ("lift") job with their transition table
    (packages/publisher/src/lift-job-states.ts) and the failure-code registry
    with the one constructor of failure records
    (packages/publisher/src/lift-job-failures.ts). *)

From stdpp Require Import base numbers list option strings.
From S2P Require Import Prelude.

(** ** lift-job-states.ts *)

Inductive LiftJobState : Type :=
| accepted | claimed | validated | broadcast | included | finalized | failed.

#[export] Instance LiftJobState_eq_dec : EqDecision LiftJobState.
Proof. solve_decision. Defined.

Definition LIFT_JOB_STATES : list (string * LiftJobState) :=
  [("accepted"%string, accepted); ("claimed"%string, claimed); ("validated"%string, validated);
   ("broadcast"%string, broadcast); ("included"%string, included);
   ("finalized"%string, finalized); ("failed"%string, failed)].

Definition LIFT_JOB_ALLOWED_TRANSITIONS (s : LiftJobState) : list LiftJobState :=
  match s with
  | accepted => [claimed; failed]
  | claimed => [validated; failed]
  | validated => [broadcast; finalized; failed]
  | broadcast => [included; failed]
  | included => [finalized; failed]
  | finalized => []
  | failed => []
  end.

Definition isTerminalLiftJobState (s : LiftJobState) : bool :=
  bool_decide (s = finalized) || bool_decide (s = failed).

Definition canTransitionLiftJob (from to : LiftJobState) : bool :=
  bool_decide (to ∈ LIFT_JOB_ALLOWED_TRANSITIONS from).

(** [LiftJobActiveState]: the states a failure can be recorded from. *)
Inductive LiftJobActiveState : Type :=
| aAccepted | aClaimed | aValidated | aBroadcast | aIncluded.

#[export] Instance LiftJobActiveState_eq_dec : EqDecision LiftJobActiveState.
Proof. solve_decision. Defined.

Definition activeState (a : LiftJobActiveState) : LiftJobState :=
  match a with
  | aAccepted => accepted | aClaimed => claimed | aValidated => validated
  | aBroadcast => broadcast | aIncluded => included
  end.

(** ** lift-job-failures.ts *)

Inductive LiftJobFailurePhase : Type := phValidation | phBroadcast | phConfirmation | phRecovery.
Inductive LiftJobFailureMode : Type := retryable_mode | terminal | timeout.

(** [LiftJobTimeoutHandling] and [LiftJobFailureResolution] list the same values. *)
Inductive LiftJobFailureResolution : Type :=
| reset_to_accepted | fail_job | check_chain_then_finalize_or_reset | retry_recovery.

Inductive LiftJobFailureCode : Type :=
| workspace_unavailable | workspace_slice_not_found | publish_intent_stale
| canonicalization_failed | validation_unknown | authority_unavailable
| authority_forbidden | validation_timeout | wallet_claim_timeout | wallet_unavailable
| quorum_unmet | fee_cap_below_base_fee | rpc_unavailable | tx_submit_timeout
| tx_reverted | insufficient_funds | nonce_conflict | inclusion_timeout
| finality_timeout | confirmation_mismatch | chain_reorg | recovery_lookup_timeout
| recovery_chain_unavailable | recovery_state_inconsistent.

#[export] Instance phase_eq_dec : EqDecision LiftJobFailurePhase.
Proof. solve_decision. Defined.
#[export] Instance mode_eq_dec : EqDecision LiftJobFailureMode.
Proof. solve_decision. Defined.
#[export] Instance resolution_eq_dec : EqDecision LiftJobFailureResolution.
Proof. solve_decision. Defined.
#[export] Instance code_eq_dec : EqDecision LiftJobFailureCode.
Proof. solve_decision. Defined.

Record LiftJobTimeoutMetadata : Type := {
  to_timeoutMs : Z;
  to_timeoutAt : Z;
  to_handling : LiftJobFailureResolution
}.

(** [BuiltInLiftJobFailurePolicy] without the code it is stored under. *)
Record LiftJobFailurePolicy : Type := {
  fp_phase : LiftJobFailurePhase;
  fp_mode : LiftJobFailureMode;
  fp_retryable : bool;
  fp_resolution : LiftJobFailureResolution;
  fp_timeoutHandling : option LiftJobFailureResolution;
  fp_provenIneffective : bool;
  fp_autoRetry : bool
}.

Definition LIFT_JOB_FAILURE_POLICIES (code : LiftJobFailureCode) : LiftJobFailurePolicy :=
  let pol ph md rt res th pi ar :=
    {| fp_phase := ph; fp_mode := md; fp_retryable := rt; fp_resolution := res;
       fp_timeoutHandling := th; fp_provenIneffective := pi; fp_autoRetry := ar |} in
  let check := check_chain_then_finalize_or_reset in
  match code with
  | workspace_unavailable => pol phValidation retryable_mode true reset_to_accepted None false true
  | workspace_slice_not_found => pol phValidation terminal false fail_job None false false
  | publish_intent_stale => pol phValidation terminal false fail_job None false false
  | canonicalization_failed => pol phValidation terminal false fail_job None false false
  | validation_unknown => pol phValidation terminal false fail_job None false false
  | authority_unavailable => pol phValidation retryable_mode true reset_to_accepted None false true
  | authority_forbidden => pol phValidation terminal false fail_job None false false
  | validation_timeout => pol phValidation timeout true reset_to_accepted (Some reset_to_accepted) false false
  | wallet_claim_timeout => pol phBroadcast timeout true reset_to_accepted (Some reset_to_accepted) false false
  | wallet_unavailable => pol phBroadcast retryable_mode true reset_to_accepted None false false
  | quorum_unmet => pol phBroadcast retryable_mode true reset_to_accepted None false true
  | fee_cap_below_base_fee => pol phBroadcast retryable_mode true reset_to_accepted None false true
  | rpc_unavailable => pol phBroadcast retryable_mode true reset_to_accepted None false false
  | tx_submit_timeout => pol phBroadcast timeout true check (Some check) false false
  | tx_reverted => pol phBroadcast terminal false fail_job None true false
  | insufficient_funds => pol phBroadcast terminal false fail_job None true false
  | nonce_conflict => pol phBroadcast retryable_mode true reset_to_accepted None false false
  | inclusion_timeout => pol phConfirmation timeout true check (Some check) false false
  | finality_timeout => pol phConfirmation timeout true check (Some check) false false
  | confirmation_mismatch => pol phConfirmation terminal false fail_job None false false
  | chain_reorg => pol phConfirmation retryable_mode true check None false false
  | recovery_lookup_timeout => pol phRecovery timeout true retry_recovery (Some retry_recovery) false false
  | recovery_chain_unavailable => pol phRecovery retryable_mode true retry_recovery None false false
  | recovery_state_inconsistent => pol phRecovery terminal false fail_job None false false
  end.

Definition LIFT_JOB_FAILURE_ALLOWED_STATES (code : LiftJobFailureCode) : list LiftJobActiveState :=
  match code with
  | workspace_unavailable => [aAccepted; aClaimed; aValidated]
  | workspace_slice_not_found => [aAccepted; aClaimed; aValidated]
  | publish_intent_stale => [aClaimed; aValidated]
  | canonicalization_failed => [aClaimed; aValidated]
  | validation_unknown => [aClaimed; aValidated]
  | authority_unavailable => [aClaimed; aValidated]
  | authority_forbidden => [aClaimed; aValidated; aBroadcast]
  | validation_timeout => [aClaimed; aValidated]
  | wallet_claim_timeout => [aAccepted; aClaimed]
  | wallet_unavailable => [aClaimed; aBroadcast]
  | quorum_unmet => [aBroadcast]
  | fee_cap_below_base_fee => [aValidated]
  | rpc_unavailable => [aBroadcast]
  | tx_submit_timeout => [aBroadcast]
  | tx_reverted => [aBroadcast; aIncluded]
  | insufficient_funds => [aBroadcast]
  | nonce_conflict => [aBroadcast]
  | inclusion_timeout => [aBroadcast; aIncluded]
  | finality_timeout => [aIncluded]
  | confirmation_mismatch => [aBroadcast; aIncluded]
  | chain_reorg => [aBroadcast; aIncluded]
  | recovery_lookup_timeout => [aBroadcast; aIncluded]
  | recovery_chain_unavailable => [aBroadcast; aIncluded]
  | recovery_state_inconsistent => [aBroadcast; aIncluded]
  end.

Definition getLiftJobFailurePolicy (code : LiftJobFailureCode) : LiftJobFailurePolicy :=
  LIFT_JOB_FAILURE_POLICIES code.

(** [LiftValidationDiagnostic]: a stage name and a cause name. *)
Record LiftValidationDiagnostic : Type := {
  vd_stage : option string;
  vd_cause : string
}.

Record LiftJobFailureMetadata : Type := {
  fm_failedFromState : LiftJobActiveState;
  fm_phase : LiftJobFailurePhase;
  fm_mode : LiftJobFailureMode;
  fm_retryable : bool;
  fm_resolution : LiftJobFailureResolution;
  fm_code : LiftJobFailureCode;
  fm_message : string;
  fm_errorPayloadRef : string;
  fm_stackTraceRef : option string;
  fm_rpcResponseRef : option string;
  fm_revertReasonRef : option string;
  fm_timeout : option LiftJobTimeoutMetadata;
  fm_validationDiagnostic : option LiftValidationDiagnostic
}.

(** The argument of [createLiftJobFailureMetadata]: the metadata without the
    four fields the registry decides. *)
Record LiftJobFailureParams : Type := {
  fq_failedFromState : LiftJobActiveState;
  fq_code : LiftJobFailureCode;
  fq_message : string;
  fq_errorPayloadRef : string;
  fq_stackTraceRef : option string;
  fq_rpcResponseRef : option string;
  fq_revertReasonRef : option string;
  fq_timeout : option LiftJobTimeoutMetadata;
  fq_validationDiagnostic : option LiftValidationDiagnostic
}.

Inductive failure_error : Type :=
| InvalidFailureState (code : LiftJobFailureCode) (from : LiftJobActiveState)
| TimeoutMetadataRequired (code : LiftJobFailureCode)
| TimeoutHandlingNotConfigured (code : LiftJobFailureCode)
| InvalidTimeoutHandling (code : LiftJobFailureCode) (handling expected : LiftJobFailureResolution)
| TimeoutMetadataNotAllowed (code : LiftJobFailureCode).

(** The timeout checks of [createLiftJobFailureMetadata]. *)
Definition checkFailureTimeout (code : LiftJobFailureCode) (policy : LiftJobFailurePolicy)
    (t : option LiftJobTimeoutMetadata) : result failure_error unit :=
  match fp_mode policy with
  | timeout =>
      match t with
      | None => Err (TimeoutMetadataRequired code)
      | Some md =>
          match fp_timeoutHandling policy with
          | None => Err (TimeoutHandlingNotConfigured code)
          | Some th =>
              throw (InvalidTimeoutHandling code (to_handling md) th)
                when negb (bool_decide (to_handling md = th));
              Ok tt
          end
      end
  | _ => match t with
         | Some _ => Err (TimeoutMetadataNotAllowed code)
         | None => Ok tt
         end
  end.

(** [hostOnlyRpcText] (packages/chain) reduces URLs in a message to their
    hosts with the platform's URL parser; it is an argument here. *)
Definition createLiftJobFailureMetadata (hostOnlyRpcText : string -> string)
    (params : LiftJobFailureParams) : result failure_error LiftJobFailureMetadata :=
  let policy := getLiftJobFailurePolicy (fq_code params) in
  let allowedStates := LIFT_JOB_FAILURE_ALLOWED_STATES (fq_code params) in
  throw (InvalidFailureState (fq_code params) (fq_failedFromState params))
    when negb (bool_decide (fq_failedFromState params ∈ allowedStates));
  let* _ := checkFailureTimeout (fq_code params) policy (fq_timeout params) in
  Ok {| fm_failedFromState := fq_failedFromState params;
        fm_phase := fp_phase policy;
        fm_mode := fp_mode policy;
        fm_retryable := fp_retryable policy;
        fm_resolution := fp_resolution policy;
        fm_code := fq_code params;
        fm_message := hostOnlyRpcText (fq_message params);
        fm_errorPayloadRef := fq_errorPayloadRef params;
        fm_stackTraceRef := fq_stackTraceRef params;
        fm_rpcResponseRef := fq_rpcResponseRef params;
        fm_revertReasonRef := fq_revertReasonRef params;
        fm_timeout := fq_timeout params;
        fm_validationDiagnostic := fq_validationDiagnostic params |}.

Definition isRetryableLiftJobFailure (code : LiftJobFailureCode) : bool :=
  fp_retryable (getLiftJobFailurePolicy code).

Definition isTerminalLiftJobFailure (code : LiftJobFailureCode) : bool :=
  bool_decide (fp_mode (getLiftJobFailurePolicy code) = terminal).

Definition isTimeoutLiftJobFailure (code : LiftJobFailureCode) : bool :=
  bool_decide (fp_mode (getLiftJobFailurePolicy code) = timeout).

(** ** Properties *)

Lemma transition_not_terminal from to :
  canTransitionLiftJob from to = true -> isTerminalLiftJobState from = false.
Proof. by destruct from, to. Qed.

(** How far a job has advanced; terminal states are last. *)
Definition stateRank (s : LiftJobState) : nat :=
  match s with
  | accepted => 0 | claimed => 1 | validated => 2 | broadcast => 3
  | included => 4 | finalized => 5 | failed => 5
  end.

Lemma transition_rank from to :
  canTransitionLiftJob from to = true -> stateRank from < stateRank to.
Proof. destruct from, to; simpl; (done || lia). Qed.

(** The failure registry is coherent: exactly the timeout codes configure a timeout
    handling and it is their resolution; a code is not retryable exactly when it is
    terminal and resolves to failing the job; automatic retry is only given to retryable
    codes that re-run the job from the start, without a claim about the chain; and
    proven-ineffective codes are terminal codes of a job that reached broadcast. *)
Theorem failure_registry_coherent code :
  let p := getLiftJobFailurePolicy code in
  (fp_mode p = timeout <-> is_Some (fp_timeoutHandling p)) /\
  (forall h, fp_timeoutHandling p = Some h -> h = fp_resolution p) /\
  (fp_retryable p = false <-> fp_mode p = terminal) /\
  (fp_retryable p = false <-> fp_resolution p = fail_job) /\
  (fp_autoRetry p = true ->
    fp_mode p = retryable_mode /\ fp_resolution p = reset_to_accepted /\ fp_provenIneffective p = false) /\
  (fp_provenIneffective p = true ->
    fp_mode p = terminal /\
    Forall (fun s => s = aBroadcast \/ s = aIncluded) (LIFT_JOB_FAILURE_ALLOWED_STATES code)).
Proof.
  destruct code; simpl; split_and!; try split; try naive_solver eauto;
    intros; repeat constructor; naive_solver.
Qed.

(** The states in which no transaction has been sent. *)
Definition preSend (s : LiftJobActiveState) : bool :=
  match s with aAccepted | aClaimed | aValidated => true | _ => false end.

(** The codes with automatic retry are exactly [workspace_unavailable],
    [authority_unavailable], [quorum_unmet] and [fee_cap_below_base_fee], and except for
    [quorum_unmet] (recorded from broadcast only) such a failure can only be recorded from
    a state before any transaction is sent. *)
Theorem auto_retry_codes hostOnly params m :
  createLiftJobFailureMetadata hostOnly params = Ok m ->
  fp_autoRetry (getLiftJobFailurePolicy (fm_code m)) = true ->
  fm_code m ∈ [workspace_unavailable; authority_unavailable; quorum_unmet; fee_cap_below_base_fee] /\
  (preSend (fm_failedFromState m) = true \/
   (fm_code m = quorum_unmet /\ fm_failedFromState m = aBroadcast)).
Proof.
  unfold createLiftJobFailureMetadata. intros H Hauto. ok_inv. subst m. simpl in *.
  apply negb_false_iff, bool_decide_eq_true in H0.
  destruct (fq_code params); simpl in *; try discriminate; (split; [set_solver|]);
    rewrite !elem_of_cons, elem_of_nil in H0; destruct_or?; try done; rewrite H0; auto.
Qed.

Lemma checkFailureTimeout_Ok code t :
  let p := getLiftJobFailurePolicy code in
  checkFailureTimeout code p t = Ok tt <->
  match fp_mode p with
  | timeout => exists md, t = Some md /\ to_handling md = fp_resolution p
  | _ => t = None
  end.
Proof.
  intros p. unfold checkFailureTimeout. subst p. destruct t as [[ms at_ h]|], code; simpl;
    split; try naive_solver; try (intros [md [[= <-] ->]]; reflexivity);
    rewrite throw_if_Ok, negb_false_iff, bool_decide_eq_true; naive_solver.
Qed.

(** When [createLiftJobFailureMetadata] succeeds, and what it returns: it succeeds
    exactly when the code may be recorded from that state and timeout metadata is present
    for the timeout codes only, with the registry's resolution; phase, mode, retryability
    and resolution of the record are the registry's. *)
Theorem create_failure_spec hostOnly params :
  let p := getLiftJobFailurePolicy (fq_code params) in
  ((exists m, createLiftJobFailureMetadata hostOnly params = Ok m) <->
    fq_failedFromState params ∈ LIFT_JOB_FAILURE_ALLOWED_STATES (fq_code params) /\
    match fp_mode p with
    | timeout => exists md, fq_timeout params = Some md /\ to_handling md = fp_resolution p
    | _ => fq_timeout params = None
    end) /\
  (forall m, createLiftJobFailureMetadata hostOnly params = Ok m ->
    fm_phase m = fp_phase p /\ fm_mode m = fp_mode p /\ fm_retryable m = fp_retryable p /\
    fm_resolution m = fp_resolution p /\ fm_code m = fq_code params /\
    fm_failedFromState m = fq_failedFromState params /\
    fm_message m = hostOnly (fq_message params)).
Proof.
  intros p. split.
  - unfold p. rewrite <- (checkFailureTimeout_Ok (fq_code params)). unfold createLiftJobFailureMetadata. split.
    + intros [m H]. ok_inv. apply negb_false_iff, bool_decide_eq_true in H0. by destruct x.
    + intros [Hs Ht]. rewrite bool_decide_eq_true_2 by done. rewrite Ht. simpl. eauto.
  - unfold createLiftJobFailureMetadata. intros m H. ok_inv. by subst m.
Qed.

Lemma auto_retry_codes_witness :
  preSend aClaimed = true \/ (authority_unavailable = quorum_unmet /\ aClaimed = aBroadcast).
Proof.
  pose (q := {| fq_failedFromState := aClaimed; fq_code := authority_unavailable; fq_message := "";
                fq_errorPayloadRef := ""; fq_stackTraceRef := None; fq_rpcResponseRef := None;
                fq_revertReasonRef := None; fq_timeout := None; fq_validationDiagnostic := None |}).
  destruct (createLiftJobFailureMetadata id q) as [m|] eqn:E; [|discriminate E].
  pose proof E as E'. injection E' as <-.
  apply (auto_retry_codes id q _ E). reflexivity.
Defined.
