(* ===== verification/LiftJob.v ===== *)
(** * The lift job state model

    The persisted job record (packages/publisher/src/lift-job-types.ts) and
    the one place that builds canonical jobs
    (packages/publisher/src/lift-job-state-model.ts): the per-state
    construction table, the strict durable projection, the administrative
    transition with its immutability and transaction-evidence checks, and the
    proof-resolved failure constructor.

    The queued operation's request is a payload that this code copies and
    compares through its JSON text; it is a type parameter [Request] with the
    text function [jsonOf]. *)

From Stdlib Require Import Strings.Ascii.
From S2P Require Import Prelude LiftJobStates.

(** ** JavaScript objects

    [own A] is an optional property of an object: [None] when the object has
    no such own property, [Some None] when the property holds [undefined]. *)

Abbreviation own A := (option (option A)).

(** [patch.field] *)
Definition ownValue {A : Type} (p : own A) : option A := mjoin p.

(** The property after [{ ...current, ...patch }]. *)
Definition override {A : Type} (p : own A) (cur : option A) : option A :=
  match p with Some v => v | None => cur end.

(** [a ?? b] *)
Definition nullish {A : Type} (a b : option A) : option A :=
  match a with Some v => Some v | None => b end.

(** ** lift-job-types.ts *)

Inductive tsField : Type :=
| acceptedAt | claimedAt | validatedAt | broadcastAt | rpcAcceptedAt | receiptObservedAt
| finalityObservedAt | includedAt | finalizedAt | failedAt | lastRetriedAt | nextRetryAt
| lastRecoveredAt | updatedAt.

#[export] Instance tsField_eq_dec : EqDecision tsField.
Proof. solve_decision. Defined.

(** [LiftJobTimestamps], by field. *)
Definition LiftJobTimestamps : Type := tsField -> option Z.

(** A timestamps object of a patch, with the properties it has. *)
Definition TimestampsPatch : Type := tsField -> own Z.

Record LiftJobRetryMetadata : Type := {
  rt_retryCount : Z;
  rt_maxRetries : Z;
  rt_lastRetryReason : option string
}.

Inductive operation_kind : Type := create | update.

#[export] Instance operation_kind_eq_dec : EqDecision operation_kind.
Proof. solve_decision. Defined.

(** [LiftJobResettableState] (lift-job-states.ts) *)
Inductive LiftJobResettableState : Type := rClaimed | rValidated | rBroadcast | rIncluded.

Definition resettableState (s : LiftJobResettableState) : LiftJobState :=
  match s with
  | rClaimed => claimed | rValidated => validated | rBroadcast => broadcast | rIncluded => included
  end.

(** [LiftJobChainRecoverableState] (lift-job-states.ts) *)
Inductive LiftJobChainRecoverableState : Type := crBroadcast | crIncluded.

Definition chainRecoverableState (s : LiftJobChainRecoverableState) : LiftJobState :=
  match s with crBroadcast => broadcast | crIncluded => included end.

Record LiftJobRecoveryResetToAccepted : Type := {
  rr_recoveredFromStatus : LiftJobResettableState;
  rr_txHashChecked : option string;
  rr_txHashAccounted : option bool;
  rr_operationKind : option operation_kind;
  rr_walletIdChecked : option string;
  rr_nonceChecked : option Z;
  rr_note : option string
}.

Record LiftJobRecoveryFinalizedFromChain : Type := {
  rf_recoveredFromStatus : LiftJobChainRecoverableState;
  rf_txHashChecked : string;
  rf_note : option string
}.

Inductive LiftJobRecoveryMetadata : Type :=
| ResetToAccepted (r : LiftJobRecoveryResetToAccepted)
| FinalizedFromChain (r : LiftJobRecoveryFinalizedFromChain).

Record LiftJobClaimMetadata : Type := {
  cl_walletId : string;
  cl_claimedBy : option string;
  cl_claimToken : option string;
  cl_claimLeaseExpiresAt : option Z
}.

Inductive LiftTransitionType : Type := CREATE | MUTATE | REVOKE.

Record LiftJobValidationMetadata : Type := {
  va_canonicalRoots : list string;
  va_canonicalRootMap : list (string * string);
  va_swmQuadCount : Z;
  va_authorityProofRef : string;
  va_transitionType : LiftTransitionType;
  va_priorVersion : option string
}.

Record LiftJobBroadcastMetadata : Type := {
  br_txHash : string;
  br_walletId : string;
  br_merkleRoot : option string;
  br_publicByteSize : option Z;
  br_nonce : option Z;
  br_operationKind : option operation_kind
}.

Record LiftJobInclusionMetadata : Type := {
  in_txHash : string;
  in_blockNumber : Z;
  in_blockHash : option string;
  in_blockTimestamp : option Z
}.

(** [StructurallyValidLiftJobInclusion]: an old row may lack the hash. *)
Record StructurallyValidLiftJobInclusion : Type := {
  si_txHash : option string;
  si_blockNumber : Z;
  si_blockHash : option string;
  si_blockTimestamp : option Z
}.

Record LiftJobOpaqueFinalizationIdentifiers : Type := {
  op_batchId : own string;
  op_startKAId : own string;
  op_endKAId : own string
}.

Inductive finalization_mode : Type := published | noop | local.

Record LiftJobFinalizationMetadata : Type := {
  fz_mode : option finalization_mode;
  fz_txHash : option string;
  fz_ual : option string;
  fz_batchId : option string;
  fz_startKAId : option string;
  fz_endKAId : option string;
  fz_opaqueIdentifiers : option LiftJobOpaqueFinalizationIdentifiers;
  fz_publisherAddress : option string
}.

Record LiftJobControlPlaneRefs : Type := {
  cp_jobRef : option string;
  cp_walletLockRef : option string
}.

(** [LiftJobAdmissionMetadata] *)
Record LiftJobAdmissionMetadata : Type := { ad_byAgentAddress : string }.

#[export] Instance admission_eq_dec : EqDecision LiftJobAdmissionMetadata.
Proof. solve_decision. Defined.

(** [LiftJobBase] without its status. *)
Record LiftJobBase (Request : Type) : Type := {
  jobId : string;
  jobSlug : string;
  request : Request;
  admission : option LiftJobAdmissionMetadata;
  timestamps : LiftJobTimestamps;
  retries : LiftJobRetryMetadata;
  recovery : option LiftJobRecoveryMetadata;
  controlPlane : option LiftJobControlPlaneRefs
}.
Arguments jobId {Request}. Arguments jobSlug {Request}. Arguments request {Request}.
Arguments admission {Request}. Arguments timestamps {Request}. Arguments retries {Request}.
Arguments recovery {Request}. Arguments controlPlane {Request}.

(** A job: the union of lift-job-types.ts is the predicate [canonical] below. *)
Record LiftJob (Request : Type) : Type := {
  j_base : LiftJobBase Request;
  j_status : LiftJobState;
  j_claim : option LiftJobClaimMetadata;
  j_validation : option LiftJobValidationMetadata;
  j_broadcast : option LiftJobBroadcastMetadata;
  j_inclusion : option LiftJobInclusionMetadata;
  j_finalization : option LiftJobFinalizationMetadata;
  j_failure : option LiftJobFailureMetadata
}.
Arguments j_base {Request}. Arguments j_status {Request}. Arguments j_claim {Request}.
Arguments j_validation {Request}. Arguments j_broadcast {Request}. Arguments j_inclusion {Request}.
Arguments j_finalization {Request}. Arguments j_failure {Request}.

(** [StructurallyValidLiftJobPayload] *)
Record StructurallyValidLiftJobPayload (Request : Type) : Type := {
  s_base : LiftJobBase Request;
  s_status : string;
  s_claim : option LiftJobClaimMetadata;
  s_validation : option LiftJobValidationMetadata;
  s_broadcast : option LiftJobBroadcastMetadata;
  s_inclusion : option StructurallyValidLiftJobInclusion;
  s_finalization : option LiftJobFinalizationMetadata;
  s_failure : option LiftJobFailureMetadata
}.
Arguments s_base {Request}. Arguments s_status {Request}. Arguments s_claim {Request}.
Arguments s_validation {Request}. Arguments s_broadcast {Request}. Arguments s_inclusion {Request}.
Arguments s_finalization {Request}. Arguments s_failure {Request}.

(** A broadcast object of a patch, with the optional properties it has. *)
Record BroadcastPatch : Type := {
  bp_txHash : string;
  bp_walletId : string;
  bp_merkleRoot : own string;
  bp_publicByteSize : own Z;
  bp_nonce : own Z;
  bp_operationKind : own operation_kind
}.

Record InclusionPatch : Type := {
  ip_txHash : string;
  ip_blockNumber : Z;
  ip_blockHash : own string;
  ip_blockTimestamp : own Z
}.

(** [LiftJobTransitionPatch] *)
Record LiftJobTransitionPatch (Request : Type) : Type := {
  p_jobId : own string;
  p_jobSlug : own string;
  p_request : own Request;
  p_admission : own LiftJobAdmissionMetadata;
  p_timestamps : option TimestampsPatch;
  p_retries : own LiftJobRetryMetadata;
  p_recovery : own LiftJobRecoveryMetadata;
  p_controlPlane : own LiftJobControlPlaneRefs;
  p_claim : option LiftJobClaimMetadata;
  p_validation : option LiftJobValidationMetadata;
  p_broadcast : option BroadcastPatch;
  p_inclusion : option InclusionPatch;
  p_finalization : option LiftJobFinalizationMetadata;
  p_failure : option LiftJobFailureMetadata
}.
Arguments p_jobId {Request}. Arguments p_jobSlug {Request}. Arguments p_request {Request}.
Arguments p_admission {Request}. Arguments p_timestamps {Request}. Arguments p_retries {Request}.
Arguments p_recovery {Request}. Arguments p_controlPlane {Request}. Arguments p_claim {Request}.
Arguments p_validation {Request}. Arguments p_broadcast {Request}. Arguments p_inclusion {Request}.
Arguments p_finalization {Request}. Arguments p_failure {Request}.

(** The fields the construction table names. *)
Inductive ConstructionField : Type :=
| f_claim | f_validation | f_broadcast | f_inclusion | f_finalization | f_failure | f_recovery.

Inductive ImmutableField : Type :=
| im_jobId | im_jobSlug | im_request | im_admission | im_acceptedAt | im_maxRetries.

(** The field lists of [assertTransactionEvidenceRetained]. *)
Inductive BroadcastEvidenceField : Type := be_txHash | be_walletId | be_nonce | be_operationKind.
Inductive InclusionEvidenceField : Type := ie_txHash | ie_blockNumber | ie_blockHash | ie_blockTimestamp.
Inductive RecoveryEvidenceField : Type :=
| re_action | re_recoveredFromStatus | re_txHashChecked | re_txHashAccounted
| re_operationKind | re_walletIdChecked | re_nonceChecked.

(** The errors thrown by the state model. *)
Inductive lift_error : Type :=
| FieldRequired (field : string)
| FieldForbidden (field : ConstructionField) (status : string)
| FailedRecoveryNotReset
| RecoveryForbiddenForFailed
| InvalidTransition (from to : LiftJobState)
| FieldImmutable (field : ImmutableField)
| FailureOriginDiscardsEvidence (origin : LiftJobActiveState) (status : LiftJobState)
| BroadcastEvidenceDiscarded
| BroadcastFieldChanged (field : BroadcastEvidenceField)
| InclusionEvidenceDiscarded
| InclusionFieldChanged (field : InclusionEvidenceField)
| RecoveryFieldChanged (field : RecoveryEvidenceField)
| RevertedFailureCode.

(** ** Construction (lift-job-state-model.ts) *)

Definition requiredLiftJobField {A : Type} (value : option A) (path : string) : result lift_error A :=
  match value with None => Err (FieldRequired path) | Some v => Ok v end.

(** The loop [for (const field of fields) if (defined) throw]. *)
Fixpoint rejectFields (isDefined : ConstructionField -> bool) (fields : list ConstructionField)
    (status : string) : result lift_error unit :=
  match fields with
  | [] => Ok tt
  | field :: rest =>
      throw (FieldForbidden field status) when isDefined field;
      rejectFields isDefined rest status
  end.

Definition is_defined {A : Type} (o : option A) : bool :=
  match o with Some _ => true | None => false end.

Definition payloadDefines {Request : Type} (job : StructurallyValidLiftJobPayload Request)
    (field : ConstructionField) : bool :=
  match field with
  | f_claim => is_defined (s_claim job)
  | f_validation => is_defined (s_validation job)
  | f_broadcast => is_defined (s_broadcast job)
  | f_inclusion => is_defined (s_inclusion job)
  | f_finalization => is_defined (s_finalization job)
  | f_failure => is_defined (s_failure job)
  | f_recovery => is_defined (recovery (s_base job))
  end.

Definition rejectDefinedLiftJobFields {Request : Type} (job : StructurallyValidLiftJobPayload Request)
    (fields : list ConstructionField) : result lift_error unit :=
  rejectFields (payloadDefines job) fields (s_status job).

Definition canonicalLiftJobInclusion (inclusion : StructurallyValidLiftJobInclusion)
    (broadcast : LiftJobBroadcastMetadata) : LiftJobInclusionMetadata :=
  {| in_txHash := default (br_txHash broadcast) (si_txHash inclusion);
     in_blockNumber := si_blockNumber inclusion;
     in_blockHash := si_blockHash inclusion;
     in_blockTimestamp := si_blockTimestamp inclusion |}.

Definition canonicalLiftJobBase {Request : Type} (job : StructurallyValidLiftJobPayload Request)
    : LiftJobBase Request :=
  {| jobId := jobId (s_base job);
     jobSlug := jobSlug (s_base job);
     request := request (s_base job);
     admission := admission (s_base job);
     timestamps := timestamps (s_base job);
     retries := retries (s_base job);
     recovery := recovery (s_base job);
     controlPlane := controlPlane (s_base job) |}.

(** A base with its recovery replaced, [{ ...baseWithoutRecovery(), recovery }]. *)
Definition withRecovery {Request : Type} (base : LiftJobBase Request)
    (r : option LiftJobRecoveryMetadata) : LiftJobBase Request :=
  {| jobId := jobId base; jobSlug := jobSlug base; request := request base;
     admission := admission base; timestamps := timestamps base; retries := retries base;
     recovery := r; controlPlane := controlPlane base |}.

Definition withTimestamps {Request : Type} (base : LiftJobBase Request)
    (t : LiftJobTimestamps) : LiftJobBase Request :=
  {| jobId := jobId base; jobSlug := jobSlug base; request := request base;
     admission := admission base; timestamps := t; retries := retries base;
     recovery := recovery base; controlPlane := controlPlane base |}.

Definition canonicalLiftJobBaseWithoutRecovery {Request : Type}
    (job : StructurallyValidLiftJobPayload Request) : LiftJobBase Request :=
  withRecovery (canonicalLiftJobBase job) None.

Definition canonicalLiftJobFailureRecovery (r : option LiftJobRecoveryMetadata)
    : result lift_error (option LiftJobRecoveryMetadata) :=
  match r with
  | None => Ok None
  | Some (ResetToAccepted x) => Ok (Some (ResetToAccepted x))
  | Some (FinalizedFromChain _) => Err FailedRecoveryNotReset
  end.

(** The regular expression of [isLiftJobBigInt]: an optional minus sign, then
    [0] or digits without a leading zero. *)
Definition isDigit (c : Ascii.ascii) : bool :=
  (48 <=? Ascii.nat_of_ascii c) && (Ascii.nat_of_ascii c <=? 57).

Fixpoint allDigits (s : string) : bool :=
  match s with
  | EmptyString => true
  | String c rest => isDigit c && allDigits rest
  end.

Definition isDecimal (s : string) : bool :=
  match s with
  | EmptyString => false
  | String "0" EmptyString => true
  | String c rest => isDigit c && negb (bool_decide (c = "0"%char)) && allDigits rest
  end.

Definition isLiftJobBigInt (value : string) : bool :=
  match value with
  | String "-" rest => isDecimal rest
  | _ => isDecimal value
  end.

(** One round of the loop over the three identifiers: the numeric value, and
    the opaque property after it. *)
Definition separateIdentifier (value : option string) (opaque : own string)
    : option string * own string :=
  match value with
  | None => (None, opaque)
  | Some v => if isLiftJobBigInt v then (Some v, opaque) else (None, Some (Some v))
  end.

Definition canonicalLiftJobFinalizationMetadata (input : LiftJobFinalizationMetadata)
    : LiftJobFinalizationMetadata :=
  let o := default {| op_batchId := None; op_startKAId := None; op_endKAId := None |}
             (fz_opaqueIdentifiers input) in
  let '(batchId, oBatchId) := separateIdentifier (fz_batchId input) (op_batchId o) in
  let '(startKAId, oStartKAId) := separateIdentifier (fz_startKAId input) (op_startKAId o) in
  let '(endKAId, oEndKAId) := separateIdentifier (fz_endKAId input) (op_endKAId o) in
  {| fz_mode := fz_mode input;
     fz_txHash := fz_txHash input;
     fz_ual := fz_ual input;
     fz_batchId := batchId;
     fz_startKAId := startKAId;
     fz_endKAId := endKAId;
     fz_opaqueIdentifiers :=
       if is_defined oBatchId || is_defined oStartKAId || is_defined oEndKAId
       then Some {| op_batchId := oBatchId; op_startKAId := oStartKAId; op_endKAId := oEndKAId |}
       else None;
     fz_publisherAddress := fz_publisherAddress input |}.

(** [LiftJobConstructionSource]: the values, and what [reject] does. *)
Record LiftJobConstructionSource : Type := {
  v_claim : option LiftJobClaimMetadata;
  v_validation : option LiftJobValidationMetadata;
  v_broadcast : option LiftJobBroadcastMetadata;
  v_inclusion : option StructurallyValidLiftJobInclusion;
  v_finalization : option LiftJobFinalizationMetadata;
  v_failure : option LiftJobFailureMetadata;
  src_reject : list ConstructionField -> LiftJobState -> result lift_error unit
}.

(** [{ ...failure, failedFromState }] *)
Definition failureFrom (f : LiftJobFailureMetadata) (origin : LiftJobActiveState)
    : LiftJobFailureMetadata :=
  {| fm_failedFromState := origin; fm_phase := fm_phase f; fm_mode := fm_mode f;
     fm_retryable := fm_retryable f; fm_resolution := fm_resolution f; fm_code := fm_code f;
     fm_message := fm_message f; fm_errorPayloadRef := fm_errorPayloadRef f;
     fm_stackTraceRef := fm_stackTraceRef f; fm_rpcResponseRef := fm_rpcResponseRef f;
     fm_revertReasonRef := fm_revertReasonRef f; fm_timeout := fm_timeout f;
     fm_validationDiagnostic := fm_validationDiagnostic f |}.

(** [{ ...finalization, mode }] *)
Definition finalizationMode (f : LiftJobFinalizationMetadata) (mode : option finalization_mode)
    : LiftJobFinalizationMetadata :=
  {| fz_mode := mode; fz_txHash := fz_txHash f; fz_ual := fz_ual f; fz_batchId := fz_batchId f;
     fz_startKAId := fz_startKAId f; fz_endKAId := fz_endKAId f;
     fz_opaqueIdentifiers := fz_opaqueIdentifiers f; fz_publisherAddress := fz_publisherAddress f |}.

(** The [failed] arm of the construction table. *)
Definition constructFailedLiftJob {Request : Type} (base : LiftJobBase Request)
    (source : LiftJobConstructionSource) : result lift_error (LiftJob Request) :=
  let reject fields := src_reject source fields failed in
  let mk b c v br inc f :=
    {| j_base := b; j_status := failed; j_claim := c; j_validation := v; j_broadcast := br;
       j_inclusion := inc; j_finalization := None; j_failure := Some f |} in
  let* _ := reject [f_finalization] in
  let* failure := requiredLiftJobField (v_failure source) "failure" in
  let* r := canonicalLiftJobFailureRecovery (recovery base) in
  match fm_failedFromState failure with
  | aAccepted =>
      let* _ := reject [f_claim; f_validation; f_broadcast; f_inclusion; f_recovery] in
      throw RecoveryForbiddenForFailed when is_defined (recovery base);
      Ok (mk (withRecovery base None) None None None None (failureFrom failure aAccepted))
  | aClaimed =>
      let* _ := reject [f_validation; f_broadcast; f_inclusion] in
      let* claim := requiredLiftJobField (v_claim source) "claim" in
      Ok (mk (withRecovery base r) (Some claim) None None None (failureFrom failure aClaimed))
  | aValidated =>
      let* _ := reject [f_broadcast; f_inclusion] in
      let* claim := requiredLiftJobField (v_claim source) "claim" in
      let* validation := requiredLiftJobField (v_validation source) "validation" in
      Ok (mk (withRecovery base r) (Some claim) (Some validation) None None
            (failureFrom failure aValidated))
  | aBroadcast =>
      let* _ := reject [f_inclusion] in
      let* claim := requiredLiftJobField (v_claim source) "claim" in
      let* validation := requiredLiftJobField (v_validation source) "validation" in
      Ok (mk (withRecovery base r) (Some claim) (Some validation) (v_broadcast source) None
            (failureFrom failure aBroadcast))
  | aIncluded =>
      let* claim := requiredLiftJobField (v_claim source) "claim" in
      let* validation := requiredLiftJobField (v_validation source) "validation" in
      match v_broadcast source with
      | None =>
          let* _ := reject [f_inclusion] in
          Ok (mk (withRecovery base r) (Some claim) (Some validation) None None
                (failureFrom failure aIncluded))
      | Some bc =>
          let* inclusion := requiredLiftJobField (v_inclusion source) "inclusion" in
          Ok (mk (withRecovery base r) (Some claim) (Some validation) (Some bc)
                (Some (canonicalLiftJobInclusion inclusion bc))
                (failureFrom failure aIncluded))
      end
  end.

(** The [finalized] arm of the construction table. *)
Definition constructFinalizedLiftJob {Request : Type} (base : LiftJobBase Request)
    (source : LiftJobConstructionSource) : result lift_error (LiftJob Request) :=
  let reject fields := src_reject source fields finalized in
  let mk c v br inc f :=
    {| j_base := base; j_status := finalized; j_claim := Some c; j_validation := Some v;
       j_broadcast := br; j_inclusion := inc; j_finalization := Some f; j_failure := None |} in
  let* _ := reject [f_failure] in
  let* claim := requiredLiftJobField (v_claim source) "claim" in
  let* validation := requiredLiftJobField (v_validation source) "validation" in
  let* finalization := requiredLiftJobField (v_finalization source) "finalization" in
  match fz_mode finalization with
  | Some noop =>
      let* _ := reject [f_broadcast; f_inclusion] in
      Ok (mk claim validation None None (finalizationMode finalization (Some noop)))
  | Some local =>
      let* _ := reject [f_broadcast; f_inclusion] in
      Ok (mk claim validation None None (finalizationMode finalization (Some local)))
  | mode =>
      let* bc := requiredLiftJobField (v_broadcast source) "broadcast" in
      let* inclusion := requiredLiftJobField (v_inclusion source) "inclusion" in
      Ok (mk claim validation (Some bc)
            (Some (canonicalLiftJobInclusion inclusion bc))
            (finalizationMode finalization mode))
  end.

Definition constructCanonicalLiftJob {Request : Type} (status : LiftJobState)
    (base : LiftJobBase Request) (source : LiftJobConstructionSource)
    : result lift_error (LiftJob Request) :=
  let reject fields := src_reject source fields status in
  let mk c v br inc :=
    {| j_base := base; j_status := status; j_claim := c; j_validation := v;
       j_broadcast := br; j_inclusion := inc; j_finalization := None; j_failure := None |} in
  match status with
  | accepted =>
      let* _ := reject [f_claim; f_validation; f_broadcast; f_inclusion; f_finalization; f_failure] in
      Ok (mk None None None None)
  | claimed =>
      let* _ := reject [f_validation; f_broadcast; f_inclusion; f_finalization; f_failure] in
      let* claim := requiredLiftJobField (v_claim source) "claim" in
      Ok (mk (Some claim) None None None)
  | validated =>
      let* _ := reject [f_broadcast; f_inclusion; f_finalization; f_failure] in
      let* claim := requiredLiftJobField (v_claim source) "claim" in
      let* validation := requiredLiftJobField (v_validation source) "validation" in
      Ok (mk (Some claim) (Some validation) None None)
  | broadcast =>
      let* _ := reject [f_inclusion; f_finalization; f_failure] in
      let* claim := requiredLiftJobField (v_claim source) "claim" in
      let* validation := requiredLiftJobField (v_validation source) "validation" in
      let* b := requiredLiftJobField (v_broadcast source) "broadcast" in
      Ok (mk (Some claim) (Some validation) (Some b) None)
  | included =>
      let* _ := reject [f_finalization; f_failure] in
      let* b := requiredLiftJobField (v_broadcast source) "broadcast" in
      let* claim := requiredLiftJobField (v_claim source) "claim" in
      let* validation := requiredLiftJobField (v_validation source) "validation" in
      let* inclusion := requiredLiftJobField (v_inclusion source) "inclusion" in
      Ok (mk (Some claim) (Some validation) (Some b) (Some (canonicalLiftJobInclusion inclusion b)))
  | finalized => constructFinalizedLiftJob base source
  | failed => constructFailedLiftJob base source
  end.

Definition isLiftJobState (status : string) : option LiftJobState :=
  snd <$> List.find (fun c => String.eqb (fst c) status) LIFT_JOB_STATES.

(** [null] is [Ok None]. *)
Definition projectCanonicalLiftJob {Request : Type} (job : StructurallyValidLiftJobPayload Request)
    : result lift_error (option (LiftJob Request)) :=
  match isLiftJobState (s_status job) with
  | None => Ok None
  | Some status =>
      let source :=
        {| v_claim := s_claim job; v_validation := s_validation job;
           v_broadcast := s_broadcast job; v_inclusion := s_inclusion job;
           v_finalization := s_finalization job; v_failure := s_failure job;
           src_reject := fun fields _ => rejectDefinedLiftJobFields job fields |} in
      let* next := constructCanonicalLiftJob status (canonicalLiftJobBase job) source in
      Ok (Some next)
  end.

(** ** Transitions (lift-job-state-model.ts) *)

Section Transition.
Context {Request : Type} (jsonOf : Request -> string).
Implicit Types (current next : LiftJob Request) (patch : LiftJobTransitionPatch Request).

Definition fieldFromPatch {A : Type} (patch current : option A) : option A := nullish patch current.

(** A patch's broadcast object read as metadata. *)
Definition broadcastOfPatch (p : BroadcastPatch) : LiftJobBroadcastMetadata :=
  {| br_txHash := bp_txHash p; br_walletId := bp_walletId p;
     br_merkleRoot := ownValue (bp_merkleRoot p);
     br_publicByteSize := ownValue (bp_publicByteSize p);
     br_nonce := ownValue (bp_nonce p);
     br_operationKind := ownValue (bp_operationKind p) |}.

Definition broadcastFromPatch current patch : option LiftJobBroadcastMetadata :=
  match p_broadcast patch, j_broadcast current with
  | None, cur => cur
  | Some candidate, None => Some (broadcastOfPatch candidate)
  | Some candidate, Some cur =>
      if String.eqb (bp_txHash candidate) (br_txHash cur) then
        Some {| br_txHash := bp_txHash candidate;
                br_walletId := bp_walletId candidate;
                br_merkleRoot := override (bp_merkleRoot candidate) (br_merkleRoot cur);
                br_publicByteSize := override (bp_publicByteSize candidate) (br_publicByteSize cur);
                br_nonce := override (bp_nonce candidate) (br_nonce cur);
                br_operationKind := override (bp_operationKind candidate) (br_operationKind cur) |}
      else Some (broadcastOfPatch candidate)
  end.

Definition inclusionOfPatch (p : InclusionPatch) : LiftJobInclusionMetadata :=
  {| in_txHash := ip_txHash p; in_blockNumber := ip_blockNumber p;
     in_blockHash := ownValue (ip_blockHash p);
     in_blockTimestamp := ownValue (ip_blockTimestamp p) |}.

Definition inclusionFromPatch current patch : option LiftJobInclusionMetadata :=
  match p_inclusion patch, j_inclusion current with
  | None, cur => cur
  | Some candidate, None => Some (inclusionOfPatch candidate)
  | Some candidate, Some cur =>
      if String.eqb (ip_txHash candidate) (in_txHash cur)
         && Z.eqb (ip_blockNumber candidate) (in_blockNumber cur) then
        Some {| in_txHash := ip_txHash candidate;
                in_blockNumber := ip_blockNumber candidate;
                in_blockHash := override (ip_blockHash candidate) (in_blockHash cur);
                in_blockTimestamp := override (ip_blockTimestamp candidate) (in_blockTimestamp cur) |}
      else Some (inclusionOfPatch candidate)
  end.

Definition patchDefines patch (field : ConstructionField) : bool :=
  match field with
  | f_claim => is_defined (p_claim patch)
  | f_validation => is_defined (p_validation patch)
  | f_broadcast => is_defined (p_broadcast patch)
  | f_inclusion => is_defined (p_inclusion patch)
  | f_finalization => is_defined (p_finalization patch)
  | f_failure => is_defined (p_failure patch)
  | f_recovery => is_defined (ownValue (p_recovery patch))
  end.

Definition stateName (s : LiftJobState) : string :=
  match s with
  | accepted => "accepted" | claimed => "claimed" | validated => "validated"
  | broadcast => "broadcast" | included => "included" | finalized => "finalized"
  | failed => "failed"
  end.

Definition rejectTransitionPatchFields patch (fields : list ConstructionField)
    (status : LiftJobState) : result lift_error unit :=
  rejectFields (patchDefines patch) fields (stateName status).

(** The values [assertNoImmutableLiftJobPatch] compares. *)
Inductive json_value : Type :=
| JUndefined
| JString (s : string)
| JNumber (n : Z)
| JRequest (r : Request)
| JAdmission (a : LiftJobAdmissionMetadata).

Definition jval {A : Type} (f : A -> json_value) (o : option A) : json_value :=
  match o with Some a => f a | None => JUndefined end.

(** [JSON.stringify(a) === JSON.stringify(b)] *)
Definition jsonEq (a b : json_value) : bool :=
  match a, b with
  | JUndefined, JUndefined => true
  | JString s, JString t => String.eqb s t
  | JNumber m, JNumber n => Z.eqb m n
  | JRequest r, JRequest q => String.eqb (jsonOf r) (jsonOf q)
  | JAdmission x, JAdmission y => bool_decide (x = y)
  | _, _ => false
  end.

Definition LIFT_JOB_IMMUTABLE_FIELDS : list ImmutableField :=
  [im_jobId; im_jobSlug; im_request; im_admission; im_acceptedAt; im_maxRetries].

Definition immutableLiftJobFieldValue (job : LiftJob Request) (field : ImmutableField) : json_value :=
  let b := j_base job in
  match field with
  | im_jobId => JString (jobId b)
  | im_jobSlug => JString (jobSlug b)
  | im_request => JRequest (request b)
  | im_admission => jval JAdmission (admission b)
  | im_acceptedAt => jval JNumber (timestamps b acceptedAt)
  | im_maxRetries => JNumber (rt_maxRetries (retries b))
  end.

Definition patchedImmutableLiftJobFieldValue current patch (field : ImmutableField) : json_value :=
  let b := j_base current in
  match field with
  | im_jobId => jval JString (override (p_jobId patch) (Some (jobId b)))
  | im_jobSlug => jval JString (override (p_jobSlug patch) (Some (jobSlug b)))
  | im_request => jval JRequest (override (p_request patch) (Some (request b)))
  | im_admission => jval JAdmission (override (p_admission patch) (admission b))
  | im_acceptedAt =>
      jval JNumber
        match p_timestamps patch with
        | None => timestamps b acceptedAt
        | Some t => override (t acceptedAt) (timestamps b acceptedAt)
        end
  | im_maxRetries =>
      jval JNumber
        match p_retries patch with
        | None => Some (rt_maxRetries (retries b))
        | Some r => rt_maxRetries <$> r
        end
  end.

Fixpoint assertImmutableFields current patch (fields : list ImmutableField) : result lift_error unit :=
  match fields with
  | [] => Ok tt
  | field :: rest =>
      throw (FieldImmutable field) when
        negb (jsonEq (immutableLiftJobFieldValue current field)
                     (patchedImmutableLiftJobFieldValue current patch field));
      assertImmutableFields current patch rest
  end.

Definition assertNoImmutableLiftJobPatch current patch : result lift_error unit :=
  assertImmutableFields current patch LIFT_JOB_IMMUTABLE_FIELDS.

(** The stamp of one status: [status === s ? (t ?? now) : t]. *)
Definition stamp (status s : LiftJobState) (now : Z) (t : option Z) : option Z :=
  if bool_decide (status = s) then nullish t (Some now) else t.

Definition transitionTimestamps current (status : LiftJobState) patch (now : Z) : LiftJobTimestamps :=
  let ts (f : tsField) :=
    match p_timestamps patch with
    | None => timestamps (j_base current) f
    | Some t => override (t f) (timestamps (j_base current) f)
    end in
  fun f =>
    match f with
    | claimedAt => stamp status claimed now (ts claimedAt)
    | validatedAt => stamp status validated now (ts validatedAt)
    | broadcastAt => stamp status broadcast now (ts broadcastAt)
    | includedAt => stamp status included now (ts includedAt)
    | finalizedAt => stamp status finalized now (ts finalizedAt)
    | failedAt => stamp status failed now (ts failedAt)
    | updatedAt => Some now
    | f => ts f
    end.

Definition transitionBase current (status : LiftJobState) patch (now : Z)
    : result lift_error (LiftJobBase Request) :=
  let b := j_base current in
  let* retries' := match p_retries patch with
                   | Some r => requiredLiftJobField r "retries"
                   | None => Ok (retries b)
                   end in
  Ok {| jobId := jobId b;
        jobSlug := jobSlug b;
        request := request b;
        admission := admission b;
        timestamps := transitionTimestamps current status patch now;
        retries := retries';
        recovery := override (p_recovery patch) (recovery b);
        controlPlane := override (p_controlPlane patch) (controlPlane b) |}.

(** A canonical inclusion read as a structural one. *)
Definition structuralInclusion (i : LiftJobInclusionMetadata) : StructurallyValidLiftJobInclusion :=
  {| si_txHash := Some (in_txHash i); si_blockNumber := in_blockNumber i;
     si_blockHash := in_blockHash i; si_blockTimestamp := in_blockTimestamp i |}.

Definition transitionConstructionSource current patch : LiftJobConstructionSource :=
  {| v_claim := fieldFromPatch (p_claim patch) (j_claim current);
     v_validation := fieldFromPatch (p_validation patch) (j_validation current);
     v_broadcast := broadcastFromPatch current patch;
     v_inclusion := structuralInclusion <$> inclusionFromPatch current patch;
     v_finalization := fieldFromPatch (p_finalization patch) (j_finalization current);
     v_failure := fieldFromPatch (p_failure patch) (j_failure current);
     src_reject := rejectTransitionPatchFields patch |}.

Definition assertFailureOriginRetainsTransactionEvidence current
    (source : LiftJobConstructionSource) : result lift_error unit :=
  match v_failure source with
  | None => Ok tt
  | Some failure =>
      throw (FailureOriginDiscardsEvidence (fm_failedFromState failure) (j_status current)) when
        (bool_decide (j_status current = broadcast) || bool_decide (j_status current = included))
        && negb (bool_decide (activeState (fm_failedFromState failure) = j_status current));
      Ok tt
  end.

Definition recoveryTxHash (r : LiftJobRecoveryMetadata) : option string :=
  match r with
  | ResetToAccepted x => rr_txHashChecked x
  | FinalizedFromChain x => Some (rf_txHashChecked x)
  end.

Definition checkedRecoveryTxHash (job : LiftJob Request) : option string :=
  recovery (j_base job) ≫= recoveryTxHash.

Definition RECOVERY_EVIDENCE_FIELDS : list RecoveryEvidenceField :=
  [re_action; re_recoveredFromStatus; re_txHashChecked; re_txHashAccounted;
   re_operationKind; re_walletIdChecked; re_nonceChecked].

(** The values the evidence comparisons read. *)
Inductive evidence_value : Type :=
| EvString (s : string)
| EvNumber (n : Z)
| EvBool (b : bool)
| EvStatus (s : LiftJobState)
| EvKind (k : operation_kind).

#[export] Instance evidence_value_eq_dec : EqDecision evidence_value.
Proof. solve_decision. Defined.

Definition recoveryEvidenceField (r : option LiftJobRecoveryMetadata) (field : RecoveryEvidenceField)
    : option evidence_value :=
  match r with
  | None => None
  | Some (ResetToAccepted x) =>
      match field with
      | re_action => Some (EvString "reset_to_accepted")
      | re_recoveredFromStatus => Some (EvStatus (resettableState (rr_recoveredFromStatus x)))
      | re_txHashChecked => EvString <$> rr_txHashChecked x
      | re_txHashAccounted => EvBool <$> rr_txHashAccounted x
      | re_operationKind => EvKind <$> rr_operationKind x
      | re_walletIdChecked => EvString <$> rr_walletIdChecked x
      | re_nonceChecked => EvNumber <$> rr_nonceChecked x
      end
  | Some (FinalizedFromChain x) =>
      match field with
      | re_action => Some (EvString "finalized_from_chain")
      | re_recoveredFromStatus => Some (EvStatus (chainRecoverableState (rf_recoveredFromStatus x)))
      | re_txHashChecked => Some (EvString (rf_txHashChecked x))
      | _ => None
      end
  end.

Definition broadcastEvidence (b : LiftJobBroadcastMetadata) (f : BroadcastEvidenceField)
    : option evidence_value :=
  match f with
  | be_txHash => Some (EvString (br_txHash b))
  | be_walletId => Some (EvString (br_walletId b))
  | be_nonce => EvNumber <$> br_nonce b
  | be_operationKind => EvKind <$> br_operationKind b
  end.

Definition inclusionEvidence (i : LiftJobInclusionMetadata) (f : InclusionEvidenceField)
    : option evidence_value :=
  match f with
  | ie_txHash => Some (EvString (in_txHash i))
  | ie_blockNumber => Some (EvNumber (in_blockNumber i))
  | ie_blockHash => EvString <$> in_blockHash i
  | ie_blockTimestamp => EvNumber <$> in_blockTimestamp i
  end.

(** [for (const field of fields) { if (same(field)) continue; throw ... }] *)
Fixpoint checkFields {F : Type} (same : F -> bool) (err : F -> lift_error) (fields : list F)
    : result lift_error unit :=
  match fields with
  | [] => Ok tt
  | f :: rest => throw (err f) when negb (same f); checkFields same err rest
  end.

(** [before === undefined || before === after] *)
Definition keeps (before after : option evidence_value) : bool :=
  match before with None => true | Some _ => bool_decide (before = after) end.

Definition assertTransactionEvidenceRetained current next : result lift_error unit :=
  let* _ :=
    match j_broadcast current with
    | None => Ok tt
    | Some b =>
        match j_broadcast next with
        | None => Err BroadcastEvidenceDiscarded
        | Some b' =>
            checkFields (fun f => keeps (broadcastEvidence b f) (broadcastEvidence b' f))
              BroadcastFieldChanged [be_txHash; be_walletId; be_nonce; be_operationKind]
        end
    end in
  let* _ :=
    match j_inclusion current with
    | None => Ok tt
    | Some i =>
        match j_inclusion next with
        | None => Err InclusionEvidenceDiscarded
        | Some i' =>
            checkFields (fun f => keeps (inclusionEvidence i f) (inclusionEvidence i' f))
              InclusionFieldChanged [ie_txHash; ie_blockNumber; ie_blockHash; ie_blockTimestamp]
        end
    end in
  match checkedRecoveryTxHash current with
  | None => Ok tt
  | Some _ =>
      checkFields
        (fun f => bool_decide (recoveryEvidenceField (recovery (j_base current)) f
                               = recoveryEvidenceField (recovery (j_base next)) f))
        RecoveryFieldChanged RECOVERY_EVIDENCE_FIELDS
  end.

(** [assertLiftJobTransition] (lift-job-states.ts) *)
Definition assertLiftJobTransition (from to : LiftJobState) : result lift_error unit :=
  throw (InvalidTransition from to) when negb (canTransitionLiftJob from to); Ok tt.

Definition buildCanonicalLiftJobAdministrativeTransition current (status : LiftJobState) patch
    (now : Z) : result lift_error (LiftJob Request) :=
  let* _ := (if bool_decide (j_status current = status) then Ok tt
             else assertLiftJobTransition (j_status current) status) in
  let* _ := assertNoImmutableLiftJobPatch current patch in
  let* base := transitionBase current status patch now in
  let source := transitionConstructionSource current patch in
  let* _ := (if bool_decide (status = failed)
             then assertFailureOriginRetainsTransactionEvidence current source else Ok tt) in
  let* next := constructCanonicalLiftJob status base source in
  let* _ := assertTransactionEvidenceRetained current next in
  Ok next.

Definition buildCanonicalLiftJobTransition current (status : LiftJobState) patch (now : Z)
    : result lift_error (LiftJob Request) :=
  buildCanonicalLiftJobAdministrativeTransition current status patch now.

(** A job read back as a decoded payload. *)
Definition payloadOf (job : LiftJob Request) : StructurallyValidLiftJobPayload Request :=
  {| s_base := j_base job; s_status := stateName (j_status job); s_claim := j_claim job;
     s_validation := j_validation job; s_broadcast := j_broadcast job;
     s_inclusion := structuralInclusion <$> j_inclusion job;
     s_finalization := j_finalization job; s_failure := j_failure job |}.

(** [{ ...t, failedAt: now, updatedAt: now }] *)
Definition failedTimestamps (t : LiftJobTimestamps) (now : Z) : LiftJobTimestamps :=
  fun f => match f with failedAt | updatedAt => Some now | f => t f end.

(** [null] is [Ok None]. *)
Definition buildCanonicalRevertedLiftJobFailure (job : LiftJob Request)
    (failure : LiftJobFailureMetadata) (now : Z) : result lift_error (option (LiftJob Request)) :=
  throw RevertedFailureCode when negb (bool_decide (fm_code failure = tx_reverted));
  let base := withTimestamps (canonicalLiftJobBaseWithoutRecovery (payloadOf job))
                (failedTimestamps (timestamps (j_base job)) now) in
  match j_claim job, j_validation job, j_broadcast job, j_inclusion job with
  | Some claim, Some validation, Some bc, Some inclusion =>
      Ok (Some {| j_base := base; j_status := failed; j_claim := Some claim;
                  j_validation := Some validation; j_broadcast := Some bc;
                  j_inclusion := Some inclusion; j_finalization := None;
                  j_failure := Some (failureFrom failure aIncluded) |})
  | Some claim, Some validation, Some bc, None =>
      Ok (Some {| j_base := base; j_status := failed; j_claim := Some claim;
                  j_validation := Some validation; j_broadcast := Some bc;
                  j_inclusion := None; j_finalization := None;
                  j_failure := Some (failureFrom failure aBroadcast) |})
  | _, _, _, _ => Ok None
  end.

(** ** The union [LiftJob] of lift-job-types.ts *)

Definition resetOnly (r : option LiftJobRecoveryMetadata) : bool :=
  match r with Some (FinalizedFromChain _) => false | _ => true end.

(** Which of the six progress fields a job carries. *)
Definition carries (job : LiftJob Request) : list bool :=
  [is_defined (j_claim job); is_defined (j_validation job); is_defined (j_broadcast job);
   is_defined (j_inclusion job); is_defined (j_finalization job); is_defined (j_failure job)].

Definition isFailedLiftJob (job : LiftJob Request) (origin : LiftJobActiveState) : bool :=
  match origin with
  | aAccepted =>
      bool_decide (carries job = [false; false; false; false; false; true])
      && negb (is_defined (recovery (j_base job)))
  | aClaimed =>
      bool_decide (carries job = [true; false; false; false; false; true])
      && resetOnly (recovery (j_base job))
  | aValidated =>
      bool_decide (carries job = [true; true; false; false; false; true])
      && resetOnly (recovery (j_base job))
  | aBroadcast =>
      (bool_decide (carries job = [true; true; true; false; false; true])
       || bool_decide (carries job = [true; true; false; false; false; true]))
      && resetOnly (recovery (j_base job))
  | aIncluded =>
      (bool_decide (carries job = [true; true; true; true; false; true])
       || bool_decide (carries job = [true; true; false; false; false; true]))
      && resetOnly (recovery (j_base job))
  end.

Definition isLiftJob (job : LiftJob Request) : bool :=
  match j_status job with
  | accepted => bool_decide (carries job = [false; false; false; false; false; false])
  | claimed => bool_decide (carries job = [true; false; false; false; false; false])
  | validated => bool_decide (carries job = [true; true; false; false; false; false])
  | broadcast => bool_decide (carries job = [true; true; true; false; false; false])
  | included => bool_decide (carries job = [true; true; true; true; false; false])
  | finalized =>
      match fz_mode <$> j_finalization job with
      | Some (Some noop) | Some (Some local) =>
          bool_decide (carries job = [true; true; false; false; true; false])
      | Some _ => bool_decide (carries job = [true; true; true; true; true; false])
      | None => false
      end
  | failed =>
      match j_failure job with
      | Some f => isFailedLiftJob job (fm_failedFromState f)
      | None => false
      end
  end.

End Transition.
Arguments json_value : clear implicits.
