(* ===== verification/LiftJobTheory.v ===== *)
(** * Theorems on the lift job state model

    Every job the state model builds is a member of the union of
    lift-job-types.ts; transitions follow the lifecycle table, keep the
    immutable fields and never lose transaction evidence, over single steps
    and over whole histories; the durable projection is a retraction of
    reading a job back. *)

From S2P Require Import Prelude LiftJobStates LiftJob.

(** Opens the successful run of a constructor, one guard at a time. *)
Ltac open_run :=
  repeat match goal with
  | _ => progress ok_inv
  | H : requiredLiftJobField ?o _ = Ok ?v |- _ =>
      destruct o eqn:?; simpl in H; [injection H as H; subst|discriminate H]
  end.

Section Construction.
Context {Request : Type}.
Implicit Types (base : LiftJobBase Request) (job next : LiftJob Request).

Lemma failure_recovery_reset (r r' : option LiftJobRecoveryMetadata) :
  canonicalLiftJobFailureRecovery r = Ok r' -> r' = r /\ resetOnly r = true.
Proof. destruct r as [[]|]; simpl; naive_solver. Qed.

Lemma construct_failed_union base source next :
  constructFailedLiftJob base source = Ok next -> isLiftJob next = true /\ j_status next = failed.
Proof.
  unfold constructFailedLiftJob. intros H. open_run.
  apply failure_recovery_reset in H2 as [-> Hr].
  destruct (fm_failedFromState x0) eqn:?; open_run; subst; try destruct (v_broadcast source);
    open_run; subst; cbn -[bool_decide]; rewrite ?Hr; done.
Qed.

Lemma construct_finalized_union base source next :
  constructFinalizedLiftJob base source = Ok next -> isLiftJob next = true /\ j_status next = finalized.
Proof.
  unfold constructFinalizedLiftJob. intros H. open_run.
  destruct (fz_mode x2) as [[]|] eqn:?; open_run; subst; done.
Qed.

Lemma construct_union status base source next :
  constructCanonicalLiftJob status base source = Ok next ->
  isLiftJob next = true /\ j_status next = status.
Proof.
  destruct status; simpl; intros H;
    [..|by eapply construct_finalized_union|by eapply construct_failed_union];
    open_run; subst; done.
Qed.

(** The construction table keeps the base, except the recovery of a failed
    job, which it keeps as well when it succeeds. *)
Lemma construct_base status base source next :
  constructCanonicalLiftJob status base source = Ok next -> j_base next = base.
Proof.
  destruct status; simpl; intros H; try (open_run; subst; done).
  - unfold constructFinalizedLiftJob in H. open_run.
    destruct (fz_mode x2) as [[]|] eqn:?; open_run; subst; done.
  - unfold constructFailedLiftJob in H. open_run.
    apply failure_recovery_reset in H2 as [-> Hr].
    destruct (fm_failedFromState x0) eqn:?; open_run; subst; destruct base as [???????[]]; simpl in *; try done.
    + by destruct recovery.
    + by destruct recovery.
    + destruct (v_broadcast source); open_run; subst; done.
    + destruct (v_broadcast source); open_run; subst; done.
Qed.

End Construction.

(** ** Transitions *)

Section Transitions.
Context {Request : Type} (jsonOf : Request -> string).
Implicit Types (current next : LiftJob Request) (patch : LiftJobTransitionPatch Request).

Let build := buildCanonicalLiftJobAdministrativeTransition jsonOf.

Lemma transition_inv current status patch now next :
  build current status patch now = Ok next ->
  (j_status current = status \/ canTransitionLiftJob (j_status current) status = true) /\
  assertNoImmutableLiftJobPatch jsonOf current patch = Ok tt /\
  (exists base, transitionBase current status patch now = Ok base /\
    constructCanonicalLiftJob status base (transitionConstructionSource current patch) = Ok next) /\
  assertTransactionEvidenceRetained current next = Ok tt.
Proof.
  unfold build, buildCanonicalLiftJobAdministrativeTransition. intros H. ok_inv.
  subst. repeat match goal with u : unit |- _ => destruct u end.
  split; [|split; [done|split; [eauto|done]]].
  destruct (decide (j_status current = status)) as [|Hne]; [by left|right].
  rewrite (bool_decide_eq_false_2 _ Hne) in *. unfold assertLiftJobTransition in *. ok_inv.
  by apply negb_false_iff.
Qed.

(** The immutable fields of a job. *)
Definition immutables (job : LiftJob Request) :=
  (jobId (j_base job), jobSlug (j_base job), request (j_base job), admission (j_base job),
   timestamps (j_base job) acceptedAt, rt_maxRetries (retries (j_base job))).

Lemma jval_number_eq (x y : option Z) :
  jsonEq jsonOf (jval JNumber x) (jval JNumber y) = true -> x = y.
Proof. destruct x, y; simpl; try done. rewrite Z.eqb_eq. by intros ->. Qed.

Lemma immutable_patch_inv current patch :
  assertNoImmutableLiftJobPatch jsonOf current patch = Ok tt ->
  (forall t, p_timestamps patch = Some t ->
    override (t acceptedAt) (timestamps (j_base current) acceptedAt) =
    timestamps (j_base current) acceptedAt) /\
  (forall r, p_retries patch = Some (Some r) -> rt_maxRetries r = rt_maxRetries (retries (j_base current))).
Proof.
  unfold assertNoImmutableLiftJobPatch. cbn [assertImmutableFields LIFT_JOB_IMMUTABLE_FIELDS].
  intros H. ok_inv. rewrite !negb_false_iff in *. simpl in *. split.
  - intros t Ht. rewrite Ht in *. symmetry. by apply jval_number_eq.
  - intros r Hr. rewrite Hr in *. simpl in *. symmetry. by apply Z.eqb_eq.
Qed.

Lemma build_immutables current status patch now next :
  build current status patch now = Ok next -> immutables next = immutables current.
Proof.
  intros (_ & Himm & (base & Hbase & Hc) & _)%transition_inv.
  apply construct_base in Hc. apply immutable_patch_inv in Himm as [Ht Hr].
  unfold transitionBase in Hbase. ok_inv. unfold immutables. rewrite Hc, <- Hbase. simpl.
  assert (rt_maxRetries x = rt_maxRetries (retries (j_base current))) as ->.
  { destruct (p_retries patch) as [r|]; [|by injection H as <-].
    open_run. by apply Hr. }
  destruct (p_timestamps patch) as [t|]; [|done]. by rewrite Ht.
Qed.

(** ** Evidence *)

Definition evidenceKept {F : Type} (before after : F -> option evidence_value) : Prop :=
  forall f v, before f = Some v -> after f = Some v.

(** [next] retains the transaction evidence of [current]. *)
Definition retains current next : Prop :=
  (forall b, j_broadcast current = Some b ->
    exists b', j_broadcast next = Some b' /\ evidenceKept (broadcastEvidence b) (broadcastEvidence b')) /\
  (forall i, j_inclusion current = Some i ->
    exists i', j_inclusion next = Some i' /\ evidenceKept (inclusionEvidence i) (inclusionEvidence i')) /\
  (is_Some (checkedRecoveryTxHash current) ->
    forall f, recoveryEvidenceField (recovery (j_base next)) f
              = recoveryEvidenceField (recovery (j_base current)) f).

Lemma checkFields_Ok {F : Type} (same : F -> bool) err fields :
  checkFields same err fields = Ok tt <-> Forall (fun f => same f = true) fields.
Proof.
  induction fields as [|f fields IH]; simpl; [by split|].
  rewrite throw_if_Ok, IH, negb_false_iff, Forall_cons. done.
Qed.

Lemma keeps_spec before after v : keeps before after = true -> before = Some v -> after = Some v.
Proof. intros H ->. simpl in H. apply bool_decide_eq_true in H. done. Qed.

Lemma checked_keeps {F : Type} (before after : F -> option evidence_value) err fields :
  (forall f, f ∈ fields) ->
  checkFields (fun f => keeps (before f) (after f)) err fields = Ok tt -> evidenceKept before after.
Proof.
  rewrite checkFields_Ok, Forall_forall. intros Hall H f v.
  apply keeps_spec, H, Hall.
Qed.

Lemma evidence_retained current next :
  assertTransactionEvidenceRetained current next = Ok tt -> retains current next.
Proof.
  unfold assertTransactionEvidenceRetained. intros H. ok_inv.
  repeat match goal with u : unit |- _ => destruct u end. split; [|split].
  - intros b Hb. rewrite Hb in H0. destruct (j_broadcast next) as [b'|]; [|done].
    exists b'. split; [done|]. eapply checked_keeps, H0. intros []; set_solver.
  - intros i Hi. rewrite Hi in H1. destruct (j_inclusion next) as [i'|]; [|done].
    exists i'. split; [done|]. eapply checked_keeps, H1. intros []; set_solver.
  - intros [h Hh] f. rewrite Hh in H. apply checkFields_Ok in H. rewrite Forall_forall in H.
    symmetry. eapply bool_decide_eq_true, H. destruct f; set_solver.
Qed.

Lemma checked_hash_field current :
  recoveryEvidenceField (recovery (j_base current)) re_txHashChecked
  = EvString <$> checkedRecoveryTxHash current.
Proof. unfold checkedRecoveryTxHash. by destruct (recovery (j_base current)) as [[]|]. Qed.

Lemma retains_checked current next h :
  retains current next -> checkedRecoveryTxHash current = Some h -> checkedRecoveryTxHash next = Some h.
Proof.
  intros (_ & _ & Hr) Hh. specialize (Hr (mk_is_Some _ _ Hh) re_txHashChecked).
  rewrite !checked_hash_field, Hh in Hr. simpl in Hr.
  destruct (checkedRecoveryTxHash next); simpl in Hr; [congruence|discriminate].
Qed.

#[export] Instance retains_preorder : PreOrder retains.
Proof.
  split.
  - intros x. split; [|split]; [intros b Hb; exists b|intros i Hi; exists i|done];
      (split; [done|by intros f v]).
  - intros x y z Hxy Hyz. pose proof (retains_checked x y) as Hck.
    destruct Hxy as (B1 & I1 & R1), Hyz as (B2 & I2 & R2). split; [|split].
    + intros b Hb. destruct (B1 b Hb) as (b' & Hb' & K1), (B2 b' Hb') as (b2 & ? & K2).
      exists b2. split; [done|]. intros f v Hf. by apply K2, K1.
    + intros i Hi. destruct (I1 i Hi) as (i' & Hi' & K1), (I2 i' Hi') as (i2 & ? & K2).
      exists i2. split; [done|]. intros f v Hf. by apply K2, K1.
    + intros [h Hh] f. etrans; [apply R2|apply R1; by exists h].
      exists h. exact (Hck h (conj B1 (conj I1 R1)) Hh).
Qed.

(** ** Histories *)

(** One transition of a job, with any destination, patch and time. *)
Definition step current next : Prop :=
  exists status patch now, build current status patch now = Ok next.

(** A history with its number of status changes. *)
Inductive history : nat -> LiftJob Request -> LiftJob Request -> Prop :=
| history_nil job : history 0 job job
| history_same n a b c :
    step a b -> j_status a = j_status b -> history n b c -> history n a c
| history_change n a b c :
    step a b -> j_status a <> j_status b -> history n b c -> history (S n) a c.

Lemma step_union current next : step current next -> isLiftJob next = true.
Proof.
  intros (status & patch & now & (_ & _ & (base & _ & Hc) & _)%transition_inv).
  by apply construct_union in Hc as [].
Qed.

Lemma step_status current next :
  step current next -> j_status next = j_status current \/
    canTransitionLiftJob (j_status current) (j_status next) = true.
Proof.
  intros (status & patch & now & (Hs & _ & (base & _ & Hc) & _)%transition_inv).
  apply construct_union in Hc as [_ <-]. naive_solver.
Qed.

Lemma step_retains current next : step current next -> retains current next.
Proof. intros (status & patch & now & (_ & _ & _ & He)%transition_inv). by apply evidence_retained. Qed.

Lemma step_immutables current next : step current next -> immutables next = immutables current.
Proof. intros (status & patch & now & H). by eapply build_immutables. Qed.

Lemma history_rank n a b : history n a b -> stateRank (j_status a) + n <= stateRank (j_status b).
Proof.
  induction 1 as [|n a b c _ Hs _ IH|n a b c Hst Hs _ IH]; [lia|congruence|].
  apply step_status in Hst as [|Hst]; [congruence|]. apply transition_rank in Hst. lia.
Qed.

Lemma history_terminal n a b :
  history n a b -> isTerminalLiftJobState (j_status a) = true -> j_status b = j_status a.
Proof.
  induction 1 as [|n a b c _ Hs _ IH|n a b c Hst Hs _ IH]; intros Ht; [done|..].
  - rewrite IH by congruence. done.
  - apply step_status in Hst as [|Hst%transition_not_terminal]; congruence.
Qed.

End Transitions.

(** C27: A successful transition, whatever its patch, returns a job of the union with the
    requested status, reached by an edge of the lifecycle table (or the same status), with
    the job id, slug, request, admission, acceptance time and retry budget of the job it
    started from. *)
Theorem transition_preserves {Request} (jsonOf : Request -> string) current status patch now next :
  buildCanonicalLiftJobAdministrativeTransition jsonOf current status patch now = Ok next ->
  isLiftJob next = true /\ j_status next = status /\
  (j_status current = status \/ canTransitionLiftJob (j_status current) status = true) /\
  immutables next = immutables current.
Proof.
  intros H. pose proof H as (Hs & _ & (base & _ & Hc) & _)%transition_inv.
  apply construct_union in Hc as [Hu Hst]. apply build_immutables in H. done.
Qed.

(** C10: No history of transitions loses transaction evidence or identity: the broadcast and
    inclusion records of a job stay with their hash, wallet, nonce, operation kind, block
    number, block hash and block time, a checked recovery hash keeps every field of its
    provenance, and the immutable fields never change. *)
Theorem history_retains_evidence {Request} (jsonOf : Request -> string) n (a b : LiftJob Request) :
  history jsonOf n a b -> retains a b /\ immutables b = immutables a.
Proof.
  induction 1 as [|n a b c Hst _ _ [IHr IHi]|n a b c Hst _ _ [IHr IHi]]; [done|..];
    (split; [etrans; [by eapply step_retains|done]|rewrite IHi; by eapply step_immutables]).
Qed.

(** A job changes its status at most five times, however many transitions it takes, and
    a finalized or failed job keeps its status for ever. *)
Theorem history_bounded {Request} (jsonOf : Request -> string) n (a b : LiftJob Request) :
  history jsonOf n a b ->
  n <= 5 /\ (isTerminalLiftJobState (j_status a) = true -> j_status b = j_status a).
Proof.
  intros H. split; [|by eapply history_terminal].
  apply history_rank in H. assert (stateRank (j_status b) <= 5) by (destruct (j_status b); simpl; lia). lia.
Qed.

(** ** The durable projection *)

Section Projection.
Context {Request : Type}.
Implicit Types (job : LiftJob Request) (s : StructurallyValidLiftJobPayload Request).

Lemma isLiftJobState_name st : isLiftJobState (stateName st) = Some st.
Proof. by destruct st. Qed.

Lemma isLiftJobState_inv name st : isLiftJobState name = Some st -> name = stateName st.
Proof.
  unfold isLiftJobState. cbn [LIFT_JOB_STATES List.find fst].
  repeat case_match; simpl; intros [= <-];
    repeat match goal with H : String.eqb _ _ = true |- _ => apply String.eqb_eq in H end; done.
Qed.

(** A payload whose inclusion hash is filled in from its broadcast record. *)
Definition fillInclusionHash s : StructurallyValidLiftJobPayload Request :=
  {| s_base := s_base s; s_status := s_status s; s_claim := s_claim s;
     s_validation := s_validation s; s_broadcast := s_broadcast s;
     s_inclusion :=
       match s_inclusion s, s_broadcast s with
       | Some i, Some b => Some (structuralInclusion (canonicalLiftJobInclusion i b))
       | i, _ => i
       end;
     s_finalization := s_finalization s; s_failure := s_failure s |}.

Lemma failureFrom_same f : failureFrom f (fm_failedFromState f) = f.
Proof. by destruct f. Qed.

Lemma finalizationMode_same f : finalizationMode f (fz_mode f) = f.
Proof. by destruct f. Qed.

Lemma base_of_payload s : canonicalLiftJobBase s = s_base s.
Proof. by destruct s as [[]]. Qed.

Lemma base_eta (b : LiftJobBase Request) r : recovery b = r -> withRecovery b r = b.
Proof. destruct b. by intros <-. Qed.

Lemma canonical_inclusion_same i b : canonicalLiftJobInclusion (structuralInclusion i) b = i.
Proof. by destruct i. Qed.

Lemma rejected_fields (d : ConstructionField -> bool) fields status u :
  rejectFields d fields status = Ok u <-> Forall (fun f => d f = false) fields.
Proof.
  destruct u. induction fields as [|f fields IH]; simpl; [by split|].
  rewrite throw_if_Ok, IH, Forall_cons. done.
Qed.

Lemma is_defined_false {A} (o : option A) : is_defined o = false <-> o = None.
Proof. by destruct o. Qed.

End Projection.

(** Turns the rejected fields of a payload into equations. *)
Ltac rejected :=
  unfold rejectDefinedLiftJobFields in *;
  repeat match goal with
  | H : rejectFields _ _ _ = Ok _ |- _ => apply rejected_fields in H
  | H : Forall _ (_ :: _) |- _ => apply Forall_cons in H as [? H]
  | H : Forall _ [] |- _ => clear H
  | H : is_defined _ = false |- _ => apply is_defined_false in H
  | H : payloadDefines _ _ = false |- _ => simpl in H
  end.

(** The durable projection is lossless: a payload it accepts names one of the seven
    states, and the job it returns is a member of the union that carries every field of the
    payload unchanged, except that a missing inclusion hash is the broadcast hash. *)
Theorem project_lossless {Request} (s : StructurallyValidLiftJobPayload Request) job :
  projectCanonicalLiftJob s = Ok (Some job) ->
  isLiftJob job = true /\ payloadOf job = fillInclusionHash s.
Proof.
  unfold projectCanonicalLiftJob. destruct (isLiftJobState (s_status s)) as [st|] eqn:Est; [|done].
  apply isLiftJobState_inv in Est. intros H. ok_inv. subst.
  pose proof (construct_union _ _ _ _ H0) as [Hu Hst]. pose proof (construct_base _ _ _ _ H0) as Hb.
  split; [done|]. destruct s as [base status oc ov ob oi oz ofl]. simpl in *.
  unfold payloadOf, fillInclusionHash. rewrite Hb, Hst, Est. simpl. clear Hb Hst Hu.
  rewrite base_of_payload in *. simpl.
  destruct st; simpl in H0; [open_run; rejected; by subst..|unfold constructFinalizedLiftJob in H0
    |unfold constructFailedLiftJob in H0]; simpl in H0; open_run; rejected; subst.
  - match type of H0 with context [fz_mode ?z] => destruct (fz_mode z) as [[]|] eqn:Em end;
      open_run; rejected; subst; simpl;
      rewrite <- ?Em, finalizationMode_same; done.
  - match type of H0 with context [fm_failedFromState ?f] => destruct (fm_failedFromState f) eqn:Ef end;
      open_run; rejected; subst; try (destruct ob);
      open_run; rejected; subst; simpl; rewrite <- Ef, failureFrom_same; done.
Qed.

Lemma carries_inv {Request} (job : LiftJob Request) c v b i z f :
  bool_decide (carries job = [c; v; b; i; z; f]) = true ->
  is_defined (j_claim job) = c /\ is_defined (j_validation job) = v /\
  is_defined (j_broadcast job) = b /\ is_defined (j_inclusion job) = i /\
  is_defined (j_finalization job) = z /\ is_defined (j_failure job) = f.
Proof. rewrite bool_decide_eq_true. unfold carries. intros [=]. by split_and!. Qed.

(** Opens a [carries] test into the presence of each field. *)
Ltac open_carries :=
  repeat match goal with
  | H : bool_decide (carries _ = _) = true |- _ => apply carries_inv in H as (?&?&?&?&?&?); simpl in *
  | H : (_ && _) = true |- _ => apply andb_true_iff in H as [? ?]
  | H : (_ || _) = true |- _ => apply orb_true_iff in H as [H|H]
  | H : is_defined ?o = _ |- _ => destruct o; simpl in H; try discriminate H; clear H
  end.

(** Reading back a job of the union gives that job: the projection accepts every
    canonical row and changes nothing in it. *)
Theorem project_roundtrip {Request} (job : LiftJob Request) :
  isLiftJob job = true -> projectCanonicalLiftJob (payloadOf job) = Ok (Some job).
Proof.
  unfold isLiftJob, projectCanonicalLiftJob. rewrite base_of_payload.
  destruct job as [base st oc ov ob oi oz ofl]. simpl. intros H. rewrite isLiftJobState_name.
  destruct st; simpl in *; try (open_carries; simpl; by rewrite ?canonical_inclusion_same).
  - destruct oz as [z|]; [|done]. simpl in H. unfold constructFinalizedLiftJob.
    destruct (fz_mode z) as [[]|] eqn:Ez; open_carries; simpl; rewrite Ez; simpl;
      rewrite <- Ez, finalizationMode_same, ?canonical_inclusion_same; done.
  - destruct ofl as [f|]; [|done]. unfold isFailedLiftJob in H. unfold constructFailedLiftJob.
    destruct base as [? ? ? ? ? ? [[]|] ?], (fm_failedFromState f) eqn:Ef; open_carries; try done;
      simpl; rewrite Ef; simpl; rewrite <- Ef, failureFrom_same, ?canonical_inclusion_same; done.
Qed.

(** ** Progress *)

Section Progress.
Context {Request : Type} (jsonOf : Request -> string).

(** The ordinary events of a job, one per member of
    [LiftJobTransitionPatchByState] that moves it forward. *)
Inductive event : Type :=
| Claim (c : LiftJobClaimMetadata)
| Validate (v : LiftJobValidationMetadata)
| Broadcast (b : BroadcastPatch)
| Include (i : InclusionPatch)
| Finalize (z : LiftJobFinalizationMetadata)
| Fail (f : LiftJobFailureMetadata).

Definition eventStatus (e : event) : LiftJobState :=
  match e with
  | Claim _ => claimed | Validate _ => validated | Broadcast _ => broadcast
  | Include _ => included | Finalize _ => finalized | Fail _ => failed
  end.

(** The patch that carries just the event's own field. *)
Definition eventPatch (e : event) : LiftJobTransitionPatch Request :=
  let mk c v b i z f :=
    {| p_jobId := None; p_jobSlug := None; p_request := None; p_admission := None;
       p_timestamps := None; p_retries := None; p_recovery := None; p_controlPlane := None;
       p_claim := c; p_validation := v; p_broadcast := b; p_inclusion := i;
       p_finalization := z; p_failure := f |} in
  match e with
  | Claim c => mk (Some c) None None None None None
  | Validate v => mk None (Some v) None None None None
  | Broadcast b => mk None None (Some b) None None None
  | Include i => mk None None None (Some i) None None
  | Finalize z => mk None None None None (Some z) None
  | Fail f => mk None None None None None (Some f)
  end.

Definition offChain (z : LiftJobFinalizationMetadata) : bool :=
  match fz_mode z with Some noop | Some local => true | _ => false end.

(** When an event is expected of a job: its destination is the next one of the
    lifecycle; a validated job finalizes off chain and an included one on
    chain; a failure is recorded from the state the job is in, with a reset
    recovery at most, and with none for a job never claimed. *)
Definition enabled (job : LiftJob Request) (e : event) : bool :=
  canTransitionLiftJob (j_status job) (eventStatus e) &&
  match e with
  | Finalize z => eqb (offChain z) (bool_decide (j_status job = validated))
  | Fail f =>
      bool_decide (activeState (fm_failedFromState f) = j_status job)
      && resetOnly (recovery (j_base job))
      && (negb (bool_decide (j_status job = accepted)) || negb (is_defined (recovery (j_base job))))
  | _ => true
  end.

Lemma jsonEq_refl (v : json_value Request) : jsonEq jsonOf v v = true.
Proof.
  destruct v; simpl; [done|apply String.eqb_refl|apply Z.eqb_refl|apply String.eqb_refl|].
  by apply bool_decide_eq_true.
Qed.

Lemma event_immutable current e : assertNoImmutableLiftJobPatch jsonOf current (eventPatch e) = Ok tt.
Proof.
  unfold assertNoImmutableLiftJobPatch. cbn [assertImmutableFields LIFT_JOB_IMMUTABLE_FIELDS].
  assert (forall f, patchedImmutableLiftJobFieldValue current (eventPatch e) f
                    = immutableLiftJobFieldValue current f) as Hf by (intros []; by destruct e).
  by rewrite !Hf, !jsonEq_refl.
Qed.

Lemma event_base current status e now :
  exists base, transitionBase current status (eventPatch e) now = Ok base /\
    recovery base = recovery (j_base current).
Proof. by destruct e; eexists. Qed.

Lemma checkFields_all {F} (same : F -> bool) err fields :
  (forall f, same f = true) -> checkFields same err fields = Ok tt.
Proof. intros H. apply checkFields_Ok, Forall_forall. auto. Qed.

Lemma keeps_refl v : keeps v v = true.
Proof. destruct v; simpl; [by apply bool_decide_eq_true|done]. Qed.

Lemma retained_same (current next : LiftJob Request) :
  j_broadcast current = None \/ j_broadcast next = j_broadcast current ->
  j_inclusion current = None \/ j_inclusion next = j_inclusion current ->
  recovery (j_base next) = recovery (j_base current) ->
  assertTransactionEvidenceRetained current next = Ok tt.
Proof.
  unfold assertTransactionEvidenceRetained. intros Hb Hi ->.
  apply result_bind_Ok. exists tt. split; [|apply result_bind_Ok; exists tt; split].
  - destruct Hb as [->| ->]; [done|]. destruct (j_broadcast current); [|done].
    apply checkFields_all. intros f. apply keeps_refl.
  - destruct Hi as [->| ->]; [done|]. destruct (j_inclusion current); [|done].
    apply checkFields_all. intros f. apply keeps_refl.
  - destruct (checkedRecoveryTxHash current); [|done]. apply checkFields_all.
    intros f. by apply bool_decide_eq_true.
Qed.

End Progress.

(** The lifecycle never blocks a legal event: on a job of the union, claiming,
    validating, broadcasting, including, finalizing or failing it as the lifecycle expects
    succeeds with the patch that carries only that event's own record, whatever the time. *)
Theorem event_progress {Request} (jsonOf : Request -> string) (job : LiftJob Request) e now :
  isLiftJob job = true -> enabled job e = true ->
  exists next, buildCanonicalLiftJobTransition jsonOf job (eventStatus e) (eventPatch e) now = Ok next.
Proof.
  unfold buildCanonicalLiftJobTransition, buildCanonicalLiftJobAdministrativeTransition.
  unfold enabled. intros Hu [Hcan He]%andb_true_iff. rewrite event_immutable.
  destruct (event_base job (eventStatus e) e now) as (base & -> & Hrec).
  assert ((if bool_decide (j_status job = eventStatus e) then Ok tt
           else assertLiftJobTransition (j_status job) (eventStatus e)) = Ok tt) as ->.
  { destruct (bool_decide (j_status job = eventStatus e)); [done|]. unfold assertLiftJobTransition. by rewrite Hcan. }
  simpl. unfold isLiftJob in Hu. destruct job as [b st oc ov ob oi oz ofl]. simpl in *.
  destruct st, e; try discriminate Hcan; open_carries; simpl in *;
    unfold constructFinalizedLiftJob, offChain, constructFailedLiftJob,
      assertFailureOriginRetainsTransactionEvidence in *; simpl;
    try destruct (fz_mode z) as [[]|]; try destruct (fm_failedFromState f);
    try discriminate; rewrite ?Hrec; simpl; try destruct (recovery b) as [[]|] eqn:Eb;
    try discriminate; simpl; rewrite ?canonical_inclusion_same.
  all: rewrite retained_same; [eauto|auto..]; simpl; congruence.
Qed.

(** ** Proof-resolved failures *)

(** What recording a proven revert does to a failed row: rows without claim, validation
    or broadcast stay held; any other becomes a failed member of the union with code
    [tx_reverted], the same claim, validation, broadcast and inclusion records and immutable
    fields, failed from the furthest state its evidence shows, and without its recovery
    record: the provenance of a hash checked by an earlier recovery is not kept. *)
Theorem reverted_failure_spec {Request} (job : LiftJob Request) failure now :
  fm_code failure = tx_reverted ->
  match buildCanonicalRevertedLiftJobFailure job failure now with
  | Ok (Some next) =>
      isLiftJob next = true /\ j_status next = failed /\
      fm_code <$> j_failure next = Some tx_reverted /\
      fm_failedFromState <$> j_failure next
        = Some (if is_defined (j_inclusion job) then aIncluded else aBroadcast) /\
      j_claim next = j_claim job /\ j_validation next = j_validation job /\
      j_broadcast next = j_broadcast job /\ j_inclusion next = j_inclusion job /\
      immutables next = immutables job /\ recovery (j_base next) = None
  | Ok None => j_claim job = None \/ j_validation job = None \/ j_broadcast job = None
  | Err _ => False
  end.
Proof.
  intros Hc. unfold buildCanonicalRevertedLiftJobFailure. rewrite Hc. simpl.
  destruct (j_claim job), (j_validation job), (j_broadcast job), (j_inclusion job); simpl; auto;
    split_and!; try done; by rewrite Hc.
Qed.

(** ** Finalization identifiers *)

(** One identifier after the separation: numeric ones in the numeric field,
    any other as an opaque identifier, an absent one leaving both alone. *)
Definition identifierKept (v num opaqueBefore opaqueAfter : option string) : Prop :=
  match v with
  | None => num = None /\ opaqueAfter = opaqueBefore
  | Some id =>
      if isLiftJobBigInt id then num = Some id /\ opaqueAfter = opaqueBefore
      else num = None /\ opaqueAfter = Some id
  end.

Definition opaqueId (f : LiftJobOpaqueFinalizationIdentifiers -> own string)
    (z : LiftJobFinalizationMetadata) : option string :=
  fz_opaqueIdentifiers z ≫= (fun o => ownValue (f o)).

Definition noOpaqueIds : LiftJobOpaqueFinalizationIdentifiers :=
  {| op_batchId := None; op_startKAId := None; op_endKAId := None |}.

Lemma separate_kept v o :
  identifierKept v (separateIdentifier v o).1 (ownValue o) (ownValue (separateIdentifier v o).2) /\
  separateIdentifier (separateIdentifier v o).1 (separateIdentifier v o).2 = separateIdentifier v o.
Proof.
  destruct v as [v|]; simpl; [|done]. unfold identifierKept. destruct (isLiftJobBigInt v) eqn:E; simpl;
    rewrite ?E; done.
Qed.

(** Separating finalization identifiers loses none of them and settles in one pass: every
    identifier of the input is in the numeric field when it is a decimal integer and among
    the opaque identifiers when it is not, and a second separation changes nothing. *)
Theorem finalization_identifiers input :
  let out := canonicalLiftJobFinalizationMetadata input in
  identifierKept (fz_batchId input) (fz_batchId out)
    (opaqueId op_batchId input) (opaqueId op_batchId out) /\
  identifierKept (fz_startKAId input) (fz_startKAId out)
    (opaqueId op_startKAId input) (opaqueId op_startKAId out) /\
  identifierKept (fz_endKAId input) (fz_endKAId out)
    (opaqueId op_endKAId input) (opaqueId op_endKAId out) /\
  fz_mode out = fz_mode input /\ fz_txHash out = fz_txHash input /\
  canonicalLiftJobFinalizationMetadata out = out.
Proof.
  intros out. set (o := default noOpaqueIds (fz_opaqueIdentifiers input)).
  pose proof (separate_kept (fz_batchId input) (op_batchId o)) as Hb.
  pose proof (separate_kept (fz_startKAId input) (op_startKAId o)) as Hs.
  pose proof (separate_kept (fz_endKAId input) (op_endKAId o)) as He.
  assert (forall f, f noOpaqueIds = None -> opaqueId f input = ownValue (f o)) as Ho.
  { intros f Hf. unfold opaqueId, o. destruct (fz_opaqueIdentifiers input); simpl; [done|by rewrite Hf]. }
  rewrite !Ho by done. unfold out, canonicalLiftJobFinalizationMetadata. fold noOpaqueIds. fold o.
  destruct (separateIdentifier _ (op_batchId o)) as [nb ob], (separateIdentifier _ (op_startKAId o)) as [ns os],
    (separateIdentifier _ (op_endKAId o)) as [ne oe]. destruct Hb as [Kb Eb], Hs as [Ks Es], He as [Ke Ee].
  destruct ob, os, oe; cbn [fst snd] in *; simpl; rewrite ?Eb, ?Es, ?Ee; split_and!; done.
Qed.

(** ** A concrete history *)

Definition sampleAccepted : LiftJob string :=
  {| j_base :=
       {| jobId := "job-1"; jobSlug := "slug"; request := "{}"; admission := None;
          timestamps := fun f => match f with acceptedAt | updatedAt => Some 1%Z | _ => None end;
          retries := {| rt_retryCount := 0; rt_maxRetries := 3; rt_lastRetryReason := None |};
          recovery := None; controlPlane := None |};
     j_status := accepted; j_claim := None; j_validation := None; j_broadcast := None;
     j_inclusion := None; j_finalization := None; j_failure := None |}.

Definition sampleEvents : list event :=
  [Claim {| cl_walletId := "w"; cl_claimedBy := None; cl_claimToken := None;
            cl_claimLeaseExpiresAt := None |};
   Validate {| va_canonicalRoots := ["r"%string]; va_canonicalRootMap := []; va_swmQuadCount := 1;
               va_authorityProofRef := "p"; va_transitionType := CREATE; va_priorVersion := None |};
   Broadcast {| bp_txHash := "0xaa"; bp_walletId := "w"; bp_merkleRoot := None;
                bp_publicByteSize := None; bp_nonce := Some (Some 7%Z);
                bp_operationKind := Some (Some create) |};
   Include {| ip_txHash := "0xaa"; ip_blockNumber := 12; ip_blockHash := None;
              ip_blockTimestamp := None |};
   Finalize {| fz_mode := Some published; fz_txHash := None; fz_ual := None; fz_batchId := Some "9"%string;
               fz_startKAId := None; fz_endKAId := None; fz_opaqueIdentifiers := None;
               fz_publisherAddress := None |}].

Definition runEvent (job : LiftJob string) (e : event) (now : Z) : LiftJob string :=
  match buildCanonicalLiftJobTransition id job (eventStatus e) (eventPatch e) now with
  | Ok next => next
  | Err _ => job
  end.

(** The sample job after its first [n] events, evaluated. *)
Definition sampleAt : nat -> LiftJob string :=
Eval vm_compute in
  let run n := foldl (fun job e => runEvent job e 2) sampleAccepted (take n sampleEvents) in
  fun n =>
    match n with
    | 0 => run 0 | 1 => run 1 | 2 => run 2 | 3 => run 3 | 4 => run 4 | _ => run 5
    end.

Definition sampleFailure : LiftJobFailureMetadata :=
  {| fm_failedFromState := aBroadcast; fm_phase := phBroadcast; fm_mode := terminal;
     fm_retryable := false; fm_resolution := fail_job; fm_code := tx_reverted; fm_message := "";
     fm_errorPayloadRef := "e"; fm_stackTraceRef := None; fm_rpcResponseRef := None;
     fm_revertReasonRef := None; fm_timeout := None; fm_validationDiagnostic := None |}.

Definition sampleEvent (n : nat) : event := default (Fail sampleFailure) (sampleEvents !! n).

Lemma sample_step n : n < 5 -> step id (sampleAt n) (sampleAt (S n)).
Proof.
  intros Hn. exists (eventStatus (sampleEvent n)), (eventPatch (sampleEvent n)), 2%Z.
  do 5 (destruct n as [|n]; [reflexivity|]). lia.
Qed.

Lemma sample_history : history id 5 (sampleAt 0) (sampleAt 5).
Proof.
  apply (history_change _ _ _ (sampleAt 1)); [by apply sample_step; lia|done|].
  apply (history_change _ _ _ (sampleAt 2)); [by apply sample_step; lia|done|].
  apply (history_change _ _ _ (sampleAt 3)); [by apply sample_step; lia|done|].
  apply (history_change _ _ _ (sampleAt 4)); [by apply sample_step; lia|done|].
  apply (history_change _ _ _ (sampleAt 5)); [by apply sample_step; lia|done|].
  apply history_nil.
Qed.

Lemma transition_preserves_witness :
  isLiftJob (sampleAt 3) = true /\ j_status (sampleAt 3) = broadcast /\
  immutables (sampleAt 3) = immutables (sampleAt 2).
Proof.
  destruct (transition_preserves id (sampleAt 2) broadcast (eventPatch (sampleEvent 2)) 2 (sampleAt 3))
    as (? & ? & _ & ?); [reflexivity|]. by split_and!.
Defined.

Lemma history_retains_evidence_witness :
  retains (sampleAt 0) (sampleAt 5) /\ immutables (sampleAt 5) = immutables (sampleAt 0).
Proof. apply (history_retains_evidence id 5), sample_history. Defined.

Lemma history_bounded_witness : 5 <= 5 /\ j_status (sampleAt 5) = finalized.
Proof. split; [|reflexivity]. apply (history_bounded id 5 _ _ sample_history). Defined.

Lemma project_lossless_witness :
  isLiftJob (sampleAt 5) = true /\ payloadOf (sampleAt 5) = fillInclusionHash (payloadOf (sampleAt 5)).
Proof. apply (project_lossless (payloadOf (sampleAt 5))). reflexivity. Defined.

Lemma project_roundtrip_witness :
  projectCanonicalLiftJob (payloadOf (sampleAt 4)) = Ok (Some (sampleAt 4)).
Proof. apply (project_roundtrip (sampleAt 4)). reflexivity. Defined.

Lemma event_progress_witness :
  exists next, buildCanonicalLiftJobTransition id (sampleAt 3) failed (eventPatch (Fail sampleFailure)) 9
    = Ok next.
Proof. apply (event_progress id (sampleAt 3) (Fail sampleFailure) 9); reflexivity. Defined.

Lemma reverted_failure_spec_witness :
  match buildCanonicalRevertedLiftJobFailure (runEvent (sampleAt 3) (Fail sampleFailure) 9) sampleFailure 10 with
  | Ok (Some next) => isLiftJob next = true /\ recovery (j_base next) = None
  | _ => False
  end.
Proof.
  pose proof (reverted_failure_spec (runEvent (sampleAt 3) (Fail sampleFailure) 9) sampleFailure 10 eq_refl)
    as H. vm_compute in H. vm_compute. destruct H as (? & _ & _ & _ & _ & _ & _ & _ & _ & ?). by split.
Defined.
