(* ===== verification/JsString.v ===== *)
(** * JavaScript string functions

    The methods of [String.prototype] and the regular expressions the promote
    queue uses.  A [string] here is a sequence of code units below 256, on
    which the definitions agree with ECMAScript. *)

From Stdlib Require Import Strings.Ascii.
From S2P Require Import Prelude.

Definition code (c : ascii) : N := N_of_ascii c.

Definition inRange (lo hi : N) (c : ascii) : bool := (lo <=? code c)%N && (code c <=? hi)%N.

(** The white space and line terminators [trim] removes, among these code units. *)
Definition isWhite (c : ascii) : bool :=
  inRange 9 13 c || (code c =? 32)%N || (code c =? 160)%N.

Fixpoint trimStart (s : string) : string :=
  match s with
  | String c rest => if isWhite c then trimStart rest else s
  | EmptyString => EmptyString
  end.

Fixpoint trimEnd (s : string) : string :=
  match s with
  | EmptyString => EmptyString
  | String c rest =>
      match trimEnd rest with
      | EmptyString => if isWhite c then EmptyString else String c EmptyString
      | rest' => String c rest'
      end
  end.

Definition trim (s : string) : string := trimEnd (trimStart s).

Definition lowerChar (c : ascii) : ascii :=
  if inRange 65 90 c || (inRange 192 222 c && negb (code c =? 215)%N)
  then ascii_of_N (code c + 32) else c.

Fixpoint toLowerCase (s : string) : string :=
  match s with
  | EmptyString => EmptyString
  | String c rest => String (lowerChar c) (toLowerCase rest)
  end.

(** [haystack.includes(needle)] *)
Fixpoint includes (haystack needle : string) : bool :=
  String.prefix needle haystack ||
  match haystack with
  | EmptyString => false
  | String _ rest => includes rest needle
  end.

Fixpoint allChars (p : ascii -> bool) (s : string) : bool :=
  match s with
  | EmptyString => true
  | String c rest => p c && allChars p rest
  end.

Definition isDigitChar : ascii -> bool := inRange 48 57.
Definition isAlnumChar (c : ascii) : bool := isDigitChar c || inRange 65 90 c || inRange 97 122 c.
Definition isHexChar (c : ascii) : bool := isDigitChar c || inRange 65 70 c || inRange 97 102 c.
Definition isLowerHexChar (c : ascii) : bool := isDigitChar c || inRange 97 102 c.

(** [[A-Za-z0-9._:-]] *)
Definition isIdChar (c : ascii) : bool :=
  isAlnumChar c || (code c =? 46)%N || (code c =? 95)%N || (code c =? 58)%N || (code c =? 45)%N.

(** [0x] and [n] characters of the class [p]. *)
Definition isPrefixedHex (p : ascii -> bool) (n : nat) (s : string) : bool :=
  match s with
  | String c0 (String c1 rest) =>
      (code c0 =? 48)%N && (code c1 =? 120)%N && (String.length rest =? n) && allChars p rest
  | _ => false
  end.

(** An identifier: a letter or digit, then identifier characters. *)
Definition isIdentifier (s : string) : bool :=
  match s with
  | EmptyString => false
  | String c rest => isAlnumChar c && allChars isIdChar rest
  end.

(** The comparison of [Array.prototype.sort] without a comparator: by code units. *)
Fixpoint compareCodeUnits (a b : string) : Z :=
  match a, b with
  | EmptyString, EmptyString => 0
  | EmptyString, String _ _ => -1
  | String _ _, EmptyString => 1
  | String c a', String d b' =>
      if (code c <? code d)%N then -1 else if (code d <? code c)%N then 1 else compareCodeUnits a' b'
  end.

(** [[...new Set(l)]]: the first occurrences, in order. *)
Fixpoint setOf (seen l : list string) : list string :=
  match l with
  | [] => []
  | x :: rest => if bool_decide (x ∈ seen) then setOf seen rest else x :: setOf (x :: seen) rest
  end.

(** U+001F, the separator of the uniqueness keys. *)
Definition unitSeparator : string := String (ascii_of_N 31) EmptyString.

Definition nonEmpty (s : string) : bool := negb (bool_decide (s = EmptyString)).

(** ** Properties *)

Definition startsClean (s : string) : bool :=
  match s with EmptyString => true | String c _ => negb (isWhite c) end.

Lemma trimStart_clean s : startsClean (trimStart s) = true.
Proof. induction s as [|c s IH]; simpl; [done|]. destruct (isWhite c) eqn:E; simpl; [done|by rewrite E]. Qed.

Lemma trimStart_id s : startsClean s = true -> trimStart s = s.
Proof. destruct s as [|c s]; simpl; [done|]. by destruct (isWhite c). Qed.

Lemma trimEnd_clean s : startsClean s = true -> startsClean (trimEnd s) = true.
Proof.
  destruct s as [|c s]; simpl; [done|]. intros H. destruct (trimEnd s); [|exact H].
  destruct (isWhite c) eqn:E; simpl; [done|by rewrite E].
Qed.

Lemma trimEnd_idem s : trimEnd (trimEnd s) = trimEnd s.
Proof.
  induction s as [|c s IH]; simpl; [done|]. destruct (trimEnd s) as [|d t] eqn:E.
  - destruct (isWhite c) eqn:W; simpl; [done|by rewrite W].
  - change (match trimEnd (String d t) with
            | EmptyString => if isWhite c then EmptyString else String c EmptyString
            | String _ _ as rest' => String c rest'
            end = String c (String d t)). by rewrite IH.
Qed.

Lemma trim_idem s : trim (trim s) = trim s.
Proof.
  unfold trim. rewrite (trimStart_id (trimEnd (trimStart s))); [apply trimEnd_idem|].
  apply trimEnd_clean, trimStart_clean.
Qed.

Lemma toLowerCase_app s t : toLowerCase (s ++ t) = (toLowerCase s ++ toLowerCase t)%string.
Proof. induction s as [|c s IH]; simpl; [done|]. by rewrite IH. Qed.

Lemma prefix_app s t : String.prefix s (s ++ t) = true.
Proof. induction s as [|c s IH]; simpl; [by destruct t|]. by destruct (ascii_dec c c). Qed.

Lemma includes_prefix h n : String.prefix n h = true -> includes h n = true.
Proof. intros H. destruct h; cbn [includes]; by rewrite H. Qed.

Lemma includes_app s t u : includes (s ++ t ++ u) t = true.
Proof.
  induction s as [|c s IH].
  - apply includes_prefix. exact (prefix_app t u).
  - change (String.prefix t (String c (s ++ t ++ u)) || includes (s ++ t ++ u) t = true).
    by rewrite IH, orb_true_r.
Qed.
