(* ===== verification/PromoteJob.v ===== *)
(** * Promote jobs

    The data of the async promote (share) queue
    (packages/publisher/src/async-promote-queue-types.ts) with the recovery
    binding of a durable share (promote-operation-intent.ts,
    promote-recovery-binding.ts, bound-promote-request.ts) and the lane scopes
    that decide which jobs compete for one assertion
    (async-promote-queue-utils.ts). *)

From Stdlib Require Import Strings.Ascii.
From S2P Require Import Prelude JsString.

(** ** async-promote-queue-types.ts *)

Inductive PromoteJobState : Type := queued | running | failed_retrying | succeeded | failed.

#[export] Instance PromoteJobState_eq_dec : EqDecision PromoteJobState.
Proof. solve_decision. Defined.

Definition ASYNC_PROMOTE_QUEUE_FORMAT_VERSION : Z := 4.
Definition ASYNC_PROMOTE_QUEUE_MIN_AUTO_RECOVERABLE_FORMAT_VERSION : Z := 2.

Inductive PromoteFailureClassification : Type := transient | cap_exceeded | fatal.

#[export] Instance classification_eq_dec : EqDecision PromoteFailureClassification.
Proof. solve_decision. Defined.

(** promote-operation-intent.ts: the durable v1 envelope. *)
Inductive access_policy : Type := public | ownerOnly | allowList.

#[export] Instance access_policy_eq_dec : EqDecision access_policy.
Proof. solve_decision. Defined.

Record PromoteOperationIntent : Type := {
  oi_version : Z;
  oi_operationId : string;
  oi_timestampMs : Z;
  oi_publisherPeerId : option string;
  oi_confirmationRequired : bool;
  oi_accessPolicy : access_policy;
  oi_allowedPeers : list string
}.

(** promote-recovery-binding.ts: the immutable replay authority. *)
Record PromoteRecoveryBinding : Type := {
  rb_version : Z;
  rb_sealDigest : string;
  rb_intent : PromoteOperationIntent;
  rb_inventoryRequired : bool
}.

#[export] Instance intent_eq_dec : EqDecision PromoteOperationIntent.
Proof. solve_decision. Defined.
#[export] Instance binding_eq_dec : EqDecision PromoteRecoveryBinding.
Proof. solve_decision. Defined.

Inductive entities_selector : Type := all | some_entities (l : list string).

(** [PromoteRequest]: an ordinary request has no recovery binding. *)
Record PromoteRequest : Type := {
  contextGraphId : string;
  subGraphName : option string;
  assertionName : string;
  entities : entities_selector;
  agentAddress : option string;
  authorAgentAddress : option string;
  recoveryBinding : option PromoteRecoveryBinding
}.

Record PromoteLease : Type := {
  ls_workerId : string;
  ls_acquiredAt : Z;
  ls_expiresAt : Z;
  ls_lastHeartbeatAt : Z;
  ls_claimToken : string
}.

(** promote-no-effect-rejection.ts *)
Record PromoteNoEffectProof : Type := {
  ne_sealDigest : string;
  ne_operationId : string
}.

Record PromoteAttemptError : Type := {
  ae_message : string;
  ae_retryable : bool;
  ae_classification : PromoteFailureClassification;
  ae_recordedAt : Z;
  ae_diagnosticCode : option string;
  ae_authorityReason : option string;
  ae_noEffectProof : option PromoteNoEffectProof
}.

Record PromoteAttemptState : Type := {
  at_count : Z;
  at_maxRetries : Z;
  at_nextRetryAt : option Z;
  at_lastError : option PromoteAttemptError
}.

(** [CanonicalGraphScopedAuthorSealV1]
    (packages/core/src/canonical-graph-scoped-author-seal.ts) *)
Record CanonicalGraphScopedAuthorSealV1 : Type := {
  sl_assertionMerkleRoot : string;
  sl_authorAddress : string;
  sl_authorAttestationR : string;
  sl_authorAttestationVS : string;
  sl_authorSchemeVersion : string;
  sl_assertedAtChainId : string;
  sl_assertedAtKav10Address : string;
  sl_reservedKaId : string;
  sl_assertionFinalizedAt : string;
  sl_contentScopeVersion : string;
  sl_kaUal : string;
  sl_assertionVersion : string;
  sl_publicTripleCount : string;
  sl_privateTripleCount : string;
  sl_privateMerkleRoot : option string
}.

(** share-completion-evidence.ts *)
Record ShareCompletionEvidence : Type := {
  ev_contextGraphId : string;
  ev_assertionName : string;
  ev_agentAddress : string;
  ev_subGraphName : option string;
  ev_shareOperationId : string;
  ev_seal : CanonicalGraphScopedAuthorSealV1
}.

Record PromoteResult : Type := {
  re_shareEvidence : option ShareCompletionEvidence;
  re_promotedCount : Z;
  re_succeededAt : Z;
  re_gossipMessageSize : option Z
}.

(** Rows of old formats may carry a marker without [promoteStarted]. *)
Record PromoteCommitMarker : Type := {
  promoteStarted : option bool;
  swmInserted : bool;
  wmCleaned : bool;
  lifecycleStamped : bool;
  gossiped : bool
}.

Inductive PromoteCommitMarkerStep : Type :=
| st_promoteStarted | st_swmInserted | st_wmCleaned | st_lifecycleStamped | st_gossiped.

Record PromoteJob : Type := {
  jobId : string;
  request : PromoteRequest;
  state : PromoteJobState;
  enqueuedAt : Z;
  updatedAt : Z;
  lease : option PromoteLease;
  attempt : PromoteAttemptState;
  result_ : option PromoteResult;
  preparationAttempts : option Z;
  commitMarker : option PromoteCommitMarker;
  reason : option string;
  formatVersion : option Z
}.

(** ** promote-operation-intent.ts *)

Definition truthy (o : option string) : bool :=
  match o with Some s => nonEmpty s | None => false end.

Definition canonicalizeAllowedPeers (peers : list string) : list string :=
  js_sort compareCodeUnits (setOf [] (filter (fun p => nonEmpty p = true) (trim <$> peers))).

Definition isSafeInteger (n : Z) : bool := (Z.abs n <=? 9007199254740991)%Z.

Definition assertPromoteOperationIntent (parsed : PromoteOperationIntent)
    (expectedOperationId : string) : bool :=
  let canonicalAllowedPeers := canonicalizeAllowedPeers (oi_allowedPeers parsed) in
  (oi_version parsed =? 1)%Z
  && String.eqb (oi_operationId parsed) expectedOperationId
  && isSafeInteger (oi_timestampMs parsed)
  && (0 <? oi_timestampMs parsed)%Z
  && match oi_publisherPeerId parsed with
     | None => true
     | Some p => nonEmpty p && String.eqb p (trim p)
     end
  && bool_decide (oi_allowedPeers parsed = canonicalAllowedPeers)
  && eqb (bool_decide (oi_accessPolicy parsed = allowList))
         (negb (bool_decide (canonicalAllowedPeers = []))).

(** ** promote-recovery-binding.ts *)

Definition isBoundedIdentifier (s : string) : bool :=
  isIdentifier s && (String.length s <=? 256).

Definition assertBindingHeader (b : PromoteRecoveryBinding) : bool :=
  (rb_version b =? 1)%Z
  && isPrefixedHex isLowerHexChar 64 (rb_sealDigest b)
  && isBoundedIdentifier (oi_operationId (rb_intent b)).

Definition isPromoteRecoveryBinding (b : PromoteRecoveryBinding) : bool :=
  assertBindingHeader b && assertPromoteOperationIntent (rb_intent b) (oi_operationId (rb_intent b)).

(** The errors of the queue. *)
Inductive queue_error : Type :=
| ContextGraphIdRequired
| AssertionNameRequired
| AgentAddressEmpty
| EntitiesEmpty
| EntityEmpty
| WorkerIdRequired
| JobIdEmpty
| JobIdTooLong
| JobIdUnsafe
| InvalidBoundRequest
| RecoveryBindingConflict
| InlineAdmissionUnbound
| JobNotFound (jobId : string)
| CancellationConflict (jobId : string)
| NotFailed
| RetiredRejection
| MissingStorageLane
| ManualInspectionRequired
| JobConflict (existingJobId : string)
| AdmissionNotAdmitted
| AdmissionIndeterminate (jobId : string)
| AdmissionUncertain (jobId : string)
| StoreFailure
| LeaseError
| SwmNotInserted
| EvidenceMismatch.

(** [validatePromoteRecoveryBinding]: the checks, then a copy of the fields. *)
Definition validatePromoteRecoveryBinding (b : PromoteRecoveryBinding)
    : result queue_error PromoteRecoveryBinding :=
  throw RecoveryBindingConflict when negb (isPromoteRecoveryBinding b);
  Ok {| rb_version := 1;
        rb_sealDigest := rb_sealDigest b;
        rb_intent :=
          {| oi_version := 1;
             oi_operationId := oi_operationId (rb_intent b);
             oi_timestampMs := oi_timestampMs (rb_intent b);
             oi_publisherPeerId :=
               if truthy (oi_publisherPeerId (rb_intent b))
               then oi_publisherPeerId (rb_intent b) else None;
             oi_confirmationRequired := oi_confirmationRequired (rb_intent b);
             oi_accessPolicy := oi_accessPolicy (rb_intent b);
             oi_allowedPeers := oi_allowedPeers (rb_intent b) |};
        rb_inventoryRequired := rb_inventoryRequired b |}.

(** ** bound-promote-request.ts and bound-promote-job.ts *)

Definition isBoundPromoteRequest (r : PromoteRequest) : bool :=
  nonEmpty (contextGraphId r) && nonEmpty (assertionName r)
  && match entities r with all => true | some_entities _ => false end
  && match agentAddress r with Some a => nonEmpty (trim a) | None => false end
  && match recoveryBinding r with Some b => isPromoteRecoveryBinding b | None => false end.

Definition isBoundPromoteJob (job : PromoteJob) : bool :=
  bool_decide (formatVersion job = Some 4%Z) && isBoundPromoteRequest (request job).

Definition snapshotPromoteRequest (r : PromoteRequest) : result queue_error PromoteRequest :=
  match recoveryBinding r with
  | Some b =>
      throw InvalidBoundRequest when negb (isBoundPromoteRequest r);
      let* b' := validatePromoteRecoveryBinding b in
      Ok {| contextGraphId := contextGraphId r; subGraphName := subGraphName r;
            assertionName := assertionName r; entities := all;
            agentAddress := trim <$> agentAddress r;
            authorAgentAddress := authorAgentAddress r; recoveryBinding := Some b' |}
  | None =>
      Ok {| contextGraphId := contextGraphId r; subGraphName := subGraphName r;
            assertionName := assertionName r; entities := entities r;
            agentAddress := if truthy (trim <$> agentAddress r) then trim <$> agentAddress r else None;
            authorAgentAddress := authorAgentAddress r; recoveryBinding := None |}
  end.

(** ** Lanes (async-promote-queue-utils.ts) *)

Definition isEvmAddress (s : string) : bool := isPrefixedHex isHexChar 40 s.

Definition normalizePromoteAgentLane (address : option string) : string :=
  let lane := default EmptyString (trim <$> address) in
  if isEvmAddress lane then toLowerCase lane else lane.

Definition legacyUniquenessKey (r : PromoteRequest) : string :=
  contextGraphId r ++ unitSeparator ++ default EmptyString (subGraphName r)
  ++ unitSeparator ++ assertionName r.

Definition uniquenessKey (r : PromoteRequest) : string :=
  legacyUniquenessKey r ++ unitSeparator ++ normalizePromoteAgentLane (agentAddress r).

Definition uniquenessLookupKeys (r : PromoteRequest) : list string :=
  setOf [] [uniquenessKey r;
            (legacyUniquenessKey r ++ unitSeparator
             ++ default EmptyString ((fun a => toLowerCase (trim a)) <$> agentAddress r))%string;
            (legacyUniquenessKey r ++ unitSeparator)%string;
            legacyUniquenessKey r].

Record PromoteLaneConflictScope : Type := {
  sc_legacyKey : string;
  sc_lane : string;
  sc_missingMatchesAnyLane : bool
}.

Definition promoteLaneConflictScope (r : PromoteRequest) (missingAgentAddressMatchesAnyLane : bool)
    : PromoteLaneConflictScope :=
  let value := normalizePromoteAgentLane (agentAddress r) in
  {| sc_legacyKey := legacyUniquenessKey r;
     sc_lane := value;
     sc_missingMatchesAnyLane := negb (nonEmpty value) && missingAgentAddressMatchesAnyLane |}.

Definition promoteLaneScopesConflict (a b : PromoteLaneConflictScope) : bool :=
  String.eqb (sc_legacyKey a) (sc_legacyKey b)
  && (String.eqb (sc_lane a) (sc_lane b)
      || sc_missingMatchesAnyLane a || sc_missingMatchesAnyLane b).
