(* ===== verification/PromotePolicy.v ===== *)
(** * Promote job policies

    The pure decisions of the async promote queue: retry delays
    (promote-retry-policy.ts), the no-effect certificate
    (promote-no-effect-rejection.ts), ownership (async-promote-ownership.ts),
    failure, retry and recovery (async-promote-recovery-policy.ts), claiming
    (bound-promote-job.ts), binding (bind-promote-recovery.ts) and success
    (async-promote-success.ts, share-completion-evidence.ts). *)

From stdpp Require Import pretty.
From Stdlib Require Import QArith Qround.
From S2P Require Import Prelude JsString PromoteJob.

(** ** promote-retry-policy.ts

    Delays are whole milliseconds; the jitter ratio and the random number are
    rationals. *)

Record PromoteRetryTuning : Type := {
  tn_maxRetries : Z;
  tn_retryBaseMs : Z;
  tn_retryMaxMs : Z;
  tn_retryJitterRatio : Q
}.

Definition DEFAULT_PROMOTE_RETRY_TUNING : PromoteRetryTuning :=
  {| tn_maxRetries := 5; tn_retryBaseMs := 60000; tn_retryMaxMs := 900000;
     tn_retryJitterRatio := 1 # 5 |}.

Inductive tuning_error : Type :=
| NotPositiveSafeInteger (key : string)
| MaxBelowBase
| JitterRatioOutOfRange.

(** The partial configuration of an operator. *)
Record PartialTuning : Type := {
  pt_maxRetries : option Z;
  pt_retryBaseMs : option Z;
  pt_retryMaxMs : option Z;
  pt_retryJitterRatio : option Q
}.

Definition positiveSafeInteger (n : Z) : bool := isSafeInteger n && (1 <=? n)%Z.

Definition resolvePromoteRetryTuning (input : PartialTuning) : result tuning_error PromoteRetryTuning :=
  let d := DEFAULT_PROMOTE_RETRY_TUNING in
  let tuning :=
    {| tn_maxRetries := default (tn_maxRetries d) (pt_maxRetries input);
       tn_retryBaseMs := default (tn_retryBaseMs d) (pt_retryBaseMs input);
       tn_retryMaxMs := default (tn_retryMaxMs d) (pt_retryMaxMs input);
       tn_retryJitterRatio := default (tn_retryJitterRatio d) (pt_retryJitterRatio input) |} in
  throw (NotPositiveSafeInteger "maxRetries") when negb (positiveSafeInteger (tn_maxRetries tuning));
  throw (NotPositiveSafeInteger "retryBaseMs") when negb (positiveSafeInteger (tn_retryBaseMs tuning));
  throw (NotPositiveSafeInteger "retryMaxMs") when negb (positiveSafeInteger (tn_retryMaxMs tuning));
  throw MaxBelowBase when (tn_retryMaxMs tuning <? tn_retryBaseMs tuning)%Z;
  throw JitterRatioOutOfRange when
    negb (Qle_bool 0 (tn_retryJitterRatio tuning) && Qle_bool (tn_retryJitterRatio tuning) 1);
  Ok tuning.

Definition defaultBackoffMs (attemptCount : Z) (tuning : PromoteRetryTuning) : Z :=
  Z.min (tn_retryMaxMs tuning)
        (tn_retryBaseMs tuning * 2 ^ Z.min 52 (Z.max 0 (attemptCount - 1))).

(** [Math.round]: half-way cases go up. *)
Definition mathRound (q : Q) : Z := Qfloor (q + (1 # 2)).

(** [rand] is the random number drawn for this call. *)
Definition createDefaultPromoteBackoff (rand : Q) (tuning : PromoteRetryTuning) (attemptCount : Z) : Z :=
  Z.min (tn_retryMaxMs tuning)
        (Z.max 1 (mathRound (inject_Z (defaultBackoffMs attemptCount tuning)
                             * (1 + tn_retryJitterRatio tuning * (2 * rand - 1))))).

(** ** promote-replay-safety.ts *)

Definition PROMOTE_RETRYABLE_FAILURE_CODE : string := "PROMOTE_RETRYABLE_FAILURE".
Definition PROMOTE_POST_COMMIT_FAILURE_CODE : string := "PROMOTE_POST_COMMIT_FAILURE".
Definition PROMOTE_POST_COMMIT_FAILURE_MESSAGE : string :=
  "A promote post-commit step failed after Shared Memory was committed".

(** ** promote-no-effect-rejection.ts *)

Definition PROMOTE_NO_EFFECT_REJECTION_CODE : string := "PROMOTE_NO_EFFECT_REJECTION".

Definition markerSwmInserted (job : PromoteJob) : option bool := swmInserted <$> commitMarker job.
Definition markerPromoteStarted (job : PromoteJob) : option bool := commitMarker job ≫= promoteStarted.

Definition canRetireBoundRejection (job : PromoteJob) (proof : option PromoteNoEffectProof) : bool :=
  let prepared := default 0%Z (preparationAttempts job) in
  match recoveryBinding (request job) with
  | None => false
  | Some binding =>
      bool_decide (formatVersion job = Some 4%Z)
      && isSafeInteger prepared && (0 <=? prepared)%Z
      && (at_count (attempt job) =? prepared + 1)%Z
      && bool_decide (markerSwmInserted job = Some false)
      && bool_decide (reason job = None)
      && match proof with
         | Some p => String.eqb (ne_sealDigest p) (rb_sealDigest binding)
                     && String.eqb (ne_operationId p) (oi_operationId (rb_intent binding))
         | None => false
         end
  end.

Definition isRetiredBoundRejection (job : PromoteJob) : bool :=
  bool_decide (state job = failed)
  && match at_lastError (attempt job) with
     | Some error =>
         bool_decide (ae_diagnosticCode error = Some PROMOTE_NO_EFFECT_REJECTION_CODE)
         && bool_decide (ae_classification error = cap_exceeded)
         && negb (ae_retryable error)
         && canRetireBoundRejection job (ae_noEffectProof error)
     | None => false
     end.

(** Functional updates of a job, [{ ...job, field: value }]. *)
Definition setPreparation (job : PromoteJob) (n : Z) : PromoteJob :=
  {| jobId := jobId job; request := request job; state := state job; enqueuedAt := enqueuedAt job;
     updatedAt := updatedAt job; lease := lease job; attempt := attempt job; result_ := result_ job;
     preparationAttempts := Some n; commitMarker := commitMarker job; reason := reason job;
     formatVersion := formatVersion job |}.

Definition recordUnstartedPromoteAttempt (job : PromoteJob) : PromoteJob :=
  let prepared := default 0%Z (preparationAttempts job) in
  if bool_decide (formatVersion job = Some 4%Z)
     && bool_decide (recoveryBinding (request job) = None)
     && bool_decide (markerPromoteStarted job = Some false)
     && bool_decide (markerSwmInserted job = Some false)
     && isSafeInteger prepared && (0 <=? prepared)%Z
     && (at_count (attempt job) =? prepared + 1)%Z
  then setPreparation job (at_count (attempt job))
  else job.

(** ** async-promote-ownership.ts *)

Definition hasUnfinishedBoundObligation (job : PromoteJob) : bool :=
  match recoveryBinding (request job) with Some _ => true | None => false end
  && negb (bool_decide (state job = succeeded)) && negb (isRetiredBoundRejection job).

Definition version (job : PromoteJob) : Z := default 0%Z (formatVersion job).

Definition usesLegacyWildcardLane (job : PromoteJob) : bool :=
  (version job <? 3)%Z && bool_decide (agentAddress (request job) = None).

Definition storedPromoteLaneScope (job : PromoteJob) : PromoteLaneConflictScope :=
  promoteLaneConflictScope (request job) (usesLegacyWildcardLane job).

(** [promoteOwnershipLookup]: [lk_keys] is [None] for the wildcard query. *)
Record PromoteConflictLookup : Type := {
  lk_request : PromoteRequest;
  lk_keys : option (list string);
  lk_laneScope : PromoteLaneConflictScope
}.

Definition promoteOwnershipLookup (r : PromoteRequest) (missingLaneMatchesAnyLane : bool)
    : PromoteConflictLookup :=
  {| lk_request := r;
     lk_keys := if missingLaneMatchesAnyLane then None else Some (uniquenessLookupKeys r);
     lk_laneScope := promoteLaneConflictScope r missingLaneMatchesAnyLane |}.

(** ** async-promote-queue-utils.ts *)

Definition ACTIVE_PROMOTE_STATES : list PromoteJobState := [queued; running; failed_retrying].

Definition isActivePromoteState (s : PromoteJobState) : bool := bool_decide (s ∈ ACTIVE_PROMOTE_STATES).

Definition isTerminalPromoteJobState (s : PromoteJobState) : bool :=
  bool_decide (s = succeeded) || bool_decide (s = failed).

Definition isPromotePostCommitAttemptError (error : option PromoteAttemptError) : bool :=
  match error with
  | None => false
  | Some e =>
      match ae_diagnosticCode e with
      | Some c => String.eqb c PROMOTE_POST_COMMIT_FAILURE_CODE
      | None => String.eqb (ae_message e) PROMOTE_POST_COMMIT_FAILURE_MESSAGE
      end
  end.

Definition postCommitRecoveryExhaustedReason (attempts : Z) : string :=
  "automatic post-commit recovery exhausted after " ++ pretty attempts
  ++ " attempts; needs operator inspection".

(** [localeCompare] is the host's collation. *)
Definition comparePromoteJobs (localeCompare : string -> string -> Z) (a b : PromoteJob) : Z :=
  let aReady := default (enqueuedAt a) (at_nextRetryAt (attempt a)) in
  let bReady := default (enqueuedAt b) (at_nextRetryAt (attempt b)) in
  if (aReady =? bReady)%Z then localeCompare (jobId a) (jobId b) else (aReady - bReady)%Z.

(** ** bound-promote-job.ts *)

Definition freshMarker : PromoteCommitMarker :=
  {| promoteStarted := Some false; swmInserted := false; wmCleaned := false;
     lifecycleStamped := false; gossiped := false |}.

Definition claimPromoteJob (job : PromoteJob) (workerId : string) (now leaseMs : Z) (token : string)
    : PromoteJob :=
  {| jobId := jobId job; request := request job; state := running; enqueuedAt := enqueuedAt job;
     updatedAt := now;
     lease := Some {| ls_workerId := workerId; ls_acquiredAt := now; ls_expiresAt := now + leaseMs;
                      ls_lastHeartbeatAt := now;
                      ls_claimToken := workerId ++ ":" ++ jobId job ++ ":" ++ token |};
     attempt := {| at_count := at_count (attempt job) + 1; at_maxRetries := at_maxRetries (attempt job);
                   at_nextRetryAt := None; at_lastError := at_lastError (attempt job) |};
     result_ := result_ job; preparationAttempts := preparationAttempts job;
     commitMarker := Some freshMarker; reason := reason job; formatVersion := formatVersion job |}.

(** ** async-promote-recovery-policy.ts *)

Definition PROMOTE_PREREQUISITE_RETRY_WINDOW_MS : Z := 60 * 60000.

Definition promoteRetryAttempt (job : PromoteJob) (error : PromoteAttemptError) (attemptCount now : Z)
    (backoff : Z -> Z) : option PromoteAttemptState :=
  let withinWindow := bool_decide (ae_diagnosticCode error = Some PROMOTE_RETRYABLE_FAILURE_CODE)
    && (now - enqueuedAt job <? PROMOTE_PREREQUISITE_RETRY_WINDOW_MS)%Z in
  if (at_maxRetries (attempt job) <=? attemptCount)%Z && negb withinWindow
     && negb (isBoundPromoteJob job)
  then None
  else Some {| at_count := attemptCount; at_maxRetries := at_maxRetries (attempt job);
               at_nextRetryAt := Some (now + backoff attemptCount)%Z;
               at_lastError := Some error |}.

Definition missingStorageLaneForAuthorOnlyJob (job : PromoteJob) : bool :=
  (version job <? 3)%Z
  && bool_decide (agentAddress (request job) = None)
  && negb (bool_decide (authorAgentAddress (request job) = None)).

Definition requiresManualInspection (job : PromoteJob) : bool :=
  let reason' := toLowerCase (default EmptyString (reason job)) in
  let lastError := toLowerCase (default EmptyString (ae_message <$> at_lastError (attempt job))) in
  includes reason' "partial promote ambiguity"
  || includes lastError "partial promote ambiguity"
  || includes reason' "legacy promote job"
  || includes lastError "legacy promote job"
  || includes reason' "missing storage lane"
  || includes lastError "cannot prove the wm storage lane".

Definition isAutomaticallyRecoverablePostCommitFailure (job : PromoteJob) : bool :=
  bool_decide (state job = failed)
  && bool_decide (reason job = None)
  && negb (bool_decide (markerSwmInserted job = Some true))
  && (ASYNC_PROMOTE_QUEUE_MIN_AUTO_RECOVERABLE_FORMAT_VERSION <=? version job)%Z
  && (version job <=? 4)%Z
  && negb (missingStorageLaneForAuthorOnlyJob job)
  && negb (requiresManualInspection job)
  && isPromotePostCommitAttemptError (at_lastError (attempt job)).

Inductive PromoteFailureTransition : Type :=
| TransitionRetrying (jobId : string) (attemptCount nextRetryAt : Z)
| TransitionFailed (jobId : string) (attemptCount : Z) (retiredNoEffect : bool).

Definition partialPromoteReason : string :=
  "partial promote ambiguity: failed after SWM insert; needs operator inspection".

Definition setRetryable (e : PromoteAttemptError) : PromoteAttemptError :=
  {| ae_message := ae_message e; ae_retryable := true; ae_classification := ae_classification e;
     ae_recordedAt := ae_recordedAt e; ae_diagnosticCode := ae_diagnosticCode e;
     ae_authorityReason := ae_authorityReason e; ae_noEffectProof := ae_noEffectProof e |}.

(** The error that is recorded: a certificate that does not retire the job is
    dropped with its diagnostic fields, and a post-commit failure of a bound
    job is retryable. *)
Definition recordedError (job : PromoteJob) (error : PromoteAttemptError) (retiredNoEffect : bool)
    : PromoteAttemptError :=
  let error1 :=
    match ae_noEffectProof error with
    | Some _ =>
        if retiredNoEffect then error
        else {| ae_message := ae_message error; ae_retryable := ae_retryable error;
                ae_classification := ae_classification error; ae_recordedAt := ae_recordedAt error;
                ae_diagnosticCode := None; ae_authorityReason := None; ae_noEffectProof := None |}
    | None => error
    end in
  if isBoundPromoteJob job && isPromotePostCommitAttemptError (Some error1)
  then setRetryable error1 else error1.

Definition promoteFailureTransition (job0 : PromoteJob) (error0 : PromoteAttemptError) (now : Z)
    (backoff : Z -> Z) : PromoteJob * PromoteFailureTransition :=
  let job := recordUnstartedPromoteAttempt job0 in
  let attemptCount := Z.max 1 (at_count (attempt job)) in
  let inserted := bool_decide (markerSwmInserted job = Some true) in
  let bound := isBoundPromoteJob job in
  let retiredNoEffect :=
    bool_decide (ae_diagnosticCode error0 = Some PROMOTE_NO_EFFECT_REJECTION_CODE)
    && bool_decide (ae_classification error0 = cap_exceeded) && negb (ae_retryable error0)
    && canRetireBoundRejection job (ae_noEffectProof error0) in
  let error := recordedError job error0 retiredNoEffect in
  let mk st att rsn :=
    {| jobId := jobId job; request := request job; state := st; enqueuedAt := enqueuedAt job;
       updatedAt := now; lease := None; attempt := att; result_ := result_ job;
       preparationAttempts := preparationAttempts job; commitMarker := commitMarker job;
       reason := rsn; formatVersion := formatVersion job |} in
  let retryAttempt :=
    if ae_retryable error && (negb inserted || bound)
    then promoteRetryAttempt job error attemptCount now backoff else None in
  match retryAttempt with
  | Some att =>
      (mk failed_retrying att (reason job),
       TransitionRetrying (jobId job) attemptCount (now + backoff attemptCount)%Z)
  | None =>
      (mk failed {| at_count := attemptCount; at_maxRetries := at_maxRetries (attempt job);
                    at_nextRetryAt := None; at_lastError := Some error |}
          (if inserted then Some partialPromoteReason else reason job),
       TransitionFailed (jobId job) attemptCount retiredNoEffect)
  end.

(** ** share-completion-evidence.ts and async-promote-success.ts *)

(** [sealDigest] is [computeCanonicalGraphScopedAuthorSealDigestV1], a SHA-256
    of the canonical bytes of the seal. *)
Definition shareEvidenceMatchesRequest (sealDigest : CanonicalGraphScopedAuthorSealV1 -> string)
    (evidence : ShareCompletionEvidence) (r : PromoteRequest) : bool :=
  String.eqb (ev_contextGraphId evidence) (contextGraphId r)
  && String.eqb (ev_assertionName evidence) (assertionName r)
  && bool_decide (ev_subGraphName evidence = subGraphName r)
  && match entities r with all => true | some_entities _ => false end
  && truthy (trim <$> agentAddress r)
  && String.eqb (ev_agentAddress evidence) (normalizePromoteAgentLane (agentAddress r))
  && (negb (truthy (authorAgentAddress r))
      || bool_decide (Some (sl_authorAddress (ev_seal evidence)) = toLowerCase <$> authorAgentAddress r))
  && match recoveryBinding r with
     | None => true
     | Some b => String.eqb (ev_shareOperationId evidence) (oi_operationId (rb_intent b))
                 && String.eqb (sealDigest (ev_seal evidence)) (rb_sealDigest b)
     end.

Definition promoteSuccessTransition (sealDigest : CanonicalGraphScopedAuthorSealV1 -> string)
    (job : PromoteJob) (r : PromoteResult) (now : Z) : result queue_error PromoteJob :=
  throw SwmNotInserted when negb (default false (markerSwmInserted job));
  throw EvidenceMismatch when
    match re_shareEvidence r with
    | Some e => negb (shareEvidenceMatchesRequest sealDigest e (request job))
    | None => false
    end;
  Ok {| jobId := jobId job; request := request job; state := succeeded; enqueuedAt := enqueuedAt job;
        updatedAt := now; lease := None; attempt := attempt job; result_ := Some r;
        preparationAttempts := preparationAttempts job; commitMarker := commitMarker job;
        reason := reason job; formatVersion := formatVersion job |}.

(** ** bind-promote-recovery.ts *)

Inductive SharePreparation : Type := bound_share | legacy_share | eligible_share.

Definition untouchedMarker (m : PromoteCommitMarker) : bool :=
  negb (default false (promoteStarted m)) && negb (swmInserted m) && negb (wmCleaned m)
  && negb (lifecycleStamped m) && negb (gossiped m).

Definition classifyQueuedSharePreparation (job : PromoteJob) : result queue_error SharePreparation :=
  match recoveryBinding (request job) with
  | Some _ => Ok bound_share
  | None =>
      if negb (bool_decide (formatVersion job = Some ASYNC_PROMOTE_QUEUE_FORMAT_VERSION))
         || negb (truthy (agentAddress (request job)))
      then Ok legacy_share
      else
        throw RecoveryBindingConflict when
          match entities (request job) with all => false | some_entities _ => true end
          || negb (truthy (trim <$> agentAddress (request job)))
          || match commitMarker job with None => true | Some m => negb (untouchedMarker m) end;
        Ok eligible_share
  end.

Definition withRequest (job : PromoteJob) (r : PromoteRequest) (now : Z) : PromoteJob :=
  {| jobId := jobId job; request := r; state := state job; enqueuedAt := enqueuedAt job;
     updatedAt := now; lease := lease job; attempt := attempt job; result_ := result_ job;
     preparationAttempts := preparationAttempts job; commitMarker := commitMarker job;
     reason := reason job; formatVersion := formatVersion job |}.

Definition bindUnstartedPromoteJob (job : PromoteJob) (binding : PromoteRecoveryBinding) (now : Z)
    : result queue_error PromoteJob :=
  let* c := classifyQueuedSharePreparation job in
  throw RecoveryBindingConflict when
    match c with eligible_share => false | _ => true end;
  let r := request job in
  let* req := snapshotPromoteRequest
    {| contextGraphId := contextGraphId r; subGraphName := subGraphName r;
       assertionName := assertionName r; entities := all; agentAddress := agentAddress r;
       authorAgentAddress := authorAgentAddress r; recoveryBinding := Some binding |} in
  let bound := withRequest job req now in
  throw RecoveryBindingConflict when negb (isBoundPromoteJob bound);
  Ok bound.

(** ** job-id.ts *)

Definition isSafeJobId (id : string) : bool :=
  (0 <? String.length id) && (String.length id <=? 256) && isIdentifier id.
