(* ===== verification/PromoteQueue.v ===== *)
(** * The async promote queue

    [TripleStoreAsyncPromoteQueue]
    (packages/publisher/src/async-promote-queue-impl.ts) with its admission
    coordinator (promote-admission.ts), its persistence outcomes
    (promote-admission-persistence.ts, subject-atomic-write.ts), its conflict
    lookups (async-promote-ownership.ts) and the post-commit sweep
    (promote-post-commit-sweep.ts).

    Every operation runs under the control graph's mutex
    (promote-control-lock.ts), so an operation is one function on the queue
    state.  The control graph is a map from job id to job record: rows that do
    not parse are skipped by every reader and are not in the map.  What a
    record replacement does in the store is an input, [write_reply]; so are the
    clocks, the generated ids and tokens, and whether an admission deadline has
    passed. *)

From stdpp Require Import pretty.
From S2P Require Import Prelude JsString PromoteJob PromotePolicy.

(** ** State *)

(** What one replacement of a job record does: commit and acknowledge; not
    start; fail without an effect; commit with the acknowledgement lost; or, on
    the delete-then-insert fallback, stop between the two. *)
Inductive write_reply : Type := WAck | WNotStarted | WLost | WUnacked | WDeleted.

(** A pending admission that was handed to persistence ([Flight]). *)
Record Flight : Type := {
  fl_key : string;
  fl_jobId : string;
  fl_scope : PromoteLaneConflictScope
}.

Record Observation : Type := {
  ob_jobId : string;
  ob_scope : PromoteLaneConflictScope;
  ob_observedAt : Z
}.

Record QueueState : Type := {
  q_jobs : gmap string PromoteJob;
  q_pending : list Flight;
  q_owners : list Observation;
  q_paused : bool;
  q_nextIdleClaimAt : Z;
  q_scheduler : option nat;
  q_mono : Z;
  q_replies : list write_reply
}.

Definition set_jobs (q : QueueState) (jobs : gmap string PromoteJob) : QueueState :=
  {| q_jobs := jobs; q_pending := q_pending q; q_owners := q_owners q; q_paused := q_paused q;
     q_nextIdleClaimAt := q_nextIdleClaimAt q; q_scheduler := q_scheduler q; q_mono := q_mono q;
     q_replies := q_replies q |}.

Definition set_admissions (q : QueueState) (pending : list Flight) (owners : list Observation)
    : QueueState :=
  {| q_jobs := q_jobs q; q_pending := pending; q_owners := owners; q_paused := q_paused q;
     q_nextIdleClaimAt := q_nextIdleClaimAt q; q_scheduler := q_scheduler q; q_mono := q_mono q;
     q_replies := q_replies q |}.

Definition set_idle (q : QueueState) (at_ : Z) : QueueState :=
  {| q_jobs := q_jobs q; q_pending := q_pending q; q_owners := q_owners q; q_paused := q_paused q;
     q_nextIdleClaimAt := at_; q_scheduler := q_scheduler q; q_mono := q_mono q;
     q_replies := q_replies q |}.

Definition set_replies (q : QueueState) (replies : list write_reply) : QueueState :=
  {| q_jobs := q_jobs q; q_pending := q_pending q; q_owners := q_owners q; q_paused := q_paused q;
     q_nextIdleClaimAt := q_nextIdleClaimAt q; q_scheduler := q_scheduler q; q_mono := q_mono q;
     q_replies := replies |}.

Definition set_paused (q : QueueState) (p : bool) : QueueState :=
  {| q_jobs := q_jobs q; q_pending := q_pending q; q_owners := q_owners q; q_paused := p;
     q_nextIdleClaimAt := q_nextIdleClaimAt q; q_scheduler := q_scheduler q; q_mono := q_mono q;
     q_replies := q_replies q |}.

Definition set_scheduler (q : QueueState) (s : option nat) : QueueState :=
  {| q_jobs := q_jobs q; q_pending := q_pending q; q_owners := q_owners q; q_paused := q_paused q;
     q_nextIdleClaimAt := q_nextIdleClaimAt q; q_scheduler := s; q_mono := q_mono q;
     q_replies := q_replies q |}.

(** ** Operations as state-passing functions that may throw

    A throw keeps the state changes made before it. *)

Definition M (A : Type) : Type := QueueState -> result queue_error A * QueueState.

Definition ret {A : Type} (a : A) : M A := fun q => (Ok a, q).
Definition raise {A : Type} (e : queue_error) : M A := fun q => (Err e, q).
Definition lift {A : Type} (r : result queue_error A) : M A := fun q => (r, q).
Definition get : M QueueState := fun q => (Ok q, q).
Definition modify (f : QueueState -> QueueState) : M unit := fun q => (Ok tt, f q).

Definition bindM {A B : Type} (m : M A) (k : A -> M B) : M B := fun q =>
  match m q with
  | (Ok a, q') => k a q'
  | (Err e, q') => (Err e, q')
  end.

Notation "'let!' x ':=' c1 'in' c2" :=
  (bindM c1 (fun x => c2))
  (at level 10, x pattern, c1 at level 100, c2 at level 200) : dkg_scope.

Fixpoint forM {A : Type} (l : list A) (f : A -> M unit) : M unit :=
  match l with
  | [] => ret tt
  | x :: rest => let! _ := f x in forM rest f
  end.

(** ** Configuration *)

Record QueueConfig : Type := {
  c_maxRetries : Z;
  c_leaseMs : Z;
  c_backoff : Z -> Z;
  c_localeCompare : string -> string -> Z;
  c_sealDigest : CanonicalGraphScopedAuthorSealV1 -> string;
  (** whether the JSON text of a job contains a string *)
  c_payloadContains : PromoteJob -> string -> bool
}.

(** ** promote-admission.ts *)

Definition MAX_PENDING : nat := 64.
Definition MAX_OBSERVATIONS : nat := 1024.
Definition OBSERVATION_TTL_MS : Z := 5 * 60000.

Definition isOwner (job : PromoteJob) : bool :=
  isActivePromoteState (state job) || hasUnfinishedBoundObligation job.

Definition dropOwner (id : string) (owners : list Observation) : list Observation :=
  filter (fun o => ob_jobId o <> id) owners.

Definition invalidate (id : string) : M unit :=
  modify (fun q => set_admissions q (q_pending q) (dropOwner id (q_owners q))).

Definition observe (job : PromoteJob) : M unit :=
  modify (fun q =>
    let owners := dropOwner (jobId job) (q_owners q) in
    let pending := filter (fun f => fl_jobId f <> jobId job) (q_pending q) in
    if isOwner job then
      let kept := if (MAX_OBSERVATIONS <=? length owners)%nat then tail owners else owners in
      set_admissions q pending
        (kept ++ [{| ob_jobId := jobId job; ob_scope := storedPromoteLaneScope job;
                     ob_observedAt := q_mono q |}])
    else set_admissions q pending owners).

Definition findPendingConflict (pending : list Flight) (scope : PromoteLaneConflictScope)
    (excludeJobId : option string) : option Flight :=
  List.find (fun f => negb (bool_decide (excludeJobId = Some (fl_jobId f)))
                      && promoteLaneScopesConflict (fl_scope f) scope) pending.

(** The loop over the observed owners: expired entries are deleted, the first
    fresh one that conflicts stops the loop. *)
Fixpoint scanOwners (owners : list Observation) (scope : PromoteLaneConflictScope) (mono : Z)
    : option string * list Observation :=
  match owners with
  | [] => (None, [])
  | o :: rest =>
      if (OBSERVATION_TTL_MS <=? mono - ob_observedAt o)%Z then scanOwners rest scope mono
      else if promoteLaneScopesConflict (ob_scope o) scope then (Some (ob_jobId o), o :: rest)
      else let '(r, rest') := scanOwners rest scope mono in (r, o :: rest')
  end.

(** ** promote-admission-persistence.ts and bound-promote-job.ts *)

Inductive PromotePersistenceResult : Type := PersistOk | PersistNotAdmitted | PersistIndeterminate.

Definition nextReply : M write_reply := fun q =>
  match q_replies q with
  | [] => (Ok WAck, q)
  | r :: rest => (Ok r, set_replies q rest)
  end.

Definition hasBinding (job : PromoteJob) : bool :=
  match recoveryBinding (request job) with Some _ => true | None => false end.

(** [persistPromoteJob] and the flush after it.  A record with a recovery
    binding is only ever replaced atomically. *)
Definition persistPromoteJobWithEvidence (job : PromoteJob) : M PromotePersistenceResult :=
  if hasBinding job && negb (isBoundPromoteJob job) then ret PersistIndeterminate
  else
    let! reply := nextReply in
    let put := modify (fun q => set_jobs q (<[jobId job := job]> (q_jobs q))) in
    match reply with
    | WAck => let! _ := put in ret PersistOk
    | WNotStarted => ret PersistNotAdmitted
    | WLost => ret PersistIndeterminate
    | WUnacked => let! _ := put in ret PersistIndeterminate
    | WDeleted =>
        if hasBinding job then ret PersistIndeterminate
        else let! _ := modify (fun q => set_jobs q (delete (jobId job) (q_jobs q))) in
             ret PersistIndeterminate
    end.

(** ** async-promote-queue-impl.ts: internals *)

Definition writeJobWithEvidence (job : PromoteJob) : M PromotePersistenceResult :=
  let! _ := modify (fun q => set_idle q 0) in
  let! _ := invalidate (jobId job) in
  let! r := persistPromoteJobWithEvidence job in
  match r with
  | PersistOk => let! _ := observe job in ret PersistOk
  | r => ret r
  end.

Definition writeJob (job : PromoteJob) : M unit :=
  let! r := writeJobWithEvidence job in
  match r with
  | PersistOk => ret tt
  | _ => raise StoreFailure
  end.

Definition readJob (id : string) : M (option PromoteJob) :=
  let! q := get in
  match q_jobs q !! id with
  | None => let! _ := invalidate id in ret None
  | Some job => let! _ := observe job in ret (Some job)
  end.

Definition requireJob (id : string) : M PromoteJob :=
  let! r := readJob id in
  match r with
  | None => raise (JobNotFound id)
  | Some job => ret job
  end.

(** The worker is woken outside the model; the idle hint is reset. *)
Definition notifyWorkAvailable : M unit := modify (fun q => set_idle q 0).

Definition validateRequest (r : PromoteRequest) : result queue_error unit :=
  throw ContextGraphIdRequired when negb (nonEmpty (contextGraphId r));
  throw AssertionNameRequired when negb (nonEmpty (assertionName r));
  throw AgentAddressEmpty when
    match agentAddress r with
    | Some a => negb (nonEmpty (normalizePromoteAgentLane (Some a)))
    | None => false
    end;
  match entities r with
  | all => Ok tt
  | some_entities l =>
      throw EntitiesEmpty when bool_decide (l = []);
      throw EntityEmpty when negb (forallb nonEmpty l);
      Ok tt
  end.

Definition validateJobId (id : string) : result queue_error unit :=
  throw JobIdEmpty when negb (nonEmpty id);
  throw JobIdTooLong when (256 <? String.length id)%nat;
  throw JobIdUnsafe when negb (isIdentifier id);
  Ok tt.

Definition assertLeaseHeld (job : PromoteJob) (claimToken : string) (now : Z) : result queue_error unit :=
  throw LeaseError when negb (bool_decide (state job = running));
  match lease job with
  | None => Err LeaseError
  | Some l =>
      throw LeaseError when negb (String.eqb (ls_claimToken l) claimToken);
      throw LeaseError when (ls_expiresAt l <=? now)%Z;
      Ok tt
  end.

Section Queue.
Context (cfg : QueueConfig).

(** ** Conflict lookups (async-promote-ownership.ts) *)

(** The candidate query: the rows of the lookup's keys (or, for a wildcard
    lane, of its assertion) that can decide it. *)
Definition candidateRow (lookup : PromoteConflictLookup) (job : PromoteJob) : bool :=
  match lk_keys lookup with
  | None =>
      String.eqb (contextGraphId (request job)) (contextGraphId (lk_request lookup))
      && String.eqb (assertionName (request job)) (assertionName (lk_request lookup))
  | Some keys => bool_decide (uniquenessKey (request job) ∈ keys)
  end
  && negb (bool_decide (state job = succeeded))
  && (negb (bool_decide (state job = failed)) || c_payloadContains cfg job "recoveryBinding").

Definition rows (q : QueueState) : list PromoteJob := snd <$> map_to_list (q_jobs q).

Definition readPromoteOwnershipCandidates (q : QueueState) (lookup : PromoteConflictLookup)
    : list PromoteJob :=
  filter (fun job => promoteLaneScopesConflict (storedPromoteLaneScope job) (lk_laneScope lookup) = true)
    (filter (fun job => candidateRow lookup job = true) (rows q)).

Inductive ActivationConflict : Type :=
| PendingConflict (flight : Flight)
| DurableConflict (job : PromoteJob).

Definition findActiveConflict (lookup : PromoteConflictLookup) (excludeJobId : option string)
    : M (option ActivationConflict) :=
  let! q := get in
  match findPendingConflict (q_pending q) (lk_laneScope lookup) excludeJobId with
  | Some f => ret (Some (PendingConflict f))
  | None =>
      let jobs := readPromoteOwnershipCandidates q lookup in
      let! _ := forM jobs observe in
      ret (DurableConflict <$>
           List.find (fun job => negb (bool_decide (excludeJobId = Some (jobId job))) && isOwner job) jobs)
  end.

Definition conflictError (c : ActivationConflict) : queue_error :=
  match c with
  | PendingConflict f => AdmissionIndeterminate (fl_jobId f)
  | DurableConflict job => JobConflict (jobId job)
  end.

Definition assertNoActiveConflict (lookup : PromoteConflictLookup) (excludeJobId : option string)
    : M unit :=
  let! c := findActiveConflict lookup excludeJobId in
  match c with
  | Some c => raise (conflictError c)
  | None => ret tt
  end.

Definition conflictLookupForRequest (r : PromoteRequest) : PromoteConflictLookup :=
  promoteOwnershipLookup r false.

Definition conflictLookupForStoredJob (job : PromoteJob) : PromoteConflictLookup :=
  promoteOwnershipLookup (request job) (usesLegacyWildcardLane job).

(** ** Admission *)

(** Whether the admission deadline has passed when each phase is entered. *)
Record Expiry : Type := {
  ex_graph : bool;
  ex_conflict : bool;
  ex_persist : bool
}.

(** The new record of [enqueue] and [enqueueAndClaim]. *)
Definition newJob (id : string) (r : PromoteRequest) (now : Z) : PromoteJob :=
  {| jobId := id; request := r; state := queued; enqueuedAt := now; updatedAt := now; lease := None;
     attempt := {| at_count := 0; at_maxRetries := c_maxRetries cfg; at_nextRetryAt := None;
                   at_lastError := None |};
     result_ := None; preparationAttempts := None; commitMarker := None; reason := None;
     formatVersion := Some ASYNC_PROMOTE_QUEUE_FORMAT_VERSION |}.

(** [PromoteAdmissionCoordinator.run] before the attempt is started. *)
Definition admissionPreflight (r : PromoteRequest) : M unit :=
  let! q := get in
  match List.find (fun f => String.eqb (fl_key f) (uniquenessKey r)) (q_pending q) with
  | Some f => raise (AdmissionIndeterminate (fl_jobId f))
  | None =>
      let '(conflict, owners) := scanOwners (q_owners q) (promoteLaneConflictScope r false) (q_mono q) in
      let! _ := modify (fun q => set_admissions q (q_pending q) owners) in
      match conflict with
      | Some id => raise (JobConflict id)
      | None =>
          if (MAX_PENDING <=? length (q_pending q))%nat then raise AdmissionNotAdmitted else ret tt
      end
  end.

(** An admission whose outcome is unknown keeps its entry. *)
Definition retainFlight (id : string) (r : PromoteRequest) : M unit :=
  modify (fun q =>
    set_admissions q
      (q_pending q ++ [{| fl_key := uniquenessKey r; fl_jobId := id;
                          fl_scope := promoteLaneConflictScope r false |}]) (q_owners q)).

Definition enqueue (r0 : PromoteRequest) (expiry : Expiry) (now : Z) (id : string) : M string :=
  let! _ := lift (validateRequest r0) in
  let! r := lift (snapshotPromoteRequest r0) in
  let! _ := admissionPreflight r in
  if ex_graph expiry then raise AdmissionNotAdmitted else
  if ex_conflict expiry then raise AdmissionNotAdmitted else
  let! _ := assertNoActiveConflict (conflictLookupForRequest r) None in
  let! _ := lift (validateJobId id) in
  if ex_persist expiry then raise AdmissionNotAdmitted else
  let! p := writeJobWithEvidence (newJob id r now) in
  match p with
  | PersistNotAdmitted => raise AdmissionNotAdmitted
  | PersistIndeterminate => let! _ := retainFlight id r in raise (AdmissionIndeterminate id)
  | PersistOk => let! _ := notifyWorkAvailable in ret id
  end.

(** A write whose outcome the caller must observe before retrying. *)
Definition writeOrUncertain (job : PromoteJob) : M unit :=
  let! p := writeJobWithEvidence job in
  match p with
  | PersistOk => ret tt
  | _ => raise (AdmissionUncertain (jobId job))
  end.

Definition enqueueAndClaim (r0 : PromoteRequest) (workerId : string) (now : Z) (id token : string)
    : M PromoteJob :=
  let! _ := lift (validateRequest r0) in
  if negb (nonEmpty workerId) then raise WorkerIdRequired else
  let! r := lift (snapshotPromoteRequest r0) in
  let! _ := assertNoActiveConflict (conflictLookupForRequest r) None in
  let! _ := lift (validateJobId id) in
  let job := claimPromoteJob (newJob id r now) workerId now (c_leaseMs cfg) token in
  if negb (isBoundPromoteJob job) then raise InlineAdmissionUnbound else
  let! _ := writeOrUncertain job in
  ret job.

Definition bindRecovery (id claimToken : string) (binding : PromoteRecoveryBinding) (now1 now2 : Z)
    : M PromoteJob :=
  let! job := requireJob id in
  let! _ := lift (assertLeaseHeld job claimToken now1) in
  let! bound := lift (bindUnstartedPromoteJob job binding now2) in
  let! _ := writeOrUncertain bound in
  ret bound.

Definition getStatus (id : string) : M (option PromoteJob) := readJob id.

Definition cancel (id : string) (now : Z) : M unit :=
  let! job := requireJob id in
  if hasUnfinishedBoundObligation job then raise (CancellationConflict id) else
  if negb (bool_decide (state job = queued)) then raise (CancellationConflict id) else
  writeJob
    {| jobId := jobId job; request := request job; state := failed; enqueuedAt := enqueuedAt job;
       updatedAt := now; lease := None;
       attempt := {| at_count := at_count (attempt job); at_maxRetries := at_maxRetries (attempt job);
                     at_nextRetryAt := None; at_lastError := at_lastError (attempt job) |};
       result_ := result_ job; preparationAttempts := preparationAttempts job;
       commitMarker := commitMarker job; reason := Some "cancelled"%string;
       formatVersion := formatVersion job |}.

(** ** Abandoning *)

Definition missingStorageLaneReason : string :=
  "missing storage lane for pre-v3 author-scoped promote job; needs operator inspection".

Definition missingStorageLaneMessage : string :=
  "Pre-v3 promote job carries authorAgentAddress without agentAddress; daemon refuses automatic reclaim because it cannot prove the WM storage lane".

Definition abandonedJob (job : PromoteJob) (now : Z) (why message : string) : PromoteJob :=
  {| jobId := jobId job; request := request job; state := failed; enqueuedAt := enqueuedAt job;
     updatedAt := now; lease := None;
     attempt := {| at_count := at_count (attempt job); at_maxRetries := at_maxRetries (attempt job);
                   at_nextRetryAt := None;
                   at_lastError := Some {| ae_message := message; ae_retryable := false;
                                           ae_classification := fatal; ae_recordedAt := now;
                                           ae_diagnosticCode := None; ae_authorityReason := None;
                                           ae_noEffectProof := None |} |};
     result_ := result_ job; preparationAttempts := preparationAttempts job;
     commitMarker := commitMarker job; reason := Some why; formatVersion := formatVersion job |}.

Definition abandonForManualInspection (job : PromoteJob) (now : Z) (why message : string) : M unit :=
  writeJob (abandonedJob job now why message).

Definition abandonIfMissingStorageLane (job : PromoteJob) (now : Z) : M bool :=
  if negb (missingStorageLaneForAuthorOnlyJob job) then ret false else
  let! _ := abandonForManualInspection job now missingStorageLaneReason missingStorageLaneMessage in
  ret true.

(** ** Operator recovery *)

Definition recoveredJob (job : PromoteJob) (r : PromoteRequest) (now : Z) : PromoteJob :=
  {| jobId := jobId job; request := r; state := queued; enqueuedAt := enqueuedAt job;
     updatedAt := now; lease := None;
     attempt := {| at_count := 0; at_maxRetries := at_maxRetries (attempt job);
                   at_nextRetryAt := None; at_lastError := None |};
     result_ := None; preparationAttempts := None; commitMarker := None; reason := None;
     formatVersion := Some ASYNC_PROMOTE_QUEUE_FORMAT_VERSION |}.

Definition recover (id : string) (now : Z) : M unit :=
  let! job := requireJob id in
  if negb (bool_decide (state job = failed)) then raise NotFailed else
  if isRetiredBoundRejection job then raise RetiredRejection else
  let! missing := abandonIfMissingStorageLane job now in
  if missing : bool then raise MissingStorageLane else
  if requiresManualInspection job then raise ManualInspectionRequired else
  let! _ := assertNoActiveConflict (conflictLookupForStoredJob job) (Some (jobId job)) in
  let! r := lift (snapshotPromoteRequest (request job)) in
  let! _ := writeJob (recoveredJob job r now) in
  notifyWorkAvailable.

(** ** Listing used by claims and recovery *)

Definition listUnlocked (states : list PromoteJobState) : M (list PromoteJob) :=
  let! q := get in
  let sorted := js_sort (comparePromoteJobs (c_localeCompare cfg))
                  (filter (fun job => state job ∈ states) (rows q)) in
  let! _ := forM sorted observe in
  ret sorted.

(** ** Expired leases *)

Record PromoteRecoverySummary : Type := {
  rs_reclaimed : nat;
  rs_abandoned : nat
}.

Inductive lease_recovery : Type := reclaimed | abandoned.

Definition countLeaseRecovery (s : PromoteRecoverySummary) (outcome : lease_recovery)
    : PromoteRecoverySummary :=
  match outcome with
  | reclaimed => {| rs_reclaimed := S (rs_reclaimed s); rs_abandoned := rs_abandoned s |}
  | abandoned => {| rs_reclaimed := rs_reclaimed s; rs_abandoned := S (rs_abandoned s) |}
  end.

Definition reclaimedJob (job : PromoteJob) (r : PromoteRequest) (now : Z) : PromoteJob :=
  let j := recordUnstartedPromoteAttempt job in
  {| jobId := jobId j; request := r; state := queued; enqueuedAt := enqueuedAt j; updatedAt := now;
     lease := None;
     attempt := {| at_count := at_count (attempt job); at_maxRetries := at_maxRetries (attempt job);
                   at_nextRetryAt := None; at_lastError := at_lastError (attempt job) |};
     result_ := result_ j; preparationAttempts := preparationAttempts j; commitMarker := None;
     reason := None; formatVersion := Some ASYNC_PROMOTE_QUEUE_FORMAT_VERSION |}.

(** A record whose expired lease may be taken back: it is bound, or its marker
    proves that nothing was written and its format guarantees the marker. *)
Definition mayReclaim (job : PromoteJob) : bool :=
  isBoundPromoteJob job
  || ((version job <=? ASYNC_PROMOTE_QUEUE_FORMAT_VERSION)%Z
      && (ASYNC_PROMOTE_QUEUE_MIN_AUTO_RECOVERABLE_FORMAT_VERSION <=? version job)%Z
      && bool_decide (markerSwmInserted job = Some false)
      && negb (bool_decide (markerPromoteStarted job = Some true))).

Definition expiredReason (job : PromoteJob) : string :=
  if (version job <? ASYNC_PROMOTE_QUEUE_MIN_AUTO_RECOVERABLE_FORMAT_VERSION)%Z then
    "legacy promote job (formatVersion=" ++ pretty (version job)
    ++ "); needs operator inspection — recovery refuses to reclaim pre-v2 rows that may have started promote without writing a marker"
  else if default false (markerSwmInserted job) then
    "partial promote ambiguity: lease expired after SWM insert; needs operator inspection"
  else "partial promote ambiguity: lease expired while job was running; needs operator inspection".

Definition expiredMessage (job : PromoteJob) : string :=
  if (version job <? ASYNC_PROMOTE_QUEUE_MIN_AUTO_RECOVERABLE_FORMAT_VERSION)%Z then
    "Legacy promote job (formatVersion=" ++ pretty (version job)
    ++ ") found in recovery; daemon refuses automatic reclaim because pre-v2 workers may have entered assertionPromote without recording promoteStarted"
  else if default false (markerSwmInserted job) then
    "Worker crashed after SWM insert; recovery aborted to prevent duplicate gossip"
  else "Worker lease expired during promote; recovery aborted to prevent duplicate SWM/gossip".

Definition conflictReason (id : string) : string :=
  "recovery conflict: active promote job " ++ id ++ " already owns this assertion".

Definition conflictMessage (id : string) : string :=
  "Startup recovery found active promote job " ++ id ++ " for the same assertion".

(** One round of the loop of [reconcileExpiredRunning]. *)
Definition reconcileJob (job : PromoteJob) (now : Z) (summary : PromoteRecoverySummary)
    : M PromoteRecoverySummary :=
  if (now <? default 0 (ls_expiresAt <$> lease job))%Z then ret summary else
  let! missing := abandonIfMissingStorageLane job now in
  if missing : bool then ret (countLeaseRecovery summary abandoned) else
  let! c := findActiveConflict (conflictLookupForStoredJob job) (Some (jobId job)) in
  match c with
  | Some (PendingConflict _) => ret summary
  | Some (DurableConflict other) =>
      let! _ := abandonForManualInspection job now (conflictReason (jobId other))
                  (conflictMessage (jobId other)) in
      ret (countLeaseRecovery summary abandoned)
  | None =>
      if mayReclaim job then
        let! r := lift (snapshotPromoteRequest (request job)) in
        let! _ := writeJob (reclaimedJob job r now) in
        ret (countLeaseRecovery summary reclaimed)
      else
        let! _ := abandonForManualInspection job now (expiredReason job) (expiredMessage job) in
        ret (countLeaseRecovery summary abandoned)
  end.

Fixpoint reconcileLoop (jobs : list PromoteJob) (now : Z) (summary : PromoteRecoverySummary)
    : M PromoteRecoverySummary :=
  match jobs with
  | [] => ret summary
  | job :: rest =>
      let! summary' := reconcileJob job now summary in
      reconcileLoop rest now summary'
  end.

Definition reconcileExpiredRunning (now : Z) : M PromoteRecoverySummary :=
  let! running_ := listUnlocked [running] in
  reconcileLoop running_ now {| rs_reclaimed := 0; rs_abandoned := 0 |}.

Definition recoverOnStartup (now : Z) : M PromoteRecoverySummary := reconcileExpiredRunning now.

(** ** Claims *)

Definition claimCandidate (now : Z) (job : PromoteJob) : bool :=
  negb (ASYNC_PROMOTE_QUEUE_FORMAT_VERSION <? version job)%Z
  && (bool_decide (state job = queued)
      || (bool_decide (state job = failed_retrying)
          && (default 0 (at_nextRetryAt (attempt job)) <=? now)%Z)).

Definition jobsShareClaimLane (active candidate : PromoteJob) : bool :=
  promoteLaneScopesConflict (storedPromoteLaneScope active) (storedPromoteLaneScope candidate).

(** The candidates that keep their place, after abandoning the others. *)
Fixpoint keepClaimable (candidates : list PromoteJob) (now : Z) : M (list PromoteJob) :=
  match candidates with
  | [] => ret []
  | c :: rest =>
      let! missing := abandonIfMissingStorageLane c now in
      let! kept := keepClaimable rest now in
      ret (if missing : bool then kept else c :: kept)
  end.

Definition eligibleFor (jobs candidates : list PromoteJob) : list PromoteJob :=
  let running_ := filter (fun job => state job = running) jobs in
  filter (fun c =>
    existsb (fun active => negb (String.eqb (jobId active) (jobId c)) && jobsShareClaimLane active c)
      running_ = false) candidates.

(** The earliest known deadline after [now], at most one second ahead. *)
Definition idleDeadline (jobs : list PromoteJob) (now : Z) : Z :=
  let consider (deadline : Z) (at_ : option Z) :=
    match at_ with
    | Some t => if (now <? t)%Z then Z.min deadline t else deadline
    | None => deadline
    end in
  foldl (fun deadline job =>
    consider (consider deadline (at_nextRetryAt (attempt job))) (ls_expiresAt <$> lease job))
    (now + 1000)%Z jobs.

Definition claimNext (workerId : string) (now : Z) (token : string) : M (option PromoteJob) :=
  if negb (nonEmpty workerId) then raise WorkerIdRequired else
  let! q := get in
  if q_paused q then ret None else
  if match q_scheduler q with Some _ => true | None => false end && (now <? q_nextIdleClaimAt q)%Z
  then ret None else
  let! _ := reconcileExpiredRunning now in
  let! jobs := listUnlocked ACTIVE_PROMOTE_STATES in
  let! claimable := keepClaimable (filter (fun j => claimCandidate now j = true) jobs) now in
  match eligibleFor jobs claimable with
  | [] =>
      let! _ := modify (fun q => set_idle q (idleDeadline jobs now)) in
      ret None
  | next :: _ =>
      let claimed := claimPromoteJob next workerId now (c_leaseMs cfg) token in
      let! _ := writeJob claimed in
      ret (Some claimed)
  end.

(** ** Worker reports *)

Definition refreshedJob (job : PromoteJob) (now : Z) : PromoteJob :=
  {| jobId := jobId job; request := request job; state := state job; enqueuedAt := enqueuedAt job;
     updatedAt := now;
     lease := (fun l => {| ls_workerId := ls_workerId l; ls_acquiredAt := ls_acquiredAt l;
                           ls_expiresAt := now + c_leaseMs cfg; ls_lastHeartbeatAt := now;
                           ls_claimToken := ls_claimToken l |}) <$> lease job;
     attempt := attempt job; result_ := result_ job; preparationAttempts := preparationAttempts job;
     commitMarker := commitMarker job; reason := reason job; formatVersion := formatVersion job |}.

Definition heartbeat (id claimToken : string) (now1 now2 : Z) : M unit :=
  let! job := requireJob id in
  let! _ := lift (assertLeaseHeld job claimToken now1) in
  writeJob (refreshedJob job now2).

Definition markStep (m : option PromoteCommitMarker) (step : PromoteCommitMarkerStep)
    : PromoteCommitMarker :=
  let on s := match s, step with
              | st_promoteStarted, st_promoteStarted | st_swmInserted, st_swmInserted
              | st_wmCleaned, st_wmCleaned | st_lifecycleStamped, st_lifecycleStamped
              | st_gossiped, st_gossiped => true
              | _, _ => false
              end in
  {| promoteStarted := Some (on st_promoteStarted || default false (m ≫= promoteStarted));
     swmInserted := on st_swmInserted || default false (swmInserted <$> m);
     wmCleaned := on st_wmCleaned || default false (wmCleaned <$> m);
     lifecycleStamped := on st_lifecycleStamped || default false (lifecycleStamped <$> m);
     gossiped := on st_gossiped || default false (gossiped <$> m) |}.

Definition markedJob (job : PromoteJob) (step : PromoteCommitMarkerStep) (now : Z) : PromoteJob :=
  {| jobId := jobId job; request := request job; state := state job; enqueuedAt := enqueuedAt job;
     updatedAt := now; lease := lease job; attempt := attempt job; result_ := result_ job;
     preparationAttempts := preparationAttempts job;
     commitMarker := Some (markStep (commitMarker job) step); reason := reason job;
     formatVersion := formatVersion job |}.

Definition recordCommitMarker (id claimToken : string) (step : PromoteCommitMarkerStep)
    (now1 now2 : Z) : M unit :=
  let! job := requireJob id in
  let! _ := lift (assertLeaseHeld job claimToken now1) in
  writeJob (markedJob job step now2).

(** [snapshot] is the result with its decoded share evidence. *)
Definition succeed (id claimToken : string) (snapshot : PromoteResult) (now1 now2 : Z) : M unit :=
  let! job := requireJob id in
  let! _ := lift (assertLeaseHeld job claimToken now1) in
  let! done_ := lift (promoteSuccessTransition (c_sealDigest cfg) job snapshot now2) in
  writeJob done_.

Definition fail (id claimToken : string) (error : PromoteAttemptError) (now1 now2 : Z)
    : M PromoteFailureTransition :=
  let! job := requireJob id in
  let! _ := lift (assertLeaseHeld job claimToken now1) in
  let '(failed_, transition) := promoteFailureTransition job error now2 (c_backoff cfg) in
  let! _ := writeJob failed_ in
  ret transition.

(** ** The post-commit sweep (promote-post-commit-sweep.ts) *)

Inductive recovery_action : Type := requeued | exhausted.

Record PromotePostCommitRecoveryEvent : Type := {
  pe_jobId : string;
  pe_action : recovery_action;
  pe_attempt : Z;
  pe_maxAttempts : Z;
  pe_nextRetryAt : option Z
}.

Definition exhaustedJob (job : PromoteJob) (attemptCount now : Z) : PromoteJob :=
  {| jobId := jobId job; request := request job; state := state job; enqueuedAt := enqueuedAt job;
     updatedAt := now; lease := lease job; attempt := attempt job; result_ := result_ job;
     preparationAttempts := preparationAttempts job; commitMarker := commitMarker job;
     reason := Some (postCommitRecoveryExhaustedReason attemptCount);
     formatVersion := formatVersion job |}.

Definition requeuedJob (job : PromoteJob) (attemptCount now nextRetryAt : Z) : PromoteJob :=
  {| jobId := jobId job; request := request job; state := failed_retrying;
     enqueuedAt := enqueuedAt job; updatedAt := now; lease := None;
     attempt := {| at_count := attemptCount; at_maxRetries := at_maxRetries (attempt job);
                   at_nextRetryAt := Some nextRetryAt;
                   at_lastError := setRetryable <$> at_lastError (attempt job) |};
     result_ := result_ job; preparationAttempts := preparationAttempts job;
     commitMarker := commitMarker job; reason := reason job; formatVersion := formatVersion job |}.

(** One candidate of a turn, as the turn read it. *)
Definition sweepJob (job : PromoteJob) (now : Z) : M (list PromotePostCommitRecoveryEvent) :=
  if negb (isAutomaticallyRecoverablePostCommitFailure job) then ret [] else
  let attemptCount := Z.max 1 (at_count (attempt job)) in
  let maxAttempts := at_maxRetries (attempt job) in
  if (maxAttempts <=? attemptCount)%Z then
    let! _ := writeJob (exhaustedJob job attemptCount now) in
    ret [{| pe_jobId := jobId job; pe_action := exhausted; pe_attempt := attemptCount;
            pe_maxAttempts := maxAttempts; pe_nextRetryAt := None |}]
  else
    let! c := findActiveConflict (conflictLookupForStoredJob job) (Some (jobId job)) in
    match c with
    | Some _ => ret []
    | None =>
        let nextRetryAt := (now + c_backoff cfg attemptCount)%Z in
        let! _ := writeJob (requeuedJob job attemptCount now nextRetryAt) in
        ret [{| pe_jobId := jobId job; pe_action := requeued; pe_attempt := attemptCount;
                pe_maxAttempts := maxAttempts; pe_nextRetryAt := Some nextRetryAt |}]
    end.

Fixpoint sweepJobs (jobs : list PromoteJob) (now : Z) : M (list PromotePostCommitRecoveryEvent) :=
  match jobs with
  | [] => ret []
  | job :: rest =>
      let! e := sweepJob job now in
      let! es := sweepJobs rest now in
      ret (e ++ es)
  end.

(** [readPromoteJobPayloads] for failed jobs: the rows as they are now. *)
Definition readFailed (ids : list string) : M (list PromoteJob) :=
  let! q := get in
  let found := omap (fun id => q_jobs q !! id) ids in
  let! _ := forM found observe in
  ret (filter (fun job => state job = failed) found).

(** One turn of the decide pass: one hold of the mutex. *)
Definition sweepTurn (ids : list string) (now : Z) : M (list PromotePostCommitRecoveryEvent) :=
  let! jobs := readFailed ids in
  sweepJobs jobs now.

(** The find pass: the failed jobs whose text names the producer's marker, as
    the policy accepts them, in the queue's order. *)
Definition POST_COMMIT_MARKERS : list string :=
  [PROMOTE_POST_COMMIT_FAILURE_CODE; PROMOTE_POST_COMMIT_FAILURE_MESSAGE].

Definition findSweepCandidates : M (list string) :=
  let! q := get in
  let page := filter (fun job => state job = failed /\
                        existsb (c_payloadContains cfg job) POST_COMMIT_MARKERS = true) (rows q) in
  let! _ := forM page observe in
  ret (jobId <$> js_sort (comparePromoteJobs (c_localeCompare cfg))
                   (filter (fun job => isAutomaticallyRecoverablePostCommitFailure job = true) page)).

Definition POST_COMMIT_SWEEP_PAGE_SIZE : nat := 50.

(** The decide pass, [pageSize] candidates per turn; [now turn] is the clock
    each turn reads, and every turn takes at least one candidate, so the number
    of candidates is enough fuel. *)
Fixpoint sweepTurns (fuel turn : nat) (ids : list string) (now : nat -> Z)
    : M (list PromotePostCommitRecoveryEvent) :=
  match fuel, ids with
  | S fuel, _ :: _ =>
      let! e := sweepTurn (take POST_COMMIT_SWEEP_PAGE_SIZE ids) (now turn) in
      let! es := sweepTurns fuel (S turn) (drop POST_COMMIT_SWEEP_PAGE_SIZE ids) now in
      ret (e ++ es)
  | _, _ => ret []
  end.

Definition recoverPostCommitFailures (now : nat -> Z) : M (list PromotePostCommitRecoveryEvent) :=
  let! ids := findSweepCandidates in
  sweepTurns (length ids) 0 ids now.

(** ** Terminal clear *)

Inductive TerminalJobClearOutcome : Type :=
| cleared | already_absent | rejected_nonterminal | rejected_unknown | rejected_malformed.

Definition deleteJob (id : string) : M unit :=
  let! _ := invalidate id in
  modify (fun q => set_jobs q (delete id (q_jobs q))).

(** Records of the model have a known state and a readable payload; the answers
    to others ([rejected_unknown], and [rejected_malformed] for a payload that
    does not parse) are not reached. *)
Definition clearTerminalJob (id : string) : M TerminalJobClearOutcome :=
  if negb (isSafeJobId id) then ret rejected_malformed else
  let! q := get in
  match q_jobs q !! id with
  | None => ret already_absent
  | Some job =>
      if negb (String.eqb (jobId job) id) then ret rejected_malformed else
      if hasUnfinishedBoundObligation job then ret rejected_nonterminal else
      if negb (isTerminalPromoteJobState (state job)) then ret rejected_nonterminal else
      if isAutomaticallyRecoverablePostCommitFailure job
         && (Z.max 1 (at_count (attempt job)) <? at_maxRetries (attempt job))%Z
      then ret rejected_nonterminal else
      let! _ := observe job in
      let! _ := deleteJob id in
      ret cleared
  end.

(** ** Lifecycle switches *)

Definition pause : M unit := modify (fun q => set_paused q true).

Definition resume : M unit :=
  let! _ := modify (fun q => set_paused q false) in notifyWorkAvailable.

Definition attachScheduler (s : nat) : M unit :=
  modify (fun q => set_scheduler (set_idle q 0) (Some s)).

Definition detachScheduler (s : nat) : M unit :=
  modify (fun q => if bool_decide (q_scheduler q = Some s) then set_scheduler q None else q).

End Queue.
