(* ===== verification/PromoteMachine.v ===== *)
(** * The promote job machine

    What the promote queue promises about its records, stated without the
    queue: the steps a record can take, the effects a store can show, and the
    invariants of any sequence of effects.  PromoteQueueTheory.v proves that
    every operation of the queue is such a sequence. *)

From S2P Require Import Prelude JsString PromoteJob PromotePolicy PromoteQueue.

(** ** Requests *)

(** The identifiers of a request do not contain the key separator. *)
Definition noSeparator (s : string) : bool := allChars (fun c => negb (code c =? 31)%N) s.

Definition cleanRequest (r : PromoteRequest) : bool :=
  noSeparator (contextGraphId r) && noSeparator (default EmptyString (subGraphName r))
  && noSeparator (assertionName r).

Lemma separator_inj a b x y :
  noSeparator a = true -> noSeparator b = true ->
  (a ++ unitSeparator ++ x)%string = (b ++ unitSeparator ++ y)%string -> a = b /\ x = y.
Proof.
  revert b. induction a as [|c a IH]; intros [|d b] Ha Hb; simpl.
  - intros [=]. done.
  - intros [= <- _]. done.
  - intros [= -> _]. done.
  - intros [= -> H]. apply andb_true_iff in Ha as [_ Ha], Hb as [_ Hb].
    destruct (IH b Ha Hb H) as [-> ->]. done.
Qed.

Lemma legacyKey_inj r1 r2 :
  cleanRequest r1 = true -> cleanRequest r2 = true ->
  legacyUniquenessKey r1 = legacyUniquenessKey r2 ->
  contextGraphId r1 = contextGraphId r2 /\ assertionName r1 = assertionName r2.
Proof.
  unfold cleanRequest. intros H1 H2 Hk.
  apply andb_true_iff in H1 as [[? ?]%andb_true_iff ?], H2 as [[? ?]%andb_true_iff ?].
  apply separator_inj in Hk as [? Hk]; [|done..]. apply separator_inj in Hk as [? ?]; done.
Qed.

Lemma validate_binding_id b b' : validatePromoteRecoveryBinding b = Ok b' -> b' = b /\ isPromoteRecoveryBinding b = true.
Proof.
  unfold validatePromoteRecoveryBinding. intros H. ok_inv. apply negb_false_iff in H0. split; [|done].
  unfold isPromoteRecoveryBinding, assertBindingHeader, assertPromoteOperationIntent in H0.
  repeat (apply andb_true_iff in H0 as [H0 ?]). 
  repeat match goal with Hx : (_ && _) = true |- _ => apply andb_true_iff in Hx as [? ?] end.
  rewrite !Z.eqb_eq in *. subst b'. destruct b as [v d [iv io it ip ic ia il] inv]. simpl in *. subst.
  f_equal. f_equal. destruct ip as [p|]; simpl; [|done]. 
  match goal with Hx : (nonEmpty p && _) = true |- _ => apply andb_true_iff in Hx as [-> _] end. done.
Qed.

(** What [snapshotPromoteRequest] keeps. *)
Definition sameScope (r r' : PromoteRequest) : Prop :=
  contextGraphId r' = contextGraphId r /\ subGraphName r' = subGraphName r /\
  assertionName r' = assertionName r /\ authorAgentAddress r' = authorAgentAddress r /\
  normalizePromoteAgentLane (agentAddress r') = normalizePromoteAgentLane (agentAddress r).

Lemma lane_trim a : normalizePromoteAgentLane (trim <$> a) = normalizePromoteAgentLane a.
Proof. destruct a as [a|]; [|done]. unfold normalizePromoteAgentLane. simpl. by rewrite trim_idem. Qed.

Lemma lane_untruthy a :
  truthy (trim <$> a) = false -> normalizePromoteAgentLane None = normalizePromoteAgentLane a.
Proof.
  destruct a as [a|]; [|done]. unfold normalizePromoteAgentLane. simpl.
  unfold nonEmpty. rewrite negb_false_iff, bool_decide_eq_true. by intros ->.
Qed.

Lemma snapshot_scope r r' :
  snapshotPromoteRequest r = Ok r' -> sameScope r r' /\ recoveryBinding r' = recoveryBinding r.
Proof.
  unfold snapshotPromoteRequest. destruct (recoveryBinding r) as [b|] eqn:Eb; intros H; ok_inv; subst r'; simpl.
  - apply validate_binding_id in H1 as [-> _]. split; [|done]. repeat split; simpl; try done. apply lane_trim.
  - split; [|done]. repeat split; simpl; try done.
    destruct (truthy (trim <$> agentAddress r)) eqn:Et; [apply lane_trim|by apply lane_untruthy].
Qed.

Lemma snapshot_bound r r' :
  snapshotPromoteRequest r = Ok r' -> isBoundPromoteRequest r = true -> isBoundPromoteRequest r' = true.
Proof.
  unfold snapshotPromoteRequest, isBoundPromoteRequest.
  destruct (recoveryBinding r) as [b|]; [|rewrite !andb_true_iff; naive_solver].
  intros H Hb. ok_inv. subst r'. simpl. apply validate_binding_id in H1 as [-> ->].
  rewrite !andb_true_iff in *. destruct (agentAddress r) as [a|]; simpl in *; [|naive_solver].
  rewrite trim_idem. naive_solver.
Qed.

Lemma sameScope_keys r r' :
  sameScope r r' -> legacyUniquenessKey r' = legacyUniquenessKey r /\ cleanRequest r' = cleanRequest r.
Proof.
  intros (Hc & Hs & Ha & _ & _). unfold legacyUniquenessKey, cleanRequest. by rewrite Hc, Hs, Ha.
Qed.

(** ** Lane scopes *)

(** [s'] claims no more lanes than [s]. *)
Definition scope_le (s' s : PromoteLaneConflictScope) : Prop :=
  sc_legacyKey s' = sc_legacyKey s /\ sc_lane s' = sc_lane s /\
  (sc_missingMatchesAnyLane s' = true -> sc_missingMatchesAnyLane s = true).

Lemma scopes_conflict_le a s' s :
  scope_le s' s -> promoteLaneScopesConflict a s' = true -> promoteLaneScopesConflict a s = true.
Proof.
  intros (Hk & Hl & Hm). unfold promoteLaneScopesConflict. rewrite Hk, Hl.
  rewrite !andb_true_iff, !orb_true_iff. naive_solver.
Qed.

Lemma scopes_conflict_sym a b : promoteLaneScopesConflict a b = promoteLaneScopesConflict b a.
Proof.
  unfold promoteLaneScopesConflict. rewrite (String.eqb_sym (sc_legacyKey a)), (String.eqb_sym (sc_lane a)).
  f_equal. rewrite <- !orb_assoc. f_equal. apply orb_comm.
Qed.

(** ** Records *)

(** A record the queue can read: a recovery binding is complete and of the
    current format, and the identifiers are clean. *)
Definition wfJob (job : PromoteJob) : Prop :=
  (hasBinding job = true -> isBoundPromoteJob job = true) /\ cleanRequest (request job) = true.

Lemma stored_scope_same job job' :
  sameScope (request job) (request job') ->
  (usesLegacyWildcardLane job' = true -> usesLegacyWildcardLane job = true) ->
  scope_le (storedPromoteLaneScope job') (storedPromoteLaneScope job).
Proof.
  intros Hs Hw. destruct (sameScope_keys _ _ Hs) as [Hk _]. destruct Hs as (_ & _ & _ & _ & Hl).
  unfold storedPromoteLaneScope, promoteLaneConflictScope. split; [done|]. split; simpl; [done|].
  rewrite Hl, !andb_true_iff. naive_solver.
Qed.

Lemma scope_le_refl s : scope_le s s.
Proof. by repeat split. Qed.

Lemma current_not_wildcard job : formatVersion job = Some 4%Z -> usesLegacyWildcardLane job = false.
Proof. intros H. unfold usesLegacyWildcardLane, version. by rewrite H. Qed.

Lemma bound_format job : isBoundPromoteJob job = true -> formatVersion job = Some 4%Z.
Proof. unfold isBoundPromoteJob. by intros [H%bool_decide_eq_true _]%andb_true_iff. Qed.

Lemma bound_has_binding job : isBoundPromoteJob job = true -> hasBinding job = true.
Proof.
  unfold isBoundPromoteJob, isBoundPromoteRequest, hasBinding. rewrite !andb_true_iff.
  destruct (recoveryBinding (request job)); naive_solver.
Qed.

(** ** Steps of one record *)

Section Machine.
Context (cfg : QueueConfig).

(** A lease is held: the record runs under this token and has not expired. *)
Definition leaseHeld (job : PromoteJob) (token : string) (now : Z) : Prop :=
  state job = running /\
  exists l, lease job = Some l /\ ls_claimToken l = token /\ (now < ls_expiresAt l)%Z.

(** A lease has run out. *)
Definition leaseExpired (job : PromoteJob) (now : Z) : Prop :=
  state job = running /\ (default 0 (ls_expiresAt <$> lease job) <= now)%Z.

Inductive JobStep : PromoteJob -> PromoteJob -> Prop :=
| step_claim job worker now token :
    claimCandidate now job = true ->
    JobStep job (claimPromoteJob job worker now (c_leaseMs cfg) token)
| step_heartbeat job token now1 now2 :
    leaseHeld job token now1 -> JobStep job (refreshedJob cfg job now2)
| step_mark job token now1 now2 s :
    leaseHeld job token now1 -> JobStep job (markedJob job s now2)
| step_bind job token now1 now2 binding bound :
    leaseHeld job token now1 -> bindUnstartedPromoteJob job binding now2 = Ok bound -> JobStep job bound
| step_succeed job token now1 now2 r done_ :
    leaseHeld job token now1 ->
    promoteSuccessTransition (c_sealDigest cfg) job r now2 = Ok done_ -> JobStep job done_
| step_fail job token now1 now2 error :
    leaseHeld job token now1 ->
    JobStep job (fst (promoteFailureTransition job error now2 (c_backoff cfg)))
| step_cancel job job' :
    state job = queued -> hasUnfinishedBoundObligation job = false ->
    request job' = request job -> formatVersion job' = formatVersion job ->
    state job' = failed -> reason job' = Some "cancelled"%string -> lease job' = None ->
    jobId job' = jobId job -> commitMarker job' = commitMarker job -> JobStep job job'
| step_recover job r now :
    state job = failed -> isRetiredBoundRejection job = false -> requiresManualInspection job = false ->
    missingStorageLaneForAuthorOnlyJob job = false ->
    snapshotPromoteRequest (request job) = Ok r -> JobStep job (recoveredJob job r now)
| step_reclaim job r now :
    leaseExpired job now -> mayReclaim job = true ->
    snapshotPromoteRequest (request job) = Ok r -> JobStep job (reclaimedJob job r now)
| step_abandon job now why message :
    state job <> succeeded ->
    leaseExpired job now \/
      (missingStorageLaneForAuthorOnlyJob job = true /\
       why = missingStorageLaneReason /\ message = missingStorageLaneMessage) ->
    JobStep job (abandonedJob job now why message)
| step_exhaust job now n :
    isAutomaticallyRecoverablePostCommitFailure job = true ->
    (at_maxRetries (attempt job) <= n)%Z -> JobStep job (exhaustedJob job n now)
| step_requeue job now n at_ :
    isAutomaticallyRecoverablePostCommitFailure job = true ->
    (n < at_maxRetries (attempt job))%Z -> JobStep job (requeuedJob job n now at_).

(** ** Effects on the control graph *)

(** No other record that owns its lane conflicts with the scope. *)
Definition free (jobs : gmap string PromoteJob) (id : string) (s : PromoteLaneConflictScope) : Prop :=
  forall id' job, id' <> id -> jobs !! id' = Some job -> isOwner job = true ->
    promoteLaneScopesConflict (storedPromoteLaneScope job) s = false.

(** What the operations other than a clear do. *)
Inductive change (jobs : gmap string PromoteJob) : gmap string PromoteJob -> Prop :=
| change_admit id r now job :
    jobs !! id = None -> free jobs id (storedPromoteLaneScope job) ->
    snapshotPromoteRequest r = Ok (request job) -> cleanRequest r = true ->
    (job = newJob cfg id (request job) now \/
     (exists worker token, job = claimPromoteJob (newJob cfg id (request job) now) worker now (c_leaseMs cfg) token /\
       isBoundPromoteJob job = true)) ->
    change jobs (<[id := job]> jobs)
| change_update id job job' :
    jobs !! id = Some job -> JobStep job job' ->
    (isOwner job = false -> isOwner job' = true -> free jobs id (storedPromoteLaneScope job')) ->
    change jobs (<[id := job']> jobs)
| change_lose id job :
    jobs !! id = Some job -> hasBinding job = false -> change jobs (delete id jobs).

Inductive effect (jobs : gmap string PromoteJob) : gmap string PromoteJob -> Prop :=
| effect_change jobs' : change jobs jobs' -> effect jobs jobs'
| effect_clear id job :
    jobs !! id = Some job -> isTerminalPromoteJobState (state job) = true ->
    hasUnfinishedBoundObligation job = false -> effect jobs (delete id jobs).

End Machine.

(** ** What every step keeps *)

Section Steps.
Context (cfg : QueueConfig).

Lemma bind_inv job binding now bound :
  bindUnstartedPromoteJob job binding now = Ok bound ->
  recoveryBinding (request job) = None /\ formatVersion job = Some 4%Z /\
  exists r, bound = withRequest job r now /\ sameScope (request job) r /\
    recoveryBinding r = Some binding /\ isBoundPromoteJob bound = true.
Proof.
  unfold bindUnstartedPromoteJob, classifyQueuedSharePreparation.
  destruct (recoveryBinding (request job)) eqn:Eb; intros H; ok_inv; [by subst|].
  destruct (decide (formatVersion job = Some ASYNC_PROMOTE_QUEUE_FORMAT_VERSION)) as [Ec|Ec];
    [|rewrite bool_decide_eq_false_2 in H0 by done; injection H0 as <-; discriminate].
  apply snapshot_scope in H2 as [Hs Hr]. apply negb_false_iff in H3. subst bound.
  split_and!; [done..|]. eexists. split; [done|]. split; [|by split].
  unfold sameScope in *. naive_solver.
Qed.

Lemma unstarted_same job :
  let j := recordUnstartedPromoteAttempt job in
  jobId j = jobId job /\ request j = request job /\ state j = state job /\ lease j = lease job /\
  attempt j = attempt job /\ commitMarker j = commitMarker job /\ reason j = reason job /\
  formatVersion j = formatVersion job /\ enqueuedAt j = enqueuedAt job.
Proof. unfold recordUnstartedPromoteAttempt. case_match; done. Qed.

Lemma fail_same job error now backoff :
  let j := (promoteFailureTransition job error now backoff).1 in
  jobId j = jobId job /\ request j = request job /\ formatVersion j = formatVersion job /\
  commitMarker j = commitMarker job /\ lease j = None /\ (state j = failed_retrying \/ state j = failed).
Proof.
  pose proof (unstarted_same job) as (? & ? & ? & ? & ? & ? & ? & ? & ?).
  unfold promoteFailureTransition. case_match; simpl; split_and!; auto.
Qed.

Lemma success_inv digest job r now done_ :
  promoteSuccessTransition digest job r now = Ok done_ ->
  markerSwmInserted job = Some true /\ jobId done_ = jobId job /\ request done_ = request job /\
  formatVersion done_ = formatVersion job /\ state done_ = succeeded /\ lease done_ = None /\
  commitMarker done_ = commitMarker job /\ result_ done_ = Some r.
Proof.
  unfold promoteSuccessTransition. intros H. ok_inv. subst done_. simpl.
  apply negb_false_iff in H0. split; [|done]. destruct (markerSwmInserted job) as [[]|]; done.
Qed.

(** Either the request is untouched, or the record becomes one of the current
    format with a snapshot of the same request. *)
Lemma step_request job job' :
  JobStep cfg job job' ->
  jobId job' = jobId job /\
  ((request job' = request job /\ formatVersion job' = formatVersion job) \/
   (sameScope (request job) (request job') /\ formatVersion job' = Some 4%Z /\
    ((recoveryBinding (request job') = recoveryBinding (request job) /\
      (isBoundPromoteRequest (request job) = true -> isBoundPromoteRequest (request job') = true)) \/
     (hasBinding job = false /\ isBoundPromoteJob job' = true)))).
Proof.
  destruct 1 as [| | |job ???? bound ? Hb|job ???? d ? Hs|job ????|?????????|job r now ???? Hr|
                 job r now ?? Hr| | |]; simpl; auto 10.
  - apply bind_inv in Hb as (Hn & Hf & r & -> & Hs & Hr & Hbd). simpl. split; [done|]. right.
    split_and!; [done..|]. right. split; [unfold hasBinding; by rewrite Hn|done].
  - apply success_inv in Hs as (_ & -> & -> & -> & _). auto.
  - pose proof (fail_same job error now2 (c_backoff cfg)) as (-> & -> & -> & _). auto.
  - split; [done|]. right. destruct (snapshot_scope _ _ Hr) as [? ?].
    split_and!; [done..|]. left. split; [done|]. by apply snapshot_bound.
  - destruct (unstarted_same job) as [Hid _]. split; [done|]. right.
    destruct (snapshot_scope _ _ Hr) as [? ?]. split_and!; [done..|]. left. split; [done|]. by apply snapshot_bound.
Qed.

Lemma step_scope job job' :
  JobStep cfg job job' -> scope_le (storedPromoteLaneScope job') (storedPromoteLaneScope job).
Proof.
  intros [_ [[Hr Hf]|(Hs & Hf & _)]]%step_request.
  - assert (storedPromoteLaneScope job' = storedPromoteLaneScope job) as ->; [|apply scope_le_refl].
    unfold storedPromoteLaneScope, usesLegacyWildcardLane, version. by rewrite Hr, Hf.
  - apply stored_scope_same; [done|]. rewrite current_not_wildcard by done. done.
Qed.

Lemma step_wf job job' : JobStep cfg job job' -> wfJob job -> wfJob job'.
Proof.
  intros [_ [[Hr Hf]|(Hs & Hf & Hb)]]%step_request [Hw Hc]; unfold wfJob, hasBinding, isBoundPromoteJob in *.
  - by rewrite Hr, Hf.
  - rewrite (proj2 (sameScope_keys _ _ Hs)). split; [|done]. destruct Hb as [[Hb Hbd]|[_ ?]]; [|done].
    rewrite Hb, Hf. intros H. apply Hw, andb_true_iff in H as [_ H].
    rewrite bool_decide_eq_true_2 by done. by apply Hbd.
Qed.

Lemma step_binding job job' b :
  JobStep cfg job job' -> wfJob job -> recoveryBinding (request job) = Some b ->
  recoveryBinding (request job') = Some b.
Proof.
  intros [_ [[Hr _]|(_ & _ & [[Hb _]|[Hn _]])]]%step_request _ H; [by rewrite Hr|by rewrite Hb|].
  unfold hasBinding in Hn. by rewrite H in Hn.
Qed.

End Steps.

(** ** Invariants of the control graph *)

Section Invariants.
Context (cfg : QueueConfig).
Implicit Types jobs : gmap string PromoteJob.

Definition wf jobs : Prop :=
  forall id job, jobs !! id = Some job -> jobId job = id /\ wfJob job.

(** No two records that own their lanes conflict. *)
Definition oneOwner jobs : Prop :=
  forall id job, jobs !! id = Some job -> isOwner job = true -> free jobs id (storedPromoteLaneScope job).

(** Exactly the running records carry a lease. *)
Definition leasesRunning jobs : Prop :=
  forall id job, jobs !! id = Some job -> (is_Some (lease job) <-> state job = running).

Lemma free_insert jobs id job id' s :
  free jobs id' s ->
  (id <> id' -> isOwner job = true -> promoteLaneScopesConflict (storedPromoteLaneScope job) s = false) ->
  free (<[id := job]> jobs) id' s.
Proof.
  intros Hf Hj id2 job2 Hne. destruct (decide (id2 = id)) as [->|Hid].
  - rewrite lookup_insert_eq. intros [= <-] Ho. by apply Hj.
  - rewrite lookup_insert_ne by done. by apply Hf.
Qed.

Lemma free_delete jobs id id' s : free jobs id' s -> free (delete id jobs) id' s.
Proof. intros Hf id2 job2 Hne [_ H]%lookup_delete_Some. by eapply Hf. Qed.

Lemma free_le jobs id s s' : free jobs id s -> scope_le s' s -> free jobs id s'.
Proof.
  intros Hf Hle id2 job2 Hne Hl Ho. specialize (Hf _ _ Hne Hl Ho).
  apply not_true_iff_false. intros Hc. apply (scopes_conflict_le _ _ _ Hle) in Hc. congruence.
Qed.

(** Writing a record whose scope is free keeps the lanes apart. *)
Lemma oneOwner_insert jobs id job :
  oneOwner jobs -> (isOwner job = true -> free jobs id (storedPromoteLaneScope job)) ->
  oneOwner (<[id := job]> jobs).
Proof.
  intros Hone Hfree id' job' Hl Ho. destruct (decide (id' = id)) as [->|Hid].
  - rewrite lookup_insert_eq in Hl. injection Hl as <-. apply free_insert; [by apply Hfree|done].
  - rewrite lookup_insert_ne in Hl by done. apply free_insert; [by eapply Hone|].
    intros _ Ho'. rewrite scopes_conflict_sym. by apply (Hfree Ho' id' job').
Qed.

Lemma admitted_request job r0 r :
  snapshotPromoteRequest r0 = Ok r -> cleanRequest r0 = true -> request job = r ->
  formatVersion job = Some 4%Z -> wfJob job.
Proof.
  intros Hs Hc Hr Hf. pose proof (snapshot_scope _ _ Hs) as [Hss Hb]. split.
  - unfold hasBinding, isBoundPromoteJob. rewrite Hr, Hf, Hb.
    rewrite bool_decide_eq_true_2 by done. destruct (recoveryBinding r0) eqn:E; [intros _; simpl|done].
    eapply snapshot_bound; [done|]. unfold snapshotPromoteRequest in Hs. rewrite E in Hs. ok_inv.
    by apply negb_false_iff.
  - rewrite Hr. by rewrite (proj2 (sameScope_keys _ _ Hss)).
Qed.

Lemma effect_wf jobs jobs' : effect cfg jobs jobs' -> wf jobs -> wf jobs'.
Proof.
  intros He Hwf. destruct He as [? [id r now job _ _ Hs Hc Hj|id job job' Hl Hst _|id job Hl _]|id job Hl _ _];
    intros id' job2; try (intros [_ H]%lookup_delete_Some; by apply Hwf).
  - destruct (decide (id' = id)) as [->|Hid]; [|rewrite lookup_insert_ne by done; apply Hwf].
    rewrite lookup_insert_eq. intros [= <-].
    assert (jobId job = id /\ formatVersion job = Some 4%Z) as [Hid Hf]
      by (destruct Hj as [->|(? & ? & -> & _)]; done).
    split; [done|]. by eapply admitted_request.
  - destruct (decide (id' = id)) as [->|Hid]; [|rewrite lookup_insert_ne by done; apply Hwf].
    rewrite lookup_insert_eq. intros [= <-]. destruct (Hwf _ _ Hl) as [Hid Hw].
    split; [by rewrite (proj1 (step_request _ _ _ Hst))|by eapply step_wf].
Qed.

Lemma effect_oneOwner jobs jobs' : effect cfg jobs jobs' -> oneOwner jobs -> oneOwner jobs'.
Proof.
  intros He Hone. destruct He as [? [id r now job _ Hf _ _ _|id job job' Hl Hst Hf|id job Hl _]|id job Hl _ _].
  - by apply oneOwner_insert.
  - apply oneOwner_insert; [done|]. intros Ho'. destruct (isOwner job) eqn:Ho; [|by apply Hf].
    eapply free_le; [by eapply Hone|by eapply step_scope].
  - intros id' job' [Hne H]%lookup_delete_Some Ho. apply free_delete. by eapply Hone.
  - intros id' job' [Hne H]%lookup_delete_Some Ho. apply free_delete. by eapply Hone.
Qed.

Lemma step_leases job job' :
  JobStep cfg job job' -> (is_Some (lease job) <-> state job = running) ->
  (is_Some (lease job') <-> state job' = running).
Proof.
  destruct 1 as [| | |job ???? bound ? Hb|job ???? d ? Hs|job ????|job job' ?? _ _ Hst _ Hl _ _|?????|?????| |
                 job now n Ha _|]; simpl; intros Hi; try (split; [by intros [? [=]]|done]).
  - by rewrite fmap_is_Some.
  - done.
  - apply bind_inv in Hb as (_ & _ & r & -> & _). done.
  - apply success_inv in Hs as (_ & _ & _ & _ & -> & -> & _). split; [by intros [? [=]]|done].
  - pose proof (fail_same job error now2 (c_backoff cfg)) as (_ & _ & _ & _ & -> & Hst).
    split; [by intros [? [=]]|]. intros Hc. destruct Hst; congruence.
  - rewrite Hst, Hl. split; [by intros [? [=]]|done].
  - done.
Qed.

Lemma effect_leases jobs jobs' : effect cfg jobs jobs' -> leasesRunning jobs -> leasesRunning jobs'.
Proof.
  intros He Hi. destruct He as [? [id r now job _ _ _ _ Hj|id job job' Hl Hst _|id job Hl _]|id job Hl _ _];
    intros id' job2; try (intros [_ H]%lookup_delete_Some; by eapply Hi).
  - destruct (decide (id' = id)) as [->|Hid]; [|rewrite lookup_insert_ne by done; apply Hi].
    rewrite lookup_insert_eq. intros [= <-].
    destruct Hj as [->|(? & ? & -> & _)]; simpl; split; done.
  - destruct (decide (id' = id)) as [->|Hid]; [|rewrite lookup_insert_ne by done; apply Hi].
    rewrite lookup_insert_eq. intros [= <-]. eapply step_leases; [done|by eapply Hi].
Qed.

Lemma step_from job job' : JobStep cfg job job' -> state job <> succeeded.
Proof.
  destruct 1; unfold leaseHeld, leaseExpired, claimCandidate, isAutomaticallyRecoverablePostCommitFailure in *;
    intros Hs; rewrite ?Hs in *; simpl in *;
    repeat match goal with H : (_ && _) = true |- _ => apply andb_true_iff in H as [? ?] end; naive_solver.
Qed.

(** A record succeeds only with its insert into shared memory recorded. *)
Lemma step_succeeded job job' :
  JobStep cfg job job' -> state job' = succeeded -> markerSwmInserted job' = Some true.
Proof.
  destruct 1 as [| | |job ???? bound [Hst _] Hb|job ???? d ? Hs|job ????|job job' ?? _ _ Hst _ Hl _ _|?????|?????| |
                 job now n Ha _|]; simpl; try done.
  - intros Hs. destruct H as [Hr _]. congruence.
  - intros Hs. destruct H as [Hr _]. congruence.
  - apply bind_inv in Hb as (_ & _ & r & -> & _). simpl. by rewrite Hst.
  - apply success_inv in Hs as (Hm & _ & _ & _ & _ & _ & Hc & _). unfold markerSwmInserted in *. by rewrite Hc.
  - pose proof (fail_same job error now2 (c_backoff cfg)) as (_ & _ & _ & _ & _ & Hst).
    intros. destruct Hst; congruence.
  - congruence.
  - unfold isAutomaticallyRecoverablePostCommitFailure in Ha. intros Hs. by rewrite Hs in Ha.
Qed.

(** Succeeded records recorded their insert. *)
Definition successRecorded jobs : Prop :=
  forall id job, jobs !! id = Some job -> state job = succeeded -> markerSwmInserted job = Some true.

Lemma effect_success jobs jobs' : effect cfg jobs jobs' -> successRecorded jobs -> successRecorded jobs'.
Proof.
  intros He Hi. destruct He as [? [id r now job _ _ _ _ Hj|id job job' Hl Hst _|id job Hl _]|id job Hl _ _];
    intros id' job2; try (intros [_ H]%lookup_delete_Some; by eapply Hi).
  - destruct (decide (id' = id)) as [->|Hid]; [|rewrite lookup_insert_ne by done; apply Hi].
    rewrite lookup_insert_eq. intros [= <-]. destruct Hj as [->|(? & ? & -> & _)]; done.
  - destruct (decide (id' = id)) as [->|Hid]; [|rewrite lookup_insert_ne by done; apply Hi].
    rewrite lookup_insert_eq. intros [= <-]. by eapply step_succeeded.
Qed.

(** What an effect does to one record. *)
Lemma effect_row jobs jobs' id job :
  effect cfg jobs jobs' -> jobs !! id = Some job ->
  jobs' !! id = None \/ jobs' !! id = Some job \/
  (exists job', jobs' !! id = Some job' /\ JobStep cfg job job').
Proof.
  intros He Hl. destruct He as [? [id2 r now job2 Hn _ _ _ _|id2 job2 job' Hl2 Hst _|id2 job2 Hl2 _]|id2 job2 Hl2 _ _].
  - right; left. rewrite lookup_insert_ne by congruence. done.
  - right. destruct (decide (id2 = id)) as [->|Hid]; [right|left; by rewrite lookup_insert_ne].
    exists job'. rewrite lookup_insert_eq. split; [done|]. by replace job with job2 by congruence.
  - destruct (decide (id2 = id)) as [->|Hid]; [left; apply lookup_delete_eq|right; left; by rewrite lookup_delete_ne].
  - destruct (decide (id2 = id)) as [->|Hid]; [left; apply lookup_delete_eq|right; left; by rewrite lookup_delete_ne].
Qed.

(** A property of records that every step keeps holds until the record is
    removed from the graph. *)
Lemma kept_until_removed (P : PromoteJob -> Prop) jobs jobs' id job :
  (forall j j', JobStep cfg j j' -> P j -> P j') ->
  rtc (effect cfg) jobs jobs' -> jobs !! id = Some job -> P job ->
  (exists job', jobs' !! id = Some job' /\ P job') \/
  (exists jobs1, rtc (effect cfg) jobs jobs1 /\ rtc (effect cfg) jobs1 jobs' /\ jobs1 !! id = None).
Proof.
  intros HP Hrtc. revert job. induction Hrtc as [jobs|jobs jobs1 jobs' He Hrtc IH]; intros job Hl Hj; [eauto|].
  assert (jobs1 !! id = None \/ exists job1, jobs1 !! id = Some job1 /\ P job1) as [Hn|(job1 & Hl1 & Hj1)].
  { destruct (effect_row _ _ _ _ He Hl) as [?|[?|(job1 & ? & ?)]]; eauto. }
  - right. exists jobs1. split; [by apply rtc_once|done].
  - destruct (IH job1) as [?|(j2 & ? & ? & ?)]; [done|done|by left|].
    right. exists j2. split; [by eapply rtc_l|done].
Qed.

Lemma change_wf jobs jobs' : change cfg jobs jobs' -> wf jobs -> wf jobs'.
Proof. intros Hc. by apply effect_wf, effect_change. Qed.

(** A change keeps a bound record with its binding. *)
Lemma change_bound jobs jobs' id job b :
  change cfg jobs jobs' -> wf jobs -> jobs !! id = Some job -> recoveryBinding (request job) = Some b ->
  exists job', jobs' !! id = Some job' /\ recoveryBinding (request job') = Some b /\ (job' = job \/ JobStep cfg job job').
Proof.
  intros Hc Hwf Hl Hb. destruct Hc as [id2 r now job2 Hn _ _ _ _|id2 job2 job' Hl2 Hst _|id2 job2 Hl2 Hnb].
  - exists job. rewrite lookup_insert_ne by congruence. auto.
  - destruct (decide (id2 = id)) as [->|Hid]; [|exists job; rewrite lookup_insert_ne by done; auto].
    exists job'. rewrite lookup_insert_eq. replace job2 with job in * by congruence.
    split_and!; [done| |by right]. eapply step_binding; [done| |done]. by apply (Hwf id).
  - exists job. rewrite lookup_delete_ne; [auto|]. intros ->. replace job2 with job in Hnb by congruence.
    unfold hasBinding in Hnb. by rewrite Hb in Hnb.
Qed.

(** The record of a share: its binding, and the insert once it has succeeded. *)
Definition shareRecord (b : PromoteRecoveryBinding) (job : PromoteJob) : Prop :=
  recoveryBinding (request job) = Some b /\ (state job = succeeded -> markerSwmInserted job = Some true).

Lemma changes_share jobs jobs' id job b :
  rtc (change cfg) jobs jobs' -> wf jobs -> jobs !! id = Some job -> shareRecord b job ->
  exists job', jobs' !! id = Some job' /\ shareRecord b job'.
Proof.
  intros Hrtc. revert job. induction Hrtc as [jobs|jobs jobs1 jobs' Hc _ IH]; intros job Hwf Hl [Hb Hs]; [by exists job|].
  destruct (change_bound _ _ _ _ _ Hc Hwf Hl Hb) as (job1 & Hl1 & Hb1 & Hj).
  apply (IH job1); [by eapply change_wf|done|]. split; [done|]. destruct Hj as [->|Hst]; [done|]. by eapply step_succeeded.
Qed.

(** A share is finished when its record has succeeded, with the insert into the
    shared memory recorded, or has failed with a certificate for its seal and
    operation that it had no effect. *)
Definition shareFinished (b : PromoteRecoveryBinding) (job : PromoteJob) : Prop :=
  (state job = succeeded /\ markerSwmInserted job = Some true) \/
  (state job = failed /\ markerSwmInserted job = Some false /\
   exists error proof, at_lastError (attempt job) = Some error /\ ae_noEffectProof error = Some proof /\
     ne_sealDigest proof = rb_sealDigest b /\ ne_operationId proof = oi_operationId (rb_intent b)).

Lemma share_owed b job : shareRecord b job -> hasUnfinishedBoundObligation job = true \/ shareFinished b job.
Proof.
  intros [Hb Hs]. unfold hasUnfinishedBoundObligation. rewrite Hb.
  destruct (decide (state job = succeeded)) as [E|E]; [right; left; auto|]. rewrite bool_decide_eq_false_2 by done.
  destruct (isRetiredBoundRejection job) eqn:Er; [right; right|by left]. unfold isRetiredBoundRejection, canRetireBoundRejection in Er.
  apply andb_true_iff in Er as [Hf%bool_decide_eq_true Er]. destruct (at_lastError (attempt job)) as [error|] eqn:Ee; [|done].
  rewrite Hb in Er. rewrite !andb_true_iff, !bool_decide_eq_true in Er. destruct Er as [_ [[[_ Hm] _] Hp]].
  destruct (ae_noEffectProof error) as [proof|] eqn:Ep; [|done]. apply andb_true_iff in Hp as [H1%String.eqb_eq H2%String.eqb_eq].
  split_and!; [done|done|]. by exists error, proof.
Qed.

(** A failed record that needs inspection stays one. *)
Definition parked (job : PromoteJob) : Prop :=
  state job = failed /\ requiresManualInspection job = true.

Lemma step_parked job job' : JobStep cfg job job' -> parked job -> parked job'.
Proof.
  intros Hst [Hs Hm]. destruct Hst as [? ? ? ? Hc| | | | | | | | | |? ? ? Ha _|? ? ? ? Ha _];
    unfold leaseHeld, leaseExpired in *; try naive_solver congruence.
  - unfold claimCandidate in Hc. rewrite Hs in Hc. simpl in Hc. by rewrite andb_false_r in Hc.
  - destruct H0 as [[? _]|(_ & -> & ->)]; [congruence|]. split; [done|]. reflexivity.
  - unfold isAutomaticallyRecoverablePostCommitFailure in Ha. rewrite Hm in Ha. by rewrite andb_false_r in Ha.
  - unfold isAutomaticallyRecoverablePostCommitFailure in Ha. rewrite Hm in Ha. by rewrite andb_false_r in Ha.
Qed.

End Invariants.
