(* ===== verification/PromoteQueueTheory.v ===== *)
(** * Theorems on the async promote queue

    Every operation of the queue but a clear, whatever the store answers, is a
    sequence of changes of the promote job machine (PromoteMachine.v), and a clear
    removes at most its own record; so the machine's invariants hold of every
    reachable queue.  Histories of operations and the queues between them. *)

From S2P Require Import Prelude JsString PromoteJob PromotePolicy PromoteQueue PromoteMachine.

(** ** Parts that do not touch the records *)

Lemma invalidate_jobs id q : q_jobs (invalidate id q).2 = q_jobs q.
Proof. done. Qed.

Lemma observe_run job q : exists q', observe job q = (Ok tt, q') /\ q_jobs q' = q_jobs q.
Proof. unfold observe, modify. case_match; by eexists. Qed.

Lemma forM_observe_run jobs q : exists q', forM jobs observe q = (Ok tt, q') /\ q_jobs q' = q_jobs q.
Proof.
  revert q. induction jobs as [|job jobs IH]; intros q; [by eexists|].
  cbn [forM]. unfold bindM. destruct (observe_run job q) as (q1 & -> & <-).
  destruct (IH q1) as (q2 & -> & <-). by eexists.
Qed.

Lemma requireJob_run id q :
  exists r q', requireJob id q = (r, q') /\ q_jobs q' = q_jobs q /\
    match r with
    | Ok job => q_jobs q !! id = Some job
    | Err e => q_jobs q !! id = None /\ e = JobNotFound id
    end.
Proof.
  unfold requireJob, readJob, bindM, get. destruct (q_jobs q !! id) as [job|] eqn:E.
  - destruct (observe_run job q) as (q1 & -> & Hq). exists (Ok job), q1. done.
  - eexists _, _. split; [reflexivity|]. done.
Qed.

Lemma rows_lookup q job : wf (q_jobs q) -> job ∈ rows q <-> q_jobs q !! jobId job = Some job.
Proof.
  intros Hwf. unfold rows. rewrite list_elem_of_fmap. split.
  - intros ([id j] & -> & H). apply elem_of_map_to_list in H. simpl. by rewrite (proj1 (Hwf _ _ H)).
  - intros H. exists (jobId job, job). split; [done|]. by apply elem_of_map_to_list.
Qed.

Lemma rows_NoDup q : wf (q_jobs q) -> NoDup (jobId <$> rows q).
Proof.
  intros Hwf. unfold rows. rewrite <- list_fmap_compose.
  rewrite (list_fmap_ext _ fst); [apply NoDup_fst_map_to_list|].
  intros i [id job] H. simpl. apply list_elem_of_lookup_2, elem_of_map_to_list in H.
  by destruct (Hwf _ _ H).
Qed.

(** ** Conflict lookups *)

Section Lookups.
Context (cfg : QueueConfig).
Hypothesis payload_mentions_binding :
  forall job, hasBinding job = true -> c_payloadContains cfg job "recoveryBinding" = true.

Lemma setOf_elem x seen l : x ∈ l -> x ∉ seen -> x ∈ setOf seen l.
Proof.
  revert seen. induction l as [|y l IH]; intros seen; [by intros ?%not_elem_of_nil|].
  rewrite elem_of_cons. intros Hx Hs. simpl. case_bool_decide.
  - destruct Hx as [->|Hx]; [done|by apply IH].
  - apply elem_of_cons. destruct (decide (x = y)); [by left|right]. apply IH; set_solver.
Qed.

Lemma owner_not_succeeded job : isOwner job = true -> state job <> succeeded.
Proof.
  unfold isOwner, isActivePromoteState, hasUnfinishedBoundObligation. intros H Hs. rewrite Hs in H.
  simpl in H. by rewrite andb_false_r in H.
Qed.

Lemma owner_failed_binding job : isOwner job = true -> state job = failed -> hasBinding job = true.
Proof.
  unfold isOwner, isActivePromoteState, hasUnfinishedBoundObligation, hasBinding. intros H Hs.
  rewrite Hs in H. simpl in H. by destruct (recoveryBinding (request job)).
Qed.

(** Every owner that conflicts with a lookup is among its candidates. *)
Lemma candidate_complete r w job :
  cleanRequest r = true -> cleanRequest (request job) = true -> isOwner job = true ->
  promoteLaneScopesConflict (storedPromoteLaneScope job) (promoteLaneConflictScope r w) = true ->
  candidateRow cfg (promoteOwnershipLookup r w) job = true.
Proof.
  intros Hr Hj Ho Hc. unfold candidateRow. apply andb_true_iff. split; [apply andb_true_iff; split|].
  - unfold promoteLaneScopesConflict in Hc. apply andb_true_iff in Hc as [Hk Hl].
    apply String.eqb_eq in Hk. simpl in Hk. destruct w; simpl.
    + destruct (legacyKey_inj _ _ Hj Hr Hk) as [-> ->]. by rewrite !String.eqb_refl.
    + apply bool_decide_eq_true. unfold uniquenessLookupKeys.
      apply setOf_elem; [|apply not_elem_of_nil].
      simpl in Hl. rewrite andb_false_r, orb_false_r in Hl. apply orb_true_iff in Hl as [Hl|Hl].
      * apply String.eqb_eq in Hl. apply elem_of_cons. left. unfold uniquenessKey. by rewrite Hk, Hl.
      * apply andb_true_iff in Hl as [Hl _]. unfold nonEmpty in Hl.
        apply negb_true_iff, negb_false_iff, bool_decide_eq_true in Hl.
        do 2 (apply elem_of_cons; right). apply elem_of_cons. left. unfold uniquenessKey. rewrite Hk, Hl.
        done.
  - apply negb_true_iff, bool_decide_eq_false. by apply owner_not_succeeded.
  - destruct (decide (state job = failed)) as [Hf|Hf]; apply orb_true_iff; [right|left].
    + apply payload_mentions_binding. by apply owner_failed_binding.
    + by apply negb_true_iff, bool_decide_eq_false.
Qed.

Lemma findActiveConflict_run r w exclude q :
  wf (q_jobs q) -> cleanRequest r = true ->
  exists c q', findActiveConflict cfg (promoteOwnershipLookup r w) exclude q = (Ok c, q') /\
    q_jobs q' = q_jobs q /\
    (c = None -> forall id job, q_jobs q !! id = Some job -> exclude <> Some id -> isOwner job = true ->
       promoteLaneScopesConflict (storedPromoteLaneScope job) (promoteLaneConflictScope r w) = false).
Proof.
  intros Hwf Hr. unfold findActiveConflict, bindM, get.
  destruct (findPendingConflict _ _ _) as [f|]; [by eexists _, _|].
  destruct (forM_observe_run (readPromoteOwnershipCandidates cfg q (promoteOwnershipLookup r w)) q)
    as (q1 & -> & Hq). eexists _, _. split; [reflexivity|]. split; [done|].
  intros Hn id job Hl Hex Ho. apply not_true_iff_false. intros Hc.
  destruct (Hwf _ _ Hl) as [Hid [_ Hcl]]. apply fmap_None in Hn.
  apply List.find_none with (x := job) in Hn.
  - apply andb_false_iff in Hn as [Hn|Hn]; [|congruence].
    apply negb_false_iff, bool_decide_eq_true in Hn. congruence.
  - apply list_elem_of_In. unfold readPromoteOwnershipCandidates. apply list_elem_of_filter.
    split; [done|]. apply list_elem_of_filter. split; [by apply candidate_complete|].
    apply rows_lookup; [done|]. by rewrite Hid.
Qed.

End Lookups.

(** ** Writes *)

Lemma persist_run job q :
  exists p q', persistPromoteJobWithEvidence job q = (Ok p, q') /\
    (q_jobs q' = <[jobId job := job]> (q_jobs q) \/
     p <> PersistOk /\ (q_jobs q' = q_jobs q \/
       (hasBinding job = false /\ q_jobs q' = delete (jobId job) (q_jobs q)))).
Proof.
  unfold persistPromoteJobWithEvidence, nextReply, bindM, modify, ret.
  destruct (hasBinding job) eqn:Hb, (isBoundPromoteJob job); simpl;
    destruct (q_replies q) as [|[] replies]; simpl; eexists _, _; (split; [reflexivity|]); simpl; auto.
Qed.

Lemma write_run job q :
  exists p q', writeJobWithEvidence job q = (Ok p, q') /\
    (q_jobs q' = <[jobId job := job]> (q_jobs q) \/
     p <> PersistOk /\ (q_jobs q' = q_jobs q \/
       (hasBinding job = false /\ q_jobs q' = delete (jobId job) (q_jobs q)))).
Proof.
  unfold writeJobWithEvidence, bindM at 1 2 3, modify, invalidate, modify.
  match goal with |- context [persistPromoteJobWithEvidence job ?q0] =>
    destruct (persist_run job q0) as (p & q1 & -> & Hp) end.
  destruct p; [|by eexists _, _..]. unfold bindM. destruct (observe_run job q1) as (q2 & -> & Hq).
  eexists _, _. split; [reflexivity|]. rewrite Hq. destruct Hp as [Hp|[Hp _]]; [by left|done].
Qed.

(** A write changes no other record. *)
Lemma write_frame job q id :
  id <> jobId job -> q_jobs (writeJobWithEvidence job q).2 !! id = q_jobs q !! id.
Proof.
  intros Hne. destruct (write_run job q) as (p & q' & -> & Hq). simpl.
  destruct Hq as [-> |[_ [-> |[_ ->]]]]; [by rewrite lookup_insert_ne|done|by rewrite lookup_delete_ne].
Qed.

Section Refinement.
Context (cfg : QueueConfig).

(** [q'] is reached from [q] by changes of the machine. *)
Definition refinesFrom (q q' : QueueState) : Prop := rtc (change cfg) (q_jobs q) (q_jobs q').

Lemma write_update job job' q :
  q_jobs q !! jobId job = Some job -> JobStep cfg job job' ->
  (isOwner job = false -> isOwner job' = true -> free (q_jobs q) (jobId job) (storedPromoteLaneScope job')) ->
  refinesFrom q (writeJobWithEvidence job' q).2.
Proof.
  intros Hl Hst Hf. destruct (write_run job' q) as (p & q' & -> & Hq). unfold refinesFrom. simpl.
  destruct (step_request _ _ _ Hst) as [Hid Hreq]. rewrite Hid in Hq.
  destruct Hq as [-> |[_ [-> |[Hb ->]]]].
  - apply rtc_once. by eapply change_update.
  - done.
  - apply rtc_once. eapply change_lose; [done|]. unfold hasBinding in *.
    destruct Hreq as [[<- _]|(_ & _ & [[<- _]|[Hn _]])]; [done|done|done].
Qed.

Lemma write_admit id r0 r now job q :
  q_jobs q !! id = None -> free (q_jobs q) id (storedPromoteLaneScope job) ->
  snapshotPromoteRequest r0 = Ok r -> cleanRequest r0 = true ->
  (job = newJob cfg id r now \/
   (exists worker token, job = claimPromoteJob (newJob cfg id r now) worker now (c_leaseMs cfg) token /\
      isBoundPromoteJob job = true)) ->
  refinesFrom q (writeJobWithEvidence job q).2.
Proof.
  intros Hn Hf Hs Hc Hj. destruct (write_run job q) as (p & q' & -> & Hq). unfold refinesFrom. simpl.
  assert (jobId job = id /\ request job = r) as [Hid Hr] by (destruct Hj as [->|(? & ? & -> & _)]; done).
  rewrite Hid in Hq. destruct Hq as [-> |[_ [-> |[_ ->]]]]; [|done|by rewrite delete_id].
  apply rtc_once. eapply change_admit; rewrite ?Hr; done.
Qed.

Lemma writeJob_state job q : (writeJob job q).2 = (writeJobWithEvidence job q).2.
Proof. unfold writeJob, bindM. destruct (writeJobWithEvidence job q) as [[[]|] q']; done. Qed.

Lemma writeOrUncertain_state job q : (writeOrUncertain job q).2 = (writeJobWithEvidence job q).2.
Proof. unfold writeOrUncertain, bindM. destruct (writeJobWithEvidence job q) as [[[]|] q']; done. Qed.

End Refinement.

(** ** A program logic for the operations

    [runs m q Q]: from [q], [m] has only effects of the machine, and when it
    returns a value the value and the final state satisfy [Q]. *)

Section Logic.
Context (cfg : QueueConfig).
Hypothesis payload_mentions_binding :
  forall job, hasBinding job = true -> c_payloadContains cfg job "recoveryBinding" = true.

Definition runs {A : Type} (m : M A) (q : QueueState) (Q : A -> QueueState -> Prop) : Prop :=
  match m q with
  | (Ok a, q') => refinesFrom cfg q q' /\ Q a q'
  | (Err _, q') => refinesFrom cfg q q'
  end.

Lemma refines_wf q q' : refinesFrom cfg q q' -> wf (q_jobs q) -> wf (q_jobs q').
Proof. unfold refinesFrom. induction 1; [done|]. intros. apply IHrtc. by eapply change_wf. Qed.

Lemma refines_same q q' : q_jobs q' = q_jobs q -> refinesFrom cfg q q'.
Proof. unfold refinesFrom. by intros ->. Qed.

Lemma runs_bind {A B} (m : M A) (k : A -> M B) q Q R :
  runs m q Q -> (forall a q', refinesFrom cfg q q' -> Q a q' -> runs (k a) q' R) -> runs (bindM m k) q R.
Proof.
  unfold runs, bindM. destruct (m q) as [[a|e] q1]; [|done]. intros [Hr HQ] Hk.
  specialize (Hk a q1 Hr HQ). destruct (k a q1) as [[b|e] q2]; [destruct Hk; split; [|done]|];
    unfold refinesFrom in *; by etrans.
Qed.

Lemma runs_conseq {A} (m : M A) q Q R :
  runs m q Q -> (forall a q', refinesFrom cfg q q' -> Q a q' -> R a q') -> runs m q R.
Proof. unfold runs. destruct (m q) as [[a|e] q']; naive_solver. Qed.

Lemma runs_ret {A} (a : A) q (Q : A -> QueueState -> Prop) : Q a q -> runs (ret a) q Q.
Proof. intros HQ. split; [by apply refines_same|done]. Qed.

Lemma runs_raise {A} e q (Q : A -> QueueState -> Prop) : runs (raise e) q Q.
Proof. by apply refines_same. Qed.

Lemma runs_lift {A} r q (Q : A -> QueueState -> Prop) : (forall a, r = Ok a -> Q a q) -> runs (lift r) q Q.
Proof. unfold runs, lift. destruct r as [a|e]; intros H; [split; [|by apply H]|]; by apply refines_same. Qed.

Lemma runs_get q (Q : QueueState -> QueueState -> Prop) : Q q q -> runs get q Q.
Proof. intros HQ. split; [by apply refines_same|done]. Qed.

Lemma runs_modify f q (Q : unit -> QueueState -> Prop) :
  q_jobs (f q) = q_jobs q -> Q tt (f q) -> runs (modify f) q Q.
Proof. intros Hj HQ. split; [by apply refines_same|done]. Qed.

Lemma runs_observes jobs q (Q : unit -> QueueState -> Prop) :
  (forall q', q_jobs q' = q_jobs q -> Q tt q') -> runs (forM jobs observe) q Q.
Proof.
  intros HQ. unfold runs. destruct (forM_observe_run jobs q) as (q' & -> & Hq).
  split; [by apply refines_same|auto].
Qed.

Lemma runs_require id q (Q : PromoteJob -> QueueState -> Prop) :
  (forall job q', q_jobs q' = q_jobs q -> q_jobs q !! id = Some job -> Q job q') ->
  runs (requireJob id) q Q.
Proof.
  intros HQ. unfold runs. destruct (requireJob_run id q) as (r & q' & -> & Hq & Hr).
  destruct r; [split; [|by apply HQ]|]; by apply refines_same.
Qed.

Lemma runs_conflict r w exclude q (Q : option ActivationConflict -> QueueState -> Prop) :
  wf (q_jobs q) -> cleanRequest r = true ->
  (forall c q', q_jobs q' = q_jobs q ->
    (c = None -> forall id, exclude = Some id \/ (exclude = None /\ q_jobs q !! id = None) ->
       free (q_jobs q) id (promoteLaneConflictScope r w)) -> Q c q') ->
  runs (findActiveConflict cfg (promoteOwnershipLookup r w) exclude) q Q.
Proof.
  intros Hwf Hc HQ. unfold runs.
  destruct (findActiveConflict_run cfg payload_mentions_binding r w exclude q Hwf Hc) as (c & q' & -> & Hq & Hf).
  split; [by apply refines_same|]. apply HQ; [done|]. intros -> id Hid id' job Hne Hl Ho.
  eapply Hf; [done|done| |done]. destruct Hid as [->|[-> _]]; congruence.
Qed.

Lemma runs_no_conflict r w exclude q (Q : unit -> QueueState -> Prop) :
  wf (q_jobs q) -> cleanRequest r = true ->
  (forall q', q_jobs q' = q_jobs q ->
    (forall id, exclude = Some id \/ (exclude = None /\ q_jobs q !! id = None) ->
       free (q_jobs q) id (promoteLaneConflictScope r w)) -> Q tt q') ->
  runs (assertNoActiveConflict cfg (promoteOwnershipLookup r w) exclude) q Q.
Proof.
  intros Hwf Hc HQ. unfold assertNoActiveConflict. eapply runs_bind.
  - eapply (runs_conflict _ _ _ _ (fun c q' => q_jobs q' = q_jobs q /\ (c = None -> forall id,
      exclude = Some id \/ (exclude = None /\ q_jobs q !! id = None) ->
      free (q_jobs q) id (promoteLaneConflictScope r w)))); [done|done|]. auto.
  - intros [c|] q' _ [Hq Hf]; [apply runs_raise|]. apply runs_ret, HQ; [done|]. by apply Hf.
Qed.

(** An updating write: the record is the current one and takes a step. *)
Lemma runs_update job job' q (Q : unit -> QueueState -> Prop) :
  q_jobs q !! jobId job = Some job -> JobStep cfg job job' ->
  (isOwner job = false -> isOwner job' = true -> free (q_jobs q) (jobId job) (storedPromoteLaneScope job')) ->
  (forall q', (forall id, id <> jobId job -> q_jobs q' !! id = q_jobs q !! id) -> Q tt q') ->
  runs (writeJob job') q Q.
Proof.
  intros Hl Hst Hf HQ. unfold runs. pose proof (writeJob_state job' q) as Hw.
  pose proof (write_update cfg job job' q Hl Hst Hf) as Hr. rewrite <- Hw in Hr.
  pose proof (proj1 (step_request cfg _ _ Hst)) as Hid.
  assert (forall id, id <> jobId job -> q_jobs (writeJob job' q).2 !! id = q_jobs q !! id) as Hfr.
  { intros id Hne. rewrite Hw. apply write_frame. congruence. }
  destruct (writeJob job' q) as [[[]|e] q']; simpl in *; [split; auto|done].
Qed.

Lemma runs_update_uncertain job job' q (Q : unit -> QueueState -> Prop) :
  q_jobs q !! jobId job = Some job -> JobStep cfg job job' ->
  (isOwner job = false -> isOwner job' = true -> free (q_jobs q) (jobId job) (storedPromoteLaneScope job')) ->
  (forall q', Q tt q') -> runs (writeOrUncertain job') q Q.
Proof.
  intros Hl Hst Hf HQ. unfold runs. pose proof (write_update cfg job job' q Hl Hst Hf) as Hr.
  rewrite <- writeOrUncertain_state in Hr.
  destruct (writeOrUncertain job' q) as [[[]|e] q']; simpl in *; [split; auto|done].
Qed.

End Logic.

(** ** The operations *)

Lemma leaseHeld_ok job token now u : assertLeaseHeld job token now = Ok u -> leaseHeld job token now.
Proof.
  unfold assertLeaseHeld. intros H. ok_inv. destruct (lease job) as [l|] eqn:El; [|done]. ok_inv.
  apply negb_false_iff, bool_decide_eq_true in H0. apply negb_false_iff, String.eqb_eq in H1.
  apply Z.leb_gt in H2. split; [done|]. by exists l.
Qed.

Lemma running_owner job : state job = running -> isOwner job = true.
Proof. unfold isOwner, isActivePromoteState. by intros ->. Qed.

Lemma active_owner job : state job ∈ ACTIVE_PROMOTE_STATES -> isOwner job = true.
Proof. unfold isOwner, isActivePromoteState. intros H. by rewrite bool_decide_eq_true_2. Qed.

Lemma claimCandidate_active now job : claimCandidate now job = true -> state job ∈ ACTIVE_PROMOTE_STATES.
Proof.
  unfold claimCandidate. intros [_ H]%andb_true_iff. apply orb_true_iff in H as [H|H].
  - apply bool_decide_eq_true in H. rewrite H. set_solver.
  - apply andb_true_iff in H as [H _]. apply bool_decide_eq_true in H. rewrite H. set_solver.
Qed.

Lemma active_not_succeeded job : state job ∈ ACTIVE_PROMOTE_STATES -> state job <> succeeded.
Proof. intros H Hs. rewrite Hs in H. unfold ACTIVE_PROMOTE_STATES in H. set_solver. Qed.

Section Operations.
Context (cfg : QueueConfig).
Hypothesis payload_mentions_binding :
  forall job, hasBinding job = true -> c_payloadContains cfg job "recoveryBinding" = true.

Local Abbreviation runs := (runs cfg).
Local Abbreviation any := (fun _ _ => True).

Lemma row_id q id job : wf (q_jobs q) -> q_jobs q !! id = Some job -> jobId job = id.
Proof. intros Hwf Hl. by destruct (Hwf _ _ Hl). Qed.

Lemma runs_row {B} id (k : PromoteJob -> M B) q :
  wf (q_jobs q) ->
  (forall job q', wf (q_jobs q') -> q_jobs q' !! jobId job = Some job -> jobId job = id -> runs (k job) q' any) ->
  runs (let! job := requireJob id in k job) q any.
Proof.
  intros Hwf Hk. eapply runs_bind;
    [apply (runs_require cfg id q (fun job q' => q_jobs q' = q_jobs q /\ q_jobs q !! id = Some job)); auto|].
  intros job q1 _ [Hq Hl]. assert (jobId job = id) as Hid by (by eapply row_id).
  apply Hk; rewrite ?Hq, ?Hid; done.
Qed.

Lemma runs_held {B} id token now1 (k : PromoteJob -> M B) q :
  wf (q_jobs q) ->
  (forall job q', q_jobs q' !! jobId job = Some job -> leaseHeld job token now1 -> runs (k job) q' any) ->
  runs (let! job := requireJob id in let! _ := lift (assertLeaseHeld job token now1) in k job) q any.
Proof.
  intros Hwf Hk. apply runs_row; [done|]. intros job q1 _ Hl _.
  eapply runs_bind; [apply (runs_lift cfg _ q1 (fun _ q' => q' = q1 /\ leaseHeld job token now1))|].
  - intros u Hu. split; [done|by eapply leaseHeld_ok].
  - intros u q2 _ [-> Hh]. by apply Hk.
Qed.

(** A write of the lease holder. *)
Lemma runs_held_update job job' token now q (Q : unit -> QueueState -> Prop) :
  q_jobs q !! jobId job = Some job -> leaseHeld job token now -> JobStep cfg job job' ->
  (forall q', Q tt q') -> runs (writeJob job') q Q.
Proof.
  intros Hl [Hr _] Hst HQ. apply (runs_update cfg job); [done|done| |auto].
  by rewrite running_owner.
Qed.

Lemma runs_heartbeat id token now1 now2 q : wf (q_jobs q) -> runs (heartbeat cfg id token now1 now2) q any.
Proof.
  intros Hwf. apply runs_held; [done|]. intros job q' Hl Hh.
  eapply runs_held_update; [done..|by eapply step_heartbeat|done].
Qed.

Lemma runs_marker id token s now1 now2 q :
  wf (q_jobs q) -> runs (recordCommitMarker id token s now1 now2) q any.
Proof.
  intros Hwf. apply runs_held; [done|]. intros job q' Hl Hh.
  eapply runs_held_update; [done..|by eapply step_mark|done].
Qed.

Lemma runs_lifted {A B} (r : result queue_error A) (k : A -> M B) q :
  (forall a, r = Ok a -> runs (k a) q any) -> runs (let! a := lift r in k a) q any.
Proof.
  intros Hk. eapply runs_bind; [apply (runs_lift cfg r q (fun a q' => q' = q /\ r = Ok a)); auto|].
  intros a q' _ [-> Hr]. by apply Hk.
Qed.

Lemma runs_succeed id token r now1 now2 q :
  wf (q_jobs q) -> runs (succeed cfg id token r now1 now2) q any.
Proof.
  intros Hwf. apply runs_held; [done|]. intros job q' Hl Hh. apply runs_lifted. intros d Hd.
  eapply runs_held_update; [done..|by eapply step_succeed|done].
Qed.

Lemma runs_fail id token error now1 now2 q : wf (q_jobs q) -> runs (fail cfg id token error now1 now2) q any.
Proof.
  intros Hwf. apply runs_held; [done|]. intros job q' Hl Hh.
  pose proof (step_fail cfg job token now1 now2 error Hh) as Hst.
  destruct (promoteFailureTransition job error now2 (c_backoff cfg)) as [job' t]. simpl in Hst.
  eapply runs_bind; [by eapply (runs_held_update job job' _ _ _ any)|]. intros. by apply runs_ret.
Qed.

Lemma runs_bindRecovery id token binding now1 now2 q :
  wf (q_jobs q) -> runs (bindRecovery id token binding now1 now2) q any.
Proof.
  intros Hwf. apply runs_held; [done|]. intros job q' Hl Hh. apply runs_lifted. intros bound Hb.
  eapply runs_bind; [|intros; by apply runs_ret].
  apply (runs_update_uncertain cfg job _ _ any); [done|by eapply step_bind| |done].
  rewrite running_owner; [done|by destruct Hh].
Qed.

Lemma runs_cancel id now q : wf (q_jobs q) -> runs (cancel id now) q any.
Proof.
  intros Hwf. apply runs_row; [done|]. intros job q' _ Hl Hid.
  destruct (hasUnfinishedBoundObligation job) eqn:Ho; [apply runs_raise|].
  destruct (bool_decide (state job = queued)) eqn:Hq; [|apply runs_raise]. simpl.
  apply bool_decide_eq_true in Hq.
  apply (runs_update cfg job); [done|by apply step_cancel| |done].
  rewrite active_owner; [done|]. rewrite Hq. set_solver.
Qed.

(** *** Abandoning and operator recovery *)

Lemma missing_lane_unbound job :
  wfJob job -> missingStorageLaneForAuthorOnlyJob job = true -> hasBinding job = false.
Proof.
  intros [Hw _] Hm. apply not_true_iff_false. intros Hb. apply Hw, bound_format in Hb.
  unfold missingStorageLaneForAuthorOnlyJob, version in Hm. by rewrite Hb in Hm.
Qed.

Lemma abandoned_not_owner job now why message :
  hasBinding job = false -> isOwner (abandonedJob job now why message) = false.
Proof. unfold hasBinding, isOwner, hasUnfinishedBoundObligation. simpl. by case_match. Qed.

Lemma runs_abandonMissing job now q (Q : bool -> QueueState -> Prop) :
  wf (q_jobs q) -> q_jobs q !! jobId job = Some job -> state job <> succeeded ->
  (missingStorageLaneForAuthorOnlyJob job = false -> Q false q) ->
  (forall q', (forall id, id <> jobId job -> q_jobs q' !! id = q_jobs q !! id) -> Q true q') ->
  runs (abandonIfMissingStorageLane job now) q Q.
Proof.
  intros Hwf Hl Hs Hf Ht. unfold abandonIfMissingStorageLane.
  destruct (missingStorageLaneForAuthorOnlyJob job) eqn:Em; simpl; [|by apply runs_ret, Hf].
  eapply runs_bind.
  - apply (runs_update cfg job (abandonedJob job now _ _) q
             (fun _ q' => forall id, id <> jobId job -> q_jobs q' !! id = q_jobs q !! id));
      [done|apply step_abandon; auto| |auto].
    rewrite abandoned_not_owner; [done|]. apply missing_lane_unbound; [|done]. by apply (Hwf _ _ Hl).
  - intros [] q' _ Hq. by apply runs_ret, Ht.
Qed.

Lemma runs_recover id now q : wf (q_jobs q) -> runs (recover cfg id now) q any.
Proof.
  intros Hwf. apply runs_row; [done|]. intros job q1 Hwf1 Hl Hid.
  destruct (bool_decide (state job = failed)) eqn:Hs; [|apply runs_raise]. apply bool_decide_eq_true in Hs.
  simpl. destruct (isRetiredBoundRejection job) eqn:Hr; [apply runs_raise|].
  eapply runs_bind.
  { apply (runs_abandonMissing job now q1 (fun b q' => b = false -> q' = q1 /\ missingStorageLaneForAuthorOnlyJob job = false));
      [done|done|congruence|done|done]. }
  intros [|] q2 _ Hb; [apply runs_raise|]. destruct (Hb eq_refl) as [-> Hm]. clear Hb.
  destruct (requiresManualInspection job) eqn:Hi; [apply runs_raise|].
  pose proof (Hwf1 _ _ Hl) as [_ [_ Hcl]].
  eapply runs_bind.
  { apply (runs_no_conflict cfg payload_mentions_binding (request job) (usesLegacyWildcardLane job) _ q1
             (fun _ q' => q_jobs q' = q_jobs q1 /\ free (q_jobs q1) (jobId job) (storedPromoteLaneScope job)));
      [done|done|]. intros q' Hq Hf. split; [done|]. apply Hf. by left. }
  intros [] q2 _ [Hq Hfree]. apply runs_lifted. intros r Hsn.
  assert (JobStep cfg job (recoveredJob job r now)) as Hst by (by apply step_recover).
  eapply runs_bind; [|intros; by apply runs_modify].
  apply (runs_update cfg job _ _ any); [by rewrite Hq|done| |done].
  intros _ _. rewrite Hq. eapply free_le; [done|by eapply step_scope].
Qed.

(** *** Admission *)

Lemma runs_preflight r q (Q : unit -> QueueState -> Prop) :
  (forall q', q_jobs q' = q_jobs q -> Q tt q') -> runs (admissionPreflight r) q Q.
Proof.
  intros HQ. unfold admissionPreflight. eapply runs_bind; [apply (runs_get cfg q (fun a q' => a = q /\ q' = q)); done|].
  intros ? q1 _ [-> ->]. destruct (List.find _ _); [apply runs_raise|].
  destruct (scanOwners _ _ _) as [c owners]. eapply runs_bind.
  { apply (runs_modify cfg _ q (fun _ q' => q_jobs q' = q_jobs q)); done. }
  intros ? q2 _ Hq. destruct c; [apply runs_raise|]. case_match; [apply runs_raise|]. by apply runs_ret, HQ.
Qed.

Lemma request_scope_current job :
  formatVersion job = Some 4%Z -> storedPromoteLaneScope job = promoteLaneConflictScope (request job) false.
Proof. intros Hf. unfold storedPromoteLaneScope. by rewrite current_not_wildcard. Qed.

Lemma snapshot_clean r r' : snapshotPromoteRequest r = Ok r' -> cleanRequest r = true -> cleanRequest r' = true.
Proof. intros [Hs _]%snapshot_scope. by rewrite (proj2 (sameScope_keys _ _ Hs)). Qed.

Lemma runs_enqueue r0 expiry now id q :
  wf (q_jobs q) -> cleanRequest r0 = true -> q_jobs q !! id = None ->
  runs (enqueue cfg r0 expiry now id) q any.
Proof.
  intros Hwf Hcl Hn. unfold enqueue. apply runs_lifted. intros _ _. apply runs_lifted. intros r Hr.
  eapply runs_bind; [apply (runs_preflight r q (fun _ q' => q_jobs q' = q_jobs q)); auto|].
  intros ? q1 _ Hq1. destruct (ex_graph expiry); [apply runs_raise|].
  destruct (ex_conflict expiry); [apply runs_raise|]. eapply runs_bind.
  { apply (runs_no_conflict cfg payload_mentions_binding r false None q1
             (fun _ q' => q_jobs q' = q_jobs q1 /\ free (q_jobs q1) id (promoteLaneConflictScope r false)));
      [by rewrite Hq1|by eapply snapshot_clean|]. intros q' Hq Hf. split; [done|]. apply Hf. right. by rewrite Hq1. }
  intros ? q2 _ [Hq2 Hfree]. apply runs_lifted. intros _ _. destruct (ex_persist expiry); [apply runs_raise|].
  eapply runs_bind.
  - unfold PromoteQueueTheory.runs.
    pose proof (write_admit cfg id r0 r now (newJob cfg id r now) q2) as Hw.
    destruct (write_run (newJob cfg id r now) q2) as (p & q3 & E & _). rewrite E in *.
    split; [|exact I]. apply Hw; [congruence| |done|done|by left].
    rewrite request_scope_current by done. by rewrite Hq2.
  - intros [] q3 _ _; [|apply runs_raise|].
    + eapply runs_bind; [by apply (runs_modify cfg _ q3 any)|]. intros. by apply runs_ret.
    + eapply runs_bind; [by apply (runs_modify cfg _ q3 any)|]. intros. by apply runs_raise.
Qed.

Lemma runs_enqueueAndClaim r0 worker now id token q :
  wf (q_jobs q) -> cleanRequest r0 = true -> q_jobs q !! id = None ->
  runs (enqueueAndClaim cfg r0 worker now id token) q any.
Proof.
  intros Hwf Hcl Hn. unfold enqueueAndClaim. apply runs_lifted. intros _ _.
  destruct (nonEmpty worker); [|apply runs_raise]. simpl. apply runs_lifted. intros r Hr. eapply runs_bind.
  { apply (runs_no_conflict cfg payload_mentions_binding r false None q
             (fun _ q' => q_jobs q' = q_jobs q /\ free (q_jobs q) id (promoteLaneConflictScope r false)));
      [done|by eapply snapshot_clean|]. intros q' Hq Hf. split; [done|]. apply Hf. by right. }
  intros ? q1 _ [Hq1 Hfree]. apply runs_lifted. intros _ _.
  destruct (isBoundPromoteJob _) eqn:Hb; [|apply runs_raise]. simpl.
  eapply (runs_bind cfg _ _ _ any); [|intros; by apply runs_ret].
  pose proof (write_admit cfg id r0 r now (claimPromoteJob (newJob cfg id r now) worker now (c_leaseMs cfg) token) q1) as Hw.
  rewrite <- writeOrUncertain_state in Hw. unfold PromoteQueueTheory.runs.
  destruct (writeOrUncertain _ q1) as [[[]|e] q2]; [split; [|exact I]|];
    (apply Hw; [congruence| |done|done|right; by eauto]); rewrite request_scope_current by done; by rewrite Hq1.
Qed.

(** *** Listings, expired leases and claims *)

(** The records of the list are the current ones, each once. *)
Definition current (l : list PromoteJob) (q : QueueState) : Prop :=
  NoDup (jobId <$> l) /\ forall job, job ∈ l -> q_jobs q !! jobId job = Some job.

Lemma current_frame job l q q' :
  current (job :: l) q -> (forall id, id <> jobId job -> q_jobs q' !! id = q_jobs q !! id) -> current l q'.
Proof.
  intros [Hnd Hl] Hf. rewrite fmap_cons, NoDup_cons in Hnd. destruct Hnd as [Hni Hnd]. split; [done|].
  intros job' Hin. rewrite Hf; [apply Hl; by right|]. intros Heq. apply Hni. rewrite <- Heq.
  by apply list_elem_of_fmap_2.
Qed.

Lemma current_filter P `{!forall x, Decision (P x)} l q : current l q -> current (filter P l) q.
Proof.
  intros [Hnd Hl]. split; [|intros job [_ Hin]%list_elem_of_filter; by apply Hl].
  clear Hl. induction l as [|job l IH]; [done|]. rewrite fmap_cons, NoDup_cons in Hnd.
  destruct Hnd as [Hni Hnd]. rewrite filter_cons. case_decide; [|by apply IH].
  rewrite fmap_cons, NoDup_cons. split; [|by apply IH].
  intros (job' & Heq & [_ Hin]%list_elem_of_filter)%list_elem_of_fmap. apply Hni, list_elem_of_fmap. eauto.
Qed.

Lemma runs_listUnlocked states q (Q : list PromoteJob -> QueueState -> Prop) :
  wf (q_jobs q) ->
  (forall l q', q_jobs q' = q_jobs q -> current l q' -> (forall job, job ∈ l <-> job ∈ rows q /\ state job ∈ states) -> Q l q') ->
  runs (listUnlocked cfg states) q Q.
Proof.
  intros Hwf HQ. unfold listUnlocked.
  eapply runs_bind; [apply (runs_get cfg q (fun a q' => a = q /\ q' = q)); done|]. intros ? q1 _ [-> ->].
  set (l := js_sort _ _). assert (l ≡ₚ filter (fun job => state job ∈ states) (rows q)) as Hp by apply js_sort_perm.
  eapply runs_bind; [apply (runs_observes cfg l q (fun _ q' => q_jobs q' = q_jobs q)); auto|].
  intros ? q2 _ Hq. apply runs_ret, HQ; [done| |].
  - assert (current (filter (fun job => state job ∈ states) (rows q)) q2) as [Hnd Hl].
    { apply current_filter. split; [by apply rows_NoDup|]. intros job Hin. rewrite Hq. by apply rows_lookup. }
    split; [by rewrite Hp|]. intros job Hin. apply Hl. by rewrite <- Hp.
  - intros job. rewrite Hp, list_elem_of_filter. naive_solver.
Qed.

Lemma runs_reconcileJob job now summary q (Q : PromoteRecoverySummary -> QueueState -> Prop) :
  wf (q_jobs q) -> q_jobs q !! jobId job = Some job -> state job = running ->
  (forall s q', (forall id, id <> jobId job -> q_jobs q' !! id = q_jobs q !! id) -> Q s q') ->
  runs (reconcileJob cfg job now summary) q Q.
Proof.
  intros Hwf Hl Hr HQ. unfold reconcileJob. destruct (Z.ltb_spec now (default 0%Z (ls_expiresAt <$> lease job))) as [|He];
    [by apply runs_ret, HQ|].
  assert (leaseExpired job now) as Hexp by done. pose proof (Hwf _ _ Hl) as [_ [_ Hcl]].
  assert (forall job' q1, q_jobs q1 = q_jobs q -> JobStep cfg job job' ->
    runs (writeJob job') q1 (fun _ q' => forall id, id <> jobId job -> q_jobs q' !! id = q_jobs q !! id)) as Hup.
  { intros job' q1 Hq1 Hst. apply (runs_update cfg job); [by rewrite Hq1|done| |by rewrite Hq1].
    by rewrite running_owner. }
  eapply runs_bind.
  { apply (runs_abandonMissing job now q (fun b q' => (b = false -> q' = q) /\
      forall id, id <> jobId job -> q_jobs q' !! id = q_jobs q !! id)); [done..|congruence|by auto|by auto]. }
  intros [|] q1 _ [Hq1 Hf]; [by apply runs_ret, HQ|]. rewrite Hq1 by done. clear q1 Hq1 Hf.
  eapply runs_bind.
  { apply (runs_conflict cfg payload_mentions_binding _ _ _ q (fun _ q' => q_jobs q' = q_jobs q)); auto. }
  intros [[f|other]|] q1 _ Hq1.
  - apply runs_ret, HQ. by rewrite Hq1.
  - eapply runs_bind; [apply Hup; [done|apply step_abandon; [congruence|by left]]|].
    intros ? q2 _ Hf. by apply runs_ret, HQ.
  - destruct (mayReclaim job) eqn:Hm.
    + eapply runs_bind; [apply (runs_lift cfg _ q1 (fun r q' => q' = q1 /\ snapshotPromoteRequest (request job) = Ok r)); auto|].
      intros r q2 _ [-> Hs]. eapply runs_bind; [apply Hup; [done|by apply step_reclaim]|].
      intros ? q2 _ Hf. by apply runs_ret, HQ.
    + eapply runs_bind; [apply Hup; [done|apply step_abandon; [congruence|by left]]|].
      intros ? q2 _ Hf. by apply runs_ret, HQ.
Qed.

Lemma runs_reconcileLoop jobs now summary q :
  wf (q_jobs q) -> current jobs q -> (forall job, job ∈ jobs -> state job = running) ->
  runs (reconcileLoop cfg jobs now summary) q any.
Proof.
  revert summary q. induction jobs as [|job jobs IH]; intros summary q Hwf Hc Hr; [by apply runs_ret|].
  cbn [reconcileLoop]. eapply runs_bind.
  { apply (runs_reconcileJob job now summary q
      (fun _ q' => forall id, id <> jobId job -> q_jobs q' !! id = q_jobs q !! id)); [done| |apply Hr; by left|auto].
    apply Hc. by left. }
  intros s q1 Href Hf. apply IH; [by eapply refines_wf|by eapply current_frame|]. intros; apply Hr; by right.
Qed.

Lemma runs_reconcile now q : wf (q_jobs q) -> runs (reconcileExpiredRunning cfg now) q any.
Proof.
  intros Hwf. unfold reconcileExpiredRunning. eapply runs_bind.
  { apply (runs_listUnlocked [running] q (fun l q' => wf (q_jobs q') /\ current l q' /\
             forall job, job ∈ l -> state job = running)); [done|].
    intros l q' Hq Hc Hl. rewrite Hq. split_and!; [done|done|]. intros job Hin.
    apply Hl in Hin as [_ Hin]. by apply list_elem_of_singleton in Hin. }
  intros l q1 _ (Hwf1 & Hc & Hr). by apply runs_reconcileLoop.
Qed.

Lemma runs_keepClaimable candidates now q (Q : list PromoteJob -> QueueState -> Prop) :
  wf (q_jobs q) -> current candidates q -> (forall job, job ∈ candidates -> state job <> succeeded) ->
  (forall kept q', (forall c, c ∈ kept -> c ∈ candidates) ->
     (forall c, c ∈ kept -> q_jobs q' !! jobId c = Some c) ->
     (forall id, id ∉ jobId <$> candidates -> q_jobs q' !! id = q_jobs q !! id) -> Q kept q') ->
  runs (keepClaimable candidates now) q Q.
Proof.
  revert q Q. induction candidates as [|c rest IH]; intros q Q Hwf Hc Hs HQ.
  { apply runs_ret, HQ; [done| |done]. by intros ? ?%not_elem_of_nil. }
  cbn [keepClaimable]. eapply runs_bind.
  { apply (runs_abandonMissing c now q (fun b q' => (b = false -> q' = q) /\
      forall id, id <> jobId c -> q_jobs q' !! id = q_jobs q !! id));
      [done|apply Hc; by left|apply Hs; by left|by auto|by auto]. }
  intros b q1 Href [Hq1 Hf]. pose proof Hc as [Hnd Hrow]. rewrite fmap_cons, NoDup_cons in Hnd. destruct Hnd as [Hni _].
  eapply runs_bind.
  { apply (IH q1 (fun kept q' => (forall x, x ∈ kept -> x ∈ rest) /\
      (forall x, x ∈ kept -> q_jobs q' !! jobId x = Some x) /\
      (forall id, id ∉ jobId <$> rest -> q_jobs q' !! id = q_jobs q1 !! id)));
      [by eapply refines_wf|by eapply current_frame| |by auto]. intros; apply Hs; by right. }
  intros kept q2 _ (Hsub & Hk & Hf2). apply runs_ret, HQ.
  - intros x. destruct b; rewrite ?elem_of_cons; [right; by apply Hsub|]. intros [->|]; [by left|right; by apply Hsub].
  - intros x. destruct b; [apply Hk|]. rewrite elem_of_cons. intros [->|Hx]; [|by apply Hk].
    rewrite Hf2 by done. rewrite Hq1 by done. apply Hrow. by left.
  - intros id Hid. rewrite fmap_cons, elem_of_cons in Hid.
    rewrite Hf2, Hf; [done|intros ->; apply Hid; by left|intros ?; apply Hid; by right].
Qed.

Lemma runs_claimNext worker now token q : wf (q_jobs q) -> runs (claimNext cfg worker now token) q any.
Proof.
  intros Hwf. unfold claimNext. destruct (nonEmpty worker); [|apply runs_raise]. cbn [negb].
  eapply runs_bind; [apply (runs_get cfg q (fun a q' => a = q /\ q' = q)); done|]. intros ? q0 _ [-> ->].
  destruct (q_paused q); [by apply runs_ret|]. destruct (_ && _); [by apply runs_ret|].
  eapply runs_bind; [by apply runs_reconcile|]. intros _ q1 Href _.
  assert (wf (q_jobs q1)) as Hwf1 by (by eapply refines_wf). eapply runs_bind.
  { apply (runs_listUnlocked ACTIVE_PROMOTE_STATES q1 (fun l q' => q_jobs q' = q_jobs q1 /\ current l q')); auto. }
  intros jobs q2 _ [Hq2 Hc]. eapply runs_bind.
  { apply (runs_keepClaimable (filter (fun j => claimCandidate now j = true) jobs) now q2
      (fun kept q' => forall c, c ∈ kept -> claimCandidate now c = true /\ q_jobs q' !! jobId c = Some c)).
    - by rewrite Hq2.
    - by apply current_filter.
    - intros job [Hj _]%list_elem_of_filter. by eapply active_not_succeeded, claimCandidate_active.
    - intros kept q' Hsub Hk _ c Hin. split; [|by apply Hk]. by apply Hsub, list_elem_of_filter in Hin as [? _]. }
  intros kept q3 _ Hk. destruct (eligibleFor jobs kept) as [|next rest] eqn:El.
  - eapply runs_bind; [by apply (runs_modify cfg _ q3 any)|]. intros. by apply runs_ret.
  - assert (next ∈ kept) as Hin.
    { assert (next ∈ eligibleFor jobs kept) as Hn by (rewrite El; by left). by apply list_elem_of_filter in Hn as [_ ?]. }
    destruct (Hk _ Hin) as [Hcan Hrow]. eapply (runs_bind cfg _ _ _ any); [|intros; by apply runs_ret].
    apply (runs_update cfg next); [done|by apply step_claim| |done].
    rewrite active_owner; [done|by eapply claimCandidate_active].
Qed.

(** *** The sweep and the terminal clear *)

Lemma recoverable_failed job : isAutomaticallyRecoverablePostCommitFailure job = true -> state job = failed.
Proof.
  unfold isAutomaticallyRecoverablePostCommitFailure. rewrite !andb_true_iff, bool_decide_eq_true. naive_solver.
Qed.

Lemma runs_sweepJob job now q (Q : list PromotePostCommitRecoveryEvent -> QueueState -> Prop) :
  wf (q_jobs q) -> q_jobs q !! jobId job = Some job ->
  (forall es q', (forall id, id <> jobId job -> q_jobs q' !! id = q_jobs q !! id) -> Q es q') ->
  runs (sweepJob cfg job now) q Q.
Proof.
  intros Hwf Hl HQ. unfold sweepJob. destruct (isAutomaticallyRecoverablePostCommitFailure job) eqn:Ha;
    [|by apply runs_ret, HQ]. cbn [negb]. pose proof (Hwf _ _ Hl) as [_ [_ Hcl]].
  destruct (Z.leb_spec (at_maxRetries (attempt job)) (Z.max 1 (at_count (attempt job)))) as [Hle|Hlt].
  - eapply runs_bind.
    { apply (runs_update cfg job _ q (fun _ q' => forall id, id <> jobId job -> q_jobs q' !! id = q_jobs q !! id));
        [done|by apply step_exhaust| |auto].
      unfold isOwner, hasUnfinishedBoundObligation, isRetiredBoundRejection. simpl.
      rewrite (recoverable_failed _ Ha). simpl. intros Hn Ho. apply not_true_iff_false in Hn. exfalso. apply Hn.
      destruct (recoveryBinding (request job)); [|done]. simpl in *. rewrite negb_true_iff.
      destruct (at_lastError (attempt job)) as [e|] eqn:Ee; [|done].
      unfold isAutomaticallyRecoverablePostCommitFailure in Ha. rewrite Ee, !andb_true_iff in Ha.
      destruct Ha as [_ Ha]. unfold isPromotePostCommitAttemptError in Ha.
      destruct (ae_diagnosticCode e) as [c|]; [|done]. apply String.eqb_eq in Ha. by subst c. }
    intros ? q1 _ Hf. by apply runs_ret, HQ.
  - eapply runs_bind.
    { apply (runs_conflict cfg payload_mentions_binding (request job) (usesLegacyWildcardLane job) (Some (jobId job)) q
        (fun c q' => q_jobs q' = q_jobs q /\ (c = None -> free (q_jobs q) (jobId job) (storedPromoteLaneScope job))));
        [done|done|]. intros c q' Hq Hf. split; [done|]. intros ->. apply Hf; [done|by left]. }
    intros [c|] q1 _ [Hq Hfree]; [apply runs_ret, HQ; by rewrite Hq|]. eapply runs_bind.
    { apply (runs_update cfg job _ q1 (fun _ q' => forall id, id <> jobId job -> q_jobs q' !! id = q_jobs q !! id));
        [by rewrite Hq|by apply step_requeue| |by rewrite Hq].
      intros _ _. rewrite Hq. by apply Hfree. }
    intros ? q2 _ Hf. by apply runs_ret, HQ.
Qed.

Lemma runs_sweepJobs jobs now q : wf (q_jobs q) -> current jobs q -> runs (sweepJobs cfg jobs now) q any.
Proof.
  revert q. induction jobs as [|job jobs IH]; intros q Hwf Hc; [by apply runs_ret|].
  cbn [sweepJobs]. eapply runs_bind.
  { apply (runs_sweepJob job now q (fun _ q' => forall id, id <> jobId job -> q_jobs q' !! id = q_jobs q !! id));
      [done|apply Hc; by left|auto]. }
  intros e q1 Href Hf. eapply runs_bind; [apply IH; [by eapply refines_wf|by eapply current_frame]|].
  intros. by apply runs_ret.
Qed.

Lemma omap_current ids q : wf (q_jobs q) -> NoDup ids -> current (omap (fun id => q_jobs q !! id) ids) q.
Proof.
  intros Hwf Hnd. split.
  - induction ids as [|id ids IH]; [done|]. rewrite NoDup_cons in Hnd. destruct Hnd as [Hni Hnd]. simpl.
    destruct (q_jobs q !! id) as [job|] eqn:E; [|by apply IH]. rewrite fmap_cons, NoDup_cons.
    split; [|by apply IH]. rewrite (row_id q id job) by done.
    intros (j & Heq & (id' & Hin & Hl)%list_elem_of_omap)%list_elem_of_fmap. apply Hni.
    rewrite (row_id q id' j) in Heq by done. by subst id'.
  - intros job (id & Hin & Hl)%list_elem_of_omap. by rewrite (row_id q id job).
Qed.

Lemma runs_sweepTurn ids now q : wf (q_jobs q) -> NoDup ids -> runs (sweepTurn cfg ids now) q any.
Proof.
  intros Hwf Hnd. unfold sweepTurn, readFailed. eapply runs_bind.
  { eapply runs_bind; [apply (runs_get cfg q (fun a q' => a = q /\ q' = q)); done|]. intros ? q0 _ [-> ->].
    eapply runs_bind; [apply (runs_observes cfg _ q (fun _ q' => q_jobs q' = q_jobs q)); auto|].
    intros ? q1 _ Hq. apply (runs_ret cfg _ q1 (fun l q' => wf (q_jobs q') /\ current l q')). rewrite Hq.
    split; [done|]. apply current_filter. destruct (omap_current ids q Hwf Hnd) as [H1 H2].
    split; [done|]. by rewrite Hq. }
  intros l q1 _ [Hwf1 Hc]. by apply runs_sweepJobs.
Qed.

Lemma NoDup_take {A} n (l : list A) : NoDup l -> NoDup (take n l).
Proof. intros H. rewrite <- (take_drop n l) in H. by apply NoDup_app in H as [? _]. Qed.

Lemma NoDup_drop {A} n (l : list A) : NoDup l -> NoDup (drop n l).
Proof. intros H. rewrite <- (take_drop n l) in H. by apply NoDup_app in H as (_ & _ & ?). Qed.

Lemma runs_sweepTurns fuel turn ids now q :
  wf (q_jobs q) -> NoDup ids -> runs (sweepTurns cfg fuel turn ids now) q any.
Proof.
  revert turn ids q. induction fuel as [|fuel IH]; intros turn ids q Hwf Hnd; [by apply runs_ret|].
  destruct ids as [|id ids]; [by apply runs_ret|]. cbn [sweepTurns].
  eapply runs_bind; [apply runs_sweepTurn; [done|by apply NoDup_take]|]. intros e q1 Href _.
  eapply runs_bind; [apply IH; [by eapply refines_wf|by apply NoDup_drop]|]. intros. by apply runs_ret.
Qed.

Lemma runs_recoverPostCommit now q : wf (q_jobs q) -> runs (recoverPostCommitFailures cfg now) q any.
Proof.
  intros Hwf. unfold recoverPostCommitFailures, findSweepCandidates. eapply runs_bind.
  { eapply runs_bind; [apply (runs_get cfg q (fun a q' => a = q /\ q' = q)); done|]. intros ? q0 _ [-> ->].
    eapply runs_bind; [apply (runs_observes cfg _ q (fun _ q' => q_jobs q' = q_jobs q)); auto|].
    intros ? q1 _ Hq. apply (runs_ret cfg _ q1 (fun l q' => wf (q_jobs q') /\ NoDup l)). rewrite Hq.
    split; [done|]. rewrite js_sort_perm. assert (current (rows q) q) as Hc.
    { split; [by apply rows_NoDup|]. intros job. by apply rows_lookup. }
    by apply (current_filter _ _ _ (current_filter _ _ _ Hc)). }
  intros l q1 _ [Hwf1 Hnd]. by apply runs_sweepTurns.
Qed.

(** A clear removes at most the record it names, when that is finished. *)
Lemma clear_run id q q' :
  (clearTerminalJob id q).2 = q' ->
  q_jobs q' = q_jobs q \/
  (exists job, q_jobs q !! id = Some job /\ isTerminalPromoteJobState (state job) = true /\
     hasUnfinishedBoundObligation job = false /\ q_jobs q' = delete id (q_jobs q)).
Proof.
  unfold clearTerminalJob. destruct (isSafeJobId id); [|intros <-; by left]. cbn [negb]. unfold bindM, get.
  destruct (q_jobs q !! id) as [job|] eqn:Hl; [|intros <-; by left].
  destruct (String.eqb (jobId job) id); [|intros <-; by left]. cbn [negb].
  destruct (hasUnfinishedBoundObligation job) eqn:Ho; [intros <-; by left|].
  destruct (isTerminalPromoteJobState (state job)) eqn:Ht; [|intros <-; by left]. cbn [negb].
  destruct (_ && _); [intros <-; by left|]. destruct (observe_run job q) as (q1 & -> & Hq). simpl. intros <-.
  right. exists job. simpl. by rewrite Hq.
Qed.

End Operations.

(** ** Reachable queues *)

Inductive Op : Type :=
| OpEnqueue (r : PromoteRequest) (expiry : Expiry) (now : Z) (id : string)
| OpEnqueueAndClaim (r : PromoteRequest) (worker : string) (now : Z) (id token : string)
| OpBindRecovery (id token : string) (binding : PromoteRecoveryBinding) (now1 now2 : Z)
| OpGetStatus (id : string)
| OpCancel (id : string) (now : Z)
| OpRecover (id : string) (now : Z)
| OpClaimNext (worker : string) (now : Z) (token : string)
| OpHeartbeat (id token : string) (now1 now2 : Z)
| OpMarker (id token : string) (s : PromoteCommitMarkerStep) (now1 now2 : Z)
| OpSucceed (id token : string) (r : PromoteResult) (now1 now2 : Z)
| OpFail (id token : string) (error : PromoteAttemptError) (now1 now2 : Z)
| OpRecoverOnStartup (now : Z)
| OpSweepFind
| OpSweepTurn (ids : list string) (now : Z)
| OpClear (id : string)
| OpPause | OpResume
| OpAttach (s : nat) | OpDetach (s : nat).

(** The clock of the admission coordinator and the store's next replies. *)
Definition set_environment (q : QueueState) (mono : Z) (replies : list write_reply) : QueueState :=
  {| q_jobs := q_jobs q; q_pending := q_pending q; q_owners := q_owners q; q_paused := q_paused q;
     q_nextIdleClaimAt := q_nextIdleClaimAt q; q_scheduler := q_scheduler q; q_mono := mono;
     q_replies := replies |}.

(** The queue after an operation. *)
Definition runOp (cfg : QueueConfig) (op : Op) (q : QueueState) : QueueState :=
  match op with
  | OpEnqueue r expiry now id => (enqueue cfg r expiry now id q).2
  | OpEnqueueAndClaim r worker now id token => (enqueueAndClaim cfg r worker now id token q).2
  | OpBindRecovery id token binding now1 now2 => (bindRecovery id token binding now1 now2 q).2
  | OpGetStatus id => (getStatus id q).2
  | OpCancel id now => (cancel id now q).2
  | OpRecover id now => (recover cfg id now q).2
  | OpClaimNext worker now token => (claimNext cfg worker now token q).2
  | OpHeartbeat id token now1 now2 => (heartbeat cfg id token now1 now2 q).2
  | OpMarker id token s now1 now2 => (recordCommitMarker id token s now1 now2 q).2
  | OpSucceed id token r now1 now2 => (succeed cfg id token r now1 now2 q).2
  | OpFail id token error now1 now2 => (fail cfg id token error now1 now2 q).2
  | OpRecoverOnStartup now => (recoverOnStartup cfg now q).2
  | OpSweepFind => (findSweepCandidates cfg q).2
  | OpSweepTurn ids now => (sweepTurn cfg ids now q).2
  | OpClear id => (clearTerminalJob id q).2
  | OpPause => (pause q).2
  | OpResume => (resume q).2
  | OpAttach s => (attachScheduler s q).2
  | OpDetach s => (detachScheduler s q).2
  end.

(** What callers guarantee: new job ids are fresh, identifiers do not contain
    the key separator, and a sweep turn lists each candidate once. *)
Definition opAllowed (q : QueueState) (op : Op) : Prop :=
  match op with
  | OpEnqueue r _ _ id | OpEnqueueAndClaim r _ _ id _ => cleanRequest r = true /\ q_jobs q !! id = None
  | OpSweepTurn ids _ => NoDup ids
  | _ => True
  end.

Inductive queue_history (cfg : QueueConfig) : QueueState -> QueueState -> Prop :=
| queue_history_nil q : queue_history cfg q q
| queue_history_op q op mono replies q' :
    opAllowed q op -> queue_history cfg (runOp cfg op (set_environment q mono replies)) q' ->
    queue_history cfg q q'.

(** An operation with the clock and the store replies that it meets. *)
Definition QueueStep : Type := (Op * Z * list write_reply)%type.

Definition runStep (cfg : QueueConfig) (step : QueueStep) (q : QueueState) : QueueState :=
  let '(op, mono, replies) := step in runOp cfg op (set_environment q mono replies).

(** The queue before the first operation and after each one. *)
Fixpoint queueStates (cfg : QueueConfig) (q : QueueState) (steps : list QueueStep) : list QueueState :=
  q :: match steps with [] => [] | step :: rest => queueStates cfg (runStep cfg step q) rest end.

Fixpoint stepsAllowed (cfg : QueueConfig) (q : QueueState) (steps : list QueueStep) : Prop :=
  match steps with
  | [] => True
  | step :: rest => opAllowed q step.1.1 /\ stepsAllowed cfg (runStep cfg step q) rest
  end.
