(* ===== verification/PromoteQueueSafety.v ===== *)
(** * What holds of every reachable promote queue

    A queue history is any sequence of the queue's operations, by any callers,
    under any store replies.  Every history is a sequence of effects of the
    promote job machine, so the machine's invariants hold of it: one owner per
    lane, records consistent with their state, and promotes that need inspection
    never run again.  Operation by operation: a durable share is kept until it is
    finished. *)

From S2P Require Import Prelude JsString PromoteJob PromotePolicy PromoteQueue PromoteMachine.
From S2P Require Import PromoteQueueTheory.

Section Histories.
Context (cfg : QueueConfig).
Hypothesis payload_mentions_binding :
  forall job, hasBinding job = true -> c_payloadContains cfg job "recoveryBinding" = true.

Lemma runs_refines {A} (m : M A) q Q : runs cfg m q Q -> refinesFrom cfg q (m q).2.
Proof. unfold runs. destruct (m q) as [[a|e] q']; [by intros [? _]|done]. Qed.

(** Operations that leave the records alone. *)
Lemma runs_unlocked {A} (m : M A) q : q_jobs (m q).2 = q_jobs q -> runs cfg m q (fun _ _ => True).
Proof.
  intros H. unfold runs. destruct (m q) as [[a|e] q']; [split; [|done]|]; by apply refines_same.
Qed.

Lemma getStatus_jobs id q : q_jobs (getStatus id q).2 = q_jobs q.
Proof.
  unfold getStatus, readJob, bindM, get. destruct (q_jobs q !! id) as [job|]; [|done].
  by destruct (observe_run job q) as (q1 & -> & ?).
Qed.

Lemma findSweep_jobs q : q_jobs (findSweepCandidates cfg q).2 = q_jobs q.
Proof.
  unfold findSweepCandidates, bindM, get.
  match goal with |- context [forM ?l observe q] => by destruct (forM_observe_run l q) as (q1 & -> & ?) end.
Qed.

(** Every operation but a clear is a sequence of changes. *)
Lemma runOp_refines op q :
  wf (q_jobs q) -> opAllowed q op -> (forall id, op <> OpClear id) -> refinesFrom cfg q (runOp cfg op q).
Proof.
  intros Hwf Ha Hn. destruct op; cbn [runOp opAllowed] in *;
    try (apply (runs_refines _ _ (fun _ _ => True))).
  - destruct Ha. by apply runs_enqueue.
  - destruct Ha. by apply runs_enqueueAndClaim.
  - by apply runs_bindRecovery.
  - apply (runs_unlocked _ _ (getStatus_jobs id q)).
  - by apply runs_cancel.
  - by apply runs_recover.
  - by apply runs_claimNext.
  - by apply runs_heartbeat.
  - by apply runs_marker.
  - by apply runs_succeed.
  - by apply runs_fail.
  - by apply runs_reconcile.
  - apply (runs_unlocked _ _ (findSweep_jobs q)).
  - by apply runs_sweepTurn.
  - by destruct (Hn id).
  - by apply runs_unlocked.
  - by apply runs_unlocked.
  - by apply runs_unlocked.
  - apply runs_unlocked. unfold detachScheduler, modify. simpl. by case_bool_decide.
Qed.

Lemma op_clear_dec op : (exists id, op = OpClear id) \/ (forall id, op <> OpClear id).
Proof. destruct op; first [left; by eexists|by right]. Qed.

Lemma runOp_effects op q : wf (q_jobs q) -> opAllowed q op -> rtc (effect cfg) (q_jobs q) (q_jobs (runOp cfg op q)).
Proof.
  intros Hwf Ha. destruct (op_clear_dec op) as [[id ->]|Hn].
  - destruct (clear_run id q _ eq_refl) as [Hq|(job & Hl & Ht & Ho & Hq)]; cbn [runOp]; rewrite Hq; [done|].
    apply rtc_once. by eapply effect_clear.
  - pose proof (runOp_refines op q Hwf Ha Hn) as Hr. unfold refinesFrom in Hr.
    eapply rtc_subrel; [|exact Hr]. intros ? ?. apply effect_change.
Qed.

Lemma runOp_wf op q : wf (q_jobs q) -> opAllowed q op -> wf (q_jobs (runOp cfg op q)).
Proof.
  intros Hwf Ha. pose proof (runOp_effects op q Hwf Ha) as Hr. revert Hwf. clear Ha.
  induction Hr as [|j1 j2 j3 He _ IH]; [done|]. intros Hwf. apply IH. by eapply effect_wf.
Qed.

Lemma history_refines q q' :
  queue_history cfg q q' -> wf (q_jobs q) -> rtc (effect cfg) (q_jobs q) (q_jobs q') /\ wf (q_jobs q').
Proof.
  induction 1 as [q|q op mono replies q' Ha _ IH]; intros Hwf; [done|].
  assert (opAllowed (set_environment q mono replies) op) as Ha' by by destruct op.
  destruct IH as [Hr Hwf']; [by apply (runOp_wf op (set_environment q mono replies))|]. split; [|done].
  etrans; [|exact Hr]. by apply (runOp_effects op (set_environment q mono replies)).
Qed.

(** An invariant of effects holds along histories. *)
Lemma history_invariant (P : gmap string PromoteJob -> Prop) q q' :
  (forall jobs jobs', effect cfg jobs jobs' -> P jobs -> P jobs') ->
  queue_history cfg q q' -> wf (q_jobs q) -> P (q_jobs q) -> P (q_jobs q').
Proof.
  intros HP Hh Hwf. destruct (history_refines _ _ Hh Hwf) as [Hr _].
  induction Hr as [|j1 j2 j3 He Hr IH]; [done|]. intros Hj. apply IH; [by eapply effect_wf|by eapply HP].
Qed.

(** ** Guarantees *)

(** C9: at every moment of every history, two different records that own
    their lanes (active jobs, and durable shares that are not finished) never
    claim the same assertion lane. *)
Theorem one_owner_per_lane q q' :
  queue_history cfg q q' -> wf (q_jobs q) -> oneOwner (q_jobs q) ->
  forall id1 id2 job1 job2,
    q_jobs q' !! id1 = Some job1 -> q_jobs q' !! id2 = Some job2 -> id1 <> id2 ->
    isOwner job1 = true -> isOwner job2 = true ->
    promoteLaneScopesConflict (storedPromoteLaneScope job1) (storedPromoteLaneScope job2) = false.
Proof.
  intros Hh Hwf Hone id1 id2 job1 job2 Hl1 Hl2 Hne Ho1 Ho2.
  assert (oneOwner (q_jobs q')) as H
    by (eapply (history_invariant oneOwner); eauto using effect_oneOwner).
  by eapply (H id2 job2 Hl2 Ho2 id1 job1).
Qed.

(** One operation, with any clock and store replies, keeps an unfinished share. *)
Lemma step_share step q id job b :
  wf (q_jobs q) -> opAllowed q step.1.1 -> q_jobs q !! id = Some job -> shareRecord b job ->
  hasUnfinishedBoundObligation job = true ->
  exists job', q_jobs (runStep cfg step q) !! id = Some job' /\ shareRecord b job'.
Proof.
  destruct step as [[op mono] replies]. cbn [fst runStep]. intros Hwf Ha Hl Hb Ho. set (q0 := set_environment q mono replies).
  destruct (op_clear_dec op) as [[id' ->]|Hn].
  - exists job. split; [|done]. destruct (clear_run id' q0 _ eq_refl) as [Hq|(job' & Hl' & _ & Ho' & Hq)]; cbn [runOp]; rewrite Hq; [done|].
    rewrite lookup_delete_ne; [done|]. intros ->. cbn in Hl'. congruence.
  - apply (changes_share cfg (q_jobs q0) _ id job b); [|done|done|done]. apply (runOp_refines op q0); [done|by destruct op|done].
Qed.

Lemma step_keeps_wf step q : wf (q_jobs q) -> opAllowed q step.1.1 -> wf (q_jobs (runStep cfg step q)).
Proof.
  destruct step as [[op mono] replies]. cbn [fst runStep]. intros Hwf Ha.
  apply (runOp_wf op (set_environment q mono replies)); [done|by destruct op].
Qed.

(** C4: a durable share is never lost before it is finished.  Take any operations, in
    any order and with any store replies, and the queue before and after each of them:
    the record of the share is there, with its recovery binding, in every one of these
    queues up to one in which it is finished (succeeded, with the insert into the shared
    memory recorded, or failed with a certificate for its seal and operation that it had
    no effect), and in all of them when there is no such queue. *)
Theorem obligation_never_lost q steps id job b :
  wf (q_jobs q) -> stepsAllowed cfg q steps -> q_jobs q !! id = Some job ->
  recoveryBinding (request job) = Some b -> state job <> succeeded ->
  exists n,
    (forall i qi, (i < n)%nat -> queueStates cfg q steps !! i = Some qi ->
       exists ji, q_jobs qi !! id = Some ji /\ recoveryBinding (request ji) = Some b) /\
    (n = length (queueStates cfg q steps) \/
     exists qn jn, queueStates cfg q steps !! n = Some qn /\ q_jobs qn !! id = Some jn /\
       recoveryBinding (request jn) = Some b /\ shareFinished b jn).
Proof.
  intros Hwf Ha Hl Hb Hs. assert (shareRecord b job) as Hj by done. clear Hb Hs. revert q job Hwf Ha Hl Hj.
  induction steps as [|step steps IH]; intros q job Hwf Ha Hl Hj; (destruct (share_owed b job Hj) as [Ho|Hd];
    [|exists 0%nat; split; [lia|right; exists q, job; split_and!; [done|done|apply Hj|done]]]).
  - exists 1%nat. split; [|by left]. intros i qi Hi Hq. assert (i = 0)%nat as -> by lia. injection Hq as <-. exists job. split; [done|apply Hj].
  - destruct Ha as [Ha Hrest]. destruct (step_share step q id job b Hwf Ha Hl Hj Ho) as (job1 & Hl1 & Hj1).
    destruct (IH (runStep cfg step q) job1) as (n & Hn & Hend); [by apply step_keeps_wf|done|done|done|].
    exists (S n). split.
    + intros [|i] qi Hi Hq; [injection Hq as <-; exists job; split; [done|apply Hj]|]. apply (Hn i qi); [lia|exact Hq].
    + destruct Hend as [->|Hend]; [by left|right; exact Hend].
Qed.

(** In every reachable queue a record is stored under its own id, carries
    a lease exactly while it runs, is marked inserted when it has succeeded, and
    a recovery binding it carries is complete and of the current format. *)
Theorem records_consistent q q' :
  queue_history cfg q q' -> wf (q_jobs q) -> leasesRunning (q_jobs q) -> successRecorded (q_jobs q) ->
  forall id job, q_jobs q' !! id = Some job ->
    jobId job = id /\ (is_Some (lease job) <-> state job = running) /\
    (state job = succeeded -> markerSwmInserted job = Some true) /\
    (hasBinding job = true -> isBoundPromoteJob job = true).
Proof.
  intros Hh Hwf Hle Hsu id job Hl.
  assert (leasesRunning (q_jobs q')) as H1 by (eapply (history_invariant leasesRunning); eauto using effect_leases).
  assert (successRecorded (q_jobs q')) as H2 by (eapply (history_invariant successRecorded); eauto using effect_success).
  destruct (history_refines _ _ Hh Hwf) as [_ Hwf']. destruct (Hwf' _ _ Hl) as [Hid [Hb _]].
  split_and!; [done|by eapply H1|by eapply H2|done].
Qed.

(** The operator cannot recover a parked record. *)
Lemma recover_parked id now q job :
  q_jobs q !! id = Some job -> parked job -> exists e q', recover cfg id now q = (Err e, q').
Proof.
  intros Hl [Hs Hm]. unfold recover, bindM at 1.
  destruct (requireJob_run id q) as (r & q1 & -> & Hq & Hr). destruct r as [job1|e]; [|by eauto].
  replace job1 with job by congruence. rewrite Hs, bool_decide_eq_true_2 by done. cbn [negb].
  destruct (isRetiredBoundRejection job); [by eauto|]. unfold bindM at 1.
  unfold abandonIfMissingStorageLane. destruct (missingStorageLaneForAuthorOnlyJob job); simpl.
  - unfold bindM, abandonForManualInspection. destruct (writeJob _ q1) as [[]]; by eauto.
  - rewrite Hm. by eauto.
Qed.

(** C33: a failed promote that needs operator inspection never runs again: no
    operation of the queue, operator recovery included, takes it out of that
    state; it stays parked until its record is removed. *)
Theorem inspection_is_final q q' id job :
  queue_history cfg q q' -> wf (q_jobs q) -> q_jobs q !! id = Some job ->
  state job = failed -> requiresManualInspection job = true ->
  (forall now, exists e q1, recover cfg id now q = (Err e, q1)) /\
  ((exists job', q_jobs q' !! id = Some job' /\ state job' = failed /\ requiresManualInspection job' = true) \/
   (exists jobs1, rtc (effect cfg) (q_jobs q) jobs1 /\ rtc (effect cfg) jobs1 (q_jobs q') /\ jobs1 !! id = None)).
Proof.
  intros Hh Hwf Hl Hs Hm. split; [intros now; by eapply recover_parked|].
  destruct (history_refines _ _ Hh Hwf) as [Hr _].
  by apply (kept_until_removed cfg parked _ _ _ job (step_parked cfg)).
Qed.

End Histories.

(** ** A concrete queue *)

Definition sampleConfig : QueueConfig :=
  {| c_maxRetries := 5; c_leaseMs := 300000; c_backoff := fun n => (60000 * n)%Z;
     c_localeCompare := compareCodeUnits; c_sealDigest := fun _ => EmptyString;
     c_payloadContains := fun _ _ => true |}.

Lemma sample_payload :
  forall job, hasBinding job = true -> c_payloadContains sampleConfig job "recoveryBinding" = true.
Proof. done. Qed.

Definition emptyQueue : QueueState :=
  {| q_jobs := empty; q_pending := []; q_owners := []; q_paused := false; q_nextIdleClaimAt := 0;
     q_scheduler := None; q_mono := 0; q_replies := [] |}.

Definition sampleRequest : PromoteRequest :=
  {| contextGraphId := "did:dkg:context-graph:1"; subGraphName := None; assertionName := "notes";
     entities := all; agentAddress := Some "0x00000000000000000000000000000000000000Aa"%string;
     authorAgentAddress := None; recoveryBinding := None |}.

Definition sampleBinding : PromoteRecoveryBinding :=
  {| rb_version := 1;
     rb_sealDigest := "0x00112233445566778899aabbccddeeff00112233445566778899aabbccddeeff";
     rb_intent := {| oi_version := 1; oi_operationId := "share-1"; oi_timestampMs := 1700000000000;
                     oi_publisherPeerId := None; oi_confirmationRequired := true;
                     oi_accessPolicy := allowList; oi_allowedPeers := ["peer-a"; "peer-b"]%string |};
     rb_inventoryRequired := false |}.

Definition boundRequest : PromoteRequest :=
  {| contextGraphId := contextGraphId sampleRequest; subGraphName := None; assertionName := "notes";
     entities := all; agentAddress := agentAddress sampleRequest; authorAgentAddress := None;
     recoveryBinding := Some sampleBinding |}.

Definition noDeadline : Expiry := {| ex_graph := false; ex_conflict := false; ex_persist := false |}.

Lemma empty_wf : wf (q_jobs emptyQueue) /\ oneOwner (q_jobs emptyQueue) /\
  leasesRunning (q_jobs emptyQueue) /\ successRecorded (q_jobs emptyQueue).
Proof. split_and!; by intros id job. Qed.

(** One job is admitted and claimed; the claim's write is committed but not
    acknowledged. *)
Definition queue1 : QueueState := runOp sampleConfig (OpEnqueue sampleRequest noDeadline 1000 "job-1") emptyQueue.
Definition queue2 : QueueState :=
  runOp sampleConfig (OpClaimNext "worker" 2000 "t1") (set_environment queue1 0 [WUnacked]).

(** The worker starts the promote and its lease runs out. *)
Definition queue3 : QueueState :=
  runOp sampleConfig (OpMarker "job-1" "worker:job-1:t1" st_promoteStarted 3000 3000) (set_environment queue2 0 []).
Definition queue4 : QueueState :=
  runOp sampleConfig (OpRecoverOnStartup 900000) (set_environment queue3 0 []).

(** A durable share that is admitted and claimed at once. *)
Definition queueB : QueueState :=
  runOp sampleConfig (OpEnqueueAndClaim boundRequest "worker" 1000 "share-1" "t1") emptyQueue.

Lemma claimed_history : queue_history sampleConfig emptyQueue queue2.
Proof.
  apply (queue_history_op _ _ (OpEnqueue sampleRequest noDeadline 1000 "job-1") 0 []); [by vm_compute|].
  apply (queue_history_op _ queue1 (OpClaimNext "worker" 2000 "t1") 0 [WUnacked]); [done|]. apply queue_history_nil.
Qed.

Lemma parked_history : queue_history sampleConfig emptyQueue queue4.
Proof.
  apply (queue_history_op _ _ (OpEnqueue sampleRequest noDeadline 1000 "job-1") 0 []); [by vm_compute|].
  apply (queue_history_op _ queue1 (OpClaimNext "worker" 2000 "t1") 0 [WUnacked]); [done|].
  apply (queue_history_op _ queue2 (OpMarker "job-1" "worker:job-1:t1" st_promoteStarted 3000 3000) 0 []); [done|].
  apply (queue_history_op _ queue3 (OpRecoverOnStartup 900000) 0 []); [done|]. apply queue_history_nil.
Qed.

(** A second admission for the owned lane is refused by the queue; a job of
    another assertion is admitted beside it. *)
Definition otherRequest : PromoteRequest :=
  {| contextGraphId := contextGraphId sampleRequest; subGraphName := None; assertionName := "minutes";
     entities := all; agentAddress := agentAddress sampleRequest; authorAgentAddress := None;
     recoveryBinding := None |}.

Definition queue5 : QueueState :=
  runOp sampleConfig (OpEnqueue otherRequest noDeadline 1500 "job-2") (set_environment queue1 0 []).

Lemma other_history : queue_history sampleConfig emptyQueue queue5.
Proof.
  apply (queue_history_op _ _ (OpEnqueue sampleRequest noDeadline 1000 "job-1") 0 []); [by vm_compute|].
  apply (queue_history_op _ queue1 (OpEnqueue otherRequest noDeadline 1500 "job-2") 0 []); [by vm_compute|].
  apply queue_history_nil.
Qed.

Lemma one_owner_per_lane_witness :
  exists job1 job2, q_jobs queue5 !! "job-1"%string = Some job1 /\ q_jobs queue5 !! "job-2"%string = Some job2 /\
    promoteLaneScopesConflict (storedPromoteLaneScope job1) (storedPromoteLaneScope job2) = false /\
    (enqueue sampleConfig sampleRequest noDeadline 1500 "job-2" queue1).1 = Err (JobConflict "job-1").
Proof.
  eexists _, _. split; [vm_compute; reflexivity|]. split; [vm_compute; reflexivity|]. split; [|vm_compute; reflexivity].
  eapply (one_owner_per_lane sampleConfig sample_payload emptyQueue queue5 other_history
            (proj1 empty_wf) (proj1 (proj2 empty_wf)) "job-1"%string "job-2"%string);
    vm_compute; first [reflexivity|discriminate].
Defined.

Definition rowOf (q : QueueState) (id : string) : PromoteJob :=
  default (newJob sampleConfig id sampleRequest 0) (q_jobs q !! id).

Lemma share_history : queue_history sampleConfig emptyQueue queueB.
Proof.
  apply (queue_history_op _ emptyQueue (OpEnqueueAndClaim boundRequest "worker" 1000 "share-1" "t1") 0 []); [by vm_compute|].
  apply queue_history_nil.
Qed.

(** The share's lease runs out, and the store fails during its reclaim. *)
Lemma obligation_never_lost_witness :
  exists n,
    (forall i qi, (i < n)%nat -> queueStates sampleConfig queueB [(OpRecoverOnStartup 900000, 0%Z, [WDeleted])] !! i = Some qi ->
       exists ji, q_jobs qi !! "share-1"%string = Some ji /\ recoveryBinding (request ji) = Some sampleBinding) /\
    (n = length (queueStates sampleConfig queueB [(OpRecoverOnStartup 900000, 0%Z, [WDeleted])]) \/
     exists qn jn, queueStates sampleConfig queueB [(OpRecoverOnStartup 900000, 0%Z, [WDeleted])] !! n = Some qn /\
       q_jobs qn !! "share-1"%string = Some jn /\ recoveryBinding (request jn) = Some sampleBinding /\ shareFinished sampleBinding jn).
Proof.
  apply (obligation_never_lost sampleConfig sample_payload queueB [(OpRecoverOnStartup 900000, 0%Z, [WDeleted])] "share-1" (rowOf queueB "share-1")).
  - apply (history_refines sampleConfig sample_payload _ _ share_history), empty_wf.
  - by split.
  - vm_compute. reflexivity.
  - vm_compute. reflexivity.
  - vm_compute. discriminate.
Defined.

Lemma records_consistent_witness :
  is_Some (lease (rowOf queue2 "job-1")) <-> state (rowOf queue2 "job-1") = running.
Proof.
  refine (proj1 (proj2 (records_consistent sampleConfig sample_payload _ _ claimed_history (proj1 empty_wf)
    (proj1 (proj2 (proj2 empty_wf))) (proj2 (proj2 (proj2 empty_wf))) "job-1"%string (rowOf queue2 "job-1") _))).
  vm_compute. reflexivity.
Defined.

Lemma inspection_is_final_witness :
  state (rowOf queue4 "job-1") = failed /\
  (forall now, exists e q1, recover sampleConfig "job-1" now queue4 = (Err e, q1)).
Proof.
  split; [vm_compute; reflexivity|].
  refine (proj1 (inspection_is_final sampleConfig sample_payload queue4 queue4 "job-1" (rowOf queue4 "job-1") _ _ _ _ _)).
  - apply queue_history_nil.
  - apply (history_refines sampleConfig sample_payload _ _ parked_history), empty_wf.
  - vm_compute. reflexivity.
  - vm_compute. reflexivity.
  - vm_compute. reflexivity.
Defined.
