(* ===== verification/PromoteQueueSpec.v ===== *)
(** * What the promote queue's operations return

    On a healthy store (every write is committed and acknowledged) with no
    admission in doubt the operations finish and settle what they are for:
    expired leases are resolved, a claimable job is claimed, a sweep decides
    every candidate.  And, whatever the store does: who may report on a job,
    what a failure report decides, which retry delays are used, and which
    records can be cleared. *)

From Stdlib Require Import QArith Qround Lqa.
From S2P Require Import Prelude JsString PromoteJob PromotePolicy PromoteQueue PromoteMachine.
From S2P Require Import PromoteQueueTheory PromoteQueueSafety.
Local Open Scope Z_scope.

(** ** A healthy store *)

Definition healthy (q : QueueState) : Prop := q_replies q = [] /\ q_pending q = [].

Lemma observe_healthy job q :
  healthy q -> exists q', observe job q = (Ok tt, q') /\ q_jobs q' = q_jobs q /\ healthy q'.
Proof.
  intros [Hr Hp]. unfold observe, modify, healthy. rewrite Hp. simpl.
  destruct (isOwner job); eexists; (split; [reflexivity|]); done.
Qed.

Lemma observes_healthy jobs q :
  healthy q -> exists q', forM jobs observe q = (Ok tt, q') /\ q_jobs q' = q_jobs q /\ healthy q'.
Proof.
  revert q. induction jobs as [|job jobs IH]; intros q Hh; [by exists q|].
  cbn [forM]. unfold bindM. destruct (observe_healthy job q Hh) as (q1 & -> & Hq & Hh1).
  destruct (IH q1 Hh1) as (q2 & -> & Hq2 & Hh2). exists q2. split_and!; [done|congruence|done].
Qed.

Lemma write_healthy job q :
  healthy q -> (hasBinding job = true -> isBoundPromoteJob job = true) ->
  exists q', writeJob job q = (Ok tt, q') /\ q_jobs q' = <[jobId job := job]> (q_jobs q) /\ healthy q'.
Proof.
  intros [Hr Hp] Hb. unfold writeJob, writeJobWithEvidence, persistPromoteJobWithEvidence.
  assert (hasBinding job && negb (isBoundPromoteJob job) = false) as ->.
  { destruct (hasBinding job); [by rewrite Hb|done]. }
  unfold bindM, nextReply, invalidate, modify, ret. cbn [q_replies set_admissions set_idle]. rewrite Hr.
  cbn -[observe].
  match goal with |- context [observe job ?q0] => destruct (observe_healthy job q0) as (q1 & -> & Hq1 & Hh1) end.
  { done. }
  exists q1. done.
Qed.

Lemma conflict_healthy cfg lookup exclude q :
  healthy q ->
  exists c q', findActiveConflict cfg lookup exclude q = (Ok (DurableConflict <$> c), q') /\
    q_jobs q' = q_jobs q /\ healthy q' /\
    (forall other, c = Some other -> other ∈ rows q /\ exclude <> Some (jobId other) /\ isOwner other = true /\
       promoteLaneScopesConflict (storedPromoteLaneScope other) (lk_laneScope lookup) = true).
Proof.
  intros Hh. unfold findActiveConflict, bindM, get. rewrite (proj2 Hh). simpl.
  destruct (observes_healthy (readPromoteOwnershipCandidates cfg q lookup) q Hh) as (q1 & -> & Hq & Hh1).
  eexists _, q1. split; [reflexivity|]. split_and!; [done|done|].
  intros other [Hin Ho]%List.find_some. apply list_elem_of_In in Hin. unfold readPromoteOwnershipCandidates in Hin.
  apply list_elem_of_filter in Hin as [Hc [_ Hin]%list_elem_of_filter].
  apply andb_true_iff in Ho as [Hex Ho]. apply negb_true_iff, bool_decide_eq_false in Hex. done.
Qed.

Lemma list_healthy cfg states q :
  wf (q_jobs q) -> healthy q ->
  exists l q', listUnlocked cfg states q = (Ok l, q') /\ q_jobs q' = q_jobs q /\ healthy q' /\ current l q' /\
    (forall job, job ∈ l <-> q_jobs q !! jobId job = Some job /\ state job ∈ states).
Proof.
  intros Hwf Hh. unfold listUnlocked, bindM, get. set (l := js_sort _ _).
  assert (l ≡ₚ filter (fun job => state job ∈ states) (rows q)) as Hp by apply js_sort_perm.
  destruct (observes_healthy l q Hh) as (q1 & -> & Hq & Hh1). exists l, q1.
  assert (current (filter (fun job => state job ∈ states) (rows q)) q) as [Hnd Hl].
  { apply current_filter. split; [by apply rows_NoDup|]. intros job. by apply rows_lookup. }
  split_and!; [done|done|done| |].
  - split; [by rewrite Hp|]. intros job Hin. rewrite Hq. apply Hl. by rewrite <- Hp.
  - intros job. rewrite Hp, list_elem_of_filter, rows_lookup by done. naive_solver.
Qed.

(** ** Expired leases *)

Lemma snapshot_wf job : wfJob job -> exists r, snapshotPromoteRequest (request job) = Ok r.
Proof.
  intros [Hb _]. unfold snapshotPromoteRequest. unfold hasBinding in Hb.
  destruct (recoveryBinding (request job)) as [b|] eqn:E; [|by eauto].
  assert (isBoundPromoteRequest (request job) = true) as Hr.
  { specialize (Hb eq_refl). unfold isBoundPromoteJob in Hb. by apply andb_true_iff in Hb as [_ ?]. }
  rewrite Hr. simpl. unfold validatePromoteRecoveryBinding.
  unfold isBoundPromoteRequest in Hr. rewrite E in Hr. apply andb_true_iff in Hr as [_ ->]. simpl. by eauto.
Qed.

Lemma expired_needs_inspection job now :
  requiresManualInspection (abandonedJob job now (expiredReason job) (expiredMessage job)) = true.
Proof.
  unfold requiresManualInspection. simpl. unfold expiredReason. case_match.
  - assert (forall x, includes (toLowerCase ("legacy promote job (formatVersion=" ++ x)) "legacy promote job" = true) as ->.
    { intros x. rewrite toLowerCase_app. by apply includes_prefix. }
    by rewrite !orb_true_r.
  - by case_match.
Qed.

Section Expired.
Context (cfg : QueueConfig).

Lemma abandonMissing_healthy job now q :
  healthy q -> wfJob job ->
  if missingStorageLaneForAuthorOnlyJob job
  then exists q', abandonIfMissingStorageLane job now q = (Ok true, q') /\ healthy q' /\
    q_jobs q' = <[jobId job := abandonedJob job now missingStorageLaneReason missingStorageLaneMessage]> (q_jobs q)
  else abandonIfMissingStorageLane job now q = (Ok false, q).
Proof.
  intros Hh Hwf. unfold abandonIfMissingStorageLane, abandonForManualInspection.
  destruct (missingStorageLaneForAuthorOnlyJob job) eqn:Em; simpl; [|done].
  destruct (write_healthy (abandonedJob job now missingStorageLaneReason missingStorageLaneMessage) q Hh)
    as (q' & Hw & Hq & Hh'); [by destruct Hwf|].
  exists q'. unfold bindM. by rewrite Hw.
Qed.

(** A promote that can be run again without publishing twice: a durable share,
    or one whose marker, in a format that guarantees it, proves that nothing was
    started. *)
Definition replaySafe (job : PromoteJob) : Prop :=
  isBoundPromoteJob job = true \/
  (2 <= version job <= 4 /\ markerSwmInserted job = Some false /\ markerPromoteStarted job <> Some true).

Lemma mayReclaim_spec job : mayReclaim job = true <-> replaySafe job.
Proof.
  unfold mayReclaim, replaySafe, ASYNC_PROMOTE_QUEUE_FORMAT_VERSION,
    ASYNC_PROMOTE_QUEUE_MIN_AUTO_RECOVERABLE_FORMAT_VERSION.
  rewrite orb_true_iff, !andb_true_iff, !Z.leb_le, bool_decide_eq_true, negb_true_iff, bool_decide_eq_false. naive_solver.
Qed.

(** What becomes of a record whose lease has run out. *)
Definition resolved (job job' : PromoteJob) (outcome : lease_recovery) : Prop :=
  (missingStorageLaneForAuthorOnlyJob job = false /\ replaySafe job /\
   outcome = reclaimed /\ state job' = queued /\ lease job' = None /\ commitMarker job' = None /\
   sameScope (request job) (request job') /\
   recoveryBinding (request job') = recoveryBinding (request job) /\
   at_count (attempt job') = at_count (attempt job)) \/
  ((missingStorageLaneForAuthorOnlyJob job = true \/ ~ replaySafe job) /\
   outcome = abandoned /\ state job' = failed /\ lease job' = None /\ request job' = request job /\
   requiresManualInspection job' = true).

Lemma abandoned_wf job now why message :
  wfJob job -> hasBinding (abandonedJob job now why message) = true ->
  isBoundPromoteJob (abandonedJob job now why message) = true.
Proof. by intros [Hb _]. Qed.

Lemma reclaimed_wf job r now :
  wfJob job -> snapshotPromoteRequest (request job) = Ok r ->
  hasBinding (reclaimedJob job r now) = true -> isBoundPromoteJob (reclaimedJob job r now) = true.
Proof.
  intros [Hb _] Hs Hr. unfold isBoundPromoteJob, hasBinding in *. simpl in *.
  apply (snapshot_bound _ _ Hs).
  pose proof (snapshot_scope _ _ Hs) as [_ Heq]. rewrite Heq in Hr. by apply Hb, andb_true_iff in Hr as [_ ?].
Qed.

Lemma reconcile_expired job now summary q :
  wf (q_jobs q) -> healthy q -> q_jobs q !! jobId job = Some job -> leaseExpired job now ->
  exists q' job' outcome,
    reconcileJob cfg job now summary q = (Ok (countLeaseRecovery summary outcome), q') /\
    q_jobs q' = <[jobId job := job']> (q_jobs q) /\ healthy q' /\
    JobStep cfg job job' /\ state job' <> running /\
    (free (q_jobs q) (jobId job) (storedPromoteLaneScope job) -> resolved job job' outcome).
Proof.
  intros Hwf Hh Hl Hexp. pose proof Hexp as [Hr He]. pose proof (Hwf _ _ Hl) as [_ Hwj]. unfold reconcileJob, resolved.
  assert (state job <> succeeded) as Hns by congruence.
  rewrite (proj2 (Z.ltb_ge _ _) He). unfold bindM at 1. pose proof (abandonMissing_healthy job now q Hh Hwj) as Hab.
  destruct (missingStorageLaneForAuthorOnlyJob job) eqn:Em.
  { destruct Hab as (q1 & -> & Hh1 & Hq1). eexists q1, _, abandoned.
    split_and!; [done|exact Hq1|done|by apply step_abandon; auto|done|]. intros _. right. by auto 10. }
  rewrite Hab. unfold bindM at 1.
  destruct (conflict_healthy cfg (conflictLookupForStoredJob job) (Some (jobId job)) q Hh) as (c & q1 & -> & Hq1 & Hh1 & Hc).
  destruct c as [other|]; [|simpl; destruct (mayReclaim job) eqn:Hm].
  - destruct (Hc other eq_refl) as (Hin & Hex & Ho & Hcf). apply rows_lookup in Hin; [|done].
    destruct (write_healthy (abandonedJob job now (conflictReason (jobId other)) (conflictMessage (jobId other))) q1 Hh1)
      as (q2 & Hw & Hq2 & Hh2); [by apply abandoned_wf|].
    eexists q2, _, abandoned. simpl. unfold bindM, abandonForManualInspection. rewrite Hw. rewrite Hq1 in Hq2.
    split_and!; [done|exact Hq2|done|by apply step_abandon; auto|done|]. intros Hfree.
    change (lk_laneScope _) with (storedPromoteLaneScope job) in Hcf.
    rewrite (Hfree (jobId other) other) in Hcf; [done|congruence|done|done].
  - destruct (snapshot_wf job Hwj) as [r Hs]. destruct (write_healthy (reclaimedJob job r now) q1 Hh1) as (q2 & Hw & Hq2 & Hh2).
    { by apply reclaimed_wf. }
    exists q2, (reclaimedJob job r now), reclaimed. unfold bindM, lift. rewrite Hs, Hw.
    destruct (unstarted_same job) as [Hid _]. simpl in Hq2. rewrite Hid, Hq1 in Hq2.
    destruct (snapshot_scope _ _ Hs). split_and!; [done..|by apply step_reclaim|done|].
    intros _. left. apply mayReclaim_spec in Hm. done.
  - destruct (write_healthy (abandonedJob job now (expiredReason job) (expiredMessage job)) q1 Hh1) as (q2 & Hw & Hq2 & Hh2).
    { by apply abandoned_wf. }
    eexists q2, _, abandoned. unfold bindM, abandonForManualInspection. rewrite Hw. rewrite Hq1 in Hq2.
    split_and!; [done|exact Hq2|done|by apply step_abandon; auto|done|].
    intros _. right. rewrite <- mayReclaim_spec, Hm. split_and!; [by right|done..|apply expired_needs_inspection].
Qed.


(** The effect of recovery on the records: only running records whose lease has
    run out change, and they stop running. *)
Definition recoveredRow (now : Z) (job job' : PromoteJob) : Prop :=
  job' = job \/ (leaseExpired job now /\ JobStep cfg job job' /\ state job' <> running).

Definition recovered (now : Z) (jobs jobs' : gmap string PromoteJob) : Prop :=
  forall id, option_Forall2 (recoveredRow now) (jobs !! id) (jobs' !! id).

Lemma recovered_refl now jobs : recovered now jobs jobs.
Proof. intros id. destruct (jobs !! id); constructor. by left. Qed.

Lemma leaseExpired_dec job now :
  state job = running ->
  (leaseExpired job now \/ ~ leaseExpired job now /\ (now < default 0 (ls_expiresAt <$> lease job))%Z).
Proof.
  intros Hr. destruct (Z.le_gt_cases (default 0 (ls_expiresAt <$> lease job)) now); [by left|right].
  split; [|lia]. intros [_ ?]. lia.
Qed.

Lemma reconcile_healthy job now summary q :
  wf (q_jobs q) -> healthy q -> q_jobs q !! jobId job = Some job -> state job = running ->
  exists summary' q', reconcileJob cfg job now summary q = (Ok summary', q') /\ healthy q' /\ wf (q_jobs q') /\
    recovered now (q_jobs q) (q_jobs q') /\
    (forall id, id <> jobId job -> q_jobs q' !! id = q_jobs q !! id) /\
    (forall job', q_jobs q' !! jobId job = Some job' -> ~ leaseExpired job' now).
Proof.
  intros Hwf Hh Hl Hr. destruct (leaseExpired_dec job now Hr) as [Hexp|[Hn He]].
  - destruct (reconcile_expired job now summary q Hwf Hh Hl Hexp) as (q' & job' & o & -> & Hq & Hh' & Hst & Hnr & _).
    pose proof (step_request _ _ _ Hst) as [Hid _]. pose proof (Hwf _ _ Hl) as [_ Hwj].
    eexists _, q'. rewrite Hq. split_and!; [done|done| | | |].
    + intros id j. rewrite lookup_insert_Some. intros [[<- <-]|[_ ?]]; [|by apply Hwf]. split; [done|by eapply step_wf].
    + intros id. destruct (decide (jobId job = id)) as [<-|Hne];
        [|rewrite lookup_insert_ne by done; apply recovered_refl].
      rewrite lookup_insert_eq, Hl. constructor. by right.
    + intros id Hne. by rewrite lookup_insert_ne.
    + intros j. rewrite lookup_insert_eq. intros [= <-] [? _]. done.
  - exists summary, q. unfold reconcileJob. rewrite (proj2 (Z.ltb_lt _ _) He). split_and!; [done..|apply recovered_refl|done|]. intros j Hj. by replace j with job by congruence.
Qed.

Lemma recovered_trans now jobs1 jobs2 jobs3 :
  recovered now jobs1 jobs2 -> recovered now jobs2 jobs3 -> recovered now jobs1 jobs3.
Proof.
  intros H1 H2 id. specialize (H1 id). specialize (H2 id).
  destruct H1 as [j1 j2 Hs1|]; inversion H2 as [? j3 Hs2 E1 E2|]; constructor.
  destruct Hs2 as [->|(He2 & Hst2 & Hn2)]; [done|]. destruct Hs1 as [->|(_ & _ & ?)]; [right; done|].
  by destruct He2.
Qed.

Lemma recovered_kept now jobs jobs' id job :
  recovered now jobs jobs' -> jobs !! id = Some job -> ~ leaseExpired job now -> jobs' !! id = Some job.
Proof. intros H Hl Hn. specialize (H id). rewrite Hl in H. inversion H as [? j [->|[? _]]|]; [done|done]. Qed.

Lemma reconcileLoop_healthy l now summary q :
  wf (q_jobs q) -> healthy q -> current l q -> (forall job, job ∈ l -> state job = running) ->
  exists summary' q', reconcileLoop cfg l now summary q = (Ok summary', q') /\ healthy q' /\ wf (q_jobs q') /\
    recovered now (q_jobs q) (q_jobs q') /\
    (forall id, id ∉ jobId <$> l -> q_jobs q' !! id = q_jobs q !! id) /\
    (forall id job', id ∈ jobId <$> l -> q_jobs q' !! id = Some job' -> ~ leaseExpired job' now).
Proof.
  revert summary q. induction l as [|job l IH]; intros summary q Hwf Hh Hc Hr.
  { exists summary, q. split_and!; [done..|apply recovered_refl|done|]. by intros id job' ?%not_elem_of_nil. }
  cbn [reconcileLoop]. unfold bindM.
  destruct (reconcile_healthy job now summary q) as (s1 & q1 & -> & Hh1 & Hwf1 & Hrec1 & Hf1 & Hn1);
    [done|done|apply Hc; by left|apply Hr; by left|].
  destruct (IH s1 q1) as (s2 & q2 & -> & Hh2 & Hwf2 & Hrec2 & Hf2 & Hn2);
    [done|done|by eapply current_frame|intros; apply Hr; by right|].
  exists s2, q2. destruct Hc as [Hnd _]. rewrite fmap_cons, NoDup_cons in Hnd. destruct Hnd as [Hni _].
  split_and!; [done..|by eapply recovered_trans| |].
  - intros id Hid. rewrite fmap_cons, not_elem_of_cons in Hid. rewrite Hf2, Hf1; naive_solver.
  - intros id job'. rewrite fmap_cons, elem_of_cons. intros [->|Hin]; [|by apply Hn2].
    rewrite Hf2 by done. by apply Hn1.
Qed.

Lemma reconcileAll_healthy now q :
  wf (q_jobs q) -> healthy q ->
  exists summary q', reconcileExpiredRunning cfg now q = (Ok summary, q') /\ healthy q' /\ wf (q_jobs q') /\
    recovered now (q_jobs q) (q_jobs q') /\
    (forall id job', q_jobs q' !! id = Some job' -> ~ leaseExpired job' now).
Proof.
  intros Hwf Hh. unfold reconcileExpiredRunning, bindM.
  destruct (list_healthy cfg [running] q Hwf Hh) as (l & q1 & -> & Hq1 & Hh1 & Hc & Hl).
  destruct (reconcileLoop_healthy l now {| rs_reclaimed := 0; rs_abandoned := 0 |} q1)
    as (s & q2 & -> & Hh2 & Hwf2 & Hrec & Hf & Hn); [by rewrite Hq1|done|done| |].
  { intros job [_ Hin]%Hl. by apply list_elem_of_singleton in Hin. }
  exists s, q2. rewrite Hq1 in *. split_and!; [done..|]. intros id job' Hl' Hexp.
  destruct (decide (id ∈ jobId <$> l)) as [Hin|Hni]; [by eapply Hn|]. apply Hni.
  rewrite Hf in Hl' by done. destruct (Hwf _ _ Hl') as [<- _]. apply list_elem_of_fmap_2, Hl.
  split; [done|]. apply list_elem_of_singleton. by destruct Hexp.
Qed.

(** Recovery at startup terminates with a result and is complete: no
    running record with an expired lease is left, every record whose lease is
    live or that does not run is untouched, and no record appears or
    disappears. *)
Theorem startup_recovers_all now q :
  wf (q_jobs q) -> healthy q ->
  exists summary q', recoverOnStartup cfg now q = (Ok summary, q') /\
    (forall id job, q_jobs q' !! id = Some job -> ~ leaseExpired job now) /\
    (forall id job, q_jobs q !! id = Some job -> ~ leaseExpired job now -> q_jobs q' !! id = Some job) /\
    (forall id, is_Some (q_jobs q' !! id) <-> is_Some (q_jobs q !! id)).
Proof.
  intros Hwf Hh. destruct (reconcileAll_healthy now q Hwf Hh) as (s & q' & Hrun & _ & _ & Hrec & Hn).
  exists s, q'. split_and!; [done..|intros; by eapply recovered_kept|].
  intros id. specialize (Hrec id). by inversion Hrec.
Qed.

End Expired.

(** ** Leases *)

Lemma held_ok job token now : leaseHeld job token now -> assertLeaseHeld job token now = Ok tt.
Proof.
  intros (Hr & l & Hl & <- & Hn). unfold assertLeaseHeld. rewrite Hr, Hl, String.eqb_refl, (proj2 (Z.leb_gt _ _) Hn).
  done.
Qed.

Definition rejects {A : Type} (m : M A) (q : QueueState) : Prop :=
  exists e q', m q = (Err e, q') /\ q_jobs q' = q_jobs q.

Lemma unheld_rejects {A} id token now (k : PromoteJob -> M A) q :
  (forall job, q_jobs q !! id = Some job -> ~ leaseHeld job token now) ->
  rejects (let! job := requireJob id in let! _ := lift (assertLeaseHeld job token now) in k job) q.
Proof.
  intros Hn. unfold rejects, bindM, lift. destruct (requireJob_run id q) as (r & q1 & -> & Hq & Hr).
  destruct r as [job|e]; [|by eauto]. destruct (assertLeaseHeld job token now) as [u|e] eqn:El; [|by eauto].
  destruct (Hn job Hr). by eapply leaseHeld_ok.
Qed.

(** A write of the holder on a healthy store. *)
Lemma held_writes id token now q job f :
  wf (q_jobs q) -> healthy q -> q_jobs q !! id = Some job -> leaseHeld job token now ->
  jobId (f job) = jobId job -> request (f job) = request job -> formatVersion (f job) = formatVersion job ->
  exists q', (let! job := requireJob id in let! _ := lift (assertLeaseHeld job token now) in writeJob (f job)) q = (Ok tt, q') /\
    q_jobs q' = <[id := f job]> (q_jobs q).
Proof.
  intros Hw Hh Hl Hheld Hid Hreq Hfmt. destruct (Hw _ _ Hl) as [Hj [Hb _]]. unfold requireJob, readJob, bindM, get, lift. rewrite Hl.
  destruct (observe_healthy job q Hh) as (q1 & -> & Hq & Hh1). cbn -[writeJob assertLeaseHeld]. rewrite (held_ok _ _ _ Hheld).
  destruct (write_healthy (f job) q1 Hh1) as (q2 & -> & Hq2 & _).
  - unfold hasBinding, isBoundPromoteJob in *. by rewrite Hreq, Hfmt.
  - exists q2. split; [done|]. by rewrite Hq2, Hid, Hj, Hq.
Qed.

(** C20: A worker reports on a job exactly while it holds the lease. With a stale or foreign
    claim token, after the lease has run out, or for a job that does not run, each of the
    five reports is rejected and no record changes, whatever the store does. While the lease
    is held and the store is healthy, a heartbeat extends it to a full lease from the
    time of the heartbeat under the same token, and a commit marker is recorded
    with the lease as it was. *)
Theorem lease_required cfg id token now1 q :
  ((forall job, q_jobs q !! id = Some job -> ~ leaseHeld job token now1) ->
   forall now2 step r error binding,
     rejects (heartbeat cfg id token now1 now2) q /\
     rejects (recordCommitMarker id token step now1 now2) q /\
     rejects (succeed cfg id token r now1 now2) q /\
     rejects (fail cfg id token error now1 now2) q /\
     rejects (bindRecovery id token binding now1 now2) q) /\
  (forall job now2 step, wf (q_jobs q) -> healthy q -> q_jobs q !! id = Some job -> leaseHeld job token now1 ->
   (exists q' job', heartbeat cfg id token now1 now2 q = (Ok tt, q') /\ q_jobs q' = <[id := job']> (q_jobs q) /\
      request job' = request job /\ commitMarker job' = commitMarker job /\
      forall t, leaseHeld job' token t <-> (t < now2 + c_leaseMs cfg)%Z) /\
   (exists q' job', recordCommitMarker id token step now1 now2 q = (Ok tt, q') /\ q_jobs q' = <[id := job']> (q_jobs q) /\
      request job' = request job /\ commitMarker job' = Some (markStep (commitMarker job) step) /\
      forall t, leaseHeld job' token t <-> leaseHeld job token t)).
Proof.
  split; [intros Hn now2 step r error binding; split_and!; by apply unheld_rejects|]. intros job now2 step Hw Hh Hl Hheld. split.
  - destruct (held_writes id token now1 q job (fun job => refreshedJob cfg job now2) Hw Hh Hl Hheld) as (q' & Hrun & Hq'); [done..|].
    exists q', (refreshedJob cfg job now2). split_and!; [exact Hrun|exact Hq'|done..|]. intros t. destruct Hheld as (Hs & l & El & Ht & _).
    unfold leaseHeld, refreshedJob. cbn. rewrite El. cbn. naive_solver.
  - destruct (held_writes id token now1 q job (fun job => markedJob job step now2) Hw Hh Hl Hheld) as (q' & Hrun & Hq'); [done..|].
    by exists q', (markedJob job step now2).
Qed.

(** ** Claims *)

Lemma writeJob_ok job q u q' : writeJob job q = (Ok u, q') -> q_jobs q' = <[jobId job := job]> (q_jobs q).
Proof.
  unfold writeJob, bindM. destruct (write_run job q) as (p & q1 & -> & Hq). destruct p; [|done..].
  intros [= _ <-]. by destruct Hq as [?|[? _]].
Qed.

(** Abandoning candidates starts nothing. *)
Lemma abandonMissing_running job now q id other :
  q_jobs (abandonIfMissingStorageLane job now q).2 !! id = Some other -> state other = running ->
  q_jobs q !! id = Some other.
Proof.
  unfold abandonIfMissingStorageLane. destruct (missingStorageLaneForAuthorOnlyJob job); simpl; [|done].
  intros H Hr.
  assert (q_jobs (writeJob (abandonedJob job now missingStorageLaneReason missingStorageLaneMessage) q).2 !! id = Some other) as Hw.
  { unfold bindM, abandonForManualInspection in H. by destruct (writeJob _ q) as [[[]|] ?]. }
  rewrite writeJob_state in Hw.
  destruct (write_run (abandonedJob job now missingStorageLaneReason missingStorageLaneMessage) q) as (p & q1 & E & Hq).
  rewrite E in Hw. simpl in *. destruct Hq as [Hq|[_ [Hq|[_ Hq]]]]; rewrite Hq in Hw.
  - apply lookup_insert_Some in Hw as [[_ <-]|[_ ?]]; done.
  - done.
  - by apply lookup_delete_Some in Hw as [_ ?].
Qed.

Lemma abandonMissing_false job now q q' :
  abandonIfMissingStorageLane job now q = (Ok false, q') -> missingStorageLaneForAuthorOnlyJob job = false.
Proof.
  unfold abandonIfMissingStorageLane. destruct (missingStorageLaneForAuthorOnlyJob job); [|done]. simpl.
  unfold bindM, abandonForManualInspection. by destruct (writeJob _ q) as [[[]|] ?].
Qed.

Lemma keepClaimable_kept l now q kept q' :
  keepClaimable l now q = (Ok kept, q') ->
  (forall c, c ∈ kept -> c ∈ l /\ missingStorageLaneForAuthorOnlyJob c = false) /\
  (forall id other, q_jobs q' !! id = Some other -> state other = running -> q_jobs q !! id = Some other).
Proof.
  revert q kept q'. induction l as [|c l IH]; intros q kept q'; cbn [keepClaimable].
  { intros [= <- <-]. split; [by intros c ?%not_elem_of_nil|done]. }
  unfold bindM. pose proof (abandonMissing_running c now q) as Hab. pose proof (abandonMissing_false c now q) as Hf.
  destruct (abandonIfMissingStorageLane c now q) as [[b|] q1]; [|done]. simpl in Hab.
  destruct (keepClaimable l now q1) as [[rest|] q2] eqn:E; [|done]. intros [= <- <-].
  destruct (IH _ _ _ E) as [Hk Hr]. split; [|by auto].
  intros x Hx. rewrite elem_of_cons. destruct b; [apply Hk in Hx as [? ?]; by auto|].
  apply elem_of_cons in Hx as [->|[? ?]%Hk]; [split; [by left|by eapply Hf]|by auto].
Qed.

Lemma eligible_spec jobs candidates c :
  c ∈ eligibleFor jobs candidates <-> c ∈ candidates /\
    (forall other, other ∈ jobs -> state other = running -> jobId other <> jobId c ->
       promoteLaneScopesConflict (storedPromoteLaneScope other) (storedPromoteLaneScope c) = false).
Proof.
  unfold eligibleFor. rewrite list_elem_of_filter. split.
  - intros [He Hc]. split; [done|]. intros other Hin Hr Hne.
    apply not_true_iff_false in He. apply not_true_iff_false. intros Hcf. apply He. apply existsb_exists. exists other.
    rewrite <- list_elem_of_In, list_elem_of_filter. split; [done|]. unfold jobsShareClaimLane. rewrite Hcf.
    apply String.eqb_neq in Hne. by rewrite Hne.
  - intros [Hc Hf]. split; [|done]. apply not_true_iff_false. intros (other & Hin & Hcf)%existsb_exists.
    rewrite <- list_elem_of_In, list_elem_of_filter in Hin. destruct Hin as [Hr Hin].
    apply andb_true_iff in Hcf as [Hne Hcf]. apply negb_true_iff, String.eqb_neq in Hne.
    unfold jobsShareClaimLane in Hcf. by rewrite Hf in Hcf.
Qed.

Lemma candidate_spec now job :
  claimCandidate now job = true <->
  (state job = queued \/ (state job = failed_retrying /\ default 0 (at_nextRetryAt (attempt job)) <= now)) /\
  version job <= 4.
Proof.
  unfold claimCandidate, ASYNC_PROMOTE_QUEUE_FORMAT_VERSION.
  rewrite andb_true_iff, orb_true_iff, andb_true_iff, negb_true_iff, Z.ltb_ge, !bool_decide_eq_true, Z.leb_le. naive_solver.
Qed.

Section Claims.
Context (cfg : QueueConfig).

Section Sound.
Hypothesis payload_mentions_binding :
  forall job, hasBinding job = true -> c_payloadContains cfg job "recoveryBinding" = true.

Lemma claim_finish jobs kept q worker now token claimed q' :
  match eligibleFor jobs kept with
  | [] => let! _ := modify (fun q => set_idle q (idleDeadline jobs now)) in ret None
  | next :: _ =>
      let! _ := writeJob (claimPromoteJob next worker now (c_leaseMs cfg) token) in
      ret (Some (claimPromoteJob next worker now (c_leaseMs cfg) token))
  end q = (Ok (Some claimed), q') ->
  exists next, next ∈ eligibleFor jobs kept /\
    claimed = claimPromoteJob next worker now (c_leaseMs cfg) token /\
    q_jobs q' = <[jobId next := claimed]> (q_jobs q).
Proof.
  destruct (eligibleFor jobs kept) as [|next rest]; [done|]. unfold bindM.
  destruct (writeJob _ q) as [[u|] q1] eqn:E; [|done]. intros [= <- <-]. exists next.
  split_and!; [by left|done|]. by rewrite (writeJob_ok _ _ _ _ E).
Qed.

(** A claim is sound whatever the store replies: the claimed job was ready
    (queued, or its retry time had come) and of a known format and lane, it is
    stored as running under the new token, and no other running record holds its
    assertion lane. *)
Theorem claim_sound worker now token q claimed q' :
  wf (q_jobs q) -> claimNext cfg worker now token q = (Ok (Some claimed), q') ->
  q_paused q = false /\
  exists job, claimed = claimPromoteJob job worker now (c_leaseMs cfg) token /\
    (state job = queued \/ (state job = failed_retrying /\ default 0 (at_nextRetryAt (attempt job)) <= now)) /\
    version job <= 4 /\ missingStorageLaneForAuthorOnlyJob job = false /\
    q_jobs q' !! jobId job = Some claimed /\
    (forall id other, id <> jobId job -> q_jobs q' !! id = Some other -> state other = running ->
       promoteLaneScopesConflict (storedPromoteLaneScope other) (storedPromoteLaneScope job) = false).
Proof.
  intros Hwf H. unfold claimNext in H. destruct (nonEmpty worker); [|done]. cbn [negb] in H.
  unfold bindM at 1, get in H. destruct (q_paused q); [done|]. split; [done|].
  destruct (_ && _) in H; [done|]. unfold bindM at 1 in H.
  pose proof (runs_reconcile cfg payload_mentions_binding now q Hwf) as Hr. unfold runs in Hr.
  destruct (reconcileExpiredRunning cfg now q) as [[s|] q1]; [|done]. destruct Hr as [Hr _].
  apply refines_wf in Hr; [|done]. unfold bindM at 1 in H.
  pose proof (runs_listUnlocked cfg ACTIVE_PROMOTE_STATES q1 (fun l q2 => q_jobs q2 = q_jobs q1 /\
    forall job, job ∈ l <-> job ∈ rows q1 /\ state job ∈ ACTIVE_PROMOTE_STATES) Hr) as Hl. unfold runs in Hl.
  destruct (listUnlocked cfg ACTIVE_PROMOTE_STATES q1) as [[jobs|] q2]; [|done].
  destruct Hl as [_ [Hq2 Hl]]; [by auto|]. unfold bindM at 1 in H.
  destruct (keepClaimable _ now q2) as [[kept|] q3] eqn:E; [|done].
  destruct (keepClaimable_kept _ _ _ _ _ E) as [Hm Hrun]. apply claim_finish in H as (next & Hin & -> & Hq').
  apply eligible_spec in Hin as [Hin Hfree].
  apply Hm in Hin as [[[Hst Hv]%candidate_spec Hj]%list_elem_of_filter Hmis]. exists next.
  split_and!; [done..|rewrite Hq'; apply lookup_insert_eq|].
  intros id other Hne Ho Hr'. rewrite Hq', lookup_insert_ne in Ho by done.
  pose proof (Hrun _ _ Ho Hr') as Ho2. rewrite Hq2 in Ho2. destruct (Hr _ _ Ho2) as [<- _].
  apply Hfree; [|done|done]. apply Hl. split; [by apply rows_lookup|]. rewrite Hr'. set_solver.
Qed.

End Sound.

Lemma keepClaimable_healthy l now q :
  healthy q -> (forall c, c ∈ l -> wfJob c) ->
  exists kept q', keepClaimable l now q = (Ok kept, q') /\ healthy q' /\
    (forall c, c ∈ l -> missingStorageLaneForAuthorOnlyJob c = false -> c ∈ kept).
Proof.
  revert q. induction l as [|c l IH]; intros q Hh Hw; cbn [keepClaimable].
  { exists [], q. split_and!; [done..|]. by intros c ?%not_elem_of_nil. }
  assert (exists b q1, abandonIfMissingStorageLane c now q = (Ok b, q1) /\ healthy q1 /\
    b = missingStorageLaneForAuthorOnlyJob c) as (b & q1 & E & Hh1 & ->).
  { pose proof (abandonMissing_healthy c now q Hh (Hw c (list_elem_of_here c l))) as Hab.
    destruct (missingStorageLaneForAuthorOnlyJob c); [destruct Hab as (q1 & ? & ? & _)|]; by eauto. }
  destruct (IH q1 Hh1) as (kept & q2 & E2 & Hh2 & Hk); [intros; apply Hw; by right|].
  eexists _, q2. unfold bindM. rewrite E, E2. split_and!; [reflexivity|done|].
  intros x. rewrite elem_of_cons. intros [->|Hin] Hm.
  - rewrite Hm. by left.
  - destruct (missingStorageLaneForAuthorOnlyJob c); [|right]; by apply Hk.
Qed.

(** C28: on a healthy store a worker that polls a queue with a claimable job
    gets a job: it is enough that one job is ready, of a known lane, and that no
    running record with a live lease holds its assertion lane.  Records whose
    lease has run out do not block it. *)
Theorem claim_live worker now token q job :
  wf (q_jobs q) -> healthy q -> nonEmpty worker = true -> q_paused q = false ->
  q_scheduler q = None \/ q_nextIdleClaimAt q <= now ->
  q_jobs q !! jobId job = Some job ->
  state job = queued \/ (state job = failed_retrying /\ default 0 (at_nextRetryAt (attempt job)) <= now) ->
  version job <= 4 -> missingStorageLaneForAuthorOnlyJob job = false ->
  (forall id other, id <> jobId job -> q_jobs q !! id = Some other -> state other = running ->
     ~ leaseExpired other now ->
     promoteLaneScopesConflict (storedPromoteLaneScope other) (storedPromoteLaneScope job) = false) ->
  exists claimed q', claimNext cfg worker now token q = (Ok (Some claimed), q') /\
    q_jobs q' !! jobId claimed = Some claimed /\ state claimed = running.
Proof.
  intros Hwf Hh Hw Hp Hidle Hl Hst Hv Hm Hfree. pose proof (proj2 (candidate_spec now job) (conj Hst Hv)) as Hc.
  unfold claimNext. rewrite Hw. cbn [negb].
  unfold bindM at 1, get. rewrite Hp.
  replace (_ && _) with false by (destruct Hidle as [->|Hi%Z.ltb_ge]; [done|by rewrite Hi, andb_false_r]).
  destruct (reconcileAll_healthy cfg now q Hwf Hh) as (s & q1 & E1 & Hh1 & Hwf1 & Hrec & Hnexp).
  unfold bindM at 1. rewrite E1.
  destruct (list_healthy cfg ACTIVE_PROMOTE_STATES q1 Hwf1 Hh1) as (jobs & q2 & E2 & Hq2 & Hh2 & Hcur & Hjobs).
  unfold bindM at 1. rewrite E2.
  assert (forall c, c ∈ jobs -> wfJob c) as Hwj by (intros c [Hc' _]%Hjobs; by apply (Hwf1 _ _ Hc')).
  destruct (keepClaimable_healthy (filter (fun j => claimCandidate now j = true) jobs) now q2 Hh2)
    as (kept & q3 & E3 & Hh3 & Hkept); [intros c [_ ?]%list_elem_of_filter; by apply Hwj|].
  unfold bindM at 1. rewrite E3.
  assert (~ leaseExpired job now) as Hne.
  { intros [Hr _]. unfold claimCandidate in Hc. rewrite Hr in Hc. simpl in Hc.
    by rewrite andb_false_r in Hc. }
  assert (job ∈ eligibleFor jobs kept) as Hel.
  { apply eligible_spec. split.
    - apply Hkept; [|done]. apply list_elem_of_filter. split; [done|]. apply Hjobs.
      split; [by eapply recovered_kept|by eapply claimCandidate_active].
    - intros other Hin Hr Hid. apply Hjobs in Hin as [Ho _]. specialize (Hrec (jobId other)).
      rewrite Ho in Hrec. destruct (q_jobs q !! jobId other) as [j|] eqn:Hj; inversion Hrec as [? ? Hrow|].
      destruct Hrow as [->|(_ & _ & ?)]; [|done]. apply (Hfree (jobId j)); [done..|by eapply Hnexp]. }
  destruct (eligibleFor jobs kept) as [|next rest] eqn:El; [by apply not_elem_of_nil in Hel|].
  assert (next ∈ eligibleFor jobs kept) as [Hnext _]%eligible_spec by (rewrite El; by left).
  destruct (keepClaimable_kept _ _ _ _ _ E3) as [Hk _]. apply Hk in Hnext as [[_ Hnext]%list_elem_of_filter _].
  destruct (write_healthy (claimPromoteJob next worker now (c_leaseMs cfg) token) q3 Hh3) as (q4 & E4 & Hq4 & _).
  { by destruct (Hwj _ Hnext). }
  eexists _, q4. unfold bindM. rewrite E4. split_and!; [reflexivity| |done]. rewrite Hq4. apply lookup_insert_eq.
Qed.

End Claims.

(** The idle hint. *)
Lemma idleDeadline_bound jobs now d :
  let f := fun deadline job =>
    let consider (deadline : Z) (at_ : option Z) :=
      match at_ with Some t => if now <? t then Z.min deadline t else deadline | None => deadline end in
    consider (consider deadline (at_nextRetryAt (attempt job))) (ls_expiresAt <$> lease job) in
  foldl f d jobs <= d /\ (now < d -> now < foldl f d jobs) /\
  (forall job t, job ∈ jobs -> now < t ->
     at_nextRetryAt (attempt job) = Some t \/ ls_expiresAt <$> lease job = Some t -> foldl f d jobs <= t).
Proof.
  intros f. revert d. induction jobs as [|job jobs IH]; intros d; simpl.
  { split_and!; [lia|done|]. by intros job t ?%not_elem_of_nil. }
  destruct (IH (f d job)) as (Hd & Hn & Hj).
  assert (f d job <= d /\ (now < d -> now < f d job) /\ (forall t, now < t ->
    at_nextRetryAt (attempt job) = Some t \/ ls_expiresAt <$> lease job = Some t -> f d job <= t)) as (Hfd & Hfn & Hft).
  { unfold f. destruct (at_nextRetryAt (attempt job)) as [t1|], (ls_expiresAt <$> lease job) as [t2|];
      repeat case_match; rewrite ?Z.ltb_lt, ?Z.ltb_ge in *; split_and!; try lia;
      intros t Ht [[= <-]|[= <-]]; lia. }
  split_and!; [lia|lia|]. intros j t. rewrite elem_of_cons. intros [->|Hin] Ht Hor; [|by eapply Hj].
  specialize (Hft t Ht Hor). lia.
Qed.

(** The idle hint of an empty poll never hides work: it lies in the future
    and at most a second ahead, and until then no listed job becomes claimable
    and no listed lease runs out just because time passes. *)
Theorem idle_hint_sound jobs now t :
  0 <= now -> now <= t -> t < idleDeadline jobs now ->
  now < idleDeadline jobs now <= now + 1000 /\
  (forall job, job ∈ jobs -> claimCandidate t job = true -> claimCandidate now job = true) /\
  (forall job, job ∈ jobs -> leaseExpired job t -> leaseExpired job now).
Proof.
  intros H0 Ht Hd. unfold idleDeadline in *. destruct (idleDeadline_bound jobs now (now + 1000)) as (Hle & Hlt & Hj).
  cbn zeta in *. split_and!; [apply Hlt; lia|done| |].
  - intros job Hin. unfold claimCandidate. intros [-> Hc]%andb_true_iff. simpl.
    apply orb_true_iff in Hc as [->|[-> Hr]%andb_true_iff]; [done|]. apply orb_true_iff. right. simpl.
    apply Z.leb_le. apply Z.leb_le in Hr. destruct (at_nextRetryAt (attempt job)) as [x|] eqn:E; simpl in *; [|lia].
    destruct (Z.le_gt_cases x now); [done|]. specialize (Hj job x Hin ltac:(lia) (or_introl E)). lia.
  - intros job Hin [Hr He]. split; [done|]. destruct (ls_expiresAt <$> lease job) as [x|] eqn:E; simpl in *; [|lia].
    destruct (Z.le_gt_cases x now); [done|]. specialize (Hj job x Hin ltac:(lia) (or_intror E)). lia.
Qed.

(** ** Failure reports *)

Lemma unstarted_bound job : isBoundPromoteJob (recordUnstartedPromoteAttempt job) = isBoundPromoteJob job.
Proof.
  destruct (unstarted_same job) as (_ & Hr & _ & _ & _ & _ & _ & Hf & _). unfold isBoundPromoteJob. by rewrite Hr, Hf.
Qed.

Lemma recordedError_retryable job e retired :
  ae_retryable (recordedError job e retired) = true -> isBoundPromoteJob job = true \/ ae_retryable e = true.
Proof.
  unfold recordedError. destruct (isBoundPromoteJob job); [by left|]. simpl. intros H. right.
  by destruct (ae_noEffectProof e), retired.
Qed.

Lemma recordedError_keeps job e retired :
  ae_retryable e = true -> ae_retryable (recordedError job e retired) = true.
Proof. unfold recordedError. intros H. destruct (_ && _); [done|]. by destruct (ae_noEffectProof e), retired. Qed.

Lemma retryAttempt_spec job error count now backoff :
  match promoteRetryAttempt job error count now backoff with
  | Some att => at_count att = count /\ at_nextRetryAt att = Some (now + backoff count) /\
      (isBoundPromoteJob job = true \/ count < at_maxRetries (attempt job) \/
       now - enqueuedAt job < PROMOTE_PREREQUISITE_RETRY_WINDOW_MS)
  | None => isBoundPromoteJob job = false /\ at_maxRetries (attempt job) <= count
  end.
Proof.
  unfold promoteRetryAttempt. destruct (isBoundPromoteJob job) eqn:Hb; simpl.
  { rewrite andb_false_r. simpl. auto. }
  rewrite andb_true_r. destruct (Z.leb_spec (at_maxRetries (attempt job)) count); simpl; [|auto 10].
  destruct (bool_decide _); simpl; [|done].
  destruct (Z.ltb_spec (now - enqueuedAt job) PROMOTE_PREREQUISITE_RETRY_WINDOW_MS); simpl; auto 10.
Qed.

(** The certificate test of a report agrees with the test of the stored record. *)
Definition certifiesNoEffect (job : PromoteJob) (error : PromoteAttemptError) : bool :=
  bool_decide (ae_diagnosticCode error = Some PROMOTE_NO_EFFECT_REJECTION_CODE)
  && bool_decide (ae_classification error = cap_exceeded) && negb (ae_retryable error)
  && canRetireBoundRejection job (ae_noEffectProof error).

Lemma retire_inv job proof :
  canRetireBoundRejection job proof = true ->
  Z.max 1 (at_count (attempt job)) = at_count (attempt job) /\ reason job = None /\
  markerSwmInserted job = Some false /\ is_Some proof.
Proof.
  unfold canRetireBoundRejection. destruct (recoveryBinding (request job)); [|done].
  rewrite !andb_true_iff, !bool_decide_eq_true, Z.eqb_eq, Z.leb_le.
  intros ((((((_ & _) & ?) & ?) & ?) & ?) & Hp). split; [lia|]. split_and!; [done..|]. by destruct proof.
Qed.

Lemma recorded_certificate job error :
  certifiesNoEffect job error = true -> recordedError job error true = error.
Proof.
  unfold certifiesNoEffect, recordedError. rewrite !andb_true_iff, !bool_decide_eq_true.
  intros (((Hc & _) & _) & (_ & _ & _ & [p ->])%retire_inv). unfold isPromotePostCommitAttemptError.
  rewrite Hc. simpl. by rewrite andb_false_r.
Qed.

Lemma recorded_uncertified job error :
  certifiesNoEffect job error = false ->
  ae_diagnosticCode (recordedError job error false) = Some PROMOTE_NO_EFFECT_REJECTION_CODE ->
  ae_noEffectProof (recordedError job error false) = None.
Proof.
  unfold recordedError. destruct (ae_noEffectProof error) as [p|] eqn:E; simpl; intros _;
    (destruct (_ && _); simpl; [done|]); done.
Qed.

Lemma canRetire_no_proof job : canRetireBoundRejection job None = false.
Proof. unfold canRetireBoundRejection. destruct (recoveryBinding _); [|done]. by rewrite andb_false_r. Qed.

Lemma uncertified_not_retired job error j :
  certifiesNoEffect job error = false -> at_lastError (attempt j) = Some (recordedError job error false) ->
  isRetiredBoundRejection j = false.
Proof.
  intros Hc He. unfold isRetiredBoundRejection. rewrite He.
  destruct (decide (ae_diagnosticCode (recordedError job error false) = Some PROMOTE_NO_EFFECT_REJECTION_CODE)) as [Hd|Hd].
  - rewrite (recorded_uncertified _ _ Hc Hd), canRetire_no_proof. by rewrite !andb_false_r.
  - rewrite (bool_decide_eq_false_2 _ Hd). by rewrite !andb_false_l, andb_false_r.
Qed.

Lemma certified_retired job error j :
  certifiesNoEffect job error = true -> state j = failed -> at_lastError (attempt j) = Some error ->
  request j = request job -> formatVersion j = formatVersion job -> commitMarker j = commitMarker job ->
  preparationAttempts j = preparationAttempts job -> reason j = reason job ->
  at_count (attempt j) = at_count (attempt job) -> isRetiredBoundRejection j = true.
Proof.
  unfold certifiesNoEffect, isRetiredBoundRejection, canRetireBoundRejection, markerSwmInserted.
  intros Hc -> -> -> -> -> -> -> ->. apply andb_true_iff. split; [done|exact Hc].
Qed.

Lemma failure_final job error now backoff retired count :
  retired = certifiesNoEffect job error -> count = Z.max 1 (at_count (attempt job)) ->
  let inserted := bool_decide (markerSwmInserted job = Some true) in
  let j := {| jobId := jobId job; request := request job; state := failed; enqueuedAt := enqueuedAt job;
       updatedAt := now; lease := None;
       attempt := {| at_count := count; at_maxRetries := at_maxRetries (attempt job); at_nextRetryAt := backoff;
                     at_lastError := Some (recordedError job error retired) |}; result_ := result_ job;
       preparationAttempts := preparationAttempts job; commitMarker := commitMarker job;
       reason := if inserted then Some partialPromoteReason else reason job; formatVersion := formatVersion job |} in
  retired = isRetiredBoundRejection j /\ (markerSwmInserted job = Some true -> requiresManualInspection j = true) /\
  hasUnfinishedBoundObligation j = hasBinding job && negb retired.
Proof.
  intros Hret Hcount inserted j. assert (retired = isRetiredBoundRejection j) as Hj; [|split_and!; [done| |]].
  - symmetry. destruct retired.
    + pose proof Hret as Hc. unfold certifiesNoEffect in Hc. symmetry in Hc. apply andb_true_iff in Hc as [_ Hc].
      apply retire_inv in Hc as (Hn & Hr & Hm & _).
      apply (certified_retired job error); simpl; rewrite ?recorded_certificate by done; try done.
      * unfold inserted. by rewrite Hm.
      * congruence.
    + by apply (uncertified_not_retired job error).
  - intros Hm. unfold requiresManualInspection, j. simpl. unfold inserted.
    rewrite bool_decide_eq_true_2 by done. done.
  - unfold hasUnfinishedBoundObligation. rewrite <- Hj. unfold hasBinding. simpl. by rewrite andb_true_r.
Qed.

(** What a worker's failure report decides.  The record keeps its
    request and markers and gives up its lease.  It retries, at the reported
    time, only if it is a durable share, or nothing was inserted, the error is
    retryable and the attempt budget or the prerequisite window is not used up;
    a retryable error within the budget always retries.  Otherwise it has
    failed for good: it needs inspection when shared memory was written, the
    reported retirement is the one every later reader derives from the record,
    and a durable share is still owed unless it was retired. *)
Theorem failure_report_spec job error now backoff j t :
  promoteFailureTransition job error now backoff = (j, t) ->
  jobId j = jobId job /\ request j = request job /\ commitMarker j = commitMarker job /\ lease j = None /\
  let n := Z.max 1 (at_count (attempt job)) in
  at_count (attempt j) = n /\
  match t with
  | TransitionRetrying id count at_ =>
      state j = failed_retrying /\ id = jobId job /\ count = n /\ at_ = now + backoff n /\
      at_nextRetryAt (attempt j) = Some at_ /\
      (isBoundPromoteJob job = true \/
       (markerSwmInserted job <> Some true /\ ae_retryable error = true /\
        (n < at_maxRetries (attempt job) \/ now - enqueuedAt job < PROMOTE_PREREQUISITE_RETRY_WINDOW_MS)))
  | TransitionFailed id count retired =>
      state j = failed /\ id = jobId job /\ count = n /\ at_nextRetryAt (attempt j) = None /\
      ~ (ae_retryable error = true /\
         (isBoundPromoteJob job = true \/ (markerSwmInserted job <> Some true /\ n < at_maxRetries (attempt job)))) /\
      (markerSwmInserted job = Some true -> requiresManualInspection j = true) /\
      retired = isRetiredBoundRejection j /\
      hasUnfinishedBoundObligation j = hasBinding job && negb retired
  end.
Proof.
  pose proof (unstarted_same job) as (Hid & Hreq & _ & _ & Hatt & Hcm & _ & _ & Henq).
  unfold promoteFailureTransition. fold (certifiesNoEffect (recordUnstartedPromoteAttempt job) error).
  rewrite <- (unstarted_bound job). replace (hasBinding job) with (hasBinding (recordUnstartedPromoteAttempt job))
    by (unfold hasBinding; by rewrite Hreq).
  rewrite <- Hid, <- Hreq, <- Hcm, <- Hatt, <- Henq.
  replace (markerSwmInserted job) with (markerSwmInserted (recordUnstartedPromoteAttempt job))
    by (unfold markerSwmInserted; by rewrite Hcm).
  generalize (recordUnstartedPromoteAttempt job) as job1. clear. intros job1. cbn zeta.
  set (retired := certifiesNoEffect job1 error). set (e := recordedError job1 error retired).
  pose proof (retryAttempt_spec job1 e (Z.max 1 (at_count (attempt job1))) now backoff) as Hra.
  pose proof (failure_final job1 error now None retired _ eq_refl eq_refl) as (Hret & Hins & Hobl).
  destruct (ae_retryable e && (negb (bool_decide (markerSwmInserted job1 = Some true)) || isBoundPromoteJob job1)) eqn:Hr;
    [destruct (promoteRetryAttempt job1 e _ now backoff) as [att|] eqn:Ea|];
    intros [= <- <-]; cbn [jobId request commitMarker lease attempt state]; (split_and!; try done).
  - by destruct Hra as [? _].
  - by destruct Hra as (_ & ? & _).
  - apply andb_true_iff in Hr as [He Hr]. destruct (isBoundPromoteJob job1) eqn:Hb; [by left|right].
    rewrite orb_false_r, negb_true_iff, bool_decide_eq_false in Hr.
    destruct (recordedError_retryable _ _ _ He) as [?|?]; [congruence|]. destruct Hra as (_ & _ & [?|?]); done.
  - intros [_ Hor]. destruct Hra as [Hb Hle]. destruct Hor as [?|[_ ?]]; [congruence|lia].
  - intros [He Hor]. unfold e in Hr. rewrite (recordedError_keeps _ _ _ He) in Hr. simpl in Hr.
    apply orb_false_iff in Hr as [Hr Hb]. apply negb_false_iff, bool_decide_eq_true in Hr.
    destruct Hor as [?|[? _]]; congruence.
Qed.

(** ** Retry delays *)

Lemma resolve_inv input tuning :
  resolvePromoteRetryTuning input = Ok tuning ->
  1 <= tn_maxRetries tuning /\ 1 <= tn_retryBaseMs tuning <= tn_retryMaxMs tuning /\
  (0 <= tn_retryJitterRatio tuning <= 1)%Q.
Proof.
  unfold resolvePromoteRetryTuning. intros H. ok_inv. subst tuning. cbn [tn_maxRetries tn_retryBaseMs tn_retryMaxMs tn_retryJitterRatio].
  unfold positiveSafeInteger in *.
  repeat match goal with
  | Hx : negb _ = false |- _ => apply negb_false_iff in Hx
  | Hx : (_ && _) = true |- _ => apply andb_true_iff in Hx as [? ?]
  | Hx : Qle_bool _ _ = true |- _ => apply Qle_bool_iff in Hx
  end.
  rewrite Z.leb_le, Z.ltb_ge in *. split_and!; try done; lia.
Qed.

Lemma defaultBackoff_bounds n tuning :
  1 <= tn_retryBaseMs tuning <= tn_retryMaxMs tuning ->
  tn_retryBaseMs tuning <= defaultBackoffMs n tuning <= tn_retryMaxMs tuning.
Proof.
  intros H. unfold defaultBackoffMs.
  assert (1 <= 2 ^ Z.min 52 (Z.max 0 (n - 1))) by (apply (Z.pow_le_mono_r 2 0); lia). nia.
Qed.

Lemma defaultBackoff_mono n m tuning :
  1 <= tn_retryBaseMs tuning -> n <= m -> defaultBackoffMs n tuning <= defaultBackoffMs m tuning.
Proof.
  intros Hb H. unfold defaultBackoffMs.
  assert (2 ^ Z.min 52 (Z.max 0 (n - 1)) <= 2 ^ Z.min 52 (Z.max 0 (m - 1))) by (apply Z.pow_le_mono_r; lia). nia.
Qed.

Lemma mathRound_bounds x : (x - (1 # 2) <= inject_Z (mathRound x) <= x + (1 # 2))%Q.
Proof.
  unfold mathRound. pose proof (Qfloor_le (x + (1 # 2))) as H1. pose proof (Qlt_floor (x + (1 # 2))) as H2.
  rewrite inject_Z_plus in H2. split; [|done]. change (inject_Z 1) with 1%Q in H2. lra.
Qed.

Lemma jittered_bounds d j r :
  (0 <= d)%Q -> (0 <= j)%Q -> (0 <= r <= 1)%Q ->
  (d * (1 - j) <= d * (1 + j * (2 * r - 1)) <= d * (1 + j))%Q.
Proof.
  intros Hd Hj [Hr0 Hr1]. assert (0 <= d * j)%Q as Hdj by (by apply Qmult_le_0_compat).
  assert (0 <= d * j * r)%Q by (by apply Qmult_le_0_compat).
  assert (0 <= d * j * (1 - r))%Q by (apply Qmult_le_0_compat; [done|lra]). split; lra.
Qed.

(** Retry delays.  With any accepted tuning and any random draw, a delay
    is at least one millisecond and at most the configured maximum, and it lies
    within the jitter ratio (and rounding) of the exponential schedule, which
    starts at the base delay, never decreases and stays between base and
    maximum. *)
Theorem backoff_bounds input tuning rand n m :
  resolvePromoteRetryTuning input = Ok tuning -> (0 <= rand)%Q -> (rand <= 1)%Q -> n <= m ->
  let delay := createDefaultPromoteBackoff rand tuning n in
  let d := inject_Z (defaultBackoffMs n tuning) in
  let j := tn_retryJitterRatio tuning in
  1 <= delay <= tn_retryMaxMs tuning /\
  (d * (1 - j) - (1 # 2) <= inject_Z delay <= d * (1 + j) + (1 # 2))%Q /\
  defaultBackoffMs 1 tuning = tn_retryBaseMs tuning /\
  tn_retryBaseMs tuning <= defaultBackoffMs n tuning <= defaultBackoffMs m tuning /\
  defaultBackoffMs m tuning <= tn_retryMaxMs tuning.
Proof.
  intros (_ & Hb & Hj0 & Hj1)%resolve_inv Hr0 Hr1 Hnm delay d j.
  pose proof (defaultBackoff_bounds n tuning Hb) as [Hn1 Hn2]. pose proof (defaultBackoff_bounds m tuning Hb) as [_ Hm2].
  pose proof (defaultBackoff_mono n m tuning (proj1 Hb) Hnm).
  assert (1 <= d)%Q as Hd1 by (change 1%Q with (inject_Z 1); unfold d; rewrite <- Zle_Qle; lia).
  assert (d <= inject_Z (tn_retryMaxMs tuning))%Q by (unfold d; by rewrite <- Zle_Qle).
  destruct (jittered_bounds d j rand ltac:(lra) Hj0 (conj Hr0 Hr1)) as [Hx1 Hx2].
  unfold delay, createDefaultPromoteBackoff. fold d j.
  set (x := (d * (1 + j * (2 * rand - 1)))%Q) in *. pose proof (mathRound_bounds x) as [Hm1' Hm2'].
  assert (0 <= d * j)%Q by (apply Qmult_le_0_compat; [lra|done]).
  split_and!; try lia.
  - destruct (Z.min_spec (tn_retryMaxMs tuning) (Z.max 1 (mathRound x))) as [[_ ->]|[_ ->]]; [lra|].
    assert (inject_Z (mathRound x) <= inject_Z (Z.max 1 (mathRound x)))%Q by (rewrite <- Zle_Qle; lia). lra.
  - assert (inject_Z (Z.min (tn_retryMaxMs tuning) (Z.max 1 (mathRound x))) <= inject_Z (Z.max 1 (mathRound x)))%Q
      by (rewrite <- Zle_Qle; lia).
    destruct (Z.max_spec 1 (mathRound x)) as [[_ E]|[_ E]]; rewrite E in *; [lra|].
    change (inject_Z 1) with 1%Q in *. lra.
  - unfold defaultBackoffMs. change (2 ^ Z.min 52 (Z.max 0 (1 - 1))) with 1. lia.
Qed.

(** ** Clearing *)

(** A failed promote that the post-commit sweep will take up again. *)
Definition sweepPending (job : PromoteJob) : bool :=
  isAutomaticallyRecoverablePostCommitFailure job
  && (Z.max 1 (at_count (attempt job)) <? at_maxRetries (attempt job)).

(** Clearing a job removes its record only if the job is terminal, owes no
    durable share and will not be taken up by the post-commit sweep; it then
    removes that record and nothing else.  Every other outcome changes no record
    and says why. *)
Theorem clear_spec id q :
  wf (q_jobs q) ->
  exists outcome q', clearTerminalJob id q = (Ok outcome, q') /\
  match outcome with
  | cleared => q_jobs q' = delete id (q_jobs q) /\ isSafeJobId id = true /\
      exists job, q_jobs q !! id = Some job /\ isTerminalPromoteJobState (state job) = true /\
        hasUnfinishedBoundObligation job = false /\ sweepPending job = false
  | already_absent => q_jobs q' = q_jobs q /\ isSafeJobId id = true /\ q_jobs q !! id = None
  | rejected_nonterminal => q_jobs q' = q_jobs q /\
      exists job, q_jobs q !! id = Some job /\
        (hasUnfinishedBoundObligation job = true \/ isTerminalPromoteJobState (state job) = false \/
         sweepPending job = true)
  | rejected_unknown => False
  | rejected_malformed => q_jobs q' = q_jobs q /\ isSafeJobId id = false
  end.
Proof.
  intros Hwf. unfold clearTerminalJob. destruct (isSafeJobId id); [|by eexists _, q]. cbn [negb].
  unfold bindM at 1, get. destruct (q_jobs q !! id) as [job|] eqn:Hl; [|by eexists _, q].
  destruct (Hwf _ _ Hl) as [Hid _]. rewrite Hid, String.eqb_refl. cbn [negb].
  destruct (hasUnfinishedBoundObligation job) eqn:Ho; [by exists rejected_nonterminal, q; split; [|split; [|exists job; auto]]|].
  destruct (isTerminalPromoteJobState (state job)) eqn:Ht; [|by exists rejected_nonterminal, q; split; [|split; [|exists job; auto]]]. cbn [negb].
  fold (sweepPending job). destruct (sweepPending job) eqn:Hs; [by exists rejected_nonterminal, q; split; [|split; [|exists job; auto]]|].
  unfold bindM, deleteJob, bindM. destruct (observe_run job q) as (q1 & -> & Hq). simpl.
  eexists cleared, _. split; [reflexivity|]. simpl. rewrite Hq. by eauto 10.
Qed.

(** ** The post-commit sweep *)

Section Sweep.
Context (cfg : QueueConfig).

Definition swept (job job' : PromoteJob) : Prop :=
  job' = job \/
  (isAutomaticallyRecoverablePostCommitFailure job = true /\
   let n := Z.max 1 (at_count (attempt job)) in
   ((at_maxRetries (attempt job) <= n /\ exists now, job' = exhaustedJob job n now) \/
    (n < at_maxRetries (attempt job) /\ exists now, job' = requeuedJob job n now (now + c_backoff cfg n)))).

Lemma swept_owner job job' :
  swept job job' -> (isOwner job = true -> isOwner job' = true) /\
    storedPromoteLaneScope job' = storedPromoteLaneScope job.
Proof.
  intros [->|(Ha & [[_ [now ->]]|[_ [now ->]]])]; [done| |done]. split; [|done].
  intros Ho. apply owner_failed_binding in Ho as Hb; [|by apply recoverable_failed].
  unfold isOwner, hasUnfinishedBoundObligation. unfold hasBinding in Hb. simpl. rewrite Hb.
  rewrite (recoverable_failed _ Ha). unfold isRetiredBoundRejection, canRetireBoundRejection. simpl.
  destruct (recoveryBinding (request job)); [|done]. destruct (at_lastError (attempt job));
    [rewrite andb_false_r, andb_false_l|]; by rewrite !andb_false_r.
Qed.

Lemma swept_step job job' : swept job job' -> job' <> job -> JobStep cfg job job'.
Proof. intros [->|(Ha & [[Hn [now ->]]|[Hn [now ->]]])] Hne; [done|by apply step_exhaust|by apply step_requeue]. Qed.

Lemma swept_trans job1 job2 job3 : swept job1 job2 -> swept job2 job3 -> swept job1 job3.
Proof.
  intros H1 [->|[Ha Hb]]; [done|]. destruct H1 as [->|(_ & [[_ [now ->]]|[_ [now ->]]])]; [by right| |done].
  unfold isAutomaticallyRecoverablePostCommitFailure in Ha. simpl in Ha. by rewrite andb_false_r in Ha.
Qed.

Definition sweptAll (jobs jobs' : gmap string PromoteJob) : Prop :=
  forall id, option_Forall2 swept (jobs !! id) (jobs' !! id).

Lemma sweptAll_refl jobs : sweptAll jobs jobs.
Proof. intros id. destruct (jobs !! id); constructor. by left. Qed.

Lemma sweptAll_trans jobs1 jobs2 jobs3 : sweptAll jobs1 jobs2 -> sweptAll jobs2 jobs3 -> sweptAll jobs1 jobs3.
Proof.
  intros H1 H2 id. specialize (H1 id). specialize (H2 id).
  destruct H1; inversion H2; constructor. by eapply swept_trans.
Qed.

Lemma sweptAll_insert jobs id job job' : jobs !! id = Some job -> swept job job' -> sweptAll jobs (<[id := job']> jobs).
Proof.
  intros Hl Hs id'. destruct (decide (id = id')) as [<-|Hne]; [|rewrite lookup_insert_ne by done; apply sweptAll_refl].
  rewrite lookup_insert_eq, Hl. by constructor.
Qed.

Lemma sweptAll_wf jobs jobs' : sweptAll jobs jobs' -> wf jobs -> wf jobs'.
Proof.
  intros Hs Hwf id job' Hl. specialize (Hs id). rewrite Hl in Hs. destruct (jobs !! id) as [job|] eqn:E;
    inversion Hs as [? ? Hsw|]. subst. destruct (Hwf _ _ E) as [Hid Hw].
  destruct Hsw as [->|(Ha & [[Hn [now ->]]|[Hn [now ->]]])]; [done|split; [done|]..].
  - by eapply step_wf; [by eapply (step_exhaust cfg)|].
  - by eapply step_wf; [by eapply (step_requeue cfg)|].
Qed.

(** The decision on a candidate: parked when its budget is used up, otherwise
    scheduled, unless another owner holds its lane. *)
Definition decided (job : PromoteJob) (jobs' : gmap string PromoteJob) : Prop :=
  let n := Z.max 1 (at_count (attempt job)) in
  if at_maxRetries (attempt job) <=? n
  then exists now, jobs' !! jobId job = Some (exhaustedJob job n now)
  else (exists now, jobs' !! jobId job = Some (requeuedJob job n now (now + c_backoff cfg n))) \/
       (exists id other, id <> jobId job /\ jobs' !! id = Some other /\ isOwner other = true /\
          promoteLaneScopesConflict (storedPromoteLaneScope other) (storedPromoteLaneScope job) = true).

Lemma decided_mono job jobs jobs' :
  sweptAll jobs jobs' -> jobs' !! jobId job = jobs !! jobId job -> decided job jobs -> decided job jobs'.
Proof.
  unfold decided. intros Hs Hl. rewrite Hl. case_match; [done|]. intros [?|(id & other & Hne & Ho & Hown & Hcf)]; [by left|right].
  specialize (Hs id). rewrite Ho in Hs. destruct (jobs' !! id) as [other'|] eqn:E; inversion Hs as [? ? Hsw|]. subst.
  destruct (swept_owner _ _ Hsw) as [Hi Hsc]. exists id, other'. rewrite Hsc. by auto.
Qed.

Lemma sweepJob_healthy job now q :
  wf (q_jobs q) -> healthy q -> q_jobs q !! jobId job = Some job ->
  exists es q', sweepJob cfg job now q = (Ok es, q') /\ healthy q' /\ sweptAll (q_jobs q) (q_jobs q') /\
    (forall id, id <> jobId job -> q_jobs q' !! id = q_jobs q !! id) /\
    (isAutomaticallyRecoverablePostCommitFailure job = true -> decided job (q_jobs q')).
Proof.
  intros Hwf Hh Hl. unfold sweepJob, decided. destruct (isAutomaticallyRecoverablePostCommitFailure job) eqn:Ha; cbn [negb];
    [|exists [], q; split_and!; [done..|apply sweptAll_refl|done|done]].
  pose proof (Hwf _ _ Hl) as [_ Hwj].
  destruct (Z.leb_spec (at_maxRetries (attempt job)) (Z.max 1 (at_count (attempt job)))) as [Hn|Hn].
  - destruct (write_healthy (exhaustedJob job (Z.max 1 (at_count (attempt job))) now) q Hh) as (q1 & Hw & Hq1 & Hh1);
      [by destruct Hwj|]. eexists _, q1. unfold bindM. rewrite Hw. split; [reflexivity|]. simpl in Hq1. rewrite Hq1.
    split_and!; [done| |intros; by rewrite lookup_insert_ne|intros _; exists now; apply lookup_insert_eq].
    apply (sweptAll_insert _ _ job); [done|]. right. by eauto 10.
  - unfold bindM at 1.
    destruct (conflict_healthy cfg (conflictLookupForStoredJob job) (Some (jobId job)) q Hh) as (c & q1 & -> & Hq1 & Hh1 & Hc).
    destruct c as [other|]; simpl.
    + destruct (Hc other eq_refl) as (Hin & Hex & Ho & Hcf). apply rows_lookup in Hin; [|done].
      exists [], q1. rewrite Hq1. split_and!; [done..|apply sweptAll_refl|done|]. intros _. right.
      exists (jobId other), other. split_and!; [congruence|done..].
    + destruct (write_healthy (requeuedJob job (Z.max 1 (at_count (attempt job))) now
        (now + c_backoff cfg (Z.max 1 (at_count (attempt job))))) q1 Hh1) as (q2 & Hw & Hq2 & Hh2); [by destruct Hwj|].
      eexists _, q2. unfold bindM. rewrite Hw. split; [reflexivity|]. simpl in Hq2. rewrite Hq2, Hq1.
      split_and!; [done| |intros; by rewrite lookup_insert_ne|intros _; left; exists now; apply lookup_insert_eq].
      apply (sweptAll_insert _ _ job); [done|]. right. by eauto 10.
Qed.

Lemma sweepJobs_healthy l now q :
  wf (q_jobs q) -> healthy q -> current l q ->
  exists es q', sweepJobs cfg l now q = (Ok es, q') /\ healthy q' /\ sweptAll (q_jobs q) (q_jobs q') /\
    (forall id, id ∉ jobId <$> l -> q_jobs q' !! id = q_jobs q !! id) /\
    (forall job, job ∈ l -> isAutomaticallyRecoverablePostCommitFailure job = true -> decided job (q_jobs q')).
Proof.
  revert q. induction l as [|job l IH]; intros q Hwf Hh Hc.
  { exists [], q. split_and!; [done..|apply sweptAll_refl|done|]. by intros job ?%not_elem_of_nil. }
  cbn [sweepJobs]. destruct (sweepJob_healthy job now q Hwf Hh) as (e & q1 & E1 & Hh1 & Hs1 & Hf1 & Hd1); [apply Hc; by left|].
  destruct (IH q1) as (es & q2 & E2 & Hh2 & Hs2 & Hf2 & Hd2); [by eapply sweptAll_wf|done|by eapply current_frame|].
  exists (e ++ es), q2. unfold bindM. rewrite E1, E2. destruct Hc as [Hnd _]. rewrite fmap_cons, NoDup_cons in Hnd.
  split_and!; [done|done|by eapply sweptAll_trans| |].
  - intros id Hid. rewrite fmap_cons, not_elem_of_cons in Hid. rewrite Hf2, Hf1; naive_solver.
  - intros j. rewrite elem_of_cons. intros [->|Hin]; [|by apply Hd2]. intros Ha. apply (decided_mono _ (q_jobs q1)); [done| |by apply Hd1].
    apply Hf2. by destruct Hnd.
Qed.

(** What a pass over some candidates achieves. *)
Definition passes (m : M (list PromotePostCommitRecoveryEvent)) (ids : list string) (q : QueueState) : Prop :=
  exists es q', m q = (Ok es, q') /\ healthy q' /\ sweptAll (q_jobs q) (q_jobs q') /\
    (forall id, id ∉ ids -> q_jobs q' !! id = q_jobs q !! id) /\
    (forall id job, id ∈ ids -> q_jobs q !! id = Some job ->
       isAutomaticallyRecoverablePostCommitFailure job = true -> decided job (q_jobs q')).

Lemma sweepTurn_healthy ids now q :
  wf (q_jobs q) -> healthy q -> NoDup ids -> passes (sweepTurn cfg ids now) ids q.
Proof.
  intros Hwf Hh Hnd. unfold passes, sweepTurn, readFailed, bindM, get.
  set (found := omap (fun id => q_jobs q !! id) ids).
  destruct (observes_healthy found q Hh) as (q1 & -> & Hq1 & Hh1). simpl.
  assert (current (filter (fun job => state job = failed) found) q) as [Hc1 Hc2] by (by apply current_filter, omap_current).
  destruct (sweepJobs_healthy (filter (fun job => state job = failed) found) now q1)
    as (es & q2 & -> & Hh2 & Hs & Hf & Hd); [by rewrite Hq1|done|split; by rewrite ?Hq1|]. rewrite Hq1 in *.
  exists es, q2. split_and!; [done..| |].
  - intros id Hid. apply Hf. intros (job & -> & [_ Hin]%list_elem_of_filter)%list_elem_of_fmap.
    apply list_elem_of_omap in Hin as (id' & Hin & Hl). destruct (Hwf _ _ Hl) as [Hj _]. apply Hid. by rewrite Hj.
  - intros id job Hin Hl Ha. apply Hd; [|done]. apply list_elem_of_filter.
    split; [by apply recoverable_failed|]. apply list_elem_of_omap. by exists id.
Qed.

Lemma sweepTurns_nil fuel turn now q : healthy q -> passes (sweepTurns cfg fuel turn [] now) [] q.
Proof.
  intros Hh. exists [], q. split_and!; [by destruct fuel|done|apply sweptAll_refl|done|].
  by intros id job ?%not_elem_of_nil.
Qed.

Lemma sweepTurns_healthy fuel turn ids now q :
  wf (q_jobs q) -> healthy q -> NoDup ids -> (length ids <= fuel)%nat ->
  passes (sweepTurns cfg fuel turn ids now) ids q.
Proof.
  revert turn ids q. induction fuel as [|fuel IH]; intros turn ids q Hwf Hh Hnd Hlen;
    (destruct ids as [|id0 ids]; [by apply sweepTurns_nil|]); [simpl in Hlen; lia|].
  remember (id0 :: ids) as l eqn:El. unfold passes. 
  destruct (sweepTurn_healthy (take POST_COMMIT_SWEEP_PAGE_SIZE l) (now turn) q Hwf Hh) as (e & q1 & E1 & Hh1 & Hs1 & Hf1 & Hd1);
    [by apply NoDup_take|].
  destruct (IH (S turn) (drop POST_COMMIT_SWEEP_PAGE_SIZE l) q1) as (es & q2 & E2 & Hh2 & Hs2 & Hf2 & Hd2);
    [by eapply sweptAll_wf|done|by apply NoDup_drop|rewrite length_drop, El in *; simpl in *; lia|].
  rewrite <- (take_drop POST_COMMIT_SWEEP_PAGE_SIZE l) in Hnd. apply NoDup_app in Hnd as (_ & Hdisj & _).
  exists (e ++ es), q2. rewrite El at 1. cbn [sweepTurns]. rewrite <- El. unfold bindM. rewrite E1, E2.
  split_and!; [done|done|by eapply sweptAll_trans| |].
  - intros id Hid. rewrite <- (take_drop POST_COMMIT_SWEEP_PAGE_SIZE l), not_elem_of_app in Hid. rewrite Hf2, Hf1; naive_solver.
  - intros id job Hin Hl Ha. rewrite <- (take_drop POST_COMMIT_SWEEP_PAGE_SIZE l), elem_of_app in Hin.
    destruct Hin as [Hin|Hin].
    + apply (decided_mono _ (q_jobs q1)); [done| |by eapply Hd1]. apply Hf2.
      destruct (Hwf _ _ Hl) as [-> _]. by apply Hdisj.
    + apply (Hd2 id); [done| |done]. rewrite Hf1; [done|]. intros Ht. by apply (Hdisj id).
Qed.

(** C34: one post-commit sweep on a healthy store terminates and settles every
    failed promote it may recover: one whose attempts are used up is parked
    with the reason, any other is scheduled to run again after its backoff
    unless another record owns its lane.  No other record changes, however many
    turns the sweep takes. *)
Theorem sweep_settles now q :
  (forall job, isAutomaticallyRecoverablePostCommitFailure job = true ->
     existsb (c_payloadContains cfg job) POST_COMMIT_MARKERS = true) ->
  wf (q_jobs q) -> healthy q ->
  exists es q', recoverPostCommitFailures cfg now q = (Ok es, q') /\
    (forall id job, q_jobs q !! id = Some job ->
       if isAutomaticallyRecoverablePostCommitFailure job then decided job (q_jobs q')
       else q_jobs q' !! id = Some job).
Proof.
  intros Hpay Hwf Hh. unfold recoverPostCommitFailures, findSweepCandidates, bindM, get.
  set (page := filter _ (rows q)). destruct (observes_healthy page q Hh) as (q1 & -> & Hq1 & Hh1). simpl.
  set (found := js_sort _ _).
  assert (found ≡ₚ filter (fun job => isAutomaticallyRecoverablePostCommitFailure job = true) page) as Hp by apply js_sort_perm.
  assert (current (rows q) q) as Hc by (split; [by apply rows_NoDup|intros job; by apply rows_lookup]).
  destruct (current_filter (fun job => isAutomaticallyRecoverablePostCommitFailure job = true) page q (current_filter _ _ _ Hc)) as [Hnd _].
  destruct (sweepTurns_healthy (length (jobId <$> found)) 0 (jobId <$> found) now q1)
    as (es & q2 & -> & _ & _ & Hf & Hd); [by rewrite Hq1|done|by rewrite Hp|done|]. rewrite Hq1 in *.
  exists es, q2. split; [done|]. intros id job Hl. destruct (Hwf _ _ Hl) as [<- _].
  destruct (isAutomaticallyRecoverablePostCommitFailure job) eqn:Ha.
  - apply (Hd (jobId job)); [|done|done]. apply list_elem_of_fmap_2. rewrite Hp, list_elem_of_filter. split; [done|].
    apply list_elem_of_filter. split; [split; [by apply recoverable_failed|by apply Hpay]|by apply rows_lookup].
  - rewrite Hf; [done|]. intros (j & Hid & Hin)%list_elem_of_fmap. rewrite Hp in Hin.
    apply list_elem_of_filter in Hin as [Hj [_ Hin]%list_elem_of_filter]. apply rows_lookup in Hin; [|done]. congruence.
Qed.

End Sweep.

(** ** Witnesses *)

Lemma queue2_ok : wf (q_jobs queue2) /\ oneOwner (q_jobs queue2) /\ healthy queue2.
Proof.
  split; [apply (history_refines sampleConfig sample_payload _ _ claimed_history), empty_wf|]. split.
  - apply (history_invariant sampleConfig sample_payload oneOwner emptyQueue);
      [apply effect_oneOwner|apply claimed_history|apply empty_wf..].
  - split; vm_compute; reflexivity.
Qed.

Lemma queue2_row : q_jobs queue2 !! jobId (rowOf queue2 "job-1") = Some (rowOf queue2 "job-1").
Proof. vm_compute. reflexivity. Qed.



Lemma startup_recovers_all_witness :
  exists summary q', recoverOnStartup sampleConfig 900000 queue2 = (Ok summary, q') /\
    (forall id job, q_jobs q' !! id = Some job -> ~ leaseExpired job 900000).
Proof.
  destruct (startup_recovers_all sampleConfig 900000 queue2) as (s & q' & H1 & H2 & _); [apply queue2_ok..|].
  exists s, q'. split; [exact H1|exact H2].
Defined.

(** The token of another claim, and the token of the claim. *)
Lemma lease_required_witness :
  rejects (heartbeat sampleConfig "job-1" "worker:job-1:t0" 3000 3000) queue2 /\
  exists q' job', heartbeat sampleConfig "job-1" "worker:job-1:t1" 3000 3000 queue2 = (Ok tt, q') /\ q_jobs q' = <["job-1"%string := job']> (q_jobs queue2) /\
    request job' = request (rowOf queue2 "job-1") /\ commitMarker job' = commitMarker (rowOf queue2 "job-1") /\
    forall t, leaseHeld job' "worker:job-1:t1" t <-> (t < 3000 + c_leaseMs sampleConfig)%Z.
Proof.
  split.
  - refine (proj1 (proj1 (lease_required sampleConfig "job-1" "worker:job-1:t0" 3000 queue2) _ 3000 st_gossiped
      {| re_shareEvidence := None; re_promotedCount := 0; re_succeededAt := 0; re_gossipMessageSize := None |}
      {| ae_message := EmptyString; ae_retryable := false; ae_classification := fatal; ae_recordedAt := 0;
         ae_diagnosticCode := None; ae_authorityReason := None; ae_noEffectProof := None |} sampleBinding)).
    intros job Hl (_ & l & Hlease & Htoken & _).
    assert (job = rowOf queue2 "job-1") as -> by (unfold rowOf; by rewrite Hl).
    vm_compute in Hlease. injection Hlease as <-. discriminate Htoken.
  - refine (proj1 (proj2 (lease_required sampleConfig "job-1" "worker:job-1:t1" 3000 queue2) (rowOf queue2 "job-1") 3000 st_gossiped
      (proj1 queue2_ok) (proj2 (proj2 queue2_ok)) queue2_row _)).
    split; [vm_compute; reflexivity|]. eexists. split_and!; vm_compute; reflexivity.
Defined.

Definition queue1' : QueueState := set_environment queue1 0 [].

Lemma queue1_ok : wf (q_jobs queue1') /\ healthy queue1'.
Proof.
  split; [|split; vm_compute; reflexivity].
  apply (history_refines sampleConfig sample_payload emptyQueue queue1); [|apply empty_wf].
  apply (queue_history_op _ _ (OpEnqueue sampleRequest noDeadline 1000 "job-1") 0 []); [by vm_compute|].
  apply queue_history_nil.
Qed.

Lemma claim_sound_witness :
  q_paused queue1' = false /\
  exists job, version job <= 4 /\
    q_jobs (claimNext sampleConfig "worker" 2000 "t1" queue1').2 !! jobId job
      = Some (claimPromoteJob job "worker" 2000 300000 "t1").
Proof.
  destruct (claim_sound sampleConfig sample_payload "worker" 2000 "t1" queue1'
    (rowOf (claimNext sampleConfig "worker" 2000 "t1" queue1').2 "job-1")
    (claimNext sampleConfig "worker" 2000 "t1" queue1').2) as (Hp & job & Hc & _ & Hcan & _ & Hl & _).
  - apply queue1_ok.
  - vm_compute. reflexivity.
  - split; [exact Hp|]. exists job. split; [exact Hcan|]. rewrite Hl, Hc. reflexivity.
Defined.

Lemma claim_live_witness :
  exists claimed q', claimNext sampleConfig "worker" 2000 "t1" queue1' = (Ok (Some claimed), q') /\
    q_jobs q' !! jobId claimed = Some claimed /\ state claimed = running.
Proof.
  apply (claim_live sampleConfig "worker" 2000 "t1" queue1' (rowOf queue1' "job-1"));
    [apply queue1_ok..| | | | | | | |]; try (vm_compute; reflexivity).
  - left. vm_compute. reflexivity.
  - left. vm_compute. reflexivity.
  - vm_compute. discriminate.
  - intros id other Hne Hl _ _. exfalso. apply Hne.
    assert (q_jobs queue1' = {[ "job-1"%string := rowOf queue1' "job-1" ]}) as Hq by (vm_compute; reflexivity).
    rewrite Hq in Hl. apply lookup_singleton_Some in Hl as [<- _]. vm_compute. reflexivity.
Defined.

(** A job that may be retried at 2500. *)
Definition retryingJob : PromoteJob :=
  fst (promoteFailureTransition (rowOf queue2 "job-1")
    {| ae_message := "timeout"; ae_retryable := true; ae_classification := transient; ae_recordedAt := 2000;
       ae_diagnosticCode := None; ae_authorityReason := None; ae_noEffectProof := None |} 2000 (fun _ => 500)).

Lemma idle_hint_sound_witness :
  2000 < idleDeadline [retryingJob] 2000 <= 3000 /\
  (forall job, job ∈ [retryingJob] -> claimCandidate 2400 job = true -> claimCandidate 2000 job = true).
Proof.
  destruct (idle_hint_sound [retryingJob] 2000 2400) as (H1 & H2 & _);
    [lia|lia|vm_compute; reflexivity|]. split; [exact H1|exact H2].
Defined.

Definition postCommitError : PromoteAttemptError :=
  {| ae_message := PROMOTE_POST_COMMIT_FAILURE_MESSAGE; ae_retryable := false; ae_classification := fatal;
     ae_recordedAt := 3000; ae_diagnosticCode := Some PROMOTE_POST_COMMIT_FAILURE_CODE;
     ae_authorityReason := None; ae_noEffectProof := None |}.

Lemma failure_report_spec_witness :
  let r := promoteFailureTransition (rowOf queue2 "job-1") postCommitError 3000 (fun _ => 500) in
  at_count (attempt r.1) = 1 /\ state r.1 = failed.
Proof.
  intros r. destruct (failure_report_spec (rowOf queue2 "job-1") postCommitError 3000 (fun _ => 500) r.1 r.2)
    as (_ & _ & _ & _ & Hn & Ht).
  - vm_compute. reflexivity.
  - split; [rewrite Hn; vm_compute; reflexivity|]. vm_compute in Ht |- *. apply Ht.
Defined.

Lemma backoff_bounds_witness :
  1 <= createDefaultPromoteBackoff (1 # 4) DEFAULT_PROMOTE_RETRY_TUNING 3 <= 900000.
Proof.
  refine (proj1 (backoff_bounds {| pt_maxRetries := None; pt_retryBaseMs := None; pt_retryMaxMs := None;
    pt_retryJitterRatio := None |} DEFAULT_PROMOTE_RETRY_TUNING (1 # 4) 3 3 _ _ _ _)).
  - vm_compute. reflexivity.
  - vm_compute. discriminate.
  - vm_compute. discriminate.
  - lia.
Defined.

Lemma clear_spec_witness :
  exists outcome q', clearTerminalJob "job-1" queue2 = (Ok outcome, q') /\ outcome = rejected_nonterminal /\
    q_jobs q' = q_jobs queue2.
Proof.
  destruct (clear_spec "job-1" queue2 (proj1 queue2_ok)) as (o & q' & Hrun & Ho).
  exists o, q'. split; [exact Hrun|].
  assert (o = rejected_nonterminal) as Hr by (vm_compute in Hrun; congruence). split; [exact Hr|].
  rewrite Hr in Ho. apply Ho.
Defined.

(** The promote failed after its commit: the sweep schedules it again. *)
Definition queue6 : QueueState :=
  runOp sampleConfig (OpFail "job-1" "worker:job-1:t1" postCommitError 3000 3000) (set_environment queue2 0 []).

Lemma sweep_settles_witness :
  isAutomaticallyRecoverablePostCommitFailure (rowOf queue6 "job-1") = true /\
  exists es q', recoverPostCommitFailures sampleConfig (fun _ => 4000) queue6 = (Ok es, q') /\
    decided sampleConfig (rowOf queue6 "job-1") (q_jobs q').
Proof.
  split; [vm_compute; reflexivity|].
  destruct (sweep_settles sampleConfig (fun _ => 4000) queue6) as (es & q' & Hrun & Hd).
  - intros job _. reflexivity.
  - apply (history_refines sampleConfig sample_payload queue2 queue6); [|apply queue2_ok].
    apply (queue_history_op _ queue2 (OpFail "job-1" "worker:job-1:t1" postCommitError 3000 3000) 0 []); [done|].
    apply queue_history_nil.
  - split; vm_compute; reflexivity.
  - exists es, q'. split; [exact Hrun|]. exact (Hd "job-1"%string (rowOf queue6 "job-1") ltac:(vm_compute; reflexivity)).
Defined.
