(* ===== verification/JsMap.v ===== *)
(** * The [Map] of ECMAScript

    A [Map] keeps its entries in insertion order: setting a key that is present
    changes its value in place, setting a new one appends it, and a loop over
    the map visits each entry once, also when the body deletes the entry it is
    at.  [jsMap] is that sequence of entries; the outbox, the retry queue, the
    rate limiter and the caches are built on it.  [toGmap] forgets the order. *)

From S2P Require Import Prelude.

Notation jsMap K V := (list (K * V)).

Section JsMap.
Context {K V : Type} `{EqDecision K}.

Fixpoint mapGet (k : K) (m : jsMap K V) : option V :=
  match m with
  | [] => None
  | (k', v) :: m' => if decide (k' = k) then Some v else mapGet k m'
  end.

Definition mapHas (k : K) (m : jsMap K V) : bool :=
  match mapGet k m with Some _ => true | None => false end.

Fixpoint mapSet (k : K) (v : V) (m : jsMap K V) : jsMap K V :=
  match m with
  | [] => [(k, v)]
  | (k', v') :: m' => if decide (k' = k) then (k, v) :: m' else (k', v') :: mapSet k v m'
  end.

(** [map.delete(key)]; its result is [mapHas]. *)
Definition mapDelete (k : K) (m : jsMap K V) : jsMap K V := filter (fun kv => kv.1 ≠ k) m.

Definition mapSize (m : jsMap K V) : Z := Z.of_nat (length m).
Definition mapKeys (m : jsMap K V) : list K := m.*1.
Definition mapValues (m : jsMap K V) : list V := m.*2.

(** [for (const [key, value] of map) if (p(value)) map.delete(key);] *)
Definition deleteWhere (p : V -> bool) (m : jsMap K V) : jsMap K V :=
  foldl (fun acc kv => if p kv.2 then mapDelete kv.1 acc else acc) m m.

(** Keys occur once. *)
Definition mapOk (m : jsMap K V) : Prop := NoDup (mapKeys m).

Lemma mapGet_elem k v m : mapOk m -> mapGet k m = Some v <-> (k, v) ∈ m.
Proof.
  unfold mapOk, mapKeys. induction m as [|[k' v'] m IH]; simpl.
  - intros _. split; [done|]. by intros ?%not_elem_of_nil.
  - intros [Hk Hm]%NoDup_cons. rewrite elem_of_cons.
    destruct (decide (k' = k)) as [->|Hne].
    + split; [intros [= ->]; by left|]. intros [[= ->]|Hin]; [done|].
      destruct Hk. apply list_elem_of_fmap. by exists (k, v).
    + rewrite IH by done. naive_solver.
Qed.

Lemma mapGet_None k m : mapGet k m = None <-> k ∉ mapKeys m.
Proof.
  unfold mapKeys. induction m as [|[k' v'] m IH]; simpl; [set_solver|].
  rewrite not_elem_of_cons. destruct (decide (k' = k)) as [->|Hne]; [naive_solver|].
  rewrite IH. naive_solver.
Qed.

Lemma mapHas_true k m : mapHas k m = true <-> is_Some (mapGet k m).
Proof. unfold mapHas. destruct (mapGet k m); split; naive_solver. Qed.

Lemma mapHas_false k m : mapHas k m = false <-> mapGet k m = None.
Proof. unfold mapHas. destruct (mapGet k m); naive_solver. Qed.

Lemma mapGet_mapSet k v m : mapGet k (mapSet k v m) = Some v.
Proof.
  induction m as [|[k' v'] m IH]; simpl; [by rewrite decide_True|].
  destruct (decide (k' = k)) as [->|]; simpl; [by rewrite decide_True|]. by rewrite decide_False.
Qed.

Lemma mapGet_mapSet_ne k k' v m : k ≠ k' -> mapGet k' (mapSet k v m) = mapGet k' m.
Proof.
  intros Hne. induction m as [|[k0 v0] m IH]; simpl; [by rewrite decide_False|].
  destruct (decide (k0 = k)) as [->|]; simpl; [by rewrite !decide_False|]. by rewrite IH.
Qed.

Lemma mapGet_mapDelete k m : mapGet k (mapDelete k m) = None.
Proof.
  apply mapGet_None. unfold mapKeys, mapDelete.
  by intros ([k' v'] & -> & [Hne _]%list_elem_of_filter)%list_elem_of_fmap.
Qed.

Lemma mapGet_filter_ne k (P : K * V -> Prop) `{!forall kv, Decision (P kv)} m :
  (forall v, P (k, v)) -> mapGet k (filter P m) = mapGet k m.
Proof.
  intros HP. induction m as [|[k' v'] m IH]; [done|].
  rewrite filter_cons. destruct (decide (k' = k)) as [->|Hne].
  - rewrite decide_True by done. simpl. by rewrite !decide_True.
  - case_decide; simpl; rewrite !decide_False by done; done.
Qed.

Lemma mapGet_mapDelete_ne k k' m : k ≠ k' -> mapGet k' (mapDelete k m) = mapGet k' m.
Proof. intros Hne. apply mapGet_filter_ne. simpl. congruence. Qed.

Lemma mapKeys_mapSet k v m :
  mapKeys (mapSet k v m) = if mapHas k m then mapKeys m else mapKeys m ++ [k].
Proof.
  unfold mapKeys, mapHas. induction m as [|[k' v'] m IH]; [done|]. cbn [mapSet mapGet].
  destruct (decide (k' = k)) as [->|]; [done|].
  rewrite !fmap_cons, IH. by case_match.
Qed.

Lemma mapOk_mapSet k v m : mapOk m -> mapOk (mapSet k v m).
Proof.
  unfold mapOk. rewrite mapKeys_mapSet. intros Hm.
  destruct (mapHas k m) eqn:E; [done|]. apply mapHas_false, mapGet_None in E.
  apply NoDup_app. split_and!; [done| |apply NoDup_singleton]. set_solver.
Qed.

Lemma mapOk_filter (P : K * V -> Prop) `{!forall kv, Decision (P kv)} m :
  mapOk m -> mapOk (filter P m).
Proof.
  unfold mapOk, mapKeys. induction m as [|[k v] m IH]; [done|].
  rewrite filter_cons. intros [Hk Hm]%NoDup_cons. case_decide; [|by apply IH].
  simpl. constructor; [|by apply IH]. intros ([k' v'] & -> & Hin)%list_elem_of_fmap.
  apply Hk. apply list_elem_of_filter in Hin as [_ Hin]. apply list_elem_of_fmap. by exists (k', v').
Qed.

Lemma mapOk_mapDelete k m : mapOk m -> mapOk (mapDelete k m).
Proof. apply mapOk_filter. Qed.

Lemma mapOk_nil : mapOk [].
Proof. apply NoDup_nil_2. Qed.

Lemma elem_of_mapSet kv k v m :
  mapOk m -> kv ∈ mapSet k v m <-> kv = (k, v) \/ (kv.1 ≠ k /\ kv ∈ m).
Proof.
  intros Hm. destruct kv as [k' v']. rewrite <- mapGet_elem by by apply mapOk_mapSet.
  destruct (decide (k = k')) as [->|Hne].
  - rewrite mapGet_mapSet. naive_solver.
  - rewrite mapGet_mapSet_ne, mapGet_elem by done. naive_solver.
Qed.

Lemma elem_of_mapDelete kv k m : kv ∈ mapDelete k m <-> kv.1 ≠ k /\ kv ∈ m.
Proof. unfold mapDelete. by rewrite list_elem_of_filter. Qed.

Lemma mapDelete_absent k m : mapGet k m = None -> mapDelete k m = m.
Proof.
  intros Hk%mapGet_None. unfold mapDelete. induction m as [|[k' v'] m IH]; [done|].
  simpl in Hk. rewrite filter_cons_True by set_solver. f_equal. apply IH. set_solver.
Qed.

Lemma mapGet_filter k (P : K * V -> Prop) `{!forall kv, Decision (P kv)} m :
  mapOk m ->
  mapGet k (filter P m) =
  match mapGet k m with
  | Some v => if decide (P (k, v)) then Some v else None
  | None => None
  end.
Proof.
  intros Hm. destruct (mapGet k m) as [v|] eqn:E.
  - rewrite mapGet_elem in E by done. case_decide.
    + rewrite mapGet_elem by by apply mapOk_filter. by apply list_elem_of_filter.
    + apply mapGet_None. intros ([k' v'] & -> & [HP Hin]%list_elem_of_filter)%list_elem_of_fmap.
      rewrite <- mapGet_elem in E, Hin by done. simpl in *. congruence.
  - apply mapGet_None. apply mapGet_None in E.
    intros ([k' v'] & -> & [_ Hin]%list_elem_of_filter)%list_elem_of_fmap.
    apply E. apply list_elem_of_fmap. by exists (k', v').
Qed.

(** A loop that deletes the entries it is at keeps the others, in order. *)
Lemma deleteWhere_filter p m : mapOk m -> deleteWhere p m = filter (fun kv => p kv.2 = false) m.
Proof.
  unfold deleteWhere. intros Hm.
  assert (forall done todo : jsMap K V, mapOk (done ++ todo) ->
    foldl (fun acc kv => if p kv.2 then mapDelete kv.1 acc else acc) (done ++ todo) todo
    = done ++ filter (fun kv => p kv.2 = false) todo) as Hloop.
  { clear m Hm. intros done0 todo. revert done0. induction todo as [|[k v] todo IH]; intros done0 Hok; [done|].
    rewrite filter_cons. cbn. destruct (p v) eqn:Ep; cbn.
    - rewrite decide_False by congruence.
      assert (mapDelete k (done0 ++ (k, v) :: todo) = done0 ++ todo) as ->; [|apply IH].
      + unfold mapOk, mapKeys in Hok. rewrite fmap_app in Hok. simpl in Hok.
        apply NoDup_app in Hok as (_ & Hd & [Hk _]%NoDup_cons).
        unfold mapDelete. rewrite filter_app, filter_cons_False by naive_solver.
        f_equal; apply (mapDelete_absent k), mapGet_None; unfold mapKeys; [|done].
        intros Hin. apply (Hd k Hin). left.
      + unfold mapOk, mapKeys in *. rewrite fmap_app in *. simpl in Hok.
        apply NoDup_app in Hok as (H1 & Hd & [_ H2]%NoDup_cons).
        apply NoDup_app. split_and!; [done| |done]. intros x Hx Hin. apply (Hd x Hx). by right.
    - rewrite decide_True by done. rewrite (cons_middle (k, v)), (assoc_L (++)).
      rewrite IH by by rewrite <- (assoc_L (++)). by rewrite <- (assoc_L (++)). }
  apply (Hloop []). done.
Qed.

Lemma mapSize_mapSet_new k v m : mapGet k m = None -> mapSize (mapSet k v m) = (mapSize m + 1)%Z.
Proof.
  intros Hk. unfold mapSize. rewrite <- !(length_fmap fst).
  change (fst <$> mapSet k v m) with (mapKeys (mapSet k v m)). rewrite mapKeys_mapSet.
  apply mapHas_false in Hk. rewrite Hk, length_app. simpl. unfold mapKeys. lia.
Qed.

Lemma mapSet_new k v m : mapGet k m = None -> mapSet k v m = m ++ [(k, v)].
Proof.
  induction m as [|[k' v'] m IH]; simpl; [done|]. case_decide; [done|]. intros. by rewrite IH.
Qed.

Lemma mapSize_mapDelete k m :
  mapOk m -> is_Some (mapGet k m) -> (mapSize (mapDelete k m) + 1 = mapSize m)%Z.
Proof.
  unfold mapOk, mapKeys, mapSize, mapDelete. induction m as [|[k' v'] m IH]; [by intros _ []|].
  rewrite filter_cons. cbn. intros [Hk Hm]%NoDup_cons.
  destruct (decide (k' = k)) as [->|Hne].
  - rewrite decide_False by naive_solver. intros _.
    change (filter _ m) with (mapDelete k m). rewrite mapDelete_absent; [lia|].
    by apply mapGet_None.
  - rewrite decide_True by done. intros Hs. simpl. specialize (IH Hm Hs).
    unfold mapDelete in IH. lia.
Qed.

(** ** The finite map behind it *)

Context `{!Countable K}.

Definition toGmap (m : jsMap K V) : gmap K V := list_to_map m.

Lemma toGmap_lookup m k : toGmap m !! k = mapGet k m.
Proof.
  unfold toGmap. induction m as [|[k' v'] m IH]; simpl; [apply lookup_empty|].
  destruct (decide (k' = k)) as [->|]; [apply lookup_insert_eq|].
  by rewrite lookup_insert_ne.
Qed.

Lemma toGmap_mapSet k v m : toGmap (mapSet k v m) = <[k := v]> (toGmap m).
Proof.
  apply map_eq. intros k'. rewrite toGmap_lookup. destruct (decide (k = k')) as [->|].
  - by rewrite mapGet_mapSet, lookup_insert_eq.
  - by rewrite mapGet_mapSet_ne, lookup_insert_ne, toGmap_lookup.
Qed.

Lemma toGmap_mapDelete k m : toGmap (mapDelete k m) = delete k (toGmap m).
Proof.
  apply map_eq. intros k'. rewrite toGmap_lookup. destruct (decide (k = k')) as [->|].
  - by rewrite mapGet_mapDelete, lookup_delete_eq.
  - by rewrite mapGet_mapDelete_ne, lookup_delete_ne, toGmap_lookup.
Qed.

Lemma toGmap_to_list m : mapOk m -> map_to_list (toGmap m) ≡ₚ m.
Proof. intros. by apply map_to_list_to_map. Qed.

Lemma toGmap_size m : mapOk m -> Z.of_nat (size (toGmap m)) = mapSize m.
Proof.
  intros Hm. unfold mapSize. rewrite <- (Permutation_length (toGmap_to_list m Hm)).
  by rewrite length_map_to_list.
Qed.
End JsMap.

#[export] Hint Resolve mapOk_mapSet mapOk_mapDelete mapOk_nil mapOk_filter : dkg.
