(* ===== verification/CodePoints.v ===== *)
(** * Unicode order of strings

    packages/core/src/code-point-order.ts: the comparison of strings by code
    point and the sorted catalogs built on it.  A JavaScript string is the
    sequence of its UTF-16 code units.  The order is related to the one of the
    UTF-8 encodings, in which SQLite compares text. *)

From Equations Require Import Equations.
From Stdlib Require Import Strings.Byte Strings.Ascii.
From S2P Require Import Prelude Bytes.

Open Scope Z_scope.

(** A code unit has 16 bits: its high and its low byte. *)
Definition codeUnit : Type := byte * byte.
Definition unitZ (u : codeUnit) : Z := byteZ u.1 * 256 + byteZ u.2.

Notation jsstr := (list codeUnit).

(** A literal with characters below 256. *)
Definition js (s : string) : jsstr := (fun c => (x00, byte_of_ascii c)) <$> String.list_ascii_of_string s.

Definition isHigh (u : Z) : bool := (0xD800 <=? u) && (u <=? 0xDBFF).
Definition isLow (u : Z) : bool := (0xDC00 <=? u) && (u <=? 0xDFFF).

(** The code point of a surrogate pair. *)
Definition pairCodePoint (high low : Z) : Z := (high - 0xD800) * 0x400 + (low - 0xDC00) + 0x10000.

(** [s.codePointAt(i)] *)
Definition codePointAt (s : jsstr) (i : nat) : option Z :=
  match s !! i with
  | None => None
  | Some u =>
      match s !! S i with
      | Some u' =>
          Some (if isHigh (unitZ u) && isLow (unitZ u') then pairCodePoint (unitZ u) (unitZ u') else unitZ u)
      | None => Some (unitZ u)
      end
  end.

Definition units (codePoint : Z) : nat := if 0xFFFF <? codePoint then 2%nat else 1%nat.

(** The loop of [compareCodePoint]; one round per code point of the left
    string. *)
Fixpoint compareLoop (fuel : nat) (leftValue rightValue : jsstr) (leftIndex rightIndex : nat) : Z :=
  match fuel with
  | O => 0
  | S fuel' =>
      match codePointAt leftValue leftIndex, codePointAt rightValue rightIndex with
      | Some leftCodePoint, Some rightCodePoint =>
          let delta := leftCodePoint - rightCodePoint in
          if negb (delta =? 0) then delta
          else compareLoop fuel' leftValue rightValue
                 (leftIndex + units leftCodePoint) (rightIndex + units rightCodePoint)
      | Some _, None => 1
      | None, Some _ => -1
      | None, None => 0
      end
  end.

Definition compareCodePoint (leftValue rightValue : jsstr) : Z :=
  compareLoop (S (length leftValue)) leftValue rightValue 0 0.

(** ** Sorted catalogs *)

(** [[...new Set(values)]]: the first occurrence of each value. *)
Fixpoint uniqueValues (seen values : list jsstr) : list jsstr :=
  match values with
  | [] => []
  | v :: rest =>
      if bool_decide (v ∈ seen) then uniqueValues seen rest
      else v :: uniqueValues (v :: seen) rest
  end.

Definition createSortedUniqueStringCatalog (values : list jsstr) : list jsstr :=
  js_sort compareCodePoint (uniqueValues [] values).

Equations? lowerBoundLoop (source : list jsstr) (target : jsstr) (low high : nat) : nat
  by wf (high - low)%nat lt :=
lowerBoundLoop source target low high with decide (low < high)%nat := {
  | right _ => low
  | left Hlt =>
      let middle := (low + Nat.div2 (high - low))%nat in
      match source !! middle with
      | Some s =>
          if compareCodePoint s target <? 0 then lowerBoundLoop source target (S middle) high
          else lowerBoundLoop source target low middle
      | None => low
      end }.
Proof.
  - lia.
  - pose proof (Nat.lt_div2 (high - low)). subst middle. lia.
Qed.

Definition codePointLowerBound (source : list jsstr) (target : jsstr) : nat :=
  lowerBoundLoop source target 0 (length source).

Definition insertSortedUniqueStringCatalog (source : list jsstr) (value : jsstr) : list jsstr :=
  let index := codePointLowerBound source value in
  if bool_decide (source !! index = Some value) then source
  else take index source ++ value :: drop index source.

Definition removeSortedUniqueStringCatalog (source : list jsstr) (value : jsstr) : list jsstr :=
  let index := codePointLowerBound source value in
  if negb (bool_decide (source !! index = Some value)) then source
  else take index source ++ drop (S index) source.

Definition filterSortedUniqueStringCatalog (source : list jsstr) (predicate : jsstr -> bool) : list jsstr :=
  let filtered := List.filter predicate source in
  if Nat.eqb (length filtered) (length source) then source else filtered.

(** ** UTF-8 *)

(** The code points of a string; a surrogate without its partner counts as
    itself. *)
Fixpoint codePoints (s : jsstr) : list Z :=
  match s with
  | [] => []
  | u :: t =>
      match t with
      | u' :: rest =>
          if isHigh (unitZ u) && isLow (unitZ u') then pairCodePoint (unitZ u) (unitZ u') :: codePoints rest
          else unitZ u :: codePoints t
      | [] => [unitZ u]
      end
  end.

(** Unicode scalar values: code points that are not surrogates. *)
Definition isScalar (c : Z) : bool :=
  (0 <=? c) && (c <=? 0x10FFFF) && negb (isHigh c || isLow c).

Definition isWellFormed (s : jsstr) : bool := forallb isScalar (codePoints s).

Definition utf8CodePoint (c : Z) : list Z :=
  if c <? 0x80 then [c]
  else if c <? 0x800 then [0xC0 + c / 64; 0x80 + c mod 64]
  else if c <? 0x10000 then [0xE0 + c / 4096; 0x80 + (c / 64) mod 64; 0x80 + c mod 64]
  else [0xF0 + c / 262144; 0x80 + (c / 4096) mod 64; 0x80 + (c / 64) mod 64; 0x80 + c mod 64].

Definition utf8 (s : jsstr) : list Z := flat_map utf8CodePoint (codePoints s).

(** Lexicographic comparison: on bytes, the sign of [memcmp]. *)
Fixpoint lexCompare (a b : list Z) : Z :=
  match a, b with
  | [], [] => 0
  | [], _ => -1
  | _, [] => 1
  | x :: a', y :: b' => if x - y =? 0 then lexCompare a' b' else x - y
  end.

(** ** Lexicographic order *)

Lemma lexCompare_refl a : lexCompare a a = 0.
Proof. induction a as [|x a IH]; simpl; [done|]. by rewrite Z.sub_diag. Qed.

Lemma lexCompare_eq a b : lexCompare a b = 0 <-> a = b.
Proof.
  split; [|intros ->; apply lexCompare_refl].
  revert b. induction a as [|x a IH]; intros [|y b]; simpl; try done.
  destruct (Z.eqb_spec (x - y) 0); [|lia]. intros ->%IH. f_equal; lia.
Qed.

Lemma lexCompare_flip a b : lexCompare a b < 0 <-> 0 < lexCompare b a.
Proof.
  revert b. induction a as [|x a IH]; intros [|y b]; simpl; try lia.
  destruct (Z.eqb_spec (x - y) 0), (Z.eqb_spec (y - x) 0); try lia. apply IH.
Qed.

Lemma lexCompare_trans a b c : lexCompare a b <= 0 -> lexCompare b c <= 0 -> lexCompare a c <= 0.
Proof.
  revert b c. induction a as [|x a IH]; intros [|y b] [|z c]; simpl; try lia.
  destruct (Z.eqb_spec (x - y) 0), (Z.eqb_spec (y - z) 0), (Z.eqb_spec (x - z) 0); try lia. apply IH.
Qed.

#[export] Instance lexCompare_comparator : Comparator lexCompare.
Proof. split; [exact lexCompare_refl|exact lexCompare_flip|exact lexCompare_trans]. Qed.

(** ** Code points *)

Lemma unitZ_range u : 0 <= unitZ u <= 0xFFFF.
Proof. destruct u as [h l]. unfold unitZ. simpl. pose proof (byteZ_range h). pose proof (byteZ_range l). lia. Qed.

Lemma unitZ_inj u v : unitZ u = unitZ v -> u = v.
Proof.
  destruct u as [h l], v as [h' l']. unfold unitZ. simpl. intros H.
  pose proof (byteZ_range h). pose proof (byteZ_range l). pose proof (byteZ_range h'). pose proof (byteZ_range l').
  f_equal; apply byteZ_inj; lia.
Qed.

Lemma isHigh_spec u : isHigh u = true <-> 0xD800 <= u <= 0xDBFF.
Proof. unfold isHigh. rewrite andb_true_iff, !Z.leb_le. done. Qed.

Lemma isLow_spec u : isLow u = true <-> 0xDC00 <= u <= 0xDFFF.
Proof. unfold isLow. rewrite andb_true_iff, !Z.leb_le. done. Qed.

Lemma pairCodePoint_range h l :
  isHigh h && isLow l = true -> 0x10000 <= pairCodePoint h l <= 0x10FFFF.
Proof. rewrite andb_true_iff, isHigh_spec, isLow_spec. unfold pairCodePoint. lia. Qed.

(** One round of the loop takes the first code point of what is left. *)
Lemma codePointAt_drop s i :
  match codePointAt s i with
  | Some c => codePoints (drop i s) = c :: codePoints (drop (i + units c) s)
  | None => drop i s = []
  end.
Proof.
  unfold codePointAt. destruct (s !! i) as [u|] eqn:Eu; [|by apply drop_ge, lookup_ge_None].
  rewrite (drop_S s u i Eu). pose proof (unitZ_range u). destruct (s !! S i) as [u'|] eqn:Eu'.
  - rewrite (drop_S s u' (S i) Eu'). simpl. destruct (isHigh (unitZ u) && isLow (unitZ u')) eqn:E.
    + apply pairCodePoint_range in E. unfold units. rewrite (proj2 (Z.ltb_lt _ _)) by lia.
      by rewrite Nat.add_comm.
    + unfold units. rewrite (proj2 (Z.ltb_ge _ _)) by lia. rewrite Nat.add_comm. simpl.
      by rewrite (drop_S s u' (S i) Eu').
  - unfold units. rewrite (proj2 (Z.ltb_ge _ _)) by lia. rewrite Nat.add_comm. simpl.
    by rewrite (drop_ge s (S i)) by (by apply lookup_ge_None).
Qed.

Lemma list_ind_pair {A} (P : list A -> Prop) :
  P [] -> (forall x, P [x]) -> (forall x y l, P l -> P (y :: l) -> P (x :: y :: l)) -> forall l, P l.
Proof.
  intros H0 H1 H2 l. enough (P l /\ forall x, P (x :: l)) by tauto.
  induction l as [|y l [IH IH']]; [by split|]. split; [apply IH'|]. intros x. by apply H2.
Qed.

Lemma codePoints_cons2 u u' s :
  codePoints (u :: u' :: s) =
  if isHigh (unitZ u) && isLow (unitZ u') then pairCodePoint (unitZ u) (unitZ u') :: codePoints s
  else unitZ u :: codePoints (u' :: s).
Proof. done. Qed.

Lemma codePoints_nil s : codePoints s = [] <-> s = [].
Proof. destruct s as [|u [|u' s]]; simpl; [done|done|]. by case_match. Qed.

Lemma compareLoop_spec fuel l r i j :
  (length l - i < fuel)%nat ->
  compareLoop fuel l r i j = lexCompare (codePoints (drop i l)) (codePoints (drop j r)).
Proof.
  revert i j. induction fuel as [|fuel IH]; intros i j Hf; [lia|]. simpl.
  pose proof (codePointAt_drop l i) as Hl. pose proof (codePointAt_drop r j) as Hr.
  destruct (codePointAt l i) as [c|] eqn:El, (codePointAt r j) as [d|].
  - rewrite Hl, Hr. simpl. destruct (Z.eqb_spec (c - d) 0); simpl; [|done]. apply IH.
    assert (i < length l)%nat.
    { unfold codePointAt in El. destruct (l !! i) eqn:E; [|done]. by eapply lookup_lt_Some. }
    unfold units. case_match; lia.
  - by rewrite Hl, Hr.
  - by rewrite Hl, Hr.
  - by rewrite Hl, Hr.
Qed.

(** [compareCodePoint] compares the sequences of code points. *)
Lemma compareCodePoint_spec a b : compareCodePoint a b = lexCompare (codePoints a) (codePoints b).
Proof. unfold compareCodePoint. rewrite compareLoop_spec by lia. by rewrite !drop_0. Qed.

#[export] Instance compareCodePoint_comparator : Comparator compareCodePoint.
Proof.
  split; intros *; rewrite !compareCodePoint_spec;
    [apply lexCompare_refl|apply lexCompare_flip|apply lexCompare_trans].
Qed.

(** The code units of a code point, as numbers. *)
Definition utf16 (c : Z) : list Z :=
  if c <=? 0xFFFF then [c] else [0xD800 + (c - 0x10000) / 0x400; 0xDC00 + (c - 0x10000) mod 0x400].

Lemma utf16_unit u : utf16 (unitZ u) = [unitZ u].
Proof. pose proof (unitZ_range u). unfold utf16. by rewrite (proj2 (Z.leb_le _ _)) by lia. Qed.

Lemma utf16_pair h l : isHigh h && isLow l = true -> utf16 (pairCodePoint h l) = [h; l].
Proof.
  intros E. pose proof (pairCodePoint_range h l E). apply andb_true_iff in E as [Hh%isHigh_spec Hl%isLow_spec].
  unfold utf16. rewrite (proj2 (Z.leb_gt _ _)) by lia. unfold pairCodePoint. repeat f_equal; lia.
Qed.

Lemma codePoints_utf16 s : flat_map utf16 (codePoints s) = unitZ <$> s.
Proof.
  induction s as [|u|u u' s IH IH'] using list_ind_pair; [done|simpl; by rewrite utf16_unit|].
  rewrite codePoints_cons2. case_match eqn:E; cbn [flat_map].
  - rewrite utf16_pair, IH by done. done.
  - rewrite utf16_unit, IH'. done.
Qed.

Lemma codePoints_inj a b : codePoints a = codePoints b -> a = b.
Proof.
  intros H. apply (f_equal (flat_map utf16)) in H. rewrite !codePoints_utf16 in H.
  revert b H. induction a as [|u a IH]; intros [|v b]; [done..|].
  intros [= Hu Ht]. f_equal; [by apply unitZ_inj|by apply IH].
Qed.

Lemma compareCodePoint_eq a b : compareCodePoint a b = 0 <-> a = b.
Proof. rewrite compareCodePoint_spec, lexCompare_eq. split; [apply codePoints_inj|by intros ->]. Qed.

(** ** UTF-8 *)

(** Encoded scalars decide the comparison at their first difference, whatever
    follows. *)
Lemma utf8CodePoint_lt c d a b :
  isScalar c = true -> isScalar d = true -> c < d ->
  lexCompare (utf8CodePoint c ++ a) (utf8CodePoint d ++ b) < 0.
Proof.
  unfold isScalar. rewrite !andb_true_iff, !Z.leb_le. intros [[Hc0 Hc1] _] [[Hd0 Hd1] _] Hlt.
  unfold utf8CodePoint.
  destruct (Z.ltb_spec c 0x80), (Z.ltb_spec c 0x800), (Z.ltb_spec c 0x10000); try lia;
  destruct (Z.ltb_spec d 0x80), (Z.ltb_spec d 0x800), (Z.ltb_spec d 0x10000); try lia; simpl;
  repeat match goal with |- context [?x =? 0] => destruct (Z.eqb_spec x 0) end; try lia.
Qed.

Lemma lexCompare_app_same p a b : lexCompare (p ++ a) (p ++ b) = lexCompare a b.
Proof. induction p as [|x p IH]; simpl; [done|]. by rewrite Z.sub_diag. Qed.

Lemma utf8_lt a b :
  Forall (fun c => isScalar c = true) a -> Forall (fun c => isScalar c = true) b ->
  lexCompare a b < 0 -> lexCompare (flat_map utf8CodePoint a) (flat_map utf8CodePoint b) < 0.
Proof.
  intros Ha. revert b. induction Ha as [|c a Hc Ha IH]; intros b Hb.
  - destruct Hb as [|d b Hd Hb]; simpl; [lia|]. intros _.
    unfold utf8CodePoint. destruct (d <? 0x80), (d <? 0x800), (d <? 0x10000); done.
  - destruct Hb as [|d b Hd Hb]; simpl; [lia|]. destruct (Z.eqb_spec (c - d) 0) as [E|E].
    + assert (d = c) as -> by lia. rewrite lexCompare_app_same. by apply IH.
    + intros. apply utf8CodePoint_lt; [done..|lia].
Qed.

Lemma isWellFormed_spec s : isWellFormed s = true <-> Forall (fun c => isScalar c = true) (codePoints s).
Proof. unfold isWellFormed. by rewrite forallb_forall, Forall_forall; setoid_rewrite list_elem_of_In. Qed.

(** ** Catalogs *)

Definition sortedUnique (c : list jsstr) : Prop := StronglySorted (fun a b => compareCodePoint a b < 0) c.

Lemma sortedUnique_sorted c : sortedUnique c -> StronglySorted (cmp_le compareCodePoint) c.
Proof.
  induction 1 as [|a c Hc IH Ha]; [constructor|]. constructor; [done|].
  eapply Forall_impl; [exact Ha|]. unfold cmp_le. simpl. lia.
Qed.

Lemma sortedUnique_NoDup c : sortedUnique c -> NoDup c.
Proof.
  induction 1 as [|a c Hc IH Ha]; [constructor|]. constructor; [|done].
  intros Hin. rewrite Forall_forall in Ha. specialize (Ha a Hin). simpl in Ha.
  rewrite (proj2 (compareCodePoint_eq a a)) in Ha by done. lia.
Qed.

Lemma sortedUnique_of_sorted c :
  StronglySorted (cmp_le compareCodePoint) c -> NoDup c -> sortedUnique c.
Proof.
  induction 1 as [|a c Hc IH Ha]; [constructor|]. intros [Hn Hd]%NoDup_cons.
  constructor; [by apply IH|]. rewrite Forall_forall in Ha |- *. intros b Hb.
  specialize (Ha b Hb). unfold cmp_le in Ha.
  destruct (Z.eq_dec (compareCodePoint a b) 0) as [->%compareCodePoint_eq|]; [done|lia].
Qed.

(** A catalog is determined by its elements. *)
Lemma sortedUnique_ext c1 c2 :
  sortedUnique c1 -> sortedUnique c2 -> (forall x, x ∈ c1 <-> x ∈ c2) -> c1 = c2.
Proof.
  intros H1 H2 Hx. apply (sorted_unique compareCodePoint).
  - intros x y _ _. apply compareCodePoint_eq.
  - by apply sortedUnique_sorted.
  - by apply sortedUnique_sorted.
  - apply NoDup_Permutation; [by apply sortedUnique_NoDup..|done].
Qed.

Lemma elem_of_uniqueValues seen l x : x ∈ uniqueValues seen l <-> x ∈ l /\ x ∉ seen.
Proof.
  revert seen. induction l as [|v l IH]; intros seen; simpl; [set_solver|].
  case_bool_decide; [rewrite IH; set_solver|]. rewrite elem_of_cons, IH.
  destruct (decide (x = v)); set_solver.
Qed.

Lemma uniqueValues_NoDup seen l : NoDup (uniqueValues seen l).
Proof.
  revert seen. induction l as [|v l IH]; intros seen; simpl; [constructor|].
  case_bool_decide; [done|]. constructor; [|done]. rewrite elem_of_uniqueValues. set_solver.
Qed.

Lemma create_elements l x : x ∈ createSortedUniqueStringCatalog l <-> x ∈ l.
Proof. unfold createSortedUniqueStringCatalog. rewrite js_sort_perm, elem_of_uniqueValues. set_solver. Qed.

Lemma create_sortedUnique l : sortedUnique (createSortedUniqueStringCatalog l).
Proof.
  apply sortedUnique_of_sorted; [apply js_sort_sorted, _|].
  unfold createSortedUniqueStringCatalog. rewrite js_sort_perm. apply uniqueValues_NoDup.
Qed.

Lemma sortedUnique_lookup c i j a b :
  sortedUnique c -> c !! i = Some a -> c !! j = Some b -> (i < j)%nat -> compareCodePoint a b < 0.
Proof.
  intros Hc. revert i j. induction Hc as [|x c Hc IH Hx]; intros i j Hi Hj Hlt; [done|].
  destruct j as [|j]; [lia|]. simpl in Hj. destruct i as [|i]; simpl in Hi; [|eapply IH; [done..|lia]].
  injection Hi as ->. rewrite Forall_forall in Hx. apply Hx. by eapply list_elem_of_lookup_2.
Qed.

Lemma lowerBoundLoop_spec c t low high :
  sortedUnique c -> (low <= high <= length c)%nat ->
  (forall i s, c !! i = Some s -> (i < low)%nat -> compareCodePoint s t < 0) ->
  (forall i s, c !! i = Some s -> (high <= i)%nat -> 0 <= compareCodePoint s t) ->
  let r := lowerBoundLoop c t low high in
  (r <= length c)%nat /\
  (forall i s, c !! i = Some s -> (i < r)%nat -> compareCodePoint s t < 0) /\
  (forall i s, c !! i = Some s -> (r <= i)%nat -> 0 <= compareCodePoint s t).
Proof.
  intros Hc. funelim (lowerBoundLoop c t low high); intros Hr Hlo Hhi; clear Heqcall.
  2: { split_and!; [lia|done|]. intros i s Hs Hi. apply (Hhi i); [done|lia]. }
  set (middle := (low + Nat.div2 (high - low))%nat) in *.
  assert (middle < high)%nat as Hm by (subst middle; pose proof (Nat.lt_div2 (high - low)); lia).
  destruct (lookup_lt_is_Some_2 source middle) as [s Hs]; [lia|]. rewrite Hs.
  destruct (Z.ltb_spec (compareCodePoint s target) 0) as [Hts|Hts].
  - apply (H s); [done|subst middle; lia| |done]. intros i s' Hs' Hi.
    destruct (decide (i = middle)) as [->|]; [congruence|].
    assert (compareCodePoint s' s < 0) by (eapply sortedUnique_lookup; [done..|lia]).
    apply (cmp_lt_le_trans compareCodePoint s' s); [done|lia].
  - apply (H0 s); [done|subst middle; lia|done|]. intros i s' Hs' Hi.
    destruct (decide (i = middle)) as [->|]; [congruence|].
    assert (compareCodePoint s s' < 0) by (eapply sortedUnique_lookup; [done..|lia]).
    apply (cmp_ge compareCodePoint). apply (cmp_ge compareCodePoint) in Hts.
    apply Z.lt_le_incl, (cmp_le_lt_trans compareCodePoint _ s); done.
Qed.

Lemma codePointLowerBound_spec c t :
  sortedUnique c ->
  let r := codePointLowerBound c t in
  (r <= length c)%nat /\
  Forall (fun s => compareCodePoint s t < 0) (take r c) /\
  Forall (fun s => 0 <= compareCodePoint s t) (drop r c).
Proof.
  intros Hc. unfold codePointLowerBound.
  destruct (lowerBoundLoop_spec c t 0 (length c) Hc) as (Hr & Hlo & Hhi); [lia|lia| |].
  - intros i s Hs%lookup_lt_Some. lia.
  - split_and!; [done| |]; apply Forall_lookup; intros i s.
    + intros [Hs Hi]%lookup_take_Some. by apply (Hlo i).
    + rewrite lookup_drop. intros Hs. apply (Hhi _ s Hs). lia.
Qed.

(** The value is found at its lower bound, or nowhere. *)
Lemma lowerBound_hit c t :
  sortedUnique c -> c !! codePointLowerBound c t = Some t <-> t ∈ c.
Proof.
  intros Hc. split; [by apply list_elem_of_lookup_2|]. intros [i Hi]%list_elem_of_lookup_1.
  destruct (codePointLowerBound_spec c t Hc) as (Hr & Hlo & Hhi). set (r := codePointLowerBound c t) in *.
  assert (compareCodePoint t t = 0) as Ht by (by apply compareCodePoint_eq).
  destruct (Nat.lt_trichotomy i r) as [Hlt|[->|Hgt]]; [|done|].
  - rewrite Forall_lookup in Hlo. specialize (Hlo i t). simpl in Hlo. rewrite lookup_take_lt in Hlo by done.
    specialize (Hlo Hi). lia.
  - destruct (lookup_lt_is_Some_2 c r) as [s Hs]; [apply lookup_lt_Some in Hi; lia|].
    assert (compareCodePoint s t < 0) by (by eapply sortedUnique_lookup).
    rewrite Forall_lookup in Hhi. specialize (Hhi 0%nat s). simpl in Hhi.
    rewrite lookup_drop, Nat.add_0_r in Hhi. specialize (Hhi Hs). lia.
Qed.

Lemma insert_sortedUnique c v :
  sortedUnique c ->
  sortedUnique (insertSortedUniqueStringCatalog c v) /\
  forall x, x ∈ insertSortedUniqueStringCatalog c v <-> x = v \/ x ∈ c.
Proof.
  intros Hc. unfold insertSortedUniqueStringCatalog. pose proof (lowerBound_hit c v Hc) as Hhit.
  destruct (codePointLowerBound_spec c v Hc) as (Hr & Hlo & Hhi). set (r := codePointLowerBound c v) in *.
  case_bool_decide as Hv; [split; [done|]; apply Hhit in Hv; naive_solver|].
  split.
  - apply sortedUnique_of_sorted.
    + rewrite <- (take_drop r c) in Hc. apply sortedUnique_sorted in Hc.
      assert (Forall (cmp_le compareCodePoint v) (drop r c)) as Hv'.
      { eapply Forall_impl; [exact Hhi|]. intros b Hb. by apply (cmp_ge compareCodePoint). }
      apply StronglySorted_app_2; [|by eapply StronglySorted_app_1_l|].
      * rewrite Forall_forall in Hlo, Hv'. intros a b Ha [->|Hb]%elem_of_cons; unfold cmp_le.
        -- apply Z.lt_le_incl. by apply Hlo.
        -- apply (cmp_trans compareCodePoint a v b); [apply Z.lt_le_incl; by apply Hlo|by apply Hv'].
      * constructor; [by eapply StronglySorted_app_1_r|done].
    + rewrite <- Permutation_middle, (take_drop r c). constructor; [|by apply sortedUnique_NoDup]. tauto.
  - intros x. rewrite <- (take_drop r c) at 3. rewrite !elem_of_app, elem_of_cons. tauto.
Qed.

Lemma sortedUnique_sublist c1 c2 : sublist c1 c2 -> sortedUnique c2 -> sortedUnique c1.
Proof.
  induction 1 as [|x c1 c2 Hs IH|x c1 c2 Hs IH]; [done| |]; intros [Hc Hx]%StronglySorted_inv.
  - constructor; [by apply IH|]. rewrite Forall_forall in Hx |- *.
    intros y Hy. apply Hx. by eapply elem_of_sublist.
  - by apply IH.
Qed.

Lemma remove_sortedUnique c v :
  sortedUnique c ->
  sortedUnique (removeSortedUniqueStringCatalog c v) /\
  forall x, x ∈ removeSortedUniqueStringCatalog c v <-> x ∈ c /\ x <> v.
Proof.
  intros Hc. unfold removeSortedUniqueStringCatalog. pose proof (lowerBound_hit c v Hc) as Hhit.
  set (r := codePointLowerBound c v) in *. case_bool_decide as Hv; cbn [negb].
  - pose proof (take_drop_middle c r v Hv) as Ec. rewrite <- Ec in Hc. split.
    + eapply sortedUnique_sublist; [|exact Hc]. apply sublist_app; [done|]. by apply sublist_cons.
    + intros x. apply sortedUnique_NoDup, NoDup_app in Hc as (_ & Hd & [Hn _]%NoDup_cons).
      rewrite <- Ec at 3. rewrite !elem_of_app, elem_of_cons. specialize (Hd x).
      rewrite elem_of_cons in Hd. naive_solver.
  - split; [done|]. intros x. split; [|tauto]. intros Hx. split; [done|]. intros ->. tauto.
Qed.

Lemma filter_sortedUnique c p :
  sortedUnique c ->
  sortedUnique (filterSortedUniqueStringCatalog c p) /\
  forall x, x ∈ filterSortedUniqueStringCatalog c p <-> x ∈ c /\ p x = true.
Proof.
  assert (forall l, sublist (List.filter p l) l) as Hsub.
  { induction l as [|x l IH]; simpl; [done|]. case_match; by constructor. }
  intros Hc. unfold filterSortedUniqueStringCatalog.
  assert (forall x, x ∈ List.filter p c <-> x ∈ c /\ p x = true) as Hx.
  { intros x. by rewrite !list_elem_of_In, filter_In. }
  destruct (Nat.eqb_spec (length (List.filter p c)) (length c)) as [E|_].
  - enough (List.filter p c = c) as Heq by (split; [done|]; intros x; by rewrite <- Hx, Heq).
    clear Hc Hx. induction c as [|x c IH]; simpl in *; [done|].
    pose proof (sublist_length _ _ (Hsub c)). case_match; simpl in E; [f_equal; apply IH; lia|lia].
  - split; [exact (sortedUnique_sublist _ _ (Hsub c) Hc)|done].
Qed.

Lemma code_point_order_sgn a b :
  isWellFormed a = true -> isWellFormed b = true ->
  Z.sgn (compareCodePoint a b) = Z.sgn (lexCompare (utf8 a) (utf8 b)).
Proof.
  rewrite !isWellFormed_spec, compareCodePoint_spec. unfold utf8. intros Ha Hb.
  pose proof (utf8_lt _ _ Ha Hb) as Hab. pose proof (utf8_lt _ _ Hb Ha) as Hba.
  destruct (Z.lt_trichotomy (lexCompare (codePoints a) (codePoints b)) 0) as [Hlt|[E|Hgt]].
  - specialize (Hab Hlt). lia.
  - apply lexCompare_eq in E. by rewrite E, !lexCompare_refl.
  - apply lexCompare_flip in Hgt. specialize (Hba Hgt). apply lexCompare_flip in Hgt, Hba. lia.
Qed.

(** On well-formed strings the comparison by code point has the sign of
    the byte-wise comparison of the UTF-8 encodings: rows sorted in JavaScript
    and rows sorted by SQLite come in the same order. *)
Theorem code_point_order_is_utf8_order a b :
  isWellFormed a = true -> isWellFormed b = true ->
  Z.sgn (compareCodePoint a b) = Z.sgn (lexCompare (utf8 a) (utf8 b)).
Proof. apply code_point_order_sgn. Qed.

(** Maintaining a catalog incrementally gives the catalog that would be
    built from the changed collection: insertion, removal and filtering of the
    catalog of [values] are the catalogs of [values] with the element added, with
    it removed, and filtered. *)
Theorem catalog_incremental values v p :
  insertSortedUniqueStringCatalog (createSortedUniqueStringCatalog values) v
    = createSortedUniqueStringCatalog (v :: values) /\
  removeSortedUniqueStringCatalog (createSortedUniqueStringCatalog values) v
    = createSortedUniqueStringCatalog (filter (fun x => x <> v) values) /\
  filterSortedUniqueStringCatalog (createSortedUniqueStringCatalog values) p
    = createSortedUniqueStringCatalog (List.filter p values).
Proof.
  pose proof (create_sortedUnique values) as Hc.
  destruct (insert_sortedUnique _ v Hc) as [Hi Hi'], (remove_sortedUnique _ v Hc) as [Hr Hr'],
    (filter_sortedUnique _ p Hc) as [Hf Hf'].
  split_and!; (apply sortedUnique_ext; [done|apply create_sortedUnique|]); intros x.
  - rewrite Hi', !create_elements, elem_of_cons. done.
  - rewrite Hr', !create_elements, list_elem_of_filter. tauto.
  - rewrite Hf', !create_elements, !list_elem_of_In, filter_In. done.
Qed.

Lemma code_point_order_is_utf8_order_witness :
  let a := js "b" ++ [(xd8, x3d); (xde, x00)] in
  let b := js "b" ++ [(xff, x21)] in
  compareCodePoint a b = 0x1F600 - 0xFF21 /\
  Z.sgn (compareCodePoint a b) = Z.sgn (lexCompare (utf8 a) (utf8 b)).
Proof.
  intros a b. split; [vm_compute; reflexivity|].
  apply (code_point_order_is_utf8_order a b); vm_compute; reflexivity.
Defined.
