(* ===== verification/JsText.v ===== *)
(** * Text and bytes

    Strings as sequences of UTF-16 code units (CodePoints.v): code units from
    numbers, decimal and hexadecimal digits, and the two directions of UTF-8 as
    [TextEncoder] and a fatal [TextDecoder] compute them. *)

From Stdlib Require Import Strings.Byte.
From S2P Require Import Prelude Bytes CodePoints.

Open Scope Z_scope.

(** ** Bytes and code units from numbers *)

(** The element of a [Uint8Array] after writing [n] to it: [n] modulo 256. *)
Definition byteOf (n : Z) : byte :=
  match Byte.of_N (Z.to_N (n mod 256)) with Some b => b | None => x00 end.

(** [String.fromCharCode(n)] *)
Definition fromCharCode (n : Z) : codeUnit := (byteOf (n / 256), byteOf n).

(** The bytes of [TextEncoder.encode]: a surrogate without its partner becomes
    U+FFFD. *)
Definition encodeUtf8 (s : jsstr) : bytes :=
  byteOf <$> flat_map (fun c => utf8CodePoint (if isScalar c then c else 0xFFFD)) (codePoints s).

(** ** Digits *)

Fixpoint digitsOf (fuel : nat) (n : Z) : list Z :=
  match fuel with
  | O => [n]
  | S fuel' => if n <? 10 then [n] else digitsOf fuel' (n / 10) ++ [n mod 10]
  end.

(** The decimal digits of [n >= 0]; each round takes a digit off, so the binary
    logarithm is enough fuel. *)
Definition decimalDigits (n : Z) : list Z := digitsOf (Z.to_nat (Z.log2 n)) n.

(** [n.toString()] for an integer [n >= 0]. *)
Definition decimal (n : Z) : jsstr := (fun d => fromCharCode (48 + d)) <$> decimalDigits n.

(** The number that a sequence of digits writes. *)
Definition ofDigits (ds : list Z) : Z := foldl (fun acc d => acc * 10 + d) 0 ds.

Definition isDigit (u : codeUnit) : bool := (48 <=? unitZ u) && (unitZ u <=? 57).

Definition digitVal (u : codeUnit) : Z := unitZ u - 48.

(** [BigInt(value)] for a string of digits. *)
Definition bigIntOf (s : jsstr) : Z := ofDigits (digitVal <$> s).

(** [n.toString(16)] for [0 <= n < 16]. *)
Definition hexUnit (n : Z) : codeUnit := fromCharCode (if n <? 10 then 48 + n else 87 + n).

Definition isLowerHex (u : codeUnit) : bool :=
  isDigit u || ((97 <=? unitZ u) && (unitZ u <=? 102)).

(** ** Big-endian integers *)

(** The last [n] bytes of a number, from the highest: each round of the loop
    writes [remaining & 0xff] and shifts by a byte. *)
Fixpoint bigEndian (n : nat) (remaining : Z) : bytes :=
  match n with
  | O => []
  | S n' => bigEndian n' (Z.shiftr remaining 8) ++ [byteOf (Z.land remaining 0xff)]
  end.

(** [value = (value << 8n) | BigInt(bytes[index])] over the bytes. *)
Definition ofBigEndian (b : bytes) : Z := foldl (fun value x => Z.lor (Z.shiftl value 8) (byteZ x)) 0 b.

(** ** Decoding UTF-8 *)

Definition inZ (lo hi x : Z) : bool := (lo <=? x) && (x <=? hi).

(** The next code point of the bytes and what follows it; [None] for a byte
    sequence that is not well-formed UTF-8 (overlong forms, surrogates, code
    points above U+10FFFF and truncated sequences). *)
Definition nextUtf8 (b : list Z) : option (Z * list Z) :=
  match b with
  | b0 :: r =>
      if b0 <? 0x80 then Some (b0, r)
      else match r with
      | b1 :: r =>
          if inZ 0xC2 0xDF b0 && inZ 0x80 0xBF b1 then Some ((b0 - 0xC0) * 64 + (b1 - 0x80), r)
          else match r with
          | b2 :: r =>
              if inZ 0xE0 0xEF b0
                 && inZ (if b0 =? 0xE0 then 0xA0 else 0x80) (if b0 =? 0xED then 0x9F else 0xBF) b1
                 && inZ 0x80 0xBF b2
              then Some ((b0 - 0xE0) * 4096 + (b1 - 0x80) * 64 + (b2 - 0x80), r)
              else match r with
              | b3 :: r =>
                  if inZ 0xF0 0xF4 b0
                     && inZ (if b0 =? 0xF0 then 0x90 else 0x80) (if b0 =? 0xF4 then 0x8F else 0xBF) b1
                     && inZ 0x80 0xBF b2 && inZ 0x80 0xBF b3
                  then Some ((b0 - 0xF0) * 262144 + (b1 - 0x80) * 4096 + (b2 - 0x80) * 64 + (b3 - 0x80), r)
                  else None
              | [] => None
              end
          | [] => None
          end
      | [] => None
      end
  | [] => None
  end.

Fixpoint decodeLoop (fuel : nat) (b : list Z) : option (list Z) :=
  match b, fuel with
  | [], _ => Some []
  | _, O => None
  | _, S fuel' => '(c, r) ← nextUtf8 b; cs ← decodeLoop fuel' r; Some (c :: cs)
  end.

(** [new TextDecoder('utf-8', { fatal: true, ignoreBOM: true }).decode(b)]; each
    code point takes a byte at least, so the length is enough fuel. *)
Definition decodeUtf8 (b : bytes) : option jsstr :=
  cs ← decodeLoop (length b) (byteZ <$> b); Some (fromCharCode <$> flat_map utf16 cs).

(** ** Facts *)

Lemma byteZ_byteOf n : byteZ (byteOf n) = n mod 256.
Proof.
  unfold byteOf, byteZ. destruct (Byte.of_N (Z.to_N (n mod 256))) as [b|] eqn:E.
  - apply Byte.to_of_N in E. rewrite E. lia.
  - apply Byte.of_N_None_iff in E. lia.
Qed.

Lemma byteOf_byteZ b : byteOf (byteZ b) = b.
Proof. apply byteZ_inj. rewrite byteZ_byteOf. pose proof (byteZ_range b). lia. Qed.

Lemma unitZ_fromCharCode n : 0 <= n <= 0xFFFF -> unitZ (fromCharCode n) = n.
Proof. intros Hn. unfold unitZ, fromCharCode. simpl. rewrite !byteZ_byteOf. lia. Qed.

Lemma fromCharCode_unitZ u : fromCharCode (unitZ u) = u.
Proof. apply unitZ_inj. apply unitZ_fromCharCode, unitZ_range. Qed.

(** *** Digits *)

Abbreviation digit d := (0 <= d <= 9).

Lemma ofDigits_snoc ds d : ofDigits (ds ++ [d]) = ofDigits ds * 10 + d.
Proof. unfold ofDigits. by rewrite foldl_app. Qed.

Lemma ofDigits_app ds es : ofDigits (ds ++ es) = ofDigits ds * 10 ^ js_length es + ofDigits es.
Proof.
  unfold js_length. induction es as [|e es IH] using rev_ind.
  - rewrite app_nil_r. simpl. unfold ofDigits at 3. simpl. lia.
  - rewrite app_assoc, !ofDigits_snoc, IH, length_app. simpl.
    replace (Z.of_nat (length es + 1)) with (Z.succ (Z.of_nat (length es))) by lia.
    rewrite Z.pow_succ_r by lia. lia.
Qed.

Lemma ofDigits_bounds ds : Forall (fun d => digit d) ds -> 0 <= ofDigits ds < 10 ^ js_length ds.
Proof.
  unfold js_length. induction ds as [|d ds IH] using rev_ind; intros H; [unfold ofDigits; simpl; lia|].
  apply Forall_app in H as [H [Hd _]%Forall_cons]. specialize (IH H). rewrite ofDigits_snoc, length_app. simpl.
  replace (Z.of_nat (length ds + 1)) with (Z.succ (Z.of_nat (length ds))) by lia.
  rewrite Z.pow_succ_r by lia. lia.
Qed.

Lemma ofDigits_zeros n ds : ofDigits (replicate n 0 ++ ds) = ofDigits ds.
Proof.
  rewrite ofDigits_app. enough (ofDigits (replicate n 0) = 0) as -> by lia.
  induction n as [|n IH]; [done|]. unfold ofDigits in *. simpl. done.
Qed.

Lemma log2_div10 n : 10 <= n -> Z.log2 (n / 10) < Z.log2 n.
Proof.
  intros Hn. pose proof (Z.log2_spec n ltac:(lia)) as [_ H]. pose proof (Z.log2_spec (n / 10) ltac:(lia)) as [H' _].
  apply (Z.pow_lt_mono_r_iff 2); [lia|apply Z.log2_nonneg|].
  eapply Z.le_lt_trans; [exact H'|]. rewrite Z.pow_succ_r in H by apply Z.log2_nonneg. lia.
Qed.

(** What the digits of a number are: they write it, and there is no leading
    zero except for zero itself. *)
Record isDecimal (n : Z) (ds : list Z) : Prop := {
  dec_value : ofDigits ds = n;
  dec_digits : Forall (fun d => digit d) ds;
  dec_head : (n = 0 /\ ds = [0]) \/ (0 < n /\ exists d ds', ds = d :: ds' /\ d <> 0)
}.

Lemma digitsOf_spec fuel n : 0 <= n -> Z.log2 n <= Z.of_nat fuel -> isDecimal n (digitsOf fuel n).
Proof.
  revert n. induction fuel as [|fuel IH]; intros n Hn Hf; simpl.
  - destruct (Z.lt_ge_cases n 10) as [Hlt|Hge].
    + split; [unfold ofDigits; simpl; lia|repeat constructor; lia|].
      destruct (decide (n = 0)) as [->|]; [by left|right]. split; [lia|]. by exists n, [].
    + pose proof (log2_div10 n Hge). pose proof (Z.log2_nonneg (n / 10)). lia.
  - destruct (Z.ltb_spec n 10).
    + split; [unfold ofDigits; simpl; lia|repeat constructor; lia|].
      destruct (decide (n = 0)) as [->|]; [by left|right]. split; [lia|]. by exists n, [].
    + pose proof (log2_div10 n H). destruct (IH (n / 10)) as [Hv Hd Hh]; [lia..|]. split.
      * rewrite ofDigits_snoc, Hv. lia.
      * apply Forall_app. split; [done|]. repeat constructor; lia.
      * right. split; [lia|]. destruct Hh as [[? _]|(_ & d & ds & -> & Hd0)]; [lia|]. by exists d, (ds ++ [n mod 10]).
Qed.

Lemma decimalDigits_spec n : 0 <= n -> isDecimal n (decimalDigits n).
Proof. intros Hn. apply digitsOf_spec; [done|]. pose proof (Z.log2_nonneg n). lia. Qed.

Lemma isDecimal_bounds n ds : isDecimal n ds -> 0 < n -> 10 ^ (js_length ds - 1) <= n < 10 ^ js_length ds.
Proof.
  intros [Hv Hd Hh] Hn. rewrite <- Hv. pose proof (ofDigits_bounds ds Hd) as [_ ?]. split; [|done].
  destruct Hh as [[-> _]|(_ & d & ds' & -> & Hd0)]; [lia|].
  apply Forall_cons in Hd as [Hd Hds]. pose proof (ofDigits_bounds ds' Hds).
  change (d :: ds') with ([d] ++ ds') at 2. rewrite ofDigits_app. unfold ofDigits at 1. simpl.
  unfold js_length in *. simpl. replace (Z.of_nat (S (length ds')) - 1) with (Z.of_nat (length ds')) by lia. nia.
Qed.

(** The digits of a number are determined. *)
Lemma isDecimal_unique n ds es : isDecimal n ds -> isDecimal n es -> ds = es.
Proof.
  intros Hds Hes. destruct (decide (n = 0)) as [->|Hn].
  { destruct Hds as [_ _ [[_ ->]|[? _]]], Hes as [_ _ [[_ ->]|[? _]]]; done || lia. }
  assert (length ds = length es) as Hl.
  { assert (0 < n) as Hp by (destruct Hds as [_ _ [[? _]|[? _]]]; lia).
    pose proof (isDecimal_bounds n ds Hds Hp) as [H1 H2]. pose proof (isDecimal_bounds n es Hes Hp) as [H3 H4].
    assert (js_length ds - 1 < js_length es) by (apply (Z.pow_lt_mono_r_iff 10); unfold js_length in *; lia).
    assert (js_length es - 1 < js_length ds) by (apply (Z.pow_lt_mono_r_iff 10); unfold js_length in *; lia).
    unfold js_length in *. lia. }
  destruct Hds as [Hv Hd _], Hes as [Hv' Hd' _]. rewrite <- Hv in Hv'. clear n Hv Hn.
  revert es Hd' Hl Hv'. induction ds as [|d ds IH] using rev_ind; intros es Hd' Hl Hv.
  - by destruct es.
  - destruct es as [|e es _] using rev_ind; [rewrite length_app in Hl; simpl in Hl; lia|].
    rewrite !length_app in Hl. simpl in Hl. rewrite !ofDigits_snoc in Hv.
    apply Forall_app in Hd as [Hd [Hdd _]%Forall_cons]. apply Forall_app in Hd' as [Hd' [He _]%Forall_cons].
    assert (d = e) as -> by lia. f_equal. apply IH; [done|done|lia|lia].
Qed.

(** More digits, greater number. *)
Lemma decimal_length_mono n m : 0 <= n <= m -> js_length (decimal n) <= js_length (decimal m).
Proof.
  intros Hnm. unfold decimal, js_length. rewrite !length_fmap.
  pose proof (decimalDigits_spec n ltac:(lia)) as Hn. pose proof (decimalDigits_spec m ltac:(lia)) as Hm.
  destruct (decide (n = 0)) as [->|].
  { destruct (dec_head _ _ Hm) as [[_ ->]|(_ & d & ds & -> & _)]; simpl; lia. }
  pose proof (isDecimal_bounds _ _ Hn ltac:(lia)) as [H1 _]. pose proof (isDecimal_bounds _ _ Hm ltac:(lia)) as [_ H2].
  unfold js_length in *.
  assert (Z.of_nat (length (decimalDigits n)) - 1 < Z.of_nat (length (decimalDigits m))); [|lia].
  apply (Z.pow_lt_mono_r_iff 10); lia.
Qed.

Lemma digitVal_unit d : digit d -> digitVal (fromCharCode (48 + d)) = d.
Proof. intros. unfold digitVal. rewrite unitZ_fromCharCode; lia. Qed.

Lemma isDigit_unit d : digit d -> isDigit (fromCharCode (48 + d)) = true.
Proof. intros. unfold isDigit. rewrite unitZ_fromCharCode by lia. apply andb_true_iff. rewrite !Z.leb_le. lia. Qed.

Lemma isDigit_spec u : isDigit u = true <-> digit (digitVal u).
Proof. unfold isDigit, digitVal. rewrite andb_true_iff, !Z.leb_le. lia. Qed.

Lemma digits_of_units ds : Forall (fun d => digit d) ds -> digitVal <$> ((fun d => fromCharCode (48 + d)) <$> ds) = ds.
Proof. induction 1 as [|d ds Hd _ IH]; [done|]. csimpl. by rewrite digitVal_unit, IH. Qed.

Lemma units_of_digits s : Forall (fun u => isDigit u = true) s -> (fun d => fromCharCode (48 + d)) <$> (digitVal <$> s) = s.
Proof.
  induction 1 as [|u s Hu _ IH]; [done|]. csimpl. rewrite IH. f_equal. unfold digitVal.
  rewrite <- (fromCharCode_unitZ u) at 2. f_equal. lia.
Qed.

Lemma bigIntOf_decimal n : 0 <= n -> bigIntOf (decimal n) = n.
Proof.
  intros Hn. destruct (decimalDigits_spec n Hn) as [Hv Hd _]. unfold bigIntOf, decimal.
  by rewrite digits_of_units.
Qed.

Lemma decimal_digits n : 0 <= n -> Forall (fun u => isDigit u = true) (decimal n).
Proof.
  intros Hn. destruct (decimalDigits_spec n Hn) as [_ Hd _]. unfold decimal. apply Forall_fmap.
  eapply Forall_impl; [exact Hd|]. intros d. apply isDigit_unit.
Qed.

(** *** UTF-8 *)

Lemma inZ_spec lo hi x : inZ lo hi x = true <-> lo <= x <= hi.
Proof. unfold inZ. rewrite andb_true_iff, !Z.leb_le. done. Qed.

Lemma isScalar_spec c : isScalar c = true <-> 0 <= c <= 0x10FFFF /\ ~ (0xD800 <= c <= 0xDFFF).
Proof.
  unfold isScalar, isHigh, isLow. rewrite !andb_true_iff, negb_true_iff, orb_false_iff, !andb_false_iff, !Z.leb_le, !Z.leb_gt.
  lia.
Qed.

Ltac case_ranges :=
  repeat match goal with
  | |- context [?a <? ?b] => destruct (Z.ltb_spec a b); try lia
  | |- context [?a =? ?b] => destruct (Z.eqb_spec a b); try lia
  | |- context [inZ ?a ?b ?c] =>
      let E := fresh "E" in destruct (inZ a b c) eqn:E;
      [apply inZ_spec in E | apply not_true_iff_false in E; rewrite inZ_spec in E; try lia]
  end.

Lemma nextUtf8_encode c r : isScalar c = true -> nextUtf8 (utf8CodePoint c ++ r) = Some (c, r).
Proof.
  rewrite isScalar_spec. intros [Hc Hs]. unfold utf8CodePoint.
  destruct (Z.ltb_spec c 0x80); [simpl; by rewrite (proj2 (Z.ltb_lt _ _))|].
  destruct (Z.ltb_spec c 0x800); [|destruct (Z.ltb_spec c 0x10000)]; cbn [app nextUtf8];
    case_ranges; simpl; do 2 f_equal; lia.
Qed.

Lemma nextUtf8_shape b c r :
  Forall (fun x => 0 <= x < 256) b -> nextUtf8 b = Some (c, r) -> isScalar c = true /\ b = utf8CodePoint c ++ r.
Proof.
  intros Hb. rewrite isScalar_spec. unfold utf8CodePoint.
  destruct Hb as [|b0 b H0 Hb]; [done|]. simpl. destruct (Z.ltb_spec b0 0x80).
  { intros [= <- <-]. split; [lia|]. by rewrite (proj2 (Z.ltb_lt _ _)). }
  destruct Hb as [|b1 b H1 Hb]; [done|].
  destruct (inZ 0xC2 0xDF b0 && inZ 0x80 0xBF b1) eqn:E.
  { apply andb_true_iff in E as [E1%inZ_spec E2%inZ_spec]. intros [= <- <-]. split; [lia|]. case_ranges.
    simpl. repeat f_equal; lia. }
  clear E. destruct Hb as [|b2 b H2 Hb]; [done|]. case_match eqn:E.
  { rewrite !andb_true_iff, !inZ_spec in E. destruct E as [[E1 E2] E3]. intros [= <- <-].
    destruct (Z.eqb_spec b0 0xE0), (Z.eqb_spec b0 0xED); (split; [lia|]); case_ranges; simpl; repeat f_equal; lia. }
  clear E. destruct Hb as [|b3 b H3 Hb]; [done|]. case_match eqn:E; [|done].
  rewrite !andb_true_iff, !inZ_spec in E. destruct E as [[[E1 E2] E3] E4]. intros [= <- <-].
  destruct (Z.eqb_spec b0 0xF0), (Z.eqb_spec b0 0xF4); (split; [lia|]); case_ranges; simpl; repeat f_equal; lia.
Qed.

#[global] Arguments nextUtf8 : simpl never.

Lemma utf8CodePoint_length c : (1 <= length (utf8CodePoint c))%nat.
Proof. unfold utf8CodePoint. repeat case_match; simpl; lia. Qed.

Lemma decodeLoop_encode cs fuel :
  Forall (fun c => isScalar c = true) cs -> (length (flat_map utf8CodePoint cs) <= fuel)%nat ->
  decodeLoop fuel (flat_map utf8CodePoint cs) = Some cs.
Proof.
  intros Hcs. revert fuel. induction Hcs as [|c cs Hc _ IH]; intros fuel Hf; [by destruct fuel|].
  cbn [flat_map] in *. rewrite length_app in Hf. pose proof (utf8CodePoint_length c) as Hl.
  destruct fuel as [|fuel]; [lia|]. destruct (utf8CodePoint c ++ _) eqn:E.
  { apply (f_equal length) in E. rewrite length_app in E. simpl in E. lia. }
  rewrite <- E. unfold decodeLoop at 1. rewrite E at 1. fold decodeLoop. rewrite nextUtf8_encode by done. simpl.
  rewrite IH by lia. done.
Qed.

Lemma decodeLoop_shape fuel b cs :
  Forall (fun x => 0 <= x < 256) b -> decodeLoop fuel b = Some cs ->
  Forall (fun c => isScalar c = true) cs /\ b = flat_map utf8CodePoint cs.
Proof.
  revert b cs. induction fuel as [|fuel IH]; intros [|x b] cs Hb H; simplify_eq/=; [by split..|].
  destruct (nextUtf8 (x :: b)) as [[c r]|] eqn:E; simplify_eq/=.
  apply nextUtf8_shape in E as [Hc E]; [|done]. rewrite E in Hb. apply Forall_app in Hb as [_ Hb].
  destruct (decodeLoop fuel r) as [cs'|] eqn:E'; simplify_eq/=. destruct (IH _ _ Hb E') as [? ->]. by split; [constructor|].
Qed.

Lemma units_utf16 s : fromCharCode <$> flat_map utf16 (codePoints s) = s.
Proof.
  rewrite codePoints_utf16, <- list_fmap_compose. rewrite <- (list_fmap_id s) at 2.
  apply list_fmap_ext. intros i u _. apply fromCharCode_unitZ.
Qed.

Lemma utf8CodePoint_bytes c : 0 <= c <= 0x10FFFF -> Forall (fun x => 0 <= x < 256) (utf8CodePoint c).
Proof.
  intros Hc. unfold utf8CodePoint. case_ranges; repeat (constructor; [lia|]); constructor.
Qed.

Lemma bytes_roundtrip l : Forall (fun x => 0 <= x < 256) l -> byteZ <$> (byteOf <$> l) = l.
Proof. induction 1 as [|x l Hx _ IH]; [done|]. csimpl. rewrite IH, byteZ_byteOf. f_equal. lia. Qed.

Lemma flat_map_forall {A B} (P : B -> Prop) (f : A -> list B) l :
  (forall x, x ∈ l -> Forall P (f x)) -> Forall P (flat_map f l).
Proof.
  induction l as [|x l IH]; intros H; simpl; [constructor|].
  apply Forall_app. split; [apply H; left|]. apply IH. intros y Hy. apply H. by right.
Qed.

Lemma encodeUtf8_scalars s :
  isWellFormed s = true -> encodeUtf8 s = byteOf <$> flat_map utf8CodePoint (codePoints s).
Proof.
  rewrite isWellFormed_spec. intros Hs. unfold encodeUtf8. f_equal.
  induction Hs as [|c cs Hc _ IH]; [done|]. cbn [flat_map]. by rewrite IH, Hc.
Qed.

Lemma scalar_bytes cs : Forall (fun c => isScalar c = true) cs -> Forall (fun x => 0 <= x < 256) (flat_map utf8CodePoint cs).
Proof.
  intros Hcs. apply flat_map_forall. intros c Hc. rewrite Forall_forall in Hcs.
  apply Hcs, isScalar_spec in Hc as [Hc _]. by apply utf8CodePoint_bytes.
Qed.

(** Decoding gives back an encoded string without lone surrogates. *)
Lemma decode_encode s : isWellFormed s = true -> decodeUtf8 (encodeUtf8 s) = Some s.
Proof.
  intros Hs. rewrite encodeUtf8_scalars by done. apply isWellFormed_spec in Hs. unfold decodeUtf8.
  rewrite bytes_roundtrip by by apply scalar_bytes. rewrite decodeLoop_encode by (done || by rewrite length_fmap).
  simpl. by rewrite units_utf16.
Qed.

Lemma codePoints_scalars cs :
  Forall (fun c => isScalar c = true) cs -> codePoints (fromCharCode <$> flat_map utf16 cs) = cs.
Proof.
  induction 1 as [|c cs Hc _ IH]; [done|]. apply isScalar_spec in Hc as [Hc Hs]. cbn [flat_map]. unfold utf16 at 1.
  destruct (Z.leb_spec c 0xFFFF).
  - rewrite fmap_app, fmap_cons, fmap_nil. cbn [app]. destruct (fromCharCode <$> flat_map utf16 cs) as [|u t] eqn:E.
    + rewrite <- IH. simpl. by rewrite unitZ_fromCharCode by lia.
    + rewrite codePoints_cons2, IH, unitZ_fromCharCode by lia.
      destruct (isHigh c) eqn:Eh; [apply isHigh_spec in Eh; lia|done].
  - rewrite fmap_app, !fmap_cons, fmap_nil. cbn [app]. rewrite codePoints_cons2, IH, !unitZ_fromCharCode by lia.
    rewrite (proj2 (isHigh_spec _)), (proj2 (isLow_spec _)) by lia. simpl. f_equal. unfold pairCodePoint. lia.
Qed.

(** Bytes that decode are the encoding of the string, which has no lone
    surrogates. *)
Lemma encode_decode b s : decodeUtf8 b = Some s -> isWellFormed s = true /\ encodeUtf8 s = b.
Proof.
  unfold decodeUtf8. destruct (decodeLoop _ _) as [cs|] eqn:E; [|done]. intros [= <-].
  apply decodeLoop_shape in E as [Hcs Hb].
  2:{ apply Forall_fmap, Forall_true. intros x. apply byteZ_range. }
  assert (isWellFormed (fromCharCode <$> flat_map utf16 cs) = true) as Hw.
  { by rewrite isWellFormed_spec, codePoints_scalars. }
  split; [done|]. rewrite encodeUtf8_scalars, codePoints_scalars, <- Hb by done.
  rewrite <- list_fmap_compose. rewrite <- (list_fmap_id b) at 2. apply list_fmap_ext. intros i x _. apply byteOf_byteZ.
Qed.

(** A string has no more code units than bytes. *)
Lemma utf16_le_utf8 s : js_length s <= js_length (encodeUtf8 s).
Proof.
  unfold js_length, encodeUtf8. rewrite length_fmap.
  assert (length s = length (flat_map utf16 (codePoints s))) as -> by (by rewrite codePoints_utf16, length_fmap).
  generalize (codePoints s). intros l. induction l as [|c l IH]; [done|]. cbn [flat_map]. rewrite !length_app.
  assert (length (utf16 c) <= length (utf8CodePoint (if isScalar c then c else 0xFFFD)))%nat; [|lia].
  unfold utf16. destruct (isScalar c) eqn:E.
  - apply isScalar_spec in E as [E _]. unfold utf8CodePoint. case_ranges; destruct (Z.leb_spec c 0xFFFF); simpl; lia.
  - change (length (utf8CodePoint 0xFFFD)) with 3%nat. case_match; simpl; lia.
Qed.

(** *** Big-endian integers *)

Lemma lor_shift_byte v x : 0 <= v -> 0 <= x < 256 -> Z.lor (Z.shiftl v 8) x = v * 256 + x.
Proof.
  intros Hv Hx. assert (Z.land (Z.shiftl v 8) x = 0) as Hl.
  { apply Z.bits_inj'. intros i Hi. rewrite Z.land_spec, Z.bits_0. destruct (Z.lt_ge_cases i 8).
    - by rewrite Z.shiftl_spec_low.
    - rewrite (Z.bits_above_log2 x i), andb_false_r; [done|lia|].
      destruct (decide (x = 0)) as [->|]; [simpl; lia|]. apply Z.log2_lt_pow2; [lia|].
      apply (Z.lt_le_trans _ (2 ^ 8)); [lia|]. apply Z.pow_le_mono_r; lia. }
  rewrite <- Z.lxor_lor, <- Z.add_nocarry_lxor by done. by rewrite Z.shiftl_mul_pow2 by lia.
Qed.

Lemma ofBigEndian_snoc b x : ofBigEndian (b ++ [x]) = Z.lor (Z.shiftl (ofBigEndian b) 8) (byteZ x).
Proof. unfold ofBigEndian. by rewrite foldl_app. Qed.

Lemma ofBigEndian_bounds b : 0 <= ofBigEndian b < 256 ^ js_length b.
Proof.
  unfold js_length. induction b as [|x b IH] using rev_ind; [unfold ofBigEndian; simpl; lia|].
  pose proof (byteZ_range x). rewrite ofBigEndian_snoc, lor_shift_byte by lia. rewrite length_app. simpl.
  replace (Z.of_nat (length b + 1)) with (Z.succ (Z.of_nat (length b))) by lia. rewrite Z.pow_succ_r by lia. lia.
Qed.

Lemma bigEndian_length n v : length (bigEndian n v) = n.
Proof. revert v. induction n as [|n IH]; intros v; simpl; [done|]. rewrite length_app, IH. simpl. lia. Qed.

Lemma ofBigEndian_bigEndian n v : 0 <= v < 256 ^ Z.of_nat n -> ofBigEndian (bigEndian n v) = v.
Proof.
  revert v. induction n as [|n IH]; intros v Hv; [simpl in *; unfold ofBigEndian; simpl; lia|].
  cbn [bigEndian]. rewrite Nat2Z.inj_succ, Z.pow_succ_r in Hv by lia. rewrite ofBigEndian_snoc, byteZ_byteOf.
  change 0xff with (Z.ones 8). rewrite Z.land_ones, Z.shiftr_div_pow2 by lia. change (2 ^ 8) with 256.
  rewrite IH by lia. rewrite lor_shift_byte by lia. lia.
Qed.

Lemma bigEndian_ofBigEndian b : bigEndian (length b) (ofBigEndian b) = b.
Proof.
  induction b as [|x b IH] using rev_ind; [done|]. rewrite length_app. simpl. rewrite Nat.add_1_r. cbn [bigEndian].
  pose proof (byteZ_range x). pose proof (ofBigEndian_bounds b). rewrite ofBigEndian_snoc, lor_shift_byte by lia.
  change 0xff with (Z.ones 8). rewrite Z.land_ones, Z.shiftr_div_pow2 by lia. change (2 ^ 8) with 256.
  rewrite Z.div_add_l, (Z.div_small (byteZ x)), Z.add_0_r, IH by lia. do 2 f_equal. rewrite <- (byteOf_byteZ x) at 2.
  apply byteZ_inj. rewrite !byteZ_byteOf. lia.
Qed.

Lemma bigEndian_inj n v w : 0 <= v < 256 ^ Z.of_nat n -> 0 <= w < 256 ^ Z.of_nat n -> bigEndian n v = bigEndian n w -> v = w.
Proof. intros Hv Hw E. by rewrite <- (ofBigEndian_bigEndian n v), <- (ofBigEndian_bigEndian n w), E. Qed.
