(* ===== verification/JsNumber.v ===== *)
(** * JavaScript numbers

    The part of ECMAScript numbers that the JSON codec uses: IEEE 754 binary64
    values, [Number(token)] on decimal literals (round to nearest, ties to even)
    and the shortest decimal text of a number, [Number.prototype.toString]. *)

From S2P Require Import Prelude Bytes CodePoints JsText.

Open Scope Z_scope.

(** A finite number is [(-1)^neg * m * 2^(e - 1074)]. *)
Inductive number :=
| NaN
| Infinite (neg : bool)
| Finite (neg : bool) (m e : Z).

#[export] Instance number_eq_decision : EqDecision number.
Proof. solve_decision. Defined.

(** The values that exist: normal numbers have a 53-bit significand, subnormal
    ones the smallest exponent. *)
Definition validNumber (x : number) : Prop :=
  match x with
  | Finite _ m e => 0 <= m < 2 ^ 53 /\ 0 <= e <= 2045 /\ (2 ^ 52 <= m \/ e = 0)
  | _ => True
  end.

Definition isFinite (x : number) : bool := match x with Finite _ _ _ => true | _ => false end.

(** ** Rounding *)

(** One, in units of the smallest subnormal number. *)
Definition ulps : Z := 2 ^ 1074.

(** [num / den] to the nearest integer, ties to even. *)
Definition roundHalfEven (num den : Z) : Z :=
  let q := num / den in
  let r := num mod den in
  if 2 * r <? den then q
  else if den <? 2 * r then q + 1
  else if Z.even q then q else q + 1.

(** The number nearest to [num / den >= 0].  [n / den] counts units of the
    smallest subnormal number. *)
Definition roundNumber (neg : bool) (num den : Z) : number :=
  let n := num * ulps in
  let e := Z.max 0 (Z.log2 (n / den) - 52) in
  let m := roundHalfEven n (den * 2 ^ e) in
  let '(m, e) := if m =? 2 ^ 53 then (2 ^ 52, e + 1) else (m, e) in
  if 2045 <? e then Infinite neg else Finite neg m e.

(** The number nearest to [s * 10^t]. *)
Definition decimalNumber (neg : bool) (s t : Z) : number :=
  if t <? 0 then roundNumber neg s (10 ^ (- t)) else roundNumber neg (s * 10 ^ t) 1.

(** ** Decimal literals *)

Record DecimalToken := mkToken {
  tok_neg : bool;
  tok_int : jsstr;
  tok_frac : jsstr;       (* empty without a decimal point *)
  tok_exp : option jsstr  (* with its sign, without the letter *)
}.

Fixpoint spanDigits (s : jsstr) : jsstr * jsstr :=
  match s with
  | u :: r => if isDigit u then let '(ds, r') := spanDigits r in (u :: ds, r') else ([], s)
  | [] => ([], [])
  end.

Definition isUnit (c : Z) (u : codeUnit) : bool := unitZ u =? c.

Definition minus : Z := 45.
Definition plus : Z := 43.
Definition point : Z := 46.

Definition isE (u : codeUnit) : bool := isUnit 101 u || isUnit 69 u.

Definition isSign (u : codeUnit) : bool := isUnit plus u || isUnit minus u.

(** A sign and digits up to the end of the text. *)
Definition matchExponent (s : jsstr) : option jsstr :=
  let body := match s with u :: r => if isSign u then r else s | [] => s end in
  match spanDigits body with
  | (_ :: _, []) => Some s
  | _ => None
  end.

(** The regular expression of [normalizeDecimalToken] and its groups. *)
Definition matchDecimal (token : jsstr) : option DecimalToken :=
  let '(neg, s) := match token with u :: r => if isUnit minus u then (true, r) else (false, token) | [] => (false, token) end in
  let '(int, s) := spanDigits s in
  if bool_decide (int = []) then None
  else
    '(frac, s) ← match s with
                 | u :: r =>
                     if isUnit point u then
                       match spanDigits r with ([], _) => None | (frac, r') => Some (frac, r') end
                     else Some ([], s)
                 | [] => Some ([], s)
                 end;
    match s with
    | [] => Some (mkToken neg int frac None)
    | u :: r => if isE u then x ← matchExponent r; Some (mkToken neg int frac (Some x)) else None
    end.

(** The value of an exponent. *)
Definition exponentValue (raw : option jsstr) : Z :=
  match raw with
  | None => 0
  | Some s =>
      match s with
      | u :: r => if isUnit minus u then - bigIntOf r else if isUnit plus u then bigIntOf r else bigIntOf s
      | [] => 0
      end
  end.

(** [Number(token)] for a decimal literal. *)
Definition Number (token : jsstr) : number :=
  match matchDecimal token with
  | Some d =>
      decimalNumber (tok_neg d) (bigIntOf (tok_int d ++ tok_frac d)) (exponentValue (tok_exp d) - js_length (tok_frac d))
  | None => NaN
  end.

(** ** The shortest decimal text *)

(** How often [x < 1], given in units of [2^-1074], is multiplied by 10 to reach 1. *)
Fixpoint leadingZeros (fuel : nat) (x : Z) : Z :=
  match fuel with
  | O => 0
  | S fuel' => if ulps <=? x then 0 else 1 + leadingZeros fuel' (x * 10)
  end.

(** The [n] with [10^(n-1) <= x < 10^n]. *)
Definition magnitude (x : Z) : Z :=
  if ulps <=? x then js_length (decimalDigits (x / ulps)) else 1 - leadingZeros 325 x.

(** [x / 10^t] as a fraction. *)
Definition scaled (x t : Z) : Z * Z :=
  if t <? 0 then (x * 10 ^ (- t), ulps) else (x, ulps * 10 ^ t).

(** The decimals with [k] digits next to [x]: the one not above it, the next
    one, and whether the first is to be preferred (closer, or even at a tie). *)
Definition neighbours (x n k : Z) : (Z * Z) * (Z * Z) * bool :=
  let t := n - k in
  let '(num, den) := scaled x t in
  let lo := num / den in
  let r := num mod den in
  ((lo, t), (if lo + 1 =? 10 ^ k then (10 ^ (k - 1), t + 1) else (lo + 1, t)),
   (2 * r <? den) || ((2 * r =? den) && Z.even lo)).

(** The [s] and [t] with the fewest digits of [s] for which [s * 10^t] is read
    as the number [m * 2^(e - 1074)], the closest among them. *)
Fixpoint shortestLoop (fuel : nat) (m e n k : Z) : Z * Z :=
  match fuel with
  | O => (0, 0)
  | S fuel' =>
      let '(lo, hi, preferLo) := neighbours (m * 2 ^ e) n k in
      let okLo := bool_decide (decimalNumber false lo.1 lo.2 = Finite false m e) in
      let okHi := bool_decide (decimalNumber false hi.1 hi.2 = Finite false m e) in
      if okLo && (preferLo || negb okHi) then lo
      else if okHi then hi
      else shortestLoop fuel' m e n (k + 1)
  end.

(** Every number has a decimal expansion of at most [n + 1074] digits. *)
Definition shortestDecimal (m e : Z) : Z * Z :=
  let n := magnitude (m * 2 ^ e) in shortestLoop (Z.to_nat (n + 1074)) m e n 1.

Definition digitsText (ds : list Z) : jsstr := (fun d => fromCharCode (48 + d)) <$> ds.

Definition zeros (n : Z) : list Z := replicate (Z.to_nat n) 0.

(** The text of [s * 10^t], by the size of the number. *)
Definition formatDecimal (s t : Z) : jsstr :=
  let ds := decimalDigits s in
  let k := js_length ds in
  let n := k + t in
  if (k <=? n) && (n <=? 21) then digitsText (ds ++ zeros (n - k))
  else if (0 <? n) && (n <=? 21) then digitsText (take (Z.to_nat n) ds) ++ js "." ++ digitsText (drop (Z.to_nat n) ds)
  else if (-6 <? n) && (n <=? 0) then js "0." ++ digitsText (zeros (- n) ++ ds)
  else
    digitsText (take 1 ds) ++ (if k =? 1 then [] else js "." ++ digitsText (drop 1 ds)) ++
    js "e" ++ (if n - 1 <? 0 then js "-" else js "+") ++ decimal (Z.abs (n - 1)).

(** [Number.prototype.toString], which is also [JSON.stringify] of a finite
    number. *)
Definition numberText (x : number) : jsstr :=
  match x with
  | NaN => js "NaN"
  | Infinite neg => if neg then js "-Infinity" else js "Infinity"
  | Finite neg m e =>
      if m =? 0 then js "0"
      else (if neg then js "-" else []) ++ (let '(s, t) := shortestDecimal m e in formatDecimal s t)
  end.

(** ** Facts *)

Lemma ulps_pos : 0 < ulps.
Proof. by apply Z.pow_pos_nonneg. Qed.

#[global] Opaque ulps.

#[export] Hint Resolve ulps_pos : dkg.

Lemma pow10_pos k : 0 <= k -> 0 < 10 ^ k.
Proof. intros. apply Z.pow_pos_nonneg; lia. Qed.

Lemma roundHalfEven_exact q d : 0 < d -> roundHalfEven (q * d) d = q.
Proof.
  intros Hd. unfold roundHalfEven. rewrite Z.div_mul, Z.mod_mul by lia.
  by rewrite (proj2 (Z.ltb_lt _ _)) by lia.
Qed.

(** A number that can be represented is not rounded. *)
Lemma roundNumber_exact neg num den m e :
  0 < den -> 0 < m -> validNumber (Finite neg m e) -> num * ulps = m * 2 ^ e * den ->
  roundNumber neg num den = Finite neg m e.
Proof.
  intros Hden Hm (Hm' & He & Hn) E. unfold roundNumber. rewrite E, Z.div_mul, Z.log2_mul_pow2 by lia.
  assert (Z.max 0 (e + Z.log2 m - 52) = e) as ->.
  { destruct Hn as [Hn| ->].
    - rewrite (Z.log2_unique m 52); [lia..|]. change (Z.succ 52) with 53. lia.
    - assert (Z.log2 m < 53) by (apply Z.log2_lt_pow2; lia). lia. }
  replace (m * 2 ^ e * den) with (m * (den * 2 ^ e)) by ring.
  rewrite roundHalfEven_exact by (pose proof (Z.pow_pos_nonneg 2 e); nia).
  destruct (Z.eqb_spec m (2 ^ 53)); [lia|]. by rewrite (proj2 (Z.ltb_ge _ _)) by lia.
Qed.

Lemma roundNumber_sign neg m e num den :
  roundNumber false num den = Finite false m e -> roundNumber neg num den = Finite neg m e.
Proof. unfold roundNumber. repeat case_match; naive_solver. Qed.

Lemma decimalNumber_sign neg m e s t :
  decimalNumber false s t = Finite false m e -> decimalNumber neg s t = Finite neg m e.
Proof. unfold decimalNumber. case_match; apply roundNumber_sign. Qed.

Lemma roundNumber_zero den : 0 < den -> roundNumber false 0 den = Finite false 0 0.
Proof.
  intros Hden. unfold roundNumber, roundHalfEven. rewrite !Z.mul_0_l, !Zdiv_0_l, !Zmod_0_l. cbn -[Z.mul].
  by rewrite (proj2 (Z.ltb_lt _ _)) by lia.
Qed.

Lemma decimalNumber_zero t : decimalNumber false 0 t = Finite false 0 0.
Proof.
  unfold decimalNumber. rewrite Z.mul_0_l.
  destruct (Z.ltb_spec t 0); apply roundNumber_zero; [apply pow10_pos|]; lia.
Qed.

(** *** The search for the shortest text *)

Lemma leadingZeros_spec fuel x :
  0 < x < ulps -> 1 <= leadingZeros (S fuel) x <= Z.of_nat (S fuel) /\ x * 10 ^ (leadingZeros (S fuel) x - 1) < ulps.
Proof.
  revert x. induction fuel as [|fuel IH]; intros x Hx.
  - simpl. rewrite (proj2 (Z.leb_gt _ _)) by lia. simpl. lia.
  - cbn [leadingZeros]. rewrite (proj2 (Z.leb_gt _ _)) by lia. destruct (Z.leb_spec ulps (x * 10)).
    + simpl. lia.
    + specialize (IH (x * 10) ltac:(lia)). cbn [leadingZeros] in IH. rewrite (proj2 (Z.leb_gt _ _)) in IH by lia.
      destruct IH as [Hr Hl]. split; [lia|].
      set (z := 1 + leadingZeros fuel (x * 10 * 10)) in *.
      replace (1 + z - 1) with (Z.succ (z - 1)) by lia. rewrite Z.pow_succ_r by lia. nia.
Qed.

(** The magnitude is above the number. *)
Lemma magnitude_spec x :
  0 < x -> -324 <= magnitude x /\ (scaled x (magnitude x)).1 < (scaled x (magnitude x)).2.
Proof.
  intros Hx. pose proof ulps_pos as Hu. unfold magnitude. destruct (Z.leb_spec ulps x) as [Hle|Hlt].
  - set (q := x / ulps). assert (0 < q) as Hq by (apply Z.div_str_pos; lia).
    pose proof (isDecimal_bounds q _ (decimalDigits_spec q ltac:(lia)) Hq) as [_ H2].
    unfold scaled. rewrite (proj2 (Z.ltb_ge _ _)) by (unfold js_length; lia). simpl.
    split; [unfold js_length; lia|]. pose proof (Z.div_mod x ulps ltac:(lia)). pose proof (Z.mod_pos_bound x ulps Hu).
    fold q in H. nia.
  - destruct (leadingZeros_spec 324 x ltac:(lia)) as [Hr Hl]. set (z := leadingZeros 325 x) in *.
    split; [lia|]. unfold scaled. destruct (Z.ltb_spec (1 - z) 0).
    + cbn [fst snd]. by replace (- (1 - z)) with (z - 1) by lia.
    + assert (z = 1) as -> by lia. cbn. lia.
Qed.

Lemma scaled_below x n k :
  0 <= x -> 0 <= k -> (scaled x n).1 < (scaled x n).2 ->
  0 <= (scaled x (n - k)).1 /\ 0 < (scaled x (n - k)).2 /\
  (scaled x (n - k)).1 < (scaled x (n - k)).2 * 10 ^ k.
Proof.
  intros Hx Hk. pose proof ulps_pos as Hu. unfold scaled.
  destruct (Z.ltb_spec n 0), (Z.ltb_spec (n - k) 0); simpl; try lia; intros H1.
  - replace (- (n - k)) with (- n + k) by lia. rewrite Z.pow_add_r by lia.
    pose proof (pow10_pos (- n)). pose proof (pow10_pos k). nia.
  - pose proof (pow10_pos (- (n - k))). assert (10 ^ k = 10 ^ n * 10 ^ (- (n - k))) as ->
      by (rewrite <- Z.pow_add_r by lia; f_equal; lia). nia.
  - pose proof (pow10_pos (n - k)). pose proof (pow10_pos k). replace n with (n - k + k) in H1 by lia.
    rewrite Z.pow_add_r in H1 by lia. nia.
Qed.

Lemma neighbours_bounds x n k :
  0 <= x -> 1 <= k -> (scaled x n).1 < (scaled x n).2 ->
  let '(lo, hi, _) := neighbours x n k in
  (0 <= lo.1 <= 10 ^ k /\ lo.2 = n - k) /\ (0 <= hi.1 <= 10 ^ k /\ n - k <= hi.2 <= n - k + 1).
Proof.
  intros Hx Hk Hn. pose proof (scaled_below x n k Hx ltac:(lia) Hn) as (H1 & H2 & H3). unfold neighbours.
  destruct (scaled x (n - k)) as [num den]. cbn [fst snd] in *.
  assert (0 <= num / den) by (by apply Z.div_pos). assert (num / den < 10 ^ k) by (apply Z.div_lt_upper_bound; lia).
  assert (10 ^ (k - 1) <= 10 ^ k) by (apply Z.pow_le_mono_r; lia). pose proof (pow10_pos (k - 1)).
  destruct (Z.eqb_spec (num / den + 1) (10 ^ k)); cbn [fst snd]; lia.
Qed.

(** The exact expansion is among the decimals the search tries. *)
Lemma exact_neighbour m e n :
  0 < m -> validNumber (Finite false m e) -> (scaled (m * 2 ^ e) n).1 < (scaled (m * 2 ^ e) n).2 ->
  exists k, 1 <= k <= n + 1074 /\
    let lo := (neighbours (m * 2 ^ e) n k).1.1 in decimalNumber false lo.1 lo.2 = Finite false m e.
Proof.
  intros Hm Hv Hn. pose proof Hv as (_ & He & _). pose proof ulps_pos as Hu.
  assert (ulps = 2 ^ 1074) as Eu by done. assert (0 < 2 ^ e) as Hp by (apply Z.pow_pos_nonneg; lia).
  destruct (Z.le_gt_cases 1074 e) as [Hge|Hlt].
  - assert (2 ^ e = ulps * 2 ^ (e - 1074)) as Ee by (rewrite Eu, <- Z.pow_add_r by lia; f_equal; lia).
    assert (1 <= n) as Hn1.
    { destruct (Z.le_gt_cases 1 n) as [?|Hn0]; [done|exfalso]. revert Hn. unfold scaled.
      assert (0 < 2 ^ (e - 1074)) by (apply Z.pow_pos_nonneg; lia). assert (ulps <= m * 2 ^ e) by nia.
      pose proof (pow10_pos (- n)). destruct (Z.ltb_spec n 0); simpl; [nia|].
      assert (n = 0) as -> by lia. rewrite Z.pow_0_r. lia. }
    exists n. split; [lia|]. unfold neighbours. replace (n - n) with 0 by lia. unfold scaled. simpl.
    rewrite Z.mul_1_r, Ee. replace (m * (ulps * 2 ^ (e - 1074))) with (m * 2 ^ (e - 1074) * ulps) by ring.
    rewrite Z.div_mul by lia. unfold decimalNumber. simpl. apply roundNumber_exact; [lia|done|done|]. rewrite Ee. ring.
  - set (j := 1074 - e). assert (ulps = 2 ^ e * 2 ^ j) as Ee by (rewrite Eu, <- Z.pow_add_r by lia; f_equal; lia).
    assert (10 ^ j = 2 ^ j * 5 ^ j) as E10 by (rewrite <- Z.pow_mul_l; done).
    assert (0 < 2 ^ j) by (apply Z.pow_pos_nonneg; lia). assert (0 < 5 ^ j) by (apply Z.pow_pos_nonneg; lia).
    assert (- j < n) as Hn1.
    { destruct (Z.lt_ge_cases (- j) n) as [?|Hn0]; [done|exfalso]. revert Hn. unfold scaled.
      rewrite (proj2 (Z.ltb_lt _ _)) by lia. simpl. rewrite Ee. intros Hn.
      assert (10 ^ j <= 10 ^ (- n)) by (apply Z.pow_le_mono_r; lia). assert (2 ^ j <= 10 ^ (- n)) by nia.
      assert (2 ^ e <= m * 2 ^ e) by nia. nia. }
    exists (n + j). split; [lia|]. unfold neighbours. replace (n - (n + j)) with (- j) by lia. unfold scaled.
    rewrite (proj2 (Z.ltb_lt _ _)) by lia. rewrite Z.opp_involutive, E10.
    replace (m * 2 ^ e * (2 ^ j * 5 ^ j)) with (m * 5 ^ j * ulps) by (rewrite Ee; ring).
    rewrite Z.div_mul by lia. cbn [fst snd]. unfold decimalNumber. rewrite (proj2 (Z.ltb_lt _ _)) by lia.
    apply roundNumber_exact; [rewrite Z.opp_involutive; lia|done|done|]. rewrite Z.opp_involutive, E10, Ee. ring.
Qed.

Lemma shortestLoop_spec fuel m e n k :
  0 <= m * 2 ^ e -> 1 <= k -> (scaled (m * 2 ^ e) n).1 < (scaled (m * 2 ^ e) n).2 ->
  (exists j, k <= j < k + Z.of_nat fuel /\
     let lo := (neighbours (m * 2 ^ e) n j).1.1 in decimalNumber false lo.1 lo.2 = Finite false m e) ->
  let r := shortestLoop fuel m e n k in
  decimalNumber false r.1 r.2 = Finite false m e /\
  exists j, k <= j < k + Z.of_nat fuel /\ 0 <= r.1 <= 10 ^ j /\ n - j <= r.2 <= n - j + 1.
Proof.
  intros Hx. revert k. induction fuel as [|fuel IH]; intros k Hk Hn (j & Hj & Hlo); [lia|].
  cbn [shortestLoop]. pose proof (neighbours_bounds _ n k Hx Hk Hn) as Hb.
  destruct (neighbours (m * 2 ^ e) n k) as [[lo hi] p] eqn:En. destruct Hb as [[Hl1 Hl2] [Hh1 Hh2]].
  destruct (bool_decide (decimalNumber false lo.1 lo.2 = _)) eqn:E1,
    (bool_decide (decimalNumber false hi.1 hi.2 = _)) eqn:E2, p; simpl;
    try apply bool_decide_eq_true in E1; try apply bool_decide_eq_true in E2;
    try (split; [done|exists k; lia]).
  all: apply bool_decide_eq_false in E1; destruct (IH (k + 1) ltac:(lia) Hn) as (? & j' & ?);
    [exists j; split; [|done]; destruct (decide (j = k)) as [->|]; [rewrite En in Hlo; done|lia]|].
  all: split; [done|]; exists j'; lia.
Qed.

Lemma quotient_bound m e a b c d :
  0 <= e <= a -> 0 <= m < 2 ^ b -> 0 <= b -> 0 <= c -> 0 <= d -> a + b = c + d -> m * 2 ^ e / 2 ^ c < 10 ^ (d + 1).
Proof.
  intros He Hm Hb Hc Hd Hs. assert (0 < 2 ^ c) by (apply Z.pow_pos_nonneg; lia). apply Z.div_lt_upper_bound; [done|].
  assert (m * 2 ^ e < 2 ^ b * 2 ^ a) as H1.
  { assert (2 ^ e <= 2 ^ a) by (apply Z.pow_le_mono_r; lia). assert (0 < 2 ^ e) by (apply Z.pow_pos_nonneg; lia). nia. }
  rewrite <- Z.pow_add_r in H1 by lia. replace (b + a) with (c + d) in H1 by lia. rewrite Z.pow_add_r in H1 by lia.
  assert (2 ^ d <= 10 ^ (d + 1)).
  { etrans; [apply (Z.pow_le_mono_l 2 10); lia|apply Z.pow_le_mono_r; lia]. }
  nia.
Qed.

Lemma pow10_below q n k : 0 <= k -> 10 ^ n <= q -> q < 10 ^ k -> n < k.
Proof.
  intros Hk H1 H2. destruct (Z.lt_ge_cases n k) as [|Hge]; [done|].
  assert (10 ^ k <= 10 ^ n) by (apply Z.pow_le_mono_r; lia). lia.
Qed.

Lemma magnitude_upper m e : 0 < m -> validNumber (Finite false m e) -> magnitude (m * 2 ^ e) <= 1025.
Proof.
  intros Hm (Hm' & He & _). unfold magnitude. pose proof ulps_pos as Hu.
  destruct (Z.leb_spec ulps (m * 2 ^ e)) as [Hle|Hlt].
  - assert (m * 2 ^ e / ulps < 10 ^ (1024 + 1)) as Hq.
    { change ulps with (2 ^ 1074). apply (quotient_bound m e 2045 53 1074 1024); lia. }
    set (q := m * 2 ^ e / ulps) in *. assert (0 < q) as Hq0 by (apply Z.div_str_pos; lia). clearbody q. clear Hle Hu.
    pose proof (isDecimal_bounds q _ (decimalDigits_spec q ltac:(lia)) Hq0) as [H1 _].
    pose proof (pow10_below q _ (1024 + 1) ltac:(done) H1 Hq) as H2. clear Hq H1. lia.
  - destruct (leadingZeros_spec 324 (m * 2 ^ e)) as [Hr _].
    { assert (0 < 2 ^ e) by (apply Z.pow_pos_nonneg; lia). split; [clear Hlt Hu; nia|exact Hlt]. }
    set (z := leadingZeros 325 (m * 2 ^ e)) in *. clear Hlt. lia.
Qed.

Lemma digits_upper s j : 0 < s <= 10 ^ j -> 0 <= j -> 1 <= js_length (decimalDigits s) <= j + 1.
Proof.
  intros Hs Hj. pose proof (decimalDigits_spec s ltac:(lia)) as Hd. pose proof (isDecimal_bounds s _ Hd ltac:(lia)) as [H1 _].
  destruct (dec_head _ _ Hd) as [[? _]|(_ & d & ds & E & _)]; [lia|]. rewrite E in *. unfold js_length in *. simpl in *.
  split; [lia|]. apply Z.le_sub_le_add_r, (Z.pow_le_mono_r_iff 10); lia.
Qed.

(** The shortest text reads back as the number; its exponent is small. *)
Lemma shortestDecimal_spec m e :
  0 < m -> validNumber (Finite false m e) ->
  let '(s, t) := shortestDecimal m e in
  0 < s /\ decimalNumber false s t = Finite false m e /\ -1100 <= js_length (decimalDigits s) + t <= 1100.
Proof.
  intros Hm Hv. pose proof Hv as (_ & He & _). assert (0 < 2 ^ e) as Hp by (apply Z.pow_pos_nonneg; lia).
  unfold shortestDecimal. pose proof (magnitude_upper m e Hm Hv) as Hup. set (n := magnitude (m * 2 ^ e)) in *.
  destruct (magnitude_spec (m * 2 ^ e) ltac:(nia)) as [Hlo Hn]. fold n in Hlo, Hn.
  destruct (exact_neighbour m e n Hm Hv Hn) as (k & Hk & Ek).
  destruct (shortestLoop_spec (Z.to_nat (n + 1074)) m e n 1) as (Hd & j & Hj & Hs & Ht);
    [nia|lia|done|exists k; split; [lia|done]|].
  destruct (shortestLoop _ m e n 1) as [s t]. cbn [fst snd] in *.
  assert (0 < s) as Hs0.
  { destruct (decide (s = 0)) as [->|]; [|lia]. rewrite decimalNumber_zero in Hd. injection Hd as Hd _. lia. }
  split_and!; [done|done|..]; pose proof (digits_upper s j ltac:(lia) ltac:(lia)); lia.
Qed.

(** *** Texts of numbers as tokens *)

Definition printToken (d : DecimalToken) : jsstr :=
  (if tok_neg d then js "-" else []) ++ tok_int d ++
  (if bool_decide (tok_frac d = []) then [] else js "." ++ tok_frac d) ++
  match tok_exp d with None => [] | Some x => js "e" ++ x end.

Abbreviation alldigits := (Forall (fun u : codeUnit => isDigit u = true)).

(** Tokens as the printer writes them, which are JSON numbers. *)
Record wfToken (d : DecimalToken) : Prop := {
  wf_int : alldigits (tok_int d);
  wf_int_head : tok_int d = js "0" \/ exists u r, tok_int d = u :: r /\ unitZ u <> 48;
  wf_frac : alldigits (tok_frac d);
  wf_exp : forall x, tok_exp d = Some x -> exists c ds, x = c :: ds /\ isSign c = true /\ alldigits ds /\ ds <> []
}.

Lemma spanDigits_app ds r :
  alldigits ds -> (forall u r', r = u :: r' -> isDigit u = false) -> spanDigits (ds ++ r) = (ds, r).
Proof.
  intros Hds Hr. induction Hds as [|u ds Hu _ IH]; simpl; [|by rewrite Hu, IH].
  destruct r as [|u r]; [done|]. simpl. by rewrite (Hr u r).
Qed.

Lemma digit_not_special u : isDigit u = true -> isUnit minus u = false /\ isUnit plus u = false /\ isUnit point u = false /\ isE u = false.
Proof.
  unfold isDigit, isE, isUnit, minus, plus, point. rewrite andb_true_iff, !Z.leb_le, orb_false_iff, !Z.eqb_neq. lia.
Qed.

Lemma matchExponent_spec x c ds :
  x = c :: ds -> isSign c = true -> alldigits ds -> ds <> [] -> matchExponent x = Some x.
Proof.
  intros -> Hc Hds Hne. unfold matchExponent. rewrite Hc. rewrite <- (app_nil_r ds) at 1.
  rewrite spanDigits_app by done. by destruct ds.
Qed.

Lemma matchDecimal_print d : wfToken d -> matchDecimal (printToken d) = Some d.
Proof.
  destruct d as [neg int frac ex]. intros [Hi Hh Hf Hx]. simpl in *. unfold matchDecimal, printToken. cbn [tok_neg tok_int tok_frac tok_exp].
  assert (exists u r, int = u :: r /\ isDigit u = true) as (u & r & -> & Hu).
  { destruct Hh as [->|(u & r & -> & _)]; apply Forall_cons in Hi as [? _]; eauto. }
  set (tl := match ex with None => [] | Some x => js "e" ++ x end).
  assert (forall u' r', tl = u' :: r' -> isDigit u' = false) as Htl by (subst tl; destruct ex; simpl; naive_solver).
  set (fr := if bool_decide (frac = []) then [] else js "." ++ frac).
  replace (match (if neg then js "-" else []) ++ (u :: r) ++ fr ++ tl with [] => _ | _ :: _ => _ end)
    with (neg, (u :: r) ++ fr ++ tl).
  2:{ destruct neg; simpl; [done|]. by rewrite (proj1 (digit_not_special u Hu)). }
  rewrite spanDigits_app; [|done|subst fr; case_bool_decide; simpl; naive_solver]. cbn [bool_decide].
  rewrite bool_decide_eq_false_2 by done.
  assert (match tl with [] => Some (mkToken neg (u :: r) frac None)
          | u0 :: r0 => if isE u0 then x ← matchExponent r0; Some (mkToken neg (u :: r) frac (Some x)) else None end
          = Some (mkToken neg (u :: r) frac ex)) as Htail.
  { subst tl. destruct ex as [x|]; [|done]. destruct (Hx x eq_refl) as (c & ds & -> & Hc & Hd & Hn). simpl.
    by rewrite (matchExponent_spec _ c ds). }
  subst fr. case_bool_decide as Ef; simpl.
  - subst frac. destruct tl as [|u' r'] eqn:El; [done|]. subst tl.
    assert (isUnit point u' = false) as -> by (destruct ex; [injection El as <- <-|]; done). done.
  - change (isUnit point _) with true. cbn match. rewrite spanDigits_app by done.
    destruct frac as [|f frac]; done.
Qed.

(** The token that [formatDecimal] writes. *)
Definition formatToken (neg : bool) (s t : Z) : DecimalToken :=
  let ds := decimalDigits s in
  let k := js_length ds in
  let n := k + t in
  if (k <=? n) && (n <=? 21) then mkToken neg (digitsText (ds ++ zeros (n - k))) [] None
  else if (0 <? n) && (n <=? 21) then mkToken neg (digitsText (take (Z.to_nat n) ds)) (digitsText (drop (Z.to_nat n) ds)) None
  else if (-6 <? n) && (n <=? 0) then mkToken neg (js "0") (digitsText (zeros (- n) ++ ds)) None
  else mkToken neg (digitsText (take 1 ds)) (digitsText (drop 1 ds))
         (Some ((if n - 1 <? 0 then js "-" else js "+") ++ decimal (Z.abs (n - 1)))).

Lemma digitsText_nil ds : digitsText ds = [] <-> ds = [].
Proof. unfold digitsText. split; [apply fmap_nil_inv|by intros ->]. Qed.

Lemma formatDecimal_token (neg : bool) s t :
  0 < s -> (if neg then js "-" else []) ++ formatDecimal s t = printToken (formatToken neg s t).
Proof.
  intros Hs. pose proof (decimalDigits_spec s ltac:(lia)) as Hd. unfold formatDecimal, formatToken, printToken.
  set (ds := decimalDigits s) in *. set (k := js_length ds). set (n := k + t).
  destruct ((k <=? n) && (n <=? 21)) eqn:E1; cbn [tok_neg tok_int tok_frac tok_exp]; [by rewrite app_nil_r|].
  destruct ((0 <? n) && (n <=? 21)) eqn:E2; cbn [tok_neg tok_int tok_frac tok_exp].
  { rewrite bool_decide_eq_false_2; [by rewrite app_nil_r|]. rewrite digitsText_nil.
    intros E%(f_equal length). rewrite length_drop in E. simpl in E.
    apply andb_true_iff in E2 as [? ?]. apply andb_false_iff in E1 as [?|?]; unfold k, js_length in *; lia. }
  destruct ((-6 <? n) && (n <=? 0)) eqn:E3; cbn [tok_neg tok_int tok_frac tok_exp].
  { rewrite bool_decide_eq_false_2; [by rewrite app_nil_r|]. rewrite digitsText_nil.
    destruct (dec_head _ _ Hd) as [[? _]|(_ & d & ds' & -> & _)]; [lia|]. by destruct (zeros (- n)). }
  do 3 f_equal. destruct (Z.eqb_spec k 1) as [Ek|Ek].
  - rewrite bool_decide_eq_true_2; [done|]. apply digitsText_nil, length_zero_iff_nil. rewrite length_drop.
    unfold k, js_length in Ek. lia.
  - rewrite bool_decide_eq_false_2; [done|]. rewrite digitsText_nil. intros E%(f_equal length). rewrite length_drop in E.
    simpl in E. destruct (dec_head _ _ Hd) as [[? _]|(_ & d & ds' & Eds & _)]; [lia|].
    unfold k, js_length in Ek. rewrite Eds in *. simpl in *. lia.
Qed.

Lemma digitsText_digits ds : Forall (fun d => digit d) ds -> alldigits (digitsText ds).
Proof. intros H. apply Forall_fmap. eapply Forall_impl; [exact H|]. intros d. apply isDigit_unit. Qed.

Lemma bigIntOf_digitsText ds : Forall (fun d => digit d) ds -> bigIntOf (digitsText ds) = ofDigits ds.
Proof. intros H. unfold bigIntOf, digitsText. by rewrite digits_of_units. Qed.

Lemma zeros_digits n : Forall (fun d => digit d) (zeros n).
Proof. apply Forall_replicate. lia. Qed.

Lemma ofDigits_zeros_right ds n : 0 <= n -> ofDigits (ds ++ zeros n) = ofDigits ds * 10 ^ n.
Proof.
  intros Hn. rewrite ofDigits_app. unfold zeros at 2. rewrite <- (app_nil_r (replicate _ 0)), ofDigits_zeros.
  unfold js_length, zeros. rewrite length_replicate, Z2Nat.id by done. unfold ofDigits at 2. simpl. lia.
Qed.

Lemma digitsText_app a b : digitsText (a ++ b) = digitsText a ++ digitsText b.
Proof. apply fmap_app. Qed.

Lemma digit_head_unit d : digit d -> d <> 0 -> unitZ (fromCharCode (48 + d)) <> 48.
Proof. intros. rewrite unitZ_fromCharCode; lia. Qed.

Lemma formatToken_wf neg s t : 0 < s -> wfToken (formatToken neg s t).
Proof.
  intros Hs. pose proof (decimalDigits_spec s ltac:(lia)) as Hd. unfold formatToken.
  set (ds := decimalDigits s) in *. set (k := js_length ds). set (n := k + t).
  pose proof (dec_digits _ _ Hd) as Hall.
  destruct (dec_head _ _ Hd) as [[? _]|(_ & d & ds' & Eds & Hd0)]; [lia|].
  assert (digit d) as Hdd by (rewrite Eds in Hall; by apply Forall_cons in Hall as [? _]).
  assert (forall j rest, (0 < j)%nat -> exists u r, digitsText (take j ds ++ rest) = u :: r /\ unitZ u <> 48) as Hhead.
  { intros [|j] rest Hj; [lia|]. rewrite Eds. simpl. eexists _, _. split; [done|]. by apply digit_head_unit. }
  (case_match; [|case_match; [|case_match]]); split; cbn [tok_int tok_frac tok_exp]; try done.
  all: try (apply digitsText_digits; repeat first [apply Forall_app; split | apply Forall_take | apply Forall_drop | apply zeros_digits | done]).
  - right. destruct (Hhead (length ds) (zeros (n - k))) as (u & r & E & Hu); [rewrite Eds; simpl; lia|].
    rewrite firstn_all in E. eauto.
  - right. destruct (Hhead (Z.to_nat n) []) as (u & r & E & Hu); [lia|]. rewrite app_nil_r in E. eauto.
  - by repeat constructor.
  - by left.
  - right. destruct (Hhead 1%nat []) as (u & r & E & Hu); [lia|]. rewrite app_nil_r in E. eauto.
  - intros x [= <-]. pose proof (decimal_digits (Z.abs (n - 1)) ltac:(lia)) as Hx.
    assert (decimal (Z.abs (n - 1)) <> []) as Hne.
    { unfold decimal. intros E%fmap_nil_inv. destruct (decimalDigits_spec (Z.abs (n - 1)) ltac:(lia)) as [_ _ [[_ ?]|(_ & ? & ? & ? & _)]]; congruence. }
    case_match; simpl; eauto 10.
Qed.

Lemma formatToken_value neg s t :
  0 < s ->
  let d := formatToken neg s t in
  tok_neg d = neg /\
  decimalNumber neg (bigIntOf (tok_int d ++ tok_frac d)) (exponentValue (tok_exp d) - js_length (tok_frac d)) =
  decimalNumber neg s t.
Proof.
  intros Hs. pose proof (decimalDigits_spec s ltac:(lia)) as [Hv Hall Hh]. unfold formatToken.
  set (ds := decimalDigits s) in *. set (k := js_length ds). set (n := k + t).
  assert (1 <= length ds)%nat as Hlen by (destruct Hh as [[_ ->]|(_ & ? & ? & -> & _)]; simpl; lia).
  (case_match; [|case_match; [|case_match]]); cbn [tok_neg tok_int tok_frac tok_exp]; try change (exponentValue None) with 0; (split; [done|]).
  - rewrite app_nil_r, bigIntOf_digitsText by (apply Forall_app; split; [done|apply zeros_digits]).
    rewrite ofDigits_zeros_right, Hv by lia. unfold decimalNumber.
    replace (n - k) with t by lia. rewrite (proj2 (Z.ltb_ge t 0)) by lia. cbn. by rewrite Z.mul_1_r.
  - rewrite <- digitsText_app, take_drop, bigIntOf_digitsText, Hv by done. f_equal.
    unfold js_length, digitsText. rewrite length_fmap, length_drop. unfold n, k, js_length in *. lia.
  - change (js "0") with (digitsText [0]). rewrite <- digitsText_app, bigIntOf_digitsText.
    2:{ repeat constructor; [lia..|]. apply Forall_app. split; [apply zeros_digits|done]. }
    change ([0] ++ zeros (- n) ++ ds) with (replicate (S (Z.to_nat (- n))) 0 ++ ds). rewrite ofDigits_zeros, Hv. f_equal.
    unfold js_length, digitsText, zeros. rewrite length_fmap, length_app, length_replicate. unfold n, k, js_length in *. lia.
  - rewrite <- digitsText_app, take_drop, bigIntOf_digitsText, Hv by done. f_equal.
    unfold js_length, digitsText. rewrite length_fmap, length_drop.
    destruct (Z.ltb_spec (n - 1) 0); [change (exponentValue _) with (- bigIntOf (decimal (Z.abs (n - 1))))
      |change (exponentValue _) with (bigIntOf (decimal (Z.abs (n - 1))))];
      rewrite bigIntOf_decimal by lia; unfold n, k, js_length in *; lia.
Qed.

(** A small exponent, without leading zeros. *)
Definition smallExponent (d : DecimalToken) : Prop :=
  forall x, tok_exp d = Some x -> exists c j, x = c :: decimal j /\ isSign c = true /\ 0 <= j <= 1101.

Lemma formatToken_exponent neg s t :
  -1100 <= js_length (decimalDigits s) + t <= 1100 -> smallExponent (formatToken neg s t).
Proof.
  intros Hn x. unfold formatToken. (case_match; [|case_match; [|case_match]]); [done..|]. cbn [tok_exp]. intros [= <-].
  set (n := _ - 1). destruct (n <? 0); eexists _, (Z.abs n); (split; [done|]); (split; [done|]); subst n; lia.
Qed.

(** Negative zero prints like zero. *)
Definition dropNegZero (x : number) : number :=
  match x with Finite _ m _ => if m =? 0 then Finite false 0 0 else x | _ => x end.

(** The text of a finite number is a decimal literal that reads as the number. *)
Lemma numberText_spec x :
  validNumber x -> isFinite x = true ->
  exists d, numberText x = printToken d /\ wfToken d /\ smallExponent d /\ Number (numberText x) = dropNegZero x.
Proof.
  destruct x as [| |neg m e]; [done|done|]. intros Hv _. cbn [numberText dropNegZero]. destruct (Z.eqb_spec m 0) as [->|Hm].
  - exists (mkToken false (js "0") [] None). split_and!; [done| |done|].
    + split; [by repeat constructor|by left|constructor|done].
    + vm_compute. done.
  - assert (0 < m) as Hp by (destruct Hv; lia). pose proof (shortestDecimal_spec m e Hp Hv) as Hs.
    destruct (shortestDecimal m e) as [s t]. destruct Hs as (Hs & Hd & Hn).
    pose proof (formatToken_wf neg s t Hs) as Hw. exists (formatToken neg s t). rewrite formatDecimal_token by done.
    split_and!; [done|done|by apply formatToken_exponent|].
    unfold Number. rewrite matchDecimal_print by done. destruct (formatToken_value neg s t Hs) as [-> ->].
    by apply decimalNumber_sign.
Qed.

(** *** Rounding gives numbers that exist *)

Lemma roundHalfEven_range n d lo hi : 0 < d -> lo * d <= n -> n < hi * d -> lo <= roundHalfEven n d <= hi.
Proof.
  intros Hd Hlo Hhi. unfold roundHalfEven. assert (lo <= n / d) by (apply Z.div_le_lower_bound; lia).
  assert (n / d < hi) by (apply Z.div_lt_upper_bound; lia). repeat case_match; lia.
Qed.

Lemma roundNumber_valid neg num den : 0 <= num -> 0 < den -> validNumber (roundNumber neg num den).
Proof.
  intros Hnum Hden. pose proof ulps_pos as Hu. unfold roundNumber. set (n := num * ulps). set (q := n / den).
  assert (0 <= n) as Hn by (unfold n; nia). assert (0 <= q) as Hq by (by apply Z.div_pos).
  pose proof (Z.div_mod n den ltac:(lia)) as Hdm. pose proof (Z.mod_pos_bound n den Hden) as Hmod. fold q in Hdm.
  set (e := Z.max 0 (Z.log2 q - 52)).
  assert (0 <= e /\ q < 2 ^ 53 * 2 ^ e /\ (2 ^ 52 * 2 ^ e <= q \/ e = 0 /\ q < 2 ^ 52)) as (He & Hhi & Hlo).
  { destruct (decide (q < 2 ^ 52)) as [Hs|Hs].
    - assert (e = 0) as ->; [|lia]. unfold e. destruct (decide (q = 0)) as [->|]; [done|].
      assert (Z.log2 q < 52) by (apply Z.log2_lt_pow2; lia). lia.
    - assert (52 <= Z.log2 q) by (apply Z.log2_le_pow2; lia). unfold e. rewrite Z.max_r by lia.
      rewrite <- !Z.pow_add_r by lia. pose proof (Z.log2_spec q ltac:(lia)) as [H1 H2].
      replace (52 + (Z.log2 q - 52)) with (Z.log2 q) by lia. replace (53 + (Z.log2 q - 52)) with (Z.succ (Z.log2 q)) by lia. lia. }
  assert (0 < 2 ^ e) as Hp by (apply Z.pow_pos_nonneg; lia).
  assert (0 <= roundHalfEven n (den * 2 ^ e) <= 2 ^ 53) as Hm by (apply roundHalfEven_range; nia).
  assert (2 ^ 52 <= roundHalfEven n (den * 2 ^ e) \/ e = 0) as Hm'.
  { destruct Hlo as [Hlo|[-> _]]; [left|by right]. eapply (roundHalfEven_range n _ _ (2 ^ 53)); nia. }
  destruct (Z.eqb_spec (roundHalfEven n (den * 2 ^ e)) (2 ^ 53)).
  - destruct (Z.ltb_spec 2045 (e + 1)); simpl; lia.
  - destruct (Z.ltb_spec 2045 e); simpl; lia.
Qed.

Lemma decimalNumber_valid neg s t : 0 <= s -> validNumber (decimalNumber neg s t).
Proof.
  intros Hs. unfold decimalNumber. destruct (Z.ltb_spec t 0) as [Ht|Ht].
  - apply roundNumber_valid; [done|]. apply pow10_pos. lia.
  - apply roundNumber_valid; [|done]. pose proof (pow10_pos t Ht). nia.
Qed.

Lemma spanDigits_spec s : let '(ds, r) := spanDigits s in s = ds ++ r /\ alldigits ds.
Proof.
  induction s as [|u s IH]; simpl; [by split; [|constructor]|]. destruct (isDigit u) eqn:E; [|by split; [|constructor]].
  destruct (spanDigits s) as [ds r]. destruct IH as [-> ?]. split; [done|]. by constructor.
Qed.

Lemma bigIntOf_nonneg s : alldigits s -> 0 <= bigIntOf s.
Proof.
  intros H. unfold bigIntOf. apply ofDigits_bounds. apply Forall_fmap. eapply Forall_impl; [exact H|].
  intros u. apply isDigit_spec.
Qed.

Lemma Number_valid token : validNumber (Number token).
Proof.
  unfold Number. destruct (matchDecimal token) as [d|] eqn:E; [|done]. apply decimalNumber_valid, bigIntOf_nonneg.
  revert E. unfold matchDecimal. set (p := match token with [] => _ | _ :: _ => _ end). destruct p as [neg s0].
  pose proof (spanDigits_spec s0) as Hi. destruct (spanDigits s0) as [int s].
  destruct Hi as [_ Hi]. case_match; [done|]. intros E. apply bind_Some in E as ([frac s'] & E1 & E2).
  assert (alldigits frac) as Hf.
  { destruct s as [|u s]; [simplify_eq; constructor|]. destruct (isUnit point u); [|simplify_eq; constructor].
    pose proof (spanDigits_spec s) as Hs. destruct (spanDigits s) as [[|f fs] r]; [done|]. destruct Hs. by simplify_eq. }
  assert (tok_int d = int /\ tok_frac d = frac) as [-> ->]; [|by apply Forall_app].
  destruct s' as [|u s']; [by simplify_eq|]. destruct (isE u); [|done]. apply bind_Some in E2 as (x & _ & E2). by simplify_eq.
Qed.
