(* ===== verification/CanonicalJson.v ===== *)
(** * Canonical JSON

    packages/core/src/canonical-json.ts: JSON values, their RFC 8785 text
    ([canonicalizeJson]), the strict parser and [parseCanonicalJson].  Values are
    the ones of the type [CanonicalJsonValue]; an in-memory object outside of it
    (accessors, symbols, cycles, sparse arrays) is not modelled. *)

From S2P Require Import Prelude Bytes CodePoints JsText JsNumber.

Open Scope Z_scope.

(** The fields of an object in the order of insertion. *)
Unset Elimination Schemes.
Inductive Json :=
| JNull
| JBool (b : bool)
| JNumber (n : number)
| JString (s : jsstr)
| JArray (items : list Json)
| JObject (fields : list (jsstr * Json)).
Set Elimination Schemes.

(** What the parser reports, with the position it reports it at. *)
Inductive SyntaxError :=
| TrailingInput
| NestingTooDeep
| ExpectedValue
| ExpectedKey
| DuplicateKey (key : jsstr)
| Expected (c : Z)
| UnpairedHigh
| UnpairedLow
| ControlCharacter
| Unterminated
| InvalidEscape
| TruncatedUnicodeEscape
| InvalidUnicodeEscape
| InvalidNumber
| NumberOutOfRange
| NumberLosesInformation
| ExpectedLiteral (token : jsstr)
| OutOfFuel.

Inductive CanonicalJsonError :=
| EMaxBytes
| EMaxDepth
| ENesting
| ENotFinite
| EOutputTooLarge
| EStringUnpairedHigh (label : string)
| EStringUnpairedLow (label : string)
| EInputTooLarge
| ENotUtf8
| EByteOrderMark
| ENotCanonical
| EAt (message : SyntaxError) (index : Z).

Abbreviation jresult := (result CanonicalJsonError).

Record CanonicalJsonOptions := { maxBytes : option Z; maxDepth : option Z }.

Definition MAX_CANONICAL_JSON_BYTES : Z := 8 * 1024 * 1024.
Definition MAX_CANONICAL_JSON_DEPTH : Z := 64.

Definition resolveLimits (options : CanonicalJsonOptions) : jresult (Z * Z) :=
  let bytes := default MAX_CANONICAL_JSON_BYTES (maxBytes options) in
  let depth := default MAX_CANONICAL_JSON_DEPTH (maxDepth options) in
  throw EMaxBytes when (bytes <=? 0) || (MAX_CANONICAL_JSON_BYTES <? bytes);
  throw EMaxDepth when (depth <? 0) || (MAX_CANONICAL_JSON_DEPTH <? depth);
  Ok (bytes, depth).

(** ** The serializer *)

(** [BoundedJsonWriter]: the text so far, in chunks that [finish] joins, and its
    size in bytes. *)
Record writer := { w_text : jsstr; w_bytes : Z }.

Definition newWriter : writer := {| w_text := []; w_bytes := 0 |}.

Definition isHighSurrogate (u : codeUnit) : bool := isHigh (unitZ u).
Definition isLowSurrogate (u : codeUnit) : bool := isLow (unitZ u).

Section Serializer.
Context (limit depthLimit : Z).

Definition appendMeasured (value : jsstr) (bytes : Z) (w : writer) : jresult writer :=
  throw EOutputTooLarge when limit <? w_bytes w + bytes;
  Ok {| w_text := w_text w ++ value; w_bytes := w_bytes w + bytes |}.

Definition appendAscii (value : jsstr) (w : writer) : jresult writer :=
  appendMeasured value (js_length value) w.

Definition appendUtf8 (value : jsstr) (w : writer) : jresult writer :=
  appendMeasured value (js_length (encodeUtf8 value)) w.

(** The escape of a code unit, if it needs one. *)
Definition escapeOf (unit : Z) : option jsstr :=
  if unit =? 0x22 then Some [fromCharCode 0x5c; fromCharCode 0x22]
  else if unit =? 0x5c then Some [fromCharCode 0x5c; fromCharCode 0x5c]
  else if unit =? 0x08 then Some (js "\b")
  else if unit =? 0x09 then Some (js "\t")
  else if unit =? 0x0a then Some (js "\n")
  else if unit =? 0x0c then Some (js "\f")
  else if unit =? 0x0d then Some (js "\r")
  else if unit <? 0x20 then Some (js "\u00" ++ [hexUnit (unit / 16); hexUnit (unit mod 16)])
  else None.

(** [flushRaw(end)] where [raw] is [value.slice(rawStart, end)]. *)
Definition flushRaw (raw : jsstr) (w : writer) : jresult writer :=
  if bool_decide (raw = []) then Ok w else appendUtf8 raw w.

(** The loop of [writeCanonicalJsonString]: [rest] is the value from [index],
    [raw] the part from [rawStart] to [index]. *)
Fixpoint writeUnits (label : string) (rest raw : jsstr) (w : writer) : jresult writer :=
  match rest with
  | [] => flushRaw raw w
  | u :: rest' =>
      match escapeOf (unitZ u) with
      | Some escaped =>
          let* w := flushRaw raw w in
          let* w := appendAscii escaped w in
          writeUnits label rest' [] w
      | None =>
          if isHighSurrogate u then
            match rest' with
            | next :: rest'' =>
                throw EStringUnpairedHigh label when negb (isLowSurrogate next);
                let raw := raw ++ [u; next] in
                if 4096 <=? js_length raw then let* w := flushRaw raw w in writeUnits label rest'' [] w
                else writeUnits label rest'' raw w
            | [] => Err (EStringUnpairedHigh label)
            end
          else
            throw EStringUnpairedLow label when isLowSurrogate u;
            let raw := raw ++ [u] in
            if 4096 <=? js_length raw then let* w := flushRaw raw w in writeUnits label rest' [] w
            else writeUnits label rest' raw w
      end
  end.

Definition quote : jsstr := [fromCharCode 0x22].

Definition writeCanonicalJsonString (value : jsstr) (label : string) (w : writer) : jresult writer :=
  let* w := appendAscii quote w in
  let* w := writeUnits label value [] w in
  appendAscii quote w.

(** The elements of a container with commas between them. *)
Fixpoint writeSeparated (first : bool) (items : list (writer -> jresult writer)) (w : writer) : jresult writer :=
  match items with
  | [] => Ok w
  | item :: items' =>
      let* w := (if first then Ok w else appendAscii (js ",") w) in
      let* w := item w in
      writeSeparated false items' w
  end.

(** The default order of [Array.prototype.sort] on strings: by code units. *)
Definition compareKeys {A} (a b : jsstr * A) : Z := lexCompare (unitZ <$> a.1) (unitZ <$> b.1).

Fixpoint encode (input : Json) (depth : Z) (w : writer) : jresult writer :=
  throw ENesting when depthLimit <? depth;
  match input with
  | JNull => appendAscii (js "null") w
  | JBool b => appendAscii (if b then js "true" else js "false") w
  | JNumber n => throw ENotFinite when negb (isFinite n); appendAscii (numberText n) w
  | JString s => writeCanonicalJsonString s "JSON string" w
  | JArray items =>
      throw ENesting when depthLimit <? depth + 1;
      let* w := appendAscii (js "[") w in
      let* w := writeSeparated true (map (fun item => encode item (depth + 1)) items) w in
      appendAscii (js "]") w
  | JObject fields =>
      throw ENesting when depthLimit <? depth + 1;
      let* w := appendAscii (js "{") w in
      let members := js_sort compareKeys (map (fun '(key, value) => (key, encode value (depth + 1))) fields) in
      let* w := writeSeparated true
        (map (fun '(key, writeValue) => fun w =>
                let* w := writeCanonicalJsonString key "JSON object key" w in
                let* w := appendAscii (js ":") w in
                writeValue w) members) w in
      appendAscii (js "}") w
  end.

End Serializer.

Definition canonicalizeJson (value : Json) (options : CanonicalJsonOptions) : jresult jsstr :=
  let* (maxBytes, maxDepth) := resolveLimits options in
  let* w := encode maxBytes maxDepth value 0 newWriter in
  Ok (w_text w).

Definition canonicalizeJsonBytes (value : Json) (options : CanonicalJsonOptions) : jresult bytes :=
  let* text := canonicalizeJson value options in Ok (encodeUtf8 text).

(** ** Exact decimals *)

Record NormalizedDecimal := { nd_negative : bool; nd_digits : jsstr; nd_exponent : Z }.

#[export] Instance normalized_eq_decision : EqDecision NormalizedDecimal.
Proof. solve_decision. Defined.

Fixpoint stripLeadingZeros (digits : jsstr) : jsstr :=
  match digits with
  | u :: r => if isUnit 0x30 u then stripLeadingZeros r else digits
  | [] => []
  end.

(** Drops zeros at the end, but the last digit, and counts them. *)
Fixpoint stripTrailingZeros (reversed : jsstr) (exponent : Z) : jsstr * Z :=
  match reversed with
  | u :: ((_ :: _) as r) => if isUnit 0x30 u then stripTrailingZeros r (exponent + 1) else (reverse reversed, exponent)
  | _ => (reverse reversed, exponent)
  end.

Definition parseBoundedDecimalExponent (raw : option jsstr) : option Z :=
  match raw with
  | None => Some 0
  | Some s =>
      let '(sign, digits) :=
        match s with
        | u :: r => if isSign u then (if isUnit minus u then -1 else 1, r) else (1, s)
        | [] => (1, s)
        end in
      let significant := stripLeadingZeros digits in
      if js_length significant =? 0 then Some 0
      else if 15 <? js_length significant then None
      else
        let magnitude := bigIntOf significant in
        if 2 ^ 53 - 1 <? magnitude then None else Some (sign * magnitude)
  end.

Definition normalizeDecimalToken (token : jsstr) : option NormalizedDecimal :=
  d ← matchDecimal token;
  let digits := stripLeadingZeros (tok_int d ++ tok_frac d) in
  if js_length digits =? 0 then Some {| nd_negative := false; nd_digits := js "0"; nd_exponent := 0 |}
  else
    explicitExponent ← parseBoundedDecimalExponent (tok_exp d);
    let '(kept, exponent) := stripTrailingZeros (reverse digits) (explicitExponent - js_length (tok_frac d)) in
    Some {| nd_negative := tok_neg d; nd_digits := kept; nd_exponent := exponent |}.

Definition sameExactDecimalValue (left right : jsstr) : bool :=
  match normalizeDecimalToken left, normalizeDecimalToken right with
  | Some l, Some r => bool_decide (l = r)
  | _, _ => false
  end.

(** ** The strict parser

    The position of the parser is what is left of the text, [rest]; the index
    of the code is the length of the text without it. *)

Definition hexNibble (unit : Z) : Z :=
  if (0x30 <=? unit) && (unit <=? 0x39) then unit - 0x30
  else if (0x41 <=? unit) && (unit <=? 0x46) then unit - 0x41 + 10
  else if (0x61 <=? unit) && (unit <=? 0x66) then unit - 0x61 + 10
  else -1.

Fixpoint skipWhitespace (rest : jsstr) : jsstr :=
  match rest with
  | u :: r => if isUnit 0x20 u || isUnit 0x09 u || isUnit 0x0a u || isUnit 0x0d u then skipWhitespace r else rest
  | [] => []
  end.

Definition consume (expected : Z) (rest : jsstr) : option jsstr :=
  match rest with
  | u :: r => if isUnit expected u then Some r else None
  | [] => None
  end.

(** The escapes of one character and what they stand for. *)
Definition simpleEscape (escape : Z) : option Z :=
  if (escape =? 0x22) || (escape =? 0x2f) || (escape =? 0x5c) then Some escape
  else if escape =? 0x62 then Some 0x08
  else if escape =? 0x66 then Some 0x0c
  else if escape =? 0x6e then Some 0x0a
  else if escape =? 0x72 then Some 0x0d
  else if escape =? 0x74 then Some 0x09
  else None.

Section Parser.
Context (textLength depthLimit : Z).

Definition fail {A} (message : SyntaxError) (rest : jsstr) : jresult A :=
  Err (EAt message (textLength - js_length rest)).

Definition expect (expected : Z) (rest : jsstr) : jresult jsstr :=
  match consume expected rest with Some r => Ok r | None => fail (Expected expected) rest end.

Fixpoint hexUnits (units : jsstr) (value : Z) (rest : jsstr) : jresult Z :=
  match units with
  | [] => Ok value
  | u :: us =>
      let nibble := hexNibble (unitZ u) in
      if nibble <? 0 then fail InvalidUnicodeEscape rest
      else hexUnits us (Z.lor (Z.shiftl value 4) nibble) rest
  end.

Definition parseEscapedHexCodeUnit (rest : jsstr) : jresult (codeUnit * jsstr) :=
  if js_length rest <? 4 then fail TruncatedUnicodeEscape rest
  else let* value := hexUnits (take 4 rest) 0 rest in Ok (fromCharCode value, drop 4 rest).

(** The string decoded so far: [parts] is what was appended, [raw] the text from
    [rawStart], [pending] a high surrogate that waits for its partner. *)
Record stringState := { ss_parts : jsstr; ss_raw : jsstr; ss_pending : option codeUnit }.

Definition flushPart (st : stringState) : stringState :=
  {| ss_parts := ss_parts st ++ ss_raw st; ss_raw := []; ss_pending := ss_pending st |}.

Definition appendCodeUnit (unit : codeUnit) (rest : jsstr) (st : stringState) : jresult stringState :=
  match ss_pending st with
  | Some high =>
      if negb (isLowSurrogate unit) then fail UnpairedHigh rest
      else Ok {| ss_parts := ss_parts st ++ [high; unit]; ss_raw := ss_raw st; ss_pending := None |}
  | None =>
      if isHighSurrogate unit then Ok {| ss_parts := ss_parts st; ss_raw := ss_raw st; ss_pending := Some unit |}
      else if isLowSurrogate unit then fail UnpairedLow rest
      else Ok {| ss_parts := ss_parts st ++ [unit]; ss_raw := ss_raw st; ss_pending := None |}
  end.

Definition addRaw (units : jsstr) (st : stringState) : stringState :=
  {| ss_parts := ss_parts st; ss_raw := ss_raw st ++ units; ss_pending := ss_pending st |}.

(** The loop of [parseString], from behind the opening quote.  Each round takes
    a code unit at least. *)
Fixpoint parseStringLoop (fuel : nat) (rest : jsstr) (st : stringState) : jresult (jsstr * jsstr) :=
  match fuel, rest with
  | O, _ => fail OutOfFuel rest
  | _, [] => fail Unterminated rest
  | S fuel', u :: r =>
      let code := unitZ u in
      if code =? 0x22 then
        match ss_pending st with
        | Some _ => fail UnpairedHigh rest
        | None => Ok (ss_parts (flushPart st), r)
        end
      else if code <? 0x20 then fail ControlCharacter rest
      else if negb (code =? 0x5c) then
        match ss_pending st with
        | Some _ => let* st := appendCodeUnit u rest (flushPart st) in parseStringLoop fuel' r st
        | None =>
            if isHighSurrogate u then
              match r with
              | next :: r' =>
                  if isLowSurrogate next then parseStringLoop fuel' r' (addRaw [u; next] st)
                  else parseStringLoop fuel' r {| ss_parts := ss_parts (flushPart st); ss_raw := []; ss_pending := Some u |}
              | [] => parseStringLoop fuel' r {| ss_parts := ss_parts (flushPart st); ss_raw := []; ss_pending := Some u |}
              end
            else if isLowSurrogate u then fail UnpairedLow rest
            else parseStringLoop fuel' r (addRaw [u] st)
        end
      else
        let st := flushPart st in
        match r with
        | [] => fail Unterminated r
        | escape :: r' =>
            match simpleEscape (unitZ escape) with
            | Some unit => let* st := appendCodeUnit (fromCharCode unit) r' st in parseStringLoop fuel' r' st
            | None =>
                if unitZ escape =? 0x75 then
                  let* (unit, r'') := parseEscapedHexCodeUnit r' in
                  let* st := appendCodeUnit unit r'' st in
                  parseStringLoop fuel' r'' st
                else fail InvalidEscape r'
            end
        end
  end.

Definition parseString (rest : jsstr) : jresult (jsstr * jsstr) :=
  parseStringLoop (S (length rest)) rest {| ss_parts := []; ss_raw := []; ss_pending := None |}.

(** [while (isDigit(this.text[this.index])) this.index += 1], after a first digit. *)
Definition scanDigits (rest : jsstr) : jresult (jsstr * jsstr) :=
  match spanDigits rest with
  | ([], _) => fail InvalidNumber rest
  | (digits, r) => Ok (digits, r)
  end.

Definition scanInteger (rest : jsstr) : jresult (jsstr * jsstr) :=
  match rest with
  | u :: r => if isUnit 0x30 u then Ok ([u], r) else scanDigits rest
  | [] => fail InvalidNumber rest
  end.

Definition scanFraction (rest : jsstr) : jresult (jsstr * jsstr) :=
  match rest with
  | u :: r => if isUnit point u then let* (digits, r') := scanDigits r in Ok (u :: digits, r') else Ok ([], rest)
  | [] => Ok ([], rest)
  end.

Definition scanExponent (rest : jsstr) : jresult (jsstr * jsstr) :=
  match rest with
  | u :: r =>
      if isE u then
        let '(sign, r) := match r with c :: r' => if isSign c then ([c], r') else ([], r) | [] => ([], r) end in
        let* (digits, r') := scanDigits r in
        Ok (u :: sign ++ digits, r')
      else Ok ([], rest)
  | [] => Ok ([], rest)
  end.

Definition parseNumber (rest : jsstr) : jresult (number * jsstr) :=
  let '(sign, r) := match rest with u :: r => if isUnit minus u then ([u], r) else ([], rest) | [] => ([], rest) end in
  let* (int, r) := scanInteger r in
  let* (frac, r) := scanFraction r in
  let* (exponent, r) := scanExponent r in
  let token := sign ++ int ++ frac ++ exponent in
  let value := Number token in
  if negb (isFinite value) then fail NumberOutOfRange r
  else if negb (sameExactDecimalValue token (numberText value)) then fail NumberLosesInformation r
  else Ok (value, r).

Definition parseLiteral (token : jsstr) (value : Json) (rest : jsstr) : jresult (Json * jsstr) :=
  if bool_decide (take (length token) rest = token) then Ok (value, drop (length token) rest)
  else fail (ExpectedLiteral token) rest.

(** [parseValue], and the loops of [parseObject] and [parseArray] from behind
    their first white space; [fields] and [items] are what they collected. *)
Fixpoint parseValue (fuel : nat) (depth : Z) (rest : jsstr) {struct fuel} : jresult (Json * jsstr) :=
  match fuel with
  | O => fail OutOfFuel rest
  | S fuel' =>
      if depthLimit <? depth then fail NestingTooDeep rest
      else match rest with
      | [] => fail ExpectedValue rest
      | u :: r =>
          if isUnit 0x22 u then let* (s, r') := parseString r in Ok (JString s, r')
          else if isUnit 0x7b u then
            if depthLimit <? depth + 1 then fail NestingTooDeep rest
            else
              let r := skipWhitespace r in
              match consume 0x7d r with
              | Some r' => Ok (JObject [], r')
              | None => parseMembers fuel' (depth + 1) [] r
              end
          else if isUnit 0x5b u then
            if depthLimit <? depth + 1 then fail NestingTooDeep rest
            else
              let r := skipWhitespace r in
              match consume 0x5d r with
              | Some r' => Ok (JArray [], r')
              | None => parseElements fuel' (depth + 1) [] r
              end
          else if isUnit 0x74 u then parseLiteral (js "true") (JBool true) rest
          else if isUnit 0x66 u then parseLiteral (js "false") (JBool false) rest
          else if isUnit 0x6e u then parseLiteral (js "null") JNull rest
          else if isUnit minus u || isDigit u then let* (n, r') := parseNumber rest in Ok (JNumber n, r')
          else fail ExpectedValue rest
      end
  end
with parseMembers (fuel : nat) (depth : Z) (fields : list (jsstr * Json)) (rest : jsstr) {struct fuel} : jresult (Json * jsstr) :=
  match fuel with
  | O => fail OutOfFuel rest
  | S fuel' =>
      match consume 0x22 rest with
      | None => fail ExpectedKey rest
      | Some r =>
          let* (key, r) := parseString r in
          if bool_decide (key ∈ fields.*1) then fail (DuplicateKey key) r
          else
            let* r := expect 0x3a (skipWhitespace r) in
            let* (value, r) := parseValue fuel' depth (skipWhitespace r) in
            let fields := fields ++ [(key, value)] in
            let r := skipWhitespace r in
            match consume 0x7d r with
            | Some r' => Ok (JObject fields, r')
            | None => let* r := expect 0x2c r in parseMembers fuel' depth fields (skipWhitespace r)
            end
      end
  end
with parseElements (fuel : nat) (depth : Z) (items : list Json) (rest : jsstr) {struct fuel} : jresult (Json * jsstr) :=
  match fuel with
  | O => fail OutOfFuel rest
  | S fuel' =>
      let* (value, r) := parseValue fuel' depth rest in
      let items := items ++ [value] in
      let r := skipWhitespace r in
      match consume 0x5d r with
      | Some r' => Ok (JArray items, r')
      | None => let* r := expect 0x2c r in parseElements fuel' depth items (skipWhitespace r)
      end
  end.

(** [parse]: one value and white space.  Two rounds per code unit are enough. *)
Definition parse (text : jsstr) : jresult Json :=
  let* (value, r) := parseValue (2 * length text + 2) 0 (skipWhitespace text) in
  let r := skipWhitespace r in
  if bool_decide (r = []) then Ok value else fail TrailingInput r.

End Parser.

(** [string | Uint8Array] *)
Inductive Input :=
| TextInput (text : jsstr)
| BytesInput (b : bytes).

Definition inputText (input : Input) : jresult jsstr :=
  match input with
  | TextInput text => Ok text
  | BytesInput b => match decodeUtf8 b with Some text => Ok text | None => Err ENotUtf8 end
  end.

Definition parseJsonStrict (input : Input) (options : CanonicalJsonOptions) : jresult Json :=
  let* (maxBytes, maxDepth) := resolveLimits options in
  let byteLength := match input with TextInput text => js_length (encodeUtf8 text) | BytesInput b => js_length b end in
  throw EInputTooLarge when maxBytes <? byteLength;
  let* text := inputText input in
  throw EByteOrderMark when match text with u :: _ => isUnit 0xfeff u | [] => false end;
  parse (js_length text) maxDepth text.

Definition parseCanonicalJson (input : Input) (options : CanonicalJsonOptions) : jresult Json :=
  let* value := parseJsonStrict input options in
  let* text := inputText input in
  let* canonical := canonicalizeJson value options in
  throw ENotCanonical when negb (bool_decide (canonical = text));
  Ok value.
