(* ===== verification/CanonicalJsonTheory.v ===== *)
(** * Canonical JSON: correctness

    The serializer writes a reference text of the value within its limits; the
    strict parser reads every such text back; canonical texts and values
    correspond one to one, up to the order of fields. *)

From Stdlib Require Import Strings.Byte.
From S2P Require Import Prelude Bytes CodePoints JsText JsNumber CanonicalJson.

Open Scope Z_scope.

(** ** Induction over values *)

Section JsonInd.
Context (P : Json -> Prop) (Hnull : P JNull) (Hbool : forall b, P (JBool b)) (Hnum : forall n, P (JNumber n))
  (Hstr : forall s, P (JString s)) (Harr : forall items, Forall P items -> P (JArray items))
  (Hobj : forall fields, Forall (fun f => P f.2) fields -> P (JObject fields)).

Fixpoint Json_ind (v : Json) : P v :=
  match v with
  | JNull => Hnull
  | JBool b => Hbool b
  | JNumber n => Hnum n
  | JString s => Hstr s
  | JArray items =>
      Harr items ((fix go l : Forall P l :=
        match l with [] => Forall_nil_2 _ | x :: l' => Forall_cons_2 _ _ _ (Json_ind x) (go l') end) items)
  | JObject fields =>
      Hobj fields ((fix go l : Forall (fun f => P f.2) l :=
        match l with [] => Forall_nil_2 _ | (k, x) :: l' => Forall_cons_2 _ (k, x) _ (Json_ind x) (go l') end) fields)
  end.
End JsonInd.

(** ** Reference definitions *)

Definition escapeUnit (u : codeUnit) : jsstr := default [u] (escapeOf (unitZ u)).

Definition quoted (s : jsstr) : jsstr := quote ++ flat_map escapeUnit s ++ quote.

Fixpoint separated (texts : list jsstr) : jsstr :=
  match texts with
  | [] => []
  | [t] => t
  | t :: ts => t ++ js "," ++ separated ts
  end.

Definition memberText (m : jsstr * jsstr) : jsstr := quoted m.1 ++ js ":" ++ m.2.

(** The canonical text of a value, without limits. *)
Fixpoint canonText (v : Json) : jsstr :=
  match v with
  | JNull => js "null"
  | JBool b => if b then js "true" else js "false"
  | JNumber n => numberText n
  | JString s => quoted s
  | JArray items => js "[" ++ separated (map canonText items) ++ js "]"
  | JObject fields =>
      js "{" ++ separated (map memberText (js_sort compareKeys (map (fun '(k, x) => (k, canonText x)) fields))) ++ js "}"
  end.

(** Values of the I-JSON data model: strings without lone surrogates and finite
    numbers. *)
Fixpoint encodable (v : Json) : bool :=
  match v with
  | JNull | JBool _ => true
  | JNumber n => isFinite n
  | JString s => isWellFormed s
  | JArray items => forallb encodable items
  | JObject fields => forallb (fun '(k, x) => isWellFormed k && encodable x) fields
  end.

Definition maxOf (l : list Z) : Z := foldr Z.max 0 l.

(** How deep containers nest. *)
Fixpoint jsonDepth (v : Json) : Z :=
  match v with
  | JArray items => 1 + maxOf (map jsonDepth items)
  | JObject fields => 1 + maxOf (map (fun '(_, x) => jsonDepth x) fields)
  | _ => 0
  end.

(** The keys of objects differ, and numbers are ones that exist. *)
Fixpoint wfJson (v : Json) : Prop :=
  match v with
  | JNumber n => validNumber n
  | JArray items => foldr (fun x P => wfJson x /\ P) True items
  | JObject fields => NoDup fields.*1 /\ foldr (fun '(_, x) P => wfJson x /\ P) True fields
  | _ => True
  end.

(** The value that a canonical text stands for: fields sorted, no negative
    zero. *)
Fixpoint normal (v : Json) : Json :=
  match v with
  | JNumber n => JNumber (dropNegZero n)
  | JArray items => JArray (map normal items)
  | JObject fields => JObject (js_sort compareKeys (map (fun '(k, x) => (k, normal x)) fields))
  | _ => v
  end.

(** Values that differ in the order of fields and the sign of zero only. *)
Definition jsonEquiv (v w : Json) : Prop := normal v = normal w.

#[export] Instance jsonEquiv_equivalence : Equivalence jsonEquiv.
Proof. split; unfold jsonEquiv; [by intros x|by intros x y|intros x y z; congruence]. Qed.

(** ** Well-formed strings *)

Lemma codePoints_app a b : isWellFormed a = true -> codePoints (a ++ b) = codePoints a ++ codePoints b.
Proof.
  rewrite isWellFormed_spec. induction a as [|u|u u' a IH IH'] using list_ind_pair; intros Ha; [done| |].
  - simpl in Ha. apply Forall_cons in Ha as [Hu _]. apply isScalar_spec in Hu as [_ Hu].
    destruct b as [|v b]; [done|]. change ([u] ++ v :: b) with (u :: v :: b). rewrite codePoints_cons2.
    destruct (isHigh (unitZ u)) eqn:E; [apply isHigh_spec in E; lia|done].
  - rewrite codePoints_cons2 in Ha. rewrite <- !app_comm_cons, !codePoints_cons2. case_match.
    + apply Forall_cons in Ha as [_ Ha]. by rewrite (IH Ha).
    + apply Forall_cons in Ha as [_ Ha]. rewrite app_comm_cons, (IH' Ha). done.
Qed.

Lemma isWellFormed_app a b : isWellFormed a = true -> isWellFormed (a ++ b) = isWellFormed b.
Proof.
  intros Ha. unfold isWellFormed. rewrite codePoints_app, forallb_app by done. unfold isWellFormed in Ha. by rewrite Ha.
Qed.

Lemma encodeUtf8_app a b : isWellFormed a = true -> encodeUtf8 (a ++ b) = encodeUtf8 a ++ encodeUtf8 b.
Proof. intros Ha. unfold encodeUtf8. by rewrite codePoints_app, flat_map_app, fmap_app by done. Qed.

(** How the writer's loop reads a string. *)
Lemma isWellFormed_cons u r :
  isWellFormed (u :: r) =
  if isHighSurrogate u then match r with next :: r' => isLowSurrogate next && isWellFormed r' | [] => false end
  else negb (isLowSurrogate u) && isWellFormed r.
Proof.
  unfold isHighSurrogate, isLowSurrogate, isWellFormed. pose proof (unitZ_range u) as Hu.
  assert (isScalar (unitZ u) = negb (isHigh (unitZ u)) && negb (isLow (unitZ u))) as Hs.
  { unfold isScalar. rewrite (proj2 (Z.leb_le 0 _)), (proj2 (Z.leb_le (unitZ u) _)) by lia. by rewrite <- negb_orb. }
  destruct r as [|v r]; [simpl; rewrite Hs; by destruct (isHigh (unitZ u)), (isLow (unitZ u))|].
  rewrite codePoints_cons2. destruct (isHigh (unitZ u)) eqn:Eh, (isLow (unitZ v)) eqn:El; cbn [andb negb forallb].
  - assert (isHigh (unitZ u) && isLow (unitZ v) = true) as E by by rewrite Eh, El.
    apply pairCodePoint_range in E. rewrite (proj2 (isScalar_spec _)); [done|lia].
  - by rewrite Hs.
  - by rewrite Hs.
  - by rewrite Hs.
Qed.

Lemma ascii_wellFormed s : Forall (fun u => unitZ u < 128) s -> isWellFormed s = true /\ js_length (encodeUtf8 s) = js_length s.
Proof.
  induction 1 as [|u s Hu Hs [IH IH']]; [done|]. pose proof (unitZ_range u).
  assert (isWellFormed [u] = true) as Hw.
  { rewrite isWellFormed_cons. unfold isHighSurrogate, isLowSurrogate, isHigh, isLow.
    by rewrite !(proj2 (Z.leb_gt _ (unitZ u))) by lia. }
  change (u :: s) with ([u] ++ s). rewrite isWellFormed_app, encodeUtf8_app by done. split; [done|].
  unfold js_length in *. rewrite !length_app, !Nat2Z.inj_add, IH'. f_equal. unfold encodeUtf8. simpl.
  assert (isScalar (unitZ u) = true) as -> by (apply isScalar_spec; lia). unfold utf8CodePoint.
  by rewrite (proj2 (Z.ltb_lt _ _)) by lia.
Qed.

(** ** The serializer writes the reference text *)

Section Writer.
Context (limit depthLimit : Z).

(** A writer action that appends [t], subject to the size limit, or one that
    always throws. *)
Definition emits (f : writer -> jresult writer) (out : option jsstr) : Prop :=
  match out with
  | Some t =>
      isWellFormed t = true /\
      forall w, w_bytes w <= limit -> f w = appendMeasured limit t (js_length (encodeUtf8 t)) w
  | None => forall w w', f w <> Ok w'
  end.

Lemma emits_nil : emits Ok (Some []).
Proof.
  split; [done|]. intros [t b] Hw. simpl in Hw. unfold appendMeasured. cbn. rewrite Z.add_0_r, app_nil_r.
  by rewrite (proj2 (Z.ltb_ge _ _)).
Qed.

Lemma emits_seq f g a b :
  emits f a -> emits g b ->
  emits (fun w => let* w := f w in g w) (match a, b with Some s, Some t => Some (s ++ t) | _, _ => None end).
Proof.
  destruct a as [s|]; [|intros Hf _ w w' H; apply result_bind_Ok in H as (w1 & H & _); by apply Hf in H].
  destruct b as [t|]; [|intros _ Hg w w' H; apply result_bind_Ok in H as (w1 & _ & H); by apply Hg in H].
  intros [Hs Hf] [Ht Hg]. split; [by rewrite isWellFormed_app|]. intros w Hw. rewrite Hf by done.
  unfold appendMeasured at 1. rewrite encodeUtf8_app by done. unfold js_length. rewrite length_app.
  destruct (Z.ltb_spec limit (w_bytes w + Z.of_nat (length (encodeUtf8 s)))); cbn [throw_if result_bind].
  - unfold appendMeasured. by rewrite (proj2 (Z.ltb_lt _ _)) by lia.
  - rewrite Hg by done. unfold appendMeasured. cbn [w_bytes w_text]. rewrite Nat2Z.inj_add, Z.add_assoc, app_assoc. done.
Qed.

Lemma emits_ext f g out : (forall w, f w = g w) -> emits f out -> emits g out.
Proof. destruct out; simpl; intros E H; [destruct H; split; [done|]|]; intros w; rewrite <- E; auto. Qed.

Lemma emits_throw b e f out : emits f out -> emits (fun w => throw e when b; f w) (if b then None else out).
Proof. destruct b; [done|]. apply emits_ext. done. Qed.

Lemma emits_ascii s : Forall (fun u => unitZ u < 128) s -> emits (appendAscii limit s) (Some s).
Proof. intros [Hw Hl]%ascii_wellFormed. split; [done|]. intros w _. unfold appendAscii. by rewrite Hl. Qed.

Lemma emits_flush raw : isWellFormed raw = true -> emits (flushRaw limit raw) (Some raw).
Proof. intros Hr. unfold flushRaw. case_bool_decide; [subst; apply emits_nil|by split]. Qed.

Lemma hexUnit_ascii n : 0 <= n < 16 -> unitZ (hexUnit n) < 128.
Proof. intros Hn. unfold hexUnit. rewrite unitZ_fromCharCode; destruct (Z.ltb_spec n 10); lia. Qed.

Lemma escapeOf_ascii c e : 0 <= c -> escapeOf c = Some e -> Forall (fun u => unitZ u < 128) e.
Proof.
  intros Hc He. destruct (Z.lt_ge_cases c 128) as [Hlt|Hge].
  - assert (forallb (fun c => match escapeOf c with Some e => forallb (fun u => unitZ u <? 128) e | None => true end) (seqZ 0 128) = true) as H
      by (vm_compute; reflexivity).
    rewrite forallb_forall in H. specialize (H c). rewrite He, forallb_forall in H. apply Forall_forall. intros u Hu%list_elem_of_In.
    apply Z.ltb_lt, H; [apply list_elem_of_In, elem_of_seqZ; lia|done].
  - exfalso. revert He. unfold escapeOf. rewrite !(proj2 (Z.eqb_neq _ _)) by lia. by rewrite (proj2 (Z.ltb_ge _ _)) by lia.
Qed.

Lemma escapeOf_none_surrogate u : escapeOf (unitZ u) <> None -> isHighSurrogate u = false /\ isLowSurrogate u = false.
Proof.
  unfold escapeOf, isHighSurrogate, isLowSurrogate, isHigh, isLow. intros H.
  assert (unitZ u < 0x80) by (destruct (Z.lt_ge_cases (unitZ u) 0x80); [done|]; exfalso; apply H;
    rewrite !(proj2 (Z.eqb_neq (unitZ u) _)) by lia; by rewrite (proj2 (Z.ltb_ge _ _)) by lia).
  by rewrite !(proj2 (Z.leb_gt _ (unitZ u))) by lia.
Qed.

Lemma escapeUnit_plain u : escapeOf (unitZ u) = None -> escapeUnit u = [u].
Proof. unfold escapeUnit. by intros ->. Qed.

(** A surrogate is not escaped. *)
Lemma escapeUnit_surrogate u : isHighSurrogate u = true \/ isLowSurrogate u = true -> escapeUnit u = [u].
Proof.
  intros H. apply escapeUnit_plain. destruct (escapeOf (unitZ u)) eqn:E; [|done].
  destruct (escapeOf_none_surrogate u) as [H1 H2]; [congruence|]. rewrite H1, H2 in H. by destruct H.
Qed.

Lemma list_ind_len {A} (P : list A -> Prop) :
  (forall l, (forall l', (length l' < length l)%nat -> P l') -> P l) -> forall l, P l.
Proof. intros H l. induction l as [l IH] using (induction_ltof1 _ length). by apply H. Qed.

(** The loop over a string: what is held back in [raw] comes first. *)
Lemma writeUnits_emits label rest raw :
  isWellFormed raw = true ->
  emits (writeUnits limit label rest raw)
    (if isWellFormed rest then Some (raw ++ flat_map escapeUnit rest) else None).
Proof.
  revert raw. induction rest as [rest IH] using list_ind_len. intros raw Hraw.
  destruct rest as [|u rest]; [rewrite app_nil_r; by apply emits_flush|].
  assert (forall l t, (length t < length (u :: rest))%nat -> isWellFormed l = true ->
    emits (fun w => if 4096 <=? js_length l then let* w := flushRaw limit l w in writeUnits limit label t [] w
                    else writeUnits limit label t l w)
      (if isWellFormed t then Some (l ++ flat_map escapeUnit t) else None)) as Hnext.
  { intros l t Ht Hl. destruct (4096 <=? js_length l); [|by apply IH].
    pose proof (emits_seq _ _ _ _ (emits_flush l Hl) (IH t Ht [] eq_refl)) as H. by destruct (isWellFormed t). }
  rewrite isWellFormed_cons. cbn [writeUnits flat_map]. destruct (escapeOf (unitZ u)) as [e|] eqn:Ee.
  - destruct (escapeOf_none_surrogate u) as [-> ->]; [congruence|]. cbn [negb andb].
    pose proof (emits_seq _ _ _ _ (emits_ascii e (escapeOf_ascii _ _ (proj1 (unitZ_range u)) Ee)) (IH rest ltac:(simpl; lia) [] eq_refl)) as H.
    pose proof (emits_seq _ _ _ _ (emits_flush raw Hraw) H) as H'. unfold escapeUnit. rewrite Ee. by destruct (isWellFormed rest).
  - rewrite escapeUnit_plain by done. destruct (isHighSurrogate u) eqn:Eh.
    + destruct rest as [|next rest]; [by intros w w'|]. destruct (isLowSurrogate next) eqn:El; [|by intros w w'].
      cbn [flat_map negb andb]. rewrite (escapeUnit_surrogate next) by auto. cbn [app].
      change (raw ++ u :: next :: flat_map escapeUnit rest) with (raw ++ [u; next] ++ flat_map escapeUnit rest).
      rewrite app_assoc. apply Hnext; [simpl; lia|]. rewrite isWellFormed_app, isWellFormed_cons, Eh, El by done. done.
    + destruct (isLowSurrogate u) eqn:El; [by intros w w'|]. cbn [negb andb].
      change (raw ++ [u] ++ flat_map escapeUnit rest) with (raw ++ [u] ++ flat_map escapeUnit rest).
      rewrite app_assoc. apply Hnext; [simpl; lia|]. rewrite isWellFormed_app, isWellFormed_cons, Eh, El by done. done.
Qed.

Lemma writeString_emits label s :
  emits (writeCanonicalJsonString limit s label) (if isWellFormed s then Some (quoted s) else None).
Proof.
  assert (emits (appendAscii limit quote) (Some quote)) as Hq by (apply emits_ascii; repeat constructor; vm_compute; done).
  pose proof (emits_seq _ _ _ _ Hq (emits_seq _ _ _ _ (writeUnits_emits label s [] eq_refl) Hq)) as H.
  by destruct (isWellFormed s).
Qed.

Lemma separated_cons t ts : separated (t :: ts) = t ++ flat_map (fun t => js "," ++ t) ts.
Proof. revert t. induction ts as [|t' ts IH]; intros t; [by rewrite app_nil_r|]. cbn [flat_map]. rewrite <- app_assoc, <- IH. done. Qed.

(** All actions of a list append, or one of them throws. *)
Lemma writeSeparated_emits first acts outs :
  Forall2 emits acts outs ->
  emits (writeSeparated limit first acts)
    (texts ← mapM id outs; Some (if first then separated texts else flat_map (fun t => js "," ++ t) texts)).
Proof.
  intros H. revert first. induction H as [|a o acts outs Ha Hrest IH]; intros first.
  { cbn. destruct first; apply emits_nil. }
  assert (emits (appendAscii limit (js ",")) (Some (js ","))) as Hc by (apply emits_ascii; repeat constructor; vm_compute; done).
  assert (emits (fun w => if first then Ok w else appendAscii limit (js ",") w) (Some (if first then [] else js ","))) as Hsep
    by (destruct first; [apply emits_nil|done]).
  pose proof (emits_seq _ _ _ _ Hsep (emits_seq _ _ _ _ Ha (IH false))) as H. cbn [writeSeparated mapM].
  destruct o as [t|]; [|done]. destruct (mapM id outs) as [texts|]; [|done].
  destruct first; [|exact H]. change (mret (M:=option) ?x) with (Some x) in *. cbn -[separated]. rewrite separated_cons. exact H.
Qed.

End Writer.

(** *** Collections *)

Lemma mapM_if {A B} (p : A -> bool) (f : A -> B) l :
  mapM id (map (fun x => if p x then Some (f x) else None) l) = if forallb p l then Some (map f l) else None.
Proof. induction l as [|x l IH]; [done|]. cbn. destruct (p x); cbn; [|done]. rewrite IH. by destruct (forallb p l). Qed.

Lemma maxOf_le {A} (f : A -> Z) l b :
  (1 + maxOf (map f l) <=? b) = (1 <=? b) && forallb (fun x => 1 + f x <=? b) l.
Proof.
  induction l as [|x l IH]; cbn [map maxOf foldr forallb]; [by rewrite andb_true_r|].
  rewrite (andb_comm (1 + f x <=? b)), andb_assoc, <- IH. fold (maxOf (map f l)).
  destruct (Z.leb_spec (1 + maxOf (map f l)) b), (Z.leb_spec (1 + f x) b),
    (Z.leb_spec (1 + Z.max (f x) (maxOf (map f l))) b); try done; lia.
Qed.

Lemma forallb_andb {A} (p q : A -> bool) l : forallb (fun x => p x && q x) l = forallb p l && forallb q l.
Proof. induction l as [|x l IH]; [done|]. simpl. rewrite IH. by destruct (p x), (q x), (forallb p l). Qed.

Lemma forallb_perm {A} (p : A -> bool) l l' : l ≡ₚ l' -> forallb p l = forallb p l'.
Proof. intros Hp. apply eq_bool_prop_intro. rewrite !Is_true_true, !forallb_forall. setoid_rewrite <- list_elem_of_In. by setoid_rewrite Hp. Qed.

#[export] Instance compareKeys_comparator {A} : Comparator (@compareKeys A).
Proof. split; unfold compareKeys; intros *; [apply lexCompare_refl|apply lexCompare_flip|apply lexCompare_trans]. Qed.

Lemma units_inj (a b : jsstr) : unitZ <$> a = unitZ <$> b -> a = b.
Proof. revert b. induction a as [|u a IH]; intros [|v b] [=]; [done|]. f_equal; [by apply unitZ_inj|auto]. Qed.

Lemma compareKeys_eq {A} (a b : jsstr * A) : compareKeys a b = 0 <-> a.1 = b.1.
Proof. unfold compareKeys. rewrite lexCompare_eq. split; [apply units_inj|by intros ->]. Qed.

(** Sorting by key and changing the values commute. *)
Lemma sort_values {A B} (h : A -> B) l :
  js_sort compareKeys (map (fun '(k, x) => (k, h x)) l) = map (fun '(k, x) => (k, h x)) (js_sort compareKeys l).
Proof.
  change (map ?f l) with (f <$> l). rewrite js_sort_fmap. change (map ?f ?l) with (f <$> l). f_equal.
  apply js_sort_ext. by intros [k x] [k' y] _ _.
Qed.

Lemma sort_perm {A} (l : list (jsstr * A)) : js_sort compareKeys l ≡ₚ l.
Proof. apply js_sort_perm. Qed.

(** *** Numbers *)

Lemma digit_ascii u : isDigit u = true -> unitZ u < 128.
Proof. unfold isDigit. rewrite andb_true_iff, !Z.leb_le. lia. Qed.

Lemma printToken_ascii d : wfToken d -> Forall (fun u => unitZ u < 128) (printToken d).
Proof.
  intros [Hi _ Hf Hx]. unfold printToken.
  assert (forall s, alldigits s -> Forall (fun u => unitZ u < 128) s) as Hd by (intros s Hs; eapply Forall_impl; [exact Hs|apply digit_ascii]).
  rewrite !Forall_app. split_and!; [by destruct (tok_neg d); repeat constructor|auto| |].
  - case_bool_decide; [constructor|]. apply Forall_app. split; [by repeat constructor|auto].
  - destruct (tok_exp d) as [x|]; [|constructor]. destruct (Hx x eq_refl) as (c & ds & -> & Hc & Hds & _).
    apply Forall_app. split; [by repeat constructor|]. constructor; [|auto].
    unfold isSign, isUnit, plus, minus in Hc. apply orb_true_iff in Hc as [Hc|Hc]; apply Z.eqb_eq in Hc; lia.
Qed.

Lemma numberText_ascii n : validNumber n -> isFinite n = true -> Forall (fun u => unitZ u < 128) (numberText n).
Proof. intros Hv Hf. destruct (numberText_spec n Hv Hf) as (d & -> & Hd & _). by apply printToken_ascii. Qed.

Lemma wfJson_array items : wfJson (JArray items) <-> Forall wfJson items.
Proof. simpl. induction items as [|x l IH]; simpl; [split; constructor|]. by rewrite Forall_cons, IH. Qed.

Lemma wfJson_object fields : wfJson (JObject fields) <-> NoDup fields.*1 /\ Forall (fun f => wfJson f.2) fields.
Proof.
  simpl. apply and_iff_compat_l. induction fields as [|[k x] l IH]; simpl; [split; constructor|].
  by rewrite Forall_cons, IH.
Qed.

Section Encode.
Context (limit depthLimit : Z).

Definition writable (v : Json) (depth : Z) : bool := encodable v && (depth + jsonDepth v <=? depthLimit).

Lemma emits_bracket f out l r :
  Forall (fun u => unitZ u < 128) l -> Forall (fun u => unitZ u < 128) r -> emits limit f out ->
  emits limit (fun w => let* w := appendAscii limit l w in let* w := f w in appendAscii limit r w)
    (t ← out; Some (l ++ t ++ r)).
Proof.
  intros Hl Hr Hf. pose proof (emits_seq limit _ _ _ _ (emits_ascii limit l Hl) (emits_seq limit _ _ _ _ Hf (emits_ascii limit r Hr))) as H.
  by destruct out.
Qed.

Lemma emits_guard b e f p out :
  emits limit f (if p : bool then Some out else None) ->
  emits limit (fun w => throw e when b; f w) (if negb b && p then Some out else None).
Proof. intros H. apply (emits_throw limit b e) in H. by destruct b. Qed.

Lemma emits_cond f p q out :
  p = q -> emits limit f (if p : bool then Some out else None) -> emits limit f (if q : bool then Some out else None).
Proof. by intros ->. Qed.

Lemma leb_ltb a b : negb (b <? a) = (a <=? b).
Proof. by rewrite Z.ltb_antisym, negb_involutive. Qed.

(** The nesting of a container against that of its children. *)
Lemma depth_children {A} (f : A -> Z) l depth :
  (depth <=? depthLimit) && ((depth + 1 <=? depthLimit) && forallb (fun x => depth + 1 + f x <=? depthLimit) l) =
  (depth + (1 + maxOf (map f l)) <=? depthLimit).
Proof.
  assert ((depth + (1 + maxOf (map f l)) <=? depthLimit) = (1 + maxOf (map f l) <=? depthLimit - depth)) as ->
    by (apply eq_bool_prop_intro; rewrite !Is_true_true, !Z.leb_le; lia).
  rewrite maxOf_le. assert ((1 <=? depthLimit - depth) = (depth + 1 <=? depthLimit)) as ->
    by (apply eq_bool_prop_intro; rewrite !Is_true_true, !Z.leb_le; lia).
  destruct (Z.leb_spec (depth + 1) depthLimit); simpl; [|by rewrite andb_false_r].
  rewrite (proj2 (Z.leb_le _ _)) by lia. simpl.
  enough (forall x, (depth + 1 + f x <=? depthLimit) = (1 + f x <=? depthLimit - depth)) as E
    by (induction l as [|x l IH]; [done|]; simpl; by rewrite E, IH).
  intros x. apply eq_bool_prop_intro. rewrite !Is_true_true, !Z.leb_le. lia.
Qed.

Lemma items_emit {A} (act : A -> writer -> jresult writer) (p : A -> bool) (txt : A -> jsstr) l :
  Forall (fun x => emits limit (act x) (if p x then Some (txt x) else None)) l ->
  emits limit (writeSeparated limit true (map act l)) (if forallb p l then Some (separated (map txt l)) else None).
Proof.
  intros H. assert (Forall2 (emits limit) (map act l) (map (fun x => if p x then Some (txt x) else None) l)) as H2
    by (induction H; simpl; constructor; auto).
  apply (writeSeparated_emits limit true) in H2. rewrite mapM_if in H2. by destruct (forallb p l).
Qed.

Lemma member_emits key act out :
  emits limit act out ->
  emits limit (fun w => let* w := writeCanonicalJsonString limit key "JSON object key" w in
                        let* w := appendAscii limit (js ":") w in act w)
    (if isWellFormed key then t ← out; Some (memberText (key, t)) else None).
Proof.
  intros H. assert (emits limit (appendAscii limit (js ":")) (Some (js ":"))) as Hc by (apply emits_ascii; repeat constructor).
  pose proof (emits_seq limit _ _ _ _ (writeString_emits limit "JSON object key" key) (emits_seq limit _ _ _ _ Hc H)) as H'.
  by destruct (isWellFormed key), out.
Qed.

Lemma canonText_object fields :
  canonText (JObject fields) =
  js "{" ++ separated (map (fun f => memberText (f.1, canonText f.2)) (js_sort compareKeys fields)) ++ js "}".
Proof. cbn [canonText]. rewrite sort_values, map_map. do 3 f_equal. apply map_ext. by intros [k x]. Qed.

(** The encoder of [v] writes its text wherever limits allow. *)
Definition encodes (v : Json) : Prop :=
  forall depth, emits limit (encode limit depthLimit v depth) (if writable v depth then Some (canonText v) else None).

Lemma encode_array items : Forall encodes items -> encodes (JArray items).
Proof.
  intros IH depth.
  apply (emits_cond _ (negb (depthLimit <? depth) && (negb (depthLimit <? depth + 1) && forallb (fun x => writable x (depth + 1)) items))).
  { unfold writable. cbn [jsonDepth encodable]. rewrite forallb_andb, !leb_ltb, <- depth_children.
    by destruct (forallb encodable items), (depth <=? depthLimit), (depth + 1 <=? depthLimit). }
  do 2 apply emits_guard.
  pose proof (items_emit (fun item => encode limit depthLimit item (depth + 1)) (fun x => writable x (depth + 1)) canonText items) as H.
  apply (emits_bracket _ _ (js "[") (js "]")) in H; [|repeat constructor..|].
  - by destruct (forallb _ items).
  - eapply Forall_impl; [exact IH|]. intros x Hx. apply Hx.
Qed.

Lemma encode_object fields : Forall (fun f => encodes f.2) fields -> encodes (JObject fields).
Proof.
  intros IH depth. pose (ok := fun f : jsstr * Json => isWellFormed f.1 && writable f.2 (depth + 1)).
  apply (emits_cond _ (negb (depthLimit <? depth) && (negb (depthLimit <? depth + 1) && forallb ok (js_sort compareKeys fields)))).
  { rewrite (forallb_perm _ _ _ (sort_perm fields)). unfold ok, writable. cbn [jsonDepth encodable].
    rewrite !leb_ltb, <- depth_children.
    assert (forallb (fun f : jsstr * Json => isWellFormed f.1 && (encodable f.2 && (depth + 1 + jsonDepth f.2 <=? depthLimit))) fields =
      forallb (fun '(k, x) => isWellFormed k && encodable x) fields && forallb (fun x => depth + 1 + (let '(_, x0) := x in jsonDepth x0) <=? depthLimit) fields) as ->.
    { rewrite <- forallb_andb. clear. induction fields as [|[k x] l IHl]; [done|]. simpl. by rewrite IHl, andb_assoc. }
    by destruct (forallb (fun '(k, x) => _) fields), (depth <=? depthLimit), (depth + 1 <=? depthLimit). }
  do 2 apply emits_guard. rewrite canonText_object.
  pose (act := fun (f : jsstr * Json) w => let* w := writeCanonicalJsonString limit f.1 "JSON object key" w in
    let* w := appendAscii limit (js ":") w in encode limit depthLimit f.2 (depth + 1) w).
  pose proof (items_emit act ok (fun f => memberText (f.1, canonText f.2)) (js_sort compareKeys fields)) as H.
  apply (emits_bracket _ _ (js "{") (js "}")) in H; [|repeat constructor..|].
  - eapply emits_ext; [|destruct (forallb ok _); exact H]. intros w. cbn beta zeta. rewrite sort_values, map_map.
    match goal with |- _ = result_bind _ (fun w => result_bind (writeSeparated _ _ (map ?g _) _) _) =>
      replace (map g (js_sort compareKeys fields)) with (map act (js_sort compareKeys fields)); [done|] end.
    apply map_ext. by intros [k x].
  - rewrite sort_perm. eapply Forall_impl; [exact IH|]. intros [k x] Hx. unfold ok. cbn [fst snd].
    pose proof (member_emits k _ _ (Hx (depth + 1))) as Hm. simpl in Hm.
    by destruct (isWellFormed k), (writable x (depth + 1)).
Qed.

Lemma encode_emits v : wfJson v -> encodes v.
Proof.
  induction v as [|b|n|s|items IH|fields IH] using Json_ind; intros Hwf.
  5:{ apply wfJson_array in Hwf. apply encode_array. rewrite Forall_forall in *. auto. }
  5:{ apply wfJson_object in Hwf as [_ Hwf]. apply encode_object. rewrite Forall_forall in *. auto. }
  all: intros depth; (eapply emits_cond; [|apply emits_guard]); [unfold writable; cbn [jsonDepth encodable]; rewrite Z.add_0_r, leb_ltb|].
  1,3: apply andb_true_r.
  - apply (emits_ascii limit (js "null")). repeat constructor.
  - apply (emits_ascii limit (if b then js "true" else js "false")). destruct b; repeat constructor.
  - apply andb_comm.
  - destruct (isFinite n) eqn:Ef; [|by intros w w']. by apply emits_ascii, numberText_ascii.
  - apply andb_comm.
  - apply writeString_emits.
Qed.

End Encode.

(** What fits the limits. *)
Definition fits (v : Json) (bytes depth : Z) : Prop :=
  encodable v = true /\ jsonDepth v <= depth /\ js_length (encodeUtf8 (canonText v)) <= bytes.

Lemma canonicalizeJson_Ok v options s :
  wfJson v ->
  canonicalizeJson v options = Ok s <->
  exists bytes depth, resolveLimits options = Ok (bytes, depth) /\ fits v bytes depth /\ s = canonText v.
Proof.
  intros Hwf. unfold canonicalizeJson. rewrite result_bind_Ok. unfold fits.
  assert (forall bytes depth, resolveLimits options = Ok (bytes, depth) -> 0 <= bytes) as Hpos.
  { unfold resolveLimits. intros bytes depth H. ok_inv. simplify_eq. apply orb_false_iff in H0 as [? _]. lia. }
  split.
  - intros ([bytes depth] & Hl & H). exists bytes, depth. specialize (Hpos _ _ Hl). ok_inv. subst s.
    pose proof (encode_emits bytes depth v Hwf 0) as He. unfold writable in He. rewrite Z.add_0_l in He.
    destruct (encodable v), (Z.leb_spec (jsonDepth v) depth); simpl in He; try (by apply He in H0).
    destruct He as [_ He]. rewrite He in H0 by done. unfold appendMeasured in H0. ok_inv. subst. cbn in *.
    split_and!; try done. lia.
  - intros (bytes & depth & Hl & (He & Hd & Hb) & ->). exists (bytes, depth). split; [done|]. specialize (Hpos _ _ Hl).
    pose proof (encode_emits bytes depth v Hwf 0) as Hw. unfold writable in Hw.
    rewrite Z.add_0_l, He, (proj2 (Z.leb_le _ _)) in Hw by done. destruct Hw as [_ Hw].
    rewrite Hw by done. unfold appendMeasured. cbn [newWriter w_bytes w_text]. rewrite Z.add_0_l.
    by rewrite (proj2 (Z.ltb_ge _ _)).
Qed.
