(* ===== verification/CanonicalJsonRoundtrip.v ===== *)
(** * Canonical JSON: round trips

    The strict parser reads every canonical text back, accepts nothing else as
    canonical, and always ends. *)

From S2P Require Import Prelude Bytes CodePoints JsText JsNumber CanonicalJson CanonicalJsonTheory.

Open Scope Z_scope.

(** ** Strings *)

(** What the parser makes of an escape sequence. *)
Definition readEscape (e : jsstr) : option Z :=
  match e with
  | b :: x :: h =>
      if isUnit 0x5c b then
        match simpleEscape (unitZ x) with
        | Some c => if bool_decide (h = []) then Some c else None
        | None =>
            if unitZ x =? 0x75 then
              match h with
              | [_; _; _; _] => match hexUnits 0 h 0 [] with Ok c => Some c | Err _ => None end
              | _ => None
              end
            else None
        end
      else None
  | _ => None
  end.

Lemma escapes_read c e : 0 <= c -> escapeOf c = Some e -> readEscape e = Some c.
Proof.
  intros Hc He.
  assert (forallb (fun c => match escapeOf c with Some e => bool_decide (readEscape e = Some c) | None => true end) (seqZ 0 128) = true) as H
    by (vm_compute; reflexivity).
  assert (c < 128) as Hlt.
  { destruct (Z.lt_ge_cases c 128); [done|]. exfalso. revert He. unfold escapeOf.
    rewrite !(proj2 (Z.eqb_neq c _)) by lia. by rewrite (proj2 (Z.ltb_ge _ _)) by lia. }
  rewrite forallb_forall in H. specialize (H c). rewrite He in H. eapply bool_decide_eq_true_1, H, list_elem_of_In, elem_of_seqZ. lia.
Qed.

Lemma escapeUnit_length u : (1 <= length (escapeUnit u))%nat.
Proof.
  unfold escapeUnit. destruct (escapeOf (unitZ u)) as [e|] eqn:Ee; [|done].
  apply escapes_read in Ee; [|apply unitZ_range]. destruct e; [done|]. simpl. lia.
Qed.

Lemma escapeOf_None c : escapeOf c = None -> c <> 0x22 /\ c <> 0x5c /\ 0x20 <= c.
Proof.
  unfold escapeOf. intros H. split_and!.
  - intros ->. done.
  - intros ->. done.
  - destruct (Z.ltb_spec c 0x20); [|done]. by repeat case_match.
Qed.

Section Parsing.
Context (total depthLimit : Z).

Lemma hexUnits_position h v rest c : hexUnits 0 h v [] = Ok c -> hexUnits total h v rest = Ok c.
Proof. revert v. induction h as [|u h IH]; intros v; simpl; [done|]. case_match; [done|]. apply IH. Qed.

Lemma isUnit_eq c u : isUnit c u = true <-> unitZ u = c.
Proof. apply Z.eqb_eq. Qed.

(** A plain code unit appended to the string. *)
Lemma appendCodeUnit_plain u rest st :
  ss_pending st = None -> isHighSurrogate u = false -> isLowSurrogate u = false ->
  appendCodeUnit total u rest st = Ok {| ss_parts := ss_parts st ++ [u]; ss_raw := ss_raw st; ss_pending := None |}.
Proof. unfold appendCodeUnit. by intros -> -> ->. Qed.

(** One escape sequence. *)
Lemma parseString_escape fuel u e rest st :
  escapeOf (unitZ u) = Some e -> ss_pending st = None ->
  parseStringLoop total (S fuel) (e ++ rest) st =
  parseStringLoop total fuel rest {| ss_parts := ss_parts st ++ ss_raw st ++ [u]; ss_raw := []; ss_pending := None |}.
Proof.
  intros He Hp. pose proof (escapes_read _ _ (proj1 (unitZ_range u)) He) as Hr.
  destruct (escapeOf_none_surrogate u) as [Hh Hl]; [congruence|].
  assert (forall r, appendCodeUnit total (fromCharCode (unitZ u)) r (flushPart st) =
    Ok {| ss_parts := ss_parts st ++ ss_raw st ++ [u]; ss_raw := []; ss_pending := None |}) as Happ.
  { intros r. rewrite fromCharCode_unitZ, appendCodeUnit_plain by done. cbn. by rewrite app_assoc. }
  destruct e as [|b [|x h]]; [done|done|]. cbn [readEscape] in Hr. destruct (isUnit 0x5c b) eqn:Hb; [|done].
  apply isUnit_eq in Hb. cbn [parseStringLoop app]. rewrite Hb.
  change (92 =? 34) with false. change (92 <? 32) with false. change (92 =? 92) with true. cbn match. cbn [negb].
  destruct (simpleEscape (unitZ x)) as [c|].
  - case_bool_decide; [|done]. injection Hr as ->. subst h. cbn [app]. by rewrite Happ.
  - destruct (unitZ x =? 0x75); [|done]. destruct h as [|h1 [|h2 [|h3 [|h4 [|]]]]]; try done.
    destruct (hexUnits 0 [h1; h2; h3; h4] 0 []) as [c|] eqn:Ehex; [|done]. injection Hr as ->.
    unfold parseEscapedHexCodeUnit. rewrite (proj2 (Z.ltb_ge _ _)) by (unfold js_length; simpl; lia).
    change (take 4 ([h1; h2; h3; h4] ++ rest)) with [h1; h2; h3; h4]. rewrite (hexUnits_position _ _ _ _ Ehex).
    cbn [result_bind]. by rewrite Happ.
Qed.

(** The loop reads an escaped string back, up to the closing quote. *)
Lemma parseString_escaped s fuel rest st :
  isWellFormed s = true -> ss_pending st = None -> (length (flat_map escapeUnit s) < fuel)%nat ->
  parseStringLoop total fuel (flat_map escapeUnit s ++ quote ++ rest) st = Ok (ss_parts st ++ ss_raw st ++ s, rest).
Proof.
  revert fuel st. induction s as [s IH] using list_ind_len. intros fuel st Hs Hp Hf. destruct fuel as [|fuel]; [lia|].
  destruct s as [|u s].
  { cbn. rewrite Hp, app_nil_r. done. }
  rewrite isWellFormed_cons in Hs. cbn [flat_map] in *. rewrite <- app_assoc. rewrite length_app in Hf.
  destruct (escapeOf (unitZ u)) as [e|] eqn:Ee.
  - destruct (escapeOf_none_surrogate u) as [Hh Hl]; [congruence|]. rewrite Hh, Hl in Hs.
    unfold escapeUnit at 1. rewrite Ee. cbn [default]. rewrite (parseString_escape fuel u e) by done.
    pose proof (escapeUnit_length u). rewrite IH; [|simpl; lia|done|done|lia]. cbn. by rewrite <- !app_assoc.
  - rewrite escapeUnit_plain in * by done. destruct (escapeOf_None _ Ee) as (H1 & H2 & H3). cbn [app parseStringLoop].
    rewrite (proj2 (Z.eqb_neq _ _) H1), (proj2 (Z.eqb_neq _ _) H2), (proj2 (Z.ltb_ge _ _) H3), Hp. cbn [negb].
    destruct (isHighSurrogate u) eqn:Eh.
    + destruct s as [|next s]; [done|]. apply andb_true_iff in Hs as [Hl Hs].
      cbn [flat_map]. rewrite (escapeUnit_surrogate next) by auto. cbn [app]. rewrite Hl.
      cbn [flat_map] in Hf. rewrite (escapeUnit_surrogate next) in Hf by auto. simpl in Hf.
      rewrite IH; [|simpl; lia|done|done|lia]. cbn. by rewrite <- !app_assoc.
    + apply andb_true_iff in Hs as [Hl%negb_true_iff Hs]. rewrite Hl. simpl in Hf.
      rewrite IH; [|simpl; lia|done|done|lia]. cbn. by rewrite <- !app_assoc.
Qed.

Lemma parseString_quoted s rest :
  isWellFormed s = true -> parseString total (flat_map escapeUnit s ++ quote ++ rest) = Ok (s, rest).
Proof. intros Hs. unfold parseString. rewrite parseString_escaped; [done..|]. rewrite length_app. lia. Qed.

(** ** Numbers *)

(** What may follow a number. *)
Definition endsNumber (rest : jsstr) : Prop :=
  forall u r, rest = u :: r -> isDigit u = false /\ isUnit point u = false /\ isE u = false.

Lemma scanDigits_app ds r :
  alldigits ds -> ds <> [] -> (forall u r', r = u :: r' -> isDigit u = false) -> scanDigits total (ds ++ r) = Ok (ds, r).
Proof. intros Hds Hne Hr. unfold scanDigits. rewrite spanDigits_app by done. by destruct ds. Qed.

Lemma scanExponent_print ex rest :
  (forall x, ex = Some x -> exists c ds, x = c :: ds /\ isSign c = true /\ alldigits ds /\ ds <> []) -> endsNumber rest ->
  let t := match ex with None => [] | Some x => js "e" ++ x end in scanExponent total (t ++ rest) = Ok (t, rest).
Proof.
  intros Hx Hr. destruct ex as [x|]; cbn zeta.
  - destruct (Hx x eq_refl) as (c & ds & -> & Hc & Hds & Hne). cbn -[scanDigits]. rewrite Hc.
    rewrite scanDigits_app; [done|done|done|]. intros u r' E. by apply (Hr u r').
  - destruct rest as [|u r]; [done|]. destruct (Hr u r eq_refl) as (_ & _ & He). simpl. by rewrite He.
Qed.

Lemma scanFraction_print frac rest :
  alldigits frac -> (forall u r, rest = u :: r -> isDigit u = false /\ isUnit point u = false) ->
  let t := if bool_decide (frac = []) then [] else js "." ++ frac in scanFraction total (t ++ rest) = Ok (t, rest).
Proof.
  intros Hf Hr. case_bool_decide as Ef; cbn zeta.
  - destruct rest as [|u r]; [done|]. destruct (Hr u r eq_refl) as [_ Hp]. simpl. by rewrite Hp.
  - cbn -[scanDigits]. rewrite scanDigits_app; [done|done|done|]. intros u r E. by apply (Hr u r).
Qed.

Lemma scanInteger_print int rest :
  alldigits int -> int = js "0" \/ (exists u r, int = u :: r /\ unitZ u <> 48) ->
  (forall u r, rest = u :: r -> isDigit u = false) -> scanInteger total (int ++ rest) = Ok (int, rest).
Proof.
  intros Hi [->|(u & r & -> & Hu)] Hr; [done|]. change ((u :: r) ++ rest) with (u :: (r ++ rest)). unfold scanInteger.
  unfold isUnit. rewrite (proj2 (Z.eqb_neq _ _) Hu). rewrite app_comm_cons. by apply scanDigits_app.
Qed.

Lemma stripLeadingZeros_spec s : alldigits s -> alldigits (stripLeadingZeros s) /\ (length (stripLeadingZeros s) <= length s)%nat.
Proof.
  induction 1 as [|u s Hu Hs [IH IH']]; simpl; [split; [constructor|lia]|]. case_match; [split; [done|lia]|].
  split; [by constructor|simpl; lia].
Qed.

Lemma bigIntOf_bound s : alldigits s -> bigIntOf s < 10 ^ js_length s.
Proof.
  intros H. unfold bigIntOf. replace (js_length s) with (js_length (digitVal <$> s)) by (unfold js_length; by rewrite length_fmap).
  apply ofDigits_bounds. apply Forall_fmap. eapply Forall_impl; [exact H|]. intros u. apply isDigit_spec.
Qed.

Lemma small_exponent_bounded d : smallExponent d -> is_Some (parseBoundedDecimalExponent (tok_exp d)).
Proof.
  intros Hd. unfold parseBoundedDecimalExponent. destruct (tok_exp d) as [x|] eqn:Ex; [|eauto].
  destruct (Hd x Ex) as (c & j & -> & Hc & Hj). rewrite Hc. cbn zeta.
  destruct (stripLeadingZeros_spec (decimal j) (decimal_digits j ltac:(lia))) as [Hs Hl].
  pose proof (decimal_length_mono j 1101 Hj) as Hm. change (js_length (decimal 1101)) with 4 in Hm.
  pose proof (bigIntOf_bound _ Hs) as Hb. set (t := stripLeadingZeros (decimal j)) in *.
  assert (js_length t <= 4) by (unfold js_length in *; lia).
  case_match; [eauto|]. rewrite (proj2 (Z.ltb_ge _ _)) by lia.
  assert (10 ^ js_length t <= 10 ^ 4) by (apply Z.pow_le_mono_r; lia). rewrite (proj2 (Z.ltb_ge _ _)) by lia. eauto.
Qed.

Lemma normalize_printed d : wfToken d -> smallExponent d -> is_Some (normalizeDecimalToken (printToken d)).
Proof.
  intros Hw Hs. unfold normalizeDecimalToken. rewrite matchDecimal_print by done. cbn [mbind option_bind].
  case_match; [eauto|]. destruct (small_exponent_bounded d Hs) as [x ->]. cbn [mbind option_bind].
  destruct (stripTrailingZeros _ _). eauto.
Qed.

Lemma numberText_dropNegZero n : numberText (dropNegZero n) = numberText n.
Proof. destruct n as [| |neg m e]; [done|done|]. cbn [dropNegZero]. destruct (Z.eqb_spec m 0); by subst. Qed.

(** The text of a number reads back as the number. *)
Lemma parseNumber_text n rest :
  validNumber n -> isFinite n = true -> endsNumber rest ->
  parseNumber total (numberText n ++ rest) = Ok (dropNegZero n, rest).
Proof.
  intros Hv Hf Hr. destruct (numberText_spec n Hv Hf) as (d & Et & Hw & Hs & Hn).
  pose proof Hw as [Hi Hh Hfr Hx]. pose proof (normalize_printed d Hw Hs) as [nd Hnd]. rewrite <- Et in Hnd.
  unfold parseNumber.
  set (fr := if bool_decide (tok_frac d = []) then [] else js "." ++ tok_frac d).
  set (ex := match tok_exp d with None => [] | Some x => js "e" ++ x end).
  replace (match numberText n ++ rest with [] => _ | _ :: _ => _ end)
    with (if tok_neg d then js "-" else [], tok_int d ++ fr ++ ex ++ rest).
  2:{ rewrite Et. unfold printToken. fold fr ex. rewrite <- !app_assoc. destruct (tok_neg d); [done|]. cbn [app].
      destruct Hh as [->|(u & r & E & _)]; [done|]. rewrite E in *. apply Forall_cons in Hi as [Hu _].
      cbn [app]. by rewrite (proj1 (digit_not_special u Hu)). }
  assert (forall u r, ex ++ rest = u :: r -> isDigit u = false /\ isUnit point u = false) as Hex.
  { intros u r. subst ex. destruct (tok_exp d); cbn; [intros [= <- _]; done|]. intros E. destruct (Hr u r E) as (? & ? & _). done. }
  assert (forall u r, fr ++ ex ++ rest = u :: r -> isDigit u = false) as Hfx.
  { intros u r. subst fr. case_bool_decide; cbn; [intros E; by apply (Hex u r)|]. intros [= <- _]. done. }
  rewrite scanInteger_print by done. cbn [result_bind].
  rewrite (scanFraction_print (tok_frac d) (ex ++ rest) Hfr Hex : scanFraction total (fr ++ ex ++ rest) = _). cbn [result_bind].
  rewrite (scanExponent_print (tok_exp d) rest Hx Hr : scanExponent total (ex ++ rest) = _). cbn [result_bind].
  replace (_ ++ tok_int d ++ fr ++ ex) with (numberText n) by (rewrite Et; done).
  rewrite Hn. assert (isFinite (dropNegZero n) = true) as ->.
  { destruct n as [| |neg m e]; [done|done|]. simpl. by destruct (m =? 0). }
  rewrite numberText_dropNegZero. unfold sameExactDecimalValue. rewrite Hnd. by rewrite bool_decide_eq_true_2.
Qed.

(** ** Values *)

(** How the text of a value begins. *)
Definition startsValue (u : codeUnit) : bool :=
  isUnit 0x22 u || isUnit 0x7b u || isUnit 0x5b u || isUnit 0x74 u || isUnit 0x66 u || isUnit 0x6e u || isUnit minus u || isDigit u.

Lemma canonText_head v :
  wfJson v -> encodable v = true -> exists u t, canonText v = u :: t /\ startsValue u = true.
Proof.
  intros Hw He. destruct v as [|b|n|s|items|fields].
  - by eexists _, _.
  - destruct b; by eexists _, _.
  - simpl in Hw, He. destruct (numberText_spec n Hw He) as (d & E & [Hi Hh _ _] & _). cbn [canonText]. rewrite E.
    unfold printToken. destruct (tok_neg d); [by eexists _, _|]. destruct Hh as [->|(u & r & Ei & _)]; [by eexists _, _|].
    rewrite Ei in *. apply Forall_cons in Hi as [Hu _]. eexists _, _. split; [done|]. unfold startsValue. rewrite Hu. apply orb_true_r.
  - by eexists _, _.
  - by eexists _, _.
  - by eexists _, _.
Qed.

Lemma skipWhitespace_stop u r : 0x20 < unitZ u -> skipWhitespace (u :: r) = u :: r.
Proof. intros Hu. simpl. unfold isUnit. by rewrite !(proj2 (Z.eqb_neq _ _)) by lia. Qed.

Lemma startsValue_spec u : startsValue u = true -> 0x20 < unitZ u /\ unitZ u <> 0x5d /\ unitZ u <> 0x7d /\ unitZ u <> 0xfeff.
Proof.
  unfold startsValue, isUnit, isDigit, minus. rewrite !orb_true_iff, andb_true_iff, !Z.eqb_eq, !Z.leb_le. lia.
Qed.

(** The parser reads the text of [v] back. *)
Definition reads (v : Json) : Prop :=
  forall fuel depth rest, (2 * length (canonText v) <= fuel)%nat -> depth + jsonDepth v <= depthLimit -> endsNumber rest ->
    parseValue total depthLimit fuel depth (canonText v ++ rest) = Ok (normal v, rest).

Lemma reads_number n : validNumber n -> isFinite n = true -> reads (JNumber n).
Proof.
  intros Hv Hf fuel depth rest Hfuel Hd Hr.
  destruct (canonText_head (JNumber n) Hv Hf) as (u & t & E & Hu).
  pose proof (parseNumber_text n rest Hv Hf Hr) as Hp. cbn [canonText normal jsonDepth] in *. rewrite E in *.
  destruct fuel as [|fuel]; [simpl in Hfuel; lia|]. cbn [app parseValue]. rewrite (proj2 (Z.ltb_ge _ _)) by lia.
  assert (isUnit minus u || isDigit u = true) as Hnum.
  { destruct (numberText_spec n Hv Hf) as (d & E' & [Hi Hh _ _] & _). rewrite E' in E. unfold printToken in E.
    destruct (tok_neg d); [injection E as <- _; done|]. destruct Hh as [Eh|(u' & r & Eh & _)]; rewrite Eh in *; [injection E as <- _; done|].
    apply Forall_cons in Hi as [Hi _]. injection E as <- _. by rewrite Hi, orb_true_r. }
  rewrite Hnum. assert (unitZ u = 45 \/ 48 <= unitZ u <= 57) as Hz.
  { revert Hnum. unfold isUnit, isDigit, minus. rewrite orb_true_iff, andb_true_iff, Z.eqb_eq, !Z.leb_le. lia. }
  unfold isUnit. rewrite !(proj2 (Z.eqb_neq (unitZ u) _)) by lia. cbn [app] in Hp. by rewrite Hp.
Qed.

Lemma reads_string s : isWellFormed s = true -> reads (JString s).
Proof.
  intros Hs fuel depth rest Hfuel Hd _. destruct fuel as [|fuel]; [cbn in Hfuel; lia|]. cbn [jsonDepth] in Hd.
  cbn [canonText]. unfold quoted. rewrite <- !app_assoc. cbn [app quote parseValue].
  rewrite (proj2 (Z.ltb_ge _ _)) by lia. change (isUnit 34 (fromCharCode 34)) with true. cbn match.
  change (fromCharCode 34 :: rest) with (quote ++ rest). by rewrite parseString_quoted.
Qed.

Lemma separated_more {A} (f : A -> jsstr) x y l :
  separated (map f (x :: y :: l)) = f x ++ js "," ++ separated (map f (y :: l)).
Proof. done. Qed.

Lemma parseElements_texts items acc fuel depth rest :
  items <> [] -> Forall (fun v => reads v /\ (exists u t, canonText v = u :: t /\ startsValue u = true) /\ depth + jsonDepth v <= depthLimit) items ->
  (2 * (length (separated (map canonText items)) + 1) <= fuel)%nat ->
  parseElements total depthLimit fuel depth acc (separated (map canonText items) ++ js "]" ++ rest) =
  Ok (JArray (acc ++ map normal items), rest).
Proof.
  revert acc fuel. induction items as [|v items IH]; intros acc fuel Hne Hall Hfuel; [done|].
  apply Forall_cons in Hall as [(Hv & _ & Hd) Hall]. destruct fuel as [|fuel]; [lia|].
  destruct items as [|v' items].
  - cbn [map separated] in *. cbn [parseElements]. rewrite Hv; [|lia|done|intros u r [= <- _]; done]. cbn [result_bind].
    change (skipWhitespace (js "]" ++ rest)) with (js "]" ++ rest). done.
  - rewrite separated_more in Hfuel |- *. rewrite !length_app in Hfuel.
    change (length (js ",")) with 1%nat in Hfuel. rewrite <- !app_assoc. cbn [parseElements]. rewrite Hv; [|lia|done|intros u r [= <- _]; done]. cbn [result_bind].
    pose proof Hall as Hall'. apply Forall_cons in Hall' as [(_ & (u & t & Eu & Hu) & _) _].
    set (tail := separated (map canonText (v' :: items)) ++ js "]" ++ rest) in *.
    assert (skipWhitespace tail = tail) as Hskip.
    { subst tail. rewrite map_cons, separated_cons, Eu, <- !app_assoc. cbn [app]. apply skipWhitespace_stop. by apply startsValue_spec in Hu as [? _]. }
    change (skipWhitespace (js "," ++ tail)) with (js "," ++ tail). change (consume 93 (js "," ++ tail)) with (@None jsstr).
    change (expect total 44 (js "," ++ tail)) with (@Ok CanonicalJsonError _ tail). cbn [result_bind]. rewrite Hskip. subst tail.
    rewrite IH; [|done|done|lia]. by rewrite <- app_assoc.
Qed.

Lemma skip_value v rest :
  (exists u t, canonText v = u :: t /\ startsValue u = true) -> skipWhitespace (canonText v ++ rest) = canonText v ++ rest.
Proof. intros (u & t & -> & Hu). apply skipWhitespace_stop. by apply startsValue_spec in Hu as [? _]. Qed.

Definition fieldText (f : jsstr * Json) : jsstr := memberText (f.1, canonText f.2).

Definition normalField (f : jsstr * Json) : jsstr * Json := (f.1, normal f.2).

(** One field, up to what follows its value. *)
Lemma parseMembers_step f acc fuel depth rest :
  isWellFormed f.1 = true -> f.1 ∉ acc.*1 -> reads f.2 ->
  (exists u t, canonText f.2 = u :: t /\ startsValue u = true) -> depth + jsonDepth f.2 <= depthLimit ->
  endsNumber rest -> (2 * length (fieldText f) <= fuel)%nat ->
  parseMembers total depthLimit (S fuel) depth acc (fieldText f ++ rest) =
  let r := skipWhitespace rest in
  match consume 0x7d r with
  | Some r' => Ok (JObject (acc ++ [normalField f]), r')
  | None => let* r := expect total 0x2c r in parseMembers total depthLimit fuel depth (acc ++ [normalField f]) (skipWhitespace r)
  end.
Proof.
  destruct f as [k x]. cbn [fst snd]. intros Hk Hfresh Hx Hhead Hd Hr Hf. unfold fieldText, memberText in *. cbn [fst snd] in *.
  rewrite !length_app in Hf. unfold quoted in *. rewrite <- !app_assoc. cbn [parseMembers].
  change (consume 34 (quote ++ ?t)) with (Some t). cbn match. rewrite parseString_quoted by done. cbn [result_bind].
  rewrite bool_decide_eq_false_2 by done. change (skipWhitespace (js ":" ++ ?t)) with (js ":" ++ t).
  change (expect total 58 (js ":" ++ ?t)) with (@Ok CanonicalJsonError _ t). cbn [result_bind]. rewrite skip_value by done.
  rewrite Hx; [done|lia|done|done].
Qed.

Lemma parseMembers_texts fields acc fuel depth rest :
  fields <> [] -> NoDup (acc.*1 ++ fields.*1) ->
  Forall (fun f => isWellFormed f.1 = true /\ reads f.2 /\ (exists u t, canonText f.2 = u :: t /\ startsValue u = true) /\
                   depth + jsonDepth f.2 <= depthLimit) fields ->
  (2 * (length (separated (map fieldText fields)) + 1) <= fuel)%nat ->
  parseMembers total depthLimit fuel depth acc (separated (map fieldText fields) ++ js "}" ++ rest) =
  Ok (JObject (acc ++ map normalField fields), rest).
Proof.
  revert acc fuel. induction fields as [|f fields IH]; intros acc fuel Hne Hnd Hall Hfuel; [done|].
  apply Forall_cons in Hall as [(Hk & Hv & Hh & Hd) Hall]. destruct fuel as [|fuel]; [lia|].
  assert (f.1 ∉ acc.*1) as Hfresh.
  { apply NoDup_app in Hnd as (_ & Hdis & _). intros Hin. apply (Hdis _ Hin). csimpl. left. }
  destruct fields as [|f' fields].
  - cbn [map separated] in *. rewrite parseMembers_step; [|done..|intros u r [= <- _]; done|lia].
    change (skipWhitespace (js "}" ++ rest)) with (js "}" ++ rest). done.
  - rewrite separated_more in Hfuel |- *. rewrite !length_app in Hfuel.
    change (length (js ",")) with 1%nat in Hfuel. rewrite <- !app_assoc.
    rewrite parseMembers_step; [|done..|intros u r [= <- _]; done|lia]. cbn zeta.
    set (tail := separated (map fieldText (f' :: fields)) ++ js "}" ++ rest) in *.
    assert (skipWhitespace tail = tail) as Hskip by (subst tail; by rewrite map_cons, separated_cons, <- !app_assoc).
    change (skipWhitespace (js "," ++ tail)) with (js "," ++ tail). change (consume 125 (js "," ++ tail)) with (@None jsstr).
    change (expect total 44 (js "," ++ tail)) with (@Ok CanonicalJsonError _ tail). cbn [result_bind]. rewrite Hskip. subst tail.
    rewrite IH; [by rewrite <- app_assoc|done| |done|lia].
    rewrite fmap_app. csimpl. rewrite <- app_assoc. done.
Qed.

Lemma maxOf_elem {A} (f : A -> Z) l x : x ∈ l -> f x <= maxOf (map f l).
Proof.
  unfold maxOf. induction l as [|y l IH]; [by rewrite elem_of_nil|].
  rewrite elem_of_cons. intros [->|Hx]; cbn [map foldr]; [apply Z.le_max_l|].
  etrans; [by apply IH|]. apply Z.le_max_r.
Qed.

Lemma maxOf_nonneg l : 0 <= maxOf l.
Proof. unfold maxOf. induction l; simpl; lia. Qed.

Lemma reads_array items :
  Forall (fun v => reads v /\ exists u t, canonText v = u :: t /\ startsValue u = true) items -> reads (JArray items).
Proof.
  intros Hall fuel depth rest Hfuel Hd Hr. cbn [jsonDepth canonText normal] in *. rewrite !length_app in Hfuel.
  change (length (js "[")) with 1%nat in Hfuel. change (length (js "]")) with 1%nat in Hfuel.
  pose proof (maxOf_nonneg (map jsonDepth items)). destruct fuel as [|fuel]; [lia|]. rewrite <- !app_assoc.
  set (body := separated (map canonText items) ++ js "]" ++ rest).
  change (js "[" ++ body) with (fromCharCode 91 :: body). cbn [parseValue].
  rewrite !(proj2 (Z.ltb_ge _ _)) by lia. change (isUnit 34 (fromCharCode 91)) with false.
  change (isUnit 123 (fromCharCode 91)) with false. change (isUnit 91 (fromCharCode 91)) with true. cbn match.
  destruct items as [|v items]; [done|].
  apply Forall_cons in Hall as Hv. destruct Hv as [[_ (u & t & Eu & Hu)] _]. pose proof (startsValue_spec u Hu) as (H1 & H2 & _).
  assert (skipWhitespace body = body /\ consume 93 body = None) as [-> ->].
  { subst body. rewrite map_cons, separated_cons, Eu, <- !app_assoc. cbn [app]. split; [by apply skipWhitespace_stop|].
    simpl. unfold isUnit. by rewrite (proj2 (Z.eqb_neq _ _)). }
  subst body. rewrite parseElements_texts; [done|done| |lia]. apply Forall_forall. intros x Hx.
  rewrite Forall_forall in Hall. destruct (Hall x Hx) as [? ?]. split_and!; [done|done|].
  pose proof (maxOf_elem jsonDepth _ _ Hx). lia.
Qed.

Lemma reads_object fields :
  NoDup fields.*1 ->
  Forall (fun f => isWellFormed f.1 = true /\ reads f.2 /\ exists u t, canonText f.2 = u :: t /\ startsValue u = true) fields ->
  reads (JObject fields).
Proof.
  intros Hnd Hall fuel depth rest Hfuel Hd Hr. rewrite canonText_object in *. cbn [jsonDepth normal] in *.
  rewrite (sort_values normal). set (sorted := js_sort compareKeys fields) in *.
  assert (sorted ≡ₚ fields) as Hp by apply sort_perm. rewrite <- Hp in Hnd. 
  rewrite !length_app in Hfuel. change (length (js "{")) with 1%nat in Hfuel. change (length (js "}")) with 1%nat in Hfuel.
  set (d := fun '(_, x) => jsonDepth x) in Hd. pose proof (maxOf_nonneg (map d fields)).
  destruct fuel as [|fuel]; [lia|]. rewrite <- !app_assoc.
  set (body := separated _ ++ js "}" ++ rest). change (js "{" ++ body) with (fromCharCode 123 :: body). cbn [parseValue].
  rewrite !(proj2 (Z.ltb_ge _ _)) by lia. change (isUnit 34 (fromCharCode 123)) with false.
  change (isUnit 123 (fromCharCode 123)) with true. cbn match.
  assert (Forall (fun f => isWellFormed f.1 = true /\ reads f.2 /\ (exists u t, canonText f.2 = u :: t /\ startsValue u = true) /\
                   depth + 1 + jsonDepth f.2 <= depthLimit) sorted) as Hall'.
  { apply Forall_forall. intros [k x] Hx. rewrite Hp in Hx. rewrite Forall_forall in Hall. destruct (Hall _ Hx) as (? & ? & ?).
    split_and!; [done..|]. pose proof (maxOf_elem d _ _ Hx) as Hm. simpl in *. lia. }
  clearbody sorted. clear Hall Hp. destruct sorted as [|f sorted]; [done|].
  assert (skipWhitespace body = body /\ consume 125 body = None) as [-> ->]
    by (subst body; by rewrite map_cons, separated_cons, <- !app_assoc).
  subst body. rewrite (parseMembers_texts (f :: sorted) []); [|done|done|done|unfold fieldText; lia].
  do 3 f_equal. apply map_ext. by intros [k x].
Qed.

Lemma reads_literal t v :
  canonText v = t -> normal v = v -> jsonDepth v = 0 ->
  (forall fuel depth rest, depth <= depthLimit -> parseValue total depthLimit (S fuel) depth (t ++ rest) = Ok (v, rest)) ->
  (1 <= length t)%nat -> reads v.
Proof. intros <- Hn Hj H Hl fuel depth rest Hf Hd _. destruct fuel as [|fuel]; [lia|]. rewrite Hn, H; [done|lia]. Qed.

Lemma parse_literals fuel depth rest :
  depth <= depthLimit ->
  parseValue total depthLimit (S fuel) depth (js "null" ++ rest) = Ok (JNull, rest) /\
  parseValue total depthLimit (S fuel) depth (js "true" ++ rest) = Ok (JBool true, rest) /\
  parseValue total depthLimit (S fuel) depth (js "false" ++ rest) = Ok (JBool false, rest).
Proof. intros Hd. cbn [parseValue]. by rewrite (proj2 (Z.ltb_ge _ _)). Qed.

Lemma encodable_reads v : wfJson v -> encodable v = true -> reads v.
Proof.
  induction v as [|b|n|s|items IH|fields IH] using Json_ind; intros Hw He.
  - apply (reads_literal (js "null")); [done..| |simpl; lia]. intros. by apply parse_literals.
  - apply (reads_literal (if b then js "true" else js "false")); [done..| |destruct b; simpl; lia].
    intros. destruct b; by apply parse_literals.
  - by apply reads_number.
  - by apply reads_string.
  - apply reads_array. apply wfJson_array in Hw. simpl in He. rewrite forallb_forall in He. rewrite Forall_forall in *.
    intros x Hx. specialize (He x (proj1 (list_elem_of_In _ _) Hx)). split; [by apply IH; auto|]. apply canonText_head; auto.
  - apply wfJson_object in Hw as [Hnd Hw]. apply reads_object; [done|]. simpl in He. rewrite forallb_forall in He.
    rewrite Forall_forall in *. intros [k x] Hx. specialize (He _ (proj1 (list_elem_of_In _ _) Hx)). simpl in He.
    apply andb_true_iff in He as [Hk He]. specialize (Hw _ Hx). split_and!; [done|by apply (IH _ Hx)|by apply canonText_head].
Qed.

End Parsing.

(** ** What the parser returns *)

(** A result with a property, or an error of the code; running out of fuel is
    not one. *)
Definition outcome {A} (R : A -> Prop) (x : jresult A) : Prop :=
  match x with
  | Ok a => R a
  | Err (EAt OutOfFuel _) => False
  | Err _ => True
  end.

Lemma outcome_bind {A B} (R : A -> Prop) (S : B -> Prop) x (k : A -> jresult B) :
  outcome R x -> (forall a, R a -> outcome S (k a)) -> outcome S (let* a := x in k a).
Proof. destruct x as [a|[]]; simpl; auto. Qed.

Lemma outcome_impl {A} (R S : A -> Prop) x : outcome R x -> (forall a, R a -> S a) -> outcome S x.
Proof. destruct x as [a|[]]; simpl; auto. Qed.

Section Sound.
Context (total depthLimit : Z).

Abbreviation shorter r rest := (length r < length rest)%nat.

Definition goodString (st : stringState) : Prop :=
  isWellFormed (ss_parts st) = true /\ isWellFormed (ss_raw st) = true /\
  forall h, ss_pending st = Some h -> isHighSurrogate h = true.

Lemma good_flush st : goodString st -> goodString (flushPart st).
Proof. intros (H1 & H2 & H3). split_and!; [simpl; by rewrite isWellFormed_app|done|done]. Qed.

Lemma wellFormed_unit u : isHighSurrogate u = false -> isLowSurrogate u = false -> isWellFormed [u] = true.
Proof. intros H1 H2. by rewrite isWellFormed_cons, H1, H2. Qed.

Lemma wellFormed_pair u v : isHighSurrogate u = true -> isLowSurrogate v = true -> isWellFormed [u; v] = true.
Proof. intros H1 H2. by rewrite isWellFormed_cons, H1, H2. Qed.

Lemma appendCodeUnit_good u rest st : goodString st -> outcome goodString (appendCodeUnit total u rest st).
Proof.
  intros (H1 & H2 & H3). unfold appendCodeUnit. destruct (ss_pending st) as [h|] eqn:Ep.
  - destruct (isLowSurrogate u) eqn:El; simpl; [|done]. split_and!; [|done|done]. simpl.
    rewrite isWellFormed_app by done. apply wellFormed_pair; auto.
  - destruct (isHighSurrogate u) eqn:Eh; simpl; [split_and!; [done..|]; by intros h [= <-]|].
    destruct (isLowSurrogate u) eqn:El; simpl; [done|]. split_and!; [|done|done]. simpl.
    rewrite isWellFormed_app by done. by apply wellFormed_unit.
Qed.

Lemma hexEscape_shorter rest : outcome (fun x => shorter x.2 rest) (parseEscapedHexCodeUnit total rest).
Proof.
  unfold parseEscapedHexCodeUnit. destruct (Z.ltb_spec (js_length rest) 4); [done|].
  apply (outcome_bind (fun _ => True)).
  - generalize (take 4 rest) 0. intros units. induction units as [|u units IH]; intros v; simpl; [done|]. case_match; [done|]. apply IH.
  - intros v _. simpl. rewrite length_drop. unfold js_length in *. lia.
Qed.

Lemma parseString_sound fuel rest st :
  goodString st -> (length rest < fuel)%nat ->
  outcome (fun x => isWellFormed x.1 = true /\ shorter x.2 rest) (parseStringLoop total fuel rest st).
Proof.
  revert rest st. induction fuel as [|fuel IH]; intros rest st Hst Hf; [lia|]. destruct rest as [|u r]; [done|].
  assert (forall r' st', goodString st' -> (length r' <= length r)%nat ->
    outcome (fun x => isWellFormed x.1 = true /\ shorter x.2 (u :: r)) (parseStringLoop total fuel r' st')) as Hnext.
  { intros r' st' Hst' Hl. eapply outcome_impl; [apply IH; [done|simpl in Hf; lia]|]. intros x [? ?]. split; [done|simpl; lia]. }
  pose proof (good_flush st Hst) as Hfl. pose proof Hst as (H1 & H2 & H3).
  cbn [parseStringLoop]. destruct (unitZ u =? 34).
  { destruct (ss_pending st); [done|]. split; [apply Hfl|simpl; lia]. }
  destruct (unitZ u <? 32); [done|]. destruct (unitZ u =? 92) eqn:E5; cbn [negb].
  - destruct r as [|x r]; [done|]. destruct (simpleEscape (unitZ x)).
    + eapply outcome_bind; [by apply appendCodeUnit_good|]. intros st' Hst'. apply Hnext; [done|simpl; lia].
    + destruct (unitZ x =? 117); [|done]. eapply outcome_bind; [apply hexEscape_shorter|]. intros [v r''] Hr. simpl in Hr.
      eapply outcome_bind; [by apply appendCodeUnit_good|]. intros st' Hst'. apply Hnext; [done|simpl; lia].
  - destruct (ss_pending st) as [h|] eqn:Ep.
    + eapply outcome_bind; [by apply appendCodeUnit_good|]. intros st' Hst'. by apply Hnext.
    + assert (forall l, isWellFormed l = true -> goodString (addRaw l st)) as Hadd.
      { intros l Hl. split_and!; simpl; [done|by rewrite isWellFormed_app|]. intros h. by rewrite Ep. }
      assert (isHighSurrogate u = true -> goodString {| ss_parts := ss_parts (flushPart st); ss_raw := []; ss_pending := Some u |}) as Hpend.
      { intros Eh. split_and!; [apply Hfl|done|]. by intros h [= <-]. }
      destruct (isHighSurrogate u) eqn:Eh; [|destruct (isLowSurrogate u) eqn:El; [done|]; apply Hnext; [by apply Hadd, wellFormed_unit|done]].
      destruct r as [|next r]; [apply Hnext; auto|]. destruct (isLowSurrogate next) eqn:El; [|apply Hnext; auto].
      apply Hnext; [by apply Hadd, wellFormed_pair|simpl; lia].
Qed.

Abbreviation within r rest := (length r <= length rest)%nat.

Lemma scanDigits_shorter rest : outcome (fun x => shorter x.2 rest) (scanDigits total rest).
Proof.
  unfold scanDigits. pose proof (spanDigits_spec rest) as H. destruct (spanDigits rest) as [[|d ds] r]; [done|].
  destruct H as [-> _]. simpl. rewrite length_app. lia.
Qed.

Lemma scanInteger_shorter rest : outcome (fun x => shorter x.2 rest) (scanInteger total rest).
Proof. unfold scanInteger. destruct rest as [|u r]; [done|]. case_match; [simpl; lia|]. apply scanDigits_shorter. Qed.

Lemma scanFraction_within rest : outcome (fun x => within x.2 rest) (scanFraction total rest).
Proof.
  unfold scanFraction. destruct rest as [|u r]; [simpl; lia|]. destruct (isUnit point u); [|simpl; lia].
  eapply outcome_bind; [apply scanDigits_shorter|]. intros [ds r'] H'. simpl in *. lia.
Qed.

Lemma scanExponent_within rest : outcome (fun x => within x.2 rest) (scanExponent total rest).
Proof.
  unfold scanExponent. destruct rest as [|u r]; [simpl; lia|]. destruct (isE u); [|simpl; lia].
  assert (exists sign r1, match r with c :: r' => if isSign c then ([c], r') else ([], r) | [] => ([], r) end = (sign, r1) /\ within r1 r)
    as (sign & r1 & -> & Hr1).
  { destruct r as [|c r]; [eexists _, _; split; [done|lia]|]. case_match; eexists _, _; (split; [done|simpl; lia]). }
  eapply outcome_bind; [apply scanDigits_shorter|]. intros [ds r'] H'. simpl in *. lia.
Qed.

Lemma parseNumber_sound rest :
  outcome (fun x => validNumber x.1 /\ isFinite x.1 = true /\ shorter x.2 rest) (parseNumber total rest).
Proof.
  unfold parseNumber.
  assert (exists sign r1, match rest with u :: r => if isUnit minus u then ([u], r) else ([], rest) | [] => ([], rest) end = (sign, r1) /\ within r1 rest)
    as (sign & r1 & -> & Hr1).
  { destruct rest as [|c r]; [eexists _, _; split; [done|lia]|]. case_match; eexists _, _; (split; [done|simpl; lia]). }
  eapply outcome_bind; [apply scanInteger_shorter|]. intros [int r2] H2. simpl in H2.
  eapply outcome_bind; [apply scanFraction_within|]. intros [frac r3] H3. simpl in H3.
  eapply outcome_bind; [apply scanExponent_within|]. intros [ex r4] H4. simpl in H4.
  cbn zeta. set (x := Number _). pose proof (Number_valid _ : validNumber x) as Hx.
  destruct (isFinite x) eqn:Ef; cbn [negb]; [|done]. case_match; [done|]. simpl. split_and!; [done|done|lia].
Qed.

Lemma skipWhitespace_within rest : within (skipWhitespace rest) rest.
Proof. induction rest as [|u r IH]; simpl; [lia|]. case_match; simpl; lia. Qed.

Lemma consume_shorter c rest r : consume c rest = Some r -> shorter r rest.
Proof. unfold consume. destruct rest as [|u t]; [done|]. case_match; [|done]. intros [= ->]. simpl. lia. Qed.

Lemma expect_shorter c rest : outcome (fun r => shorter r rest) (expect total c rest).
Proof. unfold expect. destruct (consume c rest) eqn:E; [|done]. by apply consume_shorter in E. Qed.

Lemma parseLiteral_sound t v rest (R : Json -> Prop) :
  R v -> (1 <= length t)%nat -> outcome (fun x => R x.1 /\ shorter x.2 rest) (parseLiteral total t v rest).
Proof.
  intros Hv Hl. unfold parseLiteral. case_bool_decide as E; [|done]. split; [done|]. simpl. rewrite length_drop.
  apply (f_equal length) in E. rewrite length_take in E. lia.
Qed.

(** A value that the serializer accepts at a depth. *)
Definition good (depth : Z) (v : Json) : Prop := wfJson v /\ encodable v = true /\ depth + jsonDepth v <= depthLimit.

Lemma good_array depth items :
  depth + 1 <= depthLimit -> Forall (good (depth + 1)) items -> good depth (JArray items).
Proof.
  intros Hd Hall. unfold good in *. rewrite wfJson_array. split_and!.
  - eapply Forall_impl; [exact Hall|]. by intros x [? _].
  - simpl. apply forallb_forall. intros x Hx%list_elem_of_In. rewrite Forall_forall in Hall. by destruct (Hall x Hx) as (_ & ? & _).
  - cbn [jsonDepth]. rewrite <- Z.leb_le, <- depth_children, !andb_true_iff, !Z.leb_le, forallb_forall. split_and!; [lia|lia|].
    intros x Hx%list_elem_of_In. rewrite Forall_forall in Hall. destruct (Hall x Hx) as (_ & _ & ?). lia.
Qed.

Definition goodField (depth : Z) (f : jsstr * Json) : Prop := isWellFormed f.1 = true /\ good depth f.2.

Lemma good_object depth fields :
  depth + 1 <= depthLimit -> NoDup fields.*1 -> Forall (goodField (depth + 1)) fields -> good depth (JObject fields).
Proof.
  intros Hd Hnd Hall. unfold good, goodField in *. rewrite wfJson_object. rewrite Forall_forall in Hall. split_and!.
  - done.
  - apply Forall_forall. intros f Hf. by destruct (Hall f Hf) as (_ & ? & _).
  - simpl. apply forallb_forall. intros [k x] Hx%list_elem_of_In. destruct (Hall _ Hx) as (? & _ & ? & _). simpl in *. by apply andb_true_iff.
  - cbn [jsonDepth]. rewrite <- Z.leb_le, <- depth_children, !andb_true_iff, !Z.leb_le, forallb_forall. split_and!; [lia|lia|].
    intros [k x] Hx%list_elem_of_In. destruct (Hall _ Hx) as (_ & _ & _ & ?). simpl in *. lia.
Qed.

(** What the three functions guarantee with enough fuel. *)
Definition soundValue (fuel : nat) : Prop :=
  forall depth rest, (2 * length rest < fuel)%nat ->
    outcome (fun x => good depth x.1 /\ shorter x.2 rest) (parseValue total depthLimit fuel depth rest).

Definition soundMembers (fuel : nat) : Prop :=
  forall depth fields rest,
    depth + 1 <= depthLimit -> NoDup fields.*1 -> Forall (goodField (depth + 1)) fields -> (2 * length rest < fuel)%nat ->
    outcome (fun x => good depth x.1 /\ shorter x.2 rest) (parseMembers total depthLimit fuel (depth + 1) fields rest).

Definition soundElements (fuel : nat) : Prop :=
  forall depth items rest,
    depth + 1 <= depthLimit -> Forall (good (depth + 1)) items -> (2 * length rest + 1 < fuel)%nat ->
    outcome (fun x => good depth x.1 /\ shorter x.2 rest) (parseElements total depthLimit fuel (depth + 1) items rest).

Lemma elements_step fuel : soundValue fuel -> soundElements fuel -> soundElements (S fuel).
Proof.
  intros Hval Hrec depth items rest Hd Hall Hf. cbn [parseElements].
  eapply outcome_bind; [apply Hval; lia|]. intros [v r] [Hv Hr]. simpl in Hv, Hr. cbn zeta.
  pose proof (skipWhitespace_within r) as Hw. assert (Forall (good (depth + 1)) (items ++ [v])) as Hall'.
  { apply Forall_app. split; [done|]. by apply Forall_singleton. }
  destruct (consume 93 (skipWhitespace r)) as [r'|] eqn:Ec.
  - apply consume_shorter in Ec. split; [by apply good_array|simpl; lia].
  - eapply outcome_bind; [apply expect_shorter|]. intros r' Hr'. simpl in Hr'. pose proof (skipWhitespace_within r').
    eapply outcome_impl; [apply Hrec; [done|done|lia]|]. intros [w r''] [? ?]. simpl in *. split; [done|lia].
Qed.

Lemma members_step fuel : soundValue fuel -> soundMembers fuel -> soundMembers (S fuel).
Proof.
  intros Hval Hrec depth fields rest Hd Hnd Hall Hf. cbn [parseMembers].
  destruct (consume 34 rest) as [r0|] eqn:Eq; [|done]. apply consume_shorter in Eq.
  eapply outcome_bind; [apply (parseString_sound (S (length r0)) r0); [done|lia]|].
  intros [key r1] [Hkey Hr1]. simpl in Hkey, Hr1. case_bool_decide as Hdup; [done|].
  pose proof (skipWhitespace_within r1). eapply outcome_bind; [apply expect_shorter|]. intros r2 Hr2. simpl in Hr2.
  pose proof (skipWhitespace_within r2). eapply outcome_bind; [apply Hval; lia|]. intros [v r3] [Hv Hr3]. simpl in Hv, Hr3. cbn zeta.
  pose proof (skipWhitespace_within r3). assert (Forall (goodField (depth + 1)) (fields ++ [(key, v)])) as Hall'.
  { apply Forall_app. split; [done|]. by apply Forall_singleton. }
  assert (NoDup (fields ++ [(key, v)]).*1) as Hnd'.
  { rewrite fmap_app. apply NoDup_app. split_and!; [done| |apply NoDup_singleton]. intros k Hk ->%list_elem_of_singleton. done. }
  destruct (consume 125 (skipWhitespace r3)) as [r'|] eqn:Ec.
  - apply consume_shorter in Ec. split; [by apply good_object|simpl; lia].
  - eapply outcome_bind; [apply expect_shorter|]. intros r' Hr'. simpl in Hr'. pose proof (skipWhitespace_within r').
    eapply outcome_impl; [apply Hrec; [done..|lia]|]. intros [w r''] [? ?]. simpl in *. split; [done|lia].
Qed.

Lemma value_step fuel : soundMembers fuel -> soundElements fuel -> soundValue (S fuel).
Proof.
  intros Hmem Hel depth rest Hf. cbn [parseValue]. destruct (Z.ltb_spec depthLimit depth); [done|].
  destruct rest as [|u r]; [done|]. simpl in Hf. pose proof (skipWhitespace_within r).
  assert (forall v, wfJson v -> encodable v = true -> jsonDepth v = 0 -> good depth v) as Hleaf by (intros v ? ? E; split_and!; [done|done|rewrite E; lia]).
  destruct (isUnit 34 u).
  { eapply outcome_bind; [apply (parseString_sound (S (length r)) r); [done|lia]|]. intros [s r'] [? ?]. simpl in *.
    split; [by apply Hleaf|lia]. }
  destruct (isUnit 123 u).
  { destruct (Z.ltb_spec depthLimit (depth + 1)); [done|]. cbn zeta. destruct (consume 125 (skipWhitespace r)) as [r'|] eqn:Ec.
    - apply consume_shorter in Ec. split; [apply good_object; [lia|constructor..]|simpl; lia].
    - eapply outcome_impl; [apply Hmem; [lia|constructor..|lia]|]. intros [w r''] [? ?]. simpl in *. split; [done|lia]. }
  destruct (isUnit 91 u).
  { destruct (Z.ltb_spec depthLimit (depth + 1)); [done|]. cbn zeta. destruct (consume 93 (skipWhitespace r)) as [r'|] eqn:Ec.
    - apply consume_shorter in Ec. split; [apply good_array; [lia|constructor..]|simpl; lia].
    - eapply outcome_impl; [apply Hel; [lia|constructor..|lia]|]. intros [w r''] [? ?]. simpl in *. split; [done|lia]. }
  do 3 (case_match; [apply parseLiteral_sound; [by apply Hleaf|simpl; lia]|]).
  case_match; [|done]. eapply outcome_bind; [apply parseNumber_sound|]. intros [n r'] (? & ? & ?). simpl in *.
  split; [by apply Hleaf|lia].
Qed.

Lemma parse_sound fuel : soundValue fuel /\ soundMembers fuel /\ soundElements fuel.
Proof.
  induction fuel as [|fuel (Hv & Hm & He)].
  - split_and!; intros ?; intros; lia.
  - split_and!; [by apply value_step|by apply members_step|by apply elements_step].
Qed.

End Sound.

(** ** The codec *)

Lemma parse_outcome text depth : outcome (good depth 0) (parse (js_length text) depth text).
Proof.
  unfold parse. pose proof (skipWhitespace_within text). eapply outcome_bind; [apply parse_sound; lia|].
  intros [v r] [Hv _]. cbn zeta. case_bool_decide; [exact Hv|done].
Qed.

Lemma parse_canonText v depth :
  good depth 0 v -> parse (js_length (canonText v)) depth (canonText v) = Ok (normal v).
Proof.
  intros (Hw & He & Hd). unfold parse. pose proof (canonText_head v Hw He) as Hh.
  pose proof (skip_value v [] Hh) as Hs. rewrite app_nil_r in Hs. rewrite Hs.
  rewrite <- (app_nil_r (canonText v)) at 3. rewrite encodable_reads; [done|done|done|lia|done|done].
Qed.

(** *** Normal forms *)

Lemma sort_keys {A} (l : list (jsstr * A)) :
  NoDup l.*1 -> forall x y, x ∈ l -> y ∈ l -> compareKeys x y = 0 -> x = y.
Proof.
  intros Hnd x y Hx Hy E%compareKeys_eq. apply list_elem_of_lookup in Hx as [i Hi], Hy as [j Hj].
  assert (l.*1 !! i = Some x.1) as Hi' by by rewrite list_lookup_fmap, Hi.
  assert (l.*1 !! j = Some y.1) as Hj' by by rewrite list_lookup_fmap, Hj.
  rewrite <- E in Hj'. pose proof (NoDup_lookup _ _ _ _ Hnd Hi' Hj') as ->. congruence.
Qed.

Lemma sort_idempotent {A} (l : list (jsstr * A)) :
  NoDup l.*1 -> js_sort compareKeys (js_sort compareKeys l) = js_sort compareKeys l.
Proof.
  intros Hnd. apply (js_sort_unique compareKeys); [|apply sort_perm].
  apply sort_keys. by rewrite sort_perm.
Qed.

Lemma map_values_keys {A B} (h : A -> B) (l : list (jsstr * A)) : (map (fun '(k, x) => (k, h x)) l).*1 = l.*1.
Proof. induction l as [|[k x] l IH]; [done|]. csimpl. f_equal. exact IH. Qed.

Lemma normal_object fields : normal (JObject fields) = JObject (map (fun '(k, x) => (k, normal x)) (js_sort compareKeys fields)).
Proof. cbn [normal]. by rewrite sort_values. Qed.

Lemma canonText_normal v : wfJson v -> canonText (normal v) = canonText v.
Proof.
  induction v as [|b|n|s|items IH|fields IH] using Json_ind; intros Hw; [done..| | | |].
  - apply numberText_dropNegZero.
  - done.
  - apply wfJson_array in Hw. cbn [normal canonText]. rewrite map_map. do 3 f_equal. apply map_ext_in. intros x Hx%list_elem_of_In.
    rewrite Forall_forall in *. auto.
  - apply wfJson_object in Hw as [Hnd Hw]. rewrite normal_object, !canonText_object, sort_values, map_map.
    rewrite sort_idempotent by done. do 3 f_equal. apply map_ext_in. intros [k x] Hx%list_elem_of_In. rewrite sort_perm in Hx.
    rewrite Forall_forall in *. unfold memberText. cbn [fst snd]. do 2 f_equal. by apply (IH (k, x) Hx), (Hw (k, x) Hx).
Qed.

Lemma normal_good v depth limit : good limit depth v -> good limit depth (normal v).
Proof.
  revert depth. induction v as [|b|n|s|items IH|fields IH] using Json_ind; intros depth Hg; [done..| |done| |].
  - destruct Hg as (Hw & He & Hd). split_and!; [|by destruct n as [| |neg m e]; simpl; [..|case_match]|done].
    destruct n as [| |neg m e]; [done|done|]. simpl. case_match; [simpl; lia|exact Hw].
  - destruct Hg as (Hw & He & Hd). cbn [normal jsonDepth] in *. apply wfJson_array in Hw.
    rewrite <- Z.leb_le, <- depth_children, !andb_true_iff, !Z.leb_le, forallb_forall in Hd. destruct Hd as (_ & Hd & Hds).
    simpl in He. rewrite forallb_forall in He. apply good_array; [done|]. rewrite Forall_forall in *. intros y Hy.
    change (map normal items) with (normal <$> items) in Hy. apply list_elem_of_fmap in Hy as (x & -> & Hx). apply IH; [done|].
    specialize (Hds x (proj1 (list_elem_of_In _ _) Hx)). split_and!; [auto|by apply He, list_elem_of_In|lia].
  - destruct Hg as (Hw & He & Hd). rewrite normal_object. cbn [jsonDepth] in *. apply wfJson_object in Hw as [Hnd Hw].
    rewrite <- Z.leb_le, <- depth_children, !andb_true_iff, !Z.leb_le, forallb_forall in Hd. destruct Hd as (_ & Hd & Hds).
    simpl in He. rewrite forallb_forall in He. apply good_object; [done|rewrite map_values_keys; by rewrite sort_perm|].
    rewrite Forall_forall in *. intros y Hy. change (map ?f ?l) with (f <$> l) in Hy. apply list_elem_of_fmap in Hy as ([k x] & -> & Hx).
    rewrite sort_perm in Hx. specialize (Hds _ (proj1 (list_elem_of_In _ _) Hx)). specialize (He _ (proj1 (list_elem_of_In _ _) Hx)).
    simpl in He, Hds. apply andb_true_iff in He as [? ?]. split; [done|]. apply (IH _ Hx). specialize (Hw _ Hx). split_and!; [done|done|simpl; lia].
Qed.

Lemma normal_idempotent v : wfJson v -> normal (normal v) = normal v.
Proof.
  induction v as [|b|n|s|items IH|fields IH] using Json_ind; intros Hw; [done..| |done| |].
  - simpl. f_equal. destruct n as [| |neg m e]; [done|done|]. simpl. destruct (m =? 0) eqn:E; [done|]. simpl. by rewrite E.
  - apply wfJson_array in Hw. cbn [normal]. rewrite map_map. f_equal. apply map_ext_in. intros x Hx%list_elem_of_In.
    rewrite Forall_forall in *. auto.
  - apply wfJson_object in Hw as [Hnd Hw]. rewrite !normal_object, sort_values, sort_idempotent, map_map by done. f_equal.
    apply map_ext_in. intros [k x] Hx%list_elem_of_In. rewrite sort_perm in Hx. rewrite Forall_forall in *. f_equal.
    by apply (IH (k, x) Hx), (Hw (k, x) Hx).
Qed.

(** *** Theorems *)

Lemma wellFormed_canonText v bytes depth : wfJson v -> fits v bytes depth -> isWellFormed (canonText v) = true.
Proof.
  intros Hw (He & Hd & _). pose proof (encode_emits bytes depth v Hw 0) as H. unfold writable in H.
  rewrite He, Z.add_0_l, (proj2 (Z.leb_le _ _)) in H by done. by destruct H.
Qed.

Lemma parseJsonStrict_canonText v options bytes depth input :
  resolveLimits options = Ok (bytes, depth) -> wfJson v -> fits v bytes depth ->
  input = TextInput (canonText v) \/ input = BytesInput (encodeUtf8 (canonText v)) ->
  inputText input = Ok (canonText v) /\ parseJsonStrict input options = Ok (normal v).
Proof.
  intros Hl Hw Hfit Hin. pose proof (wellFormed_canonText v bytes depth Hw Hfit) as Hwf. destruct Hfit as (He & Hd & Hb).
  assert (inputText input = Ok (canonText v)) as Ht by (destruct Hin as [->| ->]; [done|simpl; by rewrite decode_encode]).
  split; [done|]. unfold parseJsonStrict. rewrite Hl. cbn [result_bind].
  replace (match input with TextInput text => _ | BytesInput b => _ end) with (js_length (encodeUtf8 (canonText v)))
    by (destruct Hin as [->| ->]; done).
  rewrite (proj2 (Z.ltb_ge _ _)), Ht by done. cbn [throw_if result_bind].
  rewrite parse_canonText by done. destruct (canonText_head v Hw He) as (u & t & -> & Hu).
  apply startsValue_spec in Hu as (_ & _ & _ & Hu). unfold isUnit. by rewrite (proj2 (Z.eqb_neq _ _)).
Qed.

Lemma parseJsonStrict_good input options v :
  parseJsonStrict input options = Ok v ->
  exists bytes depth, resolveLimits options = Ok (bytes, depth) /\ good depth 0 v.
Proof.
  unfold parseJsonStrict. intros H. apply result_bind_Ok in H as ([bytes depth] & Hl & H). exists bytes, depth. split; [done|].
  ok_inv. pose proof (parse_outcome x depth) as Ho. rewrite H in Ho. exact Ho.
Qed.

Lemma parseCanonicalJson_Ok input options v :
  parseCanonicalJson input options = Ok v ->
  exists bytes depth, resolveLimits options = Ok (bytes, depth) /\ good depth 0 v /\ fits v bytes depth /\
    inputText input = Ok (canonText v).
Proof.
  unfold parseCanonicalJson. intros H. apply result_bind_Ok in H as (w & Hp & H). apply result_bind_Ok in H as (t & Ht & H).
  apply result_bind_Ok in H as (c & Hc & H). apply throw_if_Ok in H as [Heq H]. injection H as ->.
  apply negb_false_iff, bool_decide_eq_true in Heq. subst c.
  destruct (parseJsonStrict_good _ _ _ Hp) as (bytes & depth & Hl & Hg). exists bytes, depth.
  apply canonicalizeJson_Ok in Hc as (b' & d' & Hl' & Hf & ->); [|by destruct Hg]. rewrite Hl in Hl'. by simplify_eq.
Qed.

(** A canonical text reads back, as a string or as bytes. *)
Lemma canonical_reads v options s input :
  wfJson v -> canonicalizeJson v options = Ok s -> input = TextInput s \/ input = BytesInput (encodeUtf8 s) ->
  parseCanonicalJson input options = Ok (normal v).
Proof.
  intros Hw Hc Hin. apply canonicalizeJson_Ok in Hc as (bytes & depth & Hl & Hf & ->); [|done].
  assert (good depth 0 v) as Hg by (destruct Hf as (? & ? & _); split_and!; done).
  assert (canonicalizeJson (normal v) options = Ok (canonText v)) as Hcn.
  { apply canonicalizeJson_Ok; [by destruct (normal_good v 0 depth Hg)|]. exists bytes, depth.
    destruct (normal_good v 0 depth Hg) as (_ & ? & ?). destruct Hf as (_ & _ & Hb). unfold fits. by rewrite canonText_normal by done. }
  destruct (parseJsonStrict_canonText v options bytes depth input Hl Hw Hf Hin) as [Ht Hp].
  unfold parseCanonicalJson. rewrite Hp. cbn [result_bind]. rewrite Ht. cbn [result_bind]. rewrite Hcn. cbn [result_bind].
  by rewrite bool_decide_eq_true_2.
Qed.

(** C8: Every JSON value that canonicalizes is read back from its canonical text
    or bytes by the canonical parser, as the same value up to the order of
    fields and the sign of zero. *)
Theorem json_roundtrip v options s :
  wfJson v -> canonicalizeJson v options = Ok s ->
  parseCanonicalJson (TextInput s) options = Ok (normal v) /\
  parseCanonicalJson (BytesInput (encodeUtf8 s)) options = Ok (normal v) /\ jsonEquiv (normal v) v.
Proof.
  intros Hw Hc. split_and!; [by apply (canonical_reads v options s); auto..|]. by apply normal_idempotent.
Qed.

(** C22: Bytes accepted as canonical are the canonical bytes of the value they
    denote, so two accepted byte strings that denote the same value up to the
    order of fields are equal. *)
Theorem canonical_json_unique b1 b2 options v1 v2 :
  parseCanonicalJson (BytesInput b1) options = Ok v1 -> parseCanonicalJson (BytesInput b2) options = Ok v2 ->
  canonicalizeJsonBytes v1 options = Ok b1 /\ (jsonEquiv v1 v2 -> b1 = b2).
Proof.
  intros H1 H2. apply parseCanonicalJson_Ok in H1 as (bytes & depth & Hl & (Hw1 & _) & Hf1 & Ht1).
  apply parseCanonicalJson_Ok in H2 as (_ & _ & _ & (Hw2 & _) & _ & Ht2).
  assert (forall b v, inputText (BytesInput b) = Ok (canonText v) -> encodeUtf8 (canonText v) = b) as Henc.
  { intros b v. simpl. destruct (decodeUtf8 b) as [t|] eqn:E; [|done]. intros [= ->]. by apply encode_decode in E as [_ ?]. }
  apply Henc in Ht1, Ht2. split.
  - unfold canonicalizeJsonBytes. assert (canonicalizeJson v1 options = Ok (canonText v1)) as ->; [|simpl; by rewrite Ht1].
    apply canonicalizeJson_Ok; eauto 10.
  - intros He. rewrite <- Ht1, <- Ht2, <- (canonText_normal v1), <- (canonText_normal v2) by done. by rewrite He.
Qed.

(** C37: The strict parser always ends: it returns a value with distinct keys,
    strings without lone surrogates, finite numbers and nesting within the limit,
    or one of its errors. *)
Theorem json_parser_sound input options :
  match parseJsonStrict input options with
  | Ok v => wfJson v /\ encodable v = true /\
      exists bytes depth, resolveLimits options = Ok (bytes, depth) /\ jsonDepth v <= depth
  | Err e => forall index, e <> EAt OutOfFuel index
  end.
Proof.
  destruct (parseJsonStrict input options) as [v|e] eqn:E.
  - apply parseJsonStrict_good in E as (bytes & depth & Hl & Hw & He & Hd). eauto 10.
  - intros index ->. revert E. unfold parseJsonStrict. destruct (resolveLimits options) as [[bytes depth]|e] eqn:El; simpl.
    2:{ revert El. unfold resolveLimits. destruct (_ || _); simpl; [congruence|]. destruct (_ || _); simpl; congruence. }
    destruct (_ <? _); simpl; [done|]. destruct (inputText input) as [t|e] eqn:Et; simpl.
    + destruct (match t with _ :: _ => _ | [] => _ end); simpl; [done|]. intros Hp.
      pose proof (parse_outcome t depth) as Ho. rewrite Hp in Ho. done.
    + destruct input as [|b]; simpl in Et; [done|]. destruct (decodeUtf8 b); congruence.
Qed.

(** *** Examples *)

Definition defaultOptions : CanonicalJsonOptions := {| maxBytes := None; maxDepth := None |}.

(** An object with fields out of order, a pair of surrogates, an escape, a
    fraction and a negative zero. *)
Definition sampleJson : Json :=
  JObject [(js "b", JArray [JNumber (Number (js "2.5")); JNumber (Number (js "-0")); JNull]);
           (js "a", JString [fromCharCode 0xd83d; fromCharCode 0xde00; fromCharCode 10])].

Lemma sampleJson_wf : wfJson sampleJson.
Proof.
  apply wfJson_object. split; [apply (bool_decide_unpack _); vm_compute; exact I|].
  apply Forall_cons_2; [|apply Forall_cons_2; [exact I|apply Forall_nil_2]].
  split; [exact (Number_valid (js "2.5"))|]. split; [exact (Number_valid (js "-0"))|]. split; exact I.
Qed.

Lemma json_roundtrip_witness :
  parseCanonicalJson (TextInput (canonText sampleJson)) defaultOptions = Ok (normal sampleJson) /\
  parseCanonicalJson (BytesInput (encodeUtf8 (canonText sampleJson))) defaultOptions = Ok (normal sampleJson) /\
  jsonEquiv (normal sampleJson) sampleJson.
Proof.
  apply (json_roundtrip sampleJson defaultOptions (canonText sampleJson) sampleJson_wf). vm_compute. reflexivity.
Defined.

Lemma canonical_json_unique_witness :
  let b := encodeUtf8 (canonText sampleJson) in
  canonicalizeJsonBytes (normal sampleJson) defaultOptions = Ok b /\ (jsonEquiv (normal sampleJson) (normal sampleJson) -> b = b).
Proof. apply canonical_json_unique; vm_compute; reflexivity. Defined.
