(* ===== verification/PlainJson.v ===== *)
(** * Sizes of canonical texts

    The length of the canonical text of values whose strings need no escapes,
    as the wire objects have them. *)

From S2P Require Import Prelude Bytes CodePoints JsText JsNumber CanonicalJson CanonicalJsonTheory CanonicalJsonRoundtrip.

Open Scope Z_scope.

(** A character that is not escaped. *)
Definition plainUnit (u : codeUnit) : bool := (0x20 <=? unitZ u) && negb (unitZ u =? 0x22) && negb (unitZ u =? 0x5c).

Definition plain (s : jsstr) : bool := isWellFormed s && forallb plainUnit s.

(** The keys of the wire objects are ASCII. *)
Definition asciiPlain (s : jsstr) : bool := forallb (fun u => plainUnit u && (unitZ u <? 0x80)) s.

Fixpoint plainJson (v : Json) : bool :=
  match v with
  | JNull | JBool _ => true
  | JNumber _ => false
  | JString s => plain s
  | JArray items => forallb plainJson items
  | JObject fields => forallb (fun '(k, x) => asciiPlain k && plainJson x) fields
  end.

(** The size of [n] texts of total size [sum] with commas between them. *)
Definition withCommas (sizes : list Z) : Z := foldr Z.add 0 sizes + Z.max 0 (js_length sizes - 1).

Fixpoint jsonSize (v : Json) : Z :=
  match v with
  | JNull => 4
  | JBool b => if b then 4 else 5
  | JNumber n => js_length (numberText n)
  | JString s => js_length (encodeUtf8 s) + 2
  | JArray items => 2 + withCommas (map jsonSize items)
  | JObject fields => 2 + withCommas (map (fun '(k, x) => js_length k + 3 + jsonSize x) fields)
  end.

Lemma plainUnit_spec u : plainUnit u = true <-> 0x20 <= unitZ u /\ unitZ u <> 0x22 /\ unitZ u <> 0x5c.
Proof. unfold plainUnit. rewrite !andb_true_iff, !negb_true_iff, Z.leb_le, !Z.eqb_neq. tauto. Qed.

Lemma plain_spec s : plain s = true <-> isWellFormed s = true /\ Forall (fun u => plainUnit u = true) s.
Proof. unfold plain. rewrite andb_true_iff, forallb_forall, Forall_forall. by setoid_rewrite list_elem_of_In. Qed.

Lemma asciiPlain_intro s : Forall (fun u => plainUnit u = true /\ unitZ u < 0x80) s -> asciiPlain s = true.
Proof.
  unfold asciiPlain. rewrite forallb_forall, Forall_forall. intros H u Hu%list_elem_of_In.
  apply andb_true_iff. rewrite Z.ltb_lt. by apply H.
Qed.

Lemma asciiPlain_spec s : asciiPlain s = true -> plain s = true /\ js_length (encodeUtf8 s) = js_length s.
Proof.
  unfold asciiPlain. rewrite forallb_forall. intros H.
  assert (Forall (fun u => plainUnit u = true /\ unitZ u < 128) s) as Hs.
  { apply Forall_forall. intros u Hu%list_elem_of_In%H. by rewrite andb_true_iff, Z.ltb_lt in Hu. }
  destruct (ascii_wellFormed s) as [Hw Hl]; [eapply Forall_impl; [exact Hs|]; by intros u [_ ?]|].
  split; [|done]. apply plain_spec. split; [done|]. eapply Forall_impl; [exact Hs|]. by intros u [? _].
Qed.

Lemma plain_escape s : plain s = true -> flat_map escapeUnit s = s.
Proof.
  rewrite plain_spec. intros [_ H]. induction H as [|u s Hu _ IH]; [done|]. cbn [flat_map]. rewrite IH. apply plainUnit_spec in Hu.
  rewrite escapeUnit_plain; [done|]. unfold escapeOf. rewrite !(proj2 (Z.eqb_neq _ _)) by lia. by rewrite (proj2 (Z.ltb_ge _ _)) by lia.
Qed.

(** A well-formed text and its size in UTF-8. *)
Definition sized (t : jsstr) (n : Z) : Prop := isWellFormed t = true /\ js_length (encodeUtf8 t) = n.

Ltac sized_literal := split; vm_compute; done.

Lemma sized_app a b n m : sized a n -> sized b m -> sized (a ++ b) (n + m).
Proof.
  intros [Ha <-] [Hb <-]. split; [by rewrite isWellFormed_app|]. rewrite encodeUtf8_app by done.
  unfold js_length. rewrite length_app. lia.
Qed.

Lemma sized_quoted s : plain s = true -> sized (quoted s) (js_length (encodeUtf8 s) + 2).
Proof.
  intros Hs. unfold quoted. rewrite plain_escape by done.
  replace (js_length (encodeUtf8 s) + 2) with (1 + (js_length (encodeUtf8 s) + 1)) by lia.
  assert (sized quote 1) as Hq by sized_literal.
  apply sized_app; [done|]. apply sized_app; [|done]. apply plain_spec in Hs as [? _]. done.
Qed.

Lemma sized_separated ts ns : Forall2 sized ts ns -> sized (separated ts) (withCommas ns).
Proof.
  assert (sized (js ",") 1) as Hc by sized_literal.
  intros H. destruct H as [|t n ts ns Ht H]; [sized_literal|]. rewrite separated_cons.
  replace (withCommas (n :: ns)) with (n + (foldr Z.add 0 ns + js_length ns)) by (unfold withCommas, js_length; simpl; lia).
  apply sized_app; [done|]. clear Ht. induction H as [|t' n' ts ns Ht' _ IH]; [sized_literal|]. cbn [flat_map foldr].
  replace (n' + foldr Z.add 0 ns + js_length (n' :: ns)) with (1 + n' + (foldr Z.add 0 ns + js_length ns)) by (unfold js_length; simpl; lia).
  apply sized_app; [by apply sized_app|done].
Qed.

Lemma withCommas_perm l l' : l ≡ₚ l' -> withCommas l = withCommas l'.
Proof.
  intros Hp. unfold withCommas, js_length. rewrite (Permutation_length Hp). f_equal. induction Hp; simpl; lia.
Qed.

Lemma plain_sized v : plainJson v = true -> sized (canonText v) (jsonSize v).
Proof.
  induction v as [|b|n|s|items IH|fields IH] using Json_ind; intros Hp.
  - sized_literal.
  - destruct b; sized_literal.
  - done.
  - by apply sized_quoted.
  - simpl in Hp. rewrite forallb_forall in Hp. rewrite Forall_forall in IH. cbn [canonText jsonSize].
    replace (2 + withCommas (map jsonSize items)) with (1 + (withCommas (map jsonSize items) + 1)) by lia.
    apply sized_app; [sized_literal|].
    apply sized_app; [|sized_literal]. apply sized_separated.
    assert (forall l, l ⊆ items -> Forall2 sized (map canonText l) (map jsonSize l)) as Hall; [|by apply Hall].
    induction l as [|x l IHl]; intros Hl; simpl; constructor; [|set_solver].
    apply IH; [set_solver|]. apply Hp, list_elem_of_In. set_solver.
  - simpl in Hp. rewrite forallb_forall in Hp. rewrite Forall_forall in IH. rewrite canonText_object. cbn [jsonSize].
    set (sz := fun '(k, x) => js_length k + 3 + jsonSize x).
    replace (2 + withCommas (map sz fields)) with (1 + (withCommas (map sz (js_sort compareKeys fields)) + 1))
      by (rewrite (withCommas_perm (map sz (js_sort compareKeys fields)) (map sz fields)); [lia|apply Permutation_map, sort_perm]).
    apply sized_app; [sized_literal|].
    apply sized_app; [|sized_literal]. apply sized_separated.
    assert (forall l, l ⊆ fields -> Forall2 sized (map (fun f => memberText (f.1, canonText f.2)) l) (map sz l)) as Hall.
    { induction l as [|[k x] l IHl]; intros Hl; simpl; constructor; [|set_solver].
      assert ((k, x) ∈ fields) as Hin by set_solver. pose proof (Hp _ (proj1 (list_elem_of_In _ _) Hin)) as Hk. simpl in Hk.
      apply andb_true_iff in Hk as [[Hk Hlen]%asciiPlain_spec Hx]. unfold memberText. cbn [fst snd]. rewrite <- Hlen.
      replace (js_length (encodeUtf8 k) + 3 + jsonSize x) with (js_length (encodeUtf8 k) + 2 + (1 + jsonSize x)) by lia.
      apply sized_app; [by apply sized_quoted|]. apply sized_app; [sized_literal|].
      by apply (IH _ Hin). }
    apply Hall. intros f. by rewrite sort_perm.
Qed.

Lemma plain_encodable v : plainJson v = true -> encodable v = true.
Proof.
  induction v as [|b|n|s|items IH|fields IH] using Json_ind; intros Hp; [done..| | |]; simpl in *.
  - by apply plain_spec in Hp as [? _].
  - rewrite forallb_forall in *. rewrite Forall_forall in IH. intros x Hx. apply IH; [by apply list_elem_of_In|auto].
  - rewrite forallb_forall in *. rewrite Forall_forall in IH. intros [k x] Hx. pose proof (Hp _ Hx) as Hk. simpl in Hk.
    apply andb_true_iff in Hk as [[[Hk _]%plain_spec _]%asciiPlain_spec Hp']. apply andb_true_iff.
    split; [done|]. apply (IH (k, x)); [by apply list_elem_of_In|done].
Qed.

Lemma plain_fits v bytes depth :
  plainJson v = true -> jsonDepth v <= depth -> jsonSize v <= bytes -> fits v bytes depth.
Proof. intros Hp Hd Hs. destruct (plain_sized v Hp) as [Ha Hl]. split_and!; [by apply plain_encodable|done|lia]. Qed.

Lemma jsonSize_object fields l :
  fields ≡ₚ l -> jsonSize (JObject fields) = jsonSize (JObject l) /\ plainJson (JObject fields) = plainJson (JObject l).
Proof.
  intros Hp. cbn [jsonSize plainJson]. split; [|by apply forallb_perm]. f_equal. by apply withCommas_perm, Permutation_map.
Qed.

Lemma jsonDepth_object fields l b : fields ≡ₚ l -> Forall (fun f => 1 + jsonDepth f.2 <= b) l -> 1 <= b -> jsonDepth (JObject fields) <= b.
Proof.
  intros Hp Hl Hb. apply Z.leb_le. cbn [jsonDepth]. rewrite maxOf_le. apply andb_true_iff. split; [by apply Z.leb_le|].
  rewrite (forallb_perm _ _ _ Hp). apply forallb_forall. intros [k x] Hx%list_elem_of_In. rewrite Forall_forall in Hl.
  apply Z.leb_le. apply (Hl _ Hx).
Qed.

Lemma digits_plain s : alldigits s -> plain s = true /\ js_length (encodeUtf8 s) = js_length s.
Proof.
  intros H. apply asciiPlain_spec, asciiPlain_intro. eapply Forall_impl; [exact H|]. intros u Hu. rewrite plainUnit_spec. unfold isDigit in Hu.
  apply andb_true_iff in Hu as [?%Z.leb_le ?%Z.leb_le]. lia.
Qed.
