(* ===== verification/WireScalars.v ===== *)
(** * Wire scalars and closed objects

    packages/core/src/sync-wire-scalars.ts and sync-wire-objects.ts: decimal
    integers, digests, addresses and hexadecimal bytes as JSON strings, and the
    check that a record has exactly its fields.  An [unknown] value is a JSON
    value; in-memory objects outside of JSON are not modelled. *)

From Stdlib Require Import Strings.Byte.
From S2P Require Import Prelude Bytes CodePoints JsText JsNumber CanonicalJson.

Open Scope Z_scope.

(** ** Errors of one codec inside another *)

(** [try { f } catch { throw e }] *)
Definition rethrow {E F A} (e : F) (r : result E A) : result F A :=
  match r with Ok a => Ok a | Err _ => Err e end.

Definition mapErr {E F A} (f : E -> F) (r : result E A) : result F A :=
  match r with Ok a => Ok a | Err e => Err (f e) end.

(** Opens a successful run that also binds pairs. *)
Ltac ok_pairs :=
  ok_inv; repeat (match goal with H : (let '(_, _) := ?x in _) = Ok _ |- _ => destruct x end; ok_inv).

(** ** Scalars *)

Inductive ScalarError :=
| EDecimalForm
| EDecimalRange
| EDigestForm
| EAddressForm
| EZeroAddress
| EHexPrefix
| EHexBytes.

Abbreviation sresult := (result ScalarError).

Definition MAX_DECIMAL_U64 : Z := Z.shiftl 1 64 - 1.
Definition MAX_DECIMAL_U256 : Z := Z.shiftl 1 256 - 1.

(** Digits without a leading zero, or zero. *)
Definition CANONICAL_UNSIGNED_DECIMAL (s : jsstr) : bool :=
  match s with
  | [] => false
  | u :: r => if isUnit 0x30 u then bool_decide (r = []) else isDigit u && forallb isDigit r
  end.

(** ["0x"] and [n] lowercase hexadecimal digits. *)
Definition hexDigits (n : Z) (s : jsstr) : bool :=
  bool_decide (take 2 s = js "0x") && (js_length s =? 2 + n) && forallb isLowerHex (drop 2 s).

Definition EVM_ADDRESS : jsstr -> bool := hexDigits 40.
Definition CANONICAL_DIGEST_32 : jsstr -> bool := hexDigits 64.

(** An even number of lowercase hexadecimal digits behind ["0x"]. *)
Definition LOWER_HEX_BYTES (s : jsstr) : bool :=
  bool_decide (take 2 s = js "0x") && ((js_length s - 2) mod 2 =? 0) && forallb isLowerHex (drop 2 s).

Definition ZERO_EVM_ADDRESS : jsstr := js "0x" ++ replicate 40 (fromCharCode 0x30).

Definition parseCanonicalUnsignedDecimal (value : Json) (max : Z) : sresult Z :=
  match value with
  | JString s =>
      let maxDigits := js_length (decimal max) in
      throw EDecimalRange when maxDigits <? js_length s;
      throw EDecimalForm when negb (CANONICAL_UNSIGNED_DECIMAL s);
      let parsed := bigIntOf s in
      throw EDecimalRange when max <? parsed;
      Ok parsed
  | _ => Err EDecimalForm
  end.

Definition parseCanonicalDecimalU64 (value : Json) : sresult Z := parseCanonicalUnsignedDecimal value MAX_DECIMAL_U64.

Definition assertCanonicalDecimalU64 (value : Json) : sresult unit :=
  let* _ := parseCanonicalDecimalU64 value in Ok tt.

Definition parseCanonicalDecimalU256 (value : Json) : sresult Z := parseCanonicalUnsignedDecimal value MAX_DECIMAL_U256.

Definition assertCanonicalDecimalU256 (value : Json) : sresult unit :=
  let* _ := parseCanonicalDecimalU256 value in Ok tt.

Definition assertCanonicalChainId (value : Json) : sresult unit := assertCanonicalDecimalU256 value.

Definition assertCanonicalKaId (value : Json) : sresult unit := assertCanonicalDecimalU256 value.

Definition assertCanonicalTimestampMs (value : Json) : sresult unit := assertCanonicalDecimalU64 value.

Definition assertCanonicalDigest (value : Json) : sresult unit :=
  match value with
  | JString s => throw EDigestForm when negb (CANONICAL_DIGEST_32 s); Ok tt
  | _ => Err EDigestForm
  end.

Definition assertCanonicalEvmAddress (value : Json) : sresult unit :=
  match value with
  | JString s =>
      throw EAddressForm when negb (EVM_ADDRESS s);
      throw EZeroAddress when bool_decide (s = ZERO_EVM_ADDRESS);
      Ok tt
  | _ => Err EAddressForm
  end.

Definition assertCanonicalHexBytes (value : Json) (minBytes maxBytes : Z) : sresult unit :=
  match value with
  | JString s =>
      throw EHexPrefix when negb (bool_decide (take 2 s = js "0x"));
      let hexLength := js_length s - 2 in
      throw EHexBytes when negb (hexLength mod 2 =? 0) || (hexLength <? minBytes * 2) || (maxBytes * 2 <? hexLength)
                           || negb (LOWER_HEX_BYTES s);
      Ok tt
  | _ => Err EHexPrefix
  end.

(** ** Digests

    The digest helpers that the transfer codecs repeat. *)

(** [byte.toString(16).padStart(2, '0')] *)
Definition byteText (b : byte) : jsstr := [hexUnit (byteZ b / 16); hexUnit (byteZ b mod 16)].

Definition lowerHex (b : bytes) : jsstr := js "0x" ++ flat_map byteText b.

(** [digestBytesToLowerHex]; the assertion holds for a hash of 32 bytes. *)
Definition digestBytesToLowerHex (digest : bytes) : sresult jsstr :=
  let result := lowerHex digest in
  let* _ := assertCanonicalDigest (JString result) in Ok result.

(** [Number.parseInt(digest.slice(2 + 2 * i, 4 + 2 * i), 16)] for each byte. *)
Fixpoint parseHexPairs (s : jsstr) : bytes :=
  match s with
  | a :: b :: r => byteOf (hexNibble (unitZ a) * 16 + hexNibble (unitZ b)) :: parseHexPairs r
  | _ => []
  end.

Definition digestFromLowerHex (digest : jsstr) : sresult bytes :=
  let* _ := assertCanonicalDigest (JString digest) in Ok (parseHexPairs (drop 2 digest)).

(** ** Closed objects *)

(** [record[key]]; [None] is [undefined]. *)
Definition field (key : jsstr) (fields : list (jsstr * Json)) : option Json :=
  snd <$> List.find (fun f => bool_decide (f.1 = key)) fields.

Definition isPlainRecord (value : Json) : option (list (jsstr * Json)) :=
  match value with JObject fields => Some fields | _ => None end.

(** [assertExactKeys]: as many fields as expected, all of them expected, and each
    expected one present. *)
Definition assertExactKeys (fields : list (jsstr * Json)) (expected : list jsstr) : bool :=
  (js_length fields =? js_length expected)
  && forallb (fun key => bool_decide (key ∈ expected)) fields.*1
  && forallb (fun key => match field key fields with Some _ => true | None => false end) expected.

(** ** Facts *)

Lemma CANONICAL_UNSIGNED_DECIMAL_decimal n : 0 <= n -> CANONICAL_UNSIGNED_DECIMAL (decimal n) = true.
Proof.
  intros Hn. pose proof (decimal_digits n Hn) as Hd. unfold decimal in *. destruct (decimalDigits_spec n Hn) as [_ Hall Hh].
  destruct Hh as [[-> ->]|(Hp & d & ds & E & Hd0)]; [done|]. rewrite E in *. csimpl. apply Forall_cons in Hall as [Hdd _].
  csimpl. apply Forall_cons in Hd as [Hu Hr]. unfold isUnit.
  rewrite unitZ_fromCharCode by lia. rewrite (proj2 (Z.eqb_neq _ _)) by lia. apply andb_true_iff. split; [done|].
  apply forallb_forall. intros u Hu'%list_elem_of_In. rewrite Forall_forall in Hr. by apply Hr.
Qed.

Lemma CANONICAL_UNSIGNED_DECIMAL_spec s :
  CANONICAL_UNSIGNED_DECIMAL s = true -> 0 <= bigIntOf s /\ s = decimal (bigIntOf s).
Proof.
  intros Hs. assert (alldigits s /\ isDecimal (bigIntOf s) (digitVal <$> s)) as [Hd Hdec].
  { destruct s as [|u r]; [done|]. simpl in Hs. destruct (isUnit 48 u) eqn:Eu.
    - apply bool_decide_eq_true in Hs as ->. apply Z.eqb_eq in Eu. assert (digitVal u = 0) as E by (unfold digitVal; lia).
      split; [constructor; [apply isDigit_spec; lia|constructor]|]. unfold bigIntOf. csimpl. rewrite E.
      split; [done|repeat constructor; lia|by left].
    - apply andb_true_iff in Hs as [Hu Hr]. apply Z.eqb_neq in Eu. assert (alldigits (u :: r)) as Hall.
      { constructor; [done|]. apply Forall_forall. intros x Hx%list_elem_of_In. rewrite forallb_forall in Hr. auto. }
      split; [done|]. assert (Forall (fun d => digit d) (digitVal <$> (u :: r))) as Hdig.
      { apply Forall_fmap. eapply Forall_impl; [exact Hall|]. intros x. apply isDigit_spec. }
      split; [done|done|]. right. pose proof (ofDigits_bounds _ Hdig) as [Hb _]. split.
      + csimpl. csimpl in Hdig. apply Forall_cons in Hdig as [Hu0 Hr0]. pose proof (ofDigits_bounds _ Hr0).
        unfold bigIntOf. csimpl. change (digitVal u :: (digitVal <$> r)) with ([digitVal u] ++ (digitVal <$> r)).
        rewrite ofDigits_app. unfold ofDigits at 1. simpl. unfold digitVal in *.
        assert (0 < 10 ^ js_length (digitVal <$> r)) by (apply Z.pow_pos_nonneg; unfold js_length; lia). nia.
      + exists (digitVal u), (digitVal <$> r). split; [done|]. unfold digitVal. lia. }
  pose proof (bigIntOf_nonneg s Hd) as Hn. split; [done|]. unfold decimal.
  rewrite (isDecimal_unique _ _ _ (decimalDigits_spec _ Hn) Hdec). by rewrite units_of_digits.
Qed.

(** Reading a canonical decimal and writing it are inverse. *)
Lemma parseDecimal_Ok value max n :
  0 <= max -> parseCanonicalUnsignedDecimal value max = Ok n <-> 0 <= n <= max /\ value = JString (decimal n).
Proof.
  intros Hmax. unfold parseCanonicalUnsignedDecimal. split.
  - destruct value; try done. intros H. ok_inv. subst. apply negb_false_iff, CANONICAL_UNSIGNED_DECIMAL_spec in H1 as [? E].
    split; [lia|]. by rewrite <- E.
  - intros [Hn ->]. rewrite (proj2 (Z.ltb_ge _ _)) by (apply decimal_length_mono; lia).
    rewrite CANONICAL_UNSIGNED_DECIMAL_decimal, bigIntOf_decimal by lia. cbn. by rewrite (proj2 (Z.ltb_ge _ _)) by lia.
Qed.

(** *** Hexadecimal digests *)

Lemma hexUnit_spec n : 0 <= n < 16 -> isLowerHex (hexUnit n) = true /\ hexNibble (unitZ (hexUnit n)) = n.
Proof.
  intros Hn.
  assert (forallb (fun n => isLowerHex (hexUnit n) && (hexNibble (unitZ (hexUnit n)) =? n)) (seqZ 0 16) = true) as H
    by (vm_compute; reflexivity).
  rewrite forallb_forall in H. specialize (H n). rewrite andb_true_iff, Z.eqb_eq in H.
  apply H, list_elem_of_In, elem_of_seqZ. lia.
Qed.

Lemma isLowerHex_spec u : isLowerHex u = true -> 0 <= hexNibble (unitZ u) < 16 /\ hexUnit (hexNibble (unitZ u)) = u.
Proof.
  intros Hu. assert (48 <= unitZ u <= 57 \/ 97 <= unitZ u <= 102) as Hz.
  { revert Hu. unfold isLowerHex, isDigit. rewrite orb_true_iff, !andb_true_iff, !Z.leb_le. lia. }
  assert (forallb (fun c => let n := hexNibble c in (0 <=? n) && (n <? 16) && bool_decide (hexUnit n = fromCharCode c))
    (seqZ 48 10 ++ seqZ 97 6) = true) as H by (vm_compute; reflexivity).
  rewrite forallb_forall in H. specialize (H (unitZ u)).
  assert (In (unitZ u) (seqZ 48 10 ++ seqZ 97 6)) as Hin.
  { apply list_elem_of_In, elem_of_app. rewrite !elem_of_seqZ. lia. }
  apply H in Hin. rewrite !andb_true_iff, bool_decide_eq_true, fromCharCode_unitZ in Hin.
  destruct Hin as [[? ?] ?]. split; [lia|done].
Qed.

Lemma byteText_nibbles b : parseHexPairs (byteText b) = [b].
Proof.
  unfold byteText. pose proof (byteZ_range b). simpl.
  rewrite (proj2 (hexUnit_spec (byteZ b / 16) ltac:(lia))), (proj2 (hexUnit_spec (byteZ b mod 16) ltac:(lia))). f_equal. rewrite <- (byteOf_byteZ b) at 3. f_equal. lia.
Qed.

Lemma parseHexPairs_app a b r : parseHexPairs (a :: b :: r) = byteOf (hexNibble (unitZ a) * 16 + hexNibble (unitZ b)) :: parseHexPairs r.
Proof. done. Qed.

Lemma parseHexPairs_text b : parseHexPairs (flat_map byteText b) = b.
Proof.
  induction b as [|x b IH]; [done|]. pose proof (byteText_nibbles x) as Hx. unfold byteText in *. cbn [flat_map app].
  rewrite parseHexPairs_app in *. rewrite IH. by injection Hx as ->.
Qed.

Lemma byteText_lowerHex b : Forall (fun u => isLowerHex u = true) (flat_map byteText b).
Proof.
  apply flat_map_forall. intros x _. pose proof (byteZ_range x). unfold byteText.
  repeat constructor; apply hexUnit_spec; lia.
Qed.

Lemma byteText_length b : length (flat_map byteText b) = (2 * length b)%nat.
Proof. induction b as [|x b IH]; [done|]. simpl. rewrite IH. lia. Qed.

(** A text is a canonical digest exactly when it is the text of 32 bytes. *)
Lemma canonicalDigest_bytes b : CANONICAL_DIGEST_32 (lowerHex b) = bool_decide (length b = 32%nat).
Proof.
  unfold CANONICAL_DIGEST_32, hexDigits, lowerHex. rewrite bool_decide_eq_true_2 by done. unfold js_length.
  rewrite length_app, byteText_length. change (drop 2 (js "0x" ++ ?x)) with x.
  assert (forallb isLowerHex (flat_map byteText b) = true) as ->.
  { apply forallb_forall. intros u Hu%list_elem_of_In. pose proof (byteText_lowerHex b) as H. rewrite Forall_forall in H. auto. }
  rewrite andb_true_r. apply eq_bool_prop_intro. rewrite Is_true_true, bool_decide_spec.
  change (length (js "0x")) with 2%nat. rewrite andb_true_l, Z.eqb_eq. lia.
Qed.

Lemma hexPairs_text s :
  Forall (fun u => isLowerHex u = true) s -> Nat.even (length s) = true ->
  flat_map byteText (parseHexPairs s) = s /\ length s = (2 * length (parseHexPairs s))%nat.
Proof.
  revert s. apply (list_ind_2 (fun s => Forall _ s -> Nat.even (length s) = true -> _)); [done|done|].
  intros u v s IH Hs He. apply Forall_cons in Hs as [Hu Hs]. apply Forall_cons in Hs as [Hv Hs].
  destruct (IH Hs He) as [IH1 IH2]. apply isLowerHex_spec in Hu as [Hu Eu], Hv as [Hv Ev]. rewrite parseHexPairs_app.
  cbn [flat_map length]. rewrite IH1. split; [|lia]. unfold byteText. rewrite byteZ_byteOf, Z.mod_small by lia.
  rewrite Z.div_add_l, (Z.div_small (hexNibble (unitZ v))), Z.add_0_r, Eu by lia.
  rewrite Z.add_comm, Z.mod_add, Z.mod_small, Ev by lia. done.
Qed.

Lemma canonicalDigest_text s :
  CANONICAL_DIGEST_32 s = true -> let b := parseHexPairs (drop 2 s) in lowerHex b = s /\ length b = 32%nat.
Proof.
  unfold CANONICAL_DIGEST_32, hexDigits. rewrite !andb_true_iff, bool_decide_eq_true, Z.eqb_eq, forallb_forall.
  intros [[Hp Hl] Hh]. unfold js_length in Hl.
  assert (length (drop 2 s) = 64%nat) as Hlen by (rewrite length_drop; lia).
  destruct (hexPairs_text (drop 2 s)) as [H1 H2].
  - apply Forall_forall. intros u Hu%list_elem_of_In. auto.
  - by rewrite Hlen.
  - cbn zeta. unfold lowerHex. rewrite H1. split; [|lia]. rewrite <- Hp. apply take_drop.
Qed.

Lemma lowerHex_inj a b : lowerHex a = lowerHex b -> a = b.
Proof.
  unfold lowerHex. intros H%app_inv_head. apply (f_equal parseHexPairs) in H. by rewrite !parseHexPairs_text in H.
Qed.

Lemma digestBytesToLowerHex_Ok d : length d = 32%nat -> digestBytesToLowerHex d = Ok (lowerHex d).
Proof. intros Hl. unfold digestBytesToLowerHex. simpl. rewrite canonicalDigest_bytes, bool_decide_eq_true_2 by done. done. Qed.

Lemma digestFromLowerHex_Ok s d :
  digestFromLowerHex s = Ok d <-> length d = 32%nat /\ s = lowerHex d.
Proof.
  unfold digestFromLowerHex. simpl. split.
  - intros H. ok_inv. subst d. apply negb_false_iff, canonicalDigest_text in H1 as [? ?]. done.
  - intros [Hl ->]. rewrite canonicalDigest_bytes, bool_decide_eq_true_2 by done. simpl. f_equal. apply parseHexPairs_text.
Qed.

(** *** Fields *)

Lemma field_elem k v fields : NoDup fields.*1 -> (k, v) ∈ fields -> field k fields = Some v.
Proof.
  intros Hnd Hin. unfold field. induction fields as [|[k' v'] fields IH]; [by apply elem_of_nil in Hin|].
  csimpl in Hnd. apply NoDup_cons in Hnd as [Hk Hnd]. cbn [List.find fst]. case_bool_decide as E.
  - subst. apply elem_of_cons in Hin as [[= ->]|Hin]; [done|]. exfalso. apply Hk, list_elem_of_fmap. by exists (k, v).
  - apply elem_of_cons in Hin as [[= -> ->]|Hin]; [done|]. by apply IH.
Qed.

Lemma field_Some k v fields : field k fields = Some v -> (k, v) ∈ fields.
Proof.
  unfold field. destruct (List.find _ fields) as [[k' v']|] eqn:E; [|done]. simpl. intros [= ->].
  apply List.find_some in E as [Hin E%bool_decide_eq_true]. simpl in E. subst. by apply list_elem_of_In.
Qed.

(** A record that passes [assertExactKeys] has the expected fields and no
    others. *)
Lemma exactKeys_perm fields expected :
  NoDup fields.*1 -> NoDup expected -> assertExactKeys fields expected = true ->
  exists vs, length vs = length expected /\ fields ≡ₚ zip expected vs /\
    forall i k v, expected !! i = Some k -> vs !! i = Some v -> field k fields = Some v.
Proof.
  intros Hnd He. unfold assertExactKeys. rewrite !andb_true_iff, Z.eqb_eq. intros [[Hl _] Hall].
  rewrite forallb_forall in Hall. exists (map (fun k => default JNull (field k fields)) expected).
  assert (forall k, k ∈ expected -> exists v, field k fields = Some v) as Hf.
  { intros k Hk. apply list_elem_of_In, Hall in Hk. destruct (field k fields); [eauto|done]. }
  assert (zip expected (map (fun k => default JNull (field k fields)) expected) =
    map (fun k => (k, default JNull (field k fields))) expected) as Ez.
  { clear. induction expected as [|k l IH]; [done|]. simpl. by rewrite IH. }
  split_and!.
  - apply length_map.
  - rewrite Ez. symmetry. apply submseteq_length_Permutation; [|rewrite length_map; unfold js_length in Hl; lia].
    apply NoDup_submseteq.
    + apply (NoDup_fmap_1 fst). rewrite <- Ez, fst_zip; [done|by rewrite length_map].
    + intros [k v] Hin. change (map ?f expected) with (f <$> expected) in Hin. apply list_elem_of_fmap in Hin as (k' & [= -> ->] & Hk).
      destruct (Hf k' Hk) as [v Hv]. rewrite Hv. by apply field_Some.
  - intros i k v Hk Hv. change (map ?f expected) with (f <$> expected) in Hv. rewrite list_lookup_fmap, Hk in Hv. simplify_eq/=.
    destruct (Hf k) as [v Hv]; [by eapply list_elem_of_lookup_2|]. by rewrite Hv.
Qed.

Lemma field_perm k l1 l2 : NoDup l1.*1 -> l1 ≡ₚ l2 -> field k l1 = field k l2.
Proof.
  intros Hnd Hp. destruct (field k l1) as [v|] eqn:E1.
  - apply field_Some in E1. rewrite Hp in E1, Hnd. symmetry. by apply field_elem.
  - destruct (field k l2) as [v|] eqn:E2; [|done]. apply field_Some in E2. rewrite <- Hp in E2.
    apply field_elem in E2; [congruence|done].
Qed.

Lemma exactKeys_of_perm fields expected vs :
  NoDup fields.*1 -> length vs = length expected -> fields ≡ₚ zip expected vs -> assertExactKeys fields expected = true.
Proof.
  intros Hnd Hl Hp. assert (fields.*1 ≡ₚ expected) as Hk by (rewrite Hp, fst_zip; [done|lia]).
  unfold assertExactKeys. rewrite !andb_true_iff, Z.eqb_eq, !forallb_forall. split_and!.
  - unfold js_length. f_equal. rewrite <- Hk. by rewrite length_fmap.
  - intros k Hin%list_elem_of_In. apply bool_decide_eq_true. by rewrite <- Hk.
  - intros k Hin%list_elem_of_In. rewrite <- Hk in Hin. apply list_elem_of_fmap in Hin as ([k' v] & -> & Hin).
    by rewrite (field_elem k' v).
Qed.

Lemma exactKeys_fields fields expected vs :
  NoDup fields.*1 -> NoDup expected -> assertExactKeys fields expected = true ->
  (fun k => field k fields) <$> expected = Some <$> vs -> fields ≡ₚ zip expected vs.
Proof.
  intros Hnd He Hk Hvs. destruct (exactKeys_perm _ _ Hnd He Hk) as (ws & Hl & Hp & Hf).
  assert (ws = vs) as <-; [|done]. apply list_eq. intros i.
  apply (f_equal (fun l => l !! i)) in Hvs. rewrite !list_lookup_fmap in Hvs.
  destruct (expected !! i) as [k|] eqn:Ek.
  - destruct (lookup_lt_is_Some_2 ws i) as [w Hw]; [rewrite Hl; by eapply lookup_lt_Some|].
    rewrite Hw. simpl in Hvs. rewrite (Hf i k w Ek Hw) in Hvs. destruct (vs !! i); simpl in Hvs; congruence.
  - destruct (vs !! i); [done|]. apply lookup_ge_None. rewrite Hl. by apply lookup_ge_None.
Qed.
