(* ===== verification/KaTransfer.v ===== *)
(** * Transfer descriptors

    packages/core/src/ka-transfer-descriptor.ts: the descriptor of a knowledge
    asset transfer, its validation, its canonical JSON and its identity digest.
    sha256 is a parameter. *)

From S2P Require Import Prelude Bytes Merkle CodePoints JsText JsNumber CanonicalJson CanonicalJsonTheory.
From S2P Require Import CanonicalJsonRoundtrip PlainJson WireScalars.

Open Scope Z_scope.

Definition KA_TRANSFER_CODEC_V1 : jsstr := js "dkg-ka-bundle-v1".
Definition KA_TRANSFER_PROJECTION_V1 : jsstr := js "cg-shared-v1".
Definition KA_TRANSFER_CHUNK_SIZE_V1 : jsstr := js "262144".
Definition KA_TRANSFER_CHUNK_SIZE_BYTES_V1 : Z := 262144.
Definition MIN_KA_TRANSFER_BYTES_V1 : Z := 16.
Definition MAX_KA_TRANSFER_BYTES_V1 : Z := 1073741824.
Definition MAX_KA_TRANSFER_CHUNKS_V1 : Z := 4096.
Definition MAX_KA_TRANSFER_DESCRIPTOR_BYTES_V1 : Z := 512.
Definition MAX_KA_TRANSFER_DESCRIPTOR_DEPTH_V1 : Z := 1.
Definition KA_TRANSFER_IDENTITY_DIGEST_DOMAIN_V1 : jsstr := js "dkg-ka-transfer-descriptor-v1" ++ [fromCharCode 10].

Record KaTransferDescriptorV1 := {
  codec : jsstr;
  projectionId : jsstr;
  projectionDigest : jsstr;
  byteLength : jsstr;
  chunkSize : jsstr;
  chunkCount : jsstr;
  blobDigest : jsstr;
  chunkTreeRoot : jsstr
}.

Inductive KaTransferDescriptorErrorCode :=
| DescriptorSchema
| DescriptorByteLength
| DescriptorChunkCount
| DescriptorChunkSize
| NoncanonicalUnsignedInteger
| NoncanonicalDigest
| ObjectTooLarge.

(** A [KaTransferDescriptorError], or an error that passes through. *)
Inductive DescriptorError :=
| EDescriptor (code : KaTransferDescriptorErrorCode)
| EDescriptorJson (e : CanonicalJsonError)
| EDescriptorScalar (e : ScalarError).

Abbreviation dresult := (result DescriptorError).

Definition assertDescriptorDigest (value : option Json) : dresult jsstr :=
  match value with
  | Some (JString s) => let* _ := rethrow (EDescriptor NoncanonicalDigest) (assertCanonicalDigest (JString s)) in Ok s
  | _ => Err (EDescriptor DescriptorSchema)
  end.

(** The string and the integer it denotes. *)
Definition parseDescriptorU64 (value : option Json) : dresult (jsstr * Z) :=
  match value with
  | Some v =>
      let* n := rethrow (EDescriptor NoncanonicalUnsignedInteger) (parseCanonicalDecimalU64 v) in
      match v with JString s => Ok (s, n) | _ => Err (EDescriptor NoncanonicalUnsignedInteger) end
  | None => Err (EDescriptor NoncanonicalUnsignedInteger)
  end.

Definition descriptorKeys : list jsstr :=
  [js "blobDigest"; js "byteLength"; js "chunkCount"; js "chunkSize"; js "chunkTreeRoot"; js "codec";
   js "projectionDigest"; js "projectionId"].

(** Whether a field is the string [s]. *)
Definition fieldIs (s : jsstr) (value : option Json) : bool :=
  match value with Some (JString t) => bool_decide (t = s) | _ => false end.

Definition expectedChunkCountOf (length : Z) : Z := (length - 1) / KA_TRANSFER_CHUNK_SIZE_BYTES_V1 + 1.

(** The validated value as a descriptor. *)
Definition assertKaTransferDescriptorV1 (descriptor : Json) : dresult KaTransferDescriptorV1 :=
  match isPlainRecord descriptor with
  | None => Err (EDescriptor DescriptorSchema)
  | Some fields =>
      throw EDescriptor DescriptorSchema when negb (assertExactKeys fields descriptorKeys);
      throw EDescriptor DescriptorSchema when
        negb (fieldIs KA_TRANSFER_CODEC_V1 (field (js "codec") fields)) ||
        negb (fieldIs KA_TRANSFER_PROJECTION_V1 (field (js "projectionId") fields));
      let* projectionDigest := assertDescriptorDigest (field (js "projectionDigest") fields) in
      let* blobDigest := assertDescriptorDigest (field (js "blobDigest") fields) in
      let* chunkTreeRoot := assertDescriptorDigest (field (js "chunkTreeRoot") fields) in
      let* (byteLengthText, byteLength) := parseDescriptorU64 (field (js "byteLength") fields) in
      throw EDescriptor DescriptorByteLength when
        (byteLength <? MIN_KA_TRANSFER_BYTES_V1) || (MAX_KA_TRANSFER_BYTES_V1 <? byteLength);
      throw EDescriptor DescriptorChunkSize when negb (fieldIs KA_TRANSFER_CHUNK_SIZE_V1 (field (js "chunkSize") fields));
      let* (chunkCountText, chunkCount) := parseDescriptorU64 (field (js "chunkCount") fields) in
      throw EDescriptor DescriptorChunkCount when
        (chunkCount <? 1) || (MAX_KA_TRANSFER_CHUNKS_V1 <? chunkCount) ||
        negb (chunkCount =? expectedChunkCountOf byteLength);
      Ok {| codec := KA_TRANSFER_CODEC_V1; projectionId := KA_TRANSFER_PROJECTION_V1;
            projectionDigest := projectionDigest; byteLength := byteLengthText; chunkSize := KA_TRANSFER_CHUNK_SIZE_V1;
            chunkCount := chunkCountText; blobDigest := blobDigest; chunkTreeRoot := chunkTreeRoot |}
  end.

Definition toCanonicalKaTransferDescriptorV1 (d : KaTransferDescriptorV1) : Json :=
  JObject [(js "codec", JString (codec d)); (js "projectionId", JString (projectionId d));
           (js "projectionDigest", JString (projectionDigest d)); (js "byteLength", JString (byteLength d));
           (js "chunkSize", JString (chunkSize d)); (js "chunkCount", JString (chunkCount d));
           (js "blobDigest", JString (blobDigest d)); (js "chunkTreeRoot", JString (chunkTreeRoot d))].

Definition canonicalizeKaTransferDescriptorV1 (descriptor : Json) : dresult jsstr :=
  let* d := assertKaTransferDescriptorV1 descriptor in
  mapErr EDescriptorJson (canonicalizeJson (toCanonicalKaTransferDescriptorV1 d)
    {| maxBytes := Some MAX_KA_TRANSFER_DESCRIPTOR_BYTES_V1; maxDepth := Some MAX_KA_TRANSFER_DESCRIPTOR_DEPTH_V1 |}).

Definition canonicalizeKaTransferDescriptorBytesV1 (descriptor : Json) : dresult bytes :=
  let* text := canonicalizeKaTransferDescriptorV1 descriptor in Ok (encodeUtf8 text).

(** [wireByteLength] of the descriptor and of the proof codec, with their limit. *)
Definition wireByteLength (limit : Z) (input : Input) : Z :=
  match input with
  | BytesInput b => js_length b
  | TextInput text => if limit <? js_length text then limit + 1 else js_length (encodeUtf8 text)
  end.

(** The caller's limits, not above the ones of the codec. *)
Definition tightenLimits (bytesLimit depthLimit : Z) (options : CanonicalJsonOptions) : CanonicalJsonOptions :=
  {| maxBytes := Some (Z.min (default bytesLimit (maxBytes options)) bytesLimit);
     maxDepth := Some (Z.min (default depthLimit (maxDepth options)) depthLimit) |}.

Definition parseCanonicalKaTransferDescriptorV1 (input : Input) (options : CanonicalJsonOptions) : dresult KaTransferDescriptorV1 :=
  throw EDescriptor ObjectTooLarge when
    MAX_KA_TRANSFER_DESCRIPTOR_BYTES_V1 <? wireByteLength MAX_KA_TRANSFER_DESCRIPTOR_BYTES_V1 input;
  let* parsed := mapErr EDescriptorJson (parseCanonicalJson input
    (tightenLimits MAX_KA_TRANSFER_DESCRIPTOR_BYTES_V1 MAX_KA_TRANSFER_DESCRIPTOR_DEPTH_V1 options)) in
  assertKaTransferDescriptorV1 parsed.

Definition computeKaTransferIdentityDigestV1 (sha256 : bytes -> bytes) (descriptor : Json) : dresult jsstr :=
  let* canonical := canonicalizeKaTransferDescriptorBytesV1 descriptor in
  mapErr EDescriptorScalar (digestBytesToLowerHex (sha256 (encodeUtf8 KA_TRANSFER_IDENTITY_DIGEST_DOMAIN_V1 ++ canonical))).

(** ** Facts *)

Lemma rethrow_Ok {E F A} (e : F) (r : result E A) a : rethrow e r = Ok a <-> r = Ok a.
Proof. destruct r; simpl; naive_solver. Qed.

Lemma mapErr_Ok {E F A} (f : E -> F) (r : result E A) a : mapErr f r = Ok a <-> r = Ok a.
Proof. destruct r; simpl; naive_solver. Qed.

Lemma assertDigest_Ok value u : assertCanonicalDigest value = Ok u <-> exists d, value = JString (lowerHex d) /\ length d = 32%nat.
Proof.
  destruct u. unfold assertCanonicalDigest. split.
  - destruct value; try done. intros H. ok_inv. apply negb_false_iff, canonicalDigest_text in H0 as [E Hl].
    eexists. split; [by rewrite E|done].
  - intros (d & -> & Hl). by rewrite canonicalDigest_bytes, bool_decide_eq_true_2.
Qed.

Lemma descriptorDigest_Ok value s :
  assertDescriptorDigest value = Ok s <-> exists d, value = Some (JString s) /\ s = lowerHex d /\ length d = 32%nat.
Proof.
  unfold assertDescriptorDigest. split.
  - destruct value as [[]|]; try done. intros H. ok_inv. apply rethrow_Ok, assertDigest_Ok in H0 as (d & [= ->] & Hl).
    subst s. eauto.
  - intros (d & -> & -> & Hl). simpl. by rewrite canonicalDigest_bytes, bool_decide_eq_true_2.
Qed.

Lemma u64_nonneg : 0 <= MAX_DECIMAL_U64.
Proof. done. Qed.

Lemma descriptorU64_Ok value s n :
  parseDescriptorU64 value = Ok (s, n) <-> 0 <= n <= MAX_DECIMAL_U64 /\ s = decimal n /\ value = Some (JString s).
Proof.
  unfold parseDescriptorU64. split.
  - destruct value as [v|]; [|done]. intros H. ok_inv. apply rethrow_Ok, parseDecimal_Ok in H0 as [Hn ->]; [|apply u64_nonneg].
    simplify_eq. eauto.
  - intros (Hn & -> & ->). unfold parseCanonicalDecimalU64. pose proof (proj2 (parseDecimal_Ok (JString (decimal n)) MAX_DECIMAL_U64 n u64_nonneg)) as ->; [done|auto].
Qed.

Lemma fieldIs_true s value : fieldIs s value = true <-> value = Some (JString s).
Proof. destruct value as [[]|]; simpl; rewrite ?bool_decide_eq_true; naive_solver. Qed.

(** What a valid descriptor is. *)
Record validDescriptor (d : KaTransferDescriptorV1) : Prop := {
  vd_codec : codec d = KA_TRANSFER_CODEC_V1;
  vd_projection : projectionId d = KA_TRANSFER_PROJECTION_V1;
  vd_size : chunkSize d = KA_TRANSFER_CHUNK_SIZE_V1;
  vd_projectionDigest : exists b, projectionDigest d = lowerHex b /\ length b = 32%nat;
  vd_blobDigest : exists b, blobDigest d = lowerHex b /\ length b = 32%nat;
  vd_root : exists b, chunkTreeRoot d = lowerHex b /\ length b = 32%nat;
  vd_lengths : exists n, MIN_KA_TRANSFER_BYTES_V1 <= n <= MAX_KA_TRANSFER_BYTES_V1 /\
    byteLength d = decimal n /\ chunkCount d = decimal (expectedChunkCountOf n)
}.

Definition descriptorFields (d : KaTransferDescriptorV1) : list (jsstr * Json) :=
  zip descriptorKeys
    (JString <$> [blobDigest d; byteLength d; chunkCount d; chunkSize d; chunkTreeRoot d; codec d; projectionDigest d; projectionId d]).

(** A transfer has at most 4096 chunks, so the count of a valid length is in
    range. *)
Lemma expectedChunkCount_range n :
  MIN_KA_TRANSFER_BYTES_V1 <= n <= MAX_KA_TRANSFER_BYTES_V1 -> 1 <= expectedChunkCountOf n <= MAX_KA_TRANSFER_CHUNKS_V1.
Proof.
  unfold MIN_KA_TRANSFER_BYTES_V1, MAX_KA_TRANSFER_BYTES_V1, MAX_KA_TRANSFER_CHUNKS_V1, expectedChunkCountOf, KA_TRANSFER_CHUNK_SIZE_BYTES_V1. lia.
Qed.

Lemma descriptorKeys_NoDup : NoDup descriptorKeys.
Proof. apply (bool_decide_unpack _). vm_compute. exact I. Qed.

Lemma assertDescriptor_sound fields d :
  NoDup fields.*1 -> assertKaTransferDescriptorV1 (JObject fields) = Ok d ->
  validDescriptor d /\ fields ≡ₚ descriptorFields d.
Proof.
  intros Hnd H. unfold assertKaTransferDescriptorV1 in H. cbn [isPlainRecord] in H. ok_pairs. subst d.
  apply orb_false_iff in H1 as [Hc%negb_false_iff%fieldIs_true Hp%negb_false_iff%fieldIs_true].
  apply negb_false_iff in H0, H7. apply fieldIs_true in H7.
  apply descriptorDigest_Ok in H2 as (b1 & F1 & E1 & L1), H3 as (b2 & F2 & E2 & L2), H4 as (b3 & F3 & E3 & L3).
  apply descriptorU64_Ok in H5 as (Hz & E4 & F4), H8 as (Hz0 & E5 & F5).
  rewrite !orb_false_iff, negb_false_iff, Z.eqb_eq in H9. apply orb_false_iff in H6 as [? ?]. destruct H9 as [_ ->].
  split.
  { split; cbn [codec projectionId projectionDigest byteLength chunkSize chunkCount blobDigest chunkTreeRoot]; eauto.
    exists z. split; [lia|done]. }
  unfold descriptorFields. cbn [codec projectionId projectionDigest byteLength chunkSize chunkCount blobDigest chunkTreeRoot].
  apply exactKeys_fields; [done|apply descriptorKeys_NoDup|done|]. unfold descriptorKeys. csimpl. congruence.
Qed.

Lemma descriptorFields_keys d : (descriptorFields d).*1 = descriptorKeys.
Proof. done. Qed.

Lemma descriptorFields_lookup d :
  field (js "codec") (descriptorFields d) = Some (JString (codec d)) /\
  field (js "projectionId") (descriptorFields d) = Some (JString (projectionId d)) /\
  field (js "projectionDigest") (descriptorFields d) = Some (JString (projectionDigest d)) /\
  field (js "blobDigest") (descriptorFields d) = Some (JString (blobDigest d)) /\
  field (js "chunkTreeRoot") (descriptorFields d) = Some (JString (chunkTreeRoot d)) /\
  field (js "byteLength") (descriptorFields d) = Some (JString (byteLength d)) /\
  field (js "chunkSize") (descriptorFields d) = Some (JString (chunkSize d)) /\
  field (js "chunkCount") (descriptorFields d) = Some (JString (chunkCount d)).
Proof. split_and!; reflexivity. Qed.

Lemma assertDescriptor_complete fields d :
  validDescriptor d -> fields ≡ₚ descriptorFields d -> assertKaTransferDescriptorV1 (JObject fields) = Ok d.
Proof.
  intros [Hc Hp Hs (b1 & E1 & L1) (b2 & E2 & L2) (b3 & E3 & L3) (n & Hn & E4 & E5)] Hperm.
  assert (NoDup fields.*1) as Hnd by (rewrite Hperm, descriptorFields_keys; apply descriptorKeys_NoDup).
  pose proof (expectedChunkCount_range n Hn) as He. unfold assertKaTransferDescriptorV1. cbn [isPlainRecord].
  assert (assertExactKeys fields descriptorKeys = true) as ->.
  { eapply exactKeys_of_perm; [done| |exact Hperm]. done. }
  cbn [negb throw_if]. rewrite !(field_perm _ _ _ Hnd Hperm).
  destruct (descriptorFields_lookup d) as (-> & -> & -> & -> & -> & -> & -> & ->).
  rewrite (proj2 (fieldIs_true _ _)) by by rewrite Hc. rewrite (proj2 (fieldIs_true _ _)) by by rewrite Hp.
  cbn [negb orb throw_if].
  rewrite (proj2 (descriptorDigest_Ok _ (projectionDigest d))), (proj2 (descriptorDigest_Ok _ (blobDigest d))),
    (proj2 (descriptorDigest_Ok _ (chunkTreeRoot d))) by eauto. cbn [result_bind].
  assert (MAX_KA_TRANSFER_BYTES_V1 <= MAX_DECIMAL_U64) by done. assert (MAX_KA_TRANSFER_CHUNKS_V1 <= MAX_DECIMAL_U64) by done.
  assert (0 <= MIN_KA_TRANSFER_BYTES_V1) by done.
  rewrite (proj2 (descriptorU64_Ok _ (byteLength d) n)) by (split_and!; [lia|lia|done|done]). cbn [result_bind].
  rewrite !(proj2 (Z.ltb_ge _ _)) by lia. cbn [orb throw_if]. rewrite (proj2 (fieldIs_true _ _)) by by rewrite Hs. cbn [negb throw_if].
  rewrite (proj2 (descriptorU64_Ok _ (chunkCount d) (expectedChunkCountOf n))) by (split_and!; [lia|lia|done|done]). cbn [result_bind].
  rewrite !(proj2 (Z.ltb_ge _ _)), Z.eqb_refl by lia. cbn. destruct d. simpl in *. by subst.
Qed.

(** *** The canonical text of a descriptor *)

Lemma lowerHex_length b : js_length (lowerHex b) = 2 + 2 * js_length b.
Proof. unfold lowerHex, js_length. rewrite length_app, byteText_length. change (length (js "0x")) with 2%nat. lia. Qed.

Lemma lowerHex_sized b : plain (lowerHex b) = true /\ js_length (encodeUtf8 (lowerHex b)) = js_length (lowerHex b).
Proof.
  apply asciiPlain_spec. unfold lowerHex, asciiPlain. rewrite forallb_app. apply andb_true_iff. split; [done|].
  apply asciiPlain_intro. eapply Forall_impl; [apply byteText_lowerHex|]. intros u. rewrite plainUnit_spec.
  unfold isLowerHex, isDigit. rewrite orb_true_iff, !andb_true_iff, !Z.leb_le. lia.
Qed.

Lemma lowerHex_plain b : plain (lowerHex b) = true.
Proof. apply lowerHex_sized. Qed.

Lemma lowerHex_utf8 b : js_length (encodeUtf8 (lowerHex b)) = 2 + 2 * js_length b.
Proof. rewrite (proj2 (lowerHex_sized b)). apply lowerHex_length. Qed.

Lemma decimal_plain n : 0 <= n -> plain (decimal n) = true.
Proof. intros Hn. by apply digits_plain, decimal_digits. Qed.

Lemma decimal_utf8 n : 0 <= n -> js_length (encodeUtf8 (decimal n)) = js_length (decimal n).
Proof. intros Hn. by apply digits_plain, decimal_digits. Qed.

Lemma toCanonical_fields d : exists fields, toCanonicalKaTransferDescriptorV1 d = JObject fields /\ fields ≡ₚ descriptorFields d.
Proof. eexists. split; [done|]. unfold descriptorFields, descriptorKeys. csimpl. solve_Permutation. Qed.

(** A valid descriptor is below the wire limit. *)
Lemma descriptor_fits d :
  validDescriptor d ->
  fits (toCanonicalKaTransferDescriptorV1 d) MAX_KA_TRANSFER_DESCRIPTOR_BYTES_V1 MAX_KA_TRANSFER_DESCRIPTOR_DEPTH_V1.
Proof.
  intros [Hc Hp Hs (b1 & E1 & L1) (b2 & E2 & L2) (b3 & E3 & L3) (n & Hn & E4 & E5)].
  pose proof (expectedChunkCount_range n Hn) as He. assert (0 <= MIN_KA_TRANSFER_BYTES_V1) by done.
  apply plain_fits.
  - cbn [plainJson toCanonicalKaTransferDescriptorV1 forallb]. rewrite Hc, Hp, Hs, E1, E2, E3, E4, E5.
    rewrite !lowerHex_plain, !decimal_plain by lia. vm_compute. done.
  - vm_compute. done.
  - cbn [jsonSize toCanonicalKaTransferDescriptorV1 map withCommas foldr]. rewrite Hc, Hp, Hs, E1, E2, E3, E4, E5, !lowerHex_utf8, !decimal_utf8 by lia.
    change (js_length (encodeUtf8 KA_TRANSFER_CODEC_V1)) with 16. change (js_length (encodeUtf8 KA_TRANSFER_PROJECTION_V1)) with 12.
    change (js_length (encodeUtf8 KA_TRANSFER_CHUNK_SIZE_V1)) with 6.
    pose proof (decimal_length_mono n MAX_KA_TRANSFER_BYTES_V1 ltac:(lia)) as Hn1.
    pose proof (decimal_length_mono _ MAX_KA_TRANSFER_CHUNKS_V1 (conj (Z.le_trans 0 1 _ ltac:(lia) (proj1 He)) (proj2 He))) as Hn2.
    change (js_length (decimal MAX_KA_TRANSFER_BYTES_V1)) with 10 in Hn1. change (js_length (decimal MAX_KA_TRANSFER_CHUNKS_V1)) with 4 in Hn2.
    unfold js_length in *. rewrite L1, L2, L3. set (x := length (decimal n)) in *. set (y := length (decimal (expectedChunkCountOf n))) in *.
    unfold withCommas, MAX_KA_TRANSFER_DESCRIPTOR_BYTES_V1, js_length. cbn. lia.
Qed.

Lemma toCanonical_wf d : wfJson (toCanonicalKaTransferDescriptorV1 d).
Proof.
  destruct (toCanonical_fields d) as (fields & E & Hp). rewrite E. apply wfJson_object. split.
  - rewrite Hp, descriptorFields_keys. apply descriptorKeys_NoDup.
  - rewrite Hp. unfold descriptorFields. apply Forall_forall. intros [k x] Hx. apply elem_of_zip_r in Hx.
    apply list_elem_of_fmap in Hx as (s & -> & _). exact I.
Qed.

Definition descriptorOptions : CanonicalJsonOptions :=
  {| maxBytes := Some MAX_KA_TRANSFER_DESCRIPTOR_BYTES_V1; maxDepth := Some MAX_KA_TRANSFER_DESCRIPTOR_DEPTH_V1 |}.

Lemma canonicalize_valid d :
  validDescriptor d ->
  canonicalizeJson (toCanonicalKaTransferDescriptorV1 d) descriptorOptions = Ok (canonText (toCanonicalKaTransferDescriptorV1 d)).
Proof.
  intros Hv. apply canonicalizeJson_Ok; [apply toCanonical_wf|]. eexists _, _. split; [reflexivity|]. split; [by apply descriptor_fits|done].
Qed.

Lemma assertDescriptor_inv v d :
  wfJson v -> assertKaTransferDescriptorV1 v = Ok d ->
  validDescriptor d /\ exists fields, v = JObject fields /\ fields ≡ₚ descriptorFields d.
Proof.
  intros Hw Ha. destruct v as [| | | | |fields]; try done. apply wfJson_object in Hw as [Hnd _].
  destruct (assertDescriptor_sound fields d Hnd Ha). eauto.
Qed.

Lemma assert_normal d : validDescriptor d -> assertKaTransferDescriptorV1 (normal (toCanonicalKaTransferDescriptorV1 d)) = Ok d.
Proof.
  intros Hv. destruct (toCanonical_fields d) as (fields & E & Hp). rewrite E, normal_object. apply assertDescriptor_complete; [done|].
  transitivity (map (fun '(k, x) => (k, normal x)) (descriptorFields d)); [|done].
  apply Permutation_map. etrans; [apply sort_perm|exact Hp].
Qed.

Lemma tighten_default bytesLimit depthLimit :
  tightenLimits bytesLimit depthLimit defaultOptions = {| maxBytes := Some bytesLimit; maxDepth := Some depthLimit |}.
Proof. unfold tightenLimits. simpl. by rewrite !Z.min_id. Qed.

Lemma wireByteLength_plain limit j input :
  plainJson j = true -> fits j limit (jsonDepth j) ->
  input = TextInput (canonText j) \/ input = BytesInput (encodeUtf8 (canonText j)) -> wireByteLength limit input <= limit.
Proof.
  intros Hp (_ & _ & Hs) Hin. pose proof (utf16_le_utf8 (canonText j)) as Hl.
  destruct Hin as [->| ->]; simpl; [|done]. by rewrite (proj2 (Z.ltb_ge _ _)) by lia.
Qed.

Lemma toCanonical_plain d : validDescriptor d -> plainJson (toCanonicalKaTransferDescriptorV1 d) = true.
Proof.
  intros [Hc Hp Hs (b1 & E1 & L1) (b2 & E2 & L2) (b3 & E3 & L3) (n & Hn & E4 & E5)].
  pose proof (expectedChunkCount_range n Hn) as He. assert (0 <= MIN_KA_TRANSFER_BYTES_V1) by done.
  cbn [plainJson toCanonicalKaTransferDescriptorV1 forallb]. rewrite Hc, Hp, Hs, E1, E2, E3, E4, E5.
  rewrite !lowerHex_plain, !decimal_plain by lia. vm_compute. done.
Qed.

Lemma descriptor_text_reads d input :
  validDescriptor d ->
  let text := canonText (toCanonicalKaTransferDescriptorV1 d) in
  input = TextInput text \/ input = BytesInput (encodeUtf8 text) ->
  parseCanonicalKaTransferDescriptorV1 input defaultOptions = Ok d.
Proof.
  intros Hv text Hin. unfold parseCanonicalKaTransferDescriptorV1. rewrite tighten_default. fold descriptorOptions.
  pose proof (descriptor_fits d Hv) as Hf. rewrite (proj2 (Z.ltb_ge _ _)).
  2:{ eapply wireByteLength_plain; [by apply toCanonical_plain| |exact Hin]. destruct Hf as (? & _ & ?). by split_and!. }
  cbn [throw_if]. rewrite (canonical_reads _ _ _ input (toCanonical_wf d) (canonicalize_valid d Hv) Hin). by apply assert_normal.
Qed.

Lemma descriptor_bytes_read v d b :
  assertKaTransferDescriptorV1 v = Ok d -> validDescriptor d -> canonicalizeKaTransferDescriptorBytesV1 v = Ok b ->
  parseCanonicalKaTransferDescriptorV1 (BytesInput b) defaultOptions = Ok d.
Proof.
  intros Ha Hv Hb. unfold canonicalizeKaTransferDescriptorBytesV1, canonicalizeKaTransferDescriptorV1 in Hb.
  rewrite Ha in Hb. cbn [result_bind] in Hb. fold descriptorOptions in Hb. rewrite (canonicalize_valid d Hv) in Hb.
  cbn in Hb. injection Hb as <-. apply descriptor_text_reads; auto.
Qed.

(** A value that validates as a transfer descriptor always has a canonical
    text, within the wire limit of 512 bytes, and that text, as a string or as
    bytes, decodes to the same descriptor. *)
Theorem descriptor_roundtrip v d :
  wfJson v -> assertKaTransferDescriptorV1 v = Ok d ->
  exists text, canonicalizeKaTransferDescriptorV1 v = Ok text /\
    js_length (encodeUtf8 text) <= MAX_KA_TRANSFER_DESCRIPTOR_BYTES_V1 /\
    parseCanonicalKaTransferDescriptorV1 (TextInput text) defaultOptions = Ok d /\
    parseCanonicalKaTransferDescriptorV1 (BytesInput (encodeUtf8 text)) defaultOptions = Ok d.
Proof.
  intros Hw Ha. destruct (assertDescriptor_inv v d Hw Ha) as [Hv _].
  exists (canonText (toCanonicalKaTransferDescriptorV1 d)). split_and!.
  - unfold canonicalizeKaTransferDescriptorV1. rewrite Ha. cbn [result_bind]. fold descriptorOptions.
    by rewrite (canonicalize_valid d Hv).
  - by apply descriptor_fits.
  - apply descriptor_text_reads; auto.
  - apply descriptor_text_reads; auto.
Qed.

(** Equal identity digests mean equal descriptors, in every field, unless
    sha256 collides on the two inputs that were hashed. *)
Theorem transfer_identity_binds sha256 v1 v2 d1 d2 b1 b2 h :
  wfJson v1 -> wfJson v2 -> assertKaTransferDescriptorV1 v1 = Ok d1 -> assertKaTransferDescriptorV1 v2 = Ok d2 ->
  canonicalizeKaTransferDescriptorBytesV1 v1 = Ok b1 -> canonicalizeKaTransferDescriptorBytesV1 v2 = Ok b2 ->
  computeKaTransferIdentityDigestV1 sha256 v1 = Ok h -> computeKaTransferIdentityDigestV1 sha256 v2 = Ok h ->
  let domain := encodeUtf8 KA_TRANSFER_IDENTITY_DIGEST_DOMAIN_V1 in
  d1 = d2 \/ CollisionIn sha256 [domain ++ b1; domain ++ b2].
Proof.
  intros Hw1 Hw2 Ha1 Ha2 Hb1 Hb2 H1 H2 domain. unfold computeKaTransferIdentityDigestV1 in *. rewrite Hb1 in H1. rewrite Hb2 in H2.
  cbn [result_bind] in *. apply mapErr_Ok in H1, H2. unfold digestBytesToLowerHex in *. ok_inv. subst h.
  symmetry in H2. apply lowerHex_inj in H2.
  destruct (hash_inj_or sha256 [domain ++ b1; domain ++ b2] (domain ++ b1) (domain ++ b2)) as [E|]; [set_solver..|done| |by right].
  left. apply app_inv_head in E. subst b2.
  destruct (assertDescriptor_inv v1 d1 Hw1 Ha1) as [Hv1 _], (assertDescriptor_inv v2 d2 Hw2 Ha2) as [Hv2 _].
  pose proof (descriptor_bytes_read _ _ _ Ha1 Hv1 Hb1) as R1. pose proof (descriptor_bytes_read _ _ _ Ha2 Hv2 Hb2) as R2. congruence.
Qed.

(** *** Examples *)

Definition sampleDigest : jsstr := lowerHex (zeroBytes 32).

Definition sampleDescriptor : KaTransferDescriptorV1 :=
  {| codec := KA_TRANSFER_CODEC_V1; projectionId := KA_TRANSFER_PROJECTION_V1; projectionDigest := sampleDigest;
     byteLength := js "300000"; chunkSize := KA_TRANSFER_CHUNK_SIZE_V1; chunkCount := js "2"; blobDigest := sampleDigest;
     chunkTreeRoot := sampleDigest |}.

Definition sampleDescriptorJson : Json := toCanonicalKaTransferDescriptorV1 sampleDescriptor.

Lemma descriptor_roundtrip_witness :
  exists text, canonicalizeKaTransferDescriptorV1 sampleDescriptorJson = Ok text /\
    js_length (encodeUtf8 text) <= MAX_KA_TRANSFER_DESCRIPTOR_BYTES_V1 /\
    parseCanonicalKaTransferDescriptorV1 (TextInput text) defaultOptions = Ok sampleDescriptor /\
    parseCanonicalKaTransferDescriptorV1 (BytesInput (encodeUtf8 text)) defaultOptions = Ok sampleDescriptor.
Proof. apply (descriptor_roundtrip sampleDescriptorJson); [apply toCanonical_wf|vm_compute; reflexivity]. Defined.

Lemma transfer_identity_binds_witness :
  let domain := encodeUtf8 KA_TRANSFER_IDENTITY_DIGEST_DOMAIN_V1 in
  let b := encodeUtf8 (canonText sampleDescriptorJson) in
  sampleDescriptor = sampleDescriptor \/ CollisionIn sampleHash [domain ++ b; domain ++ b].
Proof.
  apply (transfer_identity_binds sampleHash sampleDescriptorJson sampleDescriptorJson) with
    (h := lowerHex (sampleHash (encodeUtf8 KA_TRANSFER_IDENTITY_DIGEST_DOMAIN_V1 ++ encodeUtf8 (canonText sampleDescriptorJson))));
    try apply toCanonical_wf; vm_compute; reflexivity.
Defined.
