(* ===== verification/KaBundle.v ===== *)
(** * Bundles

    packages/core/src/ka-bundle-v1.ts: the frame of a projection and a seal that
    a transfer carries, its digests, and the incremental projection digest.
    sha256 is a parameter; an incremental hasher hashes the concatenation of its
    updates. *)

From Stdlib Require Import Strings.Byte.
From S2P Require Import Prelude Bytes Merkle CodePoints JsText JsNumber CanonicalJson WireScalars KaTransfer.

Open Scope Z_scope.

Definition KA_BUNDLE_PROJECTION_DIGEST_DOMAIN_V1 : jsstr := js "dkg-ka-projection-v1" ++ [fromCharCode 10].
Definition KA_BUNDLE_BLOB_DIGEST_DOMAIN_V1 : jsstr := js "dkg-ka-transfer-v1" ++ [fromCharCode 10].
Definition KA_BUNDLE_U64_PREFIX_BYTES_V1 : nat := 8.
Definition MIN_KA_BUNDLE_BYTES_V1 : Z := MIN_KA_TRANSFER_BYTES_V1.
Definition MAX_KA_BUNDLE_BYTES_V1 : Z := MAX_KA_TRANSFER_BYTES_V1.
Definition MAX_U64 : Z := 18446744073709551615.

Inductive KaBundleV1ErrorCode :=
| BundleByteLength
| BundleTruncated
| BundleLengthOverflow
| BundleTrailingBytes.

(** A [KaBundleV1Error], or the failed assertion of a digest. *)
Inductive BundleError :=
| EBundle (code : KaBundleV1ErrorCode)
| EBundleDigest (e : ScalarError).

Abbreviation bresult := (result BundleError).

Record EncodedOpaqueKaBundleV1 := { bundleBytes : bytes; enc_projectionDigest : jsstr; enc_blobDigest : jsstr }.

Record DecodedOpaqueKaBundleV1 :=
  { projectionBytes : bytes; sealBytes : bytes; dec_projectionDigest : jsstr; dec_blobDigest : jsstr }.

(** ** Lengths *)

Definition assertU64Length (value : Z) : bresult unit :=
  throw EBundle BundleLengthOverflow when (value <? 0) || (MAX_U64 <? value); Ok tt.

Definition assertOpaqueKaBundleByteLengthV1 (totalByteLength : Z) : bresult unit :=
  throw EBundle BundleByteLength when (totalByteLength <? MIN_KA_BUNDLE_BYTES_V1) || (MAX_KA_BUNDLE_BYTES_V1 <? totalByteLength);
  Ok tt.

Definition calculateOpaqueKaBundleByteLengthV1 (projectionByteLength sealByteLength : Z) : bresult Z :=
  let* _ := assertU64Length projectionByteLength in
  let* _ := assertU64Length sealByteLength in
  let payloadLimit := MAX_KA_BUNDLE_BYTES_V1 - MIN_KA_BUNDLE_BYTES_V1 in
  throw EBundle BundleLengthOverflow when
    (payloadLimit <? projectionByteLength) || (payloadLimit - projectionByteLength <? sealByteLength);
  let totalByteLength := MIN_KA_BUNDLE_BYTES_V1 + projectionByteLength + sealByteLength in
  let* _ := assertOpaqueKaBundleByteLengthV1 totalByteLength in
  Ok totalByteLength.

(** ** Prefixes *)

Definition encodeU64Be (value : Z) : bresult bytes :=
  let* _ := assertU64Length value in Ok (bigEndian KA_BUNDLE_U64_PREFIX_BYTES_V1 value).

Definition decodeU64Be (b : bytes) (offset : Z) : bresult Z :=
  throw EBundle BundleTruncated when (offset <? 0) || (js_length b <? offset + Z.of_nat KA_BUNDLE_U64_PREFIX_BYTES_V1);
  Ok (ofBigEndian (take KA_BUNDLE_U64_PREFIX_BYTES_V1 (drop (Z.to_nat offset) b))).

(** [target.set(source, offset)], in range. *)
Definition setBytes (target source : bytes) (offset : nat) : bytes :=
  take offset target ++ source ++ drop (offset + length source) target.

(** [b.subarray(start, end)] *)
Definition subarray (b : bytes) (start stop : nat) : bytes := take (stop - start) (drop start b).

(** ** The codec *)

Section Bundle.
Context (sha256 : bytes -> bytes).

Definition digestToLowerHex (domain : jsstr) (chunk : bytes) : bresult jsstr :=
  mapErr EBundleDigest (digestBytesToLowerHex (sha256 (encodeUtf8 domain ++ chunk))).

Definition computeKaProjectionDigestV1 (projection : bytes) : bresult jsstr :=
  digestToLowerHex KA_BUNDLE_PROJECTION_DIGEST_DOMAIN_V1 projection.

Definition encodeOpaqueKaBundleV1 (projection seal : bytes) : bresult EncodedOpaqueKaBundleV1 :=
  let projectionByteLength := js_length projection in
  let sealByteLength := js_length seal in
  let* totalByteLength := calculateOpaqueKaBundleByteLengthV1 projectionByteLength sealByteLength in
  let bundle := zeroBytes (Z.to_nat totalByteLength) in
  let* projectionPrefix := encodeU64Be projectionByteLength in
  let* sealPrefix := encodeU64Be sealByteLength in
  let cursor := O in
  let bundle := setBytes bundle projectionPrefix cursor in
  let cursor := (cursor + KA_BUNDLE_U64_PREFIX_BYTES_V1)%nat in
  let bundle := setBytes bundle projection cursor in
  let cursor := (cursor + length projection)%nat in
  let bundle := setBytes bundle sealPrefix cursor in
  let cursor := (cursor + KA_BUNDLE_U64_PREFIX_BYTES_V1)%nat in
  let bundle := setBytes bundle seal cursor in
  let finalizedProjectionBytes :=
    subarray bundle KA_BUNDLE_U64_PREFIX_BYTES_V1 (KA_BUNDLE_U64_PREFIX_BYTES_V1 + length projection) in
  let* projectionDigest := computeKaProjectionDigestV1 finalizedProjectionBytes in
  let* blobDigest := digestToLowerHex KA_BUNDLE_BLOB_DIGEST_DOMAIN_V1 bundle in
  Ok {| bundleBytes := bundle; enc_projectionDigest := projectionDigest; enc_blobDigest := blobDigest |}.

Definition decodeOpaqueKaBundleV1 (bundle : bytes) : bresult DecodedOpaqueKaBundleV1 :=
  let receivedByteLength := js_length bundle in
  let* _ := assertOpaqueKaBundleByteLengthV1 receivedByteLength in
  let* projectionByteLength := decodeU64Be bundle 0 in
  let* minimumWithProjection := calculateOpaqueKaBundleByteLengthV1 projectionByteLength 0 in
  throw EBundle BundleTruncated when receivedByteLength <? minimumWithProjection;
  let projectionStart := KA_BUNDLE_U64_PREFIX_BYTES_V1 in
  let projectionEnd := (projectionStart + Z.to_nat projectionByteLength)%nat in
  let* sealByteLength := decodeU64Be bundle (Z.of_nat projectionEnd) in
  let* expectedByteLength := calculateOpaqueKaBundleByteLengthV1 projectionByteLength sealByteLength in
  throw EBundle BundleTruncated when receivedByteLength <? expectedByteLength;
  throw EBundle BundleTrailingBytes when expectedByteLength <? receivedByteLength;
  let sealStart := (projectionEnd + KA_BUNDLE_U64_PREFIX_BYTES_V1)%nat in
  let sealEnd := (sealStart + Z.to_nat sealByteLength)%nat in
  let projection := subarray bundle projectionStart projectionEnd in
  let seal := subarray bundle sealStart sealEnd in
  let* projectionDigest := computeKaProjectionDigestV1 projection in
  let* blobDigest := digestToLowerHex KA_BUNDLE_BLOB_DIGEST_DOMAIN_V1 bundle in
  Ok {| projectionBytes := projection; sealBytes := seal; dec_projectionDigest := projectionDigest; dec_blobDigest := blobDigest |}.

(** ** The incremental projection digest *)

Inductive AccumulatorError :=
| AlreadyFinalized
| EAccumulatorDigest (e : BundleError).

Record KaProjectionDigestAccumulatorV1 := { acc_hashed : bytes; acc_completed : option jsstr }.

Definition createKaProjectionDigestAccumulatorV1 : KaProjectionDigestAccumulatorV1 :=
  {| acc_hashed := encodeUtf8 KA_BUNDLE_PROJECTION_DIGEST_DOMAIN_V1; acc_completed := None |}.

Definition accumulatorUpdate (a : KaProjectionDigestAccumulatorV1) (chunk : bytes) : result AccumulatorError KaProjectionDigestAccumulatorV1 :=
  throw AlreadyFinalized when bool_decide (acc_completed a <> None);
  Ok {| acc_hashed := acc_hashed a ++ chunk; acc_completed := None |}.

Definition accumulatorDigest (a : KaProjectionDigestAccumulatorV1) : result AccumulatorError (jsstr * KaProjectionDigestAccumulatorV1) :=
  match acc_completed a with
  | Some digest => Ok (digest, a)
  | None =>
      let* digest := mapErr (fun e => EAccumulatorDigest (EBundleDigest e)) (digestBytesToLowerHex (sha256 (acc_hashed a))) in
      Ok (digest, {| acc_hashed := acc_hashed a; acc_completed := Some digest |})
  end.

End Bundle.

(** ** Facts *)

(** The layout of a bundle. *)
Definition frame (projection seal : bytes) : bytes :=
  bigEndian 8 (js_length projection) ++ projection ++ bigEndian 8 (js_length seal) ++ seal.

Lemma frame_length p s : js_length (frame p s) = 16 + js_length p + js_length s.
Proof. unfold frame, js_length. rewrite !length_app, !bigEndian_length. lia. Qed.

Lemma calculate_Ok p s n :
  calculateOpaqueKaBundleByteLengthV1 p s = Ok n <-> 0 <= p /\ 0 <= s /\ n = 16 + p + s /\ n <= MAX_KA_BUNDLE_BYTES_V1.
Proof.
  unfold calculateOpaqueKaBundleByteLengthV1, assertU64Length, assertOpaqueKaBundleByteLengthV1.
  unfold MIN_KA_BUNDLE_BYTES_V1, MIN_KA_TRANSFER_BYTES_V1. assert (MAX_KA_BUNDLE_BYTES_V1 < MAX_U64) by done. split.
  - intros H'. ok_inv. repeat match goal with H : _ || _ = false |- _ => apply orb_false_iff in H as [? ?] end. lia.
  - intros (Hp & Hs & -> & Hle). repeat (rewrite (proj2 (Z.ltb_ge _ _)) by lia; cbn [orb throw_if result_bind]). done.
Qed.

Lemma setBytes_front a b rest : length a = length b -> setBytes (a ++ rest) b 0 = b ++ rest.
Proof. intros Hl. unfold setBytes. simpl. f_equal. by rewrite drop_app_length'. Qed.

Lemma setBytes_after done target rest b :
  length target = length b -> setBytes (done ++ target ++ rest) b (length done) = (done ++ b) ++ rest.
Proof.
  intros Hl. unfold setBytes. rewrite take_app_length, <- app_assoc. do 2 f_equal.
  rewrite app_assoc, drop_app_length'; [done|]. rewrite length_app. lia.
Qed.

Lemma zeroBytes_add n m : zeroBytes (n + m) = zeroBytes n ++ zeroBytes m.
Proof. apply replicate_add. Qed.

(** The writes of the encoder lay out the frame. *)
Lemma encode_layout p s :
  let b0 := zeroBytes (16 + length p + length s) in
  let b1 := setBytes b0 (bigEndian 8 (js_length p)) 0 in
  let b2 := setBytes b1 p 8 in
  let b3 := setBytes b2 (bigEndian 8 (js_length s)) (8 + length p) in
  setBytes b3 s (8 + length p + 8) = frame p s.
Proof.
  cbn zeta. replace (16 + length p + length s)%nat with (8 + (length p + (8 + length s)))%nat by lia. rewrite !zeroBytes_add.
  rewrite setBytes_front by (by rewrite bigEndian_length).
  pose proof (setBytes_after (bigEndian 8 (js_length p)) (zeroBytes (length p)) (zeroBytes 8 ++ zeroBytes (length s)) p) as H1.
  rewrite bigEndian_length in H1. rewrite H1 by apply length_replicate.
  pose proof (setBytes_after (bigEndian 8 (js_length p) ++ p) (zeroBytes 8) (zeroBytes (length s)) (bigEndian 8 (js_length s))) as H2.
  rewrite !length_app, !bigEndian_length in H2. rewrite H2 by done.
  pose proof (setBytes_after ((bigEndian 8 (js_length p) ++ p) ++ bigEndian 8 (js_length s)) (zeroBytes (length s)) [] s) as H3.
  rewrite !length_app, !bigEndian_length, !app_nil_r in H3. rewrite H3 by apply length_replicate.
  unfold frame. by rewrite <- !app_assoc.
Qed.

Lemma subarray_frame_projection p s : subarray (frame p s) 8 (8 + length p) = p.
Proof.
  unfold subarray, frame. rewrite drop_app_length' by by rewrite bigEndian_length.
  replace (8 + length p - 8)%nat with (length p) by lia. apply take_app_length.
Qed.

Lemma subarray_frame_seal p s : subarray (frame p s) (8 + length p + 8) (8 + length p + 8 + length s) = s.
Proof.
  unfold subarray, frame. replace (8 + length p + 8 + length s - (8 + length p + 8))%nat with (length s) by lia.
  rewrite !app_assoc. rewrite drop_app_length' by (rewrite !length_app, !bigEndian_length; lia). by rewrite take_ge.
Qed.

Section Codec.
Context (sha256 : bytes -> bytes).

Lemma encode_Ok p s e :
  encodeOpaqueKaBundleV1 sha256 p s = Ok e <->
  js_length (frame p s) <= MAX_KA_BUNDLE_BYTES_V1 /\ bundleBytes e = frame p s /\
  computeKaProjectionDigestV1 sha256 p = Ok (enc_projectionDigest e) /\
  digestToLowerHex sha256 KA_BUNDLE_BLOB_DIGEST_DOMAIN_V1 (frame p s) = Ok (enc_blobDigest e).
Proof.
  rewrite frame_length. unfold encodeOpaqueKaBundleV1, encodeU64Be. assert (MAX_KA_BUNDLE_BYTES_V1 < MAX_U64) as Hmax by done.
  assert (forall n, 0 <= n <= MAX_KA_BUNDLE_BYTES_V1 -> assertU64Length n = Ok tt) as Hu.
  { intros n Hn. unfold assertU64Length. by rewrite !(proj2 (Z.ltb_ge _ _)) by lia. }
  assert (0 <= js_length p /\ 0 <= js_length s) as [Hp Hs] by (unfold js_length; lia).
  destruct (Z.le_gt_cases (16 + js_length p + js_length s) MAX_KA_BUNDLE_BYTES_V1) as [Hle|Hgt].
  - rewrite (proj2 (calculate_Ok _ _ (16 + js_length p + js_length s))) by done. cbn [result_bind].
    rewrite !Hu by lia. cbn [result_bind].
    replace (Z.to_nat (16 + js_length p + js_length s)) with (16 + length p + length s)%nat by (unfold js_length; lia).
    pose proof (encode_layout p s) as El. cbn zeta in El. unfold KA_BUNDLE_U64_PREFIX_BYTES_V1. cbn [Nat.add] in El |- *. rewrite El.
    change (S (S (S (S (S (S (S (S (length p))))))))) with (8 + length p)%nat. rewrite subarray_frame_projection.
    rewrite !result_bind_Ok. setoid_rewrite result_bind_Ok. destruct e as [b pd bd]. cbn. split.
    + intros (pd' & Hpd & bd' & Hbd & [= <- <- <-]). done.
    + intros (_ & -> & Hpd & Hbd). eauto 10.
  - split; [|lia]. intros H. apply result_bind_Ok in H as (n & H & _). apply calculate_Ok in H. lia.
Qed.

Lemma decodeU64_Ok b off v :
  decodeU64Be b off = Ok v <->
  exists pre post, b = pre ++ bigEndian 8 v ++ post /\ off = js_length pre /\ 0 <= v <= MAX_U64.
Proof.
  unfold decodeU64Be. change (Z.of_nat KA_BUNDLE_U64_PREFIX_BYTES_V1) with 8. unfold KA_BUNDLE_U64_PREFIX_BYTES_V1. split.
  - intros H'. ok_inv. repeat match goal with H : _ || _ = false |- _ => apply orb_false_iff in H as [? ?] end. subst v.
    set (off' := Z.to_nat off). set (w := take 8 (drop off' b)).
    assert (length w = 8%nat) as Hw by (unfold w, off', js_length in *; rewrite length_take, length_drop; lia).
    exists (take off' b), (drop 8 (drop off' b)). pose proof (ofBigEndian_bounds w) as Hb. unfold js_length in *. rewrite Hw in Hb.
    change (256 ^ Z.of_nat 8) with (MAX_U64 + 1) in Hb. split; [|split; [rewrite length_take; unfold off'; lia|lia]].
    rewrite <- Hw at 1. rewrite bigEndian_ofBigEndian. unfold w. by rewrite !take_drop.
  - intros (pre & post & -> & -> & Hv). unfold js_length. rewrite !length_app, bigEndian_length, !(proj2 (Z.ltb_ge _ _)) by lia.
    cbn [orb throw_if]. rewrite Nat2Z.id, drop_app_length, take_app_length' by by rewrite bigEndian_length.
    f_equal. apply ofBigEndian_bigEndian. change (256 ^ Z.of_nat 8) with (MAX_U64 + 1). lia.
Qed.

(** Bytes whose two prefixes account for their length are a frame. *)
Lemma frame_of_prefixes b n m :
  decodeU64Be b 0 = Ok n -> decodeU64Be b (8 + n) = Ok m -> js_length b = 16 + n + m ->
  exists p s, b = frame p s /\ n = js_length p /\ m = js_length s.
Proof.
  rewrite !decodeU64_Ok. intros (pre0 & rest & E & H0 & Hn) (pre & post & E' & Hl & Hm) Hb.
  destruct pre0; [|unfold js_length in H0; simpl in H0; lia]. rewrite app_nil_l in E.
  assert (pre = bigEndian 8 n ++ drop 8 pre) as Hpre.
  { rewrite <- (take_drop 8 pre) at 1. f_equal. rewrite E in E'. apply (f_equal (take 8)) in E'.
    rewrite (take_app_length' (bigEndian 8 n)) in E' by (symmetry; apply bigEndian_length).
    rewrite take_app_le in E'; [done|]. unfold js_length in Hl. lia. }
  exists (drop 8 pre), post.
  assert (n = js_length (drop 8 pre)) as En by (unfold js_length in *; rewrite length_drop; lia).
  assert (m = js_length post) as Em.
  { rewrite E' in Hb. unfold js_length in *. rewrite !length_app, bigEndian_length in Hb. lia. }
  split; [|done]. unfold frame. rewrite <- En, <- Em, E'. rewrite Hpre at 1. by rewrite <- app_assoc.
Qed.

Lemma prefixes_of_frame p s :
  js_length (frame p s) <= MAX_KA_BUNDLE_BYTES_V1 ->
  decodeU64Be (frame p s) 0 = Ok (js_length p) /\ decodeU64Be (frame p s) (8 + js_length p) = Ok (js_length s).
Proof.
  rewrite frame_length. intros Hle. assert (MAX_KA_BUNDLE_BYTES_V1 < MAX_U64) by done. unfold js_length in *. rewrite !decodeU64_Ok. split.
  - exists [], (p ++ bigEndian 8 (js_length s) ++ s). split; [done|]. split; [done|lia].
  - exists (bigEndian 8 (js_length p) ++ p), s. unfold js_length. rewrite length_app, bigEndian_length. split; [|lia].
    unfold frame. by rewrite <- app_assoc.
Qed.

(** The decoder accepts the frames, and returns their two parts. *)
Lemma decode_Ok b d :
  decodeOpaqueKaBundleV1 sha256 b = Ok d <->
  b = frame (projectionBytes d) (sealBytes d) /\ js_length b <= MAX_KA_BUNDLE_BYTES_V1 /\
  computeKaProjectionDigestV1 sha256 (projectionBytes d) = Ok (dec_projectionDigest d) /\
  digestToLowerHex sha256 KA_BUNDLE_BLOB_DIGEST_DOMAIN_V1 b = Ok (dec_blobDigest d).
Proof.
  unfold decodeOpaqueKaBundleV1. unfold KA_BUNDLE_U64_PREFIX_BYTES_V1. split.
  - intros H'. ok_inv. rename select (calculateOpaqueKaBundleByteLengthV1 _ _ = Ok x3) into Hc.
    apply calculate_Ok in Hc as (? & ? & -> & ?).
    rename select (decodeU64Be b 0 = _) into Hp. rename select (decodeU64Be b (Z.of_nat _) = _) into Hs.
    replace (Z.of_nat (8 + Z.to_nat x0)) with (8 + x0) in Hs by lia.
    destruct (frame_of_prefixes _ _ _ Hp Hs) as (p & s & -> & -> & ->); [lia|].
    pose proof (frame_length p s). unfold js_length in *. rename select (Build_DecodedOpaqueKaBundleV1 _ _ _ _ = d) into Hd. rewrite !Nat2Z.id in *.
    pose proof (subarray_frame_seal p s) as Es. cbn [Nat.add] in Es. rewrite Es in Hd. clear Es.
    pose proof (subarray_frame_projection p s) as Ep. cbn [Nat.add] in *. rewrite Ep in *. subst d. cbn [projectionBytes sealBytes dec_projectionDigest dec_blobDigest].
    split_and!; [done|lia|done|done].
  - destruct d as [p s pd bd]. cbn [projectionBytes sealBytes dec_projectionDigest dec_blobDigest]. intros (-> & Hle & Hpd & Hbd).
    destruct (prefixes_of_frame p s Hle) as [Hp Hs]. rewrite frame_length in *. assert (0 <= js_length p /\ 0 <= js_length s) as [??] by (unfold js_length; lia).
    assert (assertOpaqueKaBundleByteLengthV1 (16 + js_length p + js_length s) = Ok tt) as ->.
    { unfold assertOpaqueKaBundleByteLengthV1, MIN_KA_BUNDLE_BYTES_V1, MIN_KA_TRANSFER_BYTES_V1.
      by rewrite !(proj2 (Z.ltb_ge _ _)) by lia. }
    cbn [result_bind]. rewrite Hp. cbn [result_bind].
    rewrite (proj2 (calculate_Ok (js_length p) 0 (16 + js_length p + 0))) by lia. cbn [result_bind]. rewrite (proj2 (Z.ltb_ge _ _)) by lia.
    cbn [throw_if]. replace (Z.of_nat (8 + Z.to_nat (js_length p))) with (8 + js_length p) by lia. rewrite Hs. cbn [result_bind].
    rewrite (proj2 (calculate_Ok _ _ (16 + js_length p + js_length s))) by lia. cbn [result_bind].
    rewrite !Z.ltb_irrefl. cbn [throw_if]. unfold js_length. rewrite !Nat2Z.id, subarray_frame_projection, subarray_frame_seal.
    by rewrite Hpd, Hbd.
Qed.

(** C29: A bundle round trip: encoding a projection and a seal yields a bundle
    and two digests exactly when decoding that bundle yields the projection, the
    seal and the same digests. Every accepted bundle is thus the encoding of
    what it decodes to, and only of that. *)
Theorem bundle_roundtrip p s b pd bd :
  encodeOpaqueKaBundleV1 sha256 p s = Ok {| bundleBytes := b; enc_projectionDigest := pd; enc_blobDigest := bd |} <->
  decodeOpaqueKaBundleV1 sha256 b =
    Ok {| projectionBytes := p; sealBytes := s; dec_projectionDigest := pd; dec_blobDigest := bd |}.
Proof. rewrite encode_Ok, decode_Ok. cbn. intuition congruence. Qed.

(** Updates accumulate the concatenation of their chunks. *)
Lemma accumulator_updates chunks a :
  acc_completed a = None ->
  foldl (fun r c => let* a := r in accumulatorUpdate a c) (Ok a) chunks =
  Ok {| acc_hashed := acc_hashed a ++ concat chunks; acc_completed := None |}.
Proof.
  revert a. induction chunks as [|c chunks IH]; intros [h o] Ho; cbn in Ho; subst o; cbn [foldl concat].
  - by rewrite app_nil_r.
  - cbn [result_bind]. unfold accumulatorUpdate at 2. cbn [acc_completed acc_hashed]. rewrite bool_decide_false by (intros []; done).
    cbn [throw_if]. rewrite IH by done. cbn. by rewrite <- app_assoc.
Qed.

(** However a projection is cut into chunks, the accumulator computes the digest
    of the whole, returns it again when asked again, and takes no chunk after. *)
Theorem accumulator_digest chunks :
  exists a, foldl (fun r c => let* a := r in accumulatorUpdate a c) (Ok createKaProjectionDigestAccumulatorV1) chunks = Ok a /\
  match computeKaProjectionDigestV1 sha256 (concat chunks) with
  | Ok d => exists a', accumulatorDigest sha256 a = Ok (d, a') /\ accumulatorDigest sha256 a' = Ok (d, a') /\
              forall c, accumulatorUpdate a' c = Err AlreadyFinalized
  | Err e => accumulatorDigest sha256 a = Err (EAccumulatorDigest e)
  end.
Proof.
  eexists. split; [by apply accumulator_updates|]. unfold computeKaProjectionDigestV1, digestToLowerHex, accumulatorDigest.
  cbn [acc_completed acc_hashed createKaProjectionDigestAccumulatorV1].
  destruct (digestBytesToLowerHex _) as [d|e]; cbn [mapErr result_bind]; [|done]. eexists. split; [done|]. split; [done|]. intros c. unfold accumulatorUpdate.
  cbn [acc_completed]. by rewrite bool_decide_true by done.
Qed.
End Codec.
