(* ===== verification/KaChunkTree.v ===== *)
(** * The chunk tree of a transfer

    packages/core/src/ka-chunk-tree.ts: the tree of digests over the chunks of a
    bundle.  Leaves bind their index and length, and leaves, nodes and lone
    children are hashed under different domains.  sha256 is a parameter; an
    incremental hasher hashes the concatenation of its updates. *)

From Stdlib Require Import Strings.Byte.
From S2P Require Import Prelude Bytes Merkle CodePoints JsText JsNumber CanonicalJson WireScalars KaTransfer KaBundle.

Open Scope Z_scope.

Definition KA_CHUNK_LEAF_DIGEST_DOMAIN_V1 : jsstr := js "dkg-ka-chunk-leaf-v1" ++ [fromCharCode 10].
Definition KA_CHUNK_NODE_DIGEST_DOMAIN_V1 : jsstr := js "dkg-ka-chunk-node-v1" ++ [fromCharCode 10].
Definition KA_CHUNK_ODD_DIGEST_DOMAIN_V1 : jsstr := js "dkg-ka-chunk-odd-v1" ++ [fromCharCode 10].
Definition KA_CHUNK_EMPTY_DIGEST_DOMAIN_V1 : jsstr := js "dkg-ka-chunk-empty-v1" ++ [fromCharCode 10].

Definition LEAF_DOMAIN_BYTES : bytes := encodeUtf8 KA_CHUNK_LEAF_DIGEST_DOMAIN_V1.
Definition NODE_DOMAIN_BYTES : bytes := encodeUtf8 KA_CHUNK_NODE_DIGEST_DOMAIN_V1.
Definition ODD_DOMAIN_BYTES : bytes := encodeUtf8 KA_CHUNK_ODD_DIGEST_DOMAIN_V1.
Definition EMPTY_DOMAIN_BYTES : bytes := encodeUtf8 KA_CHUNK_EMPTY_DIGEST_DOMAIN_V1.
Definition U64_BYTES : nat := 8.

Inductive KaChunkTreeV1ErrorCode :=
| ChunkTreeByteLength
| ChunkIndex
| ChunkByteLength
| ChunkCount.

(** A [KaChunkTreeV1Error], or the failed assertion of a digest. *)
Inductive ChunkTreeError :=
| EChunkTree (code : KaChunkTreeV1ErrorCode)
| EChunkTreeDigest (e : ScalarError).

Abbreviation tresult := (result ChunkTreeError).

Definition assertKaChunkTreeByteLengthV1 (byteLength : Z) : tresult unit :=
  throw EChunkTree ChunkTreeByteLength when (byteLength <? MIN_KA_TRANSFER_BYTES_V1) || (MAX_KA_TRANSFER_BYTES_V1 <? byteLength);
  Ok tt.

(** What is left of the value behind the eight bytes must be zero. *)
Definition encodeTreeU64Be (value : Z) : tresult bytes :=
  throw EChunkTree ChunkIndex when negb (Z.shiftr value (8 * Z.of_nat U64_BYTES) =? 0);
  Ok (bigEndian U64_BYTES value).

(** A loop that pushes the result of each iteration. *)
Fixpoint traverse {E A B} (f : A -> result E B) (l : list A) : result E (list B) :=
  match l with
  | [] => Ok []
  | a :: l => let* b := f a in let* bs := traverse f l in Ok (b :: bs)
  end.

(** ** Levels

    The loops over the levels of a tree are those of the root and of the proofs;
    they differ in how two children and a lone child are combined. *)

Section Levels.
Context {E A : Type} (node : A -> A -> result E A) (odd : A -> result E A).

Fixpoint parentLevel (level : list A) : result E (list A) :=
  match level with
  | [] => Ok []
  | [x] => let* d := odd x in Ok [d]
  | x :: y :: rest => let* d := node x y in let* ds := parentLevel rest in Ok (d :: ds)
  end.

(** The levels below the last one, and the last one. *)
Fixpoint levelLoop (fuel : nat) (level : list A) : result E (list (list A) * list A) :=
  match fuel with
  | O => Ok ([], level)
  | S fuel =>
      if 1 <? js_length level then
        let* parents := parentLevel level in
        let* (levels, last) := levelLoop fuel parents in
        Ok (level :: levels, last)
      else Ok ([], level)
  end.
End Levels.

(** [bundleBytes.subarray(start, end)] of the chunk with an index *)
Definition chunkAt (bundle : bytes) (index : Z) : bytes :=
  let start := index * KA_TRANSFER_CHUNK_SIZE_BYTES_V1 in
  let stop := Z.min (start + KA_TRANSFER_CHUNK_SIZE_BYTES_V1) (js_length bundle) in
  subarray bundle (Z.to_nat start) (Z.to_nat stop).

Section Tree.
Context (sha256 : bytes -> bytes).

Definition digestBytes (domain : bytes) (chunks : list bytes) : bytes := sha256 (domain ++ concat chunks).

Definition computeLeafDigestBytes (chunkIndex : Z) (chunkBytes : bytes) : tresult bytes :=
  let* index := encodeTreeU64Be chunkIndex in
  let* length := encodeTreeU64Be (js_length chunkBytes) in
  Ok (digestBytes LEAF_DOMAIN_BYTES [index; length; chunkBytes]).

Definition computeKaChunkLeafDigestV1 (chunkIndex : Z) (chunkBytes : bytes) : tresult jsstr :=
  throw EChunkTree ChunkIndex when (chunkIndex <? 0) || (MAX_KA_TRANSFER_CHUNKS_V1 <=? chunkIndex);
  let byteLength := js_length chunkBytes in
  throw EChunkTree ChunkByteLength when (byteLength <? 1) || (KA_TRANSFER_CHUNK_SIZE_BYTES_V1 <? byteLength);
  let* digest := computeLeafDigestBytes chunkIndex chunkBytes in
  mapErr EChunkTreeDigest (digestBytesToLowerHex digest).

Definition computeKaChunkTreeRootV1 (bundle : bytes) : tresult jsstr :=
  let byteLength := js_length bundle in
  let* _ := assertKaChunkTreeByteLengthV1 byteLength in
  let chunkCount := (byteLength - 1) / KA_TRANSFER_CHUNK_SIZE_BYTES_V1 + 1 in
  throw EChunkTree ChunkCount when (chunkCount <? 1) || (MAX_KA_TRANSFER_CHUNKS_V1 <? chunkCount);
  let* level := traverse (fun index => computeLeafDigestBytes index (chunkAt bundle index)) (seqZ 0 chunkCount) in
  let* (_, level) :=
    levelLoop (fun l r => Ok (digestBytes NODE_DOMAIN_BYTES [l; r])) (fun c => Ok (digestBytes ODD_DOMAIN_BYTES [c]))
      (length level) level in
  mapErr EChunkTreeDigest (digestBytesToLowerHex (default [] (level !! 0%nat))).

Definition computeEmptyKaChunkTreeRootV1 : tresult jsstr :=
  mapErr EChunkTreeDigest (digestBytesToLowerHex (digestBytes EMPTY_DOMAIN_BYTES [])).
End Tree.

(** ** Trees

    The tree whose digests the levels hold. *)

Inductive tree :=
| Leaf (index : Z) (chunk : bytes)
| Node (l r : tree)
| Odd (child : tree).

Fixpoint leaves (t : tree) : list (Z * bytes) :=
  match t with
  | Leaf i c => [(i, c)]
  | Node l r => leaves l ++ leaves r
  | Odd c => leaves c
  end.

(** Indexes that eight bytes hold. *)
Definition indexed (ls : list (Z * bytes)) : Prop := Forall (fun l => 0 <= l.1 < 256 ^ 8) ls.

Fixpoint parentTrees (level : list tree) : list tree :=
  match level with
  | [] => []
  | [x] => [Odd x]
  | x :: y :: rest => Node x y :: parentTrees rest
  end.

Fixpoint treeLoop (fuel : nat) (level : list tree) : list (list tree) * list tree :=
  match fuel with
  | O => ([], level)
  | S fuel =>
      if 1 <? js_length level then
        let '(levels, last) := treeLoop fuel (parentTrees level) in (level :: levels, last)
      else ([], level)
  end.

(** The leaves of a bundle. *)
Definition chunkCountOf (bundle : bytes) : Z := expectedChunkCountOf (js_length bundle).

Definition bundleLeaves (bundle : bytes) : list tree :=
  map (fun i => Leaf i (chunkAt bundle i)) (seqZ 0 (chunkCountOf bundle)).

Definition bundleTree (bundle : bytes) : tree :=
  let ls := bundleLeaves bundle in default (Leaf 0 []) ((treeLoop (length ls) ls).2 !! 0%nat).

Section TreeDigest.
Context (sha256 : bytes -> bytes).

Definition leafInput (i : Z) (c : bytes) : bytes := LEAF_DOMAIN_BYTES ++ bigEndian 8 i ++ bigEndian 8 (js_length c) ++ c.
Definition nodeInput (l r : bytes) : bytes := NODE_DOMAIN_BYTES ++ l ++ r.
Definition oddInput (c : bytes) : bytes := ODD_DOMAIN_BYTES ++ c.

Fixpoint treeDigest (t : tree) : bytes :=
  match t with
  | Leaf i c => sha256 (leafInput i c)
  | Node l r => sha256 (nodeInput (treeDigest l) (treeDigest r))
  | Odd c => sha256 (oddInput (treeDigest c))
  end.

(** The inputs hashed for the digest of a tree. *)
Fixpoint treeInputs (t : tree) : list bytes :=
  match t with
  | Leaf i c => [leafInput i c]
  | Node l r => nodeInput (treeDigest l) (treeDigest r) :: treeInputs l ++ treeInputs r
  | Odd c => oddInput (treeDigest c) :: treeInputs c
  end.

(** The inputs hashed for the root of a bundle. *)
Definition bundleInputs (bundle : bytes) : list bytes := treeInputs (bundleTree bundle).
End TreeDigest.

(** ** Facts *)

(** *** Loops *)

Lemma traverse_map {E A B} (f : A -> result E B) (g : A -> B) l :
  Forall (fun a => f a = Ok (g a)) l -> traverse f l = Ok (map g l).
Proof. induction 1 as [|a l Ha _ IH]; [done|]. simpl. by rewrite Ha, IH. Qed.

Lemma parentTrees_length l : length (parentTrees l) = ((length l + 1) / 2)%nat.
Proof.
  induction l as [|x|x y l IH] using list_ind_2; [done..|]. cbn [parentTrees length]. rewrite IH.
  replace (S (S (length l)) + 1)%nat with (1 * 2 + (length l + 1))%nat by lia. by rewrite Nat.div_add_l.
Qed.

Lemma parentTrees_leaves l : flat_map leaves (parentTrees l) = flat_map leaves l.
Proof. induction l as [|x|x y l IH] using list_ind_2; [done..|]. cbn [parentTrees flat_map leaves]. by rewrite IH, app_assoc. Qed.

Lemma parentTrees_even l p x y :
  l !! (2 * p)%nat = Some x -> l !! (2 * p + 1)%nat = Some y -> parentTrees l !! p = Some (Node x y).
Proof.
  revert p. induction l as [|a|a b l IH] using list_ind_2; intros p Hx Hy; [done| |].
  - apply lookup_lt_Some in Hy. simpl in Hy. lia.
  - destruct p as [|p]; [simpl in *; congruence|]. cbn [parentTrees lookup list_lookup].
    replace (2 * S p)%nat with (S (S (2 * p))) in Hx by lia. replace (2 * S p + 1)%nat with (S (S (2 * p + 1))) in Hy by lia. by apply IH.
Qed.

Lemma parentTrees_odd l p x :
  l !! (2 * p)%nat = Some x -> length l = (2 * p + 1)%nat -> parentTrees l !! p = Some (Odd x).
Proof.
  revert p. induction l as [|a|a b l IH] using list_ind_2; intros p Hx Hl; [done| |].
  - simpl in Hl. destruct p; [simpl in *; congruence|lia].
  - destruct p as [|p]; [simpl in Hl; lia|]. cbn [parentTrees lookup list_lookup].
    replace (2 * S p)%nat with (S (S (2 * p))) in Hx by lia. apply IH; [done|]. simpl in Hl. lia.
Qed.

(** Enough iterations leave one tree, with the leaves of the level. *)
Lemma treeLoop_last fuel l :
  l <> [] -> (length l <= fuel)%nat -> exists t, (treeLoop fuel l).2 = [t] /\ leaves t = flat_map leaves l.
Proof.
  revert l. induction fuel as [|fuel IH]; intros l Hne Hl; [destruct l; simpl in Hl; [done|lia]|].
  cbn [treeLoop]. unfold js_length. destruct (Z.ltb_spec 1 (Z.of_nat (length l))).
  - destruct (IH (parentTrees l)) as (t & Ht & Hlv).
    + intros E. apply (f_equal length) in E. rewrite parentTrees_length in E. cbn [length] in E. lia.
    + rewrite parentTrees_length. lia.
    + exists t. destruct (treeLoop fuel (parentTrees l)). by rewrite <- parentTrees_leaves.
  - destruct l as [|x [|y l]]; [done| |simpl in *; lia]. exists x. cbn. by rewrite app_nil_r.
Qed.

Section Simulation.
Context {E A : Type} (node : A -> A -> result E A) (odd : A -> result E A) (repr : tree -> A).
Context (Hnode : forall l r, node (repr l) (repr r) = Ok (repr (Node l r))) (Hodd : forall c, odd (repr c) = Ok (repr (Odd c))).

Lemma parentLevel_repr l : parentLevel node odd (map repr l) = Ok (map repr (parentTrees l)).
Proof.
  induction l as [|x|x y l IH] using list_ind_2; [done| |]; cbn [map parentLevel parentTrees].
  - by rewrite Hodd.
  - by rewrite Hnode, IH.
Qed.

(** The levels that the loops build represent those of the trees. *)
Lemma levelLoop_repr fuel l :
  levelLoop node odd fuel (map repr l) = Ok (map (map repr) (treeLoop fuel l).1, map repr (treeLoop fuel l).2).
Proof.
  revert l. induction fuel as [|fuel IH]; intros l; [done|]. cbn [levelLoop treeLoop]. unfold js_length. rewrite length_map.
  destruct (1 <? _); [|done]. rewrite parentLevel_repr. cbn [result_bind]. rewrite IH.
  by destruct (treeLoop fuel (parentTrees l)).
Qed.
End Simulation.

(** *** Chunks *)

Lemma slices_concat (n k : nat) (b : bytes) : concat (map (fun i => take n (drop (i * n) b)) (seq 0 k)) = take (k * n) b.
Proof.
  induction k as [|k IH]; [done|]. rewrite seq_S, map_app, concat_app, IH. cbn [map concat]. rewrite app_nil_r, Nat.add_0_l.
  rewrite take_take_drop. f_equal. lia.
Qed.

Lemma chunkAt_take b i :
  0 <= i -> chunkAt b i = take (Z.to_nat KA_TRANSFER_CHUNK_SIZE_BYTES_V1) (drop (Z.to_nat i * Z.to_nat KA_TRANSFER_CHUNK_SIZE_BYTES_V1) b).
Proof.
  intros Hi. unfold chunkAt, subarray. assert (0 < KA_TRANSFER_CHUNK_SIZE_BYTES_V1) as Hs by done. revert Hs.
  generalize KA_TRANSFER_CHUNK_SIZE_BYTES_V1. intros n Hn. rewrite <- Z2Nat.inj_mul by lia. unfold js_length.
  set (s := Z.to_nat (i * n)). destruct (decide (Z.to_nat n <= length (drop s b))%nat) as [Hl|Hl]; rewrite length_drop in Hl.
  - f_equal. lia.
  - rewrite !take_ge; [done|..]; rewrite length_drop; lia.
Qed.

Lemma chunks_concat b : 1 <= js_length b -> concat (map (chunkAt b) (seqZ 0 (chunkCountOf b))) = b.
Proof.
  intros Hl. unfold seqZ. change (map (chunkAt b) ?l) with (chunkAt b <$> l). rewrite <- list_fmap_compose.
  rewrite (list_fmap_ext _ (fun i => take (Z.to_nat KA_TRANSFER_CHUNK_SIZE_BYTES_V1) (drop (i * Z.to_nat KA_TRANSFER_CHUNK_SIZE_BYTES_V1) b))).
  2:{ intros i x _. cbn. rewrite chunkAt_take by lia. by rewrite Z.add_0_r, Nat2Z.id. }
  etrans; [apply slices_concat|]. apply take_ge. unfold chunkCountOf, expectedChunkCountOf, js_length in *.
  assert (0 < KA_TRANSFER_CHUNK_SIZE_BYTES_V1) as Hs by done. revert Hs. generalize KA_TRANSFER_CHUNK_SIZE_BYTES_V1. intros n Hn.
  rewrite <- Z2Nat.inj_mul by (pose proof (Z.div_pos (Z.of_nat (length b) - 1) n); lia).
  pose proof (Z.mod_pos_bound (Z.of_nat (length b) - 1) n Hn). pose proof (Z.div_mod (Z.of_nat (length b) - 1) n ltac:(lia)). lia.
Qed.

Lemma chunkAt_length b i :
  0 <= i < chunkCountOf b ->
  js_length (chunkAt b i) =
    if i + 1 <? chunkCountOf b then KA_TRANSFER_CHUNK_SIZE_BYTES_V1
    else js_length b - (chunkCountOf b - 1) * KA_TRANSFER_CHUNK_SIZE_BYTES_V1.
Proof.
  intros Hi. rewrite chunkAt_take by lia. unfold js_length. rewrite length_take, length_drop. unfold chunkCountOf, expectedChunkCountOf, js_length in *.
  assert (0 < KA_TRANSFER_CHUNK_SIZE_BYTES_V1) as Hs by done. revert Hi Hs. generalize KA_TRANSFER_CHUNK_SIZE_BYTES_V1. intros n Hi Hn.
  rewrite <- Z2Nat.inj_mul by lia.
  pose proof (Z.mod_pos_bound (Z.of_nat (length b) - 1) n Hn). pose proof (Z.div_mod (Z.of_nat (length b) - 1) n ltac:(lia)).
  set (q := (Z.of_nat (length b) - 1) / n) in *. assert (i * n <= n * q) by nia. destruct (Z.ltb_spec (i + 1) (q + 1)).
  - assert ((i + 1) * n <= n * q) by nia. lia.
  - assert (i = q) as -> by lia. lia.
Qed.

Lemma bundleTree_leaves b :
  1 <= js_length b -> leaves (bundleTree b) = map (fun i => (i, chunkAt b i)) (seqZ 0 (chunkCountOf b)).
Proof.
  intros Hl. unfold bundleTree. destruct (treeLoop_last (length (bundleLeaves b)) (bundleLeaves b)) as (t & -> & Ht).
  - unfold bundleLeaves. intros E. apply (f_equal length) in E. rewrite length_map, length_seqZ in E. cbn [length] in E.
    unfold chunkCountOf, expectedChunkCountOf, KA_TRANSFER_CHUNK_SIZE_BYTES_V1 in E. lia.
  - done.
  - cbn. rewrite Ht. unfold bundleLeaves. induction (seqZ 0 (chunkCountOf b)) as [|i l IH]; [done|]. simpl. by rewrite IH.
Qed.

Lemma bundleTree_inj b1 b2 : 1 <= js_length b1 -> 1 <= js_length b2 -> bundleTree b1 = bundleTree b2 -> b1 = b2.
Proof.
  intros H1 H2 E. apply (f_equal leaves) in E. rewrite !bundleTree_leaves in E by done. apply (f_equal (map snd)) in E. rewrite !map_map in E. cbn in E.
  rewrite <- (chunks_concat b1), <- (chunks_concat b2) by done. by f_equal.
Qed.

Lemma chunkCountOf_range b :
  MIN_KA_TRANSFER_BYTES_V1 <= js_length b <= MAX_KA_TRANSFER_BYTES_V1 -> 1 <= chunkCountOf b <= MAX_KA_TRANSFER_CHUNKS_V1.
Proof. apply expectedChunkCount_range. Qed.

Lemma bundleTree_indexed b : MIN_KA_TRANSFER_BYTES_V1 <= js_length b <= MAX_KA_TRANSFER_BYTES_V1 -> indexed (leaves (bundleTree b)).
Proof.
  intros Hb. pose proof (chunkCountOf_range b Hb). rewrite bundleTree_leaves by (unfold MIN_KA_TRANSFER_BYTES_V1 in Hb; lia).
  apply Forall_map, Forall_forall. intros i Hi%elem_of_seqZ. cbn. unfold MAX_KA_TRANSFER_CHUNKS_V1 in *. lia.
Qed.

(** *** Digests *)

Lemma leafInput_inj i c j d :
  0 <= i < 256 ^ 8 -> 0 <= j < 256 ^ 8 -> leafInput i c = leafInput j d -> i = j /\ c = d.
Proof.
  unfold leafInput. intros Hi Hj E%app_inv_head. apply app_inj_1 in E as [Ei E]; [|by rewrite !bigEndian_length].
  apply app_inj_1 in E as [_ E]; [|by rewrite !bigEndian_length]. split; [|done]. by eapply (bigEndian_inj 8).
Qed.

Lemma nodeInput_inj a b c d : length a = length c -> nodeInput a b = nodeInput c d -> a = c /\ b = d.
Proof. unfold nodeInput. intros Hl E%app_inv_head. by apply app_inj_1 in E. Qed.

(** The byte of a domain that tells it from the others. *)
Lemma domain_mark i c l r o :
  leafInput i c !! 13%nat = Some x6c /\ nodeInput l r !! 13%nat = Some x6e /\ oddInput o !! 13%nat = Some x6f.
Proof.
  unfold leafInput, nodeInput, oddInput. set (x := bigEndian 8 i ++ _). set (y := l ++ r). clearbody x y. split_and!; reflexivity.
Qed.

Lemma leaf_not_node i c l r : leafInput i c <> nodeInput l r.
Proof. destruct (domain_mark i c l r []) as (H1 & H2 & _). congruence. Qed.

Lemma leaf_not_odd i c o : leafInput i c <> oddInput o.
Proof. destruct (domain_mark i c [] [] o) as (H1 & _ & H2). congruence. Qed.

Lemma node_not_odd l r o : nodeInput l r <> oddInput o.
Proof. destruct (domain_mark 0 [] l r o) as (_ & H1 & H2). congruence. Qed.

(** Refutes an equality of inputs under different domains. *)
Ltac mixed_domains E :=
  exfalso; first [exact (leaf_not_node _ _ _ _ E) | exact (leaf_not_odd _ _ _ E) | exact (node_not_odd _ _ _ E)
    | exact (leaf_not_node _ _ _ _ (eq_sym E)) | exact (leaf_not_odd _ _ _ (eq_sym E)) | exact (node_not_odd _ _ _ (eq_sym E))].

Section Binding.
Context (sha256 : bytes -> bytes) (Hlen : forall b, length (sha256 b) = 32%nat).
Local Abbreviation digest := (treeDigest sha256).
Local Abbreviation inputs := (treeInputs sha256).

Lemma treeDigest_length t : length (digest t) = 32%nat.
Proof. by destruct t; simpl. Qed.

(** The input hashed last. *)
Definition rootInput (t : tree) : bytes :=
  match t with
  | Leaf i c => leafInput i c
  | Node l r => nodeInput (digest l) (digest r)
  | Odd c => oddInput (digest c)
  end.

Lemma rootInput_spec t : digest t = sha256 (rootInput t) /\ rootInput t ∈ inputs t.
Proof. destruct t; (split; [done|left]). Qed.

Lemma rootInput_or t1 t2 :
  digest t1 = digest t2 -> rootInput t1 = rootInput t2 \/ CollisionIn sha256 (inputs t1 ++ inputs t2).
Proof.
  intros E. destruct (rootInput_spec t1) as [E1 H1], (rootInput_spec t2) as [E2 H2].
  apply hash_inj_or; [apply elem_of_app; auto..|congruence].
Qed.

(** Equal digests are digests of equal trees. *)
Lemma tree_binds t1 t2 :
  indexed (leaves t1) -> indexed (leaves t2) -> digest t1 = digest t2 -> t1 = t2 \/ CollisionIn sha256 (inputs t1 ++ inputs t2).
Proof.
  revert t2. induction t1 as [i c|l IHl r IHr|o IHo]; intros t2 Hi1 Hi2 E; (destruct (rootInput_or _ _ E) as [E'|]; [|by right]);
    destruct t2 as [j d|l' r'|o']; cbn [leaves rootInput] in *;
    try (mixed_domains E').
  - apply leafInput_inj in E' as [-> ->]; [by left|by apply Forall_cons in Hi1 as [? _]|by apply Forall_cons in Hi2 as [? _]].
  - unfold indexed in *. apply Forall_app in Hi1 as [? ?], Hi2 as [? ?].
    apply nodeInput_inj in E' as [El Er]; [|by rewrite !treeDigest_length].
    destruct (IHl l') as [->|]; [done..| |right; eapply collision_mono; [|eassumption]; cbn [treeInputs]; set_solver].
    destruct (IHr r') as [->|]; [done..|by left|right; eapply collision_mono; [|eassumption]; cbn [treeInputs]; set_solver].
  - apply app_inv_head in E'.
    destruct (IHo o') as [->|]; [done..|by left|right; eapply collision_mono; [|eassumption]; cbn [treeInputs]; set_solver].
Qed.

(** *** The root *)

Lemma encodeTreeU64_Ok v : 0 <= v < 256 ^ 8 -> encodeTreeU64Be v = Ok (bigEndian 8 v).
Proof.
  intros Hv. unfold encodeTreeU64Be. change (8 * Z.of_nat U64_BYTES) with 64.
  rewrite Z.shiftr_div_pow2, Z.div_small by lia. done.
Qed.

Lemma leafDigest_Ok b i :
  MIN_KA_TRANSFER_BYTES_V1 <= js_length b <= MAX_KA_TRANSFER_BYTES_V1 -> 0 <= i < chunkCountOf b ->
  computeLeafDigestBytes sha256 i (chunkAt b i) = Ok (digest (Leaf i (chunkAt b i))).
Proof.
  intros Hb Hi. pose proof (chunkCountOf_range b Hb) as Hc. unfold computeLeafDigestBytes.
  unfold MIN_KA_TRANSFER_BYTES_V1, MAX_KA_TRANSFER_BYTES_V1, MAX_KA_TRANSFER_CHUNKS_V1 in *.
  assert (js_length (chunkAt b i) <= js_length b).
  { unfold js_length. rewrite chunkAt_take, length_take, length_drop by lia. lia. }
  rewrite !encodeTreeU64_Ok by (unfold js_length in *; lia). cbn [result_bind treeDigest]. unfold digestBytes, leafInput.
  cbn [concat]. by rewrite app_nil_r.
Qed.

(** The root is the digest of the tree of the bundle; the only error is a length
    out of range. *)
Lemma root_outcome b :
  computeKaChunkTreeRootV1 sha256 b =
  if (MIN_KA_TRANSFER_BYTES_V1 <=? js_length b) && (js_length b <=? MAX_KA_TRANSFER_BYTES_V1) then Ok (lowerHex (digest (bundleTree b)))
  else Err (EChunkTree ChunkTreeByteLength).
Proof.
  unfold computeKaChunkTreeRootV1, assertKaChunkTreeByteLengthV1. rewrite !Z.leb_antisym.
  destruct (js_length b <? MIN_KA_TRANSFER_BYTES_V1) eqn:H1; [done|]. destruct (MAX_KA_TRANSFER_BYTES_V1 <? js_length b) eqn:H2; [done|].
  cbn [orb andb negb throw_if result_bind]. fold (expectedChunkCountOf (js_length b)). fold (chunkCountOf b).
  assert (MIN_KA_TRANSFER_BYTES_V1 <= js_length b <= MAX_KA_TRANSFER_BYTES_V1) as Hb by lia. pose proof (chunkCountOf_range b Hb) as Hc.
  rewrite !(proj2 (Z.ltb_ge _ _)) by lia. cbn [orb throw_if].
  rewrite (traverse_map _ (fun i => digest (Leaf i (chunkAt b i)))).
  2:{ apply Forall_forall. intros i Hi%elem_of_seqZ. apply leafDigest_Ok; [done|lia]. }
  cbn [result_bind]. rewrite <- (map_map (fun i => Leaf i (chunkAt b i)) digest). fold (bundleLeaves b). rewrite length_map.
  rewrite (levelLoop_repr _ _ digest); [|intros; unfold digestBytes, nodeInput, oddInput; cbn [concat treeDigest]; rewrite !app_nil_r; reflexivity..].
  cbn [result_bind]. unfold bundleTree. destruct (treeLoop_last (length (bundleLeaves b)) (bundleLeaves b)) as (t & -> & _); [|done|].
  - unfold bundleLeaves. intros E. apply (f_equal length) in E. rewrite length_map, length_seqZ in E. cbn [length] in E. lia.
  - cbn. by rewrite digestBytesToLowerHex_Ok by apply treeDigest_length.
Qed.

Lemma root_Ok b r :
  computeKaChunkTreeRootV1 sha256 b = Ok r <->
  MIN_KA_TRANSFER_BYTES_V1 <= js_length b <= MAX_KA_TRANSFER_BYTES_V1 /\ r = lowerHex (digest (bundleTree b)).
Proof.
  rewrite root_outcome. destruct (andb _ _) eqn:E.
  - apply andb_true_iff in E as [E1%Z.leb_le E2%Z.leb_le]. split; [by intros [= <-]|by intros [_ ->]].
  - apply andb_false_iff in E. rewrite !Z.leb_gt in E. split; [done|lia].
Qed.

(** Equal chunk tree roots mean equal bundles, of equal length and in every
    byte, unless sha256 collides on inputs hashed for the two roots. *)
Theorem tree_root_binds b1 b2 r :
  computeKaChunkTreeRootV1 sha256 b1 = Ok r -> computeKaChunkTreeRootV1 sha256 b2 = Ok r ->
  b1 = b2 \/ CollisionIn sha256 (bundleInputs sha256 b1 ++ bundleInputs sha256 b2).
Proof.
  intros [Hb1 ->]%root_Ok [Hb2 E%lowerHex_inj]%root_Ok.
  destruct (tree_binds (bundleTree b1) (bundleTree b2)) as [Et|]; [by apply bundleTree_indexed..|done| |by right].
  left. unfold MIN_KA_TRANSFER_BYTES_V1 in *. apply bundleTree_inj; [lia..|done].
Qed.
End Binding.

(** *** Examples *)

Definition sampleBundle (x : byte) : bytes := replicate 16 x.

Lemma tree_root_binds_witness :
  sampleBundle x01 = sampleBundle x02 \/
  CollisionIn sampleHash (bundleInputs sampleHash (sampleBundle x01) ++ bundleInputs sampleHash (sampleBundle x02)).
Proof.
  apply (tree_root_binds sampleHash sampleHash_length) with (r := lowerHex (sampleHash (leafInput 0 (sampleBundle x01))));
    vm_compute; reflexivity.
Defined.
