(* ===== verification/KaChunkProof.v ===== *)
(** * Proofs of chunks

    packages/core/src/ka-chunk-proof.ts: the proof that a chunk is the one of a
    transfer, its canonical JSON, how a provider builds the proofs of a request
    and how a receiver checks one.  A JSON array is dense and has no other
    properties, so [assertClosedDenseArray] holds for it. *)

From Stdlib Require Import Strings.Byte.
From S2P Require Import Prelude Bytes Merkle CodePoints JsText JsNumber CanonicalJson CanonicalJsonTheory.
From S2P Require Import CanonicalJsonRoundtrip PlainJson WireScalars KaTransfer KaBundle KaChunkTree.

Open Scope Z_scope.

Definition MAX_KA_CHUNK_PROOF_BYTES_V1 : Z := 1280.
Definition MAX_KA_CHUNK_PROOF_DEPTH_V1 : Z := 3.
Definition MAX_KA_CHUNK_PROOF_STEPS_V1 : Z := 12.
Definition MAX_KA_CHUNK_PROOFS_PER_REQUEST_V1 : Z := 16.

Inductive StepKind := KLeft | KRight | KOdd.

#[export] Instance StepKind_eq_dec : EqDecision StepKind.
Proof. solve_decision. Defined.

Inductive KaChunkProofStepV1 :=
| StepLeft (digest : jsstr)
| StepRight (digest : jsstr)
| StepOdd.

Record KaChunkProofV1 := { proofChunkIndex : jsstr; proofSteps : list KaChunkProofStepV1 }.

Inductive KaChunkProofV1ErrorCode :=
| ProofSchema
| ProofObjectTooLarge
| ProofChunkCount
| ProofChunkIndex
| ProofRequestIndexes
| ProofTopology
| ProofChunkByteLength
| ProofRootMismatch.

(** A [KaChunkProofV1Error], or an error that passes through. *)
Inductive ProofError :=
| EProof (code : KaChunkProofV1ErrorCode)
| EProofTree (e : ChunkTreeError)
| EProofJson (e : CanonicalJsonError)
| EProofScalar (e : ScalarError).

Abbreviation presult := (result ProofError).

(** ** The schema *)

Definition kindText (kind : StepKind) : jsstr :=
  match kind with KLeft => js "left" | KRight => js "right" | KOdd => js "odd" end.

Definition assertChunkCount (chunkCount : Z) : presult unit :=
  throw EProof ProofChunkCount when (chunkCount <? 1) || (MAX_KA_TRANSFER_CHUNKS_V1 <? chunkCount); Ok tt.

Definition expectedChunkCount (byteLength : Z) : presult Z :=
  let chunkCount := (byteLength - 1) / KA_TRANSFER_CHUNK_SIZE_BYTES_V1 + 1 in
  let* _ := assertChunkCount chunkCount in Ok chunkCount.

(** The kind that the position and the width of a level ask for. *)
Definition expectedKind (position width : Z) : StepKind :=
  if position mod 2 =? 1 then KLeft else if position + 1 <? width then KRight else KOdd.

Definition stepKeys (kind : StepKind) : list jsstr :=
  match kind with KOdd => [js "kind"] | _ => [js "digest"; js "kind"] end.

Definition stepDigestField (fields : list (jsstr * Json)) : presult jsstr :=
  match field (js "digest") fields with
  | Some (JString s) => let* _ := rethrow (EProof ProofSchema) (assertCanonicalDigest (JString s)) in Ok s
  | _ => Err (EProof ProofSchema)
  end.

(** The validated value as a step. *)
Definition assertProofStep (step : Json) (expected : StepKind) : presult KaChunkProofStepV1 :=
  match isPlainRecord step with
  | None => Err (EProof ProofSchema)
  | Some fields =>
      throw EProof ProofSchema when negb (assertExactKeys fields (stepKeys expected));
      throw EProof ProofTopology when negb (fieldIs (kindText expected) (field (js "kind") fields));
      match expected with
      | KLeft => let* digest := stepDigestField fields in Ok (StepLeft digest)
      | KRight => let* digest := stepDigestField fields in Ok (StepRight digest)
      | KOdd => Ok StepOdd
      end
  end.

(** The loop over the levels: a step for each level wider than one. *)
Fixpoint assertTopology (steps : list Json) (position width : Z) : presult (list KaChunkProofStepV1) :=
  match steps with
  | [] => throw EProof ProofTopology when 1 <? width; Ok []
  | step :: rest =>
      throw EProof ProofTopology when negb (1 <? width);
      let* s := assertProofStep step (expectedKind position width) in
      let* ss := assertTopology rest (position / 2) ((width + 1) / 2) in
      Ok (s :: ss)
  end.

(** The validated value as a proof, and the index it is for. *)
Definition assertProofIndex (value : option Json) : presult (jsstr * Z) :=
  match value with
  | Some v =>
      let* _ := rethrow (EProof ProofChunkIndex) (assertCanonicalDecimalU64 v) in
      let* chunkIndex := mapErr EProofScalar (parseCanonicalDecimalU64 v) in
      match v with JString s => Ok (s, chunkIndex) | _ => Err (EProof ProofChunkIndex) end
  | None => Err (EProof ProofChunkIndex)
  end.

Definition assertKaChunkProofV1 (proof : Json) (chunkCount : Z) : presult KaChunkProofV1 :=
  let* _ := assertChunkCount chunkCount in
  match isPlainRecord proof with
  | None => Err (EProof ProofSchema)
  | Some fields =>
      throw EProof ProofSchema when negb (assertExactKeys fields [js "chunkIndex"; js "steps"]);
      let* (chunkIndexText, chunkIndex) := assertProofIndex (field (js "chunkIndex") fields) in
      throw EProof ProofChunkIndex when chunkCount <=? chunkIndex;
      match field (js "steps") fields with
      | Some (JArray steps) =>
          throw EProof ProofSchema when MAX_KA_CHUNK_PROOF_STEPS_V1 <? js_length steps;
          let* ss := assertTopology steps chunkIndex chunkCount in
          Ok {| proofChunkIndex := chunkIndexText; proofSteps := ss |}
      | _ => Err (EProof ProofSchema)
      end
  end.

(** ** Canonical JSON *)

Definition canonicalizeKaChunkProofV1 (proof : Json) (chunkCount : Z) : presult jsstr :=
  let* _ := assertKaChunkProofV1 proof chunkCount in
  mapErr EProofJson (canonicalizeJson proof
    {| maxBytes := Some MAX_KA_CHUNK_PROOF_BYTES_V1; maxDepth := Some MAX_KA_CHUNK_PROOF_DEPTH_V1 |}).

Definition parseCanonicalKaChunkProofV1 (input : Input) (chunkCount : Z) (options : CanonicalJsonOptions) : presult KaChunkProofV1 :=
  throw EProof ProofObjectTooLarge when MAX_KA_CHUNK_PROOF_BYTES_V1 <? wireByteLength MAX_KA_CHUNK_PROOF_BYTES_V1 input;
  let* parsed := mapErr EProofJson (parseCanonicalJson input
    (tightenLimits MAX_KA_CHUNK_PROOF_BYTES_V1 MAX_KA_CHUNK_PROOF_DEPTH_V1 options)) in
  assertKaChunkProofV1 parsed chunkCount.

(** ** Building *)

(** The object that a step is. *)
Definition stepJson (step : KaChunkProofStepV1) : Json :=
  match step with
  | StepLeft digest => JObject [(js "kind", JString (kindText KLeft)); (js "digest", JString digest)]
  | StepRight digest => JObject [(js "kind", JString (kindText KRight)); (js "digest", JString digest)]
  | StepOdd => JObject [(js "kind", JString (kindText KOdd))]
  end.

Definition proofJson (proof : KaChunkProofV1) : Json :=
  JObject [(js "chunkIndex", JString (proofChunkIndex proof)); (js "steps", JArray (map stepJson (proofSteps proof)))].

(** The check of the indexes of a request. *)
Fixpoint increasingIndexes (chunkIndexes : list Z) (previous chunkCount : Z) : bool :=
  match chunkIndexes with
  | [] => true
  | chunkIndex :: rest =>
      negb ((chunkIndex <? 0) || (chunkCount <=? chunkIndex) || (chunkIndex <=? previous))
      && increasingIndexes rest chunkIndex chunkCount
  end.

(** The step at a level; a digest outside of the level would be [undefined], which
    is no canonical digest, and neither is the empty string. *)
Definition buildStep (proofLevel : list jsstr) (position : Z) : KaChunkProofStepV1 :=
  if position mod 2 =? 1 then StepLeft (default [] (js_at proofLevel (position - 1)))
  else if position + 1 <? js_length proofLevel then StepRight (default [] (js_at proofLevel (position + 1)))
  else StepOdd.

(** The steps from a position up the levels. *)
Fixpoint buildSteps (levels : list (list jsstr)) (position : Z) : list KaChunkProofStepV1 :=
  match levels with
  | [] => []
  | proofLevel :: rest => buildStep proofLevel position :: buildSteps rest (position / 2)
  end.

Section Proofs.
Context (sha256 : bytes -> bytes).

Definition proofDigest (domain : bytes) (chunks : list bytes) : presult jsstr :=
  mapErr EProofScalar (digestBytesToLowerHex (sha256 (domain ++ concat chunks))).

Definition combineNodeDigests (left right : jsstr) : presult jsstr :=
  let* l := mapErr EProofScalar (digestFromLowerHex left) in
  let* r := mapErr EProofScalar (digestFromLowerHex right) in
  proofDigest NODE_DOMAIN_BYTES [l; r].

Definition combineOddDigest (child : jsstr) : presult jsstr :=
  let* c := mapErr EProofScalar (digestFromLowerHex child) in
  proofDigest ODD_DOMAIN_BYTES [c].

Definition buildKaChunkProofsV1 (bundle : bytes) (chunkIndexes : list Z) : presult (list KaChunkProofV1) :=
  let byteLength := js_length bundle in
  throw EProof ProofChunkByteLength when (byteLength <? MIN_KA_TRANSFER_BYTES_V1) || (MAX_KA_TRANSFER_BYTES_V1 <? byteLength);
  let* chunkCount := expectedChunkCount byteLength in
  throw EProof ProofRequestIndexes when
    (js_length chunkIndexes <? 1) || (MAX_KA_CHUNK_PROOFS_PER_REQUEST_V1 <? js_length chunkIndexes);
  throw EProof ProofRequestIndexes when negb (increasingIndexes chunkIndexes (-1) chunkCount);
  let* level := traverse (fun index => mapErr EProofTree (computeKaChunkLeafDigestV1 sha256 index (chunkAt bundle index)))
                  (seqZ 0 chunkCount) in
  let* (levels, _) := levelLoop combineNodeDigests combineOddDigest (length level) level in
  traverse (fun chunkIndex =>
    let proof := proofJson {| proofChunkIndex := decimal chunkIndex; proofSteps := buildSteps levels chunkIndex |} in
    assertKaChunkProofV1 proof chunkCount) chunkIndexes.

Definition buildKaChunkProofV1 (bundle : bytes) (chunkIndex : Z) : presult (option KaChunkProofV1) :=
  let* proofs := buildKaChunkProofsV1 bundle [chunkIndex] in Ok (proofs !! 0%nat).

(** ** Checking *)

Definition climbStep (digest : jsstr) (step : KaChunkProofStepV1) : presult jsstr :=
  match step with
  | StepLeft d => combineNodeDigests d digest
  | StepRight d => combineNodeDigests digest d
  | StepOdd => combineOddDigest digest
  end.

Fixpoint climbSteps (digest : jsstr) (steps : list KaChunkProofStepV1) : presult jsstr :=
  match steps with
  | [] => Ok digest
  | step :: rest => let* parent := climbStep digest step in climbSteps parent rest
  end.

Definition assertValidKaChunkProofV1 (proof : Json) (chunkBytes : bytes) (transferByteLength : Z) (expectedRoot : jsstr) : presult unit :=
  throw EProof ProofChunkByteLength when
    (transferByteLength <? MIN_KA_TRANSFER_BYTES_V1) || (MAX_KA_TRANSFER_BYTES_V1 <? transferByteLength);
  let* _ := rethrow (EProof ProofSchema) (assertCanonicalDigest (JString expectedRoot)) in
  let* chunkCount := expectedChunkCount transferByteLength in
  let* p := assertKaChunkProofV1 proof chunkCount in
  let* chunkIndex := mapErr EProofScalar (parseCanonicalDecimalU64 (JString (proofChunkIndex p))) in
  let expectedLength :=
    if chunkIndex + 1 <? chunkCount then KA_TRANSFER_CHUNK_SIZE_BYTES_V1
    else transferByteLength - (chunkCount - 1) * KA_TRANSFER_CHUNK_SIZE_BYTES_V1 in
  throw EProof ProofChunkByteLength when negb (js_length chunkBytes =? expectedLength);
  let* leaf := mapErr EProofTree (computeKaChunkLeafDigestV1 sha256 chunkIndex chunkBytes) in
  let* digest := climbSteps leaf (proofSteps p) in
  throw EProof ProofRootMismatch when negb (bool_decide (digest = expectedRoot));
  Ok tt.
End Proofs.
