(* ===== verification/KaChunkProofTheory.v ===== *)
(** * Properties of chunk proofs

    A valid proof has a canonical text within its limit and is read back from
    it; the proofs that a provider builds are accepted; and an accepted chunk is
    the chunk of the bundle that has the root. *)

From Stdlib Require Import Strings.Byte.
From S2P Require Import Prelude Bytes Merkle CodePoints JsText JsNumber CanonicalJson CanonicalJsonTheory.
From S2P Require Import CanonicalJsonRoundtrip PlainJson WireScalars KaTransfer KaBundle KaChunkTree KaChunkProof.

Open Scope Z_scope.

(** ** The schema *)

Definition canonicalDigest (s : jsstr) : Prop := exists d, s = lowerHex d /\ length d = 32%nat.

(** A step of the kind that is expected, with a digest where it has one. *)
Definition stepOk (k : StepKind) (s : KaChunkProofStepV1) : Prop :=
  match s with
  | StepLeft d => k = KLeft /\ canonicalDigest d
  | StepRight d => k = KRight /\ canonicalDigest d
  | StepOdd => k = KOdd
  end.

(** The entries of the record of a step. *)
Definition stepEntries (s : KaChunkProofStepV1) : list (jsstr * Json) :=
  match s with
  | StepLeft d => [(js "digest", JString d); (js "kind", JString (kindText KLeft))]
  | StepRight d => [(js "digest", JString d); (js "kind", JString (kindText KRight))]
  | StepOdd => [(js "kind", JString (kindText KOdd))]
  end.

Lemma stepDigestField_Ok fields d :
  stepDigestField fields = Ok d <-> field (js "digest") fields = Some (JString d) /\ canonicalDigest d.
Proof.
  unfold stepDigestField, canonicalDigest. split.
  - destruct (field (js "digest") fields) as [[]|]; try done. intros H. ok_inv. subst.
    apply rethrow_Ok, assertDigest_Ok in H0 as (b & [= ->] & Hl). eauto.
  - intros [-> (b & -> & Hl)]. rewrite (proj2 (rethrow_Ok _ _ tt)); [done|]. apply assertDigest_Ok. eauto.
Qed.

Lemma stepKeys_NoDup k : NoDup (stepKeys k).
Proof. destruct k; apply (bool_decide_unpack _); vm_compute; exact I. Qed.

Lemma assertProofStep_sound fields k s :
  NoDup fields.*1 -> assertProofStep (JObject fields) k = Ok s -> stepOk k s /\ fields ≡ₚ stepEntries s.
Proof.
  intros Hnd H. unfold assertProofStep in H. cbn [isPlainRecord] in H.
  apply throw_if_Ok in H as [Hk%negb_false_iff H]. apply throw_if_Ok in H as [Hf%negb_false_iff%fieldIs_true H].
  destruct k; [apply result_bind_Ok in H as (d & [Hd Hc]%stepDigestField_Ok & H)..|]; simplify_eq; (split; [done|]).
  - apply (exactKeys_fields fields (stepKeys KLeft) [JString d; JString (kindText KLeft)] Hnd (stepKeys_NoDup _) Hk).
    cbn [stepKeys fmap list_fmap]. congruence.
  - apply (exactKeys_fields fields (stepKeys KRight) [JString d; JString (kindText KRight)] Hnd (stepKeys_NoDup _) Hk).
    cbn [stepKeys fmap list_fmap]. congruence.
  - apply (exactKeys_fields fields (stepKeys KOdd) [JString (kindText KOdd)] Hnd (stepKeys_NoDup _) Hk).
    cbn [stepKeys fmap list_fmap]. congruence.
Qed.

Lemma stepEntries_keys k s : stepOk k s -> (stepEntries s).*1 = stepKeys k.
Proof. destruct s; cbn; [intros [-> _]|intros [-> _]|intros ->]; done. Qed.

Lemma assertProofStep_complete fields k s :
  stepOk k s -> fields ≡ₚ stepEntries s -> assertProofStep (JObject fields) k = Ok s.
Proof.
  intros Hs Hp. assert (NoDup fields.*1) as Hnd by (rewrite Hp, (stepEntries_keys k) by done; apply stepKeys_NoDup).
  unfold assertProofStep. cbn [isPlainRecord].
  assert (assertExactKeys fields (stepKeys k) = true) as ->.
  { apply (exactKeys_of_perm _ _ (stepEntries s).*2); [done| |].
    - rewrite <- (stepEntries_keys k s Hs). by rewrite !length_fmap.
    - rewrite <- (stepEntries_keys k s Hs). by rewrite zip_fst_snd. }
  cbn [negb throw_if]. rewrite (field_perm _ _ _ Hnd Hp).
  assert (field (js "kind") (stepEntries s) = Some (JString (kindText k))) as ->.
  { destruct s; [destruct Hs as [-> _]..|rewrite Hs]; reflexivity. }
  rewrite (proj2 (fieldIs_true _ _) eq_refl). cbn [negb throw_if].
  destruct s as [d|d|]; [destruct Hs as [-> Hc]..|by rewrite Hs]; (rewrite (proj2 (stepDigestField_Ok fields d)); [done|];
    rewrite (field_perm _ _ _ Hnd Hp); split; [reflexivity|done]).
Qed.

(** The records of steps as JSON values. *)
Definition stepValue (v : Json) (s : KaChunkProofStepV1) : Prop := exists fields, v = JObject fields /\ fields ≡ₚ stepEntries s.

(** The steps that the position and the width ask for. *)
Fixpoint topology (steps : list KaChunkProofStepV1) (position width : Z) : Prop :=
  match steps with
  | [] => width <= 1
  | s :: rest => 1 < width /\ stepOk (expectedKind position width) s /\ topology rest (position / 2) ((width + 1) / 2)
  end.

Lemma topology_Ok items position width ss :
  Forall wfJson items ->
  assertTopology items position width = Ok ss <-> Forall2 stepValue items ss /\ topology ss position width.
Proof.
  revert position width ss. induction items as [|v items IH]; intros position width ss Hw; cbn [assertTopology].
  - split.
    + intros H. ok_inv. subst. split; [done|]. simpl. lia.
    + intros [H Ht]. apply Forall2_nil_inv_l in H as ->. simpl in Ht. by rewrite (proj2 (Z.ltb_ge _ _)).
  - apply Forall_cons in Hw as [Hv Hw]. split.
    + intros H. ok_inv. apply negb_false_iff, Z.ltb_lt in H0. subst. apply IH in H2 as [Hf Ht]; [|done].
      destruct v as [| | | | |fields]; try done. apply wfJson_object in Hv as [Hnd _].
      apply assertProofStep_sound in H1 as [Hs Hp]; [|done]. split; [constructor; [by exists fields|done]|done].
    + intros [H Ht]. apply Forall2_cons_inv_l in H as (s & ss' & (fields & -> & Hp) & Hf & ->). destruct Ht as (H1 & Hs & Ht).
      rewrite (proj2 (Z.ltb_lt _ _)) by done. cbn [negb throw_if]. rewrite (assertProofStep_complete _ _ s) by done. cbn [result_bind].
      by rewrite (proj2 (IH _ _ ss' Hw) (conj Hf Ht)).
Qed.

(** What a valid proof is, for a number of chunks. *)
Record validProof (p : KaChunkProofV1) (index chunkCount : Z) : Prop := {
  vp_count : 1 <= chunkCount <= MAX_KA_TRANSFER_CHUNKS_V1;
  vp_index : 0 <= index < chunkCount;
  vp_text : proofChunkIndex p = decimal index;
  vp_steps : js_length (proofSteps p) <= MAX_KA_CHUNK_PROOF_STEPS_V1;
  vp_topology : topology (proofSteps p) index chunkCount
}.

Definition proofValue (v : Json) (p : KaChunkProofV1) : Prop :=
  exists fields items, v = JObject fields /\ Forall2 stepValue items (proofSteps p) /\
    fields ≡ₚ [(js "chunkIndex", JString (proofChunkIndex p)); (js "steps", JArray items)].

Lemma proofIndex_Ok value s n :
  assertProofIndex value = Ok (s, n) <-> 0 <= n <= MAX_DECIMAL_U64 /\ s = decimal n /\ value = Some (JString s).
Proof.
  unfold assertProofIndex, assertCanonicalDecimalU64, parseCanonicalDecimalU64. split.
  - destruct value as [v|]; [|done]. intros H. ok_inv. apply mapErr_Ok, parseDecimal_Ok in H1 as [Hn ->]; [|apply u64_nonneg].
    injection H as <- <-. eauto.
  - intros (Hn & -> & ->). rewrite (proj2 (parseDecimal_Ok (JString (decimal n)) MAX_DECIMAL_U64 n u64_nonneg)); [done|auto].
Qed.

Lemma proofKeys_NoDup : NoDup [js "chunkIndex"; js "steps"].
Proof. apply (bool_decide_unpack _). vm_compute. exact I. Qed.

Lemma chunkCount_Ok n u : assertChunkCount n = Ok u <-> 1 <= n <= MAX_KA_TRANSFER_CHUNKS_V1.
Proof.
  destruct u. unfold assertChunkCount. split.
  - intros H. ok_inv. apply orb_false_iff in H0 as [? ?]. lia.
  - intros H. by rewrite !(proj2 (Z.ltb_ge _ _)) by lia.
Qed.

(** The check accepts the values that are valid proofs. *)
Lemma assertProof_Ok v n p :
  wfJson v -> assertKaChunkProofV1 v n = Ok p <-> exists i, validProof p i n /\ proofValue v p.
Proof.
  intros Hw. unfold assertKaChunkProofV1. split.
  - intros H. ok_inv. apply chunkCount_Ok in H0. destruct v as [| | | | |fields]; try done. cbn [isPlainRecord] in H.
    apply wfJson_object in Hw as [Hnd Hw]. ok_pairs. apply negb_false_iff in H1. apply proofIndex_Ok in H2 as (Hz & -> & Fi).
    destruct (field (js "steps") fields) as [[| | | |items|]|] eqn:Fs; try done. ok_inv. subst p.
    assert (Forall wfJson items) as Hit.
    { apply wfJson_array. apply field_Some in Fs. rewrite Forall_forall in Hw. apply (Hw _ Fs). }
    rename select (assertTopology _ _ _ = _) into Htop. apply topology_Ok in Htop as [Hf Ht]; [|done]. exists z. split.
    + split; cbn; [done|lia|done| |done]. unfold js_length in *. rewrite <- (Forall2_length _ _ _ Hf). lia.
    + exists fields, items. split_and!; [done|done|].
      apply (exactKeys_fields fields _ [JString (decimal z); JArray items] Hnd proofKeys_NoDup H1). cbn [fmap list_fmap]. congruence.
  - intros (i & [Hc Hi Htx Hst Htop] & (fields & items & -> & Hf & Hp)). rewrite (proj2 (chunkCount_Ok n tt)) by done. cbn [result_bind isPlainRecord].
    apply wfJson_object in Hw as [Hnd Hw]. 
    rewrite (exactKeys_of_perm fields [js "chunkIndex"; js "steps"] [JString (proofChunkIndex p); JArray items] Hnd eq_refl Hp). cbn [negb throw_if].
    rewrite !(field_perm _ _ _ Hnd Hp). change (field (js "chunkIndex") _) with (Some (JString (proofChunkIndex p))).
    assert (MAX_KA_TRANSFER_CHUNKS_V1 < MAX_DECIMAL_U64) by done.
    rewrite (proj2 (proofIndex_Ok _ (proofChunkIndex p) i)) by (split_and!; [lia|lia|done|done]). cbn [result_bind].
    rewrite (proj2 (Z.leb_gt _ _)) by lia. cbn [throw_if].
    match goal with |- context [field (js "steps") ?l] => change (field (js "steps") l) with (Some (JArray items)) end. cbn iota beta.
    assert (Forall wfJson items) as Hit.
    { apply wfJson_array. rewrite Hp in Hw. apply Forall_cons in Hw as [_ Hw]. by apply Forall_cons in Hw as [? _]. }
    rewrite (proj2 (Z.ltb_ge _ _)) by (unfold js_length in *; by rewrite (Forall2_length _ _ _ Hf)). cbn [throw_if].
    rewrite (proj2 (topology_Ok items i n (proofSteps p) Hit) (conj Hf Htop)). cbn. by destruct p.
Qed.

(** ** The canonical text of a proof *)

Lemma normal_entries fields l :
  fields ≡ₚ l -> map (fun '(k, x) => (k, normal x)) (js_sort compareKeys fields) ≡ₚ map (fun '(k, x) => (k, normal x)) l.
Proof. intros Hp. apply Permutation_map. etrans; [apply sort_perm|exact Hp]. Qed.

Lemma stepValue_normal v s : stepValue v s -> stepValue (normal v) s.
Proof.
  intros (fields & -> & Hp). rewrite normal_object. eexists. split; [done|]. etrans; [by apply normal_entries|].
  by destruct s.
Qed.

Lemma proofValue_normal v p : proofValue v p -> proofValue (normal v) p.
Proof.
  intros (fields & items & -> & Hf & Hp). rewrite normal_object. eexists _, (map normal items). split_and!; [done| |].
  - change (map normal items) with (normal <$> items). apply Forall2_fmap_l. eapply Forall2_impl; [exact Hf|]. apply stepValue_normal.
  - etrans; [by apply normal_entries|]. done.
Qed.

Lemma canonicalDigest_text_plain d : canonicalDigest d -> plain d = true /\ js_length (encodeUtf8 d) = 66.
Proof. intros (b & -> & Hl). split; [apply lowerHex_plain|]. rewrite lowerHex_utf8. unfold js_length. lia. Qed.

(** A step takes at most 94 bytes, and nests no further. *)
Lemma stepValue_size v k s : stepOk k s -> stepValue v s -> plainJson v = true /\ jsonSize v <= 94 /\ jsonDepth v <= 1.
Proof.
  intros Hs (fields & -> & Hp). destruct (jsonSize_object _ _ Hp) as [-> ->].
  assert (jsonDepth (JObject fields) <= 1) as Hd.
  { eapply jsonDepth_object; [exact Hp| |done]. destruct s; repeat constructor; cbn; lia. }
  destruct s as [d|d|]; [destruct Hs as [-> [Hpl Hl]%canonicalDigest_text_plain]..|]; cbn [stepEntries].
  1,2: cbn [plainJson forallb jsonSize map withCommas]; rewrite Hpl, Hl; split_and!; [done|vm_compute; done|done].
  split_and!; [done|vm_compute; done|done].
Qed.

Lemma steps_size items ss position width :
  Forall2 stepValue items ss -> topology ss position width ->
  Forall (fun v => plainJson v = true /\ jsonSize v <= 94 /\ jsonDepth v <= 1) items.
Proof.
  intros Hf. revert position width. induction Hf as [|v s items ss Hv _ IH]; intros position width Ht; [constructor|].
  destruct Ht as (_ & Hs & Ht). constructor; [by eapply stepValue_size|by eapply IH].
Qed.

Lemma items_size items :
  Forall (fun v => plainJson v = true /\ jsonSize v <= 94 /\ jsonDepth v <= 1) items ->
  plainJson (JArray items) = true /\ jsonSize (JArray items) <= 2 + 95 * js_length items /\ jsonDepth (JArray items) <= 2.
Proof.
  intros H. split_and!.
  - cbn [plainJson]. apply forallb_forall. intros v Hv%list_elem_of_In. rewrite Forall_forall in H. by apply H.
  - cbn [jsonSize]. unfold withCommas. assert (foldr Z.add 0 (map jsonSize items) <= 94 * js_length items).
    { unfold js_length. induction H as [|v items (_ & Hv & _) _ IH]; [done|]. cbn [map foldr length]. lia. }
    unfold js_length in *. rewrite length_map. lia.
  - cbn [jsonDepth]. apply Z.leb_le. rewrite maxOf_le. apply andb_true_iff. split; [done|]. apply forallb_forall.
    intros v Hv%list_elem_of_In. rewrite Forall_forall in H. apply Z.leb_le. pose proof (H v Hv). lia.
Qed.

(** A valid proof is below the wire limit. *)
Lemma proof_plain v p i n :
  validProof p i n -> proofValue v p ->
  plainJson v = true /\ jsonSize v <= MAX_KA_CHUNK_PROOF_BYTES_V1 /\ jsonDepth v <= MAX_KA_CHUNK_PROOF_DEPTH_V1.
Proof.
  intros [Hc Hi Htx Hst Htop] (fields & items & -> & Hf & Hp). destruct (jsonSize_object _ _ Hp) as [-> ->].
  destruct (items_size items (steps_size _ _ _ _ Hf Htop)) as (Hpl & Hsz & Hd).
  assert (js_length items <= 12) as Hlen by (unfold js_length in *; by rewrite (Forall2_length _ _ _ Hf)).
  pose proof (decimal_length_mono i MAX_KA_TRANSFER_CHUNKS_V1 ltac:(lia)) as Hdl.
  change (js_length (decimal MAX_KA_TRANSFER_CHUNKS_V1)) with 4 in Hdl. rewrite Htx. split_and!.
  - cbn [plainJson forallb] in *. rewrite Hpl, decimal_plain by lia. done.
  - set (y := js_length (decimal i)) in *. cbn [jsonSize map] in *. rewrite decimal_utf8 by lia. fold y. clearbody y. unfold withCommas in *. cbn [foldr].
    unfold MAX_KA_CHUNK_PROOF_BYTES_V1.
    change (js_length (js "chunkIndex")) with 10. change (js_length (js "steps")) with 5. change (js_length [?a; ?b]) with 2. lia.
  - eapply jsonDepth_object; [exact Hp| |done]. repeat constructor; cbn [snd]; [done|unfold MAX_KA_CHUNK_PROOF_DEPTH_V1; lia].
Qed.

Lemma proof_fits v p i n :
  validProof p i n -> proofValue v p -> fits v MAX_KA_CHUNK_PROOF_BYTES_V1 MAX_KA_CHUNK_PROOF_DEPTH_V1.
Proof. intros Hv Hp. destruct (proof_plain v p i n Hv Hp) as (? & ? & ?). by apply plain_fits. Qed.

Definition proofOptions : CanonicalJsonOptions :=
  {| maxBytes := Some MAX_KA_CHUNK_PROOF_BYTES_V1; maxDepth := Some MAX_KA_CHUNK_PROOF_DEPTH_V1 |}.

(** The objects that are built are values of that kind. *)
Lemma stepJson_value s : stepValue (stepJson s) s /\ wfJson (stepJson s).
Proof.
  destruct s; (split; [eexists; split; [reflexivity|]; cbn [stepEntries]; solve_Permutation|]);
    apply wfJson_object; (split; [apply (bool_decide_unpack _); vm_compute; exact I|repeat constructor]).
Qed.

Lemma proofJson_value p : proofValue (proofJson p) p.
Proof.
  exists [(js "chunkIndex", JString (proofChunkIndex p)); (js "steps", JArray (map stepJson (proofSteps p)))], (map stepJson (proofSteps p)).
  split_and!; [done| |done]. induction (proofSteps p) as [|s ss IH]; constructor; [apply stepJson_value|done].
Qed.

Lemma proofJson_wf p : wfJson (proofJson p).
Proof.
  apply wfJson_object. split; [apply proofKeys_NoDup|]. constructor; [done|]. constructor; [|constructor].
  apply wfJson_array, Forall_map, Forall_forall. intros s _. apply stepJson_value.
Qed.

Lemma proof_text_reads v n p :
  wfJson v -> assertKaChunkProofV1 v n = Ok p ->
  canonicalizeKaChunkProofV1 v n = Ok (canonText v) /\ js_length (encodeUtf8 (canonText v)) <= MAX_KA_CHUNK_PROOF_BYTES_V1 /\
  forall input, input = TextInput (canonText v) \/ input = BytesInput (encodeUtf8 (canonText v)) ->
    parseCanonicalKaChunkProofV1 input n defaultOptions = Ok p.
Proof.
  intros Hw Ha. pose proof Ha as (i & Hv & Hp)%assertProof_Ok; [|done]. pose proof (proof_fits v p i n Hv Hp) as Hf.
  assert (canonicalizeJson v proofOptions = Ok (canonText v)) as Hc.
  { apply canonicalizeJson_Ok; [done|]. eexists _, _. split; [reflexivity|]. by split. }
  split_and!.
  - unfold canonicalizeKaChunkProofV1. rewrite Ha. cbn [result_bind]. fold proofOptions. by rewrite Hc.
  - by destruct Hf as (_ & _ & ?).
  - intros input Hin. unfold parseCanonicalKaChunkProofV1. rewrite tighten_default. fold proofOptions. rewrite (proj2 (Z.ltb_ge _ _)).
    2:{ eapply wireByteLength_plain; [by eapply proof_plain| |exact Hin]. destruct Hf as (? & _ & ?). by split_and!. }
    cbn [throw_if]. rewrite (canonical_reads _ _ _ input Hw Hc Hin). cbn [mapErr result_bind].
    apply assertProof_Ok; [by apply (normal_good v 0 MAX_KA_CHUNK_PROOF_DEPTH_V1); destruct Hf as (? & ? & _); split_and!|].
    exists i. split; [done|by apply proofValue_normal].
Qed.

(** A value that validates as a chunk proof always has a canonical text,
    within the wire limit of 1280 bytes even for the deepest tree, and that text,
    as a string or as bytes, decodes to the same proof. *)
Theorem chunk_proof_roundtrip v n p :
  wfJson v -> assertKaChunkProofV1 v n = Ok p ->
  exists text, canonicalizeKaChunkProofV1 v n = Ok text /\
    js_length (encodeUtf8 text) <= MAX_KA_CHUNK_PROOF_BYTES_V1 /\
    parseCanonicalKaChunkProofV1 (TextInput text) n defaultOptions = Ok p /\
    parseCanonicalKaChunkProofV1 (BytesInput (encodeUtf8 text)) n defaultOptions = Ok p.
Proof. intros Hw Ha. destruct (proof_text_reads v n p Hw Ha) as (? & ? & ?). exists (canonText v). auto 6. Qed.

(** *** An example *)

(** A proof for the last of three chunks. *)
Definition sampleProof : KaChunkProofV1 := {| proofChunkIndex := js "2"; proofSteps := [StepOdd; StepLeft sampleDigest] |}.

Lemma chunk_proof_roundtrip_witness :
  exists text, canonicalizeKaChunkProofV1 (proofJson sampleProof) 3 = Ok text /\
    js_length (encodeUtf8 text) <= MAX_KA_CHUNK_PROOF_BYTES_V1 /\
    parseCanonicalKaChunkProofV1 (TextInput text) 3 defaultOptions = Ok sampleProof /\
    parseCanonicalKaChunkProofV1 (BytesInput (encodeUtf8 text)) 3 defaultOptions = Ok sampleProof.
Proof.
  apply (chunk_proof_roundtrip (proofJson sampleProof) 3 sampleProof); [|vm_compute; reflexivity].
  apply proofJson_wf.
Defined.
