(* ===== verification/KaChunkProofSafety.v ===== *)
(** * Provider and receiver of chunks

    The proofs that a provider builds from a bundle are accepted by the receiver
    for the chunks of the bundle, and a chunk that the receiver accepts is the
    one of the bundle, unless sha256 collides on inputs that were hashed. *)

From Stdlib Require Import Strings.Byte.
From S2P Require Import Prelude Bytes Merkle CodePoints JsText JsNumber CanonicalJson CanonicalJsonTheory.
From S2P Require Import CanonicalJsonRoundtrip PlainJson WireScalars KaTransfer KaBundle KaChunkTree KaChunkProof KaChunkProofTheory.

Open Scope Z_scope.

(** ** Positions *)

Lemma parentTrees_width l : js_length (parentTrees l) = (js_length l + 1) / 2.
Proof. unfold js_length. rewrite parentTrees_length. lia. Qed.

(** A tree in a level wider than one has a parent, beside a left child, before a
    right one, or alone at the end. *)
Lemma parent_cases l p t :
  js_at l p = Some t ->
  exists t', js_at (parentTrees l) (p / 2) = Some t' /\
  match expectedKind p (js_length l) with
  | KLeft => exists s, js_at l (p - 1) = Some s /\ t' = Node s t
  | KRight => exists s, js_at l (p + 1) = Some s /\ t' = Node t s
  | KOdd => t' = Odd t
  end.
Proof.
  intros [Hp Ht]%js_at_Some. set (q := Z.to_nat (p / 2)).
  assert (forall x, js_at (parentTrees l) (p / 2) = Some x <-> parentTrees l !! q = Some x) as Hq.
  { intros x. unfold js_at. rewrite (proj2 (Z.ltb_ge _ _)) by lia. done. }
  unfold expectedKind. destruct (Z.eqb_spec (p mod 2) 1) as [Hm|Hm].
  - destruct (js_at_in_range l (p - 1)) as (s & Es & _); [lia|]. exists (Node s t). split; [|eauto].
    apply js_at_Some in Es as [_ Es]. apply Hq, parentTrees_even.
    + by replace (2 * q)%nat with (Z.to_nat (p - 1)) by lia.
    + by replace (2 * q + 1)%nat with (Z.to_nat p) by lia.
  - destruct (Z.ltb_spec (p + 1) (js_length l)).
    + destruct (js_at_in_range l (p + 1)) as (s & Es & _); [lia|]. exists (Node t s). split; [|eauto].
      apply js_at_Some in Es as [_ Es]. apply Hq, parentTrees_even.
      * by replace (2 * q)%nat with (Z.to_nat p) by lia.
      * by replace (2 * q + 1)%nat with (Z.to_nat (p + 1)) by lia.
    + exists (Odd t). split; [|done]. apply lookup_lt_Some in Ht as Hlt. unfold js_length in *. apply Hq, parentTrees_odd; [|lia].
      by replace (2 * q)%nat with (Z.to_nat p) by lia.
Qed.

(** ** Building *)

Section Safety.
Context (sha256 : bytes -> bytes) (Hlen : forall b, length (sha256 b) = 32%nat).
Local Abbreviation digest := (treeDigest sha256).
Local Abbreviation text := (fun t => lowerHex (treeDigest sha256 t)).

Lemma digest_canonical t : canonicalDigest (text t).
Proof. exists (digest t). split; [done|by apply treeDigest_length]. Qed.

Lemma combineNode_Ok a b :
  length a = 32%nat -> length b = 32%nat -> combineNodeDigests sha256 (lowerHex a) (lowerHex b) = Ok (lowerHex (sha256 (nodeInput a b))).
Proof.
  intros Ha Hb. unfold combineNodeDigests. rewrite (proj2 (digestFromLowerHex_Ok (lowerHex a) a)), (proj2 (digestFromLowerHex_Ok (lowerHex b) b)) by done.
  cbn [mapErr result_bind]. unfold proofDigest. cbn [concat]. rewrite digestBytesToLowerHex_Ok by apply Hlen. by rewrite app_nil_r.
Qed.

Lemma combineOdd_Ok a : length a = 32%nat -> combineOddDigest sha256 (lowerHex a) = Ok (lowerHex (sha256 (oddInput a))).
Proof.
  intros Ha. unfold combineOddDigest. rewrite (proj2 (digestFromLowerHex_Ok (lowerHex a) a)) by done.
  cbn [mapErr result_bind]. unfold proofDigest. cbn [concat]. rewrite digestBytesToLowerHex_Ok by apply Hlen. by rewrite app_nil_r.
Qed.

(** The step built at a level is the expected one, and leads to the parent. *)
Lemma buildStep_climbs l p t :
  js_at l p = Some t -> let s := buildStep (map text l) p in
  stepOk (expectedKind p (js_length l)) s /\
  exists t', js_at (parentTrees l) (p / 2) = Some t' /\ climbStep sha256 (text t) s = Ok (text t').
Proof.
  intros Ht. destruct (parent_cases l p t Ht) as (t' & Hp & Hk). unfold buildStep, expectedKind in *. unfold js_length in *. rewrite length_map.
  pose proof (treeDigest_length sha256 Hlen) as Hd.
  destruct (p mod 2 =? 1); [|destruct (p + 1 <? _)].
  - destruct Hk as (s & Hs & ->). rewrite js_at_map, Hs. cbn. split; [split; [done|apply digest_canonical]|].
    exists (Node s t). split; [done|]. by apply combineNode_Ok.
  - destruct Hk as (s & Hs & ->). rewrite js_at_map, Hs. cbn. split; [split; [done|apply digest_canonical]|].
    exists (Node t s). split; [done|]. by apply combineNode_Ok.
  - subst t'. split; [done|]. exists (Odd t). split; [done|]. by apply combineOdd_Ok.
Qed.

(** The steps built over all levels lead to the root. *)
Lemma buildSteps_climb fuel l p t r :
  (length l <= fuel)%nat -> js_at l p = Some t -> (treeLoop fuel l).2 = [r] ->
  let ss := buildSteps (map (map text) (treeLoop fuel l).1) p in
  topology ss p (js_length l) /\ climbSteps sha256 (text t) ss = Ok (text r).
Proof.
  revert l p t. induction fuel as [|fuel IH]; intros l p t Hl Ht; [destruct l; [by destruct (js_at_Some _ _ _ Ht)|simpl in Hl; lia]|].
  cbn [treeLoop]. destruct (Z.ltb_spec 1 (js_length l)) as [Hw|Hw].
  - destruct (buildStep_climbs l p t Ht) as (Hs & t' & Hp & Hc). specialize (IH (parentTrees l) (p / 2) t').
    destruct (treeLoop fuel (parentTrees l)) as [levels last]. cbn [fst snd map buildSteps topology climbSteps] in *. intros Hr.
    rewrite Hc. cbn [result_bind]. rewrite parentTrees_width in IH. destruct IH as [IHt IHc]; [|done..|split; [|done]].
    + rewrite parentTrees_length. unfold js_length in Hw. lia.
    + by split_and!.
  - cbn. intros ->. apply js_at_Some in Ht as [Hp Ht]. split; [done|]. unfold js_length in *. cbn in *.
    assert (p = 0) as -> by lia. by injection Ht as ->.
Qed.

(** The number of levels is logarithmic in the width. *)
Lemma topology_length ss p w k : topology ss p w -> w <= 2 ^ Z.of_nat k -> (length ss <= k)%nat.
Proof.
  revert p w k. induction ss as [|s ss IH]; intros p w k Ht Hw; [simpl; lia|]. destruct Ht as (H1 & _ & Ht).
  destruct k as [|k]; [simpl in Hw; lia|]. rewrite Nat2Z.inj_succ, Z.pow_succ_r in Hw by lia.
  assert (length ss <= k)%nat; [|simpl; lia]. eapply IH; [exact Ht|]. lia.
Qed.

(** The levels of the tree of a bundle, as digests. *)
Definition bundleLevels (b : bytes) : list (list jsstr) :=
  map (map text) (treeLoop (length (bundleLeaves b)) (bundleLeaves b)).1.

Lemma bundleTree_last b :
  1 <= chunkCountOf b -> (treeLoop (length (bundleLeaves b)) (bundleLeaves b)).2 = [bundleTree b].
Proof.
  intros Hc. unfold bundleTree. destruct (treeLoop_last (length (bundleLeaves b)) (bundleLeaves b)) as (t & -> & _); [|done..].
  unfold bundleLeaves. intros E. apply (f_equal length) in E. rewrite length_map, length_seqZ in E. cbn [length] in E. lia.
Qed.

Lemma bundleLeaves_length b : 0 <= chunkCountOf b -> js_length (bundleLeaves b) = chunkCountOf b.
Proof. intros H. unfold js_length, bundleLeaves. rewrite length_map, length_seqZ. lia. Qed.

Lemma bundleLeaves_at b i : 0 <= i < chunkCountOf b -> js_at (bundleLeaves b) i = Some (Leaf i (chunkAt b i)).
Proof.
  intros Hi. unfold js_at. rewrite (proj2 (Z.ltb_ge _ _)) by lia. unfold bundleLeaves. change (map ?f ?l) with (f <$> l).
  rewrite list_lookup_fmap, lookup_seqZ_lt by lia. cbn. do 2 f_equal; [lia|]. f_equal. lia.
Qed.

Lemma leafText_Ok b i :
  MIN_KA_TRANSFER_BYTES_V1 <= js_length b <= MAX_KA_TRANSFER_BYTES_V1 -> 0 <= i < chunkCountOf b ->
  computeKaChunkLeafDigestV1 sha256 i (chunkAt b i) = Ok (text (Leaf i (chunkAt b i))).
Proof.
  intros Hb Hi. pose proof (chunkCountOf_range b Hb) as Hc. unfold computeKaChunkLeafDigestV1.
  rewrite (proj2 (Z.ltb_ge _ _)), (proj2 (Z.leb_gt _ _)) by lia. cbn [orb throw_if].
  assert (1 <= js_length (chunkAt b i) <= KA_TRANSFER_CHUNK_SIZE_BYTES_V1) as Hl.
  { rewrite chunkAt_length by done. case_match; [done|]. unfold chunkCountOf, expectedChunkCountOf, KA_TRANSFER_CHUNK_SIZE_BYTES_V1.
    unfold MIN_KA_TRANSFER_BYTES_V1 in Hb. lia. }
  rewrite !(proj2 (Z.ltb_ge _ _)) by lia. cbn [orb throw_if]. rewrite leafDigest_Ok by done. cbn [result_bind].
  by rewrite digestBytesToLowerHex_Ok by by apply treeDigest_length.
Qed.

(** The proof for a chunk. *)
Definition bundleProof (b : bytes) (i : Z) : KaChunkProofV1 :=
  {| proofChunkIndex := decimal i; proofSteps := buildSteps (bundleLevels b) i |}.

Section Bundle.
Context (b : bytes) (Hb : MIN_KA_TRANSFER_BYTES_V1 <= js_length b <= MAX_KA_TRANSFER_BYTES_V1).

Lemma bundleProof_climbs i :
  0 <= i < chunkCountOf b ->
  topology (buildSteps (bundleLevels b) i) i (chunkCountOf b) /\
  climbSteps sha256 (text (Leaf i (chunkAt b i))) (buildSteps (bundleLevels b) i) = Ok (text (bundleTree b)).
Proof.
  intros Hi. pose proof (chunkCountOf_range b Hb). rewrite <- (bundleLeaves_length b) at 1 by lia.
  apply buildSteps_climb; [done|by apply bundleLeaves_at|apply bundleTree_last; lia].
Qed.

Lemma bundleProof_valid i : 0 <= i < chunkCountOf b -> validProof (bundleProof b i) i (chunkCountOf b).
Proof.
  intros Hi. pose proof (chunkCountOf_range b Hb) as Hc. destruct (bundleProof_climbs i Hi) as [Ht _]. split; [done..| |done].
  unfold js_length. pose proof (topology_length _ _ _ 12 Ht) as Hl. unfold MAX_KA_TRANSFER_CHUNKS_V1 in Hc.
  change (2 ^ Z.of_nat 12) with 4096 in Hl. unfold MAX_KA_CHUNK_PROOF_STEPS_V1. cbn [bundleProof proofSteps]. lia.
Qed.

Lemma bundleProof_assert i :
  0 <= i < chunkCountOf b -> assertKaChunkProofV1 (proofJson (bundleProof b i)) (chunkCountOf b) = Ok (bundleProof b i).
Proof. intros Hi. apply assertProof_Ok; [apply proofJson_wf|]. exists i. split; [by apply bundleProof_valid|apply proofJson_value]. Qed.

Lemma expectedCount_Ok : expectedChunkCount (js_length b) = Ok (chunkCountOf b).
Proof.
  unfold expectedChunkCount. fold (expectedChunkCountOf (js_length b)). fold (chunkCountOf b).
  by rewrite (proj2 (chunkCount_Ok _ tt)) by by apply chunkCountOf_range.
Qed.

(** The receiver accepts it, with the chunk, the length and the root. *)
Lemma bundleProof_accepted i :
  0 <= i < chunkCountOf b ->
  assertValidKaChunkProofV1 sha256 (proofJson (bundleProof b i)) (chunkAt b i) (js_length b) (text (bundleTree b)) = Ok tt.
Proof.
  intros Hi. pose proof (chunkCountOf_range b Hb) as Hc. unfold assertValidKaChunkProofV1. rewrite !(proj2 (Z.ltb_ge _ _)) by lia. cbn [orb throw_if].
  rewrite (proj2 (rethrow_Ok _ _ tt)) by (apply assertDigest_Ok; destruct (digest_canonical (bundleTree b)) as (d & E & Hd); exists d; by rewrite E).
  cbn [result_bind]. rewrite expectedCount_Ok. cbn [result_bind]. rewrite bundleProof_assert by done. cbn [result_bind].
  assert (MAX_KA_TRANSFER_CHUNKS_V1 < MAX_DECIMAL_U64) by done. unfold parseCanonicalDecimalU64.
  rewrite (proj2 (parseDecimal_Ok (JString (proofChunkIndex (bundleProof b i))) MAX_DECIMAL_U64 i u64_nonneg)) by (split; [lia|done]).
  cbn [mapErr result_bind]. rewrite <- chunkAt_length by done. rewrite Z.eqb_refl. cbn [negb throw_if].
  rewrite leafText_Ok by done. cbn [mapErr result_bind bundleProof proofSteps].
  destruct (bundleProof_climbs i Hi) as [_ ->]. cbn [result_bind]. by rewrite bool_decide_eq_true_2.
Qed.
End Bundle.

(** The requests that are served: 1 to 16 indexes of chunks in strictly
    increasing order. *)
Definition servable (idxs : list Z) (chunkCount : Z) : Prop :=
  1 <= js_length idxs <= MAX_KA_CHUNK_PROOFS_PER_REQUEST_V1 /\ StronglySorted Z.lt idxs /\ Forall (fun i => 0 <= i < chunkCount) idxs.

Lemma increasing_spec idxs prev n :
  -1 <= prev ->
  increasingIndexes idxs prev n = true <->
  StronglySorted Z.lt idxs /\ Forall (fun i => 0 <= i < n) idxs /\ Forall (fun i => prev < i) idxs.
Proof.
  revert prev. induction idxs as [|i idxs IH]; intros prev Hp; cbn [increasingIndexes]; [split; [repeat constructor|done]|].
  rewrite andb_true_iff, negb_true_iff, !orb_false_iff, Z.ltb_ge, !Z.leb_gt, !Forall_cons. split.
  - intros [[[H1 H2] H3] Hr]. apply IH in Hr as (Hs & Hn & Hi); [|lia]. split_and!; [by constructor|lia|lia|done|lia|].
    eapply Forall_impl; [exact Hi|]. cbn. lia.
  - intros (Hs & [[H1 H2] Hn] & H3 & _). apply StronglySorted_inv in Hs as [Hs Hi]. split; [done|]. apply IH; [lia|done].
Qed.

(** Building, in full: the two refusals, or the proof of each index. *)
Lemma build_result b idxs :
  buildKaChunkProofsV1 sha256 b idxs =
  if decide (MIN_KA_TRANSFER_BYTES_V1 <= js_length b <= MAX_KA_TRANSFER_BYTES_V1) then
    if decide (servable idxs (chunkCountOf b)) then Ok (map (bundleProof b) idxs) else Err (EProof ProofRequestIndexes)
  else Err (EProof ProofChunkByteLength).
Proof.
  unfold buildKaChunkProofsV1. destruct (decide (_ <= js_length b <= _)) as [Hb|Hb].
  2:{ destruct (Z.ltb_spec (js_length b) MIN_KA_TRANSFER_BYTES_V1); [done|].
      by rewrite (proj2 (Z.ltb_lt _ _)) by lia. }
  rewrite !(proj2 (Z.ltb_ge _ _)) by lia. cbn [orb throw_if]. rewrite expectedCount_Ok by done. cbn [result_bind].
  destruct (decide (servable idxs (chunkCountOf b))) as [(Hl & Hs & Hr)|Hn].
  - rewrite !(proj2 (Z.ltb_ge _ _)) by lia. cbn [orb throw_if]. rewrite (proj2 (increasing_spec idxs (-1) _ ltac:(done))).
    2:{ split_and!; [done|done|]. eapply Forall_impl; [exact Hr|]. cbn. lia. }
    cbn [negb throw_if]. rewrite (traverse_map _ (fun i => text (Leaf i (chunkAt b i)))).
    2:{ apply Forall_forall. intros i Hi%elem_of_seqZ. rewrite leafText_Ok by (try done; lia). done. }
    cbn [result_bind]. rewrite <- (map_map (fun i => Leaf i (chunkAt b i)) text). fold (bundleLeaves b). rewrite length_map.
    pose proof (treeDigest_length sha256 Hlen) as Hd.
    rewrite (levelLoop_repr _ _ text) by (intros; first [by apply combineNode_Ok|by apply combineOdd_Ok]). cbn [result_bind].
    apply traverse_map. eapply Forall_impl; [exact Hr|]. intros i Hi. by apply bundleProof_assert.
  - destruct (_ || _) eqn:El; cbn [throw_if]; [done|]. apply orb_false_iff in El as [? ?].
    destruct (increasingIndexes idxs (-1) (chunkCountOf b)) eqn:Ei; [|done]. exfalso. apply Hn.
    apply increasing_spec in Ei as (? & ? & _); [|done]. split; [lia|done].
Qed.

(** C18: A request for chunk proofs of a bundle is refused with
    [proof-chunk-byte-length] for a bundle length out of range and with
    [proof-request-indexes] for indexes that are not 1 to 16 of its chunks in
    strictly increasing order. Otherwise it yields one proof for each index, in
    order, that is read back from its canonical bytes and that the receiver
    accepts with the chunk, the length and the root of the bundle. *)
Theorem chunk_proofs_served b idxs :
  match buildKaChunkProofsV1 sha256 b idxs with
  | Ok proofs =>
      servable idxs (chunkCountOf b) /\ exists root, computeKaChunkTreeRootV1 sha256 b = Ok root /\
      Forall2 (fun i p =>
        proofChunkIndex p = decimal i /\
        assertValidKaChunkProofV1 sha256 (proofJson p) (chunkAt b i) (js_length b) root = Ok tt /\
        exists text, canonicalizeKaChunkProofV1 (proofJson p) (chunkCountOf b) = Ok text /\
          parseCanonicalKaChunkProofV1 (BytesInput (encodeUtf8 text)) (chunkCountOf b) defaultOptions = Ok p) idxs proofs
  | Err e =>
      if decide (MIN_KA_TRANSFER_BYTES_V1 <= js_length b <= MAX_KA_TRANSFER_BYTES_V1)
      then ~ servable idxs (chunkCountOf b) /\ e = EProof ProofRequestIndexes
      else e = EProof ProofChunkByteLength
  end.
Proof.
  rewrite build_result. destruct (decide (_ <= js_length b <= _)) as [Hb|Hb]; [|done].
  destruct (decide (servable _ _)) as [Hs|Hs]; [|done]. split; [done|].
  exists (text (bundleTree b)). split; [by apply root_Ok|]. destruct Hs as (_ & _ & Hr).
  induction Hr as [|i idxs Hi _ IH]; constructor; [|done]. split_and!; [done|by apply bundleProof_accepted|].
  destruct (proof_text_reads _ _ _ (proofJson_wf _) (bundleProof_assert b Hb i Hi)) as (Hc & _ & Hread).
  eexists. split; [exact Hc|]. apply Hread. by right.
Qed.

(** ** Checking *)

(** The bytes that a canonical digest denotes. *)
Definition hexBytes (s : jsstr) : bytes := parseHexPairs (drop 2 s).

(** The inputs hashed when a proof is checked. *)
Definition stepInput (d : jsstr) (s : KaChunkProofStepV1) : bytes :=
  match s with
  | StepLeft e => nodeInput (hexBytes e) (hexBytes d)
  | StepRight e => nodeInput (hexBytes d) (hexBytes e)
  | StepOdd => oddInput (hexBytes d)
  end.

Fixpoint climbInputs (d : jsstr) (steps : list KaChunkProofStepV1) : list bytes :=
  match steps with
  | [] => []
  | s :: rest => stepInput d s :: climbInputs (lowerHex (sha256 (stepInput d s))) rest
  end.

Definition proofInputs (p : KaChunkProofV1) (chunk : bytes) : list bytes :=
  let leaf := leafInput (bigIntOf (proofChunkIndex p)) chunk in
  leaf :: climbInputs (lowerHex (sha256 leaf)) (proofSteps p).

Definition within (t' t : tree) : Prop := treeInputs sha256 t' ⊆ treeInputs sha256 t /\ leaves t' ⊆ leaves t.

Lemma within_children t t0 :
  within t t0 ->
  match t with Leaf _ _ => True | Node l r => within l t0 /\ within r t0 | Odd c => within c t0 end.
Proof. destruct t; [done|..]; unfold within; cbn [treeInputs leaves]; set_solver. Qed.

Lemma hexBytes_lowerHex b : hexBytes (lowerHex b) = b.
Proof. apply parseHexPairs_text. Qed.

Definition canonicalStep (s : KaChunkProofStepV1) : Prop :=
  match s with StepLeft d | StepRight d => canonicalDigest d | StepOdd => True end.

Lemma climbStep_Ok d s :
  length d = 32%nat -> canonicalStep s -> climbStep sha256 (lowerHex d) s = Ok (lowerHex (sha256 (stepInput (lowerHex d) s))).
Proof.
  intros Hd Hs. destruct s as [e|e|]; cbn [climbStep stepInput].
  - destruct Hs as (x & -> & Hx). rewrite combineNode_Ok, !hexBytes_lowerHex by done. done.
  - destruct Hs as (x & -> & Hx). rewrite combineNode_Ok, !hexBytes_lowerHex by done. done.
  - rewrite combineOdd_Ok, hexBytes_lowerHex by done. done.
Qed.

Lemma topology_canonical ss p w : topology ss p w -> Forall canonicalStep ss.
Proof.
  revert p w. induction ss as [|s ss IH]; intros p w; [constructor|]. intros (_ & Hs & Ht). constructor; [|by eapply IH].
  destruct s; cbn in *; naive_solver.
Qed.

(** The child that a step was taken from. *)
Lemma stepInput_root d s t :
  length d = 32%nat -> canonicalStep s -> stepInput (lowerHex d) s = rootInput sha256 t ->
  exists t', (match t with Leaf _ _ => False | Node l r => t' = l \/ t' = r | Odd c => t' = c end) /\ digest t' = d.
Proof.
  intros Hd Hs E. assert (forall t, length (digest t) = 32%nat) as Hdl by apply (treeDigest_length sha256 Hlen).
  destruct s as [e|e|], t as [i c|l r|c]; cbn [stepInput rootInput] in E; rewrite ?hexBytes_lowerHex in E;
    try (mixed_domains E).
  - destruct Hs as (x & -> & Hx). rewrite hexBytes_lowerHex in E. apply nodeInput_inj in E as [_ E]; [|by rewrite Hdl]. eauto.
  - apply nodeInput_inj in E as [E _]; [|by rewrite Hdl]. eauto.
  - apply app_inv_head in E. eauto.
Qed.

(** Steps that lead to the root of a tree start at the digest of a subtree. *)
Lemma climb_binds ss d t0 :
  length d = 32%nat -> Forall canonicalStep ss -> climbSteps sha256 (lowerHex d) ss = Ok (text t0) ->
  (exists t, within t t0 /\ digest t = d) \/ CollisionIn sha256 (climbInputs (lowerHex d) ss ++ treeInputs sha256 t0).
Proof.
  intros Hd Hss. revert d Hd. induction Hss as [|s ss Hs _ IH]; intros d Hd H; cbn [climbSteps climbInputs] in *.
  { assert (lowerHex d = text t0) as E%lowerHex_inj by congruence. left. by exists t0. }
  rewrite climbStep_Ok in H by done. cbn [result_bind] in H.
  destruct (IH (sha256 (stepInput (lowerHex d) s)) (Hlen _) H) as [(t & Ht & E)|Hc]; [|right; eapply collision_mono; [|exact Hc]; set_solver].
  destruct (rootInput_spec sha256 t) as [Et Hin]. rewrite Et in E.
  edestruct (hash_inj_or sha256) as [Er|Hc]; [| |symmetry; exact E| |right; exact Hc]; [set_solver| |].
  { apply elem_of_app. right. by apply Ht. }
  left. apply stepInput_root in Er as (t' & Hc & Ed); [|done..]. exists t'. split; [|done]. pose proof (within_children t t0 Ht).
  destruct t; naive_solver.
Qed.

(** An accepted leaf is a leaf of the tree with the root. *)
Lemma leaf_binds i c ss t0 :
  0 <= i < 256 ^ 8 -> indexed (leaves t0) -> Forall canonicalStep ss ->
  climbSteps sha256 (lowerHex (sha256 (leafInput i c))) ss = Ok (text t0) ->
  (i, c) ∈ leaves t0 \/
  CollisionIn sha256 (leafInput i c :: climbInputs (lowerHex (sha256 (leafInput i c))) ss ++ treeInputs sha256 t0).
Proof.
  intros Hi Hix Hss H. destruct (climb_binds ss _ t0 (Hlen _) Hss H) as [(t & [Hin Hlv] & E)|Hc]; [|right; eapply collision_mono; [|exact Hc]; set_solver].
  destruct (rootInput_spec sha256 t) as [Et Hrt]. rewrite Et in E.
  edestruct (hash_inj_or sha256) as [Er|Hc]; [| |symmetry; exact E| |right; exact Hc]; [left| |].
  { right. apply elem_of_app. right. by apply Hin. }
  left. apply Hlv. destruct t as [j d|l r|o]; cbn [rootInput] in Er.
  - unfold indexed in Hix. rewrite Forall_forall in Hix. apply leafInput_inj in Er as [-> ->]; [left|done|].
    apply (Hix (j, d)), Hlv. left.
  - by destruct (leaf_not_node i c (digest l) (digest r)).
  - by destruct (leaf_not_odd i c (digest o)).
Qed.

Lemma leafText_inv i c d :
  computeKaChunkLeafDigestV1 sha256 i c = Ok d -> 0 <= i < MAX_KA_TRANSFER_CHUNKS_V1 /\ d = lowerHex (sha256 (leafInput i c)).
Proof.
  unfold computeKaChunkLeafDigestV1. intros H. ok_inv. apply orb_false_iff in H0 as [? ?], H1 as [? ?].
  assert (0 <= i < MAX_KA_TRANSFER_CHUNKS_V1) as Hi by lia. split; [done|]. unfold MAX_KA_TRANSFER_CHUNKS_V1, KA_TRANSFER_CHUNK_SIZE_BYTES_V1 in *.
  rename select (computeLeafDigestBytes _ _ _ = _) into Hleaf. unfold computeLeafDigestBytes in Hleaf. rewrite !encodeTreeU64_Ok in Hleaf by lia.
  cbn [result_bind] in Hleaf. injection Hleaf as <-. apply mapErr_Ok in H. rewrite digestBytesToLowerHex_Ok in H by apply Hlen.
  injection H as <-. unfold digestBytes, leafInput. cbn [concat]. by rewrite app_nil_r.
Qed.

Lemma bundle_leaf b i c :
  1 <= js_length b -> (i, c) ∈ leaves (bundleTree b) -> 0 <= i < chunkCountOf b /\ c = chunkAt b i.
Proof.
  intros Hb. rewrite bundleTree_leaves by done. change (map ?f ?l) with (f <$> l). intros (j & [= -> ->] & Hj%elem_of_seqZ)%list_elem_of_fmap.
  split; [lia|done].
Qed.

(** What an accepted proof was. *)
Lemma accepted_inv v c n root :
  wfJson v -> assertValidKaChunkProofV1 sha256 v c n root = Ok tt ->
  exists p i, assertKaChunkProofV1 v (expectedChunkCountOf n) = Ok p /\ validProof p i (expectedChunkCountOf n) /\
    climbSteps sha256 (lowerHex (sha256 (leafInput i c))) (proofSteps p) = Ok root.
Proof.
  intros Hw H. unfold assertValidKaChunkProofV1 in H. ok_inv.
  match goal with H : expectedChunkCount n = Ok _ |- _ => unfold expectedChunkCount in H; ok_inv; subst end.
  fold (expectedChunkCountOf n) in *. rename select (assertKaChunkProofV1 _ _ = Ok _) into Ha. pose proof Ha as (i & Hv & _)%assertProof_Ok; [|done].
  eexists _, i. split; [exact Ha|]. split; [done|]. destruct Hv as [Hc Hi Htx _ _].
  rename select (mapErr _ (parseCanonicalDecimalU64 _) = Ok _) into Hidx. apply mapErr_Ok in Hidx. unfold parseCanonicalDecimalU64 in Hidx.
  assert (MAX_KA_TRANSFER_CHUNKS_V1 < MAX_DECIMAL_U64) by done.
  rewrite Htx, (proj2 (parseDecimal_Ok (JString (decimal i)) MAX_DECIMAL_U64 i u64_nonneg)) in Hidx by (split; [lia|done]). injection Hidx as <-.
  rename select (mapErr _ (computeKaChunkLeafDigestV1 _ _ _) = Ok _) into Hleaf. apply mapErr_Ok, leafText_inv in Hleaf as [_ ->].
  rename select (negb (bool_decide _) = false) into Hroot. apply negb_false_iff, bool_decide_eq_true in Hroot. by rewrite <- Hroot.
Qed.

(** C3: A chunk that a receiver accepts against the root of a bundle is the chunk
    of that bundle with the index of the proof, whatever transfer length the
    receiver was told, unless sha256 collides on inputs hashed for the proof and
    for the root. *)
Theorem accepted_chunk_is_stored v c n root b :
  wfJson v -> computeKaChunkTreeRootV1 sha256 b = Ok root -> assertValidKaChunkProofV1 sha256 v c n root = Ok tt ->
  exists p i, assertKaChunkProofV1 v (expectedChunkCountOf n) = Ok p /\ proofChunkIndex p = decimal i /\
    ((0 <= i < chunkCountOf b /\ c = chunkAt b i) \/ CollisionIn sha256 (proofInputs p c ++ bundleInputs sha256 b)).
Proof.
  intros Hw [Hb ->]%root_Ok (p & i & Ha & [Hc Hi Htx _ Htop] & Hcl)%accepted_inv; [|done..]. exists p, i. split_and!; [done|done|].
  unfold MAX_KA_TRANSFER_CHUNKS_V1, MIN_KA_TRANSFER_BYTES_V1 in *. unfold proofInputs. rewrite Htx, bigIntOf_decimal by lia.
  destruct (leaf_binds i c (proofSteps p) (bundleTree b)) as [Hl|Hcol]; [lia|by apply bundleTree_indexed|by eapply topology_canonical|done| |by right].
  left. apply bundle_leaf; [lia|done].
Qed.
End Safety.

(** *** Examples *)

(** A bundle of two chunks. *)
Definition twoChunks : bytes := zeroBytes (Z.to_nat 300000).

Lemma twoChunks_length : js_length twoChunks = 300000.
Proof. unfold js_length, twoChunks, zeroBytes. rewrite length_replicate. by rewrite Z2Nat.id. Qed.

Lemma twoChunks_facts :
  MIN_KA_TRANSFER_BYTES_V1 <= js_length twoChunks <= MAX_KA_TRANSFER_BYTES_V1 /\ chunkCountOf twoChunks = 2.
Proof. unfold chunkCountOf. rewrite twoChunks_length. done. Qed.

Lemma chunk_proofs_served_witness :
  exists proofs root, buildKaChunkProofsV1 sampleHash twoChunks [0; 1] = Ok proofs /\ computeKaChunkTreeRootV1 sampleHash twoChunks = Ok root /\
  Forall2 (fun i p => assertValidKaChunkProofV1 sampleHash (proofJson p) (chunkAt twoChunks i) 300000 root = Ok tt) [0; 1] proofs.
Proof.
  destruct twoChunks_facts as [Hb Hc]. pose proof (chunk_proofs_served sampleHash sampleHash_length twoChunks [0; 1]) as H.
  rewrite Hc, twoChunks_length in H. destruct (buildKaChunkProofsV1 sampleHash twoChunks [0; 1]) as [proofs|e].
  - destruct H as (_ & root & Hr & Hp). exists proofs, root. split; [reflexivity|]. split; [exact Hr|].
    eapply Forall2_impl; [exact Hp|]. intros i p (_ & Hv & _). exact Hv.
  - exfalso. rewrite decide_True in H by (rewrite twoChunks_length in Hb; exact Hb). destruct H as [Hs _]. apply Hs. split; [|split; repeat constructor; lia].
    unfold js_length, MAX_KA_CHUNK_PROOFS_PER_REQUEST_V1. cbn [length]. lia.
Defined.

Lemma accepted_chunk_is_stored_witness :
  exists p i, assertKaChunkProofV1 (proofJson (bundleProof sampleHash twoChunks 1)) 2 = Ok p /\ proofChunkIndex p = decimal i /\
    ((0 <= i < 2 /\ chunkAt twoChunks 1 = chunkAt twoChunks i) \/
     CollisionIn sampleHash (proofInputs sampleHash p (chunkAt twoChunks 1) ++ bundleInputs sampleHash twoChunks)).
Proof.
  destruct twoChunks_facts as [Hb Hc]. rewrite <- Hc.
  apply (accepted_chunk_is_stored sampleHash sampleHash_length _ _ (js_length twoChunks) (lowerHex (treeDigest sampleHash (bundleTree twoChunks)))).
  - apply proofJson_wf.
  - apply (root_Ok sampleHash sampleHash_length). split; [exact Hb|reflexivity].
  - apply bundleProof_accepted; [exact sampleHash_length|exact Hb|]. rewrite Hc. lia.
Defined.
