(* ===== verification/IriComponent.v ===== *)
(** * IRI components

    packages/core/src/canonical-iri-component-v1.ts: the percent encoding of an
    identifier, and [decodeURIComponent] of the language, which the catalog codec
    uses to read it back. *)

From Stdlib Require Import Strings.Byte.
From S2P Require Import Prelude Bytes CodePoints JsText JsNumber CanonicalJson CanonicalJsonTheory.

Open Scope Z_scope.

(** ** Encoding *)

Definition isUnescapedIriComponentByte (b : Z) : bool :=
  inZ 0x41 0x5a b || inZ 0x61 0x7a b || inZ 0x30 0x39 b || (b =? 0x2d) || (b =? 0x2e) || (b =? 0x5f) || (b =? 0x7e).

(** [n.toString(16).toUpperCase()] for [0 <= n < 16] *)
Definition upperHexUnit (n : Z) : codeUnit := fromCharCode (if n <? 10 then 48 + n else 55 + n).

Definition percentByte (b : Z) : jsstr :=
  if isUnescapedIriComponentByte b then [fromCharCode b]
  else [fromCharCode 0x25; upperHexUnit (b / 16); upperHexUnit (b mod 16)].

Definition encodeCanonicalIriComponentV1 (value : jsstr) : jsstr :=
  flat_map (fun b => percentByte (byteZ b)) (encodeUtf8 value).

(** ** [decodeURIComponent] *)

(** [n] escaped bytes. *)
Fixpoint octets (n : nat) (rest : jsstr) : option (list Z * jsstr) :=
  match n with
  | O => Some ([], rest)
  | S n' =>
      match rest with
      | p :: a :: b :: r =>
          if isUnit 0x25 p && (0 <=? hexNibble (unitZ a)) && (0 <=? hexNibble (unitZ b)) then
            '(os, r') ← octets n' r; Some (hexNibble (unitZ a) * 16 + hexNibble (unitZ b) :: os, r')
          else None
      | _ => None
      end
  end.

(** The number of bytes of the sequence that a byte starts; none for a byte that
    starts no sequence. *)
Definition sequenceLength (b0 : Z) : nat :=
  if b0 <? 0x80 then 1 else if b0 <? 0xC0 then 0 else if b0 <? 0xE0 then 2 else if b0 <? 0xF0 then 3 else if b0 <? 0xF8 then 4 else 0.

(** The next code units, and what follows. *)
Definition decodeNext (rest : jsstr) : option (list Z * jsstr) :=
  match rest with
  | [] => None
  | u :: r =>
      if isUnit 0x25 u then
        '(os, _) ← octets 1 rest;
        let n := sequenceLength (default 0 (head os)) in
        if (n =? 0)%nat then None
        else '(os, r) ← octets n rest; '(c, _) ← nextUtf8 os; Some (utf16 c, r)
      else Some ([unitZ u], r)
  end.

Fixpoint decodeURILoop (fuel : nat) (rest : jsstr) : option (list Z) :=
  match rest, fuel with
  | [], _ => Some []
  | _, O => None
  | _, S fuel' => '(us, r) ← decodeNext rest; vs ← decodeURILoop fuel' r; Some (us ++ vs)
  end.

(** [None] is a [URIError]; each round takes a code unit at least. *)
Definition decodeURIComponent (value : jsstr) : option jsstr :=
  us ← decodeURILoop (length value) value; Some (map fromCharCode us).

(** ** Facts *)

Lemma upperHexUnit_spec n : 0 <= n < 16 -> hexNibble (unitZ (upperHexUnit n)) = n.
Proof.
  intros Hn. assert (forallb (fun n => hexNibble (unitZ (upperHexUnit n)) =? n) (seqZ 0 16) = true) as H by (vm_compute; reflexivity).
  rewrite forallb_forall in H. specialize (H n). rewrite Z.eqb_eq in H. apply H, list_elem_of_In, elem_of_seqZ. lia.
Qed.

Lemma unescaped_range b : isUnescapedIriComponentByte b = true -> 0x2d <= b <= 0x7e /\ b <> 0x2f.
Proof. unfold isUnescapedIriComponentByte, inZ. rewrite !orb_true_iff, !andb_true_iff, !Z.leb_le, !Z.eqb_eq. lia. Qed.

Lemma octets_percent bs r :
  Forall (fun b => 0 <= b < 256 /\ isUnescapedIriComponentByte b = false) bs ->
  octets (length bs) (flat_map percentByte bs ++ r) = Some (bs, r).
Proof.
  induction 1 as [|b bs [Hb Hu] _ IH]; [done|]. cbn [length flat_map]. unfold percentByte at 1. rewrite Hu. cbn [app octets].
  rewrite !upperHexUnit_spec by lia. rewrite !(proj2 (Z.leb_le _ _)) by lia. change (isUnit 37 (fromCharCode 37)) with true.
  cbn [andb]. rewrite IH. cbn. do 3 f_equal. lia.
Qed.

Lemma utf8_sequence c : isScalar c = true -> 0x80 <= c ->
  exists b0 bs, utf8CodePoint c = b0 :: bs /\ sequenceLength b0 = length (utf8CodePoint c) /\ (length (utf8CodePoint c) <> 0)%nat /\
    Forall (fun b => 0 <= b < 256 /\ isUnescapedIriComponentByte b = false) (utf8CodePoint c).
Proof.
  rewrite isScalar_spec. intros [Hc _] Hge.
  assert (forall b, 0x80 <= b < 256 -> 0 <= b < 256 /\ isUnescapedIriComponentByte b = false) as Hb.
  { intros b Hb. split; [lia|]. destruct (isUnescapedIriComponentByte b) eqn:E; [|done]. apply unescaped_range in E. lia. }
  unfold utf8CodePoint. rewrite (proj2 (Z.ltb_ge _ _)) by lia.
  destruct (Z.ltb_spec c 0x800); [|destruct (Z.ltb_spec c 0x10000)]; eexists _, _; (split; [reflexivity|]); cbn [length]; unfold sequenceLength.
  all: rewrite ?(proj2 (Z.ltb_ge _ _)) by lia; rewrite ?(proj2 (Z.ltb_lt _ _)) by lia.
  all: split; [|split; [done|repeat constructor; apply Hb; lia]].
  all: repeat match goal with |- context [?a <? ?b] => destruct (Z.ltb_spec a b); try lia end; done.
Qed.

Lemma decodeNext_codePoint c r :
  isScalar c = true -> decodeNext (flat_map percentByte (utf8CodePoint c) ++ r) = Some (utf16 c, r).
Proof.
  intros Hs. pose proof Hs as [Hc _]%isScalar_spec. destruct (Z.lt_ge_cases c 0x80) as [Hlt|Hge].
  - assert (utf8CodePoint c = [c]) as Ec by (unfold utf8CodePoint; by rewrite (proj2 (Z.ltb_lt _ _)) by lia).
    assert (utf16 c = [c]) as E16 by (unfold utf16; by rewrite (proj2 (Z.leb_le _ _)) by lia). rewrite Ec, E16. cbn [flat_map app].
    rewrite app_nil_r. destruct (isUnescapedIriComponentByte c) eqn:Eu.
    + pose proof (unescaped_range c Eu). unfold percentByte. rewrite Eu. cbn [app decodeNext].
      unfold isUnit. rewrite unitZ_fromCharCode, (proj2 (Z.eqb_neq _ _)) by lia. done.
    + pose proof (octets_percent [c] r ltac:(constructor; [split; [lia|done]|constructor])) as Ho. cbn [flat_map length] in Ho. rewrite app_nil_r in Ho.
      unfold percentByte in *. rewrite Eu in *. cbn [app] in *. unfold decodeNext. change (isUnit 37 (fromCharCode 37)) with true.
      rewrite Ho. cbn [mbind option_bind head default from_option id]. unfold sequenceLength. rewrite (proj2 (Z.ltb_lt _ _)) by lia. cbn [Nat.eqb].
      rewrite Ho. cbn [mbind option_bind]. unfold nextUtf8. rewrite (proj2 (Z.ltb_lt _ _)) by lia. cbn. by rewrite E16.
  - destruct (utf8_sequence c Hs Hge) as (b0 & bs & E & Hn & Hn0 & Hall). pose proof (octets_percent _ r Hall) as Ho.
    pose proof (Forall_cons_1 _ _ _ (eq_rect _ (Forall _) Hall _ E)) as [[Hb0 Hu0] _].
    pose proof (octets_percent [b0] (flat_map percentByte bs ++ r) ltac:(constructor; [split; [lia|done]|constructor])) as Ho1.
    cbn [flat_map length] in Ho1. rewrite app_nil_r in Ho1.
    assert (flat_map percentByte (utf8CodePoint c) ++ r = percentByte b0 ++ flat_map percentByte bs ++ r) as Ef by (rewrite E; cbn [flat_map]; by rewrite app_assoc).
    assert (percentByte b0 = [fromCharCode 0x25; upperHexUnit (b0 / 16); upperHexUnit (b0 mod 16)]) as Ep by (unfold percentByte; by rewrite Hu0).
    rewrite Ef in Ho |- *. rewrite Ep in Ho, Ho1 |- *. cbn [app] in Ho, Ho1 |- *. unfold decodeNext.
    change (isUnit 37 (fromCharCode 37)) with true. rewrite Ho1. cbn [mbind option_bind head default from_option id].
    rewrite Hn. rewrite (proj2 (Nat.eqb_neq _ _)) by done. rewrite Ho. cbn [mbind option_bind].
    pose proof (nextUtf8_encode c [] Hs) as Hnx. rewrite app_nil_r in Hnx. by rewrite Hnx.
Qed.

Lemma percentByte_length b : (1 <= length (percentByte b) <= 3)%nat.
Proof. unfold percentByte. case_match; simpl; lia. Qed.

Lemma percent_length bs : (length bs <= length (flat_map percentByte bs))%nat.
Proof. induction bs as [|b bs IH]; [done|]. cbn [flat_map length]. rewrite length_app. pose proof (percentByte_length b). lia. Qed.

Lemma decodeURILoop_encode cs fuel :
  Forall (fun c => isScalar c = true) cs -> (length cs <= fuel)%nat ->
  decodeURILoop fuel (flat_map percentByte (flat_map utf8CodePoint cs)) = Some (flat_map utf16 cs).
Proof.
  intros Hcs. revert fuel. induction Hcs as [|c cs Hc _ IH]; intros fuel Hf; [by destruct fuel|]. cbn [length] in Hf.
  destruct fuel as [|fuel]; [lia|]. cbn [flat_map]. rewrite flat_map_app.
  pose proof (decodeNext_codePoint c (flat_map percentByte (flat_map utf8CodePoint cs)) Hc) as Hn.
  destruct (flat_map percentByte (utf8CodePoint c) ++ _) as [|u r] eqn:E; [done|].
  cbn [decodeURILoop]. rewrite Hn. cbn [mbind option_bind]. rewrite IH by lia. done.
Qed.

Lemma codePoints_length cs : (length cs <= length (flat_map utf8CodePoint cs))%nat.
Proof. induction cs as [|c cs IH]; [done|]. cbn [flat_map length]. rewrite length_app. pose proof (utf8CodePoint_length c). lia. Qed.

(** The encoding of a string of scalars. *)
Lemma encodeIri_scalars s :
  isWellFormed s = true -> encodeCanonicalIriComponentV1 s = flat_map percentByte (flat_map utf8CodePoint (codePoints s)).
Proof.
  intros Hs. unfold encodeCanonicalIriComponentV1. rewrite encodeUtf8_scalars by done. apply isWellFormed_spec in Hs.
  rewrite <- (bytes_roundtrip (flat_map utf8CodePoint (codePoints s))) at 2 by by apply scalar_bytes.
  generalize (byteOf <$> flat_map utf8CodePoint (codePoints s)). intros l. induction l as [|b l IH]; [done|]. csimpl. by rewrite IH.
Qed.

(** Decoding gives back an encoded string without lone surrogates. *)
Lemma decodeIri_encode s : isWellFormed s = true -> decodeURIComponent (encodeCanonicalIriComponentV1 s) = Some s.
Proof.
  intros Hs. rewrite encodeIri_scalars by done. pose proof (units_utf16 s) as Hu. apply isWellFormed_spec in Hs.
  unfold decodeURIComponent. rewrite decodeURILoop_encode; [simpl; by f_equal|done|].
  etrans; [apply codePoints_length|apply percent_length].
Qed.

Lemma encodeIri_inj s t :
  isWellFormed s = true -> isWellFormed t = true ->
  encodeCanonicalIriComponentV1 s = encodeCanonicalIriComponentV1 t -> s = t.
Proof. intros Hs Ht E. apply (f_equal decodeURIComponent) in E. rewrite !decodeIri_encode in E by done. congruence. Qed.

Lemma percentByte_unit b u : 0 <= b < 256 -> u ∈ percentByte b -> 0x25 <= unitZ u < 0x80 /\ unitZ u <> 0x2f.
Proof.
  intros Hb. unfold percentByte, upperHexUnit. destruct (isUnescapedIriComponentByte b) eqn:E.
  - apply unescaped_range in E. rewrite list_elem_of_singleton. intros ->. rewrite unitZ_fromCharCode; lia.
  - rewrite !elem_of_cons, elem_of_nil. intros [->|[->|[->|[]]]];
      repeat match goal with |- context [?a <? ?b] => destruct (Z.ltb_spec a b) end; rewrite unitZ_fromCharCode; lia.
Qed.

(** A component has no separator. *)
Lemma encodeIri_unit s u : u ∈ encodeCanonicalIriComponentV1 s -> 0x25 <= unitZ u < 0x80 /\ unitZ u <> 0x2f.
Proof.
  unfold encodeCanonicalIriComponentV1. rewrite list_elem_of_In, in_flat_map. intros (b & _ & Hu%list_elem_of_In).
  eapply percentByte_unit; [|exact Hu]. apply byteZ_range.
Qed.

Lemma encodeIri_length s :
  (length (encodeUtf8 s) <= length (encodeCanonicalIriComponentV1 s) <= 3 * length (encodeUtf8 s))%nat.
Proof.
  unfold encodeCanonicalIriComponentV1. generalize (encodeUtf8 s). intros l. induction l as [|b l IH]; [done|].
  cbn [flat_map length]. rewrite length_app. pose proof (percentByte_length (byteZ b)). lia.
Qed.
