(* ===== verification/AuthorLane.v ===== *)
(** * Author lanes

    packages/core/src/sync-wire-identifiers.ts and author-lane-scope-v1.ts: the
    identifiers of networks, context graphs and subgraphs, and the scope of an
    author's lane.  [String.prototype.normalize], a table of the Unicode
    standard, is the parameter [nfc]. *)

From S2P Require Import Prelude Bytes CodePoints JsText JsNumber CanonicalJson CanonicalJsonTheory.
From S2P Require Import PlainJson WireScalars KaTransfer.

Open Scope Z_scope.

(** ** Characters *)

Definition isAlnum (u : Z) : bool := inZ 0x41 0x5a u || inZ 0x61 0x7a u || inZ 0x30 0x39 u.

(** [/^[A-Za-z0-9._:-]+$/] *)
Definition NETWORK_ID_PATTERN (s : jsstr) : bool :=
  negb (bool_decide (s = [])) &&
  forallb (fun u => let c := unitZ u in isAlnum c || (c =? 0x2e) || (c =? 0x5f) || (c =? 0x3a) || (c =? 0x2d)) s.

(** [/^[A-Za-z0-9_:/\.@-]+$/] *)
Definition CONTEXT_GRAPH_ID_PATTERN (s : jsstr) : bool :=
  negb (bool_decide (s = [])) &&
  forallb (fun u => let c := unitZ u in
    isAlnum c || (c =? 0x5f) || (c =? 0x3a) || (c =? 0x2f) || (c =? 0x2e) || (c =? 0x40) || (c =? 0x2d)) s.

(** Angle brackets, quotation mark, braces, bar, caret, backtick and backslash. *)
Definition AUTHOR_LANE_IDENTIFIER_ASCII_FORBIDDEN : list Z := [0x3c; 0x3e; 0x22; 0x7b; 0x7d; 0x7c; 0x5e; 0x60; 0x5c].

Definition RESERVED_SUBGRAPH_NAMES : list jsstr := [js "context"; js "assertion"; js "draft"].

Definition isAuthorLaneForbiddenCodePointV1 (codePoint : Z) : bool :=
  inZ 0x0000 0x001f codePoint || inZ 0x007f 0x009f codePoint || (codePoint =? 0x00a0) || (codePoint =? 0x1680)
  || inZ 0x2000 0x200b codePoint || (codePoint =? 0x2028) || (codePoint =? 0x2029) || (codePoint =? 0x202f)
  || (codePoint =? 0x205f) || (codePoint =? 0x3000) || (codePoint =? 0xfeff).

(** ** Networks *)

Definition MAX_NETWORK_ID_BYTES_V1 : Z := 128.

Inductive NetworkIdError :=
| ENetworkIdEmpty
| ENetworkIdTooLong
| ENetworkIdGrammar.

Definition assertNetworkIdV1 (value : Json) : result NetworkIdError unit :=
  match value with
  | JString s =>
      throw ENetworkIdEmpty when js_length s =? 0;
      throw ENetworkIdTooLong when
        (MAX_NETWORK_ID_BYTES_V1 <? js_length s) || (MAX_NETWORK_ID_BYTES_V1 <? js_length (encodeUtf8 s));
      throw ENetworkIdGrammar when negb (NETWORK_ID_PATTERN s);
      Ok tt
  | _ => Err ENetworkIdEmpty
  end.

(** ** Identifiers *)

Definition MAX_AUTHOR_LANE_IDENTIFIER_BYTES_V1 : Z := 256.

(** The loop of [assertWellFormedUnicode]; true when it ends without failing. *)
Fixpoint wellFormedUnicode (value : jsstr) : bool :=
  match value with
  | [] => true
  | unit :: rest =>
      if inZ 0xd800 0xdbff (unitZ unit) then
        match rest with
        | next :: rest' => if negb (inZ 0xdc00 0xdfff (unitZ next)) then false else wellFormedUnicode rest'
        | [] => false
        end
      else if inZ 0xdc00 0xdfff (unitZ unit) then false
      else wellFormedUnicode rest
  end.

(** A string field that passes a check; any failure is the error [e].  The checks
    of scalars refuse everything but strings. *)
Definition checkedText {E F A} (e : F) (check : Json -> result E A) (value : option Json) : result F jsstr :=
  match value with
  | Some (JString s) => let* _ := rethrow e (check (JString s)) in Ok s
  | _ => Err e
  end.

Inductive AuthorLaneScopeErrorCodeV1 :=
| AuthorLaneSchema
| AuthorLaneIdentifier
| AuthorLaneScalar
| AuthorLaneGovernanceTuple.

Abbreviation lresult := (result AuthorLaneScopeErrorCodeV1).

Section Identifiers.
Context (nfc : jsstr -> jsstr).

(** [assertNfcUtf8Identifier] of the lane and of the catalog codec, with their
    error. *)
Definition assertNfcUtf8Identifier {E} (e : E) (maxBytes : Z) (value : option Json) : result E jsstr :=
  match value with
  | Some (JString value) =>
      throw e when js_length value =? 0;
      throw e when maxBytes <? js_length value;
      throw e when negb (wellFormedUnicode value);
      throw e when negb (bool_decide (nfc value = value));
      throw e when maxBytes <? js_length (encodeUtf8 value);
      Ok value
  | _ => Err e
  end.

(** [for (const character of identifier)] goes by code points. *)
Definition assertAuthorLaneIdentifier (value : option Json) : lresult jsstr :=
  let* identifier := assertNfcUtf8Identifier AuthorLaneIdentifier MAX_AUTHOR_LANE_IDENTIFIER_BYTES_V1 value in
  throw AuthorLaneIdentifier when
    existsb (fun codePoint => (codePoint =? 0x2f) || bool_decide (codePoint ∈ AUTHOR_LANE_IDENTIFIER_ASCII_FORBIDDEN)
                              || isAuthorLaneForbiddenCodePointV1 codePoint) (codePoints identifier);
  Ok identifier.

Definition assertAuthorLaneContextGraphIdV1 (value : option Json) : lresult jsstr :=
  let* identifier := assertNfcUtf8Identifier AuthorLaneIdentifier MAX_AUTHOR_LANE_IDENTIFIER_BYTES_V1 value in
  throw AuthorLaneIdentifier when negb (CONTEXT_GRAPH_ID_PATTERN identifier);
  Ok identifier.

Definition assertAuthorLaneSubGraphNameV1 (value : option Json) : lresult jsstr :=
  let* identifier := assertAuthorLaneIdentifier value in
  throw AuthorLaneIdentifier when bool_decide (take 1 identifier = js "_");
  throw AuthorLaneIdentifier when bool_decide (identifier ∈ RESERVED_SUBGRAPH_NAMES);
  Ok identifier.

(** ** Scopes *)

Record CatalogLaneV1 := {
  contextGraphId : jsstr;
  subGraphName : option jsstr
}.

Record AuthorLaneScopeV1 := {
  lane : CatalogLaneV1;
  networkId : jsstr;
  governanceChainId : option jsstr;
  governanceContractAddress : option jsstr;
  ownershipTransitionDigest : option jsstr;
  authorAddress : jsstr;
  era : jsstr
}.

Definition AUTHOR_LANE_SCOPE_KEYS_V1 : list jsstr :=
  [js "authorAddress"; js "contextGraphId"; js "era"; js "governanceChainId"; js "governanceContractAddress";
   js "networkId"; js "ownershipTransitionDigest"; js "subGraphName"].

Definition isNull (value : option Json) : bool := match value with Some JNull => true | _ => false end.

(** [if (value !== null) assert(value)] *)
Definition nullable {E} (assert : option Json -> result E jsstr) (value : option Json) : result E (option jsstr) :=
  if isNull value then Ok None else let* s := assert value in Ok (Some s).

Definition scalar {E A} (operation : Json -> result E A) (value : option Json) : lresult jsstr :=
  checkedText AuthorLaneScalar operation value.

Definition assertGovernanceTuple (chainId contractAddress : option Json) : lresult (option jsstr * option jsstr) :=
  let chainIsNull := isNull chainId in
  let contractIsNull := isNull contractAddress in
  throw AuthorLaneGovernanceTuple when negb (Bool.eqb chainIsNull contractIsNull);
  if negb chainIsNull then
    let* chain := scalar assertCanonicalChainId chainId in
    let* contract := scalar assertCanonicalEvmAddress contractAddress in
    Ok (Some chain, Some contract)
  else Ok (None, None).

Definition assertAuthorLaneScopeFieldsV1 (scope : list (jsstr * Json)) : lresult AuthorLaneScopeV1 :=
  let get key := field (js key) scope in
  let* networkId := scalar assertNetworkIdV1 (get "networkId") in
  let* contextGraphId := assertAuthorLaneContextGraphIdV1 (get "contextGraphId") in
  let* subGraphName := nullable assertAuthorLaneSubGraphNameV1 (get "subGraphName") in
  let* authorAddress := scalar assertCanonicalEvmAddress (get "authorAddress") in
  let* era := scalar parseCanonicalDecimalU64 (get "era") in
  let* (chain, contract) := assertGovernanceTuple (get "governanceChainId") (get "governanceContractAddress") in
  let* ownership := nullable (scalar assertCanonicalDigest) (get "ownershipTransitionDigest") in
  Ok {| lane := {| contextGraphId := contextGraphId; subGraphName := subGraphName |}; networkId := networkId;
        governanceChainId := chain; governanceContractAddress := contract; ownershipTransitionDigest := ownership;
        authorAddress := authorAddress; era := era |}.

Definition assertAuthorLaneScopeV1 (scope : Json) : lresult AuthorLaneScopeV1 :=
  match isPlainRecord scope with
  | None => Err AuthorLaneSchema
  | Some fields =>
      throw AuthorLaneSchema when negb (assertExactKeys fields AUTHOR_LANE_SCOPE_KEYS_V1);
      assertAuthorLaneScopeFieldsV1 fields
  end.

Definition orNull (value : option jsstr) : Json := match value with Some s => JString s | None => JNull end.

(** The values of a scope, in the order of the keys. *)
Definition laneScopeValues (scope : AuthorLaneScopeV1) : list Json :=
  [JString (authorAddress scope); JString (contextGraphId (lane scope)); JString (era scope); orNull (governanceChainId scope);
   orNull (governanceContractAddress scope); JString (networkId scope); orNull (ownershipTransitionDigest scope);
   orNull (subGraphName (lane scope))].

Definition laneScopeFields (scope : AuthorLaneScopeV1) : list (jsstr * Json) :=
  zip AUTHOR_LANE_SCOPE_KEYS_V1 (laneScopeValues scope).

(** The copy has the eight fields of the scope. *)
Definition snapshotAuthorLaneScopeV1 (scope : AuthorLaneScopeV1) : lresult AuthorLaneScopeV1 :=
  assertAuthorLaneScopeV1 (JObject (laneScopeFields scope)).

End Identifiers.

(** ** Facts *)

Lemma wellFormedUnicode_spec s : wellFormedUnicode s = isWellFormed s.
Proof.
  induction s as [s IH] using list_ind_len. destruct s as [|u r]; [done|]. rewrite isWellFormed_cons. cbn [wellFormedUnicode].
  change (inZ 0xd800 0xdbff (unitZ u)) with (isHighSurrogate u). change (inZ 0xdc00 0xdfff (unitZ u)) with (isLowSurrogate u).
  destruct (isHighSurrogate u).
  - destruct r as [|v r]; [done|]. change (inZ 0xdc00 0xdfff (unitZ v)) with (isLowSurrogate v).
    destruct (isLowSurrogate v); [|done]. apply IH. simpl. lia.
  - destruct (isLowSurrogate u); [done|]. apply IH. simpl. lia.
Qed.

Lemma checkedText_Ok {E F A} (e : F) (check : Json -> result E A) value s :
  checkedText e check value = Ok s <-> value = Some (JString s) /\ exists a, check (JString s) = Ok a.
Proof.
  unfold checkedText. split.
  - destruct value as [[]|]; try done. intros H. ok_inv. subst. apply rethrow_Ok in H0. eauto.
  - intros (-> & a & ->). done.
Qed.

Lemma isNull_true value : isNull value = true <-> value = Some JNull.
Proof. destruct value as [[]|]; simpl; naive_solver. Qed.

(** A check that passes strings only, unchanged. *)
Definition textCheck {E} (assert : option Json -> result E jsstr) : Prop :=
  forall value s, assert value = Ok s -> value = Some (JString s).

Lemma nullable_Ok {E} (assert : option Json -> result E jsstr) value o :
  textCheck assert ->
  nullable assert value = Ok o <->
  value = Some (orNull o) /\ match o with Some s => assert (Some (JString s)) = Ok s | None => True end.
Proof.
  intros Ha. unfold nullable. split.
  - destruct (isNull value) eqn:En.
    + apply isNull_true in En as ->. by intros [= <-].
    + intros H. ok_inv. subst o. pose proof (Ha _ _ H0) as ->. done.
  - intros [-> Ho]. destruct o as [s|]; [|done]. simpl. by rewrite Ho.
Qed.

(** *** Texts of bounded size *)

(** A text without escapes and at most [n] bytes. *)
Definition shortText (n : Z) (s : jsstr) : Prop := plain s = true /\ js_length (encodeUtf8 s) <= n.

Lemma hexDigits_short n s : hexDigits n s = true -> shortText (2 + n) s.
Proof.
  unfold hexDigits. rewrite !andb_true_iff, bool_decide_eq_true, Z.eqb_eq, forallb_forall. intros [[Hp Hl] Hh].
  destruct (asciiPlain_spec s) as [? E].
  - rewrite <- (take_drop 2 s), Hp. unfold asciiPlain. rewrite forallb_app. apply andb_true_iff. split; [done|].
    apply asciiPlain_intro, Forall_forall. intros u Hu%list_elem_of_In%Hh. revert Hu. rewrite plainUnit_spec.
    unfold isLowerHex, isDigit. rewrite orb_true_iff, !andb_true_iff, !Z.leb_le. lia.
  - split; [done|lia].
Qed.

Lemma address_short s u : assertCanonicalEvmAddress (JString s) = Ok u -> shortText 42 s.
Proof. intros H. cbn [assertCanonicalEvmAddress] in H. ok_inv. apply negb_false_iff in H0. by apply (hexDigits_short 40). Qed.

Lemma digest_short s u : assertCanonicalDigest (JString s) = Ok u -> shortText 66 s.
Proof. intros H. cbn [assertCanonicalDigest] in H. ok_inv. apply negb_false_iff in H0. by apply (hexDigits_short 64). Qed.

Lemma decimal_short s max n :
  0 <= max -> parseCanonicalUnsignedDecimal (JString s) max = Ok n -> shortText (js_length (decimal max)) s.
Proof.
  intros Hm [Hn [= ->]]%parseDecimal_Ok; [|done]. split; [apply decimal_plain; lia|]. rewrite decimal_utf8 by lia.
  by apply decimal_length_mono.
Qed.

Lemma u64_short s n : parseCanonicalDecimalU64 (JString s) = Ok n -> shortText 20 s.
Proof. apply decimal_short. done. Qed.

Lemma u256_short s n : parseCanonicalDecimalU256 (JString s) = Ok n -> shortText 78 s.
Proof. apply decimal_short. done. Qed.

Lemma kaId_short s u : assertCanonicalKaId (JString s) = Ok u -> shortText 78 s.
Proof. unfold assertCanonicalKaId, assertCanonicalDecimalU256. intros H. ok_inv. by eapply u256_short. Qed.

Lemma chainId_short s u : assertCanonicalChainId (JString s) = Ok u -> shortText 78 s.
Proof. unfold assertCanonicalChainId, assertCanonicalDecimalU256. intros H. ok_inv. by eapply u256_short. Qed.

Lemma network_short s u : assertNetworkIdV1 (JString s) = Ok u -> shortText 128 s.
Proof.
  intros H. cbn [assertNetworkIdV1] in H. ok_inv. apply orb_false_iff in H1 as [_ Hl].
  apply negb_false_iff, andb_true_iff in H2 as [_ H2]. rewrite forallb_forall in H2.
  destruct (asciiPlain_spec s) as [? E]; [|split; [done|unfold MAX_NETWORK_ID_BYTES_V1 in Hl; lia]].
  apply asciiPlain_intro, Forall_forall. intros u' Hu%list_elem_of_In%H2. rewrite plainUnit_spec. revert Hu. cbn zeta.
  unfold isAlnum, inZ. rewrite !orb_true_iff, !andb_true_iff, !Z.leb_le, !Z.eqb_eq. lia.
Qed.

Lemma unit_codePoint u s : u ∈ s -> unitZ u < 0xD800 -> unitZ u ∈ codePoints s.
Proof.
  intros Hu Hlt. assert (unitZ u ∈ flat_map utf16 (codePoints s)) as Hin.
  { rewrite codePoints_utf16. apply list_elem_of_fmap. eauto. }
  apply list_elem_of_In, in_flat_map in Hin as (c & Hc & Hin). apply list_elem_of_In in Hc.
  revert Hin. unfold utf16. destruct (Z.leb_spec c 0xFFFF); simpl; [intros [<-|[]]; done|intros [E|[E|[]]]; lia].
Qed.

Section IdentifierFacts.
Context (nfc : jsstr -> jsstr).

Record validIdentifier (maxBytes : Z) (s : jsstr) : Prop := {
  vi_nonempty : s <> [];
  vi_wellFormed : isWellFormed s = true;
  vi_nfc : nfc s = s;
  vi_size : js_length (encodeUtf8 s) <= maxBytes
}.

(** The length check in front is implied by the size check. *)
Lemma nfcIdentifier_Ok {E} (e : E) maxBytes value s :
  assertNfcUtf8Identifier nfc e maxBytes value = Ok s <-> value = Some (JString s) /\ validIdentifier maxBytes s.
Proof.
  unfold assertNfcUtf8Identifier. split.
  - destruct value as [[]|]; try done. intros H. ok_inv. subst s. rewrite wellFormedUnicode_spec in H2.
    apply negb_false_iff in H2, H3. apply bool_decide_eq_true in H3. split; [done|]. split; [|done|done|lia].
    intros ->. done.
  - intros [-> [Hn Hw Hf Hs]]. pose proof (utf16_le_utf8 s). rewrite wellFormedUnicode_spec, Hw, Hf, bool_decide_eq_true_2 by done.
    rewrite !(proj2 (Z.ltb_ge _ _)) by lia. rewrite (proj2 (Z.eqb_neq _ _)); [done|]. by destruct s.
Qed.

Definition laneCharacters (s : jsstr) : bool :=
  negb (existsb (fun codePoint => (codePoint =? 0x2f) || bool_decide (codePoint ∈ AUTHOR_LANE_IDENTIFIER_ASCII_FORBIDDEN)
                                  || isAuthorLaneForbiddenCodePointV1 codePoint) (codePoints s)).

Lemma laneCharacters_short maxBytes s : validIdentifier maxBytes s -> laneCharacters s = true -> shortText maxBytes s.
Proof.
  intros [_ Hw _ Hs] Hc. split; [|done]. apply plain_spec. split; [done|]. apply Forall_forall. intros u Hu.
  pose proof (unitZ_range u). destruct (Z.lt_ge_cases (unitZ u) 0xD800) as [Hlt|]; [|apply plainUnit_spec; lia].
  apply (unit_codePoint u s Hu), list_elem_of_In in Hlt. apply plainUnit_spec. apply negb_true_iff, not_true_iff_false in Hc.
  rewrite existsb_exists in Hc. split_and!.
  - destruct (Z.lt_ge_cases (unitZ u) 0x20); [|done]. exfalso. apply Hc. exists (unitZ u). split; [done|].
    unfold isAuthorLaneForbiddenCodePointV1. rewrite (proj2 (inZ_spec 0 0x1f (unitZ u))) by lia. apply orb_true_r.
  - intros E. apply Hc. exists (unitZ u). split; [done|]. by rewrite E.
  - intros E. apply Hc. exists (unitZ u). split; [done|]. by rewrite E.
Qed.

Lemma laneIdentifier_Ok value s :
  assertAuthorLaneIdentifier nfc value = Ok s <-> value = Some (JString s) /\ validIdentifier 256 s /\ laneCharacters s = true.
Proof.
  unfold assertAuthorLaneIdentifier, laneCharacters. rewrite result_bind_Ok. split.
  - intros (x & [-> Hv]%nfcIdentifier_Ok & H). ok_inv. subst x. by rewrite H0.
  - intros (-> & Hv & Hc%negb_true_iff). exists s. split; [by apply nfcIdentifier_Ok|]. by rewrite Hc.
Qed.

Record validContextGraphId (s : jsstr) : Prop := {
  vc_identifier : validIdentifier 256 s;
  vc_pattern : CONTEXT_GRAPH_ID_PATTERN s = true
}.

Lemma contextGraphId_Ok value s :
  assertAuthorLaneContextGraphIdV1 nfc value = Ok s <-> value = Some (JString s) /\ validContextGraphId s.
Proof.
  unfold assertAuthorLaneContextGraphIdV1. rewrite result_bind_Ok. split.
  - intros (x & [-> Hv]%nfcIdentifier_Ok & H). ok_inv. subst x. by apply negb_false_iff in H0.
  - intros (-> & Hv & Hc). exists s. split; [by apply nfcIdentifier_Ok|]. by rewrite Hc.
Qed.

Record validSubGraphName (s : jsstr) : Prop := {
  vn_identifier : validIdentifier 256 s;
  vn_characters : laneCharacters s = true;
  vn_underscore : take 1 s <> js "_";
  vn_reserved : s ∉ RESERVED_SUBGRAPH_NAMES
}.

Lemma subGraphName_Ok value s :
  assertAuthorLaneSubGraphNameV1 nfc value = Ok s <-> value = Some (JString s) /\ validSubGraphName s.
Proof.
  unfold assertAuthorLaneSubGraphNameV1. rewrite result_bind_Ok. split.
  - intros (x & (-> & Hv & Hc)%laneIdentifier_Ok & H). ok_inv. subst x.
    apply bool_decide_eq_false in H0, H1. done.
  - intros (-> & [Hv Hc Hu Hr]). exists s. split; [by apply laneIdentifier_Ok|]. by rewrite !bool_decide_eq_false_2.
Qed.

Lemma context_short s : validContextGraphId s -> shortText 256 s.
Proof.
  intros [[_ _ _ Hs] Hp]. split; [|done]. apply andb_true_iff in Hp as [_ Hp]. rewrite forallb_forall in Hp.
  apply asciiPlain_spec, asciiPlain_intro, Forall_forall. intros u Hu%list_elem_of_In%Hp. rewrite plainUnit_spec. revert Hu. cbn zeta.
  unfold isAlnum, inZ. rewrite !orb_true_iff, !andb_true_iff, !Z.leb_le, !Z.eqb_eq. lia.
Qed.

Lemma subGraph_short s : validSubGraphName s -> shortText 256 s.
Proof. intros [Hv Hc _ _]. by apply laneCharacters_short. Qed.

(** *** Scopes *)

Definition subGraph_textCheck : textCheck (assertAuthorLaneSubGraphNameV1 nfc) :=
  fun value s H => proj1 (proj1 (subGraphName_Ok value s) H).

Definition scalar_textCheck {E A} (check : Json -> result E A) : textCheck (scalar check) :=
  fun value s H => proj1 (proj1 (checkedText_Ok AuthorLaneScalar check value s) H).

Record validLane (l : CatalogLaneV1) : Prop := {
  vl_context : validContextGraphId (contextGraphId l);
  vl_subGraph : match subGraphName l with Some s => validSubGraphName s | None => True end
}.

(** Both parts of the governance tuple, or none. *)
Definition validGovernance (chain contract : option jsstr) : Prop :=
  match chain, contract with
  | Some chain, Some contract =>
      assertCanonicalChainId (JString chain) = Ok tt /\ assertCanonicalEvmAddress (JString contract) = Ok tt
  | None, None => True
  | _, _ => False
  end.

Definition validOptionalDigest (digest : option jsstr) : Prop :=
  match digest with Some s => assertCanonicalDigest (JString s) = Ok tt | None => True end.

Record validLaneScope (sc : AuthorLaneScopeV1) : Prop := {
  vl_lane : validLane (lane sc);
  vl_network : assertNetworkIdV1 (JString (networkId sc)) = Ok tt;
  vl_author : assertCanonicalEvmAddress (JString (authorAddress sc)) = Ok tt;
  vl_era : exists n, parseCanonicalDecimalU64 (JString (era sc)) = Ok n;
  vl_governance : validGovernance (governanceChainId sc) (governanceContractAddress sc);
  vl_ownership : validOptionalDigest (ownershipTransitionDigest sc)
}.

Definition lookups (keys : list jsstr) (fields : list (jsstr * Json)) : list (option Json) := (fun k => field k fields) <$> keys.

Lemma subGraph_nullable value o :
  nullable (assertAuthorLaneSubGraphNameV1 nfc) value = Ok o <->
  value = Some (orNull o) /\ match o with Some s => validSubGraphName s | None => True end.
Proof.
  rewrite nullable_Ok by apply subGraph_textCheck. apply and_iff_compat_l. destruct o; [|done]. rewrite subGraphName_Ok. naive_solver.
Qed.

Lemma digest_nullable value o :
  nullable (scalar assertCanonicalDigest) value = Ok o <-> value = Some (orNull o) /\ validOptionalDigest o.
Proof.
  rewrite nullable_Ok by apply scalar_textCheck. apply and_iff_compat_l. destruct o; [|done]. unfold scalar. rewrite checkedText_Ok.
  split; [intros (_ & [] & ?); done|simpl; eauto].
Qed.

Lemma scalar_unit_Ok {E} (check : Json -> result E unit) value s :
  scalar check value = Ok s <-> value = Some (JString s) /\ check (JString s) = Ok tt.
Proof. unfold scalar. rewrite checkedText_Ok. apply and_iff_compat_l. split; [by intros [[] ?]|eauto]. Qed.

Lemma governance_Ok c k chain contract :
  assertGovernanceTuple c k = Ok (chain, contract) <->
  c = Some (orNull chain) /\ k = Some (orNull contract) /\ validGovernance chain contract.
Proof.
  unfold assertGovernanceTuple. split.
  - intros H. ok_inv. apply negb_false_iff, eqb_prop in H0. destruct (isNull c) eqn:Ec; cbn [negb] in H.
    + symmetry in H0. apply isNull_true in Ec as ->, H0 as ->. injection H as <- <-. done.
    + ok_inv. subst. apply scalar_unit_Ok in H1 as [-> ?], H2 as [-> ?]. repeat split; assumption.
  - intros (-> & -> & Hv). destruct chain as [chain|], contract as [contract|]; [|destruct Hv..|reflexivity].
    destruct Hv as [H1 H2]. cbn [orNull isNull Bool.eqb negb throw_if].
    rewrite (proj2 (scalar_unit_Ok _ _ chain) (conj eq_refl H1)), (proj2 (scalar_unit_Ok _ _ contract) (conj eq_refl H2)). reflexivity.
Qed.

(** The fields are read as a scope exactly when they are its fields. *)
Lemma laneFields_Ok fields sc :
  assertAuthorLaneScopeFieldsV1 nfc fields = Ok sc <->
  validLaneScope sc /\ lookups AUTHOR_LANE_SCOPE_KEYS_V1 fields = Some <$> laneScopeValues sc.
Proof.
  unfold assertAuthorLaneScopeFieldsV1. split.
  - intros H. ok_pairs. subst sc. apply scalar_unit_Ok in H0 as [F1 V1], H3 as [F4 V4]. apply contextGraphId_Ok in H1 as [F2 V2].
    apply subGraph_nullable in H2 as [F3 V3]. apply checkedText_Ok in H4 as [F5 V5]. apply governance_Ok in H5 as (F6 & F7 & V6).
    apply digest_nullable in H6 as [F8 V8]. split; [split; [split|..]; assumption|].
    unfold lookups, AUTHOR_LANE_SCOPE_KEYS_V1, laneScopeValues. csimpl. congruence.
  - intros [[[V2 V3] V1 V4 [n V5] V6 V8] Hl]. destruct sc as [[ctx sub] net chain contract own author er].
    cbn [lane contextGraphId subGraphName networkId governanceChainId governanceContractAddress ownershipTransitionDigest authorAddress era] in *.
    unfold lookups, AUTHOR_LANE_SCOPE_KEYS_V1, laneScopeValues in Hl. csimpl in Hl. injection Hl as -> -> -> -> -> -> -> ->.
    rewrite (proj2 (scalar_unit_Ok assertNetworkIdV1 _ net) (conj eq_refl V1)), (proj2 (contextGraphId_Ok _ ctx) (conj eq_refl V2)),
      (proj2 (subGraph_nullable _ sub) (conj eq_refl V3)), (proj2 (scalar_unit_Ok assertCanonicalEvmAddress _ author) (conj eq_refl V4)).
    cbn [result_bind]. unfold scalar at 1. rewrite (proj2 (checkedText_Ok AuthorLaneScalar _ _ er) (conj eq_refl (ex_intro _ n V5))).
    rewrite (proj2 (governance_Ok _ _ chain contract) (conj eq_refl (conj eq_refl V6))), (proj2 (digest_nullable _ own) (conj eq_refl V8)).
    reflexivity.
Qed.

Lemma laneScopeKeys_NoDup : NoDup AUTHOR_LANE_SCOPE_KEYS_V1.
Proof. apply (bool_decide_unpack _). vm_compute. exact I. Qed.

(** A valid scope is its own snapshot. *)
Lemma snapshot_valid sc : validLaneScope sc -> snapshotAuthorLaneScopeV1 nfc sc = Ok sc.
Proof.
  intros Hv. unfold snapshotAuthorLaneScopeV1, assertAuthorLaneScopeV1. cbn [isPlainRecord].
  rewrite (exactKeys_of_perm _ _ (laneScopeValues sc)) by (apply laneScopeKeys_NoDup || reflexivity).
  apply laneFields_Ok. split; [exact Hv|reflexivity].
Qed.

End IdentifierFacts.
