(* ===== verification/AuthorCatalog.v ===== *)
(** * The author catalog codec

    packages/core/src/author-catalog-codec.ts: scopes and rows of an author's
    catalog, the identifiers of assertions, their digests and the buckets of the
    keys.  sha256 and the Unicode normalization are parameters. *)

From S2P Require Import Prelude Bytes Merkle CodePoints JsText JsNumber CanonicalJson CanonicalJsonTheory.
From S2P Require Import PlainJson WireScalars KaTransfer IriComponent AuthorLane.

Open Scope Z_scope.

Definition AUTHOR_CATALOG_SCOPE_DIGEST_DOMAIN_V1 : jsstr := js "dkg-author-catalog-scope-v1" ++ [fromCharCode 10].
Definition AUTHOR_CATALOG_KEY_DIGEST_DOMAIN_V1 : jsstr := js "dkg-author-catalog-key-v1" ++ [fromCharCode 10].
Definition AUTHOR_CATALOG_ROW_DIGEST_DOMAIN_V1 : jsstr := js "dkg-author-catalog-row-v1" ++ [fromCharCode 10].

Definition MAX_AUTHOR_CATALOG_IDENTIFIER_BYTES_V1 : Z := MAX_AUTHOR_LANE_IDENTIFIER_BYTES_V1.
Definition MAX_AUTHOR_CATALOG_SCOPE_BYTES_V1 : Z := 2048.
Definition MAX_AUTHOR_CATALOG_ROW_BYTES_V1 : Z := 2048.
Definition MAX_AUTHOR_CATALOG_ROW_DIGEST_INPUT_BYTES_V1 : Z := 4096.
Definition MAX_AUTHOR_CATALOG_BUCKET_COUNT_V1 : Z := 9223372036854775808.
Definition PACKED_KA_NUMBER_BITS_V1 : Z := 96.

Definition CATALOG_IDENTIFIER_ASCII_FORBIDDEN : list Z := [0x3c; 0x3e; 0x22; 0x7b; 0x7d; 0x7c; 0x5e; 0x60; 0x5c].

Record AuthorCatalogScopeV1 := {
  laneScope : AuthorLaneScopeV1;
  bucketCount : jsstr
}.

Record AuthorCatalogRowV1 := {
  kaId : jsstr;
  assertionCoordinate : jsstr;
  assertionVersion : jsstr;
  rowProjectionId : jsstr;
  rowProjectionDigest : jsstr;
  sealDigest : jsstr;
  transfer : KaTransferDescriptorV1
}.

Inductive AuthorCatalogCodecErrorCode :=
| CatalogSchema
| CatalogIdentifier
| CatalogScalar
| CatalogGovernanceTuple
| CatalogBucketCount
| CatalogTransferMismatch
| CatalogPackedAuthorMismatch
| CatalogObjectTooLarge.

(** An [AuthorCatalogCodecError], or an error that passes through. *)
Inductive CatalogError :=
| ECatalog (code : AuthorCatalogCodecErrorCode)
| ECatalogJson (e : CanonicalJsonError)
| ECatalogScalar (e : ScalarError).

Abbreviation cresult := (result CatalogError).

Definition adaptAuthorLane {A} (operation : lresult A) : cresult A :=
  mapErr (fun code => ECatalog
    match code with
    | AuthorLaneSchema => CatalogSchema
    | AuthorLaneIdentifier => CatalogIdentifier
    | AuthorLaneGovernanceTuple => CatalogGovernanceTuple
    | AuthorLaneScalar => CatalogScalar
    end) operation.

Definition assertCatalogScalar {E A} (operation : Json -> result E A) (value : option Json) : cresult jsstr :=
  checkedText (ECatalog CatalogScalar) operation value.

(** The text and its value. *)
Definition assertCatalogU64 (value : option Json) : cresult (jsstr * Z) :=
  match value with
  | Some (JString s) => let* n := rethrow (ECatalog CatalogScalar) (parseCanonicalDecimalU64 (JString s)) in Ok (s, n)
  | _ => Err (ECatalog CatalogScalar)
  end.

Definition assertCatalogPositiveU64 (value : option Json) : cresult jsstr :=
  let* (text, parsed) := assertCatalogU64 value in
  throw ECatalog CatalogScalar when parsed <? 1;
  Ok text.

Definition parseCatalogU256 (value : jsstr) : cresult Z :=
  rethrow (ECatalog CatalogScalar) (parseCanonicalDecimalU256 (JString value)).

Definition isCatalogForbiddenCodePointV1 (codePoint : Z) : bool :=
  inZ 0x0000 0x001f codePoint || inZ 0x007f 0x009f codePoint || (codePoint =? 0x00a0) || (codePoint =? 0x1680)
  || inZ 0x2000 0x200b codePoint || (codePoint =? 0x2028) || (codePoint =? 0x2029) || (codePoint =? 0x202f)
  || (codePoint =? 0x205f) || (codePoint =? 0x3000) || (codePoint =? 0xfeff).

(** [value.split('/')] *)
Fixpoint splitSlash (value : jsstr) : list jsstr :=
  match value with
  | [] => [[]]
  | u :: rest =>
      if isUnit 0x2f u then [] :: splitSlash rest
      else match splitSlash rest with part :: parts => (u :: part) :: parts | [] => [[u]] end
  end.

(** ** Identifiers of assertions *)

Section Codec.
Context (nfc : jsstr -> jsstr).

Definition iriComponentV1 (value : jsstr) : cresult jsstr :=
  let* identifier := assertNfcUtf8Identifier nfc (ECatalog CatalogIdentifier) MAX_AUTHOR_CATALOG_IDENTIFIER_BYTES_V1 (Some (JString value)) in
  Ok (encodeCanonicalIriComponentV1 identifier).

Definition decodeIriComponentV1 (value : jsstr) : cresult jsstr :=
  throw ECatalog CatalogIdentifier when
    (js_length value =? 0) || (MAX_AUTHOR_CATALOG_IDENTIFIER_BYTES_V1 * 3 <? js_length value);
  match decodeURIComponent value with
  | None => Err (ECatalog CatalogIdentifier)
  | Some decoded =>
      let* encoded := iriComponentV1 decoded in
      throw ECatalog CatalogIdentifier when negb (bool_decide (encoded = value));
      Ok decoded
  end.

Definition assertContextGraphIdV1 (value : option Json) : cresult jsstr :=
  adaptAuthorLane (assertAuthorLaneContextGraphIdV1 nfc value).

Definition assertSubGraphNameV1 (value : option Json) : cresult jsstr :=
  adaptAuthorLane (assertAuthorLaneSubGraphNameV1 nfc value).

Definition assertCatalogLaneIdentifier (value : option Json) : cresult jsstr :=
  let* identifier := assertNfcUtf8Identifier nfc (ECatalog CatalogIdentifier) MAX_AUTHOR_CATALOG_IDENTIFIER_BYTES_V1 value in
  throw ECatalog CatalogIdentifier when
    existsb (fun codePoint => (codePoint =? 0x2f) || bool_decide (codePoint ∈ CATALOG_IDENTIFIER_ASCII_FORBIDDEN)
                              || isCatalogForbiddenCodePointV1 codePoint) (codePoints identifier);
  Ok identifier.

Definition assertAssertionCoordinateV1 (value : option Json) : cresult jsstr := assertCatalogLaneIdentifier value.

(** The two fields are present in a value of type [CatalogLaneV1]. *)
Definition snapshotCatalogLaneV1 (lane : CatalogLaneV1) : cresult CatalogLaneV1 :=
  let* contextGraphId := assertContextGraphIdV1 (Some (JString (contextGraphId lane))) in
  let* subGraphName := nullable assertSubGraphNameV1 (Some (orNull (subGraphName lane))) in
  Ok {| contextGraphId := contextGraphId; subGraphName := subGraphName |}.

Definition formatCatalogAssertionScopeV1 (snapshot : CatalogLaneV1) : jsstr :=
  let context := encodeCanonicalIriComponentV1 (contextGraphId snapshot) in
  match subGraphName snapshot with
  | None => js "v1/root/" ++ context
  | Some name => js "v1/subgraph/" ++ context ++ js "/" ++ encodeCanonicalIriComponentV1 name
  end.

Definition buildCatalogAssertionScopeV1 (lane : CatalogLaneV1) : cresult jsstr :=
  let* snapshot := snapshotCatalogLaneV1 lane in
  Ok (formatCatalogAssertionScopeV1 snapshot).

Definition parseCatalogAssertionScopeV1 (scope : Json) : cresult CatalogLaneV1 :=
  match scope with
  | JString scope =>
      match splitSlash scope with
      | [version; kind; context] =>
          throw ECatalog CatalogSchema when negb (bool_decide (version = js "v1") && bool_decide (kind = js "root"));
          let* contextGraphId := decodeIriComponentV1 context in
          snapshotCatalogLaneV1 {| contextGraphId := contextGraphId; subGraphName := None |}
      | [version; kind; context; name] =>
          throw ECatalog CatalogSchema when negb (bool_decide (version = js "v1") && bool_decide (kind = js "subgraph"));
          let* contextGraphId := decodeIriComponentV1 context in
          let* subGraphName := decodeIriComponentV1 name in
          snapshotCatalogLaneV1 {| contextGraphId := contextGraphId; subGraphName := Some subGraphName |}
      | _ => Err (ECatalog CatalogSchema)
      end
  | _ => Err (ECatalog CatalogSchema)
  end.

Definition buildCatalogAssertionSubjectV1 (lane : CatalogLaneV1) (authorAddress assertionCoordinate : jsstr) : cresult jsstr :=
  let* snapshot := snapshotCatalogLaneV1 lane in
  let* authorAddress := assertCatalogScalar assertCanonicalEvmAddress (Some (JString authorAddress)) in
  let* assertionCoordinate := assertAssertionCoordinateV1 (Some (JString assertionCoordinate)) in
  Ok (js "did:dkg:context-graph:" ++ formatCatalogAssertionScopeV1 snapshot
      ++ js "/assertion/" ++ authorAddress ++ js "/" ++ encodeCanonicalIriComponentV1 assertionCoordinate).

(** ** Scopes and rows *)

Definition assertAuthorCatalogBucketCountV1 (value : option Json) : cresult (jsstr * Z) :=
  let* (text, count) := assertCatalogU64 value in
  throw ECatalog CatalogBucketCount when
    (count <? 1) || (MAX_AUTHOR_CATALOG_BUCKET_COUNT_V1 <? count) || negb (Z.land count (count - 1) =? 0);
  Ok (text, count).

Definition catalogScopeKeys : list jsstr := AUTHOR_LANE_SCOPE_KEYS_V1 ++ [js "bucketCount"].

Definition assertAuthorCatalogScopeV1 (scope : Json) : cresult AuthorCatalogScopeV1 :=
  match isPlainRecord scope with
  | None => Err (ECatalog CatalogSchema)
  | Some fields =>
      throw ECatalog CatalogSchema when negb (assertExactKeys fields catalogScopeKeys);
      let* laneScope := adaptAuthorLane (assertAuthorLaneScopeFieldsV1 nfc fields) in
      let* (bucketCount, _) := assertAuthorCatalogBucketCountV1 (field (js "bucketCount") fields) in
      Ok {| laneScope := laneScope; bucketCount := bucketCount |}
  end.

(** The lane of a scope, with the codec's errors. *)
Definition assertCatalogAuthorLaneScopeV1 (scope : Json) : cresult AuthorLaneScopeV1 :=
  adaptAuthorLane (assertAuthorLaneScopeV1 nfc scope).

Definition snapshotCatalogAuthorLaneScopeV1 (scope : AuthorLaneScopeV1) : cresult AuthorLaneScopeV1 :=
  adaptAuthorLane (snapshotAuthorLaneScopeV1 nfc scope).

Definition canonicalizeAuthorCatalogScopeV1 (scope : Json) : cresult jsstr :=
  let* _ := assertAuthorCatalogScopeV1 scope in
  mapErr ECatalogJson (canonicalizeJson scope {| maxBytes := Some MAX_AUTHOR_CATALOG_SCOPE_BYTES_V1; maxDepth := Some 1 |}).

(** [rejectOversizedWireInput] throws. *)
Definition oversizedWireInput (input : Input) (maxBytes : Z) : bool :=
  match input with
  | BytesInput b => maxBytes <? js_length b
  | TextInput text => (maxBytes <? js_length text) || (maxBytes <? js_length (encodeUtf8 text))
  end.

Definition parseCanonicalAuthorCatalogScopeV1 (input : Input) (options : CanonicalJsonOptions) : cresult AuthorCatalogScopeV1 :=
  throw ECatalog CatalogObjectTooLarge when oversizedWireInput input MAX_AUTHOR_CATALOG_SCOPE_BYTES_V1;
  let* parsed := mapErr ECatalogJson (parseCanonicalJson input (tightenLimits MAX_AUTHOR_CATALOG_SCOPE_BYTES_V1 1 options)) in
  assertAuthorCatalogScopeV1 parsed.

Definition catalogRowKeys : list jsstr :=
  [js "assertionCoordinate"; js "assertionVersion"; js "kaId"; js "projectionDigest"; js "projectionId"; js "sealDigest";
   js "transfer"].

Definition assertAuthorCatalogRowV1 (row : Json) : cresult AuthorCatalogRowV1 :=
  match isPlainRecord row with
  | None => Err (ECatalog CatalogSchema)
  | Some fields =>
      throw ECatalog CatalogSchema when negb (assertExactKeys fields catalogRowKeys);
      let get key := field (js key) fields in
      let* kaId := assertCatalogScalar assertCanonicalKaId (get "kaId") in
      let* assertionCoordinate := assertAssertionCoordinateV1 (get "assertionCoordinate") in
      let* assertionVersion := assertCatalogPositiveU64 (get "assertionVersion") in
      throw ECatalog CatalogSchema when negb (fieldIs KA_TRANSFER_PROJECTION_V1 (get "projectionId"));
      let* rowProjectionDigest := assertCatalogScalar assertCanonicalDigest (get "projectionDigest") in
      let* sealDigest := assertCatalogScalar assertCanonicalDigest (get "sealDigest") in
      let* transfer := rethrow (ECatalog CatalogSchema) (assertKaTransferDescriptorV1 (default JNull (get "transfer"))) in
      throw ECatalog CatalogTransferMismatch when
        negb (bool_decide (projectionId transfer = KA_TRANSFER_PROJECTION_V1)) ||
        negb (bool_decide (projectionDigest transfer = rowProjectionDigest));
      Ok {| kaId := kaId; assertionCoordinate := assertionCoordinate; assertionVersion := assertionVersion;
            rowProjectionId := KA_TRANSFER_PROJECTION_V1; rowProjectionDigest := rowProjectionDigest;
            sealDigest := sealDigest; transfer := transfer |}
  end.

Definition canonicalizeAuthorCatalogRowV1 (row : Json) : cresult jsstr :=
  let* _ := assertAuthorCatalogRowV1 row in
  mapErr ECatalogJson (canonicalizeJson row {| maxBytes := Some MAX_AUTHOR_CATALOG_ROW_BYTES_V1; maxDepth := Some 2 |}).

Definition parseCanonicalAuthorCatalogRowV1 (input : Input) (options : CanonicalJsonOptions) : cresult AuthorCatalogRowV1 :=
  throw ECatalog CatalogObjectTooLarge when oversizedWireInput input MAX_AUTHOR_CATALOG_ROW_BYTES_V1;
  let* parsed := mapErr ECatalogJson (parseCanonicalJson input (tightenLimits MAX_AUTHOR_CATALOG_ROW_BYTES_V1 2 options)) in
  assertAuthorCatalogRowV1 parsed.

(** ** Digests *)

Section Digests.
Context (sha256 : bytes -> bytes).

Definition digestWithDomain (domain : jsstr) (canonicalBytes : bytes) : cresult jsstr :=
  mapErr ECatalogScalar (digestBytesToLowerHex (sha256 (encodeUtf8 domain ++ canonicalBytes))).

Definition computeAuthorCatalogScopeDigestV1 (scope : Json) : cresult jsstr :=
  let* canonical := canonicalizeAuthorCatalogScopeV1 scope in
  digestWithDomain AUTHOR_CATALOG_SCOPE_DIGEST_DOMAIN_V1 (encodeUtf8 canonical).

Definition computeAuthorCatalogKeyDigestV1 (kaId : jsstr) : cresult jsstr :=
  let* kaId := assertCatalogScalar assertCanonicalKaId (Some (JString kaId)) in
  let* canonical := mapErr ECatalogJson (canonicalizeJson (JObject [(js "kaId", JString kaId)]) {| maxBytes := Some 128; maxDepth := Some 1 |}) in
  digestWithDomain AUTHOR_CATALOG_KEY_DIGEST_DOMAIN_V1 (encodeUtf8 canonical).

Definition rowDigestObject (catalogScopeDigest : jsstr) (row : Json) : Json :=
  JObject [(js "catalogScopeDigest", JString catalogScopeDigest); (js "row", row)].

Definition computeAuthorCatalogRowDigestV1 (catalogScopeDigest : jsstr) (row : Json) : cresult jsstr :=
  let* catalogScopeDigest := assertCatalogScalar assertCanonicalDigest (Some (JString catalogScopeDigest)) in
  let* _ := assertAuthorCatalogRowV1 row in
  let* canonical := mapErr ECatalogJson (canonicalizeJson (rowDigestObject catalogScopeDigest row)
    {| maxBytes := Some MAX_AUTHOR_CATALOG_ROW_DIGEST_INPUT_BYTES_V1; maxDepth := Some 3 |}) in
  digestWithDomain AUTHOR_CATALOG_ROW_DIGEST_DOMAIN_V1 (encodeUtf8 canonical).

(** ** Buckets *)

(** [for (let remaining = count; remaining > 1n; remaining >>= 1n) prefixBits += 1n];
    a count has at most 64 bits. *)
Fixpoint prefixBitsLoop (fuel : nat) (remaining prefixBits : Z) : Z :=
  match fuel with
  | O => prefixBits
  | S fuel' => if 1 <? remaining then prefixBitsLoop fuel' (Z.shiftr remaining 1) (prefixBits + 1) else prefixBits
  end.

(** [BigInt(value)] for a string of hexadecimal digits behind ["0x"]. *)
Definition bigIntOfHex (value : jsstr) : Z := foldl (fun acc u => acc * 16 + hexNibble (unitZ u)) 0 (drop 2 value).

Definition catalogKeyDigestToBucketIdV1 (catalogKeyDigest bucketCount : jsstr) : cresult jsstr :=
  let* catalogKeyDigest := assertCatalogScalar assertCanonicalDigest (Some (JString catalogKeyDigest)) in
  let* (_, count) := assertAuthorCatalogBucketCountV1 (Some (JString bucketCount)) in
  if count =? 1 then Ok (js "0")
  else
    let prefixBits := prefixBitsLoop 64 count 0 in
    let bucketId := Z.shiftr (bigIntOfHex catalogKeyDigest) (256 - prefixBits) in
    let result := decimal bucketId in
    let* _ := mapErr ECatalogScalar (parseCanonicalDecimalU64 (JString result)) in
    Ok result.

Definition catalogKeyToBucketIdV1 (kaId bucketCount : jsstr) : cresult jsstr :=
  let* catalogKeyDigest := computeAuthorCatalogKeyDigestV1 kaId in
  catalogKeyDigestToBucketIdV1 catalogKeyDigest bucketCount.

End Digests.

(** ** Order and authors of keys *)

Definition compareAuthorCatalogKaIdsV1 (left right : jsstr) : cresult Z :=
  let* leftValue := parseCatalogU256 left in
  let* rightValue := parseCatalogU256 right in
  Ok (if leftValue <? rightValue then -1 else if rightValue <? leftValue then 1 else 0).

Definition assertPackedKaIdAuthorBindingV1 (kaId authorAddress : jsstr) : cresult unit :=
  let* packedKaId := parseCatalogU256 kaId in
  let* authorAddress := assertCatalogScalar assertCanonicalEvmAddress (Some (JString authorAddress)) in
  let packedAuthor := Z.shiftr packedKaId PACKED_KA_NUMBER_BITS_V1 in
  throw ECatalog CatalogPackedAuthorMismatch when negb (packedAuthor =? bigIntOfHex authorAddress);
  Ok tt.

Definition assertAuthorCatalogRowScopeBindingV1 (row scope : Json) : cresult unit :=
  let* row := assertAuthorCatalogRowV1 row in
  let* scope := assertAuthorCatalogScopeV1 scope in
  assertPackedKaIdAuthorBindingV1 (kaId row) (authorAddress (laneScope scope)).

End Codec.
