(* ===== verification/AuthorCatalogRows.v ===== *)
(** * Scopes and rows of author catalogs

    What the codec accepts, the round trips of the canonical texts, what the
    digests bind, the bucket of a key and the author that a key is packed with. *)

From Stdlib Require Import Strings.Byte.
From S2P Require Import Prelude Bytes Merkle CodePoints JsText JsNumber CanonicalJson CanonicalJsonTheory CanonicalJsonRoundtrip.
From S2P Require Import PlainJson WireScalars KaTransfer IriComponent AuthorLane AuthorCatalog AuthorCatalogTheory.

Open Scope Z_scope.

(** ** Sizes *)

(** A value without escapes and numbers, of at most [n] bytes and [d] levels. *)
Definition boundedValue (n d : Z) (v : Json) : Prop := plainJson v = true /\ jsonSize v <= n /\ jsonDepth v <= d.

Lemma bounded_string n d s : shortText n s -> 0 <= d -> boundedValue (n + 2) d (JString s).
Proof. intros [Hp Hl] Hd. split_and!; [exact Hp|cbn [jsonSize]; lia|exact Hd]. Qed.

Lemma bounded_orNull n d o :
  0 <= d -> 2 <= n -> match o with Some s => shortText n s | None => True end -> boundedValue (n + 2) d (orNull o).
Proof. intros Hd Hn Ho. destruct o; [by apply bounded_string|]. split_and!; [done|cbn [orNull jsonSize]; lia|done]. Qed.

Definition objectBound (keys : list jsstr) (ns : list Z) : Z := 2 + foldr (fun '(k, n) acc => js_length k + 4 + n + acc) 0 (zip keys ns).

Lemma bounded_object keys vs ns d fields :
  forallb asciiPlain keys = true -> length keys = length vs -> 0 <= d -> Forall2 (fun v n => boundedValue n d v) vs ns ->
  fields ≡ₚ zip keys vs -> boundedValue (objectBound keys ns) (1 + d) (JObject fields).
Proof.
  intros Hk Hl Hd Hvs Hp. destruct (jsonSize_object _ _ Hp) as [Es Ep].
  assert (Forall (fun f => 1 + jsonDepth f.2 <= 1 + d) (zip keys vs)) as Hdepth.
  { apply Forall_forall. intros [k v] Hin%elem_of_zip_r. apply list_elem_of_lookup in Hin as [i Hi].
    destruct (Forall2_lookup_l _ _ _ _ _ Hvs Hi) as (n & _ & _ & _ & ?). simpl. lia. }
  split_and!; [| |by eapply jsonDepth_object; [exact Hp|exact Hdepth|lia]].
  - rewrite Ep. clear Es Ep Hp Hdepth. revert keys Hk Hl. cbn [plainJson].
    induction Hvs as [|v n vs ns (Hv & _) _ IH]; intros [|k keys] Hk Hl; try done. cbn [zip zip_with forallb] in *.
    apply andb_true_iff in Hk as [-> Hk]. rewrite Hv. apply IH; [done|by injection Hl].
  - rewrite Es. clear Es Ep Hp Hdepth. cbn [jsonSize]. unfold withCommas, objectBound, js_length at 2. rewrite length_map.
    enough (foldr Z.add 0 (map (fun '(k, x) => js_length k + 3 + jsonSize x) (zip keys vs)) + Z.of_nat (length (zip keys vs))
            <= foldr (fun '(k, n) acc => js_length k + 4 + n + acc) 0 (zip keys ns)) by lia.
    clear Hk. revert keys Hl. induction Hvs as [|v n vs ns (_ & Hv & _) _ IH]; intros [|k keys] Hl; try done.
    cbn [zip zip_with map foldr length]. specialize (IH keys ltac:(by injection Hl)). cbn [zip zip_with] in *.
    unfold js_length in *. lia.
Qed.

Lemma bounded_fits n d v bytes depth : boundedValue n d v -> n <= bytes -> d <= depth -> fits v bytes depth.
Proof. intros (Hp & Hs & Hd) ? ?. apply plain_fits; [done|lia|lia]. Qed.

(** ** Canonical texts *)

(** A value within the limits has a canonical text, and the reader gives its
    normal form. *)
Lemma wire_reads v limit depth input :
  wfJson v -> 0 < limit <= MAX_CANONICAL_JSON_BYTES -> 0 <= depth <= MAX_CANONICAL_JSON_DEPTH -> fits v limit depth ->
  input = TextInput (canonText v) \/ input = BytesInput (encodeUtf8 (canonText v)) ->
  canonicalizeJson v {| maxBytes := Some limit; maxDepth := Some depth |} = Ok (canonText v) /\
  oversizedWireInput input limit = false /\
  parseCanonicalJson input (tightenLimits limit depth defaultOptions) = Ok (normal v).
Proof.
  intros Hw Hl Hd Hf Hin.
  assert (canonicalizeJson v {| maxBytes := Some limit; maxDepth := Some depth |} = Ok (canonText v)) as Hc.
  { apply canonicalizeJson_Ok; [done|]. exists limit, depth. split; [|done]. unfold resolveLimits. cbn [maxBytes maxDepth default from_option id].
    rewrite (proj2 (Z.leb_gt _ _)), !(proj2 (Z.ltb_ge _ _)) by lia. done. }
  split_and!; [done| |rewrite tighten_default; by apply (canonical_reads v _ (canonText v))].
  destruct Hf as (_ & _ & Hs). pose proof (utf16_le_utf8 (canonText v)).
  destruct Hin as [->| ->]; cbn [oversizedWireInput]; by rewrite !(proj2 (Z.ltb_ge _ _)) by lia.
Qed.

(** A codec that asserts a value and canonicalizes it, and parses a text and
    asserts the value, reads what it writes. *)
Lemma codec_reads {A} (assert : Json -> cresult A) v x limit depth :
  wfJson v -> 0 < limit <= MAX_CANONICAL_JSON_BYTES -> 0 <= depth <= MAX_CANONICAL_JSON_DEPTH -> fits v limit depth ->
  assert v = Ok x -> assert (normal v) = Ok x ->
  let parse input :=
    throw ECatalog CatalogObjectTooLarge when oversizedWireInput input limit;
    let* parsed := mapErr ECatalogJson (parseCanonicalJson input (tightenLimits limit depth defaultOptions)) in
    assert parsed in
  (let* _ := assert v in
   mapErr ECatalogJson (canonicalizeJson v {| maxBytes := Some limit; maxDepth := Some depth |})) = Ok (canonText v) /\
  parse (TextInput (canonText v)) = Ok x /\ parse (BytesInput (encodeUtf8 (canonText v))) = Ok x.
Proof.
  intros Hw Hl Hd Hf Ha Hn parse. subst parse. cbn beta.
  destruct (wire_reads v limit depth (TextInput (canonText v)) Hw Hl Hd Hf (or_introl eq_refl)) as (Hc & Ho & Hr).
  destruct (wire_reads v limit depth (BytesInput (encodeUtf8 (canonText v))) Hw Hl Hd Hf (or_intror eq_refl)) as (_ & Ho' & Hr').
  rewrite Ha, Hc, Ho, Hr, Ho', Hr'. cbn [result_bind throw_if mapErr]. done.
Qed.

(** Equal canonical bytes, equal normal forms. *)
Lemma canonical_inj v w options s t :
  wfJson v -> wfJson w -> canonicalizeJson v options = Ok s -> canonicalizeJson w options = Ok t ->
  encodeUtf8 s = encodeUtf8 t -> normal v = normal w.
Proof.
  intros Hv Hw Hs Ht E. pose proof (canonical_reads v options s (BytesInput (encodeUtf8 s)) Hv Hs (or_intror eq_refl)) as R1.
  pose proof (canonical_reads w options t (BytesInput (encodeUtf8 t)) Hw Ht (or_intror eq_refl)) as R2. rewrite E in R1. congruence.
Qed.

(** ** Bucket counts *)

Lemma power_of_two n : 1 <= n -> Z.land n (n - 1) = 0 -> n = 2 ^ Z.log2 n.
Proof.
  intros Hn Hl. pose proof (Z.log2_spec n ltac:(lia)) as [H1 H2]. pose proof (Z.log2_nonneg n) as Hk.
  destruct (Z.eq_dec n (2 ^ Z.log2 n)) as [|Hne]; [done|exfalso].
  assert (Z.log2 (n - 1) = Z.log2 n) as El by (apply Z.log2_unique; [done|lia]).
  assert (Z.testbit (Z.land n (n - 1)) (Z.log2 n) = true) as Hb.
  { rewrite Z.land_spec, Z.bit_log2 by lia. rewrite <- El. by rewrite Z.bit_log2 by (pose proof (Z.pow_pos_nonneg 2 (Z.log2 n)); lia). }
  by rewrite Hl, Z.bits_0 in Hb.
Qed.

Lemma land_power k : 0 <= k -> Z.land (2 ^ k) (2 ^ k - 1) = 0.
Proof.
  intros Hk. rewrite Z.sub_1_r, <- Z.ones_equiv, Z.land_ones by done. apply Z.mod_same. apply Z.pow_nonzero; lia.
Qed.

Lemma catalogU64_Ok value s n :
  assertCatalogU64 value = Ok (s, n) <-> 0 <= n <= MAX_DECIMAL_U64 /\ s = decimal n /\ value = Some (JString s).
Proof.
  unfold assertCatalogU64. split.
  - destruct value as [[| | |t| |]|]; [done|done|done| |done|done|done]. intros H. ok_inv. apply rethrow_Ok in H0. unfold parseCanonicalDecimalU64 in H0.
    apply parseDecimal_Ok in H0 as [Hn E]; [|apply u64_nonneg].
    injection E as ->. subst. done.
  - intros (Hn & -> & ->). unfold parseCanonicalDecimalU64.
    by rewrite (proj2 (parseDecimal_Ok (JString (decimal n)) MAX_DECIMAL_U64 n u64_nonneg)).
Qed.

Lemma bucketCount_Ok value s n :
  assertAuthorCatalogBucketCountV1 value = Ok (s, n) <->
  value = Some (JString s) /\ s = decimal n /\ exists k, 0 <= k <= 63 /\ n = 2 ^ k.
Proof.
  unfold assertAuthorCatalogBucketCountV1. split.
  - intros H. apply result_bind_Ok in H as ([s' n'] & (_ & -> & ->)%catalogU64_Ok & H). apply throw_if_Ok in H as [Hc [= <- <-]].
    rewrite !orb_false_iff, negb_false_iff, Z.eqb_eq in Hc. destruct Hc as [[Hlo Hhi] Hl]. split_and!; [done|done|].
    apply Z.ltb_ge in Hlo, Hhi. pose proof (power_of_two n' Hlo Hl) as Ep. exists (Z.log2 n'). split; [|done].
    split; [apply Z.log2_nonneg|]. apply (Z.log2_le_mono _ _ Hhi).
  - intros (-> & -> & k & Hk & ->).
    assert (1 <= 2 ^ k <= 2 ^ 63) as Hb by (split; [change 1 with (2 ^ 0)|]; apply Z.pow_le_mono_r; lia).
    change (2 ^ 63) with MAX_AUTHOR_CATALOG_BUCKET_COUNT_V1 in Hb. assert (MAX_AUTHOR_CATALOG_BUCKET_COUNT_V1 <= MAX_DECIMAL_U64) by done.
    rewrite (proj2 (catalogU64_Ok _ (decimal (2 ^ k)) (2 ^ k))) by (split_and!; [lia|lia|done|done]). cbn [result_bind].
    rewrite !(proj2 (Z.ltb_ge _ _)), land_power by lia. done.
Qed.

(** ** Scopes *)

Section Objects.
Context (nfc : jsstr -> jsstr).

Record validCatalogScope (sc : AuthorCatalogScopeV1) : Prop := {
  vs_lane : validLaneScope nfc (laneScope sc);
  vs_buckets : exists k, 0 <= k <= 63 /\ bucketCount sc = decimal (2 ^ k)
}.

Definition catalogScopeValues (sc : AuthorCatalogScopeV1) : list Json := laneScopeValues (laneScope sc) ++ [JString (bucketCount sc)].

Definition catalogScopeFields (sc : AuthorCatalogScopeV1) : list (jsstr * Json) := zip catalogScopeKeys (catalogScopeValues sc).

Lemma catalogScopeKeys_NoDup : NoDup catalogScopeKeys.
Proof. apply (bool_decide_unpack _). vm_compute. exact I. Qed.

Lemma assertScope_Ok fields sc :
  NoDup fields.*1 ->
  assertAuthorCatalogScopeV1 nfc (JObject fields) = Ok sc <-> validCatalogScope sc /\ fields ≡ₚ catalogScopeFields sc.
Proof.
  intros Hnd. unfold assertAuthorCatalogScopeV1. cbn [isPlainRecord]. split.
  - intros H. apply throw_if_Ok in H as [Hk%negb_false_iff H]. apply result_bind_Ok in H as (ls & [Hl Hf]%adapt_Ok%laneFields_Ok & H).
    apply result_bind_Ok in H as ([s n] & (Hb & -> & k & Hk63 & ->)%bucketCount_Ok & H). injection H as <-.
    split; [split; [exact Hl|exists k; split; [exact Hk63|reflexivity]]|].
    apply exactKeys_fields; [exact Hnd|apply catalogScopeKeys_NoDup|exact Hk|]. unfold catalogScopeKeys, catalogScopeValues.
    rewrite !fmap_app. unfold lookups in Hf. cbn [laneScope bucketCount]. rewrite Hf. cbn [fmap list_fmap]. by rewrite Hb.
  - intros [[Hl (k & Hk & Eb)] Hp]. rewrite (exactKeys_of_perm fields catalogScopeKeys (catalogScopeValues sc) Hnd eq_refl Hp). cbn [negb throw_if].
    rewrite (proj2 (laneFields_Ok nfc fields (laneScope sc))).
    2:{ split; [exact Hl|]. unfold lookups. transitivity ((fun key => field key (catalogScopeFields sc)) <$> AUTHOR_LANE_SCOPE_KEYS_V1).
        - apply list_fmap_ext. intros i key _. by apply field_perm.
        - reflexivity. }
    cbn [adaptAuthorLane mapErr result_bind]. rewrite (field_perm _ _ _ Hnd Hp).
    change (field (js "bucketCount") (catalogScopeFields sc)) with (Some (JString (bucketCount sc))).
    rewrite (proj2 (bucketCount_Ok _ (bucketCount sc) (2 ^ k))) by eauto. cbn [result_bind]. destruct sc. reflexivity.
Qed.

Lemma normal_orNull o : normal (orNull o) = orNull o.
Proof. by destruct o. Qed.

Lemma scope_normal fields sc :
  fields ≡ₚ catalogScopeFields sc ->
  exists fields', normal (JObject fields) = JObject fields' /\ fields' ≡ₚ catalogScopeFields sc.
Proof.
  intros Hp. rewrite normal_object. eexists. split; [reflexivity|].
  transitivity (map (fun '(k, x) => (k, normal x)) (catalogScopeFields sc)).
  - apply Permutation_map. etrans; [apply sort_perm|exact Hp].
  - unfold catalogScopeFields, catalogScopeKeys, AUTHOR_LANE_SCOPE_KEYS_V1, catalogScopeValues, laneScopeValues. cbn [app zip zip_with map normal].
    by rewrite !normal_orNull.
Qed.

Lemma governance_short chain contract :
  validGovernance chain contract ->
  match chain with Some s => shortText 78 s | None => True end /\ match contract with Some s => shortText 42 s | None => True end.
Proof.
  destruct chain as [c|], contract as [k|]; [|intros []|intros []|done]. intros [Hc Hk].
  apply chainId_short in Hc. apply address_short in Hk. done.
Qed.

Lemma scope_bounded fields sc :
  validCatalogScope sc -> fields ≡ₚ catalogScopeFields sc -> boundedValue 2048 1 (JObject fields).
Proof.
  intros [[[Hc Hs] Hn Ha [e He] Hg Ho] (k & Hk & Eb)] Hp. destruct (governance_short _ _ Hg) as [Hg1 Hg2].
  pose (ns := [44; 258; 22; 80; 44; 130; 68; 258; 22]).
  assert (boundedValue (objectBound catalogScopeKeys ns) (1 + 0) (JObject fields)) as (H1 & H2 & H3).
  { apply (bounded_object _ (catalogScopeValues sc)); [reflexivity|reflexivity|lia| |exact Hp]. unfold catalogScopeValues, laneScopeValues, ns.
    cbn [app]. repeat apply List.Forall2_cons; [..|apply List.Forall2_nil].
    - apply (bounded_string 42); [by eapply address_short|lia].
    - apply (bounded_string 256); [by eapply context_short|lia].
    - apply (bounded_string 20); [by eapply u64_short|lia].
    - apply (bounded_orNull 78); [lia|lia|exact Hg1].
    - apply (bounded_orNull 42); [lia|lia|exact Hg2].
    - apply (bounded_string 128); [by eapply network_short|lia].
    - apply (bounded_orNull 66); [lia|lia|]. destruct (ownershipTransitionDigest _); [by eapply digest_short|exact I].
    - apply (bounded_orNull 256); [lia|lia|]. destruct (subGraphName _); [by eapply subGraph_short|exact I].
    - apply (bounded_string 20); [|lia]. eapply (u64_short _ (2 ^ k)). rewrite Eb. apply parseDecimal_Ok; [apply u64_nonneg|].
      split; [|reflexivity]. split; [apply Z.pow_nonneg; lia|]. etrans; [apply (Z.pow_le_mono_r 2 k 63); lia|done]. }
  split_and!; [exact H1| |exact H3]. etrans; [exact H2|]. vm_compute. discriminate.
Qed.

(** A scope that validates has a canonical text of at most 2048 bytes, and its
    text, as a string or as bytes, decodes to the same scope. *)
Theorem catalog_scope_roundtrip v sc :
  wfJson v -> assertAuthorCatalogScopeV1 nfc v = Ok sc ->
  canonicalizeAuthorCatalogScopeV1 nfc v = Ok (canonText v) /\
  parseCanonicalAuthorCatalogScopeV1 nfc (TextInput (canonText v)) defaultOptions = Ok sc /\
  parseCanonicalAuthorCatalogScopeV1 nfc (BytesInput (encodeUtf8 (canonText v))) defaultOptions = Ok sc.
Proof.
  intros Hw Ha. destruct v as [| | | | |fields]; [discriminate..|]. pose proof (proj1 (proj1 (wfJson_object _) Hw)) as Hnd.
  pose proof (proj1 (assertScope_Ok _ _ Hnd) Ha) as [Hv Hp]. pose proof (scope_bounded _ _ Hv Hp) as Hb.
  pose proof (bounded_fits _ _ _ 2048 1 Hb ltac:(lia) ltac:(lia)) as Hf. destruct (scope_normal _ _ Hp) as (fields' & En & Hp').
  apply (codec_reads (assertAuthorCatalogScopeV1 nfc) _ sc 2048 1); [exact Hw|done|done|exact Hf|exact Ha|].
  rewrite En. apply assertScope_Ok; [|done]. rewrite Hp'. apply catalogScopeKeys_NoDup.
Qed.

(** ** Rows *)

Record validRow (row : AuthorCatalogRowV1) : Prop := {
  vr_kaId : assertCanonicalKaId (JString (kaId row)) = Ok tt;
  vr_coordinate : validIdentifier nfc 256 (assertionCoordinate row);
  vr_characters : laneCharacters (assertionCoordinate row) = true;
  vr_version : exists n, 1 <= n <= MAX_DECIMAL_U64 /\ assertionVersion row = decimal n;
  vr_projectionId : rowProjectionId row = KA_TRANSFER_PROJECTION_V1;
  vr_projectionDigest : assertCanonicalDigest (JString (rowProjectionDigest row)) = Ok tt;
  vr_seal : assertCanonicalDigest (JString (sealDigest row)) = Ok tt;
  vr_transfer : validDescriptor (transfer row);
  vr_same : projectionDigest (transfer row) = rowProjectionDigest row
}.

Definition rowFieldValues (row : AuthorCatalogRowV1) (t : Json) : list Json :=
  [JString (assertionCoordinate row); JString (assertionVersion row); JString (kaId row); JString (rowProjectionDigest row);
   JString (rowProjectionId row); JString (sealDigest row); t].

Definition rowFields (row : AuthorCatalogRowV1) (t : Json) : list (jsstr * Json) := zip catalogRowKeys (rowFieldValues row t).

(** The objects of a row: its fields and those of the transfer in some order. *)
Definition rowValue (v : Json) (row : AuthorCatalogRowV1) : Prop :=
  exists fields tfields, v = JObject fields /\ tfields ≡ₚ descriptorFields (transfer row) /\ fields ≡ₚ rowFields row (JObject tfields).

Lemma coordinate_Ok value s :
  assertAssertionCoordinateV1 nfc value = Ok s <-> value = Some (JString s) /\ validIdentifier nfc 256 s /\ laneCharacters s = true.
Proof.
  unfold assertAssertionCoordinateV1, assertCatalogLaneIdentifier, laneCharacters. rewrite result_bind_Ok. split.
  - intros (x & [-> Hv]%nfcIdentifier_Ok & H). apply throw_if_Ok in H as [Hc [= ->]]. split_and!; [done|done|]. apply negb_true_iff. exact Hc.
  - intros (-> & Hv & Hc%negb_true_iff). exists s. split; [by apply nfcIdentifier_Ok|]. apply throw_if_Ok. split; [exact Hc|done].
Qed.

Lemma positiveU64_Ok value s :
  assertCatalogPositiveU64 value = Ok s <-> value = Some (JString s) /\ exists n, 1 <= n <= MAX_DECIMAL_U64 /\ s = decimal n.
Proof.
  unfold assertCatalogPositiveU64. split.
  - intros H. apply result_bind_Ok in H as ([t n] & (Hn & -> & ->)%catalogU64_Ok & H). apply throw_if_Ok in H as [Hlt [= <-]].
    apply Z.ltb_ge in Hlt. split; [reflexivity|]. exists n. split; [lia|reflexivity].
  - intros (-> & n & Hn & ->). rewrite (proj2 (catalogU64_Ok _ (decimal n) n)) by (split_and!; [lia|lia|reflexivity..]).
    cbn [result_bind]. by rewrite (proj2 (Z.ltb_ge _ _)) by lia.
Qed.

Lemma rowKeys_NoDup : NoDup catalogRowKeys.
Proof. apply (bool_decide_unpack _). vm_compute. exact I. Qed.

Lemma assertRow_sound v row : wfJson v -> assertAuthorCatalogRowV1 nfc v = Ok row -> validRow row /\ rowValue v row.
Proof.
  intros Hw H. destruct v as [| | | | |fields]; [discriminate..|]. apply wfJson_object in Hw as [Hnd Hw].
  unfold assertAuthorCatalogRowV1 in H. cbn [isPlainRecord] in H. apply throw_if_Ok in H as [Hk%negb_false_iff H]. cbn zeta in H.
  apply result_bind_Ok in H as (ka & [F1 V1]%catalogScalar_Ok & H). apply result_bind_Ok in H as (co & (F2 & V2 & V2')%coordinate_Ok & H).
  apply result_bind_Ok in H as (ve & [F3 V3]%positiveU64_Ok & H). apply throw_if_Ok in H as [F4%negb_false_iff%fieldIs_true H].
  apply result_bind_Ok in H as (pd & [F5 V5]%catalogScalar_Ok & H). apply result_bind_Ok in H as (se & [F6 V6]%catalogScalar_Ok & H).
  apply result_bind_Ok in H as (tr & F7%rethrow_Ok & H). apply throw_if_Ok in H as [Hm [= <-]].
  apply orb_false_iff in Hm as [_ Hm%negb_false_iff%bool_decide_eq_true].
  destruct (field (js "transfer") fields) as [t|] eqn:Et; cbn [default from_option id] in F7; [|discriminate].
  assert (wfJson t) as Ht by (apply field_Some in Et; rewrite Forall_forall in Hw; apply (Hw _ Et)).
  destruct (assertDescriptor_inv t tr Ht F7) as (Hd & tf & -> & Htf).
  split; [split; first [assumption|reflexivity]|]. exists fields, tf. split_and!; [reflexivity|exact Htf|].
  unfold rowFields, rowFieldValues. cbn [assertionCoordinate assertionVersion kaId rowProjectionDigest rowProjectionId sealDigest].
  apply exactKeys_fields; [done|apply rowKeys_NoDup|done|]. unfold catalogRowKeys. csimpl. congruence.
Qed.

Lemma rowFields_lookup row t fields :
  NoDup fields.*1 -> fields ≡ₚ rowFields row t ->
  field (js "kaId") fields = Some (JString (kaId row)) /\
  field (js "assertionCoordinate") fields = Some (JString (assertionCoordinate row)) /\
  field (js "assertionVersion") fields = Some (JString (assertionVersion row)) /\
  field (js "projectionId") fields = Some (JString (rowProjectionId row)) /\
  field (js "projectionDigest") fields = Some (JString (rowProjectionDigest row)) /\
  field (js "sealDigest") fields = Some (JString (sealDigest row)) /\
  field (js "transfer") fields = Some t.
Proof. intros Hnd Hp. split_and!; (etrans; [exact (field_perm _ _ _ Hnd Hp)|reflexivity]). Qed.

Lemma assertRow_complete v row : validRow row -> rowValue v row -> assertAuthorCatalogRowV1 nfc v = Ok row.
Proof.
  intros [V1 V2 V2' V3 V4 V5 V6 V7 V8] (fields & tf & -> & Htf & Hp).
  assert (NoDup fields.*1) as Hnd by (rewrite Hp; apply rowKeys_NoDup).
  unfold assertAuthorCatalogRowV1. cbn [isPlainRecord].
  rewrite (exactKeys_of_perm fields catalogRowKeys (rowFieldValues row (JObject tf)) Hnd eq_refl Hp). cbn [negb throw_if]. cbn zeta.
  destruct (rowFields_lookup row _ fields Hnd Hp) as (-> & -> & -> & -> & -> & -> & ->).
  rewrite (proj2 (catalogScalar_Ok assertCanonicalKaId _ (kaId row)) (conj eq_refl V1)).
  rewrite (proj2 (coordinate_Ok _ (assertionCoordinate row)) (conj eq_refl (conj V2 V2'))).
  rewrite (proj2 (positiveU64_Ok _ (assertionVersion row)) (conj eq_refl V3)). cbn [result_bind].
  rewrite (proj2 (fieldIs_true KA_TRANSFER_PROJECTION_V1 _)) by by rewrite V4. cbn [negb throw_if].
  rewrite (proj2 (catalogScalar_Ok assertCanonicalDigest _ (rowProjectionDigest row)) (conj eq_refl V5)),
    (proj2 (catalogScalar_Ok assertCanonicalDigest _ (sealDigest row)) (conj eq_refl V6)). cbn [result_bind default from_option id].
  rewrite (assertDescriptor_complete tf (transfer row) V7 Htf). cbn [rethrow result_bind].
  rewrite (vd_projection _ V7), V8, !bool_decide_eq_true_2 by reflexivity. cbn [negb orb throw_if]. destruct row. cbn in V4. by subst.
Qed.

Lemma rowValue_normal v row : rowValue v row -> rowValue (normal v) row.
Proof.
  intros (fields & tf & -> & Htf & Hp). rewrite normal_object. exists (map (fun '(k, x) => (k, normal x)) (js_sort compareKeys fields)).
  exists (map (fun '(k, x) => (k, normal x)) (js_sort compareKeys tf)). split_and!; [reflexivity| |].
  - etrans; [apply Permutation_map; etrans; [apply sort_perm|exact Htf]|reflexivity].
  - etrans; [apply Permutation_map; etrans; [apply sort_perm|exact Hp]|]. unfold rowFields, catalogRowKeys, rowFieldValues.
    cbn [zip zip_with map]. by rewrite normal_object.
Qed.

Lemma transfer_bounded tf d : validDescriptor d -> tf ≡ₚ descriptorFields d -> boundedValue 512 1 (JObject tf).
Proof.
  intros Hd Htf. destruct (toCanonical_fields d) as (fs & E & Hp). pose proof (toCanonical_plain d Hd) as Hpl.
  pose proof (descriptor_fits d Hd) as (_ & _ & Hs). destruct (plain_sized _ Hpl) as [_ Hz]. rewrite E in *.
  destruct (jsonSize_object tf fs) as [Es Ep]; [by rewrite Htf, Hp|]. split_and!; [by rewrite Ep|rewrite Es, <- Hz; exact Hs|].
  eapply jsonDepth_object; [exact Htf| |lia]. unfold descriptorFields. apply Forall_forall. intros [k x] Hx%elem_of_zip_r.
  apply list_elem_of_fmap in Hx as (s & -> & _). cbn. lia.
Qed.

Lemma row_bounded v row : validRow row -> rowValue v row -> boundedValue 1500 2 v.
Proof.
  intros [V1 V2 V2' (n & Hn & V3) V4 V5 V6 V7 V8] (fields & tf & -> & Htf & Hp).
  pose (ns := [258; 22; 80; 68; 14; 68; 512]).
  assert (boundedValue (objectBound catalogRowKeys ns) (1 + 1) (JObject fields)) as (H1 & H2 & H3).
  { apply (bounded_object catalogRowKeys (rowFieldValues row (JObject tf)) ns); [reflexivity|reflexivity|lia| |exact Hp].
    unfold ns, rowFieldValues.
    repeat apply List.Forall2_cons; [..|apply List.Forall2_nil].
    - apply (bounded_string 256); [by eapply laneCharacters_short|lia].
    - apply (bounded_string 20); [|lia]. apply (u64_short _ n). rewrite V3. apply parseDecimal_Ok; [apply u64_nonneg|].
      split; [lia|reflexivity].
    - apply (bounded_string 78); [by eapply kaId_short|lia].
    - apply (bounded_string 66); [by eapply digest_short|lia].
    - rewrite V4. split_and!; [reflexivity|vm_compute; discriminate|done].
    - apply (bounded_string 66); [by eapply digest_short|lia].
    - by eapply transfer_bounded. }
  split_and!; [exact H1| |exact H3]. etrans; [exact H2|]. vm_compute. discriminate.
Qed.

Lemma row_reads v row :
  wfJson v -> assertAuthorCatalogRowV1 nfc v = Ok row ->
  canonicalizeAuthorCatalogRowV1 nfc v = Ok (canonText v) /\ js_length (encodeUtf8 (canonText v)) <= MAX_AUTHOR_CATALOG_ROW_BYTES_V1 /\
  parseCanonicalAuthorCatalogRowV1 nfc (TextInput (canonText v)) defaultOptions = Ok row /\
  parseCanonicalAuthorCatalogRowV1 nfc (BytesInput (encodeUtf8 (canonText v))) defaultOptions = Ok row.
Proof.
  intros Hw Ha. destruct (assertRow_sound v row Hw Ha) as [Hv Hr].
  pose proof (bounded_fits _ _ _ 2048 2 (row_bounded v row Hv Hr) ltac:(lia) ltac:(lia)) as Hf.
  destruct (codec_reads (assertAuthorCatalogRowV1 nfc) v row 2048 2) as (H1 & H2 & H3);
    [exact Hw|done|done|exact Hf|exact Ha|apply assertRow_complete; [exact Hv|by apply rowValue_normal]|].
  split_and!; [exact H1|apply Hf|exact H2|exact H3].
Qed.

(** A row that validates has a canonical text of at most 2048 bytes, and that
    text, as a string or as bytes, decodes to the same row. *)
Theorem catalog_row_roundtrip v row :
  wfJson v -> assertAuthorCatalogRowV1 nfc v = Ok row ->
  exists text, canonicalizeAuthorCatalogRowV1 nfc v = Ok text /\
    js_length (encodeUtf8 text) <= MAX_AUTHOR_CATALOG_ROW_BYTES_V1 /\
    parseCanonicalAuthorCatalogRowV1 nfc (TextInput text) defaultOptions = Ok row /\
    parseCanonicalAuthorCatalogRowV1 nfc (BytesInput (encodeUtf8 text)) defaultOptions = Ok row.
Proof. intros Hw Ha. exists (canonText v). exact (row_reads v row Hw Ha). Qed.

End Objects.

(** ** Examples *)

Definition sampleAuthor : bytes := zeroBytes 19 ++ [x01].

Definition sampleCatalogScope : Json :=
  JObject [(js "networkId", JString (js "otp:20430")); (js "contextGraphId", JString (js "org/lab")); (js "subGraphName", JNull);
           (js "authorAddress", JString (lowerHex sampleAuthor)); (js "era", JString (js "0")); (js "governanceChainId", JNull);
           (js "governanceContractAddress", JNull); (js "ownershipTransitionDigest", JNull); (js "bucketCount", JString (js "256"))].

(** The fifth asset of the author with address 1. *)
Definition sampleKaId : jsstr := decimal (2 ^ 96 + 5).

Definition sampleRow : Json :=
  JObject [(js "kaId", JString sampleKaId); (js "assertionCoordinate", JString (js "notes")); (js "assertionVersion", JString (js "1"));
           (js "projectionId", JString KA_TRANSFER_PROJECTION_V1); (js "projectionDigest", JString sampleDigest);
           (js "sealDigest", JString sampleDigest); (js "transfer", sampleDescriptorJson)].

(** The identifiers of the examples are ASCII, which is normalized. *)
Definition sampleNfc (s : jsstr) : jsstr := s.

Definition sampleScopeRecord : AuthorCatalogScopeV1 :=
  {| laneScope := {| lane := {| contextGraphId := js "org/lab"; subGraphName := None |}; networkId := js "otp:20430";
       governanceChainId := None; governanceContractAddress := None; ownershipTransitionDigest := None;
       authorAddress := lowerHex sampleAuthor; era := js "0" |};
     bucketCount := js "256" |}.

Definition sampleRowRecord : AuthorCatalogRowV1 :=
  {| kaId := sampleKaId; assertionCoordinate := js "notes"; assertionVersion := js "1"; rowProjectionId := KA_TRANSFER_PROJECTION_V1;
     rowProjectionDigest := sampleDigest; sealDigest := sampleDigest; transfer := sampleDescriptor |}.

Lemma sampleScope_asserts : assertAuthorCatalogScopeV1 sampleNfc sampleCatalogScope = Ok sampleScopeRecord.
Proof. vm_compute. reflexivity. Qed.

Lemma sampleRow_asserts : assertAuthorCatalogRowV1 sampleNfc sampleRow = Ok sampleRowRecord.
Proof. vm_compute. reflexivity. Qed.

Lemma sampleScope_wf : wfJson sampleCatalogScope.
Proof. apply wfJson_object. split; [apply (bool_decide_unpack _); vm_compute; exact I|repeat constructor]. Qed.

Lemma sampleRow_wf : wfJson sampleRow.
Proof.
  apply wfJson_object. split; [apply (bool_decide_unpack _); vm_compute; exact I|].
  repeat (apply Forall_cons; split; [exact I || apply toCanonical_wf|]). constructor.
Qed.

Lemma catalog_row_roundtrip_witness :
  exists text, canonicalizeAuthorCatalogRowV1 sampleNfc sampleRow = Ok text /\
    js_length (encodeUtf8 text) <= MAX_AUTHOR_CATALOG_ROW_BYTES_V1 /\
    parseCanonicalAuthorCatalogRowV1 sampleNfc (TextInput text) defaultOptions = Ok sampleRowRecord /\
    parseCanonicalAuthorCatalogRowV1 sampleNfc (BytesInput (encodeUtf8 text)) defaultOptions = Ok sampleRowRecord.
Proof. exact (catalog_row_roundtrip sampleNfc sampleRow sampleRowRecord sampleRow_wf sampleRow_asserts). Defined.
