(* ===== verification/AuthorCatalogSafety.v ===== *)
(** * What digests and keys of author catalogs bind

    A row digest binds the row and the whole scope of its catalog; the bucket of a
    key is a prefix of its digest; the key of a row carries the one author that may
    publish it. *)

From S2P Require Import Prelude Bytes Merkle CodePoints JsText JsNumber CanonicalJson CanonicalJsonTheory CanonicalJsonRoundtrip.
From S2P Require Import PlainJson WireScalars KaTransfer IriComponent AuthorLane AuthorCatalog AuthorCatalogTheory AuthorCatalogRows.

Open Scope Z_scope.

(** ** Digests *)

(** What is hashed for a text. *)
Definition domainInput (domain text : jsstr) : bytes := encodeUtf8 domain ++ encodeUtf8 text.

Lemma domainInput_inj domain s t : domainInput domain s = domainInput domain t -> encodeUtf8 s = encodeUtf8 t.
Proof. apply app_inv_head. Qed.

Abbreviation scopeDigestInput scope := (domainInput AUTHOR_CATALOG_SCOPE_DIGEST_DOMAIN_V1 (canonText scope)).

Abbreviation rowDigestInput scopeDigest row :=
  (domainInput AUTHOR_CATALOG_ROW_DIGEST_DOMAIN_V1 (canonText (rowDigestObject scopeDigest row))).

Definition keyObject (kaId : jsstr) : Json := JObject [(js "kaId", JString kaId)].

Abbreviation keyDigestInput kaId := (domainInput AUTHOR_CATALOG_KEY_DIGEST_DOMAIN_V1 (canonText (keyObject kaId))).

Section Digests.
Context (nfc : jsstr -> jsstr) (sha256 : bytes -> bytes).

Lemma digestWithDomain_Ok domain text d :
  digestWithDomain sha256 domain (encodeUtf8 text) = Ok d -> d = lowerHex (sha256 (domainInput domain text)).
Proof. unfold digestWithDomain. intros H%mapErr_Ok. unfold digestBytesToLowerHex in H. ok_inv. done. Qed.

Lemma digestWithDomain_32 domain text :
  (forall x, length (sha256 x) = 32%nat) ->
  digestWithDomain sha256 domain (encodeUtf8 text) = Ok (lowerHex (sha256 (domainInput domain text))).
Proof. intros Hlen. unfold digestWithDomain. by rewrite digestBytesToLowerHex_Ok. Qed.

Lemma scopeDigest_Ok v d :
  wfJson v -> computeAuthorCatalogScopeDigestV1 nfc sha256 v = Ok d ->
  d = lowerHex (sha256 (scopeDigestInput v)) /\
  canonicalizeJson v {| maxBytes := Some 2048; maxDepth := Some 1 |} = Ok (canonText v).
Proof.
  intros Hw H. unfold computeAuthorCatalogScopeDigestV1, canonicalizeAuthorCatalogScopeV1 in H.
  apply result_bind_Ok in H as (text & H & Hd%digestWithDomain_Ok). apply result_bind_Ok in H as (sc & _ & Hc%mapErr_Ok).
  pose proof Hc as (_ & _ & _ & _ & ->)%canonicalizeJson_Ok; [|done]. done.
Qed.

Lemma rowDigestObject_wf d v : wfJson v -> wfJson (rowDigestObject d v).
Proof.
  intros Hw. apply wfJson_object. split; [apply (bool_decide_unpack _); vm_compute; exact I|].
  constructor; [exact I|]. constructor; [exact Hw|constructor].
Qed.

Lemma rowDigest_Ok d v h :
  wfJson v -> computeAuthorCatalogRowDigestV1 nfc sha256 d v = Ok h ->
  h = lowerHex (sha256 (rowDigestInput d v)) /\
  canonicalizeJson (rowDigestObject d v) {| maxBytes := Some 4096; maxDepth := Some 3 |} = Ok (canonText (rowDigestObject d v)).
Proof.
  intros Hw H. unfold computeAuthorCatalogRowDigestV1 in H. apply result_bind_Ok in H as (d' & [[= <-] _]%catalogScalar_Ok & H).
  apply result_bind_Ok in H as (row & _ & H). apply result_bind_Ok in H as (text & Hc%mapErr_Ok & Hd%digestWithDomain_Ok).
  pose proof Hc as (_ & _ & _ & _ & ->)%canonicalizeJson_Ok; [|by apply rowDigestObject_wf]. done.
Qed.

Lemma rowDigestObject_normal d v :
  normal (rowDigestObject d v) = JObject [(js "catalogScopeDigest", JString d); (js "row", normal v)].
Proof. reflexivity. Qed.

Lemma row_of_normal v w r1 r2 :
  wfJson v -> wfJson w -> assertAuthorCatalogRowV1 nfc v = Ok r1 -> assertAuthorCatalogRowV1 nfc w = Ok r2 -> normal v = normal w -> r1 = r2.
Proof.
  intros Hv Hw H1 H2 E. destruct (assertRow_sound nfc v r1 Hv H1) as [V1 R1], (assertRow_sound nfc w r2 Hw H2) as [V2 R2].
  apply rowValue_normal in R1, R2. rewrite E in R1. pose proof (assertRow_complete nfc _ _ V1 R1). pose proof (assertRow_complete nfc _ _ V2 R2).
  congruence.
Qed.

Lemma scope_of_normal v w s1 s2 :
  wfJson v -> wfJson w -> assertAuthorCatalogScopeV1 nfc v = Ok s1 -> assertAuthorCatalogScopeV1 nfc w = Ok s2 -> normal v = normal w -> s1 = s2.
Proof.
  intros Hv Hw H1 H2 E. destruct (catalog_scope_roundtrip nfc v s1 Hv H1) as (_ & P1 & _), (catalog_scope_roundtrip nfc w s2 Hw H2) as (_ & P2 & _).
  assert (canonText v = canonText w) as Ec by (rewrite <- (canonText_normal v), <- (canonText_normal w), E by done; done). rewrite Ec in P1. congruence.
Qed.

Lemma rowDigest_binds sd1 sd2 row1 row2 h :
  wfJson row1 -> wfJson row2 ->
  computeAuthorCatalogRowDigestV1 nfc sha256 sd1 row1 = Ok h -> computeAuthorCatalogRowDigestV1 nfc sha256 sd2 row2 = Ok h ->
  (sd1 = sd2 /\ normal row1 = normal row2) \/ CollisionIn sha256 [rowDigestInput sd1 row1; rowDigestInput sd2 row2].
Proof.
  intros W1 W2 H1 H2. destruct (rowDigest_Ok _ _ _ W1 H1) as [E1 C1], (rowDigest_Ok _ _ _ W2 H2) as [E2 C2]. clear H1 H2.
  rewrite E1 in E2. apply lowerHex_inj in E2.
  destruct (hash_inj_or sha256 [rowDigestInput sd1 row1; rowDigestInput sd2 row2] (rowDigestInput sd1 row1) (rowDigestInput sd2 row2)) as [E|E];
    [left|right; left|exact E2| |right; exact E].
  left. apply domainInput_inj in E.
  pose proof (canonical_inj _ _ _ _ _ (rowDigestObject_wf _ _ W1) (rowDigestObject_wf _ _ W2) C1 C2 E) as En.
  rewrite !rowDigestObject_normal in En. injection En as -> ->. split; reflexivity.
Qed.

Lemma scopeDigest_binds scope1 scope2 h :
  wfJson scope1 -> wfJson scope2 ->
  computeAuthorCatalogScopeDigestV1 nfc sha256 scope1 = Ok h -> computeAuthorCatalogScopeDigestV1 nfc sha256 scope2 = Ok h ->
  normal scope1 = normal scope2 \/ CollisionIn sha256 [scopeDigestInput scope1; scopeDigestInput scope2].
Proof.
  intros W1 W2 H1 H2. destruct (scopeDigest_Ok _ _ W1 H1) as [E1 C1], (scopeDigest_Ok _ _ W2 H2) as [E2 C2]. clear H1 H2.
  rewrite E1 in E2. apply lowerHex_inj in E2.
  destruct (hash_inj_or sha256 [scopeDigestInput scope1; scopeDigestInput scope2] (scopeDigestInput scope1) (scopeDigestInput scope2)) as [E|E];
    [left|right; left|exact E2| |right; exact E].
  left. apply domainInput_inj in E. exact (canonical_inj _ _ _ _ _ W1 W2 C1 C2 E).
Qed.

Lemma rowDigest_total sd row r :
  (forall x, length (sha256 x) = 32%nat) -> wfJson row -> assertAuthorCatalogRowV1 nfc row = Ok r -> assertCanonicalDigest (JString sd) = Ok tt ->
  computeAuthorCatalogRowDigestV1 nfc sha256 sd row = Ok (lowerHex (sha256 (rowDigestInput sd row))).
Proof.
  assert (0 < 4096 <= MAX_CANONICAL_JSON_BYTES) as Hl by done. assert (0 <= 3 <= MAX_CANONICAL_JSON_DEPTH) as Hd by done.
  intros Hlen Wr Ar Ad. unfold computeAuthorCatalogRowDigestV1. rewrite (proj2 (catalogScalar_Ok assertCanonicalDigest _ _) (conj eq_refl Ad)), Ar. cbn [result_bind].
  destruct (assertRow_sound nfc row r Wr Ar) as [Vr Rr]. pose proof (row_bounded nfc row r Vr Rr) as Hb.
  assert (boundedValue (objectBound [js "catalogScopeDigest"; js "row"] [68; 1500]) (1 + 2) (rowDigestObject sd row)) as Ho.
  { apply (bounded_object _ [JString sd; row]); [reflexivity|reflexivity|lia| |reflexivity].
    apply List.Forall2_cons; [apply (bounded_string 66); [exact (digest_short _ _ Ad)|lia]|]. apply List.Forall2_cons; [exact Hb|constructor]. }
  pose proof (bounded_fits _ _ _ 4096 3 Ho ltac:(vm_compute; discriminate) ltac:(lia)) as Hf.
  destruct (wire_reads _ 4096 3 (TextInput (canonText (rowDigestObject sd row))) (rowDigestObject_wf _ _ Wr) Hl Hd Hf (or_introl eq_refl))
    as (Hc & _ & _). unfold MAX_AUTHOR_CATALOG_ROW_DIGEST_INPUT_BYTES_V1. rewrite Hc. exact (digestWithDomain_32 _ _ Hlen).
Qed.

Lemma scopeDigest_total scope sc :
  (forall x, length (sha256 x) = 32%nat) -> wfJson scope -> assertAuthorCatalogScopeV1 nfc scope = Ok sc ->
  computeAuthorCatalogScopeDigestV1 nfc sha256 scope = Ok (lowerHex (sha256 (scopeDigestInput scope))).
Proof.
  intros Hlen Ws As. unfold computeAuthorCatalogScopeDigestV1. rewrite (proj1 (catalog_scope_roundtrip nfc scope sc Ws As)).
  exact (digestWithDomain_32 _ _ Hlen).
Qed.

(** Every valid scope has a digest, and every valid row has one in every
    catalog: the limit of 4096 bytes on what is hashed is never met. *)
Theorem catalog_digests_total scope sc row r sd :
  (forall x, length (sha256 x) = 32%nat) -> wfJson scope -> wfJson row ->
  assertAuthorCatalogScopeV1 nfc scope = Ok sc -> assertAuthorCatalogRowV1 nfc row = Ok r -> assertCanonicalDigest (JString sd) = Ok tt ->
  computeAuthorCatalogScopeDigestV1 nfc sha256 scope = Ok (lowerHex (sha256 (scopeDigestInput scope))) /\
  computeAuthorCatalogRowDigestV1 nfc sha256 sd row = Ok (lowerHex (sha256 (rowDigestInput sd row))).
Proof.
  intros Hlen Ws Wr As Ar Ad. split; [|exact (rowDigest_total sd row r Hlen Wr Ar Ad)].
  exact (scopeDigest_total scope sc Hlen Ws As).
Qed.

(** C24: Equal row digests mean equal rows, and, with the scope digests computed
    from scopes, equal scopes, in every field, unless sha256 collides on inputs
    that were hashed for them. *)
Theorem catalog_row_digest_binds scope1 scope2 sc1 sc2 sd1 sd2 row1 row2 r1 r2 h :
  wfJson scope1 -> wfJson scope2 -> wfJson row1 -> wfJson row2 ->
  assertAuthorCatalogScopeV1 nfc scope1 = Ok sc1 -> assertAuthorCatalogScopeV1 nfc scope2 = Ok sc2 ->
  assertAuthorCatalogRowV1 nfc row1 = Ok r1 -> assertAuthorCatalogRowV1 nfc row2 = Ok r2 ->
  computeAuthorCatalogScopeDigestV1 nfc sha256 scope1 = Ok sd1 -> computeAuthorCatalogScopeDigestV1 nfc sha256 scope2 = Ok sd2 ->
  computeAuthorCatalogRowDigestV1 nfc sha256 sd1 row1 = Ok h -> computeAuthorCatalogRowDigestV1 nfc sha256 sd2 row2 = Ok h ->
  (sc1 = sc2 /\ r1 = r2) \/
  CollisionIn sha256 [scopeDigestInput scope1; scopeDigestInput scope2; rowDigestInput sd1 row1; rowDigestInput sd2 row2].
Proof.
  intros Ws1 Ws2 Wr1 Wr2 As1 As2 Ar1 Ar2 Ds1 Ds2 Dr1 Dr2.
  destruct (rowDigest_binds _ _ _ _ _ Wr1 Wr2 Dr1 Dr2) as [[-> En]|Hc];
    [|right; eapply collision_mono; [|exact Hc]; by intros x Hx; do 2 right].
  destruct (scopeDigest_binds _ _ _ Ws1 Ws2 Ds1 Ds2) as [Es|Hc];
    [|right; eapply collision_mono; [|exact Hc]; intros x [->|[->|[]%elem_of_nil]%elem_of_cons]%elem_of_cons; [left|right; left]].
  left. split; [exact (scope_of_normal _ _ _ _ Ws1 Ws2 As1 As2 Es)|exact (row_of_normal _ _ _ _ Wr1 Wr2 Ar1 Ar2 En)].
Qed.

End Digests.

(** ** Hexadecimal integers *)

Lemma hexNibble_lower n : 0 <= n < 16 -> hexNibble (unitZ (hexUnit n)) = n.
Proof. intros Hn. apply (hexUnit_spec n Hn). Qed.

Lemma bigIntOfHex_lowerHex b : bigIntOfHex (lowerHex b) = ofBigEndian b.
Proof.
  unfold bigIntOfHex, lowerHex, ofBigEndian. change (drop 2 (js "0x" ++ ?x)) with x.
  assert (forall acc, 0 <= acc -> foldl (fun acc u => acc * 16 + hexNibble (unitZ u)) acc (flat_map byteText b) =
    foldl (fun value x => Z.lor (Z.shiftl value 8) (byteZ x)) acc b) as H; [|by apply H].
  induction b as [|x b IH]; intros acc Hacc; [done|]. cbn [flat_map]. rewrite foldl_app. change (byteText x) with [hexUnit (byteZ x / 16); hexUnit (byteZ x mod 16)]. cbn [foldl].
  pose proof (byteZ_range x). rewrite !hexNibble_lower, lor_shift_byte by lia. rewrite <- IH by lia. f_equal. lia.
Qed.

(** Digits of [n] bytes are the text of these bytes. *)
Lemma hexDigits_bytes n s : hexDigits (2 * Z.of_nat n) s = true -> exists b, s = lowerHex b /\ length b = n.
Proof.
  unfold hexDigits. rewrite !andb_true_iff, bool_decide_eq_true, Z.eqb_eq, forallb_forall. intros [[Hp Hl] Hh]. unfold js_length in Hl.
  assert (length (drop 2 s) = (2 * n)%nat) as Hlen by (rewrite length_drop; lia). destruct (hexPairs_text (drop 2 s)) as [H1 H2].
  - apply Forall_forall. intros u Hu%list_elem_of_In. auto.
  - rewrite Hlen. apply Nat.even_spec. by exists n.
  - exists (parseHexPairs (drop 2 s)). unfold lowerHex. rewrite H1, <- Hp, take_drop. split; [done|lia].
Qed.

Lemma address_bytes s : assertCanonicalEvmAddress (JString s) = Ok tt -> exists a, s = lowerHex a /\ length a = 20%nat.
Proof. intros H. cbn [assertCanonicalEvmAddress] in H. ok_inv. apply negb_false_iff in H0. by apply (hexDigits_bytes 20). Qed.

(** ** Buckets *)

Lemma prefixBits_power fuel k acc : 0 <= k <= Z.of_nat fuel -> prefixBitsLoop fuel (2 ^ k) acc = acc + k.
Proof.
  revert k acc. induction fuel as [|fuel IH]; intros k acc Hk; [simpl; lia|]. cbn [prefixBitsLoop].
  destruct (decide (k = 0)) as [->|Hne]; [simpl; lia|]. pose proof (Z.pow_pos_nonneg 2 (k - 1) ltac:(lia) ltac:(lia)).
  assert (2 ^ k = 2 ^ (k - 1) * 2) as E by (rewrite Z.mul_comm, <- Z.pow_succ_r by lia; f_equal; lia).
  rewrite (proj2 (Z.ltb_lt 1 (2 ^ k))) by lia. rewrite Z.shiftr_div_pow2 by lia. change (2 ^ 1) with 2.
  rewrite E, Z.div_mul by lia. rewrite IH by lia. lia.
Qed.

Lemma prefix_bound h k : 0 <= k <= 256 -> 0 <= h < 2 ^ 256 -> 0 <= h / 2 ^ (256 - k) < 2 ^ k.
Proof.
  intros Hk Hh. pose proof (Z.pow_pos_nonneg 2 (256 - k) ltac:(lia) ltac:(lia)).
  split; [apply Z.div_pos; lia|]. apply Z.div_lt_upper_bound; [lia|]. rewrite <- Z.pow_add_r by lia. replace (256 - k + k) with 256 by lia. apply Hh.
Qed.

Lemma keyDigest_Ok sha256 ka n :
  (forall x, length (sha256 x) = 32%nat) -> parseCanonicalDecimalU256 (JString ka) = Ok n ->
  computeAuthorCatalogKeyDigestV1 sha256 ka = Ok (lowerHex (sha256 (keyDigestInput ka))).
Proof.
  assert (0 < 128 <= MAX_CANONICAL_JSON_BYTES) as Hl by done. assert (0 <= 1 <= MAX_CANONICAL_JSON_DEPTH) as Hd by done.
  intros Hlen Hn. unfold computeAuthorCatalogKeyDigestV1.
  assert (assertCanonicalKaId (JString ka) = Ok tt) as Hk by (unfold assertCanonicalKaId, assertCanonicalDecimalU256; by rewrite Hn).
  rewrite (proj2 (catalogScalar_Ok assertCanonicalKaId _ ka) (conj eq_refl Hk)). cbn [result_bind]. fold (keyObject ka).
  assert (boundedValue (objectBound [js "kaId"] [80]) (1 + 0) (keyObject ka)) as Hb.
  { apply (bounded_object _ [JString ka]); [reflexivity|reflexivity|lia| |reflexivity].
    apply List.Forall2_cons; [|apply List.Forall2_nil]. apply (bounded_string 78); [by eapply kaId_short|lia]. }
  assert (wfJson (keyObject ka)) as Hw.
  { apply wfJson_object. split; [apply (bool_decide_unpack _); vm_compute; exact I|]. constructor; [exact I|constructor]. }
  pose proof (bounded_fits _ _ _ 128 1 Hb ltac:(vm_compute; discriminate) ltac:(lia)) as Hf.
  destruct (wire_reads _ 128 1 (TextInput (canonText (keyObject ka))) Hw Hl Hd Hf (or_introl eq_refl)) as (Hc & _ & _). rewrite Hc.
  exact (digestWithDomain_32 _ _ _ Hlen).
Qed.

Lemma bucketOfDigest_Ok b count id :
  length b = 32%nat ->
  let digest := ofBigEndian b in
  catalogKeyDigestToBucketIdV1 (lowerHex b) count = Ok id <->
  exists k, 0 <= k <= 63 /\ count = decimal (2 ^ k) /\ id = decimal (digest / 2 ^ (256 - k)) /\ 0 <= digest / 2 ^ (256 - k) < 2 ^ k.
Proof.
  intros Hlen digest. unfold catalogKeyDigestToBucketIdV1.
  assert (assertCanonicalDigest (JString (lowerHex b)) = Ok tt) as Ha by (apply assertDigest_Ok; eauto).
  assert (0 <= digest < 2 ^ 256) as Hd by (pose proof (ofBigEndian_bounds b) as Hb; unfold js_length in Hb; rewrite Hlen in Hb; exact Hb).
  rewrite (proj2 (catalogScalar_Ok assertCanonicalDigest _ _) (conj eq_refl Ha)). cbn [result_bind].
  rewrite bigIntOfHex_lowerHex. fold digest. clearbody digest. clear Ha Hlen b. split.
  - intros H. apply result_bind_Ok in H as ([t m] & ([= <-] & -> & k & Hk & ->)%bucketCount_Ok & H).
    exists k. pose proof (prefix_bound digest k ltac:(lia) Hd) as Hb. split_and!; [lia|lia|reflexivity| |lia|lia].
    destruct (Z.eqb_spec (2 ^ k) 1) as [E1|E1].
    + injection H as <-. assert (digest / 2 ^ (256 - k) = 0) as -> by lia. reflexivity.
    + cbn zeta in H. rewrite prefixBits_power in H by lia. rewrite Z.add_0_l, Z.shiftr_div_pow2 in H by lia.
      apply result_bind_Ok in H as (_ & _ & [= <-]). reflexivity.
  - intros (k & Hk & -> & -> & Hb). rewrite (proj2 (bucketCount_Ok _ (decimal (2 ^ k)) (2 ^ k))) by eauto. cbn [result_bind].
    destruct (Z.eqb_spec (2 ^ k) 1) as [E1|E1].
    + assert (digest / 2 ^ (256 - k) = 0) as -> by lia. reflexivity.
    + rewrite prefixBits_power by lia. rewrite Z.add_0_l, Z.shiftr_div_pow2 by lia. cbn zeta.
      assert (2 ^ k <= 2 ^ 63) by (apply Z.pow_le_mono_r; lia). assert (2 ^ 63 <= MAX_DECIMAL_U64) by done.
      unfold parseCanonicalDecimalU64. rewrite (proj2 (parseDecimal_Ok _ _ (digest / 2 ^ (256 - k)) u64_nonneg)); [reflexivity|].
      split; [lia|reflexivity].
Qed.

(** A key of a catalog belongs to a bucket exactly when the number of buckets
    is a power of two up to 2^63, and its bucket is the number formed by the
    leading bits of its digest, below the number of buckets. *)
Theorem catalog_bucket_spec sha256 ka n count id :
  (forall x, length (sha256 x) = 32%nat) -> parseCanonicalDecimalU256 (JString ka) = Ok n ->
  let digest := ofBigEndian (sha256 (keyDigestInput ka)) in
  catalogKeyToBucketIdV1 sha256 ka count = Ok id <->
  exists k, 0 <= k <= 63 /\ count = decimal (2 ^ k) /\ id = decimal (digest / 2 ^ (256 - k)) /\ 0 <= digest / 2 ^ (256 - k) < 2 ^ k.
Proof.
  intros Hlen Hn digest. unfold catalogKeyToBucketIdV1. rewrite (keyDigest_Ok _ _ _ Hlen Hn). cbn [result_bind].
  exact (bucketOfDigest_Ok _ count id (Hlen _)).
Qed.

(** ** Keys *)

(** The order of keys is the one of the numbers they denote. *)
Lemma compareKaIds_Ok a b :
  0 <= a <= MAX_DECIMAL_U256 -> 0 <= b <= MAX_DECIMAL_U256 -> compareAuthorCatalogKaIdsV1 (decimal a) (decimal b) = Ok (Z.sgn (a - b)).
Proof.
  intros Ha Hb. assert (0 <= MAX_DECIMAL_U256) as Hm by lia. unfold compareAuthorCatalogKaIdsV1, parseCatalogU256, parseCanonicalDecimalU256.
  rewrite (proj2 (parseDecimal_Ok _ _ a Hm) (conj Ha eq_refl)), (proj2 (parseDecimal_Ok _ _ b Hm) (conj Hb eq_refl)). cbn [rethrow result_bind].
  f_equal. destruct (Z.ltb_spec a b); [|destruct (Z.ltb_spec b a)]; lia.
Qed.

(** The high bits of a key are the address of the author. *)
Lemma packedAuthor_Ok ka author :
  assertPackedKaIdAuthorBindingV1 ka author = Ok tt ->
  exists a number, author = lowerHex a /\ length a = 20%nat /\ 0 <= number < 2 ^ 96 /\ ka = decimal (ofBigEndian a * 2 ^ 96 + number).
Proof.
  unfold assertPackedKaIdAuthorBindingV1, parseCatalogU256, parseCanonicalDecimalU256. intros H.
  apply result_bind_Ok in H as (n & Hn%rethrow_Ok & H). apply parseDecimal_Ok in Hn as [Hn E]; [|done]. injection E as ->.
  apply result_bind_Ok in H as (a' & [[= <-] Ha]%catalogScalar_Ok & H). apply throw_if_Ok in H as [Hc%negb_false_iff%Z.eqb_eq _].
  destruct (address_bytes author Ha) as (a & -> & Hl). rewrite bigIntOfHex_lowerHex in Hc. unfold PACKED_KA_NUMBER_BITS_V1 in Hc.
  rewrite Z.shiftr_div_pow2 in Hc by lia. exists a, (n mod 2 ^ 96). split_and!; [reflexivity|exact Hl|apply Z.mod_pos_bound; lia..|].
  rewrite <- Hc. f_equal. rewrite Z.mul_comm. apply Z.div_mod. lia.
Qed.

Lemma ofBigEndian_inj a b : length a = length b -> ofBigEndian a = ofBigEndian b -> a = b.
Proof. intros Hl E. by rewrite <- (bigEndian_ofBigEndian a), <- (bigEndian_ofBigEndian b), Hl, E. Qed.

Lemma decimal_inj a b : 0 <= a -> 0 <= b -> decimal a = decimal b -> a = b.
Proof. intros Ha Hb E. by rewrite <- (bigIntOf_decimal a), <- (bigIntOf_decimal b), E. Qed.

(** C30: A knowledge asset is admitted under one author only: its key is the
    author's address followed by a number of 96 bits, and scopes that admit rows
    with the same key have the same author. *)
Theorem ka_has_one_author nfc row1 scope1 row2 scope2 r1 r2 s1 s2 :
  assertAuthorCatalogRowV1 nfc row1 = Ok r1 -> assertAuthorCatalogScopeV1 nfc scope1 = Ok s1 ->
  assertAuthorCatalogRowV1 nfc row2 = Ok r2 -> assertAuthorCatalogScopeV1 nfc scope2 = Ok s2 ->
  assertAuthorCatalogRowScopeBindingV1 nfc row1 scope1 = Ok tt -> assertAuthorCatalogRowScopeBindingV1 nfc row2 scope2 = Ok tt ->
  kaId r1 = kaId r2 ->
  authorAddress (laneScope s1) = authorAddress (laneScope s2) /\
  exists a number, authorAddress (laneScope s1) = lowerHex a /\ length a = 20%nat /\ 0 <= number < 2 ^ 96 /\
    kaId r1 = decimal (ofBigEndian a * 2 ^ 96 + number).
Proof.
  intros R1 S1 R2 S2 B1 B2 Ek. unfold assertAuthorCatalogRowScopeBindingV1 in B1, B2. rewrite R1, S1 in B1. rewrite R2, S2 in B2.
  cbn [result_bind] in B1, B2. apply packedAuthor_Ok in B1 as (a & n & Ea & La & Hn & Ka), B2 as (b & m & Eb & Lb & Hm & Kb).
  split; [|by exists a, n]. rewrite Ea, Eb. f_equal. pose proof (ofBigEndian_bounds a). pose proof (ofBigEndian_bounds b).
  rewrite Ek, Kb in Ka. apply decimal_inj in Ka; [|lia..]. apply ofBigEndian_inj; [lia|]. nia.
Qed.

(** ** Examples *)

Lemma catalog_row_digest_binds_witness :
  let sd := lowerHex (sampleHash (scopeDigestInput sampleCatalogScope)) in
  (sampleScopeRecord = sampleScopeRecord /\ sampleRowRecord = sampleRowRecord) \/
  CollisionIn sampleHash [scopeDigestInput sampleCatalogScope; scopeDigestInput sampleCatalogScope;
                          rowDigestInput sd sampleRow; rowDigestInput sd sampleRow].
Proof.
  intros sd. assert (assertCanonicalDigest (JString sd) = Ok tt) as Hd by (apply assertDigest_Ok; eexists; split; [reflexivity|apply sampleHash_length]).
  destruct (catalog_digests_total sampleNfc sampleHash _ _ _ _ sd sampleHash_length sampleScope_wf sampleRow_wf sampleScope_asserts sampleRow_asserts Hd)
    as [Hs Hr].
  exact (catalog_row_digest_binds sampleNfc sampleHash _ _ _ _ _ _ _ _ _ _ _ sampleScope_wf sampleScope_wf sampleRow_wf sampleRow_wf
    sampleScope_asserts sampleScope_asserts sampleRow_asserts sampleRow_asserts Hs Hs Hr Hr).
Defined.

(** The sample key is in the first of 256 buckets. *)
Lemma catalog_bucket_spec_witness :
  let digest := ofBigEndian (sampleHash (keyDigestInput sampleKaId)) in
  catalogKeyToBucketIdV1 sampleHash sampleKaId (js "256") = Ok (decimal (digest / 2 ^ 248)).
Proof.
  intros digest. apply (catalog_bucket_spec sampleHash sampleKaId (2 ^ 96 + 5) (js "256")); [apply sampleHash_length|vm_compute; reflexivity|].
  exists 8. split_and!; [lia|lia|reflexivity|reflexivity|..]; apply prefix_bound; try lia;
    (pose proof (ofBigEndian_bounds (sampleHash (keyDigestInput sampleKaId))) as Hb; unfold js_length in Hb;
     rewrite sampleHash_length in Hb; exact Hb).
Defined.

Lemma ka_has_one_author_witness :
  authorAddress (laneScope sampleScopeRecord) = authorAddress (laneScope sampleScopeRecord) /\
  exists a number, authorAddress (laneScope sampleScopeRecord) = lowerHex a /\ length a = 20%nat /\ 0 <= number < 2 ^ 96 /\
    kaId sampleRowRecord = decimal (ofBigEndian a * 2 ^ 96 + number).
Proof.
  assert (assertAuthorCatalogRowScopeBindingV1 sampleNfc sampleRow sampleCatalogScope = Ok tt) as Hb.
  { unfold assertAuthorCatalogRowScopeBindingV1. rewrite sampleRow_asserts, sampleScope_asserts. vm_compute. reflexivity. }
  exact (ka_has_one_author sampleNfc _ _ _ _ _ _ _ _ sampleRow_asserts sampleScope_asserts sampleRow_asserts sampleScope_asserts Hb Hb eq_refl).
Defined.
