(* ===== verification/JsonEquiv.v ===== *)
(** * Checks up to the order of fields

    Every check of a wire object reads fields by their names, so it does not see
    their order.  The checks respect [jsonEquiv], and so does the canonical text. *)

From Stdlib Require Import Setoid.
From S2P Require Import Prelude Bytes Merkle CodePoints JsText JsNumber CanonicalJson CanonicalJsonTheory CanonicalJsonRoundtrip.
From S2P Require Import PlainJson WireScalars KaTransfer IriComponent AuthorLane AuthorCatalog AuthorCatalogTheory AuthorCatalogRows.

Open Scope Z_scope.

(** ** Optional fields *)

Definition optEquiv (a b : option Json) : Prop := normal <$> a = normal <$> b.

#[export] Instance optEquiv_equivalence : Equivalence optEquiv.
Proof. split; unfold optEquiv; [by intros x|by intros x y|intros x y z; congruence]. Qed.

(** Records with the same fields up to order. *)
Definition fieldsEquiv (fs gs : list (jsstr * Json)) : Prop := jsonEquiv (JObject fs) (JObject gs).

Lemma find_filter {A} (p : A -> bool) l : List.find p l = head (List.filter p l).
Proof. induction l as [|x l IH]; simpl; [done|]. by destruct (p x). Qed.

Lemma js_sort_equal {A} (cmp : A -> A -> Z) l : (forall x y, x ∈ l -> y ∈ l -> cmp x y = 0) -> js_sort cmp l = l.
Proof.
  induction l as [|x l IH]; intros H; [done|]. change (js_sort cmp (x :: l)) with (js_insert cmp x (js_sort cmp l)). rewrite IH by (intros; apply H; by right).
  destruct l as [|y l]; [done|]. cbn [js_insert]. rewrite H; [done|left|right; left].
Qed.

(** The sort is stable, so the first field of a name stays the first. *)
Lemma field_sort k fields : field k (js_sort compareKeys fields) = field k fields.
Proof.
  unfold field. rewrite !find_filter, (js_sort_filter compareKeys), js_sort_equal; [done|].
  intros x y [_ Hx%bool_decide_eq_true]%elem_of_js_filter [_ Hy%bool_decide_eq_true]%elem_of_js_filter. apply compareKeys_eq. congruence.
Qed.

Lemma field_map k (g : Json -> Json) fields : field k (map (fun '(k, x) => (k, g x)) fields) = g <$> field k fields.
Proof. unfold field. induction fields as [|[k' x] fields IH]; [done|]. cbn [map List.find fst]. by case_bool_decide. Qed.

Lemma field_normal k fields : field k (map (fun '(k, x) => (k, normal x)) (js_sort compareKeys fields)) = normal <$> field k fields.
Proof. by rewrite field_map, field_sort. Qed.

Lemma fieldsEquiv_field fs gs k : fieldsEquiv fs gs -> optEquiv (field k fs) (field k gs).
Proof.
  unfold fieldsEquiv, jsonEquiv, optEquiv. rewrite !normal_object. intros E. injection E as E. rewrite <- !field_normal. by rewrite E.
Qed.

Lemma fieldsEquiv_keys fs gs keys : fieldsEquiv fs gs -> assertExactKeys fs keys = assertExactKeys gs keys.
Proof.
  intros H. pose proof (fun k => fieldsEquiv_field _ _ k H) as Hf. unfold fieldsEquiv, jsonEquiv in H. rewrite !normal_object in H. injection H as E.
  assert (fs.*1 ≡ₚ gs.*1) as Hp.
  { rewrite <- (sort_perm fs), <- (sort_perm gs), <- (map_values_keys normal (js_sort compareKeys fs)), <- (map_values_keys normal (js_sort compareKeys gs)).
    by rewrite E. }
  unfold assertExactKeys. f_equal; [f_equal|].
  - unfold js_length. rewrite <- (length_fmap fst fs), <- (length_fmap fst gs). by rewrite Hp.
  - by apply forallb_perm.
  - clear Hp. induction keys as [|k keys IH]; [done|]. cbn [forallb]. rewrite IH. f_equal. specialize (Hf k). unfold optEquiv in Hf.
    destruct (field k fs), (field k gs); done.
Qed.

(** ** Kinds of values *)

(** What the check of a scalar sees of a value. *)
Ltac by_kind :=
  let a := fresh "a" in let b := fresh "b" in let H := fresh "H" in
  intros a b H; destruct a as [[]|], b as [[]|]; unfold optEquiv in H; cbn in H |- *;
  first [discriminate H | reflexivity | by injection H as -> | idtac].

Ltac by_value :=
  let a := fresh "a" in let b := fresh "b" in let H := fresh "H" in
  intros a b H; destruct a, b; unfold jsonEquiv in H; cbn in H |- *; first [discriminate H | reflexivity | by injection H as -> | idtac].

#[export] Instance isNull_proper : Proper (optEquiv ==> eq) isNull.
Proof. by_kind. Qed.

#[export] Instance fieldIs_proper s : Proper (optEquiv ==> eq) (fieldIs s).
Proof. by_kind. Qed.

#[export] Instance checkedText_proper {E F A} (e : F) (check : Json -> result E A) : Proper (optEquiv ==> eq) (checkedText e check).
Proof. by_kind. Qed.

#[export] Instance nullable_proper {E} (assert : option Json -> result E jsstr) :
  Proper (optEquiv ==> eq) assert -> Proper (optEquiv ==> eq) (nullable assert).
Proof. intros Ha a b H. unfold nullable. by rewrite (isNull_proper _ _ H), (Ha _ _ H). Qed.

#[export] Typeclasses Opaque parseCanonicalUnsignedDecimal parseCanonicalDecimalU64 assertCanonicalDigest assertCanonicalEvmAddress assertCanonicalHexBytes.

#[export] Instance parseDecimal_proper max : Proper (jsonEquiv ==> eq) (fun v => parseCanonicalUnsignedDecimal v max).
Proof. by_value. Qed.

#[export] Instance parseU64_proper : Proper (jsonEquiv ==> eq) parseCanonicalDecimalU64.
Proof. unfold parseCanonicalDecimalU64. by_value. Qed.

#[export] Instance assertDigest_proper : Proper (jsonEquiv ==> eq) assertCanonicalDigest.
Proof. by_value. Qed.

#[export] Instance assertAddress_proper : Proper (jsonEquiv ==> eq) assertCanonicalEvmAddress.
Proof. by_value. Qed.

#[export] Instance assertHexBytes_proper lo hi : Proper (jsonEquiv ==> eq) (fun v => assertCanonicalHexBytes v lo hi).
Proof. by_value. Qed.

#[export] Instance default_proper : Proper (optEquiv ==> jsonEquiv) (default JNull).
Proof. intros [a|] [b|] H; unfold optEquiv in H; cbn in H; by simplify_eq. Qed.

(** ** Sequences of checks *)

Lemma bind_cong {E A B} (r s : result E A) (f g : A -> result E B) :
  r = s -> (forall x, f x = g x) -> result_bind r f = result_bind s g.
Proof. intros -> H. destruct s; simpl; [apply H|done]. Qed.

Lemma throw_cong {E A} (e : E) b c (k l : result E A) : b = c -> k = l -> throw_if b e k = throw_if c e l.
Proof. by intros -> ->. Qed.

(** One check, by its instance on [optEquiv] or [jsonEquiv], under boolean
    operations and changes of the error. *)
Ltac same_check H :=
  match goal with
  | |- ?a = ?a => reflexivity
  | |- optEquiv _ _ => apply (fieldsEquiv_field _ _ _ H)
  | |- jsonEquiv _ _ => apply default_proper; same_check H
  | |- assertExactKeys _ _ = _ => apply (fieldsEquiv_keys _ _ _ H)
  | |- ?f _ _ = ?f _ _ => apply (_ : Proper (optEquiv ==> optEquiv ==> eq) f); same_check H
  | |- ?f _ = ?f _ =>
      first [ apply (_ : Proper (optEquiv ==> eq) f); same_check H
            | apply (_ : Proper (jsonEquiv ==> eq) f); same_check H
            | f_equal; same_check H ]
  | |- orb _ _ = orb _ _ => f_equal; same_check H
  end.

(** Walks through two runs of the same checks over records with the same
    fields. *)
Ltac same_checks H :=
  repeat first [ match goal with |- ?a = ?a => reflexivity end
               | apply throw_cong; [solve [same_check H]|]
               | apply bind_cong; [solve [same_check H]|];
                 let x := fresh "x" in intros x; try (destruct x as [? ?]) ].

(** A check that starts with [isPlainRecord]. *)
Lemma record_proper {E A} (e : E) (check : list (jsstr * Json) -> result E A) :
  (forall fs gs, fieldsEquiv fs gs -> check fs = check gs) ->
  Proper (jsonEquiv ==> eq) (fun v => match isPlainRecord v with None => Err e | Some fields => check fields end).
Proof. intros Hc v w H. destruct v, w; try (unfold jsonEquiv in H; cbn in H; discriminate H); [done..|]. by apply Hc. Qed.

#[export] Instance descriptorDigest_proper : Proper (optEquiv ==> eq) assertDescriptorDigest.
Proof. by_kind. Qed.

#[export] Instance descriptorU64_proper : Proper (optEquiv ==> eq) parseDescriptorU64.
Proof. by_kind. Qed.

#[export] Instance descriptor_proper : Proper (jsonEquiv ==> eq) assertKaTransferDescriptorV1.
Proof. apply record_proper. intros fs gs H. cbv zeta. same_checks H. Qed.

(** ** Canonical texts *)

Lemma forallb_map {A B} (f : A -> B) (p : B -> bool) l : forallb p (map f l) = forallb (fun x => p (f x)) l.
Proof. induction l as [|x l IH]; [done|]. cbn. by rewrite IH. Qed.

Lemma forallb_ext_in {A} (p q : A -> bool) l : (forall x, x ∈ l -> p x = q x) -> forallb p l = forallb q l.
Proof.
  induction l as [|x l IH]; intros H; [done|]. cbn. rewrite (H x) by left. f_equal. apply IH. intros y Hy. apply H. by right.
Qed.

Lemma maxOf_perm l l' : l ≡ₚ l' -> maxOf l = maxOf l'.
Proof. unfold maxOf. induction 1; cbn; lia. Qed.

Lemma normal_shape v : encodable (normal v) = encodable v /\ jsonDepth (normal v) = jsonDepth v.
Proof.
  induction v as [|b|n|s|items IH|fields IH] using Json_ind; [done|done| |done| |].
  - split; [|done]. destruct n as [| |neg m e]; [done|done|]. cbn. by case_match.
  - rewrite Forall_forall in IH. cbn [normal encodable jsonDepth]. rewrite forallb_map, map_map. split.
    + apply forallb_ext_in. intros x Hx. by apply IH.
    + do 2 f_equal. apply map_ext_in. intros x Hx%list_elem_of_In. by apply IH.
  - rewrite Forall_forall in IH. rewrite normal_object. cbn [encodable jsonDepth]. rewrite forallb_map, map_map. split.
    + rewrite (forallb_perm _ _ _ (sort_perm fields)). apply forallb_ext_in. intros [k x] Hx. f_equal. by apply (IH (k, x)).
    + f_equal. etrans; [apply maxOf_perm, Permutation_map, sort_perm|]. f_equal. apply map_ext_in.
      intros [k x] Hx%list_elem_of_In. by apply (IH (k, x)).
Qed.

Lemma normal_wf v : wfJson v -> wfJson (normal v).
Proof.
  induction v as [|b|n|s|items IH|fields IH] using Json_ind; intros Hw; [done|done| |done| |].
  - destruct n as [| |neg m e]; [done|done|]. cbn [normal dropNegZero]. case_match; [simpl; lia|exact Hw].
  - rewrite wfJson_array in Hw. cbn [normal]. apply wfJson_array. rewrite Forall_forall in *. intros y Hy.
    change (map normal items) with (normal <$> items) in Hy. apply list_elem_of_fmap in Hy as (x & -> & Hx). auto.
  - rewrite normal_object. apply wfJson_object in Hw as [Hnd Hw]. apply wfJson_object. rewrite map_values_keys.
    split; [by rewrite sort_perm|]. rewrite Forall_forall in *. intros y Hy. change (map ?f ?l) with (f <$> l) in Hy.
    apply list_elem_of_fmap in Hy as ([k x] & -> & Hx). rewrite sort_perm in Hx. by apply (IH _ Hx), (Hw _ Hx).
Qed.

Lemma canonText_equiv v w : wfJson v -> wfJson w -> jsonEquiv v w -> canonText v = canonText w.
Proof. intros Hv Hw E. by rewrite <- (canonText_normal v), <- (canonText_normal w), E. Qed.

Lemma canonicalize_equiv v w options t :
  wfJson v -> wfJson w -> jsonEquiv v w -> canonicalizeJson v options = Ok t -> canonicalizeJson w options = Ok t.
Proof.
  intros Hv Hw E. rewrite !canonicalizeJson_Ok by done. rewrite <- (canonText_equiv v w Hv Hw E). unfold fits.
  destruct (normal_shape v) as [<- <-], (normal_shape w) as [<- <-]. rewrite E, (canonText_equiv v w Hv Hw E). done.
Qed.

(** Fields in another order. *)
Lemma perm_equiv fs gs : NoDup fs.*1 -> fs ≡ₚ gs -> fieldsEquiv fs gs.
Proof.
  intros Hnd Hp. unfold fieldsEquiv, jsonEquiv. rewrite !normal_object. do 2 f_equal. apply (js_sort_unique compareKeys); [|done].
  by apply sort_keys.
Qed.

(** ** Author lanes and catalogs *)

Section Catalogs.
Context (nfc : jsstr -> jsstr).

#[export] Instance nfcIdentifier_proper {E} (e : E) maxBytes : Proper (optEquiv ==> eq) (assertNfcUtf8Identifier nfc e maxBytes).
Proof. by_kind. Qed.

#[export] Instance contextGraphId_proper : Proper (optEquiv ==> eq) (assertAuthorLaneContextGraphIdV1 nfc).
Proof. intros a b H. unfold assertAuthorLaneContextGraphIdV1. by rewrite (nfcIdentifier_proper _ _ _ _ H). Qed.

#[export] Instance subGraphName_proper : Proper (optEquiv ==> eq) (assertAuthorLaneSubGraphNameV1 nfc).
Proof. intros a b H. unfold assertAuthorLaneSubGraphNameV1, assertAuthorLaneIdentifier. by rewrite (nfcIdentifier_proper _ _ _ _ H). Qed.

#[export] Instance scalar_proper {E A} (operation : Json -> result E A) : Proper (optEquiv ==> eq) (scalar operation).
Proof. by_kind. Qed.

#[export] Instance governance_proper : Proper (optEquiv ==> optEquiv ==> eq) assertGovernanceTuple.
Proof.
  intros a b H1 c d H2. unfold assertGovernanceTuple. by rewrite (isNull_proper _ _ H1), (isNull_proper _ _ H2), (scalar_proper _ _ _ H1), (scalar_proper _ _ _ H2).
Qed.

Lemma laneScopeFields_proper fs gs : fieldsEquiv fs gs -> assertAuthorLaneScopeFieldsV1 nfc fs = assertAuthorLaneScopeFieldsV1 nfc gs.
Proof.
  intros H. unfold assertAuthorLaneScopeFieldsV1. cbv zeta. same_checks H.
Qed.

#[export] Instance catalogU64_proper : Proper (optEquiv ==> eq) assertCatalogU64.
Proof. by_kind. Qed.

#[export] Instance bucketCount_proper : Proper (optEquiv ==> eq) assertAuthorCatalogBucketCountV1.
Proof. intros a b H. unfold assertAuthorCatalogBucketCountV1. by rewrite (catalogU64_proper _ _ H). Qed.

#[export] Instance positiveU64_proper : Proper (optEquiv ==> eq) assertCatalogPositiveU64.
Proof. intros a b H. unfold assertCatalogPositiveU64. by rewrite (catalogU64_proper _ _ H). Qed.

#[export] Instance coordinate_proper : Proper (optEquiv ==> eq) (assertAssertionCoordinateV1 nfc).
Proof. intros a b H. unfold assertAssertionCoordinateV1, assertCatalogLaneIdentifier. by rewrite (nfcIdentifier_proper _ _ _ _ H). Qed.

#[export] Instance catalogScalar_proper {E A} (operation : Json -> result E A) : Proper (optEquiv ==> eq) (assertCatalogScalar operation).
Proof. by_kind. Qed.

#[export] Instance catalogContext_proper : Proper (optEquiv ==> eq) (assertContextGraphIdV1 nfc).
Proof. intros a b H. unfold assertContextGraphIdV1. by rewrite (contextGraphId_proper _ _ H). Qed.

#[export] Instance catalogSubGraph_proper : Proper (optEquiv ==> eq) (assertSubGraphNameV1 nfc).
Proof. intros a b H. unfold assertSubGraphNameV1. by rewrite (subGraphName_proper _ _ H). Qed.

#[export] Instance scope_proper : Proper (jsonEquiv ==> eq) (assertAuthorCatalogScopeV1 nfc).
Proof.
  apply record_proper. intros fs gs H. rewrite (laneScopeFields_proper _ _ H). same_checks H.
Qed.

#[export] Instance row_proper : Proper (jsonEquiv ==> eq) (assertAuthorCatalogRowV1 nfc).
Proof. apply record_proper. intros fs gs H. cbv zeta. same_checks H. Qed.
End Catalogs.

(** ** Concrete values *)

(** Decides that a value without numbers has no key twice. *)
Fixpoint uniqueKeys (v : Json) : bool :=
  match v with
  | JNull | JBool _ | JString _ => true
  | JNumber _ => false
  | JArray items => forallb uniqueKeys items
  | JObject fields => bool_decide (NoDup fields.*1) && forallb (fun '(_, x) => uniqueKeys x) fields
  end.

Lemma uniqueKeys_wf v : uniqueKeys v = true -> wfJson v.
Proof.
  induction v as [|b|n|s|items IH|fields IH] using Json_ind; intros H; [done..| |]; cbn [uniqueKeys] in H.
  - rewrite forallb_forall in H. apply wfJson_array. rewrite Forall_forall in *. intros x Hx. apply IH; [done|]. by apply H, list_elem_of_In.
  - apply andb_true_iff in H as [Hn%bool_decide_eq_true H]. rewrite forallb_forall in H. apply wfJson_object. split; [done|].
    rewrite Forall_forall in *. intros [k x] Hx. apply (IH (k, x)); [done|]. apply (H (k, x)). by apply list_elem_of_In.
Qed.
