(* ===== verification/ControlObject.v ===== *)
(** * Control objects

    packages/core/src/sync-control-object.ts: the envelopes of signed objects,
    their digests, and the two records by which a cache keeps an envelope.
    Signatures are checked for their form only, here as in the code; sha256 is a
    parameter. *)

From S2P Require Import Prelude Bytes Merkle CodePoints JsText JsNumber CanonicalJson CanonicalJsonTheory.
From S2P Require Import CanonicalJsonRoundtrip PlainJson WireScalars KaTransfer AuthorLane.

Open Scope Z_scope.

Definition CONTROL_OBJECT_DIGEST_DOMAIN : jsstr := js "dkg-control-object-v1" ++ [fromCharCode 10].
Definition CONTROL_SIGNATURE_VARIANT_DIGEST_DOMAIN : jsstr := js "dkg-control-signature-variant-v1" ++ [fromCharCode 10].
Definition MAX_CONTROL_OBJECT_BYTES : Z := MAX_CANONICAL_JSON_BYTES.
Definition MAX_CONTROL_OBJECT_DEPTH : Z := MAX_CANONICAL_JSON_DEPTH.
Definition EIP191_SIGNATURE_BYTES : Z := 65.
Definition MAX_EIP1271_SIGNATURE_BYTES : Z := 4096.
Definition MAX_CONTROL_SIGNATURE_VARIANT_BYTES : Z := 16 * 1024.

(** The suite together with its evidence. *)
Inductive ControlObjectSignatureSuite :=
| Eip191
| Eip1271 (chainId contractAddress : jsstr).

Definition EIP191_SUITE : jsstr := js "eip191-personal-sign-digest-v1".
Definition EIP1271_SUITE : jsstr := js "eip1271-current-finalized-v1".
Definition EIP1271_KIND : jsstr := js "eip1271-current-finalized".

Record UnsignedControlEnvelopeV1 := {
  objectType : jsstr;
  payload : Json;
  issuer : jsstr;
  signatureSuite : ControlObjectSignatureSuite
}.

Record SignedControlEnvelopeV1 := {
  unsignedEnvelope : UnsignedControlEnvelopeV1;
  objectDigest : jsstr;
  signature : jsstr
}.

Record ControlObjectSignatureVariantV1 := {
  variantObjectDigest : jsstr;
  signatureVariantDigest : jsstr;
  variantSignature : jsstr
}.

Inductive ControlError :=
| EEnvelopeRecord
| EEnvelopeKeys
| EObjectTypeEmpty
| EObjectTypeBounds
| ESignatureSuite
| EControlScalar (e : ScalarError)
| EEvidenceRecord
| EEvidenceKeys
| EEvidenceKind
| EEvidenceChainId
| EEvidenceContract
| EControlJson (e : CanonicalJsonError)
| EControlDigestMismatch
| EVariantRecord
| EVariantKeys
| EVariantDigestMismatch
| ECacheKeys.

Abbreviation oresult := (result ControlError).

(** ** Envelopes *)

Definition unsignedEnvelopeKeys : list jsstr :=
  [js "issuer"; js "objectType"; js "payload"; js "signatureEvidence"; js "signatureSuite"].

Definition signedEnvelopeKeys : list jsstr :=
  [js "issuer"; js "objectDigest"; js "objectType"; js "payload"; js "signature"; js "signatureEvidence"; js "signatureSuite"].

(** A string that passes [assert]; its error passes through. *)
Definition scalarText {A} (assert : Json -> sresult A) (value : option Json) : oresult jsstr :=
  let value := default JNull value in
  let* _ := mapErr EControlScalar (assert value) in
  match value with JString s => Ok s | _ => Err EEnvelopeRecord end.

(** A non-empty string of at most 128 code points without control characters. *)
Definition assertObjectType (value : option Json) : oresult jsstr :=
  match value with
  | Some (JString s) =>
      throw EObjectTypeEmpty when js_length s =? 0;
      throw EObjectTypeBounds when 128 <? js_length (codePoints s);
      throw EObjectTypeBounds when existsb (fun c => inZ 0x0000 0x001f c || (c =? 0x007f)) (codePoints s);
      Ok s
  | _ => Err EObjectTypeEmpty
  end.

Definition isControlObjectSignatureSuite (value : option Json) : bool := fieldIs EIP191_SUITE value || fieldIs EIP1271_SUITE value.

Definition assertSignatureEvidence (suite evidence : option Json) (issuer : jsstr) : oresult ControlObjectSignatureSuite :=
  match isPlainRecord (default JNull evidence) with
  | None => Err EEvidenceRecord
  | Some fields =>
      let get key := field (js key) fields in
      if fieldIs EIP191_SUITE suite then
        throw EEvidenceKeys when negb (assertExactKeys fields [js "kind"]);
        throw EEvidenceKind when negb (fieldIs (js "none") (get "kind"));
        Ok Eip191
      else
        throw EEvidenceKeys when negb (assertExactKeys fields [js "chainId"; js "contractAddress"; js "kind"]);
        throw EEvidenceKind when negb (fieldIs EIP1271_KIND (get "kind"));
        let* chainId := checkedText EEvidenceChainId assertCanonicalChainId (get "chainId") in
        let* contractAddress := scalarText assertCanonicalEvmAddress (get "contractAddress") in
        throw EEvidenceContract when negb (bool_decide (contractAddress = issuer));
        Ok (Eip1271 chainId contractAddress)
  end.

Definition assertUnsignedControlEnvelopeFields (envelope : Json) : oresult UnsignedControlEnvelopeV1 :=
  match isPlainRecord envelope with
  | None => Err EEnvelopeRecord
  | Some fields =>
      throw EEnvelopeKeys when negb (assertExactKeys fields unsignedEnvelopeKeys);
      let get key := field (js key) fields in
      let* objectType := assertObjectType (get "objectType") in
      throw ESignatureSuite when negb (isControlObjectSignatureSuite (get "signatureSuite"));
      let* issuer := scalarText assertCanonicalEvmAddress (get "issuer") in
      let* suite := assertSignatureEvidence (get "signatureSuite") (get "signatureEvidence") issuer in
      Ok {| objectType := objectType; payload := default JNull (get "payload"); issuer := issuer; signatureSuite := suite |}
  end.

Definition suiteText (suite : ControlObjectSignatureSuite) : jsstr :=
  match suite with Eip191 => EIP191_SUITE | Eip1271 _ _ => EIP1271_SUITE end.

Definition evidenceFields (suite : ControlObjectSignatureSuite) : list (jsstr * Json) :=
  match suite with
  | Eip191 => [(js "kind", JString (js "none"))]
  | Eip1271 chainId contractAddress =>
      [(js "chainId", JString chainId); (js "contractAddress", JString contractAddress); (js "kind", JString EIP1271_KIND)]
  end.

Definition toCanonicalUnsignedEnvelope (envelope : UnsignedControlEnvelopeV1) : Json :=
  JObject [(js "issuer", JString (issuer envelope)); (js "objectType", JString (objectType envelope)); (js "payload", payload envelope);
           (js "signatureEvidence", JObject (evidenceFields (signatureSuite envelope)));
           (js "signatureSuite", JString (suiteText (signatureSuite envelope)))].

Definition toCanonicalSignedEnvelope (envelope : SignedControlEnvelopeV1) : Json :=
  let e := unsignedEnvelope envelope in
  JObject [(js "issuer", JString (issuer e)); (js "objectType", JString (objectType e)); (js "payload", payload e);
           (js "signatureEvidence", JObject (evidenceFields (signatureSuite e)));
           (js "signatureSuite", JString (suiteText (signatureSuite e)));
           (js "objectDigest", JString (objectDigest envelope)); (js "signature", JString (signature envelope))].

Definition controlOptions : CanonicalJsonOptions :=
  {| maxBytes := Some MAX_CONTROL_OBJECT_BYTES; maxDepth := Some MAX_CONTROL_OBJECT_DEPTH |}.

Definition canonicalizeUnsignedControlEnvelopeBytesAfterFields (envelope : UnsignedControlEnvelopeV1) : oresult bytes :=
  mapErr EControlJson (canonicalizeJsonBytes (toCanonicalUnsignedEnvelope envelope) controlOptions).

Definition canonicalizeUnsignedControlEnvelopeBytes (envelope : Json) : oresult bytes :=
  let* e := assertUnsignedControlEnvelopeFields envelope in
  canonicalizeUnsignedControlEnvelopeBytesAfterFields e.

(** The five fields of a signed envelope without digest and signature. *)
Definition extractUnsignedEnvelope (fields : list (jsstr * Json)) : Json :=
  JObject (map (fun key => (key, default JNull (field key fields))) unsignedEnvelopeKeys).

Definition assertSignatureForSuite (signature : option Json) (suite : ControlObjectSignatureSuite) : oresult jsstr :=
  match suite with
  | Eip191 => scalarText (fun v => assertCanonicalHexBytes v EIP191_SIGNATURE_BYTES EIP191_SIGNATURE_BYTES) signature
  | Eip1271 _ _ => scalarText (fun v => assertCanonicalHexBytes v 1 MAX_EIP1271_SIGNATURE_BYTES) signature
  end.

(** The checks of [validateSignedControlEnvelope] before the digest. *)
Definition assertSignedControlEnvelopeFields (envelope : Json) : oresult SignedControlEnvelopeV1 :=
  match isPlainRecord envelope with
  | None => Err EEnvelopeRecord
  | Some fields =>
      throw EEnvelopeKeys when negb (assertExactKeys fields signedEnvelopeKeys);
      let* unsigned := assertUnsignedControlEnvelopeFields (extractUnsignedEnvelope fields) in
      let* objectDigest := scalarText assertCanonicalDigest (field (js "objectDigest") fields) in
      let* signature := assertSignatureForSuite (field (js "signature") fields) (signatureSuite unsigned) in
      Ok {| unsignedEnvelope := unsigned; objectDigest := objectDigest; signature := signature |}
  end.

(** What is hashed. *)
Definition controlPreimage (domain : jsstr) (canonical : bytes) : bytes := encodeUtf8 domain ++ canonical.

Section ControlObjects.
Context (sha256 : bytes -> bytes).

Definition controlDigest (domain : jsstr) (canonical : bytes) : bytes := sha256 (controlPreimage domain canonical).

Definition computeControlObjectDigest (envelope : Json) : oresult bytes :=
  let* canonical := canonicalizeUnsignedControlEnvelopeBytes envelope in
  Ok (controlDigest CONTROL_OBJECT_DIGEST_DOMAIN canonical).

Definition computeControlObjectDigestHex (envelope : Json) : oresult jsstr :=
  let* digest := computeControlObjectDigest envelope in Ok (lowerHex digest).

Definition assertControlObjectDigest (envelope : Json) (claimedDigest : jsstr) : oresult unit :=
  let* _ := mapErr EControlScalar (assertCanonicalDigest (JString claimedDigest)) in
  let* expected := computeControlObjectDigestHex envelope in
  throw EControlDigestMismatch when negb (bool_decide (claimedDigest = expected));
  Ok tt.

Definition assertUnsignedControlEnvelope (envelope : Json) : oresult unit :=
  let* _ := canonicalizeUnsignedControlEnvelopeBytes envelope in Ok tt.

Definition parseCanonicalUnsignedControlEnvelope (input : Input) (options : CanonicalJsonOptions) : oresult UnsignedControlEnvelopeV1 :=
  let* parsed := mapErr EControlJson (parseCanonicalJson input options) in
  assertUnsignedControlEnvelopeFields parsed.

(** The envelope and its canonical bytes. *)
Definition validateSignedControlEnvelope (envelope : Json) : oresult (SignedControlEnvelopeV1 * bytes) :=
  let* signed := assertSignedControlEnvelopeFields envelope in
  let* canonicalUnsigned := canonicalizeUnsignedControlEnvelopeBytesAfterFields (unsignedEnvelope signed) in
  let* canonicalSigned := mapErr EControlJson (canonicalizeJsonBytes (toCanonicalSignedEnvelope signed) controlOptions) in
  let expectedDigest := lowerHex (controlDigest CONTROL_OBJECT_DIGEST_DOMAIN canonicalUnsigned) in
  throw EControlDigestMismatch when negb (bool_decide (objectDigest signed = expectedDigest));
  Ok (signed, canonicalSigned).

Definition assertSignedControlEnvelope (envelope : Json) : oresult SignedControlEnvelopeV1 :=
  let* (signed, _) := validateSignedControlEnvelope envelope in Ok signed.

Definition canonicalizeSignedControlEnvelopeBytes (envelope : Json) : oresult bytes :=
  let* (_, canonical) := validateSignedControlEnvelope envelope in Ok canonical.

Definition parseCanonicalSignedControlEnvelope (input : Input) (options : CanonicalJsonOptions) : oresult SignedControlEnvelopeV1 :=
  let* parsed := mapErr EControlJson (parseCanonicalJson input options) in
  assertSignedControlEnvelope parsed.

(** ** Signature variants *)

Definition computeControlSignatureVariantDigest (objectDigest signature : jsstr) : oresult bytes :=
  let* _ := mapErr EControlScalar (assertCanonicalDigest (JString objectDigest)) in
  let* _ := mapErr EControlScalar (assertCanonicalHexBytes (JString signature) 1 MAX_EIP1271_SIGNATURE_BYTES) in
  let* canonical := mapErr EControlJson
    (canonicalizeJsonBytes (JObject [(js "objectDigest", JString objectDigest); (js "signature", JString signature)]) controlOptions) in
  Ok (controlDigest CONTROL_SIGNATURE_VARIANT_DIGEST_DOMAIN canonical).

Definition computeControlSignatureVariantDigestHex (objectDigest signature : jsstr) : oresult jsstr :=
  let* digest := computeControlSignatureVariantDigest objectDigest signature in Ok (lowerHex digest).

Definition assertControlSignatureVariantDigest (objectDigest signature claimedDigest : jsstr) : oresult unit :=
  let* _ := mapErr EControlScalar (assertCanonicalDigest (JString claimedDigest)) in
  let* expected := computeControlSignatureVariantDigestHex objectDigest signature in
  throw EVariantDigestMismatch when negb (bool_decide (claimedDigest = expected));
  Ok tt.

Definition variantKeys : list jsstr := [js "objectDigest"; js "signature"; js "signatureVariantDigest"].

Definition variantOptions : CanonicalJsonOptions :=
  {| maxBytes := Some MAX_CONTROL_SIGNATURE_VARIANT_BYTES; maxDepth := Some 1 |}.

Definition variantJson (variant : ControlObjectSignatureVariantV1) : Json :=
  JObject [(js "objectDigest", JString (variantObjectDigest variant)); (js "signature", JString (variantSignature variant));
           (js "signatureVariantDigest", JString (signatureVariantDigest variant))].

(** The variant and its canonical bytes.  A field that is not a string is refused
    by the assertion that it goes to. *)
Definition validateControlSignatureVariant (variant : Json) : oresult (ControlObjectSignatureVariantV1 * bytes) :=
  match isPlainRecord variant with
  | None => Err EVariantRecord
  | Some fields =>
      throw EVariantKeys when negb (assertExactKeys fields variantKeys);
      let* claimed := scalarText assertCanonicalDigest (field (js "signatureVariantDigest") fields) in
      let* objectDigest := scalarText assertCanonicalDigest (field (js "objectDigest") fields) in
      let* signature := scalarText (fun v => assertCanonicalHexBytes v 1 MAX_EIP1271_SIGNATURE_BYTES) (field (js "signature") fields) in
      let* _ := assertControlSignatureVariantDigest objectDigest signature claimed in
      let v := {| variantObjectDigest := objectDigest; signatureVariantDigest := claimed; variantSignature := signature |} in
      let* canonical := mapErr EControlJson (canonicalizeJsonBytes (variantJson v) variantOptions) in
      Ok (v, canonical)
  end.

Definition canonicalizeControlSignatureVariantBytes (variant : Json) : oresult bytes :=
  let* (_, canonical) := validateControlSignatureVariant variant in Ok canonical.

Definition parseCanonicalControlSignatureVariant (input : Input) (options : CanonicalJsonOptions) : oresult ControlObjectSignatureVariantV1 :=
  let* parsed := mapErr EControlJson (parseCanonicalJson input (tightenLimits MAX_CONTROL_SIGNATURE_VARIANT_BYTES 1 options)) in
  let* (variant, _) := validateControlSignatureVariant parsed in
  Ok variant.

(** ** Cache records *)

Record SplitCanonicalSignedControlEnvelopeV1 := {
  splitEnvelope : SignedControlEnvelopeV1;
  splitVariant : ControlObjectSignatureVariantV1;
  unsignedEnvelopeBytes : bytes;
  signatureVariantBytes : bytes
}.

(** A validated envelope stands for its object, whose fields are in some order. *)
Definition splitCanonicalSignedControlEnvelopeV1 (input : Json) : oresult SplitCanonicalSignedControlEnvelopeV1 :=
  let* canonical := canonicalizeSignedControlEnvelopeBytes input in
  let* envelope := parseCanonicalSignedControlEnvelope (BytesInput canonical) defaultOptions in
  let* variantDigest := computeControlSignatureVariantDigestHex (objectDigest envelope) (signature envelope) in
  let variant := {| variantObjectDigest := objectDigest envelope; signatureVariantDigest := variantDigest;
                    variantSignature := signature envelope |} in
  let* unsignedBytes := canonicalizeUnsignedControlEnvelopeBytes (toCanonicalUnsignedEnvelope (unsignedEnvelope envelope)) in
  let* variantBytes := canonicalizeControlSignatureVariantBytes (variantJson variant) in
  Ok {| splitEnvelope := envelope; splitVariant := variant; unsignedEnvelopeBytes := unsignedBytes;
        signatureVariantBytes := variantBytes |}.

Definition recombineCanonicalSignedControlEnvelopeV1 (unsignedEnvelopeInput signatureVariantInput : Input)
    (expectedObjectDigest expectedSignatureVariantDigest : jsstr) : oresult SignedControlEnvelopeV1 :=
  let* _ := mapErr EControlScalar (assertCanonicalDigest (JString expectedObjectDigest)) in
  let* _ := mapErr EControlScalar (assertCanonicalDigest (JString expectedSignatureVariantDigest)) in
  let* unsigned := parseCanonicalUnsignedControlEnvelope unsignedEnvelopeInput defaultOptions in
  let* variant := parseCanonicalControlSignatureVariant signatureVariantInput defaultOptions in
  throw ECacheKeys when negb (bool_decide (variantObjectDigest variant = expectedObjectDigest)) ||
                        negb (bool_decide (signatureVariantDigest variant = expectedSignatureVariantDigest));
  let* canonical := canonicalizeSignedControlEnvelopeBytes (toCanonicalSignedEnvelope
    {| unsignedEnvelope := unsigned; objectDigest := expectedObjectDigest; signature := variantSignature variant |}) in
  parseCanonicalSignedControlEnvelope (BytesInput canonical) defaultOptions.

End ControlObjects.
