(* ===== verification/ControlObjectTheory.v ===== *)
(** * Envelopes of control objects

    What the checks of envelopes accept, that an envelope is read back from its
    canonical bytes, that its digest binds it, and that the two cache records of an
    envelope give it back. *)

From S2P Require Import Prelude Bytes Merkle CodePoints JsText JsNumber CanonicalJson CanonicalJsonTheory CanonicalJsonRoundtrip.
From S2P Require Import PlainJson WireScalars KaTransfer AuthorLane AuthorCatalogRows JsonEquiv ControlObject.

Open Scope Z_scope.

(** ** Values up to the order of fields *)

Definition mapOk {E A B} (f : A -> B) (r : result E A) : result E B := let* x := r in Ok (f x).

Lemma mapOk_bind {E A B C} (f : B -> C) (r : result E A) (k : A -> result E B) :
  mapOk f (result_bind r k) = result_bind r (fun x => mapOk f (k x)).
Proof. by destruct r. Qed.

Lemma mapOk_throw {E A B} (f : A -> B) b (e : E) (r : result E A) : mapOk f (throw_if b e r) = throw_if b e (mapOk f r).
Proof. by destruct b. Qed.

Lemma mapOk_Ok {E A B} (f : A -> B) (r : result E A) y : mapOk f r = Ok y <-> exists x, r = Ok x /\ y = f x.
Proof. destruct r; cbn; naive_solver. Qed.

(** Lists of fields with equivalent values. *)
Lemma zip_equiv keys vs ws : map normal vs = map normal ws -> fieldsEquiv (zip keys vs) (zip keys ws).
Proof.
  intros E. unfold fieldsEquiv, jsonEquiv. cbn [normal]. do 2 f_equal. revert vs ws E.
  induction keys as [|k keys IH]; intros [|v vs] [|w ws] E; cbn in *; [done..|]. injection E as -> E. f_equal. exact (IH _ _ E).
Qed.

#[export] Instance scalarText_proper {A} (assert : Json -> sresult A) :
  Proper (jsonEquiv ==> eq) assert -> Proper (optEquiv ==> eq) (scalarText assert).
Proof.
  intros Ha a b H. pose proof (default_proper _ _ H) as Hd. unfold scalarText. rewrite (Ha _ _ Hd). apply bind_cong; [done|]. intros _.
  revert Hd. generalize (default JNull a), (default JNull b). clear. by_value.
Qed.

#[export] Instance objectType_proper : Proper (optEquiv ==> eq) assertObjectType.
Proof. by_kind. Qed.

#[export] Instance suite_proper : Proper (optEquiv ==> eq) isControlObjectSignatureSuite.
Proof. by_kind. Qed.

#[export] Instance evidence_proper : Proper (optEquiv ==> optEquiv ==> eq ==> eq) assertSignatureEvidence.
Proof.
  intros suite suite' Hs a b H issuer ? <-. apply default_proper in H. unfold assertSignatureEvidence. rewrite (fieldIs_proper _ _ _ Hs).
  revert H. generalize (default JNull a), (default JNull b). clear. intros v w H.
  eapply (record_proper EEvidenceRecord (fun fields =>
    let get key := field (js key) fields in
      if fieldIs EIP191_SUITE suite' then
        throw EEvidenceKeys when negb (assertExactKeys fields [js "kind"]);
        throw EEvidenceKind when negb (fieldIs (js "none") (get "kind"));
        Ok Eip191
      else
        throw EEvidenceKeys when negb (assertExactKeys fields [js "chainId"; js "contractAddress"; js "kind"]);
        throw EEvidenceKind when negb (fieldIs EIP1271_KIND (get "kind"));
        let* chainId := checkedText EEvidenceChainId assertCanonicalChainId (get "chainId") in
        let* contractAddress := scalarText assertCanonicalEvmAddress (get "contractAddress") in
        throw EEvidenceContract when negb (bool_decide (contractAddress = issuer));
        Ok (Eip1271 chainId contractAddress))); [|exact H].
  clear. intros fs gs H. cbv zeta. destruct (fieldIs EIP191_SUITE suite'); same_checks H.
Qed.

(** *** Unsigned envelopes *)

Definition normalEnvelope (e : UnsignedControlEnvelopeV1) : UnsignedControlEnvelopeV1 :=
  {| objectType := objectType e; payload := normal (payload e); issuer := issuer e; signatureSuite := signatureSuite e |}.

#[export] Instance unsignedFields_proper : Proper (jsonEquiv ==> eq) (fun v => mapOk normalEnvelope (assertUnsignedControlEnvelopeFields v)).
Proof.
  intros v w H. destruct v as [| | | | |fs], w as [| | | | |gs]; try (unfold jsonEquiv in H; cbn in H; discriminate H); [done..|].
  cbn [assertUnsignedControlEnvelopeFields isPlainRecord]. cbv zeta. rewrite !mapOk_throw, !mapOk_bind.
  apply throw_cong; [same_check H|]. apply bind_cong; [same_check H|]. intros t. rewrite !mapOk_throw, !mapOk_bind.
  apply throw_cong; [same_check H|]. apply bind_cong; [same_check H|]. intros i. rewrite !mapOk_bind.
  apply bind_cong; [apply evidence_proper; [same_check H..|done]|]. intros s. cbn [mapOk result_bind normalEnvelope]. unfold normalEnvelope.
  cbn. do 2 f_equal. exact (default_proper _ _ (fieldsEquiv_field _ _ (js "payload") H)).
Qed.

Lemma unsigned_payload fields e :
  assertUnsignedControlEnvelopeFields (JObject fields) = Ok e -> payload e = default JNull (field (js "payload") fields).
Proof. cbn [assertUnsignedControlEnvelopeFields isPlainRecord]. cbv zeta. intros H. ok_inv. by subst. Qed.

Lemma scalarText_Ok {A} (assert : Json -> sresult A) value s :
  scalarText assert value = Ok s -> value = Some (JString s) /\ exists u, assert (JString s) = Ok u.
Proof.
  unfold scalarText. intros H. apply result_bind_Ok in H as (u & Hu%mapErr_Ok & H).
  destruct value as [v|]; cbn [default from_option id] in *; [|done]. destruct v; try done. injection H as ->. eauto.
Qed.

Lemma objectType_Ok value s : assertObjectType value = Ok s -> value = Some (JString s).
Proof. unfold assertObjectType. destruct value as [[]|]; try done. intros H. ok_inv. by subst. Qed.

(** A record with exactly some keys, whose fields are known. *)
Lemma exact_equiv fields keys vs :
  NoDup fields.*1 -> NoDup keys -> assertExactKeys fields keys = true ->
  lookups keys fields = map Some vs -> fields ≡ₚ zip keys vs.
Proof. intros Hnd Hk He Hl. by apply exactKeys_fields. Qed.

Lemma evidence_Ok suite evidence i s :
  wfJson (default JNull evidence) -> isControlObjectSignatureSuite suite = true -> assertSignatureEvidence suite evidence i = Ok s ->
  suite = Some (JString (suiteText s)) /\ exists ef, evidence = Some (JObject ef) /\ fieldsEquiv ef (evidenceFields s).
Proof.
  intros Hw Hs H. unfold assertSignatureEvidence in H. destruct evidence as [v|]; cbn [default from_option id] in *; [|done].
  destruct v as [| | | | |ef]; try done. cbn [isPlainRecord] in H. apply wfJson_object in Hw as [Hnd _].
  destruct (fieldIs EIP191_SUITE suite) eqn:E1.
  - apply fieldIs_true in E1. ok_inv. apply negb_false_iff in H0, H1. apply fieldIs_true in H1. subst s. split; [done|]. exists ef. split; [done|].
    apply perm_equiv; [done|]. apply (exact_equiv ef [js "kind"] [JString (js "none")]); [done|repeat constructor; set_solver|done|].
    unfold lookups. cbn [fmap list_fmap map]. by rewrite H1.
  - unfold isControlObjectSignatureSuite in Hs. rewrite E1 in Hs. apply fieldIs_true in Hs. ok_inv. apply negb_false_iff in H0, H1.
    apply fieldIs_true in H1. apply checkedText_Ok in H2 as [Hc _]. apply scalarText_Ok in H3 as [Hk _]. subst s. split; [done|]. exists ef.
    split; [done|]. apply perm_equiv; [done|].
    apply (exact_equiv ef [js "chainId"; js "contractAddress"; js "kind"] [JString x; JString x0; JString EIP1271_KIND]);
      [done|apply (bool_decide_unpack _); vm_compute; exact I|done|].
    unfold lookups. cbn [fmap list_fmap map]. by rewrite H1, Hc, Hk.
Qed.

Lemma unsignedKeys_NoDup : NoDup unsignedEnvelopeKeys.
Proof. apply (bool_decide_unpack _). vm_compute. exact I. Qed.

Lemma field_wf k fields : wfJson (JObject fields) -> wfJson (default JNull (field k fields)).
Proof.
  intros [_ Hw]%wfJson_object. destruct (field k fields) as [v|] eqn:E; [|exact I]. apply field_Some in E. rewrite Forall_forall in Hw.
  exact (Hw _ E).
Qed.

(** An accepted value has the five fields of its envelope. *)
Lemma unsigned_equiv v e :
  wfJson v -> assertUnsignedControlEnvelopeFields v = Ok e -> jsonEquiv v (toCanonicalUnsignedEnvelope e) /\ wfJson (payload e).
Proof.
  intros Hw H. destruct v as [| | | | |fs]; try done. pose proof (unsigned_payload _ _ H) as Hpay.
  pose proof (field_wf (js "signatureEvidence") _ Hw) as Hev. pose proof (field_wf (js "payload") _ Hw) as Hpw. rewrite <- Hpay in Hpw.
  cbn [assertUnsignedControlEnvelopeFields isPlainRecord] in H. cbv zeta in H. ok_inv. apply negb_false_iff in H0. apply negb_false_iff in H2.
  destruct (evidence_Ok _ _ _ _ Hev H2 H4) as (Hsuite & ef & Heq & Hef). apply objectType_Ok in H1. apply scalarText_Ok in H3 as [Hi _].
  split; [|done]. apply wfJson_object in Hw as [Hnd _].
  destruct (field (js "payload") fs) as [pay|] eqn:Ep.
  2:{ exfalso. unfold assertExactKeys in H0. apply andb_true_iff in H0 as [_ H0]. cbn [forallb unsignedEnvelopeKeys] in H0. rewrite Ep in H0.
      rewrite !andb_false_r in H0. done. }
  cbn in Hpay. subst. transitivity (JObject (zip unsignedEnvelopeKeys [JString x0; JString x; pay; JObject ef; JString (suiteText x1)])).
  - apply perm_equiv; [done|]. apply exact_equiv; [done|apply unsignedKeys_NoDup|done|].
    unfold lookups, unsignedEnvelopeKeys. cbn [fmap list_fmap map]. by rewrite Hi, H1, Ep, Heq, Hsuite.
  - unfold toCanonicalUnsignedEnvelope. cbn [issuer objectType payload signatureSuite].
    apply (zip_equiv unsignedEnvelopeKeys [JString x0; JString x; pay; JObject ef; JString (suiteText x1)]
      [JString x0; JString x; pay; JObject (evidenceFields x1); JString (suiteText x1)]).
    cbn [map]. rewrite Hef. done.
Qed.

Lemma normalEnvelope_eq e f : normalEnvelope e = normalEnvelope f -> payload e = payload f -> e = f.
Proof. destruct e, f. unfold normalEnvelope. cbn. intros [= -> _ -> ->] ->. done. Qed.

(** The envelope as an object is accepted as itself. *)
Lemma unsigned_complete v e :
  wfJson v -> assertUnsignedControlEnvelopeFields v = Ok e -> assertUnsignedControlEnvelopeFields (toCanonicalUnsignedEnvelope e) = Ok e.
Proof.
  intros Hw H. destruct (unsigned_equiv v e Hw H) as [Heq _]. pose proof (unsignedFields_proper _ _ Heq) as Hp. cbn beta in Hp.
  rewrite H in Hp. symmetry in Hp. apply mapOk_Ok in Hp as (f & Hf & E). rewrite Hf. f_equal. apply normalEnvelope_eq; [done|].
  exact (unsigned_payload _ _ Hf).
Qed.

Lemma toCanonicalUnsigned_wf e : wfJson (payload e) -> wfJson (toCanonicalUnsignedEnvelope e).
Proof.
  intros Hp. apply wfJson_object. split; [exact unsignedKeys_NoDup|].
  repeat (apply Forall_cons; split); [exact I|exact I|exact Hp| |exact I|apply Forall_nil; exact I].
  cbn [snd]. apply wfJson_object. destruct (signatureSuite e); cbn [evidenceFields];
    (split; [apply (bool_decide_unpack _); vm_compute; exact I|repeat (apply Forall_cons; split; [exact I|]); apply Forall_nil; exact I]).
Qed.

(** The normal form is accepted, as the envelope with a normal payload. *)
Lemma unsigned_normal v e :
  wfJson v -> assertUnsignedControlEnvelopeFields v = Ok e -> assertUnsignedControlEnvelopeFields (normal v) = Ok (normalEnvelope e).
Proof.
  intros Hw H. pose proof (unsignedFields_proper _ _ (normal_idempotent v Hw)) as Hp. cbn beta in Hp. rewrite H in Hp.
  apply mapOk_Ok in Hp as (f & Hf & E). rewrite Hf. f_equal. destruct v as [| | | | |fs]; try done.
  destruct (unsigned_equiv _ _ Hw H) as [_ Hpw].
  rewrite normal_object in Hf. pose proof (unsigned_payload _ _ Hf) as Hpf. rewrite field_normal in Hpf.
  pose proof (unsigned_payload _ _ H) as Hpe. assert (payload f = normal (payload e)) as Hpay.
  { rewrite Hpf, Hpe. by destruct (field (js "payload") fs). }
  destruct f. unfold normalEnvelope in *. cbn in *. injection E as -> _ -> ->. by rewrite Hpay.
Qed.

(** *** Signed envelopes *)

Definition normalSigned (s : SignedControlEnvelopeV1) : SignedControlEnvelopeV1 :=
  {| unsignedEnvelope := normalEnvelope (unsignedEnvelope s); objectDigest := objectDigest s; signature := signature s |}.

Lemma bind_map_cong {E A B C} (f : A -> B) (r s : result E A) (k l : A -> result E C) :
  mapOk f r = mapOk f s -> (forall x y, f x = f y -> k x = l y) -> result_bind r k = result_bind s l.
Proof. intros H Hk. destruct r, s; cbn in *; [apply Hk|..]; congruence. Qed.

Lemma extract_equiv fs gs : fieldsEquiv fs gs -> jsonEquiv (extractUnsignedEnvelope fs) (extractUnsignedEnvelope gs).
Proof.
  intros H. unfold jsonEquiv, extractUnsignedEnvelope. cbn [normal]. rewrite !map_map. do 2 f_equal. apply map_ext. intros k. f_equal.
  exact (default_proper _ _ (fieldsEquiv_field _ _ k H)).
Qed.

Lemma signatureForSuite_proper suite : Proper (optEquiv ==> eq) (fun signature => assertSignatureForSuite signature suite).
Proof. intros a b H. unfold assertSignatureForSuite. destruct suite; exact (scalarText_proper _ _ _ _ H). Qed.

#[export] Instance signedFields_proper : Proper (jsonEquiv ==> eq) (fun v => mapOk normalSigned (assertSignedControlEnvelopeFields v)).
Proof.
  intros v w H. destruct v as [| | | | |fs], w as [| | | | |gs]; try (unfold jsonEquiv in H; cbn in H; discriminate H); [done..|].
  cbn [assertSignedControlEnvelopeFields isPlainRecord]. rewrite !mapOk_throw, !mapOk_bind. apply throw_cong; [same_check H|].
  apply (bind_map_cong normalEnvelope); [exact (unsignedFields_proper _ _ (extract_equiv _ _ H))|]. intros e f Hef.
  rewrite !mapOk_bind. apply bind_cong; [same_check H|]. intros d. rewrite !mapOk_bind.
  assert (signatureSuite e = signatureSuite f) as -> by (by injection Hef).
  apply bind_cong; [exact (signatureForSuite_proper _ _ _ (fieldsEquiv_field _ _ _ H))|]. intros sg. cbn. unfold normalSigned. cbn. by rewrite Hef.
Qed.

Lemma signed_payload fields s :
  assertSignedControlEnvelopeFields (JObject fields) = Ok s -> payload (unsignedEnvelope s) = default JNull (field (js "payload") fields).
Proof.
  cbn [assertSignedControlEnvelopeFields isPlainRecord]. intros H. ok_inv. subst s. cbn [unsignedEnvelope]. exact (unsigned_payload _ _ H1).
Qed.

Lemma exact_default fields keys :
  NoDup fields.*1 -> NoDup keys -> assertExactKeys fields keys = true -> fields ≡ₚ zip keys (map (fun k => default JNull (field k fields)) keys).
Proof.
  intros Hnd Hk He. apply exact_equiv; [done..|]. unfold assertExactKeys in He. apply andb_true_iff in He as [_ He].
  unfold lookups. rewrite map_map. clear Hk. induction keys as [|k keys IH]; [done|]. cbn in He |- *.
  apply andb_true_iff in He as [Hk He]. f_equal; [|by apply IH]. by destruct (field k fields).
Qed.

Lemma signedKeys_NoDup : NoDup signedEnvelopeKeys.
Proof. apply (bool_decide_unpack _). vm_compute. exact I. Qed.

Lemma extract_wf fields : wfJson (JObject fields) -> wfJson (extractUnsignedEnvelope fields).
Proof.
  intros Hw. apply wfJson_object. split; [exact unsignedKeys_NoDup|]. cbn [map unsignedEnvelopeKeys].
  repeat (apply Forall_cons; split; [apply (field_wf _ _ Hw)|]). by apply Forall_nil.
Qed.

Lemma signed_equiv v s :
  wfJson v -> assertSignedControlEnvelopeFields v = Ok s -> jsonEquiv v (toCanonicalSignedEnvelope s) /\ wfJson (payload (unsignedEnvelope s)).
Proof.
  intros Hw H. destruct v as [| | | | |fs]; try done. cbn [assertSignedControlEnvelopeFields isPlainRecord] in H. ok_inv. subst s.
  destruct (unsigned_equiv _ _ (extract_wf _ Hw) H1) as [Heq Hp]. split; [|exact Hp].
  apply scalarText_Ok in H2 as [Hd _]. apply negb_false_iff in H0.
  assert (field (js "signature") fs = Some (JString x1)) as Hs by (unfold assertSignatureForSuite in H3; destruct (signatureSuite x); by apply scalarText_Ok in H3 as [? _]).
  pose proof (fun k => fieldsEquiv_field _ _ k Heq) as Hf. apply wfJson_object in Hw as [Hnd _].
  pose (vs := [JString (issuer x); JString x0; JString (objectType x); payload x; JString x1; JObject (evidenceFields (signatureSuite x));
               JString (suiteText (signatureSuite x))]).
  transitivity (JObject (zip signedEnvelopeKeys vs)).
  - etransitivity; [apply perm_equiv; [done|]; apply (exact_default _ signedEnvelopeKeys); [done|apply signedKeys_NoDup|done]|].
    apply zip_equiv. unfold vs, signedEnvelopeKeys. cbn [map]. rewrite Hd, Hs. cbn [default from_option id].
    pose proof (Hf (js "issuer")) as F1. pose proof (Hf (js "objectType")) as F2. pose proof (Hf (js "payload")) as F3.
    pose proof (Hf (js "signatureEvidence")) as F4. pose proof (Hf (js "signatureSuite")) as F5. clear Hf. unfold optEquiv in *.
    injection F1 as ->. injection F2 as ->. injection F3 as ->. injection F4 as ->. injection F5 as ->. done.
  - apply perm_equiv; [unfold vs; exact signedKeys_NoDup|]. unfold toCanonicalSignedEnvelope, vs, signedEnvelopeKeys. cbn [zip zip_with unsignedEnvelope objectDigest signature].
    solve_Permutation.
Qed.

Lemma signed_complete v s :
  wfJson v -> assertSignedControlEnvelopeFields v = Ok s -> assertSignedControlEnvelopeFields (toCanonicalSignedEnvelope s) = Ok s.
Proof.
  intros Hw H. destruct (signed_equiv v s Hw H) as [Heq _]. pose proof (signedFields_proper _ _ Heq) as Hp. cbn beta in Hp.
  rewrite H in Hp. symmetry in Hp. apply mapOk_Ok in Hp as (f & Hf & E). rewrite Hf. f_equal. pose proof (signed_payload _ _ Hf) as Hpay.
  pose proof (f_equal unsignedEnvelope E) as E1. pose proof (f_equal objectDigest E) as E2. pose proof (f_equal signature E) as E3.
  destruct f as [fu fd fs], s as [su sd ss]. cbn [normalSigned unsignedEnvelope objectDigest signature] in *. subst. f_equal.
  apply normalEnvelope_eq; [by symmetry|exact Hpay].
Qed.

Lemma toCanonicalSigned_wf s : wfJson (payload (unsignedEnvelope s)) -> wfJson (toCanonicalSignedEnvelope s).
Proof.
  intros Hp. pose proof (toCanonicalUnsigned_wf _ Hp) as [_ Hw]%wfJson_object. apply wfJson_object.
  split; [apply (bool_decide_unpack _); vm_compute; exact I|].
  pose proof (Forall_app_2 _ _ [(js "objectDigest", JString (objectDigest s)); (js "signature", JString (signature s))] Hw) as Ha. apply Ha.
  repeat (apply Forall_cons; split; [exact I|]). by apply Forall_nil.
Qed.

Lemma signed_normal v s :
  wfJson v -> assertSignedControlEnvelopeFields v = Ok s -> assertSignedControlEnvelopeFields (normal v) = Ok (normalSigned s).
Proof.
  intros Hw H. pose proof (signedFields_proper _ _ (normal_idempotent v Hw)) as Hp. cbn beta in Hp. rewrite H in Hp.
  apply mapOk_Ok in Hp as (f & Hf & E). rewrite Hf. f_equal. destruct v as [| | | | |fs]; try done.
  rewrite normal_object in Hf. pose proof (signed_payload _ _ Hf) as Hpf. rewrite field_normal in Hpf.
  pose proof (signed_payload _ _ H) as Hpe. assert (payload (unsignedEnvelope f) = normal (payload (unsignedEnvelope s))) as Hpay.
  { rewrite Hpf, Hpe. by destruct (field (js "payload") fs). }
  destruct f as [[ft fp fi fsu] fd fsg], s as [[st sp si ssu] sd ssg]. unfold normalSigned, normalEnvelope in *. cbn in *.
  injection E as -> _ -> -> -> ->. by rewrite Hpay.
Qed.

(** *** Objects of envelopes *)

Lemma evidence_inj a b : suiteText a = suiteText b -> fieldsEquiv (evidenceFields a) (evidenceFields b) -> a = b.
Proof.
  intros Hs He. destruct a as [|ca ka], b as [|cb kb]; [done|by vm_compute in Hs|by vm_compute in Hs|].
  pose proof (fieldsEquiv_field _ _ (js "chainId") He) as H1. pose proof (fieldsEquiv_field _ _ (js "contractAddress") He) as H2.
  unfold optEquiv in *. change (field (js "chainId") (evidenceFields (Eip1271 ?c ?k))) with (Some (JString c)) in H1.
  change (field (js "contractAddress") (evidenceFields (Eip1271 ?c ?k))) with (Some (JString k)) in H2.
  by injection H1 as ->; injection H2 as ->.
Qed.

Lemma unsigned_of_object e f :
  wfJson (payload e) -> assertUnsignedControlEnvelopeFields (toCanonicalUnsignedEnvelope e) = Ok f -> f = e.
Proof.
  intros Hw H. destruct (unsigned_equiv _ _ (toCanonicalUnsigned_wf _ Hw) H) as [Heq _]. pose proof (unsigned_payload _ _ H) as Hp.
  change (field (js "payload") _) with (Some (payload e)) in Hp. cbn in Hp.
  pose proof (fun k => fieldsEquiv_field _ _ k Heq) as Hf. pose proof (Hf (js "issuer")) as F1. pose proof (Hf (js "objectType")) as F2.
  pose proof (Hf (js "signatureEvidence")) as F4. pose proof (Hf (js "signatureSuite")) as F5. unfold optEquiv in *.
  injection F1 as F1. injection F2 as F2. injection F4 as F4. injection F5 as F5. destruct e as [et ep ei es], f as [ft fp fi fs]. cbn [issuer objectType payload signatureSuite] in *. subst.
  f_equal. symmetry. apply evidence_inj; [exact F5|]. unfold fieldsEquiv, jsonEquiv. cbn [normal]. by rewrite F4.
Qed.

Lemma signed_of_object s t :
  wfJson (payload (unsignedEnvelope s)) -> assertSignedControlEnvelopeFields (toCanonicalSignedEnvelope s) = Ok t -> t = s.
Proof.
  intros Hw H. cbn [assertSignedControlEnvelopeFields isPlainRecord toCanonicalSignedEnvelope] in H. apply throw_if_Ok in H as [_ H].
  change (extractUnsignedEnvelope _) with (toCanonicalUnsignedEnvelope (unsignedEnvelope s)) in H.
  change (field (js "objectDigest") _) with (Some (JString (objectDigest s))) in H.
  change (field (js "signature") _) with (Some (JString (signature s))) in H. ok_inv. apply unsigned_of_object in H0; [|done].
  apply scalarText_Ok in H1 as [[= <-] _]. unfold assertSignatureForSuite in H2. subst x t.
  destruct (signatureSuite (unsignedEnvelope s)); apply scalarText_Ok in H2 as [[= <-] _]; by destruct s.
Qed.

Lemma normalEnvelope_equiv e : wfJson (payload e) -> jsonEquiv (toCanonicalUnsignedEnvelope (normalEnvelope e)) (toCanonicalUnsignedEnvelope e).
Proof.
  intros Hw. apply (zip_equiv unsignedEnvelopeKeys
    [JString (issuer e); JString (objectType e); normal (payload e); JObject (evidenceFields (signatureSuite e)); JString (suiteText (signatureSuite e))]
    [JString (issuer e); JString (objectType e); payload e; JObject (evidenceFields (signatureSuite e)); JString (suiteText (signatureSuite e))]).
  cbn [map]. by rewrite normal_idempotent.
Qed.

Lemma normalSigned_equiv s :
  wfJson (payload (unsignedEnvelope s)) -> jsonEquiv (toCanonicalSignedEnvelope (normalSigned s)) (toCanonicalSignedEnvelope s).
Proof.
  intros Hw. pose proof (normalEnvelope_equiv _ Hw) as E. unfold jsonEquiv, toCanonicalUnsignedEnvelope, toCanonicalSignedEnvelope in *.
  cbn [normal map] in *. cbn [payload normalEnvelope normalSigned unsignedEnvelope objectDigest signature objectType issuer signatureSuite].
  by rewrite normal_idempotent.
Qed.

Lemma normalSigned_idempotent s : wfJson (payload (unsignedEnvelope s)) -> normalSigned (normalSigned s) = normalSigned s.
Proof. intros Hw. unfold normalSigned, normalEnvelope. cbn. by rewrite normal_idempotent. Qed.

(** ** Canonical bytes *)

Lemma canonicalBytes_Ok v options b :
  wfJson v -> canonicalizeJsonBytes v options = Ok b <-> canonicalizeJson v options = Ok (canonText v) /\ b = encodeUtf8 (canonText v).
Proof.
  intros Hw. unfold canonicalizeJsonBytes. rewrite result_bind_Ok. split.
  - intros (t & Ht & [= <-]). pose proof Ht as (_ & _ & _ & _ & ->)%canonicalizeJson_Ok; done.
  - intros [Hc ->]. eauto.
Qed.

(** What is hashed for an envelope. *)
Definition objectInput (e : UnsignedControlEnvelopeV1) : bytes :=
  controlPreimage CONTROL_OBJECT_DIGEST_DOMAIN (encodeUtf8 (canonText (toCanonicalUnsignedEnvelope e))).

Lemma controlPreimage_inj domain a b : controlPreimage domain a = controlPreimage domain b -> a = b.
Proof. apply app_inv_head. Qed.

Lemma afterFields_Ok e b :
  wfJson (payload e) -> canonicalizeUnsignedControlEnvelopeBytesAfterFields e = Ok b <->
  canonicalizeJson (toCanonicalUnsignedEnvelope e) controlOptions = Ok (canonText (toCanonicalUnsignedEnvelope e)) /\
  b = encodeUtf8 (canonText (toCanonicalUnsignedEnvelope e)).
Proof.
  intros Hw. unfold canonicalizeUnsignedControlEnvelopeBytesAfterFields. rewrite mapErr_Ok. apply canonicalBytes_Ok. by apply toCanonicalUnsigned_wf.
Qed.

Lemma afterFields_normal e b :
  wfJson (payload e) -> canonicalizeUnsignedControlEnvelopeBytesAfterFields e = Ok b ->
  canonicalizeUnsignedControlEnvelopeBytesAfterFields (normalEnvelope e) = Ok b.
Proof.
  intros Hw. assert (wfJson (payload (normalEnvelope e))) as Hn by (by apply normal_wf). rewrite !afterFields_Ok by done. intros [Hc ->].
  assert (wfJson (toCanonicalUnsignedEnvelope e)) as W1 by (by apply toCanonicalUnsigned_wf).
  assert (wfJson (toCanonicalUnsignedEnvelope (normalEnvelope e))) as W2 by (by apply toCanonicalUnsigned_wf).
  assert (jsonEquiv (toCanonicalUnsignedEnvelope e) (toCanonicalUnsignedEnvelope (normalEnvelope e))) as E by (symmetry; by apply normalEnvelope_equiv).
  pose proof (canonicalize_equiv _ _ _ _ W1 W2 E Hc) as Hc'. rewrite (canonText_equiv _ _ W1 W2 E) in *. done.
Qed.
