(* ===== verification/ControlObjectSafety.v ===== *)
(** * Digests and cache records of control objects

    The digest of an object binds its envelope, and the two records that a cache
    keeps of a signed envelope are exact: they give the envelope back, and only the
    records that splitting it makes are accepted for its keys. *)

From S2P Require Import Prelude Bytes Merkle CodePoints JsText JsNumber CanonicalJson CanonicalJsonTheory CanonicalJsonRoundtrip.
From S2P Require Import PlainJson WireScalars KaTransfer AuthorLane AuthorCatalogRows JsonEquiv ControlObject ControlObjectTheory.

Open Scope Z_scope.

(** ** Sizes of signatures *)

Lemma hexBytes_short s lo hi u : assertCanonicalHexBytes (JString s) lo hi = Ok u -> shortText (2 + hi * 2) s.
Proof.
  cbn [assertCanonicalHexBytes]. cbv zeta. intros H. ok_inv. rewrite !orb_false_iff, !negb_false_iff, !Z.ltb_ge in H1. destruct H1 as [[[_ _] Hhi] Hl].
  destruct (hexDigits_short (js_length s - 2) s) as [Hp Hs].
  - unfold LOWER_HEX_BYTES in Hl. unfold hexDigits. rewrite !andb_true_iff in *. destruct Hl as [[? _] ?]. split_and!; [done|apply Z.eqb_eq; lia|done].
  - split; [done|lia].
Qed.

Lemma hexBytes_widen s lo hi lo' hi' :
  lo' <= lo -> hi <= hi' -> assertCanonicalHexBytes (JString s) lo hi = Ok tt -> assertCanonicalHexBytes (JString s) lo' hi' = Ok tt.
Proof.
  intros H1 H2. cbn [assertCanonicalHexBytes]. cbv zeta. intros H. ok_inv. rewrite H0. rewrite !orb_false_iff, !Z.ltb_ge in H3.
  destruct H3 as [[[-> Hlo] Hhi] ->]. by rewrite !(proj2 (Z.ltb_ge _ _)) by lia.
Qed.

Section Digests.
Context (sha256 : bytes -> bytes).

Lemma objectDigest_Ok v d :
  computeControlObjectDigestHex sha256 v = Ok d ->
  exists e, assertUnsignedControlEnvelopeFields v = Ok e /\
    exists b, canonicalizeUnsignedControlEnvelopeBytesAfterFields e = Ok b /\ d = lowerHex (sha256 (controlPreimage CONTROL_OBJECT_DIGEST_DOMAIN b)).
Proof.
  unfold computeControlObjectDigestHex, computeControlObjectDigest, canonicalizeUnsignedControlEnvelopeBytes.
  intros (d' & (b & (e & He & Hb)%result_bind_Ok & [= <-])%result_bind_Ok & [= <-])%result_bind_Ok. eauto.
Qed.

(** Envelopes with the same hashed input are the same, up to the order of the
    fields of the payload. *)
Lemma objectInput_inj v1 v2 e1 e2 :
  wfJson v1 -> wfJson v2 -> assertUnsignedControlEnvelopeFields v1 = Ok e1 -> assertUnsignedControlEnvelopeFields v2 = Ok e2 ->
  canonicalizeJson (toCanonicalUnsignedEnvelope e1) controlOptions = Ok (canonText (toCanonicalUnsignedEnvelope e1)) ->
  canonicalizeJson (toCanonicalUnsignedEnvelope e2) controlOptions = Ok (canonText (toCanonicalUnsignedEnvelope e2)) ->
  objectInput e1 = objectInput e2 -> normalEnvelope e1 = normalEnvelope e2.
Proof.
  intros W1 W2 A1 A2 C1 C2 E%controlPreimage_inj. destruct (unsigned_equiv _ _ W1 A1) as [_ P1], (unsigned_equiv _ _ W2 A2) as [_ P2].
  pose proof (canonical_inj _ _ _ _ _ (toCanonicalUnsigned_wf _ P1) (toCanonicalUnsigned_wf _ P2) C1 C2 E) as Hn.
  pose proof (unsignedFields_proper _ _ Hn) as Hp. cbn beta in Hp. rewrite (unsigned_complete _ _ W1 A1), (unsigned_complete _ _ W2 A2) in Hp.
  exact (f_equal (fun r => match r with Ok x => x | Err _ => normalEnvelope e1 end) Hp).
Qed.

Lemma digest_binds v1 v2 e1 e2 :
  wfJson v1 -> wfJson v2 -> assertUnsignedControlEnvelopeFields v1 = Ok e1 -> assertUnsignedControlEnvelopeFields v2 = Ok e2 ->
  canonicalizeJson (toCanonicalUnsignedEnvelope e1) controlOptions = Ok (canonText (toCanonicalUnsignedEnvelope e1)) ->
  canonicalizeJson (toCanonicalUnsignedEnvelope e2) controlOptions = Ok (canonText (toCanonicalUnsignedEnvelope e2)) ->
  sha256 (objectInput e1) = sha256 (objectInput e2) ->
  normalEnvelope e1 = normalEnvelope e2 \/ CollisionIn sha256 [objectInput e1; objectInput e2].
Proof.
  intros W1 W2 A1 A2 C1 C2 E.
  destruct (hash_inj_or sha256 [objectInput e1; objectInput e2] _ _ ltac:(left) ltac:(right; left) E) as [Ei|Hc]; [left|by right].
  exact (objectInput_inj _ _ _ _ W1 W2 A1 A2 C1 C2 Ei).
Qed.

(** C23: Equal object digests mean equal envelopes, in the type, the issuer, the
    signature suite with its evidence, and the payload up to the order of fields,
    unless sha256 collides on the two inputs that were hashed. *)
Theorem control_digest_binds v1 v2 e1 e2 d :
  wfJson v1 -> wfJson v2 -> assertUnsignedControlEnvelopeFields v1 = Ok e1 -> assertUnsignedControlEnvelopeFields v2 = Ok e2 ->
  computeControlObjectDigestHex sha256 v1 = Ok d -> computeControlObjectDigestHex sha256 v2 = Ok d ->
  normalEnvelope e1 = normalEnvelope e2 \/ CollisionIn sha256 [objectInput e1; objectInput e2].
Proof.
  intros W1 W2 A1 A2 D1 D2. destruct (unsigned_equiv _ _ W1 A1) as [_ P1], (unsigned_equiv _ _ W2 A2) as [_ P2].
  apply objectDigest_Ok in D1 as (f1 & F1 & b1 & B1 & E1), D2 as (f2 & F2 & b2 & B2 & E2). rewrite A1 in F1. rewrite A2 in F2. injection F1 as <-. injection F2 as <-. rewrite E1 in E2.
  apply afterFields_Ok in B1 as [C1 ->]; [|done]. apply afterFields_Ok in B2 as [C2 ->]; [|done]. apply lowerHex_inj in E2.
  exact (digest_binds _ _ _ _ W1 W2 A1 A2 C1 C2 E2).
Qed.

(** ** Signed envelopes *)

Lemma validate_Ok v s b :
  wfJson v -> validateSignedControlEnvelope sha256 v = Ok (s, b) <->
  assertSignedControlEnvelopeFields v = Ok s /\
  canonicalizeJson (toCanonicalUnsignedEnvelope (unsignedEnvelope s)) controlOptions = Ok (canonText (toCanonicalUnsignedEnvelope (unsignedEnvelope s))) /\
  canonicalizeJson (toCanonicalSignedEnvelope s) controlOptions = Ok (canonText (toCanonicalSignedEnvelope s)) /\
  b = encodeUtf8 (canonText (toCanonicalSignedEnvelope s)) /\
  objectDigest s = lowerHex (sha256 (objectInput (unsignedEnvelope s))).
Proof.
  intros Hw. unfold validateSignedControlEnvelope. split.
  - intros H. apply result_bind_Ok in H as (s' & Hs & H). destruct (signed_equiv _ _ Hw Hs) as [_ Hp].
    apply result_bind_Ok in H as (ub & Hu & H). apply (afterFields_Ok _ _ Hp) in Hu as [Hu ->].
    apply result_bind_Ok in H as (b' & Hb%mapErr_Ok & H). apply (canonicalBytes_Ok _ _ _ (toCanonicalSigned_wf _ Hp)) in Hb as [Hb ->].
    apply throw_if_Ok in H as [Hd%negb_false_iff%bool_decide_eq_true [= <- <-]]. done.
  - intros (Hs & Hu & Hb & -> & Hd). destruct (signed_equiv _ _ Hw Hs) as [_ Hp]. rewrite Hs. cbn [result_bind].
    rewrite (proj2 (afterFields_Ok _ _ Hp) (conj Hu eq_refl)). cbn [result_bind].
    rewrite (proj2 (canonicalBytes_Ok _ _ _ (toCanonicalSigned_wf _ Hp)) (conj Hb eq_refl)). cbn [result_bind mapErr].
    by rewrite bool_decide_eq_true_2.
Qed.

(** The checks of the normal envelope have the same result. *)
Lemma validate_normal v s b w :
  wfJson v -> wfJson w -> validateSignedControlEnvelope sha256 v = Ok (s, b) -> assertSignedControlEnvelopeFields w = Ok (normalSigned s) ->
  validateSignedControlEnvelope sha256 w = Ok (normalSigned s, b).
Proof.
  intros Hw Ww (Hs & Hu & Hb & -> & Hd)%validate_Ok Hn; [|done]. destruct (signed_equiv _ _ Hw Hs) as [_ Hp]. apply validate_Ok; [done|].
  assert (wfJson (payload (unsignedEnvelope (normalSigned s)))) as Hpn by (by apply normal_wf).
  pose proof (toCanonicalUnsigned_wf _ Hp) as U1. pose proof (toCanonicalUnsigned_wf _ Hpn) as U2.
  pose proof (toCanonicalSigned_wf _ Hp) as S1. pose proof (toCanonicalSigned_wf _ Hpn) as S2.
  assert (jsonEquiv (toCanonicalUnsignedEnvelope (unsignedEnvelope s)) (toCanonicalUnsignedEnvelope (unsignedEnvelope (normalSigned s)))) as EU
    by (symmetry; by apply normalEnvelope_equiv).
  assert (jsonEquiv (toCanonicalSignedEnvelope s) (toCanonicalSignedEnvelope (normalSigned s))) as ES by (symmetry; by apply normalSigned_equiv).
  pose proof (canonicalize_equiv _ _ _ _ U1 U2 EU Hu) as Hu'. pose proof (canonicalize_equiv _ _ _ _ S1 S2 ES Hb) as Hb'.
  unfold objectInput in *. rewrite <- (canonText_equiv _ _ U1 U2 EU), <- (canonText_equiv _ _ S1 S2 ES) in *. split_and!; done.
Qed.

(** A signed envelope reads back from its canonical bytes. *)
Lemma signed_reads v s b :
  wfJson v -> validateSignedControlEnvelope sha256 v = Ok (s, b) ->
  parseCanonicalSignedControlEnvelope sha256 (BytesInput b) defaultOptions = Ok (normalSigned s) /\
  validateSignedControlEnvelope sha256 (toCanonicalSignedEnvelope (normalSigned s)) = Ok (normalSigned s, b).
Proof.
  intros Hw Hv. pose proof Hv as (Hs & Hu & Hb & -> & Hd)%validate_Ok; [|done]. destruct (signed_equiv _ _ Hw Hs) as [_ Hp].
  pose proof (toCanonicalSigned_wf _ Hp) as S1. pose proof (signed_complete _ _ Hw Hs) as Hc. pose proof (signed_normal _ _ S1 Hc) as Hn.
  pose proof (validate_normal _ _ _ _ Hw (normal_wf _ S1) Hv Hn) as Hvn.
  split; [|apply (validate_normal v); [done| |done|]].
  - unfold parseCanonicalSignedControlEnvelope, assertSignedControlEnvelope.
    rewrite (canonical_reads _ defaultOptions _ _ S1 Hb (or_intror eq_refl)). cbn [mapErr result_bind]. by rewrite Hvn.
  - apply toCanonicalSigned_wf. by apply normal_wf.
  - exact (signed_complete _ _ (normal_wf _ S1) Hn).
Qed.

(** ** Signature variants *)

Definition validVariant (d sg : jsstr) : Prop :=
  assertCanonicalDigest (JString d) = Ok tt /\ assertCanonicalHexBytes (JString sg) 1 MAX_EIP1271_SIGNATURE_BYTES = Ok tt.

Definition variantObject (d sg : jsstr) : Json := JObject [(js "objectDigest", JString d); (js "signature", JString sg)].

Definition variantInput (d sg : jsstr) : bytes :=
  controlPreimage CONTROL_SIGNATURE_VARIANT_DIGEST_DOMAIN (encodeUtf8 (canonText (variantObject d sg))).

Definition variantOf (d sg : jsstr) : ControlObjectSignatureVariantV1 :=
  {| variantObjectDigest := d; signatureVariantDigest := lowerHex (sha256 (variantInput d sg)); variantSignature := sg |}.

Lemma variantObject_reads d sg :
  validVariant d sg -> wfJson (variantObject d sg) /\
  canonicalizeJson (variantObject d sg) controlOptions = Ok (canonText (variantObject d sg)).
Proof.
  assert (0 < MAX_CONTROL_OBJECT_BYTES <= MAX_CANONICAL_JSON_BYTES) as Hl by done.
  assert (0 <= MAX_CONTROL_OBJECT_DEPTH <= MAX_CANONICAL_JSON_DEPTH) as Hd by done.
  intros [Ad As].
  assert (wfJson (variantObject d sg)) as Hw.
  { apply wfJson_object. split; [apply (bool_decide_unpack _); vm_compute; exact I|]. repeat (apply Forall_cons; split; [exact I|]). by apply Forall_nil. }
  assert (boundedValue (objectBound [js "objectDigest"; js "signature"] [68; 8196]) (1 + 0) (variantObject d sg)) as Hb.
  { apply (bounded_object _ [JString d; JString sg]); [reflexivity|reflexivity|lia| |reflexivity].
    apply List.Forall2_cons; [apply (bounded_string 66); [exact (digest_short _ _ Ad)|lia]|].
    apply List.Forall2_cons; [apply (bounded_string 8194); [exact (hexBytes_short _ _ _ _ As)|lia]|constructor]. }
  split; [exact Hw|].
  pose proof (bounded_fits _ _ _ MAX_CONTROL_OBJECT_BYTES MAX_CONTROL_OBJECT_DEPTH Hb ltac:(vm_compute; discriminate) ltac:(vm_compute; discriminate)) as Hf.
  exact (proj1 (wire_reads _ _ _ (TextInput (canonText (variantObject d sg))) Hw Hl Hd Hf (or_introl eq_refl))).
Qed.

Lemma variantDigest_Ok d sg :
  validVariant d sg -> computeControlSignatureVariantDigestHex sha256 d sg = Ok (lowerHex (sha256 (variantInput d sg))).
Proof.
  intros Hv. destruct (variantObject_reads _ _ Hv) as [Hw Hc]. destruct Hv as [Ad As].
  unfold computeControlSignatureVariantDigestHex, computeControlSignatureVariantDigest. rewrite Ad, As. cbn [mapErr result_bind].
  fold (variantObject d sg). unfold canonicalizeJsonBytes. rewrite Hc. cbn [mapErr result_bind].
  unfold controlDigest, variantInput. reflexivity.
Qed.

Lemma variantJson_wf v : wfJson (variantJson v).
Proof.
  apply wfJson_object. split; [apply (bool_decide_unpack _); vm_compute; exact I|]. repeat (apply Forall_cons; split; [exact I|]). by apply Forall_nil.
Qed.

Lemma variantJson_text v :
  validVariant (variantObjectDigest v) (variantSignature v) -> assertCanonicalDigest (JString (signatureVariantDigest v)) = Ok tt ->
  canonicalizeJson (variantJson v) variantOptions = Ok (canonText (variantJson v)) /\
  parseCanonicalJson (BytesInput (encodeUtf8 (canonText (variantJson v)))) (tightenLimits MAX_CONTROL_SIGNATURE_VARIANT_BYTES 1 defaultOptions) = Ok (variantJson v).
Proof.
  assert (0 < MAX_CONTROL_SIGNATURE_VARIANT_BYTES <= MAX_CANONICAL_JSON_BYTES) as Hl by done.
  assert (0 <= 1 <= MAX_CANONICAL_JSON_DEPTH) as Hd by done.
  intros [Ad As] Av. pose proof (variantJson_wf v) as Hw.
  assert (boundedValue (objectBound variantKeys [68; 8196; 68]) (1 + 0) (variantJson v)) as Hb.
  { apply (bounded_object _ [JString (variantObjectDigest v); JString (variantSignature v); JString (signatureVariantDigest v)]);
      [reflexivity|reflexivity|lia| |reflexivity].
    apply List.Forall2_cons; [apply (bounded_string 66); [exact (digest_short _ _ Ad)|lia]|].
    apply List.Forall2_cons; [apply (bounded_string 8194); [exact (hexBytes_short _ _ _ _ As)|lia]|].
    apply List.Forall2_cons; [apply (bounded_string 66); [exact (digest_short _ _ Av)|lia]|constructor]. }
  pose proof (bounded_fits _ _ _ MAX_CONTROL_SIGNATURE_VARIANT_BYTES 1 Hb ltac:(vm_compute; discriminate) ltac:(lia)) as Hf.
  destruct (wire_reads _ _ _ (BytesInput (encodeUtf8 (canonText (variantJson v)))) Hw Hl Hd Hf (or_intror eq_refl)) as (Hc & _ & Hr).
  split; [exact Hc|]. rewrite Hr. reflexivity.
Qed.

Lemma scalarText_intro {A} (assert : Json -> sresult A) s u : assert (JString s) = Ok u -> scalarText assert (Some (JString s)) = Ok s.
Proof. intros H. unfold scalarText. cbn [default from_option id]. by rewrite H. Qed.

Lemma sha256_digest x : length (sha256 x) = 32%nat -> assertCanonicalDigest (JString (lowerHex (sha256 x))) = Ok tt.
Proof. intros Hl. cbn [assertCanonicalDigest]. by rewrite canonicalDigest_bytes, bool_decide_eq_true_2. Qed.

(** A variant with its digest is accepted, and read back. *)
Lemma variant_reads d sg :
  (forall x, length (sha256 x) = 32%nat) -> validVariant d sg ->
  let v := variantOf d sg in let b := encodeUtf8 (canonText (variantJson v)) in
  validateControlSignatureVariant sha256 (variantJson v) = Ok (v, b) /\
  parseCanonicalControlSignatureVariant sha256 (BytesInput b) defaultOptions = Ok v.
Proof.
  intros Hlen Hv v b. pose proof (sha256_digest _ (Hlen (variantInput d sg))) as Av. destruct (variantJson_text v Hv Av) as [Hc Hr].
  assert (validateControlSignatureVariant sha256 (variantJson v) = Ok (v, b)) as Hval.
  { unfold validateControlSignatureVariant.
    replace (isPlainRecord (variantJson v)) with (Some [(js "objectDigest", JString d); (js "signature", JString sg);
      (js "signatureVariantDigest", JString (lowerHex (sha256 (variantInput d sg))))]) by reflexivity.
    change (assertExactKeys _ variantKeys) with true. cbn [negb throw_if].
    change (field (js "signatureVariantDigest") _) with (Some (JString (lowerHex (sha256 (variantInput d sg))))).
    change (field (js "objectDigest") _) with (Some (JString d)). change (field (js "signature") _) with (Some (JString sg)).
    pose proof (variantDigest_Ok _ _ Hv) as Hcd. destruct Hv as [Ad As]. rewrite (scalarText_intro _ _ _ Av), (scalarText_intro _ _ _ Ad).
    rewrite (scalarText_intro (fun v => assertCanonicalHexBytes v 1 MAX_EIP1271_SIGNATURE_BYTES) _ _ As). cbn [result_bind].
    unfold assertControlSignatureVariantDigest. rewrite Av, Hcd. cbn [mapErr result_bind]. rewrite bool_decide_eq_true_2 by done. cbn [negb throw_if result_bind].
    fold (variantOf d sg). fold v. unfold canonicalizeJsonBytes. rewrite Hc. cbn [mapErr result_bind]. reflexivity. }
  split; [exact Hval|]. unfold parseCanonicalControlSignatureVariant. unfold b at 1. rewrite Hr. cbn [mapErr result_bind]. by rewrite Hval.
Qed.

Lemma signed_variant v s : assertSignedControlEnvelopeFields v = Ok s -> validVariant (objectDigest s) (signature s).
Proof.
  intros H. destruct v as [| | | | |fs]; try done. cbn [assertSignedControlEnvelopeFields isPlainRecord] in H. ok_inv. subst s.
  apply scalarText_Ok in H2 as [_ [[] Hd]]. split; [exact Hd|]. cbn [signature]. unfold assertSignatureForSuite in H3.
  destruct (signatureSuite x); apply scalarText_Ok in H3 as [_ [[] Hs]]; [|exact Hs]. revert Hs. by apply hexBytes_widen.
Qed.

(** ** Cache records *)

(** What splitting an accepted envelope makes. *)
Definition splitOf (s : SignedControlEnvelopeV1) : SplitCanonicalSignedControlEnvelopeV1 :=
  let variant := variantOf (objectDigest s) (signature s) in
  {| splitEnvelope := normalSigned s; splitVariant := variant;
     unsignedEnvelopeBytes := encodeUtf8 (canonText (toCanonicalUnsignedEnvelope (unsignedEnvelope s)));
     signatureVariantBytes := encodeUtf8 (canonText (variantJson variant)) |}.

Lemma split_Ok v s b :
  (forall x, length (sha256 x) = 32%nat) -> wfJson v -> validateSignedControlEnvelope sha256 v = Ok (s, b) ->
  splitCanonicalSignedControlEnvelopeV1 sha256 v = Ok (splitOf s).
Proof.
  intros Hlen Hw Hv. destruct (signed_reads _ _ _ Hw Hv) as [Hr _]. pose proof Hv as (Hs & Hu & _)%validate_Ok; [|done].
  destruct (signed_equiv _ _ Hw Hs) as [_ Hp]. pose proof (signed_variant _ _ Hs) as Hvar.
  unfold splitCanonicalSignedControlEnvelopeV1. unfold canonicalizeSignedControlEnvelopeBytes at 1. rewrite Hv. cbn [result_bind]. rewrite Hr.
  cbn [result_bind normalSigned objectDigest signature unsignedEnvelope]. rewrite (variantDigest_Ok _ _ Hvar). cbn [result_bind].
  fold (variantOf (objectDigest s) (signature s)).
  assert (wfJson (payload (normalEnvelope (unsignedEnvelope s)))) as Hpn by (by apply normal_wf).
  assert (canonicalizeUnsignedControlEnvelopeBytes (toCanonicalUnsignedEnvelope (normalEnvelope (unsignedEnvelope s))) =
    Ok (encodeUtf8 (canonText (toCanonicalUnsignedEnvelope (unsignedEnvelope s))))) as ->.
  { unfold canonicalizeUnsignedControlEnvelopeBytes. destruct v as [| | | | |fs]; try done. cbn [assertSignedControlEnvelopeFields isPlainRecord] in Hs. ok_inv. subst s.
    cbn [unsignedEnvelope] in *. pose proof (unsigned_complete _ _ (extract_wf _ Hw) H0) as Hc.
    pose proof (unsigned_normal _ _ (toCanonicalUnsigned_wf _ Hp) Hc) as Hn.
    rewrite (unsigned_complete _ _ (normal_wf _ (toCanonicalUnsigned_wf _ Hp)) Hn). cbn [result_bind]. apply afterFields_normal; [done|].
    by apply afterFields_Ok. }
  cbn [result_bind]. unfold canonicalizeControlSignatureVariantBytes. rewrite (proj1 (variant_reads _ _ Hlen Hvar)). reflexivity.
Qed.

Lemma unsigned_reads v e :
  wfJson v -> assertUnsignedControlEnvelopeFields v = Ok e ->
  canonicalizeJson (toCanonicalUnsignedEnvelope e) controlOptions = Ok (canonText (toCanonicalUnsignedEnvelope e)) ->
  parseCanonicalUnsignedControlEnvelope (BytesInput (encodeUtf8 (canonText (toCanonicalUnsignedEnvelope e)))) defaultOptions = Ok (normalEnvelope e).
Proof.
  intros Hw Ha Hc. destruct (unsigned_equiv _ _ Hw Ha) as [_ Hp]. pose proof (toCanonicalUnsigned_wf _ Hp) as W.
  unfold parseCanonicalUnsignedControlEnvelope. rewrite (canonical_reads _ defaultOptions _ _ W Hc (or_intror eq_refl)). cbn [mapErr result_bind].
  exact (unsigned_normal _ _ W (unsigned_complete _ _ Hw Ha)).
Qed.

Lemma signed_unsigned v s :
  wfJson v -> assertSignedControlEnvelopeFields v = Ok s -> exists u, wfJson u /\ assertUnsignedControlEnvelopeFields u = Ok (unsignedEnvelope s).
Proof.
  intros Hw H. destruct v as [| | | | |fs]; try done. cbn [assertSignedControlEnvelopeFields isPlainRecord] in H. ok_inv. subst s.
  exists (extractUnsignedEnvelope fs). split; [by apply extract_wf|done].
Qed.

(** C25: A signed envelope that passes its checks splits into two cache records,
    and the records give the envelope back for its two digests. *)
Theorem cache_records_roundtrip v s b :
  (forall x, length (sha256 x) = 32%nat) -> wfJson v -> validateSignedControlEnvelope sha256 v = Ok (s, b) ->
  exists split, splitCanonicalSignedControlEnvelopeV1 sha256 v = Ok split /\ splitEnvelope split = normalSigned s /\
    recombineCanonicalSignedControlEnvelopeV1 sha256 (BytesInput (unsignedEnvelopeBytes split)) (BytesInput (signatureVariantBytes split))
      (objectDigest s) (signatureVariantDigest (splitVariant split)) = Ok (normalSigned s).
Proof.
  intros Hlen Hw Hv. exists (splitOf s). split; [exact (split_Ok _ _ _ Hlen Hw Hv)|]. split; [reflexivity|].
  destruct (signed_reads _ _ _ Hw Hv) as [Hr Hvn]. pose proof Hv as (Hs & Hu & _)%validate_Ok; [|done].
  pose proof (signed_variant _ _ Hs) as Hvar. destruct (signed_unsigned _ _ Hw Hs) as (u & Wu & Hun).
  unfold recombineCanonicalSignedControlEnvelopeV1. cbn [splitOf unsignedEnvelopeBytes signatureVariantBytes splitVariant variantOf signatureVariantDigest].
  fold (variantOf (objectDigest s) (signature s)).
  rewrite (proj1 Hvar), (sha256_digest _ (Hlen _)). cbn [mapErr result_bind]. rewrite (unsigned_reads _ _ Wu Hun Hu). cbn [result_bind].
  rewrite (proj2 (variant_reads _ _ Hlen Hvar)). cbn [result_bind variantOf variantObjectDigest signatureVariantDigest variantSignature].
  rewrite !bool_decide_eq_true_2 by reflexivity. cbn [negb orb throw_if].
  unfold canonicalizeSignedControlEnvelopeBytes. fold (normalSigned s). rewrite Hvn. cbn [result_bind]. exact Hr.
Qed.

(** *** Records that are accepted *)

Lemma canonical_bytes b options v :
  parseCanonicalJson (BytesInput b) options = Ok v -> wfJson v /\ b = encodeUtf8 (canonText v).
Proof.
  intros H. apply parseCanonicalJson_Ok in H as (bytes & depth & _ & (Hw & _) & _ & Ht). split; [done|].
  cbn in Ht. destruct (decodeUtf8 b) as [t|] eqn:E; [|done]. injection Ht as ->. by apply encode_decode in E as [_ ?].
Qed.

Lemma unsigned_record b options e :
  parseCanonicalUnsignedControlEnvelope (BytesInput b) options = Ok e ->
  wfJson (payload e) /\ b = encodeUtf8 (canonText (toCanonicalUnsignedEnvelope e)).
Proof.
  unfold parseCanonicalUnsignedControlEnvelope. intros (v & Hv%mapErr_Ok & Ha)%result_bind_Ok. apply canonical_bytes in Hv as [Hw ->].
  destruct (unsigned_equiv _ _ Hw Ha) as [Heq Hp]. split; [done|]. f_equal. apply canonText_equiv; [done|by apply toCanonicalUnsigned_wf|done].
Qed.

Lemma variantKeys_NoDup : NoDup variantKeys.
Proof. apply (bool_decide_unpack _). vm_compute. exact I. Qed.

Lemma variant_record b options v :
  parseCanonicalControlSignatureVariant sha256 (BytesInput b) options = Ok v ->
  validVariant (variantObjectDigest v) (variantSignature v) /\ v = variantOf (variantObjectDigest v) (variantSignature v) /\
  b = encodeUtf8 (canonText (variantJson v)).
Proof.
  unfold parseCanonicalControlSignatureVariant. intros (p & Hp%mapErr_Ok & H)%result_bind_Ok. apply canonical_bytes in Hp as [Hw ->].
  apply result_bind_Ok in H as ([v' b'] & H & [= <-]). destruct p as [| | | | |fs]; try done. unfold validateControlSignatureVariant in H.
  cbn [isPlainRecord] in H. apply throw_if_Ok in H as [Hk%negb_false_iff H]. apply result_bind_Ok in H as (c & [Hc _]%scalarText_Ok & H).
  apply result_bind_Ok in H as (d & [Hd [[] Ad]]%scalarText_Ok & H).
  apply result_bind_Ok in H as (sg & [Hs [[] As]]%(scalarText_Ok (fun v => assertCanonicalHexBytes v 1 MAX_EIP1271_SIGNATURE_BYTES)) & H).
  apply result_bind_Ok in H as ([] & Hv & H). apply result_bind_Ok in H as (b'' & _ & [= <- <-]).
  cbn [variantObjectDigest variantSignature]. assert (validVariant d sg) as Hval by done. split; [done|].
  unfold assertControlSignatureVariantDigest in Hv. apply result_bind_Ok in Hv as (u & _ & Hv). rewrite (variantDigest_Ok _ _ Hval) in Hv. cbn [result_bind] in Hv.
  apply throw_if_Ok in Hv as [->%negb_false_iff%bool_decide_eq_true _]. split; [reflexivity|]. f_equal.
  apply canonText_equiv; [done|apply variantJson_wf|]. apply wfJson_object in Hw as [Hnd _]. apply perm_equiv; [done|].
  apply (exact_equiv _ variantKeys [JString d; JString sg; JString (lowerHex (sha256 (variantInput d sg)))]); [done|apply variantKeys_NoDup|done|].
  unfold lookups, variantKeys. cbn [fmap list_fmap map]. by rewrite Hd, Hs, Hc.
Qed.

(** C16: The only cache records accepted for two digests are those that splitting
    the returned envelope makes, byte for byte, and its digests are the two. *)
Theorem cache_records_exact u w d vd s :
  (forall x, length (sha256 x) = 32%nat) ->
  recombineCanonicalSignedControlEnvelopeV1 sha256 (BytesInput u) (BytesInput w) d vd = Ok s ->
  exists split, splitCanonicalSignedControlEnvelopeV1 sha256 (toCanonicalSignedEnvelope s) = Ok split /\ splitEnvelope split = s /\
    unsignedEnvelopeBytes split = u /\ signatureVariantBytes split = w /\
    objectDigest s = d /\ signatureVariantDigest (splitVariant split) = vd.
Proof.
  intros Hlen H. unfold recombineCanonicalSignedControlEnvelopeV1 in H. do 2 apply result_bind_Ok in H as ([] & _ & H).
  apply result_bind_Ok in H as (e & [Hp ->]%unsigned_record & H). apply result_bind_Ok in H as (v & (Hv & Ev & ->)%variant_record & H).
  apply throw_if_Ok in H as [[Ed%negb_false_iff%bool_decide_eq_true Evd%negb_false_iff%bool_decide_eq_true]%orb_false_iff H].
  subst d vd.
  apply result_bind_Ok in H as (b & Hb & H). unfold canonicalizeSignedControlEnvelopeBytes in Hb. apply result_bind_Ok in Hb as ([t b'] & Hval & [= <-]).
  set (x := {| unsignedEnvelope := e; objectDigest := variantObjectDigest v; signature := variantSignature v |}) in *.
  assert (wfJson (toCanonicalSignedEnvelope x)) as Wx by (by apply toCanonicalSigned_wf).
  pose proof Hval as (Hs & _)%validate_Ok; [|done]. apply signed_of_object in Hs; [subst t|done].
  destruct (signed_reads _ _ _ Wx Hval) as [Hr Hvn]. rewrite Hr in H. injection H as <-.
  exists (splitOf (normalSigned x)). split; [eapply split_Ok; [done| |exact Hvn]; apply toCanonicalSigned_wf; by apply normal_wf|].
  split_and!; [by apply normalSigned_idempotent| | |reflexivity|]; cbn [splitOf unsignedEnvelopeBytes signatureVariantBytes splitVariant].
  - f_equal. apply canonText_equiv; [apply toCanonicalUnsigned_wf; by apply normal_wf|by apply toCanonicalUnsigned_wf|by apply normalEnvelope_equiv].
  - rewrite Ev. reflexivity.
  - rewrite Ev. reflexivity.
Qed.

End Digests.

(** ** Examples *)

(** A signature with r = s = 1 and v = 27. *)
Definition sampleSignature : jsstr := lowerHex (zeroBytes 31 ++ [Byte.x01] ++ zeroBytes 31 ++ [Byte.x01; Byte.x1b]).

(** A signed envelope with the digest of its object under [sampleHash]. *)
Definition sampleSigned (type : jsstr) (value : Json) : SignedControlEnvelopeV1 :=
  let unsigned := {| objectType := type; payload := value; issuer := lowerHex sampleAuthor; signatureSuite := Eip191 |} in
  {| unsignedEnvelope := unsigned; objectDigest := lowerHex (sampleHash (objectInput unsigned)); signature := sampleSignature |}.

Definition sampleFields : list (jsstr * Json) := [(js "era", JString (js "0")); (js "entries", JArray [JNull; JString (js "notes")])].

Definition sampleEnvelope (fields : list (jsstr * Json)) : SignedControlEnvelopeV1 := sampleSigned (js "dkg/example/v1") (JObject fields).

Definition sampleObject (fields : list (jsstr * Json)) : UnsignedControlEnvelopeV1 := unsignedEnvelope (sampleEnvelope fields).

Definition sampleSplit : SplitCanonicalSignedControlEnvelopeV1 := splitOf sampleHash (sampleEnvelope sampleFields).

(** The fields of the two payloads are in different orders. *)
Lemma control_digest_binds_witness :
  normalEnvelope (sampleObject sampleFields) = normalEnvelope (sampleObject (reverse sampleFields)) \/
  CollisionIn sampleHash [objectInput (sampleObject sampleFields); objectInput (sampleObject (reverse sampleFields))].
Proof.
  apply (control_digest_binds sampleHash (toCanonicalUnsignedEnvelope (sampleObject sampleFields))
    (toCanonicalUnsignedEnvelope (sampleObject (reverse sampleFields))) _ _ (objectDigest (sampleEnvelope sampleFields)));
    [apply uniqueKeys_wf|apply uniqueKeys_wf|..]; vm_compute; reflexivity.
Defined.

Lemma cache_records_roundtrip_witness :
  exists split, splitCanonicalSignedControlEnvelopeV1 sampleHash (toCanonicalSignedEnvelope (sampleEnvelope sampleFields)) = Ok split /\
    splitEnvelope split = normalSigned (sampleEnvelope sampleFields) /\
    recombineCanonicalSignedControlEnvelopeV1 sampleHash (BytesInput (unsignedEnvelopeBytes split)) (BytesInput (signatureVariantBytes split))
      (objectDigest (sampleEnvelope sampleFields)) (signatureVariantDigest (splitVariant split)) = Ok (normalSigned (sampleEnvelope sampleFields)).
Proof.
  apply (cache_records_roundtrip sampleHash _ _ (encodeUtf8 (canonText (toCanonicalSignedEnvelope (sampleEnvelope sampleFields)))));
    [exact sampleHash_length|apply uniqueKeys_wf; vm_compute; reflexivity|vm_compute; reflexivity].
Defined.

Lemma cache_records_exact_witness :
  exists split, splitCanonicalSignedControlEnvelopeV1 sampleHash (toCanonicalSignedEnvelope (normalSigned (sampleEnvelope sampleFields))) = Ok split /\
    splitEnvelope split = normalSigned (sampleEnvelope sampleFields) /\
    unsignedEnvelopeBytes split = unsignedEnvelopeBytes sampleSplit /\ signatureVariantBytes split = signatureVariantBytes sampleSplit /\
    objectDigest (normalSigned (sampleEnvelope sampleFields)) = objectDigest (sampleEnvelope sampleFields) /\
    signatureVariantDigest (splitVariant split) = signatureVariantDigest (splitVariant sampleSplit).
Proof. apply (cache_records_exact sampleHash); [exact sampleHash_length|vm_compute; reflexivity]. Defined.
