(* ===== verification/CatalogObjects.v ===== *)
(** * Buckets and heads of author catalogs

    packages/core/src/author-catalog-objects.ts: the two payloads, their scope
    bindings, the height of the directory, and their envelopes.  The checks that
    an array has no holes, accessors or extra properties hold of every [Json]. *)

From S2P Require Import Prelude Bytes Merkle CodePoints JsText JsNumber CanonicalJson CanonicalJsonTheory CanonicalJsonRoundtrip.
From S2P Require Import PlainJson WireScalars KaTransfer AuthorLane AuthorCatalog ControlObject.

Open Scope Z_scope.

Definition AUTHOR_CATALOG_BUCKET_OBJECT_TYPE_V1 : jsstr := js "AuthorCatalogBucketV1".
Definition AUTHOR_CATALOG_HEAD_OBJECT_TYPE_V1 : jsstr := js "AuthorCatalogHeadV1".
Definition MAX_AUTHOR_CATALOG_BUCKET_ROWS_V1 : Z := 1024.
Definition MAX_AUTHOR_CATALOG_BUCKET_PAYLOAD_BYTES_V1 : Z := 1024 * 1024.
Definition MAX_AUTHOR_CATALOG_HEAD_PAYLOAD_BYTES_V1 : Z := 4 * 1024.
Definition MAX_AUTHOR_CATALOG_DIRECTORY_HEIGHT_V1 : Z := 7.
Definition AUTHOR_CATALOG_DIRECTORY_FANOUT_V1 : Z := 256.
Definition ZERO_DIGEST32_V1 : jsstr := js "0x" ++ replicate 64 (fromCharCode 0x30).

Record AuthorCatalogBucketV1 := {
  bucketScopeDigest : jsstr;
  bucketEra : jsstr;
  bucketBucketCount : jsstr;
  bucketId : jsstr;
  rows : list AuthorCatalogRowV1
}.

(** Nine of the sixteen fields are the scope. *)
Record AuthorCatalogHeadV1 := {
  headScope : AuthorCatalogScopeV1;
  catalogIssuerDelegationDigest : jsstr;
  version : jsstr;
  previousHeadDigest : option jsstr;
  totalRows : jsstr;
  directoryHeight : jsstr;
  directoryRootDigest : jsstr;
  issuedAt : jsstr
}.

Inductive AuthorCatalogObjectCodecErrorCode :=
| ObjectSchema
| ObjectScalar
| ObjectType_
| ObjectArray
| ObjectRowOrder
| ObjectDuplicate
| ObjectBucketMapping
| ObjectScopeMismatch
| ObjectDirectoryHeight
| ObjectPayloadTooLarge.

(** An [AuthorCatalogObjectCodecError], or an error that passes through. *)
Inductive ObjectError :=
| EObject (code : AuthorCatalogObjectCodecErrorCode)
| EObjectCodec (e : CatalogError)
| EObjectControl (e : ControlError)
| EObjectJson (e : CanonicalJsonError)
| EObjectDigest (e : ScalarError).

Abbreviation bresult := (result ObjectError).

Definition assertObjectScalar {E A} (operation : Json -> result E A) (value : option Json) : bresult jsstr :=
  checkedText (EObject ObjectScalar) operation value.

(** The text and its value. *)
Definition assertObjectU64 (value : option Json) : bresult (jsstr * Z) :=
  match value with
  | Some (JString s) => let* n := rethrow (EObject ObjectScalar) (parseCanonicalDecimalU64 (JString s)) in Ok (s, n)
  | _ => Err (EObject ObjectScalar)
  end.

Definition bucketKeys : list jsstr := [js "bucketCount"; js "bucketId"; js "catalogScopeDigest"; js "era"; js "rows"].

Definition headKeys : list jsstr :=
  [js "authorAddress"; js "bucketCount"; js "catalogIssuerDelegationDigest"; js "contextGraphId"; js "directoryHeight";
   js "directoryRootDigest"; js "era"; js "governanceChainId"; js "governanceContractAddress"; js "issuedAt"; js "networkId";
   js "ownershipTransitionDigest"; js "previousHeadDigest"; js "subGraphName"; js "totalRows"; js "version"].

Definition headScopeKeys : list jsstr :=
  [js "networkId"; js "contextGraphId"; js "governanceChainId"; js "governanceContractAddress"; js "ownershipTransitionDigest";
   js "subGraphName"; js "authorAddress"; js "era"; js "bucketCount"].

Definition bucketOptions : CanonicalJsonOptions := {| maxBytes := Some MAX_AUTHOR_CATALOG_BUCKET_PAYLOAD_BYTES_V1; maxDepth := Some 4 |}.
Definition headOptions : CanonicalJsonOptions := {| maxBytes := Some MAX_AUTHOR_CATALOG_HEAD_PAYLOAD_BYTES_V1; maxDepth := Some 1 |}.

Definition assertDenseOrdinaryRowsArray (value : option Json) : bresult (list Json) :=
  match value with
  | Some (JArray rows) =>
      throw EObject ObjectArray when (js_length rows <? 1) || (MAX_AUTHOR_CATALOG_BUCKET_ROWS_V1 <? js_length rows);
      Ok rows
  | _ => Err (EObject ObjectArray)
  end.

Definition canonicalizeBucketAfterStructure (bucket : Json) : bresult jsstr :=
  rethrow (EObject ObjectPayloadTooLarge) (canonicalizeJson bucket bucketOptions).

Definition canonicalizeHeadAfterStructure (head : Json) : bresult jsstr :=
  rethrow (EObject ObjectPayloadTooLarge) (canonicalizeJson head headOptions).

Definition assertEnvelopeObjectType (actual expected : jsstr) : bresult unit :=
  throw EObject ObjectType_ when negb (bool_decide (actual = expected));
  Ok tt.

(** ** The height of the directory *)

(** [while (count > coveredBuckets) { coveredBuckets *= 256n; height += 1n; }]; a
    count is at most [256 ^ 8]. *)
Fixpoint directoryHeightLoop (fuel : nat) (count coveredBuckets height : Z) : Z :=
  match fuel with
  | O => height
  | S fuel' =>
      if coveredBuckets <? count
      then directoryHeightLoop fuel' count (coveredBuckets * AUTHOR_CATALOG_DIRECTORY_FANOUT_V1) (height + 1)
      else height
  end.

Definition computeAuthorCatalogDirectoryHeightV1 (bucketCount : jsstr) : bresult jsstr :=
  let* (_, count) := mapErr EObjectCodec (assertAuthorCatalogBucketCountV1 (Some (JString bucketCount))) in
  let height := directoryHeightLoop 9 count AUTHOR_CATALOG_DIRECTORY_FANOUT_V1 0 in
  throw EObject ObjectDirectoryHeight when MAX_AUTHOR_CATALOG_DIRECTORY_HEIGHT_V1 <? height;
  Ok (decimal height).

Section Objects.
Context (nfc : jsstr -> jsstr) (sha256 : bytes -> bytes).

(** ** Buckets *)

(** The sets and the previous row of the loop over the rows. *)
Record RowsSeen := {
  seenKaIds : list jsstr;
  seenKeyDigests : list jsstr;
  seenCoordinates : list jsstr;
  previousRow : option AuthorCatalogRowV1
}.

Definition noRowsSeen : RowsSeen := {| seenKaIds := []; seenKeyDigests := []; seenCoordinates := []; previousRow := None |}.

Definition assertBucketRow (bucketCount bucketId : jsstr) (seen : RowsSeen) (value : Json) : bresult (AuthorCatalogRowV1 * RowsSeen) :=
  let* row := mapErr EObjectCodec (assertAuthorCatalogRowV1 nfc value) in
  throw EObject ObjectDuplicate when bool_decide (kaId row ∈ seenKaIds seen);
  let* keyDigest := mapErr EObjectCodec (computeAuthorCatalogKeyDigestV1 sha256 (kaId row)) in
  throw EObject ObjectDuplicate when bool_decide (keyDigest ∈ seenKeyDigests seen);
  throw EObject ObjectDuplicate when bool_decide (assertionCoordinate row ∈ seenCoordinates seen);
  let* order := match previousRow seen with
                | Some previous => mapErr EObjectCodec (compareAuthorCatalogKaIdsV1 (kaId previous) (kaId row))
                | None => Ok (-1)
                end in
  throw EObject ObjectRowOrder when 0 <=? order;
  let* mapped := mapErr EObjectCodec (catalogKeyToBucketIdV1 sha256 (kaId row) bucketCount) in
  throw EObject ObjectBucketMapping when negb (bool_decide (mapped = bucketId));
  Ok (row, {| seenKaIds := kaId row :: seenKaIds seen; seenKeyDigests := keyDigest :: seenKeyDigests seen;
              seenCoordinates := assertionCoordinate row :: seenCoordinates seen; previousRow := Some row |}).

Fixpoint assertBucketRows (bucketCount bucketId : jsstr) (seen : RowsSeen) (values : list Json) : bresult (list AuthorCatalogRowV1) :=
  match values with
  | [] => Ok []
  | value :: rest =>
      let* (row, seen') := assertBucketRow bucketCount bucketId seen value in
      let* rows := assertBucketRows bucketCount bucketId seen' rest in
      Ok (row :: rows)
  end.

Definition assertAuthorCatalogBucketStructureV1 (bucket : Json) : bresult AuthorCatalogBucketV1 :=
  match isPlainRecord bucket with
  | None => Err (EObject ObjectSchema)
  | Some fields =>
      throw EObject ObjectSchema when negb (assertExactKeys fields bucketKeys);
      let get key := field (js key) fields in
      let* catalogScopeDigest := assertObjectScalar assertCanonicalDigest (get "catalogScopeDigest") in
      let* (era, _) := assertObjectU64 (get "era") in
      let* (bucketCount, count) := mapErr EObjectCodec (assertAuthorCatalogBucketCountV1 (get "bucketCount")) in
      let* (bucketId, id) := assertObjectU64 (get "bucketId") in
      throw EObject ObjectBucketMapping when count <=? id;
      let* values := assertDenseOrdinaryRowsArray (get "rows") in
      let* rows := assertBucketRows bucketCount bucketId noRowsSeen values in
      Ok {| bucketScopeDigest := catalogScopeDigest; bucketEra := era; bucketBucketCount := bucketCount; bucketId := bucketId; rows := rows |}
  end.

Definition assertAuthorCatalogBucketV1 (bucket : Json) : bresult AuthorCatalogBucketV1 :=
  let* b := assertAuthorCatalogBucketStructureV1 bucket in
  let* _ := canonicalizeBucketAfterStructure bucket in
  Ok b.

(** The values of [bucket.rows]. *)
Definition rowValues (bucket : Json) : list Json :=
  match bucket with
  | JObject fields => match field (js "rows") fields with Some (JArray values) => values | _ => [] end
  | _ => []
  end.

Fixpoint assertRowScopeBindings (values : list Json) (scope : Json) : bresult unit :=
  match values with
  | [] => Ok tt
  | value :: rest =>
      let* _ := mapErr EObjectCodec (assertAuthorCatalogRowScopeBindingV1 nfc value scope) in
      assertRowScopeBindings rest scope
  end.

Definition assertAuthorCatalogBucketScopeBindingV1 (bucket scope : Json) : bresult unit :=
  let* b := assertAuthorCatalogBucketV1 bucket in
  let* sc := mapErr EObjectCodec (assertAuthorCatalogScopeV1 nfc scope) in
  let* expectedScopeDigest := mapErr EObjectCodec (computeAuthorCatalogScopeDigestV1 nfc sha256 scope) in
  throw EObject ObjectScopeMismatch when negb (bool_decide (bucketScopeDigest b = expectedScopeDigest));
  throw EObject ObjectScopeMismatch when
    negb (bool_decide (bucketEra b = era (laneScope sc))) || negb (bool_decide (bucketBucketCount b = bucketCount sc));
  assertRowScopeBindings (rowValues bucket) scope.

Definition canonicalizeAuthorCatalogBucketPayloadV1 (bucket : Json) : bresult jsstr :=
  let* _ := assertAuthorCatalogBucketStructureV1 bucket in
  canonicalizeBucketAfterStructure bucket.

Definition canonicalizeAuthorCatalogBucketPayloadBytesV1 (bucket : Json) : bresult bytes :=
  let* _ := assertAuthorCatalogBucketStructureV1 bucket in
  let* text := canonicalizeBucketAfterStructure bucket in
  Ok (encodeUtf8 text).

Definition parseCanonicalAuthorCatalogBucketPayloadV1 (input : Input) (options : CanonicalJsonOptions) : bresult AuthorCatalogBucketV1 :=
  throw EObject ObjectPayloadTooLarge when oversizedWireInput input MAX_AUTHOR_CATALOG_BUCKET_PAYLOAD_BYTES_V1;
  let* parsed := mapErr EObjectJson (parseCanonicalJson input (tightenLimits MAX_AUTHOR_CATALOG_BUCKET_PAYLOAD_BYTES_V1 4 options)) in
  assertAuthorCatalogBucketV1 parsed.

(** ** Heads *)

(** The nine fields of the scope; [deriveScopeAfterHeadStructure]. *)
Definition headScopeObject (fields : list (jsstr * Json)) : Json :=
  JObject (map (fun key => (key, default JNull (field key fields))) headScopeKeys).

Definition assertHeadGovernance (chainId contractAddress : option Json) : bresult unit :=
  let chainIsNull := isNull chainId in
  let contractIsNull := isNull contractAddress in
  throw EObject ObjectSchema when xorb chainIsNull contractIsNull;
  if chainIsNull then Ok tt
  else
    let* _ := assertObjectScalar assertCanonicalChainId chainId in
    let* _ := assertObjectScalar assertCanonicalEvmAddress contractAddress in
    Ok tt.

(** The scope as an object and as a record. *)
Definition deriveScopeAfterHeadKeys (fields : list (jsstr * Json)) : bresult (Json * AuthorCatalogScopeV1) :=
  let get key := field (js key) fields in
  let* _ := checkedText (EObjectCodec (ECatalog CatalogIdentifier)) assertNetworkIdV1 (get "networkId") in
  let* _ := mapErr EObjectCodec (assertContextGraphIdV1 nfc (get "contextGraphId")) in
  let* _ := mapErr EObjectCodec (nullable (assertSubGraphNameV1 nfc) (get "subGraphName")) in
  let* _ := assertObjectScalar assertCanonicalEvmAddress (get "authorAddress") in
  let* _ := assertObjectU64 (get "era") in
  let* _ := mapErr EObjectCodec (assertAuthorCatalogBucketCountV1 (get "bucketCount")) in
  let* _ := assertHeadGovernance (get "governanceChainId") (get "governanceContractAddress") in
  let* _ := nullable (assertObjectScalar assertCanonicalDigest) (get "ownershipTransitionDigest") in
  let scope := headScopeObject fields in
  let* sc := mapErr EObjectCodec (assertAuthorCatalogScopeV1 nfc scope) in
  Ok (scope, sc).

Definition assertAuthorCatalogHeadStructureV1 (head : Json) : bresult AuthorCatalogHeadV1 :=
  match isPlainRecord head with
  | None => Err (EObject ObjectSchema)
  | Some fields =>
      throw EObject ObjectSchema when negb (assertExactKeys fields headKeys);
      let get key := field (js key) fields in
      let* (_, derivedScope) := deriveScopeAfterHeadKeys fields in
      let* delegationDigest := assertObjectScalar assertCanonicalDigest (get "catalogIssuerDelegationDigest") in
      let* (version, _) := assertObjectU64 (get "version") in
      let* previousHeadDigest := nullable (assertObjectScalar assertCanonicalDigest) (get "previousHeadDigest") in
      let* (totalRows, _) := assertObjectU64 (get "totalRows") in
      let* (directoryHeight, height) := assertObjectU64 (get "directoryHeight") in
      throw EObject ObjectDirectoryHeight when MAX_AUTHOR_CATALOG_DIRECTORY_HEIGHT_V1 <? height;
      let* expectedHeight := computeAuthorCatalogDirectoryHeightV1 (bucketCount derivedScope) in
      throw EObject ObjectDirectoryHeight when negb (bool_decide (directoryHeight = expectedHeight));
      let* directoryRootDigest := assertObjectScalar assertCanonicalDigest (get "directoryRootDigest") in
      throw EObject ObjectSchema when bool_decide (directoryRootDigest = ZERO_DIGEST32_V1);
      let* issuedAt := assertObjectScalar assertCanonicalTimestampMs (get "issuedAt") in
      Ok {| headScope := derivedScope; catalogIssuerDelegationDigest := delegationDigest; version := version;
            previousHeadDigest := previousHeadDigest; totalRows := totalRows; directoryHeight := directoryHeight;
            directoryRootDigest := directoryRootDigest; issuedAt := issuedAt |}
  end.

Definition assertAuthorCatalogHeadV1 (head : Json) : bresult AuthorCatalogHeadV1 :=
  let* h := assertAuthorCatalogHeadStructureV1 head in
  let* _ := canonicalizeHeadAfterStructure head in
  Ok h.

Definition deriveScopeAfterHeadStructure (head : Json) : Json :=
  match head with JObject fields => headScopeObject fields | _ => JNull end.

Definition deriveAuthorCatalogScopeFromHeadV1 (head : Json) : bresult Json :=
  let* _ := assertAuthorCatalogHeadV1 head in
  Ok (deriveScopeAfterHeadStructure head).

Definition assertAuthorCatalogHeadScopeBindingV1 (head expectedScope : Json) : bresult unit :=
  let* _ := assertAuthorCatalogHeadV1 head in
  let* _ := mapErr EObjectCodec (assertAuthorCatalogScopeV1 nfc expectedScope) in
  let derived := deriveScopeAfterHeadStructure head in
  let* derivedText := mapErr EObjectCodec (canonicalizeAuthorCatalogScopeV1 nfc derived) in
  let* expectedText := mapErr EObjectCodec (canonicalizeAuthorCatalogScopeV1 nfc expectedScope) in
  throw EObject ObjectScopeMismatch when negb (bool_decide (derivedText = expectedText));
  Ok tt.

Definition canonicalizeAuthorCatalogHeadPayloadV1 (head : Json) : bresult jsstr :=
  let* _ := assertAuthorCatalogHeadStructureV1 head in
  canonicalizeHeadAfterStructure head.

Definition canonicalizeAuthorCatalogHeadPayloadBytesV1 (head : Json) : bresult bytes :=
  let* _ := assertAuthorCatalogHeadStructureV1 head in
  let* text := canonicalizeHeadAfterStructure head in
  Ok (encodeUtf8 text).

Definition parseCanonicalAuthorCatalogHeadPayloadV1 (input : Input) (options : CanonicalJsonOptions) : bresult AuthorCatalogHeadV1 :=
  throw EObject ObjectPayloadTooLarge when oversizedWireInput input MAX_AUTHOR_CATALOG_HEAD_PAYLOAD_BYTES_V1;
  let* parsed := mapErr EObjectJson (parseCanonicalJson input (tightenLimits MAX_AUTHOR_CATALOG_HEAD_PAYLOAD_BYTES_V1 1 options)) in
  assertAuthorCatalogHeadV1 parsed.

(** ** Envelopes *)

(** An unsigned envelope with a payload of some type. *)
Definition assertUnsignedPayload {A} (type : jsstr) (assert : Json -> bresult A) (envelope : Json) : bresult (UnsignedControlEnvelopeV1 * A) :=
  let* _ := mapErr EObjectControl (assertUnsignedControlEnvelope envelope) in
  let* e := mapErr EObjectControl (assertUnsignedControlEnvelopeFields envelope) in
  let* _ := assertEnvelopeObjectType (objectType e) type in
  let* p := assert (payload e) in
  Ok (e, p).

Definition assertSignedPayload {A} (type : jsstr) (assert : Json -> bresult A) (envelope : Json) : bresult (SignedControlEnvelopeV1 * A) :=
  let* e := mapErr EObjectControl (assertSignedControlEnvelope sha256 envelope) in
  let* _ := assertEnvelopeObjectType (objectType (unsignedEnvelope e)) type in
  let* p := assert (payload (unsignedEnvelope e)) in
  Ok (e, p).

Definition assertUnsignedAuthorCatalogBucketEnvelopeV1 (envelope : Json) : bresult (UnsignedControlEnvelopeV1 * AuthorCatalogBucketV1) :=
  assertUnsignedPayload AUTHOR_CATALOG_BUCKET_OBJECT_TYPE_V1 assertAuthorCatalogBucketV1 envelope.

Definition assertSignedAuthorCatalogBucketEnvelopeV1 (envelope : Json) : bresult (SignedControlEnvelopeV1 * AuthorCatalogBucketV1) :=
  assertSignedPayload AUTHOR_CATALOG_BUCKET_OBJECT_TYPE_V1 assertAuthorCatalogBucketV1 envelope.

Definition assertUnsignedAuthorCatalogHeadEnvelopeV1 (envelope : Json) : bresult (UnsignedControlEnvelopeV1 * AuthorCatalogHeadV1) :=
  assertUnsignedPayload AUTHOR_CATALOG_HEAD_OBJECT_TYPE_V1 assertAuthorCatalogHeadV1 envelope.

Definition assertSignedAuthorCatalogHeadEnvelopeV1 (envelope : Json) : bresult (SignedControlEnvelopeV1 * AuthorCatalogHeadV1) :=
  assertSignedPayload AUTHOR_CATALOG_HEAD_OBJECT_TYPE_V1 assertAuthorCatalogHeadV1 envelope.

Definition canonicalizeUnsignedAuthorCatalogBucketEnvelopeBytesV1 (envelope : Json) : bresult bytes :=
  let* _ := assertUnsignedAuthorCatalogBucketEnvelopeV1 envelope in
  mapErr EObjectControl (canonicalizeUnsignedControlEnvelopeBytes envelope).

Definition canonicalizeSignedAuthorCatalogBucketEnvelopeBytesV1 (envelope : Json) : bresult bytes :=
  let* _ := assertSignedAuthorCatalogBucketEnvelopeV1 envelope in
  mapErr EObjectControl (canonicalizeSignedControlEnvelopeBytes sha256 envelope).

Definition canonicalizeUnsignedAuthorCatalogHeadEnvelopeBytesV1 (envelope : Json) : bresult bytes :=
  let* _ := assertUnsignedAuthorCatalogHeadEnvelopeV1 envelope in
  mapErr EObjectControl (canonicalizeUnsignedControlEnvelopeBytes envelope).

Definition canonicalizeSignedAuthorCatalogHeadEnvelopeBytesV1 (envelope : Json) : bresult bytes :=
  let* _ := assertSignedAuthorCatalogHeadEnvelopeV1 envelope in
  mapErr EObjectControl (canonicalizeSignedControlEnvelopeBytes sha256 envelope).

Definition computeAuthorCatalogBucketObjectDigestV1 (envelope : Json) : bresult jsstr :=
  let* _ := assertUnsignedAuthorCatalogBucketEnvelopeV1 envelope in
  let* digest := mapErr EObjectControl (computeControlObjectDigestHex sha256 envelope) in
  let* _ := mapErr EObjectDigest (assertCanonicalDigest (JString digest)) in
  Ok digest.

Definition computeAuthorCatalogHeadObjectDigestV1 (envelope : Json) : bresult jsstr :=
  let* _ := assertUnsignedAuthorCatalogHeadEnvelopeV1 envelope in
  let* digest := mapErr EObjectControl (computeControlObjectDigestHex sha256 envelope) in
  let* _ := mapErr EObjectDigest (assertCanonicalDigest (JString digest)) in
  Ok digest.

(** What a parsed envelope is asserted as. *)
Definition parseCanonicalUnsignedAuthorCatalogBucketEnvelopeV1 (input : Input) (options : CanonicalJsonOptions) : bresult (UnsignedControlEnvelopeV1 * AuthorCatalogBucketV1) :=
  let* e := mapErr EObjectControl (parseCanonicalUnsignedControlEnvelope input options) in
  assertUnsignedAuthorCatalogBucketEnvelopeV1 (toCanonicalUnsignedEnvelope e).

Definition parseCanonicalSignedAuthorCatalogBucketEnvelopeV1 (input : Input) (options : CanonicalJsonOptions) : bresult (SignedControlEnvelopeV1 * AuthorCatalogBucketV1) :=
  let* e := mapErr EObjectControl (parseCanonicalSignedControlEnvelope sha256 input options) in
  assertSignedAuthorCatalogBucketEnvelopeV1 (toCanonicalSignedEnvelope e).

Definition parseCanonicalUnsignedAuthorCatalogHeadEnvelopeV1 (input : Input) (options : CanonicalJsonOptions) : bresult (UnsignedControlEnvelopeV1 * AuthorCatalogHeadV1) :=
  let* e := mapErr EObjectControl (parseCanonicalUnsignedControlEnvelope input options) in
  assertUnsignedAuthorCatalogHeadEnvelopeV1 (toCanonicalUnsignedEnvelope e).

Definition parseCanonicalSignedAuthorCatalogHeadEnvelopeV1 (input : Input) (options : CanonicalJsonOptions) : bresult (SignedControlEnvelopeV1 * AuthorCatalogHeadV1) :=
  let* e := mapErr EObjectControl (parseCanonicalSignedControlEnvelope sha256 input options) in
  assertSignedAuthorCatalogHeadEnvelopeV1 (toCanonicalSignedEnvelope e).

End Objects.
