(* ===== verification/CatalogObjectsTheory.v ===== *)
(** * Accepted buckets and heads

    The height of the directory, what an accepted bucket holds, and that the
    checks of the two payloads do not see the order of fields. *)

From S2P Require Import Prelude Bytes Merkle CodePoints JsText JsNumber CanonicalJson CanonicalJsonTheory CanonicalJsonRoundtrip.
From S2P Require Import PlainJson WireScalars KaTransfer AuthorLane AuthorCatalog AuthorCatalogTheory AuthorCatalogRows AuthorCatalogSafety.
From S2P Require Import JsonEquiv ControlObject ControlObjectTheory ControlObjectSafety CatalogObjects.

Open Scope Z_scope.

(** ** The height of the directory *)

(** A count that [fuel] more levels cover gets the least height that covers it. *)
Lemma heightLoop_spec fuel count height :
  0 <= height -> (height = 0 \/ 256 ^ height < count) -> count <= 256 ^ (height + Z.of_nat fuel) ->
  let h := directoryHeightLoop fuel count (256 ^ (height + 1)) height in
  height <= h /\ count <= 256 ^ (h + 1) /\ (h = 0 \/ 256 ^ h < count).
Proof.
  revert height. induction fuel as [|fuel IH]; intros height Hh Hlow Hup; cbn [directoryHeightLoop].
  - rewrite Z.add_0_r in Hup. pose proof (Z.pow_le_mono_r 256 height (height + 1)). split_and!; [lia|lia|done].
  - unfold AUTHOR_CATALOG_DIRECTORY_FANOUT_V1. destruct (Z.ltb_spec (256 ^ (height + 1)) count) as [H|H]; [|split_and!; [lia|done|done]].
    replace (256 ^ (height + 1) * 256) with (256 ^ (height + 1 + 1)) by (rewrite (Z.pow_add_r 256 (height + 1) 1) by lia; lia).
    destruct (IH (height + 1)) as (H1 & H2 & H3); [lia|right; lia|by replace (height + 1 + Z.of_nat fuel) with (height + Z.of_nat (S fuel)) by lia|].
    split_and!; [lia|done|done].
Qed.

Definition heightOf (count : Z) : Z := directoryHeightLoop 9 count 256 0.

Lemma heightOf_spec k : 0 <= k <= 63 ->
  0 <= heightOf (2 ^ k) <= 7 /\ 2 ^ k <= 256 ^ (heightOf (2 ^ k) + 1) /\ (heightOf (2 ^ k) = 0 \/ 256 ^ heightOf (2 ^ k) < 2 ^ k).
Proof.
  intros Hk. unfold heightOf. assert (2 ^ k <= 2 ^ 63) as Hup by (apply Z.pow_le_mono_r; lia).
  destruct (heightLoop_spec 9 (2 ^ k) 0) as (H1 & H2 & H3); [lia|by left|etrans; [exact Hup|by vm_compute]|].
  change (256 ^ (0 + 1)) with 256 in *. set (h := directoryHeightLoop 9 (2 ^ k) 256 0) in *. clearbody h. split_and!; [done| |done|done].
  destruct H3 as [->|H3]; [lia|]. destruct (Z.le_gt_cases h 7) as [|Hgt]; [done|exfalso].
  assert (256 ^ 8 <= 256 ^ h) by (apply Z.pow_le_mono_r; lia). assert (2 ^ 63 < 256 ^ 8) by done. lia.
Qed.

Lemma computeHeight_Ok text h :
  computeAuthorCatalogDirectoryHeightV1 text = Ok h <->
  exists k, 0 <= k <= 63 /\ text = decimal (2 ^ k) /\ h = decimal (heightOf (2 ^ k)).
Proof.
  unfold computeAuthorCatalogDirectoryHeightV1. split.
  - intros H. apply result_bind_Ok in H as ([t n] & Ht%mapErr_Ok & H). apply bucketCount_Ok in Ht as ([= ->] & -> & k & Hk & ->).
    apply throw_if_Ok in H as [_ [= <-]]. exists k. done.
  - intros (k & Hk & -> & ->). rewrite (proj2 (bucketCount_Ok (Some (JString (decimal (2 ^ k)))) (decimal (2 ^ k)) (2 ^ k))) by eauto.
    cbn [mapErr result_bind].
    change (directoryHeightLoop 9 (2 ^ k) AUTHOR_CATALOG_DIRECTORY_FANOUT_V1 0) with (heightOf (2 ^ k)). destruct (heightOf_spec k Hk) as [Hh _].
    unfold MAX_AUTHOR_CATALOG_DIRECTORY_HEIGHT_V1. by rewrite (proj2 (Z.ltb_ge _ _)) by lia.
Qed.

(** ** The order of fields *)

#[export] Instance objectScalar_proper {E A} (operation : Json -> result E A) : Proper (optEquiv ==> eq) (assertObjectScalar operation).
Proof. by_kind. Qed.

#[export] Instance objectU64_proper : Proper (optEquiv ==> eq) assertObjectU64.
Proof. by_kind. Qed.

#[export] Instance headGovernance_proper : Proper (optEquiv ==> optEquiv ==> eq) assertHeadGovernance.
Proof.
  intros a b H1 c d H2. unfold assertHeadGovernance.
  by rewrite (isNull_proper _ _ H1), (isNull_proper _ _ H2), (objectScalar_proper _ _ _ H1), (objectScalar_proper _ _ _ H2).
Qed.

Lemma rowsArray_proper a b : optEquiv a b -> mapOk (map normal) (assertDenseOrdinaryRowsArray a) = mapOk (map normal) (assertDenseOrdinaryRowsArray b).
Proof.
  intros H. unfold optEquiv in H. destruct a as [[| | | |vs|]|], b as [[| | | |ws|]|]; try discriminate H; try reflexivity. injection H as H.
  cbn [assertDenseOrdinaryRowsArray]. rewrite !mapOk_throw. cbn [mapOk result_bind]. rewrite H. unfold js_length.
  by rewrite <- (length_map normal vs), H, length_map.
Qed.

Lemma headScope_proper fs gs : fieldsEquiv fs gs -> jsonEquiv (headScopeObject fs) (headScopeObject gs).
Proof.
  intros H. unfold jsonEquiv, headScopeObject. cbn [normal]. rewrite !map_map. do 2 f_equal. apply map_ext. intros k. f_equal.
  exact (default_proper _ _ (fieldsEquiv_field _ _ k H)).
Qed.

Section Objects.
Context (nfc : jsstr -> jsstr) (sha256 : bytes -> bytes).

Lemma assertBucketRows_proper count id seen vs ws :
  map normal vs = map normal ws -> assertBucketRows nfc sha256 count id seen vs = assertBucketRows nfc sha256 count id seen ws.
Proof.
  revert seen ws. induction vs as [|v vs IH]; intros seen [|w ws] H; [done|done|done|]. cbn [map] in H. injection H as Hv H. cbn [assertBucketRows].
  apply bind_cong; [|intros [row seen']; by rewrite (IH seen' ws)]. unfold assertBucketRow. by rewrite (row_proper nfc _ _ Hv).
Qed.

#[export] Instance bucketStructure_proper : Proper (jsonEquiv ==> eq) (assertAuthorCatalogBucketStructureV1 nfc sha256).
Proof.
  apply record_proper. intros fs gs H. cbv zeta. same_checks H.
  apply (bind_map_cong (map normal)); [apply rowsArray_proper, (fieldsEquiv_field _ _ _ H)|]. intros vs ws Hvw.
  apply bind_cong; [by apply assertBucketRows_proper|done].
Qed.

Lemma headScopeKeys_proper fs gs : fieldsEquiv fs gs -> mapOk snd (deriveScopeAfterHeadKeys nfc fs) = mapOk snd (deriveScopeAfterHeadKeys nfc gs).
Proof.
  intros H. unfold deriveScopeAfterHeadKeys. cbv zeta.
  rewrite !mapOk_bind. same_checks H.
  apply bind_cong; [f_equal; apply (scope_proper nfc), headScope_proper, H|done].
Qed.

#[export] Instance headStructure_proper : Proper (jsonEquiv ==> eq) (assertAuthorCatalogHeadStructureV1 nfc).
Proof.
  apply record_proper. intros fs gs H. cbv zeta. apply throw_cong; [same_check H|].
  apply (bind_map_cong snd); [by apply headScopeKeys_proper|]. intros [o sc] [o' sc'] E. cbn in E. subst sc'. same_checks H.
Qed.

(** ** Buckets *)

(** Rows in the order of their keys, with distinct coordinates, in one bucket. *)
Record goodRows (count id : jsstr) (rs : list AuthorCatalogRowV1) : Prop := {
  rowsIncreasing : StronglySorted Z.lt (map (fun r => bigIntOf (kaId r)) rs);
  rowsCoordinates : NoDup (map assertionCoordinate rs);
  rowsMapped : Forall (fun r => catalogKeyToBucketIdV1 sha256 (kaId r) count = Ok id) rs
}.

Lemma row_kaId v row : assertAuthorCatalogRowV1 nfc v = Ok row -> exists n, 0 <= n <= MAX_DECIMAL_U256 /\ kaId row = decimal n.
Proof.
  intros H. destruct v as [| | | | |fs]; try done. cbn [assertAuthorCatalogRowV1 isPlainRecord] in H. cbv zeta in H. apply throw_if_Ok in H as [_ H].
  apply result_bind_Ok in H as (ka & [_ Hk]%catalogScalar_Ok & H). assert (kaId row = ka) as ->.
  { do 2 apply result_bind_Ok in H as (? & _ & H). apply throw_if_Ok in H as [_ H]. do 3 apply result_bind_Ok in H as (? & _ & H).
    apply throw_if_Ok in H as [_ [= <-]]. done. }
  unfold assertCanonicalKaId, assertCanonicalDecimalU256, parseCanonicalDecimalU256 in Hk. apply result_bind_Ok in Hk as (n & Hn & _).
  apply parseDecimal_Ok in Hn as [Hn [= ->]]; [|done]. eauto.
Qed.

(** The rows after those seen. *)
Lemma assertBucketRows_Ok count id seen values rs :
  assertBucketRows nfc sha256 count id seen values = Ok rs ->
  (forall p, previousRow seen = Some p -> exists n, 0 <= n <= MAX_DECIMAL_U256 /\ kaId p = decimal n) ->
  Forall2 (fun v r => assertAuthorCatalogRowV1 nfc v = Ok r) values rs /\ goodRows count id rs /\
  Forall (fun r => (assertionCoordinate r ∉ seenCoordinates seen) /\
                   forall p, previousRow seen = Some p -> bigIntOf (kaId p) < bigIntOf (kaId r)) rs.
Proof.
  revert seen rs. induction values as [|v values IH]; intros seen rs H Hprev; cbn [assertBucketRows] in H.
  { injection H as <-. split_and!; [constructor| |constructor]. split; constructor. }
  apply result_bind_Ok in H as ([row seen'] & Hrow & H). apply result_bind_Ok in H as (rest & Hrest & [= <-]).
  unfold assertBucketRow in Hrow. apply result_bind_Ok in Hrow as (row' & Hr%mapErr_Ok & Hrow). apply throw_if_Ok in Hrow as [_ Hrow].
  apply result_bind_Ok in Hrow as (digest & _ & Hrow). apply throw_if_Ok in Hrow as [_ Hrow].
  apply throw_if_Ok in Hrow as [Hcoord%bool_decide_eq_false Hrow]. apply result_bind_Ok in Hrow as (order & Horder & Hrow).
  apply throw_if_Ok in Hrow as [Hneg%Z.leb_gt Hrow]. apply result_bind_Ok in Hrow as (mapped & Hm%mapErr_Ok & Hrow).
  apply throw_if_Ok in Hrow as [->%negb_false_iff%bool_decide_eq_true [= -> <-]]. destruct (row_kaId _ _ Hr) as (n & Hn & En).
  destruct (IH _ _ Hrest) as (Hall & [Hinc Hco Hmap] & Hlater); [intros p [= <-]; eauto|]. clear IH.
  cbn [seenCoordinates previousRow] in Hlater. rewrite Forall_forall in Hlater. split_and!.
  - apply List.Forall2_cons; [exact Hr|exact Hall].
  - clear Hn En Hr. split; cbn [map].
    + constructor; [exact Hinc|]. rewrite Forall_forall. intros x Hx. change (map ?f rest) with (f <$> rest) in Hx.
      apply list_elem_of_fmap in Hx as (r & -> & Hr'). exact (proj2 (Hlater r Hr') row eq_refl).
    + apply NoDup_cons. split; [|exact Hco]. change (map ?f rest) with (f <$> rest). rewrite list_elem_of_fmap. intros (r & Er & Hr').
      apply (proj1 (Hlater r Hr')). rewrite <- Er. left.
    + apply Forall_cons. split; [exact Hm|exact Hmap].
  - apply Forall_cons. assert (forall p, previousRow seen = Some p -> bigIntOf (kaId p) < bigIntOf (kaId row)) as Hp.
    { intros p Ep. rewrite Ep in Horder. apply mapErr_Ok in Horder. destruct (Hprev p Ep) as (m & Hm' & Em). rewrite Em, En in *.
      rewrite compareKaIds_Ok in Horder by done. injection Horder as <-. rewrite !bigIntOf_decimal by lia. lia. }
    split; [split; [exact Hcoord|exact Hp]|]. apply Forall_forall. intros r Hr'. destruct (Hlater r Hr') as [Hni Hlt]. split; [intros Hin; apply Hni; by right|].
    intros p Ep. specialize (Hp p Ep). specialize (Hlt row eq_refl). lia.
Qed.

Lemma rows_unique count id rs r1 r2 : goodRows count id rs -> r1 ∈ rs -> r2 ∈ rs -> kaId r1 = kaId r2 -> r1 = r2.
Proof.
  intros [Hs _ _] H1 H2 E. induction rs as [|r rs IH]; [by apply elem_of_nil in H1|]. cbn [map] in Hs. apply StronglySorted_inv in Hs as [Hs Hall].
  rewrite Forall_forall in Hall.
  assert (forall x, x ∈ rs -> kaId x <> kaId r) as Hne.
  { intros x Hx Ex. assert (bigIntOf (kaId x) ∈ map (fun r => bigIntOf (kaId r)) rs) as Hin by (apply list_elem_of_fmap; by exists x).
    specialize (Hall _ Hin). rewrite Ex in Hall. lia. }
  apply elem_of_cons in H1 as [->|H1], H2 as [->|H2]; [done|by destruct (Hne r2 H2)|by destruct (Hne r1 H1)|by apply IH].
Qed.

Lemma objectU64_Ok value s n : assertObjectU64 value = Ok (s, n) -> 0 <= n <= MAX_DECIMAL_U64 /\ s = decimal n /\ value = Some (JString s).
Proof.
  unfold assertObjectU64. destruct value as [[| | |t| |]|]; [done|done|done| |done|done|done]. intros H. apply result_bind_Ok in H as (m & H%rethrow_Ok & [= -> ->]).
  unfold parseCanonicalDecimalU64 in H. apply parseDecimal_Ok in H as [Hn E]; [|apply u64_nonneg]. injection E as ->. done.
Qed.

(** An accepted bucket, its bounds and its rows. *)
Lemma bucketStructure_Ok v b :
  assertAuthorCatalogBucketStructureV1 nfc sha256 v = Ok b ->
  (exists k id, 0 <= k <= 63 /\ bucketBucketCount b = decimal (2 ^ k) /\ bucketId b = decimal id /\ 0 <= id < 2 ^ k) /\
  1 <= js_length (rows b) <= MAX_AUTHOR_CATALOG_BUCKET_ROWS_V1 /\
  goodRows (bucketBucketCount b) (bucketId b) (rows b) /\
  Forall2 (fun v r => assertAuthorCatalogRowV1 nfc v = Ok r) (rowValues v) (rows b).
Proof.
  intros H. destruct v as [| | | | |fs]; try done. cbn [assertAuthorCatalogBucketStructureV1 isPlainRecord] in H. cbv zeta in H.
  apply throw_if_Ok in H as [_ H]. apply result_bind_Ok in H as (sd & _ & H). apply result_bind_Ok in H as ([era n] & _ & H).
  apply result_bind_Ok in H as ([countText count] & Hc%mapErr_Ok & H). apply bucketCount_Ok in Hc as (_ & -> & k & Hk & ->).
  apply result_bind_Ok in H as ([idText id] & Hid & H). apply objectU64_Ok in Hid as (Hid & -> & _).
  apply throw_if_Ok in H as [Hlt%Z.leb_gt H]. apply result_bind_Ok in H as (values & Hv & H).
  apply result_bind_Ok in H as (rs & Hrs & [= <-]). cbn [bucketBucketCount bucketId rows].
  apply assertBucketRows_Ok in Hrs as (Hall & Hgood & _); [|done]. split; [exists k, id; split_and!; [lia|lia|done|done|lia|lia]|].
  unfold rowValues. unfold assertDenseOrdinaryRowsArray in Hv. destruct (field (js "rows") fs) as [[| | | |vs|]|]; try done.
  apply throw_if_Ok in Hv as [[H1%Z.ltb_ge H2%Z.ltb_ge]%orb_false_iff [= ->]]. split_and!; [| |exact Hgood|exact Hall].
  all: unfold js_length in *; rewrite <- (Forall2_length _ _ _ Hall); lia.
Qed.

End Objects.
