(* ===== verification/CatalogDirectory.v ===== *)
(** * Directories of author catalogs

    packages/core/src/author-catalog-directory.ts: the nodes of the directory of
    buckets, the verification of a path from the root that a head names to the
    descriptor of one bucket, and the registry of the paths that were verified. *)

From S2P Require Import Prelude Bytes Merkle CodePoints JsText JsNumber CanonicalJson CanonicalJsonTheory CanonicalJsonRoundtrip.
From S2P Require Import PlainJson WireScalars KaTransfer AuthorLane AuthorCatalog ControlObject CatalogObjects.

Open Scope Z_scope.

Definition AUTHOR_CATALOG_DIRECTORY_NODE_OBJECT_TYPE_V1 : jsstr := js "AuthorCatalogDirectoryNodeV1".
Definition MAX_AUTHOR_CATALOG_DIRECTORY_ENTRIES_V1 : Z := 256.
Definition MAX_AUTHOR_CATALOG_DIRECTORY_PAYLOAD_BYTES_V1 : Z := 256 * 1024.
Definition MAX_AUTHOR_CATALOG_DIRECTORY_PATH_NODES_V1 : Z := 8.

Record AuthorCatalogBucketDescriptorV1 := {
  descriptorBucketId : jsstr;
  descriptorRowCount : jsstr;
  descriptorByteLength : jsstr;
  bucketDigest : jsstr
}.

Record AuthorCatalogChildDescriptorV1 := {
  childFirstBucketId : jsstr;
  bucketSpan : jsstr;
  childRowCount : jsstr;
  childByteLength : jsstr;
  childDigest : jsstr
}.

Inductive AuthorCatalogDirectoryEntryV1 :=
| BucketEntry (descriptor : AuthorCatalogBucketDescriptorV1)
| ChildEntry (descriptor : AuthorCatalogChildDescriptorV1).

Record AuthorCatalogDirectoryNodeV1 := {
  nodeScopeDigest : jsstr;
  nodeEra : jsstr;
  level : jsstr;
  firstBucketId : jsstr;
  entries : list AuthorCatalogDirectoryEntryV1
}.

Inductive AuthorCatalogDirectoryErrorCode :=
| DirectorySchema
| DirectoryScalar
| DirectoryType
| DirectoryArray
| DirectoryLayout
| DirectoryDescriptor
| DirectoryScopeMismatch
| DirectoryPayloadTooLarge
| DirectoryPath.

(** An [AuthorCatalogDirectoryError], or an error that passes through. *)
Inductive DirectoryError :=
| EDirectory (code : AuthorCatalogDirectoryErrorCode)
| EDirectoryObject (e : ObjectError)
| EDirectoryCodec (e : CatalogError)
| EDirectoryControl (e : ControlError)
| EDirectoryJson (e : CanonicalJsonError)
| EDirectoryDigest (e : ScalarError).

Abbreviation yresult := (result DirectoryError).

Record VerifiedAuthorCatalogDirectoryPathStateV1 := {
  headObjectDigest : jsstr;
  stateScopeDigest : jsstr;
  stateEra : jsstr;
  stateBucketCount : jsstr;
  stateRootDigest : jsstr;
  stateDescriptor : AuthorCatalogBucketDescriptorV1
}.

(** The entries of a path node have the type of its level. *)
Inductive PathEntries :=
| Branch (entries : list AuthorCatalogChildDescriptorV1)
| Leaf (entries : list AuthorCatalogBucketDescriptorV1).

Record NormalizedAuthorCatalogDirectoryPathNode := {
  pathEnvelope : SignedControlEnvelopeV1;
  pathPayload : Json;
  pathLevel : Z;
  pathFirstBucketId : Z;
  pathEntries : PathEntries
}.

Definition nodeOptions : CanonicalJsonOptions := {| maxBytes := Some MAX_AUTHOR_CATALOG_DIRECTORY_PAYLOAD_BYTES_V1; maxDepth := Some 3 |}.

(** ** Scalars and arrays *)

Definition assertDirectoryScalar {E A} (operation : Json -> result E A) (value : option Json) : yresult jsstr :=
  checkedText (EDirectory DirectoryScalar) operation value.

(** The text and its value. *)
Definition assertDirectoryU64 (value : option Json) : yresult (jsstr * Z) :=
  match value with
  | Some (JString s) => let* n := rethrow (EDirectory DirectoryScalar) (parseCanonicalDecimalU64 (JString s)) in Ok (s, n)
  | _ => Err (EDirectory DirectoryScalar)
  end.

Definition assertDenseOrdinaryArray (value : option Json) (minimumLength maximumLength : Z) (code : AuthorCatalogDirectoryErrorCode) : yresult (list Json) :=
  match value with
  | Some (JArray values) =>
      throw EDirectory code when (js_length values <? minimumLength) || (maximumLength <? js_length values);
      Ok values
  | _ => Err (EDirectory code)
  end.

Definition canonicalizeDirectoryNodeAfterStructure (node : Json) : yresult jsstr :=
  rethrow (EDirectory DirectoryPayloadTooLarge) (canonicalizeJson node nodeOptions).

(** The sum of the row counts from [total] on. *)
Fixpoint sumEntryRowsFrom (total : Z) (rowCounts : list jsstr) : yresult Z :=
  match rowCounts with
  | [] => Ok total
  | rowCount :: rest =>
      let total := total + bigIntOf rowCount in
      throw EDirectory DirectoryDescriptor when MAX_DECIMAL_U64 <? total;
      sumEntryRowsFrom total rest
  end.

Definition sumEntryRows (entries : PathEntries) : yresult Z :=
  sumEntryRowsFrom 0 match entries with
                     | Branch entries => map childRowCount entries
                     | Leaf entries => map descriptorRowCount entries
                     end.

(** [for (let index = 0n; index < exponent; index += 1n) value *= 256n] *)
Fixpoint directoryPowerLoop (iterations : nat) (value : Z) : Z :=
  match iterations with
  | O => value
  | S iterations' => directoryPowerLoop iterations' (value * AUTHOR_CATALOG_DIRECTORY_FANOUT_V1)
  end.

Definition directoryPower (exponent : Z) : Z := directoryPowerLoop (Z.to_nat exponent) 1.

(** ** Descriptors *)

Definition bucketDescriptorKeys : list jsstr := [js "bucketDigest"; js "bucketId"; js "byteLength"; js "rowCount"].

Definition childDescriptorKeys : list jsstr := [js "bucketSpan"; js "byteLength"; js "childDigest"; js "firstBucketId"; js "rowCount"].

(** The descriptor and its row count. *)
Definition assertBucketDescriptor (entry : Json) (expectedBucketId : Z) : yresult (AuthorCatalogBucketDescriptorV1 * Z) :=
  match isPlainRecord entry with
  | None => Err (EDirectory DirectoryDescriptor)
  | Some fields =>
      throw EDirectory DirectorySchema when negb (assertExactKeys fields bucketDescriptorKeys);
      let get key := field (js key) fields in
      let* (bucketIdText, bucketId) := assertDirectoryU64 (get "bucketId") in
      throw EDirectory DirectoryLayout when negb (bucketId =? expectedBucketId);
      let* (rowCountText, rowCount) := assertDirectoryU64 (get "rowCount") in
      let* (byteLengthText, byteLength) := assertDirectoryU64 (get "byteLength") in
      let* bucketDigest := assertDirectoryScalar assertCanonicalDigest (get "bucketDigest") in
      throw EDirectory DirectoryDescriptor when
        if rowCount =? 0 then negb (byteLength =? 0) || negb (bool_decide (bucketDigest = ZERO_DIGEST32_V1))
        else (MAX_AUTHOR_CATALOG_BUCKET_ROWS_V1 <? rowCount) || (byteLength <? 1)
             || (MAX_AUTHOR_CATALOG_BUCKET_PAYLOAD_BYTES_V1 <? byteLength) || bool_decide (bucketDigest = ZERO_DIGEST32_V1);
      Ok ({| descriptorBucketId := bucketIdText; descriptorRowCount := rowCountText; descriptorByteLength := byteLengthText;
             bucketDigest := bucketDigest |}, rowCount)
  end.

Definition assertChildDescriptor (entry : Json) (expectedFirstBucketId expectedBucketSpan : Z) : yresult (AuthorCatalogChildDescriptorV1 * Z) :=
  match isPlainRecord entry with
  | None => Err (EDirectory DirectoryDescriptor)
  | Some fields =>
      throw EDirectory DirectorySchema when negb (assertExactKeys fields childDescriptorKeys);
      let get key := field (js key) fields in
      let* (firstText, firstBucketId) := assertDirectoryU64 (get "firstBucketId") in
      let* (spanText, bucketSpan) := assertDirectoryU64 (get "bucketSpan") in
      throw EDirectory DirectoryLayout when negb (firstBucketId =? expectedFirstBucketId) || negb (bucketSpan =? expectedBucketSpan);
      let* (rowCountText, rowCount) := assertDirectoryU64 (get "rowCount") in
      let maximumRows := expectedBucketSpan * MAX_AUTHOR_CATALOG_BUCKET_ROWS_V1 in
      throw EDirectory DirectoryDescriptor when maximumRows <? rowCount;
      let* (byteLengthText, byteLength) := assertDirectoryU64 (get "byteLength") in
      throw EDirectory DirectoryDescriptor when (byteLength <? 1) || (MAX_AUTHOR_CATALOG_DIRECTORY_PAYLOAD_BYTES_V1 <? byteLength);
      let* childDigest := assertDirectoryScalar assertCanonicalDigest (get "childDigest") in
      throw EDirectory DirectoryDescriptor when bool_decide (childDigest = ZERO_DIGEST32_V1);
      Ok ({| childFirstBucketId := firstText; bucketSpan := spanText; childRowCount := rowCountText; childByteLength := byteLengthText;
             childDigest := childDigest |}, rowCount)
  end.

(** ** Nodes *)

Definition assertDirectoryEntry (bucketCount level firstBucketId entryIndex : Z) (entry : Json) : yresult (AuthorCatalogDirectoryEntryV1 * Z) :=
  let entryWidth := directoryPower level in
  let expectedFirst := firstBucketId + entryIndex * entryWidth in
  let expectedSpan := if bucketCount - expectedFirst <? entryWidth then bucketCount - expectedFirst else entryWidth in
  if level =? 0 then let* (descriptor, rowCount) := assertBucketDescriptor entry expectedFirst in Ok (BucketEntry descriptor, rowCount)
  else let* (descriptor, rowCount) := assertChildDescriptor entry expectedFirst expectedSpan in Ok (ChildEntry descriptor, rowCount).

Fixpoint assertDirectoryEntries (bucketCount level firstBucketId entryIndex rowCountSum : Z) (values : list Json) : yresult (list AuthorCatalogDirectoryEntryV1) :=
  match values with
  | [] => Ok []
  | value :: rest =>
      let* (entry, rowCount) := assertDirectoryEntry bucketCount level firstBucketId entryIndex value in
      let rowCountSum := rowCountSum + rowCount in
      throw EDirectory DirectoryDescriptor when MAX_DECIMAL_U64 <? rowCountSum;
      let* entries := assertDirectoryEntries bucketCount level firstBucketId (entryIndex + 1) rowCountSum rest in
      Ok (entry :: entries)
  end.

Definition nodeKeys : list jsstr := [js "catalogScopeDigest"; js "entries"; js "era"; js "firstBucketId"; js "level"].

Definition assertAuthorCatalogDirectoryNodeStructureV1 (node : Json) (bucketCountValue : jsstr) : yresult AuthorCatalogDirectoryNodeV1 :=
  let* (_, bucketCount) := mapErr EDirectoryCodec (assertAuthorCatalogBucketCountV1 (Some (JString bucketCountValue))) in
  match isPlainRecord node with
  | None => Err (EDirectory DirectorySchema)
  | Some fields =>
      throw EDirectory DirectorySchema when negb (assertExactKeys fields nodeKeys);
      let get key := field (js key) fields in
      let* catalogScopeDigest := assertDirectoryScalar assertCanonicalDigest (get "catalogScopeDigest") in
      let* (era, _) := assertDirectoryU64 (get "era") in
      let* (levelText, level) := assertDirectoryU64 (get "level") in
      let* maximumText := mapErr EDirectoryObject (computeAuthorCatalogDirectoryHeightV1 bucketCountValue) in
      let maximumLevel := bigIntOf maximumText in
      throw EDirectory DirectoryLayout when (MAX_AUTHOR_CATALOG_DIRECTORY_HEIGHT_V1 <? level) || (maximumLevel <? level);
      let* (firstText, firstBucketId) := assertDirectoryU64 (get "firstBucketId") in
      let nodeWidth := directoryPower (level + 1) in
      throw EDirectory DirectoryLayout when (bucketCount <=? firstBucketId) || negb (firstBucketId mod nodeWidth =? 0);
      let remainingBuckets := bucketCount - firstBucketId in
      let coverage := if remainingBuckets <? nodeWidth then remainingBuckets else nodeWidth in
      let entryWidth := directoryPower level in
      let expectedEntries := (coverage + entryWidth - 1) / entryWidth in
      let* values := assertDenseOrdinaryArray (get "entries") expectedEntries expectedEntries DirectoryArray in
      throw EDirectory DirectoryArray when MAX_AUTHOR_CATALOG_DIRECTORY_ENTRIES_V1 <? js_length values;
      let* entries := assertDirectoryEntries bucketCount level firstBucketId 0 0 values in
      Ok {| nodeScopeDigest := catalogScopeDigest; nodeEra := era; level := levelText; firstBucketId := firstText; entries := entries |}
  end.

Definition assertAuthorCatalogDirectoryNodeV1 (node : Json) (bucketCount : jsstr) : yresult AuthorCatalogDirectoryNodeV1 :=
  let* n := assertAuthorCatalogDirectoryNodeStructureV1 node bucketCount in
  let* _ := canonicalizeDirectoryNodeAfterStructure node in
  Ok n.

Definition canonicalizeAuthorCatalogDirectoryNodePayloadV1 (node : Json) (bucketCount : jsstr) : yresult jsstr :=
  let* _ := assertAuthorCatalogDirectoryNodeStructureV1 node bucketCount in
  canonicalizeDirectoryNodeAfterStructure node.

Definition canonicalizeAuthorCatalogDirectoryNodePayloadBytesV1 (node : Json) (bucketCount : jsstr) : yresult bytes :=
  let* _ := assertAuthorCatalogDirectoryNodeStructureV1 node bucketCount in
  let* text := canonicalizeDirectoryNodeAfterStructure node in
  Ok (encodeUtf8 text).

Definition parseCanonicalAuthorCatalogDirectoryNodePayloadV1 (input : Input) (bucketCount : jsstr) (options : CanonicalJsonOptions) : yresult AuthorCatalogDirectoryNodeV1 :=
  throw EDirectory DirectoryPayloadTooLarge when oversizedWireInput input MAX_AUTHOR_CATALOG_DIRECTORY_PAYLOAD_BYTES_V1;
  let* parsed := mapErr EDirectoryJson (parseCanonicalJson input (tightenLimits MAX_AUTHOR_CATALOG_DIRECTORY_PAYLOAD_BYTES_V1 3 options)) in
  assertAuthorCatalogDirectoryNodeV1 parsed bucketCount.

Definition assertNodeObjectType (actual : jsstr) : yresult unit :=
  throw EDirectory DirectoryType when negb (bool_decide (actual = AUTHOR_CATALOG_DIRECTORY_NODE_OBJECT_TYPE_V1));
  Ok tt.

Abbreviation pathDigest node := (objectDigest (pathEnvelope node)).

(** The weak map of verified paths: a capability is a new object for each path,
    here its position. *)
Abbreviation Capability := nat.
Abbreviation VerifiedPaths := (list VerifiedAuthorCatalogDirectoryPathStateV1).

Section Directory.
Context (nfc : jsstr -> jsstr) (sha256 : bytes -> bytes).

Definition assertAuthorCatalogDirectoryNodeScopeBindingV1 (node scope : Json) : yresult unit :=
  let* sc := mapErr EDirectoryCodec (assertAuthorCatalogScopeV1 nfc scope) in
  let* n := assertAuthorCatalogDirectoryNodeV1 node (bucketCount sc) in
  let* expected := mapErr EDirectoryCodec (computeAuthorCatalogScopeDigestV1 nfc sha256 scope) in
  throw EDirectory DirectoryScopeMismatch when negb (bool_decide (nodeScopeDigest n = expected));
  throw EDirectory DirectoryScopeMismatch when negb (bool_decide (nodeEra n = era (laneScope sc)));
  Ok tt.

(** ** Envelopes *)

Definition assertUnsignedAuthorCatalogDirectoryNodeEnvelopeV1 (envelope : Json) (bucketCount : jsstr) : yresult (UnsignedControlEnvelopeV1 * AuthorCatalogDirectoryNodeV1) :=
  let* _ := mapErr EDirectoryControl (assertUnsignedControlEnvelope envelope) in
  let* e := mapErr EDirectoryControl (assertUnsignedControlEnvelopeFields envelope) in
  let* _ := assertNodeObjectType (objectType e) in
  let* n := assertAuthorCatalogDirectoryNodeV1 (payload e) bucketCount in
  Ok (e, n).

Definition assertSignedAuthorCatalogDirectoryNodeEnvelopeV1 (envelope : Json) (bucketCount : jsstr) : yresult (SignedControlEnvelopeV1 * AuthorCatalogDirectoryNodeV1) :=
  let* e := mapErr EDirectoryControl (assertSignedControlEnvelope sha256 envelope) in
  let* _ := assertNodeObjectType (objectType (unsignedEnvelope e)) in
  let* n := assertAuthorCatalogDirectoryNodeV1 (payload (unsignedEnvelope e)) bucketCount in
  Ok (e, n).

Definition canonicalizeUnsignedAuthorCatalogDirectoryNodeEnvelopeBytesV1 (envelope : Json) (bucketCount : jsstr) : yresult bytes :=
  let* _ := assertUnsignedAuthorCatalogDirectoryNodeEnvelopeV1 envelope bucketCount in
  mapErr EDirectoryControl (canonicalizeUnsignedControlEnvelopeBytes envelope).

Definition canonicalizeSignedAuthorCatalogDirectoryNodeEnvelopeBytesV1 (envelope : Json) (bucketCount : jsstr) : yresult bytes :=
  let* _ := assertSignedAuthorCatalogDirectoryNodeEnvelopeV1 envelope bucketCount in
  mapErr EDirectoryControl (canonicalizeSignedControlEnvelopeBytes sha256 envelope).

Definition computeAuthorCatalogDirectoryNodeObjectDigestV1 (envelope : Json) (bucketCount : jsstr) : yresult jsstr :=
  let* _ := assertUnsignedAuthorCatalogDirectoryNodeEnvelopeV1 envelope bucketCount in
  let* digest := mapErr EDirectoryControl (computeControlObjectDigestHex sha256 envelope) in
  let* _ := mapErr EDirectoryDigest (assertCanonicalDigest (JString digest)) in
  Ok digest.

Definition parseCanonicalUnsignedAuthorCatalogDirectoryNodeEnvelopeV1 (input : Input) (bucketCount : jsstr) (options : CanonicalJsonOptions) : yresult (UnsignedControlEnvelopeV1 * AuthorCatalogDirectoryNodeV1) :=
  let* e := mapErr EDirectoryControl (parseCanonicalUnsignedControlEnvelope input options) in
  assertUnsignedAuthorCatalogDirectoryNodeEnvelopeV1 (toCanonicalUnsignedEnvelope e) bucketCount.

Definition parseCanonicalSignedAuthorCatalogDirectoryNodeEnvelopeV1 (input : Input) (bucketCount : jsstr) (options : CanonicalJsonOptions) : yresult (SignedControlEnvelopeV1 * AuthorCatalogDirectoryNodeV1) :=
  let* e := mapErr EDirectoryControl (parseCanonicalSignedControlEnvelope sha256 input options) in
  assertSignedAuthorCatalogDirectoryNodeEnvelopeV1 (toCanonicalSignedEnvelope e) bucketCount.

(** ** Paths *)

Fixpoint assertBucketDescriptorEntries (entries : list AuthorCatalogDirectoryEntryV1) : yresult (list AuthorCatalogBucketDescriptorV1) :=
  match entries with
  | [] => Ok []
  | BucketEntry descriptor :: rest => let* rest := assertBucketDescriptorEntries rest in Ok (descriptor :: rest)
  | ChildEntry _ :: _ => Err (EDirectory DirectoryPath)
  end.

Fixpoint assertChildDescriptorEntries (entries : list AuthorCatalogDirectoryEntryV1) : yresult (list AuthorCatalogChildDescriptorV1) :=
  match entries with
  | [] => Ok []
  | ChildEntry descriptor :: rest => let* rest := assertChildDescriptorEntries rest in Ok (descriptor :: rest)
  | BucketEntry _ :: _ => Err (EDirectory DirectoryPath)
  end.

(** [scope] has the bucket count [count]. *)
Definition normalizeAuthorCatalogDirectoryPathNode (value scope : Json) (count : jsstr) : yresult NormalizedAuthorCatalogDirectoryPathNode :=
  let* (envelope, node) := assertSignedAuthorCatalogDirectoryNodeEnvelopeV1 value count in
  let payload := payload (unsignedEnvelope envelope) in
  let* _ := assertAuthorCatalogDirectoryNodeScopeBindingV1 payload scope in
  let level := bigIntOf (level node) in
  let firstBucketId := bigIntOf (firstBucketId node) in
  let* pathEntries := if level =? 0 then let* entries := assertBucketDescriptorEntries (entries node) in Ok (Leaf entries)
                      else let* entries := assertChildDescriptorEntries (entries node) in Ok (Branch entries) in
  Ok {| pathEnvelope := envelope; pathPayload := payload; pathLevel := level; pathFirstBucketId := firstBucketId; pathEntries := pathEntries |}.

Fixpoint normalizeDirectoryPath (scope : Json) (count : jsstr) (expectedLevel : Z) (seenDigests : list jsstr) (path : list Json) : yresult (list NormalizedAuthorCatalogDirectoryPathNode) :=
  match path with
  | [] => Ok []
  | value :: rest =>
      let* node := normalizeAuthorCatalogDirectoryPathNode value scope count in
      throw EDirectory DirectoryPath when negb (pathLevel node =? expectedLevel);
      throw EDirectory DirectoryPath when bool_decide (pathDigest node ∈ seenDigests);
      let* nodes := normalizeDirectoryPath scope count (expectedLevel - 1) (pathDigest node :: seenDigests) rest in
      Ok (node :: nodes)
  end.

(** [current] selects [next] for the bucket. *)
Definition verifySelectedChild (count : jsstr) (bucketId : Z) (current next : NormalizedAuthorCatalogDirectoryPathNode) : yresult unit :=
  match pathEntries current with
  | Leaf _ => Err (EDirectory DirectoryPath)
  | Branch entries =>
      let childWidth := directoryPower (pathLevel current) in
      throw EDirectory DirectoryPath when bucketId <? pathFirstBucketId current;
      let selectedIndex := (bucketId - pathFirstBucketId current) / childWidth in
      match js_at entries selectedIndex with
      | None => Err (EDirectory DirectoryPath)
      | Some selected =>
          throw EDirectory DirectoryPath when negb (bool_decide (childDigest selected = pathDigest next));
          throw EDirectory DirectoryPath when negb (bool_decide (childFirstBucketId selected = decimal (pathFirstBucketId next)));
          let* nextPayloadBytes := canonicalizeAuthorCatalogDirectoryNodePayloadBytesV1 (pathPayload next) count in
          throw EDirectory DirectoryPath when negb (js_length nextPayloadBytes =? bigIntOf (childByteLength selected));
          let* sum := sumEntryRows (pathEntries next) in
          throw EDirectory DirectoryPath when negb (sum =? bigIntOf (childRowCount selected));
          Ok tt
      end
  end.

(** The pairs of consecutive nodes, and the last node. *)
Fixpoint verifySelectedChildren (count : jsstr) (bucketId : Z) (current : NormalizedAuthorCatalogDirectoryPathNode)
    (rest : list NormalizedAuthorCatalogDirectoryPathNode) : yresult NormalizedAuthorCatalogDirectoryPathNode :=
  match rest with
  | [] => Ok current
  | next :: rest' =>
      let* _ := verifySelectedChild count bucketId current next in
      verifySelectedChildren count bucketId next rest'
  end.

Definition selectLeafDescriptor (leaf : NormalizedAuthorCatalogDirectoryPathNode) (selectedBucketId : jsstr) (bucketId : Z) : yresult AuthorCatalogBucketDescriptorV1 :=
  match pathEntries leaf with
  | Branch _ => Err (EDirectory DirectoryPath)
  | Leaf entries =>
      throw EDirectory DirectoryPath when bucketId <? pathFirstBucketId leaf;
      match js_at entries (bucketId - pathFirstBucketId leaf) with
      | None => Err (EDirectory DirectoryPath)
      | Some descriptor =>
          throw EDirectory DirectoryPath when negb (bool_decide (descriptorBucketId descriptor = selectedBucketId));
          Ok descriptor
      end
  end.

(** The checks on the root, the selections and the leaf. *)
Definition verifyDirectoryNodes (head : AuthorCatalogHeadV1) (nodes : list NormalizedAuthorCatalogDirectoryPathNode)
    (selectedBucketId : jsstr) (bucketId : Z) : yresult AuthorCatalogBucketDescriptorV1 :=
  match nodes with
  | [] => Err (EDirectory DirectoryPath)
  | root :: rest =>
      throw EDirectory DirectoryPath when negb (bool_decide (pathDigest root = directoryRootDigest head));
      throw EDirectory DirectoryPath when negb (pathFirstBucketId root =? 0);
      let* sum := sumEntryRows (pathEntries root) in
      throw EDirectory DirectoryPath when negb (sum =? bigIntOf (totalRows head));
      let* leaf := verifySelectedChildren (bucketCount (headScope head)) bucketId root rest in
      selectLeafDescriptor leaf selectedBucketId bucketId
  end.

(** What is registered for a path. *)
Definition verifyPath (signedHead path selectedBucketId : Json) : yresult VerifiedAuthorCatalogDirectoryPathStateV1 :=
  let* (envelope, head) := mapErr EDirectoryObject (assertSignedAuthorCatalogHeadEnvelopeV1 nfc sha256 signedHead) in
  let* scope := mapErr EDirectoryObject (deriveAuthorCatalogScopeFromHeadV1 nfc (payload (unsignedEnvelope envelope))) in
  let* catalogScopeDigest := mapErr EDirectoryCodec (computeAuthorCatalogScopeDigestV1 nfc sha256 scope) in
  let count := bucketCount (headScope head) in
  let* (selectedText, bucketId) := assertDirectoryU64 (Some selectedBucketId) in
  throw EDirectory DirectoryPath when bigIntOf count <=? bucketId;
  let expectedHeight := bigIntOf (directoryHeight head) in
  let expectedPathLength := expectedHeight + 1 in
  let* path := assertDenseOrdinaryArray (Some path) expectedPathLength expectedPathLength DirectoryPath in
  throw EDirectory DirectoryPath when MAX_AUTHOR_CATALOG_DIRECTORY_PATH_NODES_V1 <? js_length path;
  let* nodes := normalizeDirectoryPath scope count expectedHeight [] path in
  let* descriptor := verifyDirectoryNodes head nodes selectedText bucketId in
  Ok {| headObjectDigest := objectDigest envelope; stateScopeDigest := catalogScopeDigest; stateEra := era (laneScope (headScope head));
        stateBucketCount := count; stateRootDigest := directoryRootDigest head; stateDescriptor := descriptor |}.

(** ** Capabilities *)

Definition verifyAuthorCatalogDirectoryPathV1 (registry : VerifiedPaths) (signedHead path selectedBucketId : Json) : yresult (Capability * VerifiedPaths) :=
  let* state := verifyPath signedHead path selectedBucketId in
  Ok (length registry, registry ++ [state]).

(** The state of the capability; [None] stands for any other value. *)
Definition assertVerifiedAuthorCatalogDirectoryPathForHeadV1 (registry : VerifiedPaths) (value : option Capability) (signedHead : Json) : yresult VerifiedAuthorCatalogDirectoryPathStateV1 :=
  match (capability ← value; registry !! capability) with
  | None => Err (EDirectory DirectoryPath)
  | Some state =>
      let* (envelope, head) := mapErr EDirectoryObject (assertSignedAuthorCatalogHeadEnvelopeV1 nfc sha256 signedHead) in
      let* scope := mapErr EDirectoryObject (deriveAuthorCatalogScopeFromHeadV1 nfc (payload (unsignedEnvelope envelope))) in
      let* catalogScopeDigest := mapErr EDirectoryCodec (computeAuthorCatalogScopeDigestV1 nfc sha256 scope) in
      throw EDirectory DirectoryPath when
        negb (bool_decide (headObjectDigest state = objectDigest envelope)) ||
        negb (bool_decide (stateScopeDigest state = catalogScopeDigest)) ||
        negb (bool_decide (stateEra state = era (laneScope (headScope head)))) ||
        negb (bool_decide (stateBucketCount state = bucketCount (headScope head))) ||
        negb (bool_decide (stateRootDigest state = directoryRootDigest head));
      Ok state
  end.

Definition readVerifiedAuthorCatalogBucketDescriptorV1 (registry : VerifiedPaths) (value : option Capability) (signedHead : Json) : yresult AuthorCatalogBucketDescriptorV1 :=
  let* state := assertVerifiedAuthorCatalogDirectoryPathForHeadV1 registry value signedHead in
  Ok (stateDescriptor state).

End Directory.
