(* ===== verification/CatalogDirectoryTheory.v ===== *)
(** * Verified paths of a directory

    The checks of nodes do not see the order of fields, the digest of a node binds
    what a path reads from it, and two paths that are verified for one bucket under
    one head lead to the same descriptor. *)

From S2P Require Import Prelude Bytes Merkle CodePoints JsText JsNumber CanonicalJson CanonicalJsonTheory CanonicalJsonRoundtrip.
From S2P Require Import PlainJson WireScalars KaTransfer AuthorLane AuthorCatalog AuthorCatalogTheory AuthorCatalogRows AuthorCatalogSafety.
From S2P Require Import JsonEquiv ControlObject ControlObjectTheory ControlObjectSafety CatalogObjects CatalogObjectsTheory CatalogDirectory.

Open Scope Z_scope.

(** ** The order of fields *)

#[export] Instance directoryScalar_proper {E A} (operation : Json -> result E A) : Proper (optEquiv ==> eq) (assertDirectoryScalar operation).
Proof. by_kind. Qed.

#[export] Instance directoryU64_proper : Proper (optEquiv ==> eq) assertDirectoryU64.
Proof. by_kind. Qed.

Lemma denseArray_proper a b lo hi code :
  optEquiv a b -> mapOk (map normal) (assertDenseOrdinaryArray a lo hi code) = mapOk (map normal) (assertDenseOrdinaryArray b lo hi code).
Proof.
  intros H. unfold optEquiv in H. destruct a as [[| | | |vs|]|], b as [[| | | |ws|]|]; try discriminate H; try reflexivity. injection H as H.
  cbn [assertDenseOrdinaryArray]. rewrite !mapOk_throw. cbn [mapOk result_bind]. rewrite H. unfold js_length.
  by rewrite <- (length_map normal vs), H, length_map.
Qed.

#[export] Instance bucketDescriptor_proper : Proper (jsonEquiv ==> eq ==> eq) assertBucketDescriptor.
Proof.
  intros v w Hvw id ? <-. revert v w Hvw. apply record_proper. intros fs gs H. cbv zeta. same_checks H.
Qed.

#[export] Instance childDescriptor_proper : Proper (jsonEquiv ==> eq ==> eq ==> eq) assertChildDescriptor.
Proof.
  intros v w Hvw first ? <- span ? <-. revert v w Hvw. apply record_proper. intros fs gs H. cbv zeta. same_checks H.
Qed.

Lemma directoryEntries_proper count level first index sum vs ws :
  map normal vs = map normal ws -> assertDirectoryEntries count level first index sum vs = assertDirectoryEntries count level first index sum ws.
Proof.
  revert index sum ws. induction vs as [|v vs IH]; intros index sum [|w ws] H; [done|done|done|]. cbn [map] in H. injection H as Hv H.
  cbn [assertDirectoryEntries]. assert (jsonEquiv v w) as E by done. apply bind_cong; [|intros [entry n]; by rewrite (IH _ _ ws H)].
  unfold assertDirectoryEntry. by rewrite (bucketDescriptor_proper _ _ E _ _ eq_refl), (childDescriptor_proper _ _ E _ _ eq_refl _ _ eq_refl).
Qed.

#[export] Instance nodeStructure_proper : Proper (jsonEquiv ==> eq ==> eq) assertAuthorCatalogDirectoryNodeStructureV1.
Proof.
  intros v w Hvw count ? <-. unfold assertAuthorCatalogDirectoryNodeStructureV1. apply bind_cong; [done|]. intros [text n].
  revert v w Hvw. apply record_proper. intros fs gs H. cbv zeta. same_checks H.
  apply (bind_map_cong (map normal)); [apply denseArray_proper, (fieldsEquiv_field _ _ _ H)|]. intros vs ws Hvw.
  assert (js_length vs = js_length ws) as -> by (unfold js_length; by rewrite <- (length_map normal vs), Hvw, length_map).
  apply throw_cong; [done|]. apply bind_cong; [by apply directoryEntries_proper|done].
Qed.

(** ** Envelopes with a digest *)

(** What is hashed for a signed envelope. *)
Definition envelopeInputs (v : Json) : list bytes :=
  match assertSignedControlEnvelopeFields v with Ok s => [objectInput (unsignedEnvelope s)] | Err _ => [] end.

Abbreviation pathInputs path := (flat_map envelopeInputs path).

Section Paths.
Context (nfc : jsstr -> jsstr) (sha256 : bytes -> bytes).

Lemma assertSigned_Ok v s :
  assertSignedControlEnvelope sha256 v = Ok s -> exists b, validateSignedControlEnvelope sha256 v = Ok (s, b).
Proof. unfold assertSignedControlEnvelope. intros ([s' b] & H & [= <-])%result_bind_Ok. eauto. Qed.

Lemma signed_payload_wf v s : wfJson v -> assertSignedControlEnvelope sha256 v = Ok s -> wfJson (payload (unsignedEnvelope s)).
Proof. intros Hw [b H]%assertSigned_Ok. apply validate_Ok in H as [Ha _]; [|done]. exact (proj2 (signed_equiv _ _ Hw Ha)). Qed.

(** The digest of a signed envelope binds its payload. *)
Lemma signed_digest_binds v1 v2 s1 s2 :
  wfJson v1 -> wfJson v2 -> assertSignedControlEnvelope sha256 v1 = Ok s1 -> assertSignedControlEnvelope sha256 v2 = Ok s2 ->
  objectDigest s1 = objectDigest s2 ->
  jsonEquiv (payload (unsignedEnvelope s1)) (payload (unsignedEnvelope s2)) \/ CollisionIn sha256 (envelopeInputs v1 ++ envelopeInputs v2).
Proof.
  intros W1 W2 [b1 H1]%assertSigned_Ok [b2 H2]%assertSigned_Ok E. apply validate_Ok in H1 as (A1 & C1 & _ & _ & D1); [|done].
  apply validate_Ok in H2 as (A2 & C2 & _ & _ & D2); [|done]. rewrite D1, D2 in E. apply lowerHex_inj in E.
  destruct (signed_unsigned _ _ W1 A1) as (u1 & Wu1 & U1), (signed_unsigned _ _ W2 A2) as (u2 & Wu2 & U2).
  unfold envelopeInputs. rewrite A1, A2. destruct (digest_binds sha256 _ _ _ _ Wu1 Wu2 U1 U2 C1 C2 E) as [En|Hc]; [left|by right].
  exact (f_equal payload En).
Qed.

(** *** Path nodes *)

(** What a path reads from a node. *)
Definition sameNode (n1 n2 : NormalizedAuthorCatalogDirectoryPathNode) : Prop :=
  pathLevel n1 = pathLevel n2 /\ pathFirstBucketId n1 = pathFirstBucketId n2 /\ pathEntries n1 = pathEntries n2.

Lemma normalizeNode_Ok v scope count n :
  normalizeAuthorCatalogDirectoryPathNode nfc sha256 v scope count = Ok n ->
  exists node, assertSignedControlEnvelope sha256 v = Ok (pathEnvelope n) /\
    pathPayload n = payload (unsignedEnvelope (pathEnvelope n)) /\
    assertAuthorCatalogDirectoryNodeStructureV1 (pathPayload n) count = Ok node /\
    pathLevel n = bigIntOf (level node) /\ pathFirstBucketId n = bigIntOf (firstBucketId node) /\
    (if pathLevel n =? 0 then let* entries := assertBucketDescriptorEntries (entries node) in Ok (Leaf entries)
     else let* entries := assertChildDescriptorEntries (entries node) in Ok (Branch entries)) = Ok (pathEntries n).
Proof.
  unfold normalizeAuthorCatalogDirectoryPathNode. intros H. apply result_bind_Ok in H as ([e node] & He & H).
  apply result_bind_Ok in H as (u & _ & H). apply result_bind_Ok in H as (pe & Hpe & [= <-]). cbn [pathEnvelope pathPayload pathLevel pathFirstBucketId pathEntries].
  exists node. unfold assertSignedAuthorCatalogDirectoryNodeEnvelopeV1 in He. apply result_bind_Ok in He as (e' & He'%mapErr_Ok & He).
  apply result_bind_Ok in He as (u' & _ & He). apply result_bind_Ok in He as (node' & Hn & [= -> ->]).
  unfold assertAuthorCatalogDirectoryNodeV1 in Hn. apply result_bind_Ok in Hn as (n' & Hn & Ht). apply result_bind_Ok in Ht as (t & _ & [= ->]).
  split_and!; [exact He'|reflexivity|exact Hn|reflexivity|reflexivity|exact Hpe].
Qed.

Lemma node_digest_binds v1 v2 scope1 scope2 count n1 n2 :
  wfJson v1 -> wfJson v2 ->
  normalizeAuthorCatalogDirectoryPathNode nfc sha256 v1 scope1 count = Ok n1 ->
  normalizeAuthorCatalogDirectoryPathNode nfc sha256 v2 scope2 count = Ok n2 ->
  objectDigest (pathEnvelope n1) = objectDigest (pathEnvelope n2) ->
  sameNode n1 n2 \/ CollisionIn sha256 (envelopeInputs v1 ++ envelopeInputs v2).
Proof.
  intros W1 W2 (d1 & S1 & P1 & A1 & L1 & F1 & E1)%normalizeNode_Ok (d2 & S2 & P2 & A2 & L2 & F2 & E2)%normalizeNode_Ok E.
  destruct (signed_digest_binds _ _ _ _ W1 W2 S1 S2 E) as [Hp|Hc]; [left|by right].
  rewrite P1 in A1. rewrite P2 in A2. rewrite (nodeStructure_proper _ _ Hp _ _ eq_refl) in A1. rewrite A1 in A2. injection A2 as <-.
  assert (pathLevel n1 = pathLevel n2) as El by congruence. split_and!; [done|congruence|]. rewrite El in E1. rewrite E1 in E2. by injection E2.
Qed.

Lemma normalizePath_Ok scope count lvl seen path nodes :
  normalizeDirectoryPath nfc sha256 scope count lvl seen path = Ok nodes ->
  Forall2 (fun v n => normalizeAuthorCatalogDirectoryPathNode nfc sha256 v scope count = Ok n) path nodes.
Proof.
  revert lvl seen nodes. induction path as [|v path IH]; intros lvl seen nodes H; cbn [normalizeDirectoryPath] in H.
  - injection H as <-. constructor.
  - apply result_bind_Ok in H as (n & Hn & H). apply throw_if_Ok in H as [_ H]. apply throw_if_Ok in H as [_ H].
    apply result_bind_Ok in H as (ns & Hns & [= <-]). apply List.Forall2_cons; [exact Hn|exact (IH _ _ _ Hns)].
Qed.

Lemma collision_path v1 v2 (p1 p2 : list Json) :
  CollisionIn sha256 (envelopeInputs v1 ++ envelopeInputs v2) \/ CollisionIn sha256 (pathInputs p1 ++ pathInputs p2) ->
  CollisionIn sha256 (pathInputs (v1 :: p1) ++ pathInputs (v2 :: p2)).
Proof. intros [H|H]; eapply collision_mono; [|exact H| |exact H]; cbn [flat_map]; set_solver. Qed.

(** Two paths for one bucket go on alike. *)
Lemma children_bind count id scope1 scope2 path1 path2 cur1 cur2 rest1 rest2 leaf1 leaf2 :
  Forall wfJson path1 -> Forall wfJson path2 -> length rest1 = length rest2 ->
  Forall2 (fun v n => normalizeAuthorCatalogDirectoryPathNode nfc sha256 v scope1 count = Ok n) path1 rest1 ->
  Forall2 (fun v n => normalizeAuthorCatalogDirectoryPathNode nfc sha256 v scope2 count = Ok n) path2 rest2 ->
  verifySelectedChildren count id cur1 rest1 = Ok leaf1 -> verifySelectedChildren count id cur2 rest2 = Ok leaf2 -> sameNode cur1 cur2 ->
  sameNode leaf1 leaf2 \/ CollisionIn sha256 (pathInputs path1 ++ pathInputs path2).
Proof.
  intros W1 W2 Hl N1. revert cur1 cur2 path2 rest2 W2 Hl.
  induction N1 as [|v1 n1 path1 rest1 Hn1 N1 IH]; intros cur1 cur2 path2 rest2 W2 Hl N2 V1 V2 S.
  { destruct rest2; [|done]. cbn in V1, V2. simplify_eq. by left. }
  destruct N2 as [|v2 n2 path2 rest2 Hn2 N2]; [done|]. apply Forall_cons in W1 as [Wv1 W1], W2 as [Wv2 W2]. cbn [verifySelectedChildren] in V1, V2.
  apply result_bind_Ok in V1 as (u1 & C1 & V1), V2 as (u2 & C2 & V2). destruct S as (Sl & Sf & Se).
  assert (objectDigest (pathEnvelope n1) = objectDigest (pathEnvelope n2)) as Ed.
  { unfold verifySelectedChild in C1, C2. rewrite Se, Sl, Sf in C1. destruct (pathEntries cur2) as [es|]; [|done].
    apply throw_if_Ok in C1 as [_ C1], C2 as [_ C2]. destruct (js_at es _) as [sel|]; [|done].
    apply throw_if_Ok in C1 as [D1%negb_false_iff%bool_decide_eq_true _], C2 as [D2%negb_false_iff%bool_decide_eq_true _]. congruence. }
  destruct (node_digest_binds _ _ _ _ _ _ _ Wv1 Wv2 Hn1 Hn2 Ed) as [Sn|Hc]; [|right; apply collision_path; by left].
  destruct (IH W1 n1 n2 path2 rest2 W2 ltac:(by injection Hl) N2 V1 V2 Sn) as [Hs|Hc]; [by left|right; apply collision_path; by right].
Qed.

(** *** Heads *)

Lemma directoryU64_Ok value s n : assertDirectoryU64 value = Ok (s, n) -> 0 <= n <= MAX_DECIMAL_U64 /\ s = decimal n /\ value = Some (JString s).
Proof.
  unfold assertDirectoryU64. destruct value as [[| | |t| |]|]; [done|done|done| |done|done|done]. intros H. apply result_bind_Ok in H as (m & H%rethrow_Ok & [= -> ->]).
  unfold parseCanonicalDecimalU64 in H. apply parseDecimal_Ok in H as [Hn E]; [|apply u64_nonneg]. injection E as ->. done.
Qed.

Lemma headEnvelope_Ok v e h :
  assertSignedAuthorCatalogHeadEnvelopeV1 nfc sha256 v = Ok (e, h) ->
  assertSignedControlEnvelope sha256 v = Ok e /\ assertAuthorCatalogHeadStructureV1 nfc (payload (unsignedEnvelope e)) = Ok h.
Proof.
  unfold assertSignedAuthorCatalogHeadEnvelopeV1, assertSignedPayload. intros H. apply result_bind_Ok in H as (e' & He%mapErr_Ok & H).
  apply result_bind_Ok in H as (u & _ & H). apply result_bind_Ok in H as (h' & Hh & [= -> ->]). split; [exact He|].
  unfold assertAuthorCatalogHeadV1 in Hh. apply result_bind_Ok in Hh as (h'' & Hh & Ht). by apply result_bind_Ok in Ht as (t & _ & [= ->]).
Qed.

Lemma deriveScope_wf p : wfJson p -> wfJson (deriveScopeAfterHeadStructure p).
Proof.
  intros Hw. destruct p as [| | | | |fs]; try exact I. cbn [deriveScopeAfterHeadStructure]. apply wfJson_object.
  split; [apply (bool_decide_unpack _); vm_compute; exact I|]. cbn [map headScopeKeys].
  repeat (apply Forall_cons; split; [apply (field_wf _ _ Hw)|]). by apply Forall_nil.
Qed.

Lemma deriveScope_proper p q : jsonEquiv p q -> jsonEquiv (deriveScopeAfterHeadStructure p) (deriveScopeAfterHeadStructure q).
Proof.
  intros H. destruct p, q; try (unfold jsonEquiv in H; cbn in H; discriminate H); try reflexivity. by apply headScope_proper.
Qed.

Lemma scopeDigest_proper v w d :
  wfJson v -> wfJson w -> jsonEquiv v w -> computeAuthorCatalogScopeDigestV1 nfc sha256 v = Ok d -> computeAuthorCatalogScopeDigestV1 nfc sha256 w = Ok d.
Proof.
  intros Wv Ww E. unfold computeAuthorCatalogScopeDigestV1, canonicalizeAuthorCatalogScopeV1. rewrite (scope_proper nfc _ _ E).
  destruct (assertAuthorCatalogScopeV1 nfc w) as [sc|]; [|done]. cbn [result_bind]. intros H. apply result_bind_Ok in H as (t & Ht%mapErr_Ok & H).
  rewrite (canonicalize_equiv _ _ _ _ Wv Ww E Ht). exact H.
Qed.

(** The steps of a verified path. *)
Lemma verifyPath_Ok headv pathv idv st :
  verifyPath nfc sha256 headv pathv idv = Ok st ->
  exists e h path nodes idText id,
    assertSignedControlEnvelope sha256 headv = Ok e /\ assertAuthorCatalogHeadStructureV1 nfc (payload (unsignedEnvelope e)) = Ok h /\
    pathv = JArray path /\ js_length path = bigIntOf (directoryHeight h) + 1 /\ idv = JString idText /\ idText = decimal id /\
    0 <= id < bigIntOf (bucketCount (headScope h)) /\
    computeAuthorCatalogScopeDigestV1 nfc sha256 (deriveScopeAfterHeadStructure (payload (unsignedEnvelope e))) = Ok (stateScopeDigest st) /\
    normalizeDirectoryPath nfc sha256 (deriveScopeAfterHeadStructure (payload (unsignedEnvelope e))) (bucketCount (headScope h))
      (bigIntOf (directoryHeight h)) [] path = Ok nodes /\
    verifyDirectoryNodes h nodes idText id = Ok (stateDescriptor st) /\
    headObjectDigest st = objectDigest e /\ stateEra st = era (laneScope (headScope h)) /\
    stateBucketCount st = bucketCount (headScope h) /\ stateRootDigest st = directoryRootDigest h.
Proof.
  unfold verifyPath. intros H. apply result_bind_Ok in H as ([e h] & [He Hh]%mapErr_Ok%headEnvelope_Ok & H).
  apply result_bind_Ok in H as (scope & Hs%mapErr_Ok & H). unfold deriveAuthorCatalogScopeFromHeadV1 in Hs. apply result_bind_Ok in Hs as (h' & _ & [= <-]).
  apply result_bind_Ok in H as (sd & Hd%mapErr_Ok & H). apply result_bind_Ok in H as ([idText id] & (Hid & Et & Ev)%directoryU64_Ok & H).
  apply throw_if_Ok in H as [Hlt%Z.leb_gt H]. apply result_bind_Ok in H as (path & Hp & H). apply throw_if_Ok in H as [_ H].
  apply result_bind_Ok in H as (nodes & Hn & H). apply result_bind_Ok in H as (desc & Hdesc & [= <-]).
  unfold assertDenseOrdinaryArray in Hp. destruct pathv as [| | | |vs|]; try done.
  apply throw_if_Ok in Hp as [[H1%Z.ltb_ge H2%Z.ltb_ge]%orb_false_iff [= ->]]. injection Ev as ->.
  exists e, h, path, nodes, idText, id. split_and!; [exact He|exact Hh|reflexivity|lia|reflexivity|exact Et|lia|exact Hlt|exact Hd|exact Hn|exact Hdesc|reflexivity..].
Qed.

(** What is hashed for a head and a path. *)
Definition proofInputs (headv pathv : Json) : list bytes :=
  envelopeInputs headv ++ match pathv with JArray path => pathInputs path | _ => [] end.

Lemma nodes_bind h scope1 scope2 path1 path2 nodes1 nodes2 idText id d1 d2 :
  Forall wfJson path1 -> Forall wfJson path2 -> length path1 = length path2 ->
  Forall2 (fun v n => normalizeAuthorCatalogDirectoryPathNode nfc sha256 v scope1 (bucketCount (headScope h)) = Ok n) path1 nodes1 ->
  Forall2 (fun v n => normalizeAuthorCatalogDirectoryPathNode nfc sha256 v scope2 (bucketCount (headScope h)) = Ok n) path2 nodes2 ->
  verifyDirectoryNodes h nodes1 idText id = Ok d1 -> verifyDirectoryNodes h nodes2 idText id = Ok d2 ->
  d1 = d2 \/ CollisionIn sha256 (pathInputs path1 ++ pathInputs path2).
Proof.
  intros W1 W2 Hl N1 N2 V1 V2. destruct N1 as [|v1 root1 path1 rest1 R1 N1]; [done|]. destruct N2 as [|v2 root2 path2 rest2 R2 N2]; [done|].
  apply Forall_cons in W1 as [Wv1 W1], W2 as [Wv2 W2]. cbn [verifyDirectoryNodes] in V1, V2.
  apply throw_if_Ok in V1 as [D1%negb_false_iff%bool_decide_eq_true V1], V2 as [D2%negb_false_iff%bool_decide_eq_true V2].
  apply throw_if_Ok in V1 as [_ V1], V2 as [_ V2]. apply result_bind_Ok in V1 as (s1 & _ & V1), V2 as (s2 & _ & V2).
  apply throw_if_Ok in V1 as [_ V1], V2 as [_ V2]. apply result_bind_Ok in V1 as (leaf1 & L1 & V1), V2 as (leaf2 & L2 & V2).
  destruct (node_digest_binds _ _ _ _ _ _ _ Wv1 Wv2 R1 R2 ltac:(congruence)) as [Sr|Hc]; [|right; apply collision_path; by left].
  assert (length rest1 = length rest2) as Hr by (rewrite <- (Forall2_length _ _ _ N1), <- (Forall2_length _ _ _ N2); by injection Hl).
  destruct (children_bind _ _ _ _ _ _ _ _ _ _ _ _ W1 W2 Hr N1 N2 L1 L2 Sr) as [(_ & Sf & Se)|Hc]; [left|right; apply collision_path; by right].
  unfold selectLeafDescriptor in V1, V2. rewrite Sf, Se in V1. congruence.
Qed.

Lemma path_binds headv1 headv2 pathv1 pathv2 idv st1 st2 :
  wfJson headv1 -> wfJson headv2 -> wfJson pathv1 -> wfJson pathv2 ->
  verifyPath nfc sha256 headv1 pathv1 idv = Ok st1 -> verifyPath nfc sha256 headv2 pathv2 idv = Ok st2 ->
  headObjectDigest st1 = headObjectDigest st2 ->
  st1 = st2 \/ CollisionIn sha256 (proofInputs headv1 pathv1 ++ proofInputs headv2 pathv2).
Proof.
  intros W1 W2 Wp1 Wp2 (e1 & h1 & p1 & n1 & t1 & id1 & E1 & H1 & -> & L1 & -> & T1 & I1 & D1 & N1 & V1 & O1 & A1 & B1 & C1)%verifyPath_Ok
    (e2 & h2 & p2 & n2 & t2 & id2 & E2 & H2 & -> & L2 & Et & T2 & I2 & D2 & N2 & V2 & O2 & A2 & B2 & C2)%verifyPath_Ok Ed.
  injection Et as <-. assert (id1 = id2) as <-.
  { apply decimal_inj; [apply I1|apply I2|congruence]. }
  rewrite O1, O2 in Ed. unfold proofInputs.
  destruct (signed_digest_binds _ _ _ _ W1 W2 E1 E2 Ed) as [Hp|Hc]; [|right; eapply collision_mono; [|exact Hc]; set_solver].
  rewrite (headStructure_proper nfc _ _ Hp), H2 in H1. injection H1 as <-.
  apply wfJson_array in Wp1, Wp2. assert (length p1 = length p2) as Hl by (unfold js_length in *; lia).
  destruct (nodes_bind _ _ _ _ _ _ _ _ _ _ _ Wp1 Wp2 Hl (normalizePath_Ok _ _ _ _ _ _ N1) (normalizePath_Ok _ _ _ _ _ _ N2) V1 V2) as [Hd|Hc];
    [left|right; eapply collision_mono; [|exact Hc]; set_solver].
  assert (stateScopeDigest st1 = stateScopeDigest st2) as Es.
  { pose proof (scopeDigest_proper _ _ _ (deriveScope_wf _ (signed_payload_wf _ _ W1 E1)) (deriveScope_wf _ (signed_payload_wf _ _ W2 E2))
      (deriveScope_proper _ _ Hp) D1) as D1'. congruence. }
  destruct st1, st2. cbn in *. congruence.
Qed.

End Paths.
