(* ===== verification/CatalogDirectorySafety.v ===== *)
(** * What heads and directories bind

    One head leads to one descriptor of a bucket and to one row of an asset, and a
    capability stands for a path that was verified. *)

From S2P Require Import Prelude Bytes Merkle CodePoints JsText JsNumber CanonicalJson CanonicalJsonTheory CanonicalJsonRoundtrip.
From S2P Require Import PlainJson WireScalars KaTransfer AuthorLane AuthorCatalog AuthorCatalogTheory AuthorCatalogRows AuthorCatalogSafety.
From S2P Require Import JsonEquiv ControlObject ControlObjectTheory ControlObjectSafety CatalogObjects CatalogObjectsTheory.
From S2P Require Import CatalogDirectory CatalogDirectoryTheory.

Open Scope Z_scope.

(** The directory of a bucket count has the least height whose 256-way tree has
    a leaf for every bucket, at most 7, and the function fails for no accepted
    bucket count. *)
Theorem directory_height_least countText count :
  assertAuthorCatalogBucketCountV1 (Some (JString countText)) = Ok (countText, count) ->
  exists h, computeAuthorCatalogDirectoryHeightV1 countText = Ok (decimal h) /\ 0 <= h <= MAX_AUTHOR_CATALOG_DIRECTORY_HEIGHT_V1 /\
    forall h', 0 <= h' -> count <= 256 ^ (h' + 1) <-> h <= h'.
Proof.
  intros (_ & -> & k & Hk & ->)%bucketCount_Ok. destruct (heightOf_spec k Hk) as (Hh & Hup & Hlow). exists (heightOf (2 ^ k)).
  split; [apply computeHeight_Ok; eauto|]. split; [exact Hh|]. intros h' Hh'. split.
  - intros Hle. destruct Hlow as [->|Hlow]; [lia|]. destruct (Z.le_gt_cases (heightOf (2 ^ k)) h') as [|Hlt]; [done|exfalso].
    assert (256 ^ (h' + 1) <= 256 ^ heightOf (2 ^ k)) by (apply Z.pow_le_mono_r; lia). lia.
  - intros Hle. etrans; [exact Hup|]. apply Z.pow_le_mono_r; lia.
Qed.

Lemma directory_height_least_witness :
  exists h, computeAuthorCatalogDirectoryHeightV1 (js "65536") = Ok (decimal h) /\ 0 <= h <= MAX_AUTHOR_CATALOG_DIRECTORY_HEIGHT_V1 /\
    forall h', 0 <= h' -> 65536 <= 256 ^ (h' + 1) <-> h <= h'.
Proof. apply (directory_height_least (js "65536") 65536). vm_compute. reflexivity. Defined.

Section Safety.
Context (nfc : jsstr -> jsstr) (sha256 : bytes -> bytes).

(** C26: An accepted bucket holds 1 to 1024 rows, strictly increasing by the number
    of the asset, each coordinate once, and every row lies in the bucket that the
    digest of its key selects. *)
Theorem catalog_bucket_rows v b :
  assertAuthorCatalogBucketV1 nfc sha256 v = Ok b ->
  1 <= js_length (rows b) <= MAX_AUTHOR_CATALOG_BUCKET_ROWS_V1 /\
  StronglySorted Z.lt (map (fun r => bigIntOf (kaId r)) (rows b)) /\ NoDup (map assertionCoordinate (rows b)) /\
  Forall (fun r => catalogKeyToBucketIdV1 sha256 (kaId r) (bucketBucketCount b) = Ok (bucketId b)) (rows b) /\
  Forall2 (fun value row => assertAuthorCatalogRowV1 nfc value = Ok row) (rowValues v) (rows b).
Proof.
  unfold assertAuthorCatalogBucketV1. intros (b' & Hb & H)%result_bind_Ok. apply result_bind_Ok in H as (t & _ & [= ->]).
  destruct (bucketStructure_Ok _ _ _ _ Hb) as (_ & Hl & [Hinc Hco Hmap] & Hall). split; [exact Hl|]. split; [exact Hinc|]. split; [exact Hco|].
  split; [exact Hmap|exact Hall].
Qed.

(** C14: Two paths verified for the same bucket under heads with the same object
    digest give the same result, so a head fixes the descriptor of every bucket,
    unless sha256 collides on the envelopes of the two proofs. *)
Theorem directory_path_binds headv1 headv2 pathv1 pathv2 idv st1 st2 :
  wfJson headv1 -> wfJson headv2 -> wfJson pathv1 -> wfJson pathv2 ->
  verifyPath nfc sha256 headv1 pathv1 idv = Ok st1 -> verifyPath nfc sha256 headv2 pathv2 idv = Ok st2 ->
  headObjectDigest st1 = headObjectDigest st2 ->
  st1 = st2 \/ CollisionIn sha256 (proofInputs headv1 pathv1 ++ proofInputs headv2 pathv2).
Proof. apply path_binds. Qed.

(** ** Capabilities *)

(** The registries that calls of the verifier make. *)
Inductive Registered : VerifiedPaths -> Prop :=
| registered_none : Registered []
| registered_path registry headv pathv idv capability registry' :
    Registered registry -> wfJson headv -> wfJson pathv ->
    verifyAuthorCatalogDirectoryPathV1 nfc sha256 registry headv pathv idv = Ok (capability, registry') -> Registered registry'.

Lemma registered_verified registry st :
  Registered registry -> st ∈ registry ->
  exists headv pathv idv, wfJson headv /\ wfJson pathv /\ verifyPath nfc sha256 headv pathv idv = Ok st.
Proof.
  intros H. induction H as [|registry headv pathv idv c registry' _ IH Hh Hp Hv]; [by intros Hin%elem_of_nil|].
  unfold verifyAuthorCatalogDirectoryPathV1 in Hv. apply result_bind_Ok in Hv as (st' & Hv & [= <- <-]).
  rewrite elem_of_app, list_elem_of_singleton. intros [Hin| ->]; [by apply IH|]. exists headv, pathv, idv. split; [exact Hh|]. split; [exact Hp|exact Hv].
Qed.

Lemma descriptor_id headv pathv idv st : verifyPath nfc sha256 headv pathv idv = Ok st -> idv = JString (descriptorBucketId (stateDescriptor st)).
Proof.
  intros (e & h & path & nodes & idText & id & _ & _ & _ & _ & -> & _ & _ & _ & _ & V & _)%verifyPath_Ok. unfold verifyDirectoryNodes in V.
  destruct nodes as [|root rest]; [done|]. apply throw_if_Ok in V as [_ V]. apply throw_if_Ok in V as [_ V]. apply result_bind_Ok in V as (s & _ & V).
  apply throw_if_Ok in V as [_ V]. apply result_bind_Ok in V as (leaf & _ & V). unfold selectLeafDescriptor in V.
  destruct (pathEntries leaf) as [|es]; [done|]. apply throw_if_Ok in V as [_ V]. destruct (js_at es _) as [d|]; [|done].
  apply throw_if_Ok in V as [E%negb_false_iff%bool_decide_eq_true [= <-]]. by rewrite E.
Qed.

(** A capability read for a head gives the descriptor of a path that was
    verified under the same head digest, and every path of that head for the bucket
    leads to this descriptor, unless sha256 collides. *)
Theorem capability_names_descriptor registry capability headv pathv d st :
  Registered registry -> wfJson headv -> wfJson pathv ->
  readVerifiedAuthorCatalogBucketDescriptorV1 nfc sha256 registry (Some capability) headv = Ok d ->
  verifyPath nfc sha256 headv pathv (JString (descriptorBucketId d)) = Ok st ->
  exists headv0 pathv0 st0, registry !! capability = Some st0 /\ verifyPath nfc sha256 headv0 pathv0 (JString (descriptorBucketId d)) = Ok st0 /\
    stateDescriptor st0 = d /\ headObjectDigest st0 = headObjectDigest st /\
    (stateDescriptor st = d \/ CollisionIn sha256 (proofInputs headv0 pathv0 ++ proofInputs headv pathv)).
Proof.
  intros Hreg Wh Wp Hr Hv. unfold readVerifiedAuthorCatalogBucketDescriptorV1 in Hr. apply result_bind_Ok in Hr as (st0 & Ha & [= <-]).
  unfold assertVerifiedAuthorCatalogDirectoryPathForHeadV1 in Ha. cbn [mbind option_bind] in Ha. destruct (registry !! capability) as [st1|] eqn:El; [|done].
  apply result_bind_Ok in Ha as ([e h] & [He _]%mapErr_Ok%headEnvelope_Ok & Ha). do 2 apply result_bind_Ok in Ha as (? & _ & Ha).
  apply throw_if_Ok in Ha as [Hc [= ->]]. rewrite !orb_false_iff in Hc. destruct Hc as [[[[Hd%negb_false_iff%bool_decide_eq_true _] _] _] _].
  destruct (registered_verified _ _ Hreg (list_elem_of_lookup_2 _ _ _ El)) as (headv0 & pathv0 & idv & W0 & Wp0 & V0).
  pose proof (descriptor_id _ _ _ _ V0) as ->. exists headv0, pathv0, st0.
  assert (headObjectDigest st0 = headObjectDigest st) as Ed.
  { rewrite Hd. apply verifyPath_Ok in Hv as (e' & h' & ? & ? & ? & ? & He' & _ & _ & _ & _ & _ & _ & _ & _ & _ & -> & _). congruence. }
  split; [done|]. split; [exact V0|]. split; [done|]. split; [exact Ed|].
  destruct (path_binds _ _ _ _ _ _ _ _ _ W0 Wh Wp0 Wp V0 Hv Ed) as [-> |Hcol]; [by left|by right].
Qed.

(** ** Rows *)

Lemma bucketEnvelope_Ok v e b :
  assertSignedAuthorCatalogBucketEnvelopeV1 nfc sha256 v = Ok (e, b) ->
  assertSignedControlEnvelope sha256 v = Ok e /\ assertAuthorCatalogBucketStructureV1 nfc sha256 (payload (unsignedEnvelope e)) = Ok b.
Proof.
  unfold assertSignedAuthorCatalogBucketEnvelopeV1, assertSignedPayload. intros H. apply result_bind_Ok in H as (e' & He%mapErr_Ok & H).
  apply result_bind_Ok in H as (u & _ & H). apply result_bind_Ok in H as (h' & Hh & [= -> ->]). split; [exact He|].
  unfold assertAuthorCatalogBucketV1 in Hh. apply result_bind_Ok in Hh as (h'' & Hh & Ht). by apply result_bind_Ok in Ht as (t & _ & [= ->]).
Qed.

Lemma bucket_binds v1 v2 e1 e2 b1 b2 :
  wfJson v1 -> wfJson v2 ->
  assertSignedAuthorCatalogBucketEnvelopeV1 nfc sha256 v1 = Ok (e1, b1) -> assertSignedAuthorCatalogBucketEnvelopeV1 nfc sha256 v2 = Ok (e2, b2) ->
  objectDigest e1 = objectDigest e2 -> b1 = b2 \/ CollisionIn sha256 (envelopeInputs v1 ++ envelopeInputs v2).
Proof.
  intros W1 W2 [E1 B1]%bucketEnvelope_Ok [E2 B2]%bucketEnvelope_Ok Ed.
  destruct (signed_digest_binds _ _ _ _ _ W1 W2 E1 E2 Ed) as [Hp|Hc]; [left|by right].
  rewrite (bucketStructure_proper nfc sha256 _ _ Hp), B2 in B1. by injection B1.
Qed.

End Safety.

(** ** Examples *)

(** A catalog with one bucket that holds one row. *)
Definition oneScopeFields : list (jsstr * Json) :=
  [(js "networkId", JString (js "otp:20430")); (js "contextGraphId", JString (js "org/lab")); (js "subGraphName", JNull);
   (js "authorAddress", JString (lowerHex sampleAuthor)); (js "era", JString (js "0")); (js "governanceChainId", JNull);
   (js "governanceContractAddress", JNull); (js "ownershipTransitionDigest", JNull); (js "bucketCount", JString (js "1"))].

Definition oneScopeDigest : jsstr :=
  match computeAuthorCatalogScopeDigestV1 sampleNfc sampleHash (JObject oneScopeFields) with Ok digest => digest | Err _ => [] end.

Definition oneBucketPayload : Json :=
  JObject [(js "bucketCount", JString (js "1")); (js "bucketId", JString (js "0")); (js "catalogScopeDigest", JString oneScopeDigest);
           (js "era", JString (js "0")); (js "rows", JArray [sampleRow])].

Definition oneBucket : SignedControlEnvelopeV1 := sampleSigned AUTHOR_CATALOG_BUCKET_OBJECT_TYPE_V1 oneBucketPayload.

Definition oneBucketRecord : AuthorCatalogBucketV1 :=
  {| bucketScopeDigest := oneScopeDigest; bucketEra := js "0"; bucketBucketCount := js "1"; bucketId := js "0"; rows := [sampleRowRecord] |}.

Definition oneDescriptor : AuthorCatalogBucketDescriptorV1 :=
  {| descriptorBucketId := js "0"; descriptorRowCount := js "1"; bucketDigest := objectDigest oneBucket;
     descriptorByteLength := decimal (js_length (encodeUtf8 (canonText oneBucketPayload))) |}.

Definition oneRoot : SignedControlEnvelopeV1 :=
  sampleSigned AUTHOR_CATALOG_DIRECTORY_NODE_OBJECT_TYPE_V1
    (JObject [(js "catalogScopeDigest", JString oneScopeDigest); (js "era", JString (js "0")); (js "firstBucketId", JString (js "0"));
              (js "level", JString (js "0"));
              (js "entries", JArray [JObject [(js "bucketDigest", JString (bucketDigest oneDescriptor)); (js "bucketId", JString (js "0"));
                 (js "byteLength", JString (descriptorByteLength oneDescriptor)); (js "rowCount", JString (js "1"))]])]).

(** The head under the delegation with some digest. *)
Definition oneHead (delegationDigest : jsstr) : SignedControlEnvelopeV1 :=
  sampleSigned AUTHOR_CATALOG_HEAD_OBJECT_TYPE_V1
    (JObject (oneScopeFields ++
      [(js "catalogIssuerDelegationDigest", JString delegationDigest); (js "version", JString (js "0")); (js "previousHeadDigest", JNull);
       (js "totalRows", JString (js "1")); (js "directoryHeight", JString (js "0")); (js "directoryRootDigest", JString (objectDigest oneRoot));
       (js "issuedAt", JString (js "7"))])).

Definition oneHeadJson : Json := toCanonicalSignedEnvelope (oneHead sampleDigest).
Definition onePathJson : Json := JArray [toCanonicalSignedEnvelope oneRoot].

Definition oneState : VerifiedAuthorCatalogDirectoryPathStateV1 :=
  {| headObjectDigest := objectDigest (oneHead sampleDigest); stateScopeDigest := oneScopeDigest; stateEra := js "0"; stateBucketCount := js "1";
     stateRootDigest := objectDigest oneRoot; stateDescriptor := oneDescriptor |}.

Lemma oneHead_wf : wfJson oneHeadJson.
Proof. apply uniqueKeys_wf. vm_compute. reflexivity. Qed.

Lemma onePath_wf : wfJson onePathJson.
Proof. apply uniqueKeys_wf. vm_compute. reflexivity. Qed.

Lemma onePath_verifies : verifyPath sampleNfc sampleHash oneHeadJson onePathJson (JString (js "0")) = Ok oneState.
Proof. vm_compute. reflexivity. Qed.

Lemma catalog_bucket_rows_witness :
  1 <= js_length (rows oneBucketRecord) <= MAX_AUTHOR_CATALOG_BUCKET_ROWS_V1 /\
  StronglySorted Z.lt (map (fun r => bigIntOf (kaId r)) (rows oneBucketRecord)) /\ NoDup (map assertionCoordinate (rows oneBucketRecord)) /\
  Forall (fun r => catalogKeyToBucketIdV1 sampleHash (kaId r) (bucketBucketCount oneBucketRecord) = Ok (bucketId oneBucketRecord)) (rows oneBucketRecord) /\
  Forall2 (fun value row => assertAuthorCatalogRowV1 sampleNfc value = Ok row) (rowValues oneBucketPayload) (rows oneBucketRecord).
Proof. apply catalog_bucket_rows. vm_compute. reflexivity. Defined.

Lemma directory_path_binds_witness :
  oneState = oneState \/ CollisionIn sampleHash (proofInputs oneHeadJson onePathJson ++ proofInputs oneHeadJson onePathJson).
Proof.
  apply (directory_path_binds sampleNfc sampleHash oneHeadJson oneHeadJson onePathJson onePathJson (JString (js "0")));
    [exact oneHead_wf|exact oneHead_wf|exact onePath_wf|exact onePath_wf|exact onePath_verifies|exact onePath_verifies|reflexivity].
Defined.

Lemma oneRegistered : Registered sampleNfc sampleHash [oneState].
Proof.
  apply (registered_path _ _ [] oneHeadJson onePathJson (JString (js "0")) 0 [oneState]);
    [apply registered_none|exact oneHead_wf|exact onePath_wf|].
  unfold verifyAuthorCatalogDirectoryPathV1. rewrite onePath_verifies. reflexivity.
Qed.

Lemma capability_names_descriptor_witness :
  exists headv0 pathv0 st0, [oneState] !! 0%nat = Some st0 /\
    verifyPath sampleNfc sampleHash headv0 pathv0 (JString (descriptorBucketId oneDescriptor)) = Ok st0 /\
    stateDescriptor st0 = oneDescriptor /\ headObjectDigest st0 = headObjectDigest oneState /\
    (stateDescriptor oneState = oneDescriptor \/ CollisionIn sampleHash (proofInputs headv0 pathv0 ++ proofInputs oneHeadJson onePathJson)).
Proof.
  apply (capability_names_descriptor sampleNfc sampleHash [oneState] 0 oneHeadJson onePathJson oneDescriptor oneState);
    [exact oneRegistered|exact oneHead_wf|exact onePath_wf|vm_compute; reflexivity|exact onePath_verifies].
Defined.
