(* ===== verification/CatalogAuthority.v ===== *)
(** * Delegations of catalog issuers and timeliness receipts

    packages/core/src/author-catalog-authority-objects.ts: the two payloads that
    give a key authority over a catalog lane and attest when a head was seen, and
    their envelopes.  Of the checks on plain data the nesting and the numbers are
    modelled; accessors, cycles and other prototypes do not occur in [Json], and
    its structured clone is the value itself. *)

From S2P Require Import Prelude Bytes Merkle CodePoints JsText JsNumber CanonicalJson CanonicalJsonTheory CanonicalJsonRoundtrip.
From S2P Require Import PlainJson WireScalars KaTransfer AuthorLane AuthorCatalog ControlObject.

Open Scope Z_scope.

Definition AUTHOR_CATALOG_ISSUER_DELEGATION_OBJECT_TYPE_V1 : jsstr := js "AuthorCatalogIssuerDelegationV1".
Definition CATALOG_HEAD_TIMELINESS_RECEIPT_OBJECT_TYPE_V1 : jsstr := js "CatalogHeadTimelinessReceiptV1".
Definition MAX_AUTHOR_CATALOG_AUTHORITY_PAYLOAD_BYTES_V1 : Z := 16 * 1024.
Definition MAX_AUTHOR_CATALOG_AUTHORITY_PAYLOAD_DEPTH_V1 : Z := 1.

(** The six fields that delegations and receipts share: networkId,
    contextGraphId and subGraphName, and the governance scope. *)
Record AuthorityScope := {
  scopeLane : CatalogLaneV1;
  scopeNetworkId : jsstr;
  scopeChainId : option jsstr;
  scopeContractAddress : option jsstr;
  scopeTransitionDigest : option jsstr
}.

Record AuthorCatalogIssuerDelegationV1 := {
  delegationScope : AuthorityScope;
  delegationAuthor : jsstr;
  catalogEra : jsstr;
  previousDelegationDigest : option jsstr;
  catalogIssuerKey : jsstr;
  authorAuthorityEvidenceDigest : option jsstr;
  effectiveAt : jsstr;
  expiresAt : jsstr
}.

Record CatalogHeadTimelinessReceiptV1 := {
  receiptScope : AuthorityScope;
  checkpointAuthorityDelegationDigest : jsstr;
  receiptAuthor : jsstr;
  receiptDelegationDigest : jsstr;
  catalogHeadDigest : jsstr;
  observedAt : jsstr
}.

Inductive AuthorCatalogAuthorityCodecErrorCode :=
| AuthoritySchema
| AuthorityScalar
| AuthorityType
| AuthorityGovernance
| AuthorityHistory
| AuthorityAuthority
| AuthorityTime
| AuthorityPayloadTooLarge.

(** An [AuthorCatalogAuthorityCodecError], or an error that passes through. *)
Inductive AuthorityError :=
| EAuthority (code : AuthorCatalogAuthorityCodecErrorCode)
| EAuthorityControl (e : ControlError)
| EAuthorityJson (e : CanonicalJsonError)
| EAuthorityDigest (e : ScalarError).

Abbreviation aresult := (result AuthorityError).

Definition authorityScalar {E A} (operation : Json -> result E A) (value : option Json) : aresult jsstr :=
  checkedText (EAuthority AuthorityScalar) operation value.

Definition optionalDigest (value : option Json) : aresult (option jsstr) := nullable (authorityScalar assertCanonicalDigest) value.

(** The text and its value. *)
Definition authorityU64 (value : option Json) : aresult (jsstr * Z) :=
  match value with
  | Some (JString s) => let* n := rethrow (EAuthority AuthorityScalar) (parseCanonicalDecimalU64 (JString s)) in Ok (s, n)
  | _ => Err (EAuthority AuthorityScalar)
  end.

Definition authorityTimestamp (value : option Json) : aresult (jsstr * Z) :=
  let* s := authorityScalar assertCanonicalTimestampMs value in
  Ok (s, bigIntOf s).

(** [chainId], [contractAddress] and [ownershipTransitionDigest]. *)
Definition assertGovernanceScope (chainId contractAddress transition : option Json) : aresult (option jsstr * option jsstr * option jsstr) :=
  throw EAuthority AuthorityGovernance when xorb (isNull chainId) (isNull contractAddress);
  if isNull chainId then
    throw EAuthority AuthorityGovernance when negb (isNull transition);
    Ok (None, None, None)
  else
    let* chain := authorityScalar assertCanonicalChainId chainId in
    let* contract := authorityScalar assertCanonicalEvmAddress contractAddress in
    let* digest := optionalDigest transition in
    Ok (Some chain, Some contract, digest).

Definition authorityOptions : CanonicalJsonOptions :=
  {| maxBytes := Some MAX_AUTHOR_CATALOG_AUTHORITY_PAYLOAD_BYTES_V1; maxDepth := Some MAX_AUTHOR_CATALOG_AUTHORITY_PAYLOAD_DEPTH_V1 |}.

Definition canonicalizeBounded (value : Json) : aresult jsstr :=
  rethrow (EAuthority AuthorityPayloadTooLarge) (canonicalizeJson value authorityOptions).

Definition assertAuthorityType (actual expected : jsstr) : aresult unit :=
  throw EAuthority AuthorityType when negb (bool_decide (actual = expected));
  Ok tt.

Fixpoint assertStablePlainData (depth : Z) (value : Json) : aresult unit :=
  throw EAuthority AuthoritySchema when 64 <? depth;
  match value with
  | JNull | JString _ | JBool _ => Ok tt
  | JNumber n =>
      throw EAuthority AuthoritySchema when negb (isFinite n);
      Ok tt
  | JArray items => foldr (fun item rest => let* _ := assertStablePlainData (depth + 1) item in rest) (Ok tt) items
  | JObject fields => foldr (fun '(_, item) rest => let* _ := assertStablePlainData (depth + 1) item in rest) (Ok tt) fields
  end.

Definition clonePlainData (value : Json) : aresult Json :=
  let* _ := assertStablePlainData 0 value in
  Ok value.

Definition delegationKeys : list jsstr :=
  [js "authorAddress"; js "authorAuthorityEvidenceDigest"; js "catalogEra"; js "catalogIssuerKey"; js "contextGraphId"; js "effectiveAt";
   js "expiresAt"; js "governanceChainId"; js "governanceContractAddress"; js "networkId"; js "ownershipTransitionDigest";
   js "previousDelegationDigest"; js "subGraphName"].

Definition receiptKeys : list jsstr :=
  [js "authorAddress"; js "catalogHeadDigest"; js "catalogIssuerDelegationDigest"; js "checkpointAuthorityDelegationDigest";
   js "contextGraphId"; js "governanceChainId"; js "governanceContractAddress"; js "networkId"; js "observedAt";
   js "ownershipTransitionDigest"; js "subGraphName"].

Section Authority.
Context (nfc : jsstr -> jsstr) (sha256 : bytes -> bytes).

(** ** Payloads *)

(** The checks of the shared fields, in the order of both payloads. *)
Definition assertAuthorityScope (fields : list (jsstr * Json)) : aresult AuthorityScope :=
  let get key := field (js key) fields in
  let* networkId := authorityScalar assertNetworkIdV1 (get "networkId") in
  let* contextGraphId := rethrow (EAuthority AuthorityScalar) (assertContextGraphIdV1 nfc (get "contextGraphId")) in
  let* (governance, transition) := assertGovernanceScope (get "governanceChainId") (get "governanceContractAddress") (get "ownershipTransitionDigest") in
  let (chain, contract) := governance : option jsstr * option jsstr in
  let* subGraphName := nullable (fun value => rethrow (EAuthority AuthorityScalar) (assertSubGraphNameV1 nfc value)) (get "subGraphName") in
  Ok {| scopeLane := {| contextGraphId := contextGraphId; subGraphName := subGraphName |}; scopeNetworkId := networkId;
        scopeChainId := chain; scopeContractAddress := contract; scopeTransitionDigest := transition |}.

Definition validateDelegationFields (fields : list (jsstr * Json)) : aresult AuthorCatalogIssuerDelegationV1 :=
  let get key := field (js key) fields in
  let* scope := assertAuthorityScope fields in
  let* authorAddress := authorityScalar assertCanonicalEvmAddress (get "authorAddress") in
  let* (eraText, era) := authorityU64 (get "catalogEra") in
  let* previous := optionalDigest (get "previousDelegationDigest") in
  throw EAuthority AuthorityHistory when xorb (era =? 0) (isNull (get "previousDelegationDigest"));
  let* key := authorityScalar assertCanonicalEvmAddress (get "catalogIssuerKey") in
  let* evidence := optionalDigest (get "authorAuthorityEvidenceDigest") in
  let* (effectiveText, effectiveAt) := authorityTimestamp (get "effectiveAt") in
  let* (expiresText, expiresAt) := authorityTimestamp (get "expiresAt") in
  throw EAuthority AuthorityTime when expiresAt <=? effectiveAt;
  Ok {| delegationScope := scope; delegationAuthor := authorAddress; catalogEra := eraText; previousDelegationDigest := previous;
        catalogIssuerKey := key; authorAuthorityEvidenceDigest := evidence; effectiveAt := effectiveText; expiresAt := expiresText |}.

(** The delegation and its canonical text. *)
Definition validateDelegationPlain (value : Json) : aresult (AuthorCatalogIssuerDelegationV1 * jsstr) :=
  match isPlainRecord value with
  | None => Err (EAuthority AuthoritySchema)
  | Some fields =>
      throw EAuthority AuthoritySchema when negb (assertExactKeys fields delegationKeys);
      let* delegation := validateDelegationFields fields in
      let* canonical := canonicalizeBounded value in
      Ok (delegation, canonical)
  end.

Definition validateDelegationSnapshot (value : Json) : aresult (AuthorCatalogIssuerDelegationV1 * jsstr) :=
  let* _ := validateDelegationPlain value in
  let* clone := clonePlainData value in
  validateDelegationPlain clone.

Definition validateReceiptPlain (value : Json) : aresult (CatalogHeadTimelinessReceiptV1 * jsstr) :=
  match isPlainRecord value with
  | None => Err (EAuthority AuthoritySchema)
  | Some fields =>
      throw EAuthority AuthoritySchema when negb (assertExactKeys fields receiptKeys);
      let get key := field (js key) fields in
      let* scope := assertAuthorityScope fields in
      let* checkpoint := authorityScalar assertCanonicalDigest (get "checkpointAuthorityDelegationDigest") in
      let* authorAddress := authorityScalar assertCanonicalEvmAddress (get "authorAddress") in
      let* delegation := authorityScalar assertCanonicalDigest (get "catalogIssuerDelegationDigest") in
      let* head := authorityScalar assertCanonicalDigest (get "catalogHeadDigest") in
      let* (observedText, _) := authorityTimestamp (get "observedAt") in
      let* canonical := canonicalizeBounded value in
      Ok ({| receiptScope := scope; checkpointAuthorityDelegationDigest := checkpoint; receiptAuthor := authorAddress;
             receiptDelegationDigest := delegation; catalogHeadDigest := head; observedAt := observedText |}, canonical)
  end.

Definition validateReceiptSnapshot (value : Json) : aresult (CatalogHeadTimelinessReceiptV1 * jsstr) :=
  let* _ := validateReceiptPlain value in
  let* clone := clonePlainData value in
  validateReceiptPlain clone.

Definition assertAuthorCatalogIssuerDelegationV1 (value : Json) : aresult AuthorCatalogIssuerDelegationV1 :=
  let* (delegation, _) := validateDelegationSnapshot value in Ok delegation.

Definition assertCatalogHeadTimelinessReceiptV1 (value : Json) : aresult CatalogHeadTimelinessReceiptV1 :=
  let* (receipt, _) := validateReceiptSnapshot value in Ok receipt.

Definition canonicalizeAuthorCatalogIssuerDelegationPayloadV1 (value : Json) : aresult jsstr :=
  let* (_, canonical) := validateDelegationSnapshot value in Ok canonical.

Definition canonicalizeAuthorCatalogIssuerDelegationPayloadBytesV1 (value : Json) : aresult bytes :=
  let* canonical := canonicalizeAuthorCatalogIssuerDelegationPayloadV1 value in Ok (encodeUtf8 canonical).

Definition canonicalizeCatalogHeadTimelinessReceiptPayloadV1 (value : Json) : aresult jsstr :=
  let* (_, canonical) := validateReceiptSnapshot value in Ok canonical.

Definition canonicalizeCatalogHeadTimelinessReceiptPayloadBytesV1 (value : Json) : aresult bytes :=
  let* canonical := canonicalizeCatalogHeadTimelinessReceiptPayloadV1 value in Ok (encodeUtf8 canonical).

Definition parseAuthorityPayload (input : Input) (options : CanonicalJsonOptions) : aresult Json :=
  throw EAuthority AuthorityPayloadTooLarge when oversizedWireInput input MAX_AUTHOR_CATALOG_AUTHORITY_PAYLOAD_BYTES_V1;
  mapErr EAuthorityJson
    (parseCanonicalJson input (tightenLimits MAX_AUTHOR_CATALOG_AUTHORITY_PAYLOAD_BYTES_V1 MAX_AUTHOR_CATALOG_AUTHORITY_PAYLOAD_DEPTH_V1 options)).

Definition parseCanonicalAuthorCatalogIssuerDelegationPayloadV1 (input : Input) (options : CanonicalJsonOptions) : aresult AuthorCatalogIssuerDelegationV1 :=
  let* parsed := parseAuthorityPayload input options in
  let* (delegation, _) := validateDelegationSnapshot parsed in
  Ok delegation.

Definition parseCanonicalCatalogHeadTimelinessReceiptPayloadV1 (input : Input) (options : CanonicalJsonOptions) : aresult CatalogHeadTimelinessReceiptV1 :=
  let* parsed := parseAuthorityPayload input options in
  let* (receipt, _) := validateReceiptSnapshot parsed in
  Ok receipt.

(** ** Envelopes *)

(** The author issues without evidence, everyone else with a reference to it. *)
Definition assertDelegationAuthorPairing (issuer : jsstr) (delegation : AuthorCatalogIssuerDelegationV1) : aresult unit :=
  let issuerIsAuthor := bool_decide (issuer = delegationAuthor delegation) in
  let evidenceIsNull := bool_decide (authorAuthorityEvidenceDigest delegation = None) in
  throw EAuthority AuthorityAuthority when xorb issuerIsAuthor evidenceIsNull;
  Ok tt.

(** One pass over an envelope. *)
Definition unsignedAuthorityPass {A} (type : jsstr) (validate : Json -> aresult (A * jsstr)) (envelope : Json) : aresult (UnsignedControlEnvelopeV1 * A) :=
  let* _ := mapErr EAuthorityControl (assertUnsignedControlEnvelope envelope) in
  let* e := mapErr EAuthorityControl (assertUnsignedControlEnvelopeFields envelope) in
  let* _ := assertAuthorityType (objectType e) type in
  let* (value, _) := validate (payload e) in
  Ok (e, value).

Definition signedAuthorityPass {A} (type : jsstr) (validate : Json -> aresult (A * jsstr)) (envelope : Json) : aresult (SignedControlEnvelopeV1 * A) :=
  let* e := mapErr EAuthorityControl (assertSignedControlEnvelope sha256 envelope) in
  let* _ := assertAuthorityType (objectType (unsignedEnvelope e)) type in
  let* (value, _) := validate (payload (unsignedEnvelope e)) in
  Ok (e, value).

Definition validateUnsignedDelegationEnvelopeSnapshot (value : Json) : aresult (UnsignedControlEnvelopeV1 * AuthorCatalogIssuerDelegationV1) :=
  let* _ := unsignedAuthorityPass AUTHOR_CATALOG_ISSUER_DELEGATION_OBJECT_TYPE_V1 validateDelegationPlain value in
  let* snapshot := clonePlainData value in
  let* (e, delegation) := unsignedAuthorityPass AUTHOR_CATALOG_ISSUER_DELEGATION_OBJECT_TYPE_V1 validateDelegationPlain snapshot in
  let* _ := assertDelegationAuthorPairing (issuer e) delegation in
  Ok (e, delegation).

Definition validateSignedDelegationEnvelopeSnapshot (value : Json) : aresult (SignedControlEnvelopeV1 * AuthorCatalogIssuerDelegationV1) :=
  let* _ := signedAuthorityPass AUTHOR_CATALOG_ISSUER_DELEGATION_OBJECT_TYPE_V1 validateDelegationPlain value in
  let* snapshot := clonePlainData value in
  let* (e, delegation) := signedAuthorityPass AUTHOR_CATALOG_ISSUER_DELEGATION_OBJECT_TYPE_V1 validateDelegationPlain snapshot in
  let* _ := assertDelegationAuthorPairing (issuer (unsignedEnvelope e)) delegation in
  Ok (e, delegation).

Definition validateUnsignedReceiptEnvelopeSnapshot (value : Json) : aresult (UnsignedControlEnvelopeV1 * CatalogHeadTimelinessReceiptV1) :=
  let* _ := unsignedAuthorityPass CATALOG_HEAD_TIMELINESS_RECEIPT_OBJECT_TYPE_V1 validateReceiptPlain value in
  let* snapshot := clonePlainData value in
  unsignedAuthorityPass CATALOG_HEAD_TIMELINESS_RECEIPT_OBJECT_TYPE_V1 validateReceiptPlain snapshot.

Definition validateSignedReceiptEnvelopeSnapshot (value : Json) : aresult (SignedControlEnvelopeV1 * CatalogHeadTimelinessReceiptV1) :=
  let* _ := signedAuthorityPass CATALOG_HEAD_TIMELINESS_RECEIPT_OBJECT_TYPE_V1 validateReceiptPlain value in
  let* snapshot := clonePlainData value in
  signedAuthorityPass CATALOG_HEAD_TIMELINESS_RECEIPT_OBJECT_TYPE_V1 validateReceiptPlain snapshot.

Definition assertUnsignedAuthorCatalogIssuerDelegationEnvelopeV1 (value : Json) : aresult unit :=
  let* _ := validateUnsignedDelegationEnvelopeSnapshot value in Ok tt.

Definition assertSignedAuthorCatalogIssuerDelegationEnvelopeV1 (value : Json) : aresult unit :=
  let* _ := validateSignedDelegationEnvelopeSnapshot value in Ok tt.

Definition assertUnsignedCatalogHeadTimelinessReceiptEnvelopeV1 (value : Json) : aresult unit :=
  let* _ := validateUnsignedReceiptEnvelopeSnapshot value in Ok tt.

Definition assertSignedCatalogHeadTimelinessReceiptEnvelopeV1 (value : Json) : aresult unit :=
  let* _ := validateSignedReceiptEnvelopeSnapshot value in Ok tt.

Definition canonicalizeUnsignedAuthorCatalogIssuerDelegationEnvelopeBytesV1 (value : Json) : aresult bytes :=
  let* _ := validateUnsignedDelegationEnvelopeSnapshot value in
  mapErr EAuthorityControl (canonicalizeUnsignedControlEnvelopeBytes value).

Definition canonicalizeSignedAuthorCatalogIssuerDelegationEnvelopeBytesV1 (value : Json) : aresult bytes :=
  let* _ := validateSignedDelegationEnvelopeSnapshot value in
  mapErr EAuthorityControl (canonicalizeSignedControlEnvelopeBytes sha256 value).

Definition canonicalizeUnsignedCatalogHeadTimelinessReceiptEnvelopeBytesV1 (value : Json) : aresult bytes :=
  let* _ := validateUnsignedReceiptEnvelopeSnapshot value in
  mapErr EAuthorityControl (canonicalizeUnsignedControlEnvelopeBytes value).

Definition canonicalizeSignedCatalogHeadTimelinessReceiptEnvelopeBytesV1 (value : Json) : aresult bytes :=
  let* _ := validateSignedReceiptEnvelopeSnapshot value in
  mapErr EAuthorityControl (canonicalizeSignedControlEnvelopeBytes sha256 value).

Definition authorityObjectDigest (value : Json) : aresult jsstr :=
  let* digest := mapErr EAuthorityControl (computeControlObjectDigestHex sha256 value) in
  let* _ := mapErr EAuthorityDigest (assertCanonicalDigest (JString digest)) in
  Ok digest.

Definition computeAuthorCatalogIssuerDelegationObjectDigestV1 (value : Json) : aresult jsstr :=
  let* _ := validateUnsignedDelegationEnvelopeSnapshot value in
  authorityObjectDigest value.

Definition computeCatalogHeadTimelinessReceiptObjectDigestV1 (value : Json) : aresult jsstr :=
  let* _ := validateUnsignedReceiptEnvelopeSnapshot value in
  authorityObjectDigest value.

Definition parseCanonicalUnsignedAuthorCatalogIssuerDelegationEnvelopeV1 (input : Input) (options : CanonicalJsonOptions) : aresult (UnsignedControlEnvelopeV1 * AuthorCatalogIssuerDelegationV1) :=
  let* e := mapErr EAuthorityControl (parseCanonicalUnsignedControlEnvelope input options) in
  validateUnsignedDelegationEnvelopeSnapshot (toCanonicalUnsignedEnvelope e).

Definition parseCanonicalSignedAuthorCatalogIssuerDelegationEnvelopeV1 (input : Input) (options : CanonicalJsonOptions) : aresult (SignedControlEnvelopeV1 * AuthorCatalogIssuerDelegationV1) :=
  let* e := mapErr EAuthorityControl (parseCanonicalSignedControlEnvelope sha256 input options) in
  validateSignedDelegationEnvelopeSnapshot (toCanonicalSignedEnvelope e).

Definition parseCanonicalUnsignedCatalogHeadTimelinessReceiptEnvelopeV1 (input : Input) (options : CanonicalJsonOptions) : aresult (UnsignedControlEnvelopeV1 * CatalogHeadTimelinessReceiptV1) :=
  let* e := mapErr EAuthorityControl (parseCanonicalUnsignedControlEnvelope input options) in
  validateUnsignedReceiptEnvelopeSnapshot (toCanonicalUnsignedEnvelope e).

Definition parseCanonicalSignedCatalogHeadTimelinessReceiptEnvelopeV1 (input : Input) (options : CanonicalJsonOptions) : aresult (SignedControlEnvelopeV1 * CatalogHeadTimelinessReceiptV1) :=
  let* e := mapErr EAuthorityControl (parseCanonicalSignedControlEnvelope sha256 input options) in
  validateSignedReceiptEnvelopeSnapshot (toCanonicalSignedEnvelope e).

End Authority.
