(* ===== verification/SignatureVerifier.v ===== *)
(** * Verification of the signatures of control objects

    packages/chain/src/control-object-signature-verifier.ts: canonical EIP-191
    signatures of externally owned accounts, EIP-1271 signatures of contract
    wallets at a finalized block, and the registry of verified signatures.

    The signature primitives of ethers and its ABI encoder are parameters, and so
    is the gateway to the chain, which is called with the request of the verifier.
    What settles first after the call (the gateway, the deadline or an abort of the
    caller) is the outcome of the call. *)

From S2P Require Import Prelude Bytes Merkle CodePoints JsText JsNumber CanonicalJson CanonicalJsonTheory CanonicalJsonRoundtrip.
From S2P Require Import PlainJson WireScalars KaTransfer AuthorLane AuthorCatalog ControlObject.

Open Scope Z_scope.

Definition EIP1271_MAGIC_VALUE_V1 : jsstr := js "0x1626ba7e".
Definition EIP1271_CANONICAL_ABI_RETURN_V1 : jsstr := js "0x" ++ drop 2 EIP1271_MAGIC_VALUE_V1 ++ replicate 56 (fromCharCode 0x30).
Definition CONTROL_EIP1271_MAX_RETURN_BYTES_V1 : Z := 32.

Definition CURRENT_FINALIZED_EVM_READ_CALL_FROM_V1 : jsstr := ZERO_EVM_ADDRESS.
Definition CURRENT_FINALIZED_EVM_READ_GAS_LIMIT_V1 : Z := 1000000.
Definition CURRENT_FINALIZED_EVM_READ_MAX_RPC_RESPONSE_BYTES_V1 : Z := 64 * 1024.
Definition CURRENT_FINALIZED_EVM_READ_ATTEMPT_TIMEOUT_MS_V1 : Z := 4000.
Definition CURRENT_FINALIZED_EVM_READ_MAX_ATTEMPTS_V1 : Z := 2.
Definition CURRENT_FINALIZED_EVM_READ_TOTAL_DEADLINE_MS_V1 : Z := 10000.
Definition CURRENT_FINALIZED_EVM_READ_MAX_CONCURRENT_PER_CHAIN_V1 : Z := 4.

Definition SECP256K1_N : Z := 0xfffffffffffffffffffffffffffffffebaaedce6af48a03bbfd25e8cd0364141.
Definition SECP256K1_HALF_N : Z := 0x7fffffffffffffffffffffffffffffff5d576e7357a4501ddfe92f46681b20a0.

(** ** Errors *)

Inductive ControlSignatureVerificationErrorCodeV1 :=
| SignatureEnvelopeInvalid
| SignatureEip191NonCanonical
| SignatureEip191Invalid
| SignatureIssuerMismatch
| SignatureEip1271Invalid
| SignatureEip1271ResourceLimit
| SignatureChainUnsupported
| SignatureChainMismatch
| SignatureFinalizedStateUnavailable
| SignatureRpcUnavailable
| SignatureRpcTimeout
| SignatureConcurrencySaturated
| SignatureAborted.

Inductive ControlSignatureVerificationDispositionV1 :=
| DispositionInvalid
| DispositionUnsupported
| DispositionRetryable
| DispositionCancelled.

Inductive ControlSignatureVerificationReasonV1 := ReasonNoCode | ReasonRevert | ReasonMalformedReturn | ReasonWrongMagic.

(** A [ControlSignatureVerificationErrorV1], or an error that passes through. *)
Inductive VerificationError :=
| EVerification (code : ControlSignatureVerificationErrorCodeV1) (disposition : ControlSignatureVerificationDispositionV1)
    (reason : option ControlSignatureVerificationReasonV1)
| EVerificationControl (e : ControlError)
| EVerificationDigest (e : ScalarError).

Abbreviation vresult := (result VerificationError).

Inductive CurrentFinalizedEvmCallErrorCodeV1 :=
| CallUnsupportedChain
| CallChainMismatch
| CallFinalizedStateUnavailable
| CallRpcUnavailable
| CallRpcTimeout
| CallConcurrencySaturated
| CallResourceLimit
| CallRevert
| CallNoCode
| CallMalformedReturn.

(** ** The gateway *)

(** The endpoint policy and the disabled CCIP read are the same in every request,
    and the abort signal is part of the outcome. *)
Record CurrentFinalizedEvmCallRequestV1 := {
  requestChainId : jsstr;
  requestTo : jsstr;
  requestFrom : jsstr;
  requestData : jsstr;
  gasLimit : Z;
  maxReturnBytes : Z;
  maxRpcResponseBytes : Z;
  attemptTimeoutMs : Z;
  maxAttempts : Z;
  maxConcurrentCallsPerChain : Z;
  totalDeadlineMs : Z
}.

Record CurrentFinalizedEvmCallResultV1 := {
  resultChainId : jsstr;
  resultBlockNumber : jsstr;
  resultBlockHash : jsstr;
  resultReturnData : jsstr
}.

(** What settles first.  A rejection carries the code of a
    [CurrentFinalizedEvmCallErrorV1], [None] for any other cause, and whether the
    caller's signal was aborted by then. *)
Inductive CallOutcome :=
| CallResolved (value : Json)
| CallRejected (cause : option CurrentFinalizedEvmCallErrorCodeV1) (aborted : bool)
| DeadlinePassed
| CallerAborted.

Inductive VerificationEvidence :=
| Eip191Evidence
| Eip1271Evidence (chainId contractAddress blockNumber blockHash : jsstr).

Record VerifiedControlEnvelopeIssuerSignatureSnapshotV1 := {
  provenObjectDigest : jsstr;
  provenVariantDigest : jsstr;
  provenIssuer : jsstr;
  provenSuite : jsstr;
  verificationEvidence : VerificationEvidence
}.

(** The weak map of verified signatures: a token is the position of its
    snapshot. *)
Abbreviation VerifiedSignatures := (list VerifiedControlEnvelopeIssuerSignatureSnapshotV1).

Definition mapFinalizedCallFailure {A} (cause : option CurrentFinalizedEvmCallErrorCodeV1) (aborted : bool) : vresult A :=
  throw EVerification SignatureAborted DispositionCancelled None when aborted;
  match cause with
  | None => Err (EVerification SignatureRpcUnavailable DispositionRetryable None)
  | Some code =>
      Err match code with
          | CallUnsupportedChain => EVerification SignatureChainUnsupported DispositionUnsupported None
          | CallChainMismatch => EVerification SignatureChainMismatch DispositionRetryable None
          | CallFinalizedStateUnavailable => EVerification SignatureFinalizedStateUnavailable DispositionRetryable None
          | CallRpcUnavailable => EVerification SignatureRpcUnavailable DispositionRetryable None
          | CallRpcTimeout => EVerification SignatureRpcTimeout DispositionRetryable None
          | CallConcurrencySaturated => EVerification SignatureConcurrencySaturated DispositionRetryable None
          | CallResourceLimit => EVerification SignatureEip1271ResourceLimit DispositionUnsupported None
          | CallRevert => EVerification SignatureEip1271Invalid DispositionInvalid (Some ReasonRevert)
          | CallNoCode => EVerification SignatureEip1271Invalid DispositionInvalid (Some ReasonNoCode)
          | CallMalformedReturn => EVerification SignatureEip1271Invalid DispositionInvalid (Some ReasonMalformedReturn)
          end
  end.

Definition callResultKeys : list jsstr := [js "blockHash"; js "blockNumber"; js "chainId"; js "returnData"].

(** The chain, the block and what was returned. *)
Definition callResultAnchor (input : Json) : vresult (jsstr * jsstr * jsstr * option Json) :=
  let malformed := EVerification SignatureRpcUnavailable DispositionRetryable None in
  match isPlainRecord input with
  | None => Err malformed
  | Some fields =>
      throw malformed when negb (assertExactKeys fields callResultKeys);
      let* chainId := checkedText malformed assertCanonicalChainId (field (js "chainId") fields) in
      let* blockNumber := checkedText malformed assertCanonicalDecimalU64 (field (js "blockNumber") fields) in
      let* blockHash := checkedText malformed assertCanonicalDigest (field (js "blockHash") fields) in
      Ok (chainId, blockNumber, blockHash, field (js "returnData") fields)
  end.

Definition validateFinalizedCallResult (input : Json) (expectedChainId : jsstr) : vresult CurrentFinalizedEvmCallResultV1 :=
  let* (anchor, returnData) := callResultAnchor input in
  let '(chainId, blockNumber, blockHash) := anchor in
  throw EVerification SignatureChainMismatch DispositionRetryable None when negb (bool_decide (chainId = expectedChainId));
  match returnData with
  | Some (JString data) =>
      throw EVerification SignatureEip1271Invalid DispositionInvalid (Some ReasonMalformedReturn) when negb (hexDigits 64 data);
      Ok {| resultChainId := chainId; resultBlockNumber := blockNumber; resultBlockHash := blockHash; resultReturnData := data |}
  | _ => Err (EVerification SignatureEip1271Invalid DispositionInvalid (Some ReasonMalformedReturn))
  end.

(** The parts of a 65-byte signature. *)
Definition signatureR (signature : jsstr) : Z := bigIntOfHex (js "0x" ++ take 64 (drop 2 signature)).
Definition signatureS (signature : jsstr) : Z := bigIntOfHex (js "0x" ++ take 64 (drop 66 signature)).
Definition signatureV (signature : jsstr) : jsstr := take 2 (drop 130 signature).

(** The encoding that is refused before the signer is recovered. *)
Definition nonCanonicalSignature (signature : jsstr) : bool :=
  (negb (bool_decide (signatureV signature = js "1b")) && negb (bool_decide (signatureV signature = js "1c")))
  || (signatureR signature <? 1) || (SECP256K1_N <=? signatureR signature)
  || (signatureS signature <? 1) || (SECP256K1_HALF_N <? signatureS signature).

(** [toLowerCase] on the ASCII text of an address. *)
Definition lowerUnit (u : codeUnit) : codeUnit := if inZ 0x41 0x5a (unitZ u) then fromCharCode (unitZ u + 0x20) else u.
Definition lowerText (s : jsstr) : jsstr := map lowerUnit s.

(** [ethers.getBytes] of a digest. *)
Definition getBytes (digest : jsstr) : bytes := parseHexPairs (drop 2 digest).

Section Verifier.
Context (sha256 : bytes -> bytes).

(** [ethers.Signature.from(s).serialized] and [ethers.verifyMessage]; [None] when
    they throw. *)
Context (signatureSerialized : jsstr -> option jsstr) (verifyMessage : bytes -> jsstr -> option jsstr).

(** [EIP1271_INTERFACE.encodeFunctionData] of a digest and a signature. *)
Context (encodeIsValidSignature : jsstr -> jsstr -> jsstr).

Definition snapshotEnvelope (input : Json) : vresult SignedControlEnvelopeV1 :=
  let invalid := EVerification SignatureEnvelopeInvalid DispositionInvalid None in
  let* bytes := rethrow invalid (canonicalizeSignedControlEnvelopeBytes sha256 input) in
  rethrow invalid (parseCanonicalSignedControlEnvelope sha256 (BytesInput bytes) defaultOptions).

Definition asDigest32 (value : jsstr) : vresult jsstr :=
  let* _ := mapErr EVerificationDigest (assertCanonicalDigest (JString value)) in
  Ok value.

Definition variantDigest32 (envelope : SignedControlEnvelopeV1) : vresult jsstr :=
  let* digest := mapErr EVerificationControl (computeControlSignatureVariantDigestHex sha256 (objectDigest envelope) (signature envelope)) in
  asDigest32 digest.

Definition verifyCanonicalEip191 (envelope : SignedControlEnvelopeV1) : vresult unit :=
  throw EVerification SignatureEip191NonCanonical DispositionInvalid None when nonCanonicalSignature (signature envelope);
  match signatureSerialized (signature envelope) with
  | None => Err (EVerification SignatureEip191Invalid DispositionInvalid None)
  | Some serialized =>
      throw EVerification SignatureEip191NonCanonical DispositionInvalid None when negb (bool_decide (serialized = signature envelope));
      match verifyMessage (getBytes (objectDigest envelope)) (signature envelope) with
      | None => Err (EVerification SignatureEip191Invalid DispositionInvalid None)
      | Some recovered =>
          throw EVerification SignatureIssuerMismatch DispositionInvalid None when
            negb (bool_decide (lowerText recovered = issuer (unsignedEnvelope envelope)));
          Ok tt
      end
  end.

Definition verifyCanonicalEip191EnvelopeV1 (envelope : SignedControlEnvelopeV1) : vresult VerifiedControlEnvelopeIssuerSignatureSnapshotV1 :=
  let* _ := verifyCanonicalEip191 envelope in
  let* objectDigest := asDigest32 (objectDigest envelope) in
  let* variantDigest := variantDigest32 envelope in
  Ok {| provenObjectDigest := objectDigest; provenVariantDigest := variantDigest; provenIssuer := issuer (unsignedEnvelope envelope);
        provenSuite := suiteText (signatureSuite (unsignedEnvelope envelope)); verificationEvidence := Eip191Evidence |}.

Definition eip1271Request (chainId contractAddress objectDigest signature : jsstr) : CurrentFinalizedEvmCallRequestV1 :=
  {| requestChainId := chainId; requestTo := contractAddress; requestFrom := CURRENT_FINALIZED_EVM_READ_CALL_FROM_V1;
     requestData := lowerText (encodeIsValidSignature objectDigest signature); gasLimit := CURRENT_FINALIZED_EVM_READ_GAS_LIMIT_V1;
     maxReturnBytes := CONTROL_EIP1271_MAX_RETURN_BYTES_V1; maxRpcResponseBytes := CURRENT_FINALIZED_EVM_READ_MAX_RPC_RESPONSE_BYTES_V1;
     attemptTimeoutMs := CURRENT_FINALIZED_EVM_READ_ATTEMPT_TIMEOUT_MS_V1; maxAttempts := CURRENT_FINALIZED_EVM_READ_MAX_ATTEMPTS_V1;
     maxConcurrentCallsPerChain := CURRENT_FINALIZED_EVM_READ_MAX_CONCURRENT_PER_CHAIN_V1;
     totalDeadlineMs := CURRENT_FINALIZED_EVM_READ_TOTAL_DEADLINE_MS_V1 |}.

(** The gateway of the options, and whether their signal was aborted at the start. *)
Record VerifyControlEnvelopeIssuerSignatureOptionsV1 := {
  callEvmAtCurrentFinalized : option (CurrentFinalizedEvmCallRequestV1 -> CallOutcome);
  signalAborted : bool
}.

Definition awaitFinalizedCall (outcome : CallOutcome) (expectedChainId : jsstr) : vresult CurrentFinalizedEvmCallResultV1 :=
  match outcome with
  | DeadlinePassed => Err (EVerification SignatureRpcTimeout DispositionRetryable None)
  | CallerAborted => Err (EVerification SignatureAborted DispositionCancelled None)
  | CallRejected cause aborted => mapFinalizedCallFailure cause aborted
  | CallResolved value => validateFinalizedCallResult value expectedChainId
  end.

Definition verifySignature (input : Json) (options : VerifyControlEnvelopeIssuerSignatureOptionsV1) : vresult VerifiedControlEnvelopeIssuerSignatureSnapshotV1 :=
  let* envelope := snapshotEnvelope input in
  let* digest := asDigest32 (objectDigest envelope) in
  let* variantDigest := variantDigest32 envelope in
  match signatureSuite (unsignedEnvelope envelope) with
  | Eip191 => verifyCanonicalEip191EnvelopeV1 envelope
  | Eip1271 chainId contractAddress =>
      match callEvmAtCurrentFinalized options with
      | None => Err (EVerification SignatureChainUnsupported DispositionUnsupported None)
      | Some call =>
          throw EVerification SignatureAborted DispositionCancelled None when signalAborted options;
          let request := eip1271Request chainId contractAddress (objectDigest envelope) (signature envelope) in
          let* evidence := awaitFinalizedCall (call request) (requestChainId request) in
          throw EVerification SignatureEip1271Invalid DispositionInvalid (Some ReasonWrongMagic) when
            negb (bool_decide (resultReturnData evidence = EIP1271_CANONICAL_ABI_RETURN_V1));
          Ok {| provenObjectDigest := digest; provenVariantDigest := variantDigest; provenIssuer := issuer (unsignedEnvelope envelope);
                provenSuite := suiteText (signatureSuite (unsignedEnvelope envelope));
                verificationEvidence := Eip1271Evidence (requestChainId request) (requestTo request) (resultBlockNumber evidence) (resultBlockHash evidence) |}
      end
  end.

(** ** Tokens *)

Definition mintVerifiedControlEnvelopeIssuerSignatureV1 (registry : VerifiedSignatures) (snapshot : VerifiedControlEnvelopeIssuerSignatureSnapshotV1) : nat * VerifiedSignatures :=
  (length registry, registry ++ [snapshot]).

Definition verifyControlEnvelopeIssuerSignatureV1 (registry : VerifiedSignatures) (input : Json) (options : VerifyControlEnvelopeIssuerSignatureOptionsV1) : vresult (nat * VerifiedSignatures) :=
  let* snapshot := verifySignature input options in
  Ok (mintVerifiedControlEnvelopeIssuerSignatureV1 registry snapshot).

Definition verifyEip191ControlEnvelopeIssuerSignatureV1 (registry : VerifiedSignatures) (input : Json) : vresult (nat * VerifiedSignatures) :=
  let* envelope := snapshotEnvelope input in
  match signatureSuite (unsignedEnvelope envelope) with
  | Eip191 =>
      let* snapshot := verifyCanonicalEip191EnvelopeV1 envelope in
      Ok (mintVerifiedControlEnvelopeIssuerSignatureV1 registry snapshot)
  | Eip1271 _ _ => Err (EVerification SignatureChainUnsupported DispositionUnsupported None)
  end.

End Verifier.

(** The [TypeError] for a value that no verification minted is [None]. *)
Definition readVerifiedControlEnvelopeIssuerSignatureV1 (registry : VerifiedSignatures) (value : option nat) : option VerifiedControlEnvelopeIssuerSignatureSnapshotV1 :=
  token ← value; registry !! token.
