(* ===== verification/SignatureTheory.v ===== *)
(** * What a verified signature establishes

    The registry of verified signatures holds only signatures that the key of the
    issuer made on the digest of the object, or that the contract of the issuer
    confirmed at a finalized block. *)

From S2P Require Import Prelude Bytes Merkle CodePoints JsText JsNumber CanonicalJson CanonicalJsonTheory CanonicalJsonRoundtrip.
From S2P Require Import PlainJson WireScalars KaTransfer AuthorLane AuthorCatalog AuthorCatalogTheory AuthorCatalogRows AuthorCatalogSafety.
From S2P Require Import JsonEquiv ControlObject ControlObjectTheory ControlObjectSafety SignatureVerifier.

Open Scope Z_scope.

(** A contract wallet is the issuer of what it signs. *)
Lemma unsigned_contract v e chainId contract :
  assertUnsignedControlEnvelopeFields v = Ok e -> signatureSuite e = Eip1271 chainId contract -> contract = issuer e.
Proof.
  intros H Es. destruct v as [| | | | |fs]; try done. cbn [assertUnsignedControlEnvelopeFields isPlainRecord] in H. cbv zeta in H.
  apply throw_if_Ok in H as [_ H]. apply result_bind_Ok in H as (ty & _ & H). apply throw_if_Ok in H as [_ H].
  apply result_bind_Ok in H as (i & _ & H). apply result_bind_Ok in H as (suite & Hs & [= <-]). cbn [signatureSuite issuer] in *. subst suite.
  unfold assertSignatureEvidence in Hs. destruct (isPlainRecord _); [|done]. destruct (fieldIs _ _).
  - do 2 apply throw_if_Ok in Hs as [_ Hs]. done.
  - do 2 apply throw_if_Ok in Hs as [_ Hs]. do 2 apply result_bind_Ok in Hs as (? & _ & Hs).
    by apply throw_if_Ok in Hs as [Hc%negb_false_iff%bool_decide_eq_true [= -> ->]].
Qed.

Lemma signed_contract v e chainId contract :
  assertSignedControlEnvelopeFields v = Ok e -> signatureSuite (unsignedEnvelope e) = Eip1271 chainId contract -> contract = issuer (unsignedEnvelope e).
Proof.
  intros H. destruct v as [| | | | |fs]; try done. cbn [assertSignedControlEnvelopeFields isPlainRecord] in H. apply throw_if_Ok in H as [_ H].
  apply result_bind_Ok in H as (u & Hu & H). do 2 apply result_bind_Ok in H as (? & _ & H). injection H as <-. exact (unsigned_contract _ _ _ _ Hu).
Qed.

(** A 65-byte signature in its canonical form: r in the range of the group order, s in
    its lower half, v one of 27 and 28. *)
Definition CanonicalSignature (signature : jsstr) : Prop :=
  (signatureV signature = js "1b" \/ signatureV signature = js "1c") /\
  1 <= signatureR signature < SECP256K1_N /\ 1 <= signatureS signature <= SECP256K1_N / 2.

Lemma canonical_signature signature : nonCanonicalSignature signature = false -> CanonicalSignature signature.
Proof.
  unfold nonCanonicalSignature. rewrite !orb_false_iff, andb_false_iff, !negb_false_iff, !bool_decide_eq_true, !Z.ltb_ge, Z.leb_gt.
  intros [[[[Hv Hr1] Hr2] Hs1] Hs2]. change (SECP256K1_N / 2) with SECP256K1_HALF_N. unfold CanonicalSignature. tauto.
Qed.

(** The answer of a gateway: a block of the chain and the data that the call returned. *)
Definition CallAnswer (value : Json) (chainId blockNumber blockHash returnData : jsstr) : Prop :=
  exists fields, value = JObject fields /\ field (js "chainId") fields = Some (JString chainId) /\
    field (js "blockNumber") fields = Some (JString blockNumber) /\ field (js "blockHash") fields = Some (JString blockHash) /\
    field (js "returnData") fields = Some (JString returnData).

Lemma call_answer value chainId r :
  validateFinalizedCallResult value chainId = Ok r ->
  CallAnswer value chainId (resultBlockNumber r) (resultBlockHash r) (resultReturnData r).
Proof.
  unfold validateFinalizedCallResult, callResultAnchor. intros H. apply result_bind_Ok in H as ([[[c n] h] data] & Ha & H).
  destruct value as [| | | | |fs]; try done. cbn [isPlainRecord] in Ha. apply throw_if_Ok in Ha as [_ Ha].
  apply result_bind_Ok in Ha as (c' & [Hc _]%checkedText_Ok & Ha). apply result_bind_Ok in Ha as (n' & [Hn _]%checkedText_Ok & Ha).
  apply result_bind_Ok in Ha as (h' & [Hh _]%checkedText_Ok & Ha). injection Ha as -> -> -> <-.
  apply throw_if_Ok in H as [->%negb_false_iff%bool_decide_eq_true H]. destruct (field (js "returnData") fs) as [[| | |data'| |]|] eqn:Ed; try done.
  apply throw_if_Ok in H as [_ [= <-]]. by exists fs.
Qed.

Section Signatures.
Context (sha256 : bytes -> bytes) (signatureSerialized : jsstr -> option jsstr) (verifyMessage : bytes -> jsstr -> option jsstr).
Context (encodeIsValidSignature : jsstr -> jsstr -> jsstr).

(** The gateways of the process. *)
Context (Gateway : (CurrentFinalizedEvmCallRequestV1 -> CallOutcome) -> Prop).

Abbreviation verifySigned := (verifySignature sha256 signatureSerialized verifyMessage encodeIsValidSignature).

(** [signer] signed [digest]: the canonical [signature] recovers the address of the
    signer, or its contract returned the magic value for it. *)
Inductive SignedBy (digest signature signer : jsstr) : VerificationEvidence -> Prop :=
| SignedByKey recovered :
    CanonicalSignature signature -> verifyMessage (getBytes digest) signature = Some recovered -> lowerText recovered = signer ->
    SignedBy digest signature signer Eip191Evidence
| SignedByContract call request value chainId blockNumber blockHash :
    Gateway call -> requestChainId request = chainId -> requestTo request = signer -> requestData request = lowerText (encodeIsValidSignature digest signature) ->
    call request = CallResolved value ->
    CallAnswer value chainId blockNumber blockHash EIP1271_CANONICAL_ABI_RETURN_V1 ->
    SignedBy digest signature signer (Eip1271Evidence chainId signer blockNumber blockHash).

(** What the snapshot of a verified signature says is so. *)
Definition Authentic (snapshot : VerifiedControlEnvelopeIssuerSignatureSnapshotV1) : Prop :=
  exists signature, computeControlSignatureVariantDigestHex sha256 (provenObjectDigest snapshot) signature = Ok (provenVariantDigest snapshot) /\
    SignedBy (provenObjectDigest snapshot) signature (provenIssuer snapshot) (verificationEvidence snapshot).

(** The registries that the two verifiers produce. *)
Inductive VerifiedRegistry : VerifiedSignatures -> Prop :=
| NoSignatures : VerifiedRegistry []
| SignatureVerified registry input options token registry' :
    VerifiedRegistry registry -> (forall call, callEvmAtCurrentFinalized options = Some call -> Gateway call) ->
    verifyControlEnvelopeIssuerSignatureV1 sha256 signatureSerialized verifyMessage encodeIsValidSignature registry input options = Ok (token, registry') ->
    VerifiedRegistry registry'
| Eip191SignatureVerified registry input token registry' :
    VerifiedRegistry registry ->
    verifyEip191ControlEnvelopeIssuerSignatureV1 sha256 signatureSerialized verifyMessage registry input = Ok (token, registry') ->
    VerifiedRegistry registry'.

Lemma variantDigest32_Ok e d :
  variantDigest32 sha256 e = Ok d -> computeControlSignatureVariantDigestHex sha256 (objectDigest e) (signature e) = Ok d.
Proof.
  unfold variantDigest32, asDigest32. intros (x & Hx%mapErr_Ok & H)%result_bind_Ok. by apply result_bind_Ok in H as (? & _ & [= ->]).
Qed.

Lemma asDigest32_Ok v d : asDigest32 v = Ok d -> d = v.
Proof. unfold asDigest32. by intros (? & _ & [= ->])%result_bind_Ok. Qed.

Lemma snapshotEnvelope_contract input e chainId contract :
  snapshotEnvelope sha256 input = Ok e -> signatureSuite (unsignedEnvelope e) = Eip1271 chainId contract -> contract = issuer (unsignedEnvelope e).
Proof.
  unfold snapshotEnvelope. intros (b & _ & H%rethrow_Ok)%result_bind_Ok. unfold parseCanonicalSignedControlEnvelope in H.
  apply result_bind_Ok in H as (v & _ & H). unfold assertSignedControlEnvelope in H. apply result_bind_Ok in H as ([e' b'] & H & [= ->]).
  unfold validateSignedControlEnvelope in H. apply result_bind_Ok in H as (e' & Ha & H). do 2 apply result_bind_Ok in H as (? & _ & H).
  apply throw_if_Ok in H as [_ [= -> _]]. exact (signed_contract _ _ _ _ Ha).
Qed.

Lemma eip191_authentic e s : verifyCanonicalEip191EnvelopeV1 sha256 signatureSerialized verifyMessage e = Ok s -> Authentic s.
Proof.
  unfold verifyCanonicalEip191EnvelopeV1. intros H. apply result_bind_Ok in H as (u & Hu & H). apply result_bind_Ok in H as (d & ->%asDigest32_Ok & H).
  apply result_bind_Ok in H as (vd & Hvd%variantDigest32_Ok & [= <-]). exists (signature e). split; [exact Hvd|].
  unfold verifyCanonicalEip191 in Hu. apply throw_if_Ok in Hu as [Hn Hu]. destruct (signatureSerialized _) as [t|]; [|done].
  apply throw_if_Ok in Hu as [_ Hu]. destruct (verifyMessage _ _) as [r|] eqn:Hr; [|done].
  apply throw_if_Ok in Hu as [Hs%negb_false_iff%bool_decide_eq_true _]. exact (SignedByKey _ _ _ r (canonical_signature _ Hn) Hr Hs).
Qed.

Lemma awaitFinalizedCall_Ok outcome chainId r :
  awaitFinalizedCall outcome chainId = Ok r -> exists value, outcome = CallResolved value /\ validateFinalizedCallResult value chainId = Ok r.
Proof.
  destruct outcome as [value|cause aborted| |]; try done.
  - intros H. by exists value.
  - cbn [awaitFinalizedCall]. unfold mapFinalizedCallFailure. intros [_ H]%throw_if_Ok. by destruct cause.
Qed.

Lemma verifySignature_authentic input options s :
  (forall call, callEvmAtCurrentFinalized options = Some call -> Gateway call) -> verifySigned input options = Ok s -> Authentic s.
Proof.
  intros Hg. unfold verifySignature. intros H. apply result_bind_Ok in H as (e & He & H). apply result_bind_Ok in H as (d & ->%asDigest32_Ok & H).
  apply result_bind_Ok in H as (vd & Hvd%variantDigest32_Ok & H). destruct (signatureSuite _) as [|chainId contract] eqn:Es; [exact (eip191_authentic _ _ H)|].
  pose proof (snapshotEnvelope_contract _ _ _ _ He Es) as ->. destruct (callEvmAtCurrentFinalized options) as [call|] eqn:Ec; [|done].
  apply throw_if_Ok in H as [_ H]. apply result_bind_Ok in H as (r & Hr & H). apply throw_if_Ok in H as [Hm%negb_false_iff%bool_decide_eq_true [= <-]].
  apply awaitFinalizedCall_Ok in Hr as (value & Hv & Hr). exists (signature e). split; [exact Hvd|]. apply call_answer in Hr. rewrite Hm in Hr.
  eapply SignedByContract; [exact (Hg _ eq_refl)| | | |exact Hv|exact Hr]; reflexivity.
Qed.

Lemma registry_authentic registry : VerifiedRegistry registry -> Forall Authentic registry.
Proof.
  intros H. induction H as [|registry input options token registry' _ IH Hg H|registry input token registry' _ IH H]; [constructor| |].
  - unfold verifyControlEnvelopeIssuerSignatureV1 in H. apply result_bind_Ok in H as (s & Hs & [= _ <-]).
    apply Forall_app. split; [exact IH|]. constructor; [|constructor]. exact (verifySignature_authentic _ _ _ Hg Hs).
  - unfold verifyEip191ControlEnvelopeIssuerSignatureV1 in H. apply result_bind_Ok in H as (e & _ & H). destruct (signatureSuite _); [|done].
    apply result_bind_Ok in H as (s & Hs & [= _ <-]). apply Forall_app. split; [exact IH|]. constructor; [|constructor]. exact (eip191_authentic _ _ Hs).
Qed.

(** C13: Whatever calls of the two verifiers filled the registry, the snapshot that a
    token opens is of a signature that the issuer made: a canonical signature of the
    object digest that recovers the issuer's address, or one that the issuer's
    contract confirmed with the magic value at a finalized block of its chain; and
    the variant digest is the one of that signature. *)
Theorem verified_signature_authentic registry token s :
  VerifiedRegistry registry -> readVerifiedControlEnvelopeIssuerSignatureV1 registry token = Some s ->
  exists signature, computeControlSignatureVariantDigestHex sha256 (provenObjectDigest s) signature = Ok (provenVariantDigest s) /\
    SignedBy (provenObjectDigest s) signature (provenIssuer s) (verificationEvidence s).
Proof.
  intros Hr H. unfold readVerifiedControlEnvelopeIssuerSignatureV1 in H. destruct token as [token|]; [|done]. cbn [mbind option_bind] in H.
  apply registry_authentic in Hr. rewrite Forall_forall in Hr. exact (Hr _ (list_elem_of_lookup_2 _ _ _ H)).
Qed.

End Signatures.

(** ** Examples *)

(** The key of the sample author made every signature. *)
Definition sampleVerifyMessage (message : bytes) (signature : jsstr) : option jsstr := Some (lowerHex sampleAuthor).

(** An envelope of the author's contract wallet. *)
Definition walletEnvelope : SignedControlEnvelopeV1 :=
  let unsigned := {| objectType := js "dkg/example/v1"; payload := JObject sampleFields; issuer := lowerHex sampleAuthor;
                     signatureSuite := Eip1271 (js "20430") (lowerHex sampleAuthor) |} in
  {| unsignedEnvelope := unsigned; objectDigest := lowerHex (sampleHash (objectInput unsigned)); signature := js "0x01" |}.

(** A gateway to a chain where every wallet confirms. *)
Definition sampleGateway (request : CurrentFinalizedEvmCallRequestV1) : CallOutcome :=
  CallResolved (JObject [(js "blockHash", JString sampleDigest); (js "blockNumber", JString (js "7")); (js "chainId", JString (requestChainId request));
                         (js "returnData", JString EIP1271_CANONICAL_ABI_RETURN_V1)]).

Definition sampleEncode (digest signature : jsstr) : jsstr := digest ++ signature.
Definition sampleOptions : VerifyControlEnvelopeIssuerSignatureOptionsV1 := {| callEvmAtCurrentFinalized := Some sampleGateway; signalAborted := false |}.

(** The registry after a call. *)
Definition registryAfter {E A B} (r : result E (A * B)) (registry : B) : B :=
  match r with Ok (_, registry') => registry' | Err _ => registry end.

Definition keySignature : VerifiedSignatures :=
  registryAfter (verifyEip191ControlEnvelopeIssuerSignatureV1 sampleHash Some sampleVerifyMessage [] (toCanonicalSignedEnvelope (sampleEnvelope sampleFields))) [].

Definition twoSignatures : VerifiedSignatures :=
  registryAfter (verifyControlEnvelopeIssuerSignatureV1 sampleHash Some sampleVerifyMessage sampleEncode keySignature
    (toCanonicalSignedEnvelope walletEnvelope) sampleOptions) keySignature.

Definition walletSnapshot : VerifiedControlEnvelopeIssuerSignatureSnapshotV1 :=
  {| provenObjectDigest := objectDigest walletEnvelope;
     provenVariantDigest := lowerHex (sampleHash (encodeUtf8 CONTROL_SIGNATURE_VARIANT_DIGEST_DOMAIN));
     provenIssuer := lowerHex sampleAuthor; provenSuite := EIP1271_SUITE;
     verificationEvidence := Eip1271Evidence (js "20430") (lowerHex sampleAuthor) (js "7") sampleDigest |}.

Lemma verified_signature_authentic_witness :
  exists signature, computeControlSignatureVariantDigestHex sampleHash (provenObjectDigest walletSnapshot) signature = Ok (provenVariantDigest walletSnapshot) /\
    SignedBy sampleVerifyMessage sampleEncode (eq sampleGateway) (provenObjectDigest walletSnapshot) signature (provenIssuer walletSnapshot)
      (verificationEvidence walletSnapshot).
Proof.
  apply (verified_signature_authentic sampleHash Some sampleVerifyMessage sampleEncode (eq sampleGateway) twoSignatures (Some 1%nat));
    [|vm_compute; reflexivity].
  apply (SignatureVerified _ _ _ _ _ keySignature (toCanonicalSignedEnvelope walletEnvelope) sampleOptions 1 twoSignatures);
    [|by intros call [= <-]|vm_compute; reflexivity].
  apply (Eip191SignatureVerified _ _ _ _ _ [] (toCanonicalSignedEnvelope (sampleEnvelope sampleFields)) 0 keySignature);
    [apply NoSignatures|vm_compute; reflexivity].
Defined.
