(* ===== verification/RowAuthorship.v ===== *)
(** * Authorship of catalog rows

    packages/agent/src/rfc64/catalog-row-authorship.ts: the closure that makes one
    row of a signed bucket the word of its author: the delegation of the issuer key,
    direct or through an operational key of the author, the head, the path of the
    directory, the bucket, their verified signatures, and the row.  The digest of a
    delegation to an operational key is that of
    packages/agent/src/auth/agent-delegation.ts.

    The signature primitive of ethers, keccak256 and the ABI encoder are
    parameters.  When a call fails, the proof of a path that it had minted is held
    by nobody and is left out of the registry. *)

From S2P Require Import Prelude Bytes Merkle CodePoints JsText JsNumber CanonicalJson CanonicalJsonTheory CanonicalJsonRoundtrip.
From S2P Require Import PlainJson WireScalars KaTransfer AuthorLane AuthorCatalog ControlObject CatalogObjects CatalogDirectory.
From S2P Require Import CatalogAuthority SignatureVerifier.

Open Scope Z_scope.

Definition AUTHOR_CATALOG_AGENT_SCOPE_DIGEST_DOMAIN_V1 : jsstr := js "dkg-author-catalog-agent-scope-v1" ++ [fromCharCode 0x0a].
Definition AUTHOR_AGENT_DELEGATION_EVIDENCE_DIGEST_DOMAIN_V1 : jsstr := js "dkg-author-agent-delegation-evidence-v1" ++ [fromCharCode 0x0a].
Definition AUTHOR_CATALOG_AGENT_SCOPE_PREFIX_V1 : jsstr := js "dkg:rfc64:author-catalog-issuer-v1:".
Definition MAX_AUTHOR_AGENT_DELEGATION_EVIDENCE_BYTES_V1 : Z := 4096.
Definition MAX_AUTHOR_AGENT_DELEGATEE_PEER_ID_BYTES_V1 : Z := 256.
Definition MAX_AUTHOR_AGENT_DELEGATION_TIMESTAMP_V1 : Z := 9007199254740991.

Record AuthorAgentDelegationEvidenceV1 := {
  evidenceAuthor : jsstr;
  delegateeOpKey : jsstr;
  delegateePeerId : option jsstr;
  evidenceExpiresAt : jsstr;
  evidenceIssuedAt : jsstr;
  evidenceScope : jsstr;
  evidenceSignature : jsstr
}.

(** The fields of a snapshot that do not depend on the row. *)
Record SharedAuthorship := {
  authorCatalogAgentScopeDigest : jsstr;
  sharedEvidenceDigest : option jsstr;
  catalogIssuerDelegationObjectDigest : jsstr;
  catalogIssuerDelegationSignatureVariantDigest : jsstr;
  catalogHeadObjectDigest : jsstr;
  catalogHeadSignatureVariantDigest : jsstr;
  directoryPathObjectDigests : list jsstr;
  directoryPathSignatureVariantDigests : list jsstr;
  bucketObjectDigest : jsstr;
  bucketSignatureVariantDigest : jsstr;
  sharedScopeDigest : jsstr;
  sharedLane : AuthorLaneScopeV1;
  sharedIssuerKey : jsstr;
  sharedVersion : jsstr;
  sharedBucketId : jsstr;
  sharedEffectiveAt : jsstr;
  sharedExpiresAt : jsstr;
  headIssuedAt : jsstr
}.

Record VerifiedAuthorCatalogRowAuthorshipSnapshotV1 := {
  shared : SharedAuthorship;
  catalogRowDigest : jsstr;
  transferIdentityDigest : jsstr;
  authorshipRow : AuthorCatalogRowV1
}.

Inductive AuthorCatalogRowAuthorshipErrorCodeV1 :=
| AuthorshipInputInvalid
| AuthorshipDependencyMissing
| AuthorshipSignatureProofInvalid
| AuthorshipParentEvidenceInvalid
| AuthorshipParentDigestMismatch
| AuthorshipParentScopeMismatch
| AuthorshipIssuerClosureMismatch
| AuthorshipIntervalMismatch
| AuthorshipHeadBindingMismatch
| AuthorshipPathBindingMismatch
| AuthorshipBucketBindingMismatch
| AuthorshipRowBindingMismatch
| AuthorshipCapabilityInvalid.

(** An [AuthorCatalogRowAuthorshipErrorV1], or an error that passes through. *)
Inductive AuthorshipError :=
| EAuthorship (code : AuthorCatalogRowAuthorshipErrorCodeV1)
| EAuthorshipObject (e : ObjectError)
| EAuthorshipCodec (e : CatalogError)
| EAuthorshipControl (e : ControlError)
| EAuthorshipTransfer (e : DescriptorError)
| EAuthorshipDigest (e : ScalarError).

Abbreviation wresult := (result AuthorshipError).

(** ** Values of the process *)

(** The frozen objects that verifiers mint; their prototype is null and they have
    no fields. *)
Inductive Token :=
| SignatureToken (position : nat)
| PathToken (position : nat)
| AuthorshipToken (position : nat).

(** JSON data with tokens in it. *)
Unset Elimination Schemes.
Inductive Value :=
| VJson (v : Json)
| VToken (token : Token)
| VArray (items : list Value)
| VRecord (fields : list (jsstr * Value)).
Set Elimination Schemes.

(** What the codecs see. *)
Fixpoint asJson (value : Value) : Json :=
  match value with
  | VJson v => v
  | VToken _ => JObject []
  | VArray items => JArray (map asJson items)
  | VRecord fields => JObject (map (fun '(key, item) => (key, asJson item)) fields)
  end.

Definition arrayItems (value : Value) : option (list Value) :=
  match value with
  | VJson (JArray items) => Some (map VJson items)
  | VArray items => Some items
  | _ => None
  end.

Definition recordFields (value : Value) : option (list (jsstr * Value)) :=
  match value with
  | VJson (JObject fields) => Some (map (fun '(key, item) => (key, VJson item)) fields)
  | VToken _ => Some []
  | VRecord fields => Some fields
  | _ => None
  end.

Definition valueField (key : jsstr) (fields : list (jsstr * Value)) : option Value :=
  snd <$> List.find (fun f => bool_decide (f.1 = key)) fields.

Definition isNullValue (value : Value) : bool := match value with VJson JNull => true | _ => false end.

(** The three registries; a token is a position in its registry. *)
Record Registries := {
  verifiedSignatures : VerifiedSignatures;
  verifiedPaths : VerifiedPaths;
  verifiedAuthorships : list VerifiedAuthorCatalogRowAuthorshipSnapshotV1
}.

(** ** Inputs *)

Definition BUCKET_AUTHORSHIPS_INPUT_KEYS : list jsstr :=
  [js "catalogBucket"; js "catalogBucketSignature"; js "catalogHead"; js "catalogHeadSignature"; js "catalogIssuerDelegation";
   js "catalogIssuerDelegationSignature"; js "directoryPathEnvelopes"; js "directoryPathProof"; js "directoryPathSignatures";
   js "parentAuthorAgentEvidence"].

Definition ROW_AUTHORSHIP_INPUT_KEYS : list jsstr := BUCKET_AUTHORSHIPS_INPUT_KEYS ++ [js "targetKaId"].

Definition snapshotInputFields (input : Value) (expected : list jsstr) : wresult (list (jsstr * Value)) :=
  match recordFields input with
  | None => Err (EAuthorship AuthorshipInputInvalid)
  | Some fields =>
      throw EAuthorship AuthorshipInputInvalid when existsb (fun key => negb (bool_decide (key ∈ expected))) fields.*1;
      let missing := List.filter (fun key => negb (bool_decide (key ∈ fields.*1))) expected in
      throw EAuthorship (if forallb (fun key => negb (bool_decide (key = js "targetKaId"))) missing
                         then AuthorshipDependencyMissing else AuthorshipInputInvalid)
        when negb (bool_decide (missing = []));
      throw EAuthorship AuthorshipDependencyMissing when
        existsb (fun key => negb (bool_decide (key = js "parentAuthorAgentEvidence")) && negb (bool_decide (key = js "targetKaId"))
                            && isNullValue (default (VJson JNull) (valueField key fields))) expected;
      Ok fields
  end.

(** The fields of a closure. *)
Record BucketAuthorshipsInput := {
  inputDelegation : Value;
  inputDelegationSignature : Value;
  inputParentEvidence : Value;
  inputHead : Value;
  inputHeadSignature : Value;
  inputPathEnvelopes : Value;
  inputPathSignatures : Value;
  inputPathProof : Value;
  inputBucket : Value;
  inputBucketSignature : Value
}.

Definition closureInput (fields : list (jsstr * Value)) : BucketAuthorshipsInput :=
  let get key := default (VJson JNull) (valueField (js key) fields) in
  {| inputDelegation := get "catalogIssuerDelegation"; inputDelegationSignature := get "catalogIssuerDelegationSignature";
     inputParentEvidence := get "parentAuthorAgentEvidence"; inputHead := get "catalogHead"; inputHeadSignature := get "catalogHeadSignature";
     inputPathEnvelopes := get "directoryPathEnvelopes"; inputPathSignatures := get "directoryPathSignatures";
     inputPathProof := get "directoryPathProof"; inputBucket := get "catalogBucket"; inputBucketSignature := get "catalogBucketSignature" |}.

Definition snapshotBucketAuthorshipsInput (input : Value) : wresult BucketAuthorshipsInput :=
  let* fields := snapshotInputFields input BUCKET_AUTHORSHIPS_INPUT_KEYS in
  Ok (closureInput fields).

(** The closure and the value of [targetKaId]. *)
Definition snapshotRowAuthorshipInput (input : Value) : wresult (BucketAuthorshipsInput * Value) :=
  let* fields := snapshotInputFields input ROW_AUTHORSHIP_INPUT_KEYS in
  Ok (closureInput fields, default (VJson JNull) (valueField (js "targetKaId") fields)).

Definition assertOrdinaryArrayExactLength (value : Value) (code : AuthorCatalogRowAuthorshipErrorCodeV1) (expectedLength : Z) : wresult (list Value) :=
  match arrayItems value with
  | None => Err (EAuthorship code)
  | Some items =>
      throw EAuthorship code when negb (js_length items =? expectedLength);
      Ok items
  end.

Definition snapshotTargetKaId (input : Value) : wresult jsstr :=
  match input with
  | VJson (JString kaId) =>
      let* _ := rethrow (EAuthorship AuthorshipInputInvalid) (assertCanonicalKaId (JString kaId)) in
      Ok kaId
  | _ => Err (EAuthorship AuthorshipInputInvalid)
  end.

(** ** Records of strings and nulls *)

Definition isStringOrNull (value : Json) : bool := match value with JString _ | JNull => true | _ => false end.

(** The fields in the order of [expectedKeys]. *)
Definition exactPrimitiveDataSnapshot (input : list (jsstr * Json)) (expectedKeys : list jsstr) (code : AuthorCatalogRowAuthorshipErrorCodeV1) : wresult (list (jsstr * Json)) :=
  throw EAuthorship code when negb (assertExactKeys input expectedKeys);
  let snapshot := map (fun key => (key, default JNull (field key input))) expectedKeys in
  throw EAuthorship code when existsb (fun f => negb (isStringOrNull f.2)) snapshot;
  Ok snapshot.

(** [JSON.stringify] of the fields in the order of their names, for strings with
    paired surrogates. *)
Definition canonicalizeStringRecord (fields : list (jsstr * Json)) : jsstr := canonText (JObject fields).

Definition assertEvmAddress (value : option Json) : wresult jsstr :=
  match value with
  | Some (JString s) =>
      throw EAuthorship AuthorshipInputInvalid when negb (hexDigits 40 s) || bool_decide (s = ZERO_EVM_ADDRESS);
      Ok s
  | _ => Err (EAuthorship AuthorshipInputInvalid)
  end.

Definition assertPeerId (value : option Json) : wresult jsstr :=
  let invalid := EAuthorship AuthorshipParentEvidenceInvalid in
  match value with
  | Some (JString s) =>
      throw invalid when js_length s =? 0;
      throw invalid when negb (wellFormedUnicode s);
      throw invalid when (js_length (encodeUtf8 s) <? 1) || (MAX_AUTHOR_AGENT_DELEGATEE_PEER_ID_BYTES_V1 <? js_length (encodeUtf8 s));
      throw invalid when existsb (fun codePoint => (codePoint <=? 0x1f) || (codePoint =? 0x7f)) (codePoints s);
      Ok s
  | _ => Err invalid
  end.

(** The text and its value. *)
Definition assertFinitePositiveTimestamp (value : option Json) : wresult (jsstr * Z) :=
  let invalid := EAuthorship AuthorshipParentEvidenceInvalid in
  match value with
  | Some (JString s) =>
      let* parsed := rethrow invalid (parseCanonicalDecimalU64 (JString s)) in
      throw invalid when (parsed <? 1) || (MAX_AUTHOR_AGENT_DELEGATION_TIMESTAMP_V1 <? parsed);
      Ok (s, parsed)
  | _ => Err invalid
  end.

Definition assertEvidenceScope (value : option Json) : wresult jsstr :=
  let invalid := EAuthorship AuthorshipParentEvidenceInvalid in
  match value with
  | Some (JString s) =>
      throw invalid when js_length s =? 0;
      throw invalid when MAX_AUTHOR_AGENT_DELEGATION_EVIDENCE_BYTES_V1 <? js_length s;
      throw invalid when negb (wellFormedUnicode s);
      Ok s
  | _ => Err invalid
  end.

Definition assertEvidenceSignature (value : option Json) : wresult jsstr :=
  match value with
  | Some (JString s) =>
      throw EAuthorship AuthorshipParentEvidenceInvalid when negb (hexDigits 130 s);
      Ok s
  | _ => Err (EAuthorship AuthorshipParentEvidenceInvalid)
  end.

Definition evidenceKeys : list jsstr :=
  [js "authorAddress"; js "delegateeOpKey"; js "delegateePeerId"; js "expiresAt"; js "issuedAt"; js "scope"; js "signature"].

Definition agentScopeKeys : list jsstr :=
  [js "authorAddress"; js "contextGraphId"; js "governanceChainId"; js "governanceContractAddress"; js "networkId";
   js "ownershipTransitionDigest"; js "subGraphName"].

(** The evidence and its fields. *)
Definition snapshotParentEvidence (input : Json) : wresult (AuthorAgentDelegationEvidenceV1 * list (jsstr * Json)) :=
  let invalid := EAuthorship AuthorshipParentEvidenceInvalid in
  match isPlainRecord input with
  | None => Err invalid
  | Some fields =>
      let* values := exactPrimitiveDataSnapshot fields evidenceKeys AuthorshipParentEvidenceInvalid in
      let get key := field (js key) values in
      let* author := rethrow invalid (assertEvmAddress (get "authorAddress")) in
      let* opKey := rethrow invalid (assertEvmAddress (get "delegateeOpKey")) in
      let* peerId := nullable assertPeerId (get "delegateePeerId") in
      let* scope := assertEvidenceScope (get "scope") in
      let* signature := assertEvidenceSignature (get "signature") in
      let* (issuedText, issuedAt) := assertFinitePositiveTimestamp (get "issuedAt") in
      let* (expiresText, expiresAt) := assertFinitePositiveTimestamp (get "expiresAt") in
      throw invalid when expiresAt <=? issuedAt;
      throw invalid when MAX_AUTHOR_AGENT_DELEGATION_EVIDENCE_BYTES_V1 <? js_length (encodeUtf8 (canonicalizeStringRecord values));
      Ok ({| evidenceAuthor := author; delegateeOpKey := opKey; delegateePeerId := peerId; evidenceExpiresAt := expiresText;
             evidenceIssuedAt := issuedText; evidenceScope := scope; evidenceSignature := signature |}, values)
  end.

(** The payload of a delegation to an operational key, as it is ABI-encoded. *)
Record DelegationPreimage := {
  preimageDomain : jsstr;
  preimageScope : jsstr;
  preimageAgent : jsstr;
  preimagePeerId : jsstr;
  preimageOpKey : jsstr;
  preimageIssuedAtMs : Z;
  preimageExpiresAtMs : Z
}.

Definition delegationPreimage (evidence : AuthorAgentDelegationEvidenceV1) : DelegationPreimage :=
  {| preimageDomain := js "dkg.agent-delegation.v2"; preimageScope := evidenceScope evidence; preimageAgent := lowerText (evidenceAuthor evidence);
     preimagePeerId := default [] (delegateePeerId evidence); preimageOpKey := lowerText (delegateeOpKey evidence);
     preimageIssuedAtMs := bigIntOf (evidenceIssuedAt evidence); preimageExpiresAtMs := bigIntOf (evidenceExpiresAt evidence) |}.

(** The object of a parsed row. *)
Definition rowObject (row : AuthorCatalogRowV1) : Json :=
  JObject [(js "assertionCoordinate", JString (assertionCoordinate row)); (js "assertionVersion", JString (assertionVersion row));
           (js "kaId", JString (kaId row)); (js "projectionDigest", JString (rowProjectionDigest row));
           (js "projectionId", JString (rowProjectionId row)); (js "sealDigest", JString (sealDigest row));
           (js "transfer", toCanonicalKaTransferDescriptorV1 (transfer row))].

(** The seven fields of a delegation that scope the author's delegation. *)
Definition agentScopeObject (delegation : AuthorCatalogIssuerDelegationV1) : Json :=
  let scope := delegationScope delegation in
  JObject [(js "authorAddress", JString (delegationAuthor delegation)); (js "contextGraphId", JString (contextGraphId (scopeLane scope)));
           (js "governanceChainId", orNull (scopeChainId scope)); (js "governanceContractAddress", orNull (scopeContractAddress scope));
           (js "networkId", JString (scopeNetworkId scope)); (js "ownershipTransitionDigest", orNull (scopeTransitionDigest scope));
           (js "subGraphName", orNull (subGraphName (scopeLane scope)))].

Section Authorship.
Context (nfc : jsstr -> jsstr) (sha256 : bytes -> bytes).

(** [ethers.verifyMessage], [None] when it throws, [ethers.keccak256] and the ABI
    encoding of a delegation to an operational key. *)
Context (verifyMessage : bytes -> jsstr -> option jsstr) (keccak256 : bytes -> bytes) (abiEncode : DelegationPreimage -> bytes).

Definition authorshipDigest (domain : jsstr) (payload : bytes) : wresult jsstr :=
  let digest := lowerHex (sha256 (encodeUtf8 domain ++ payload)) in
  let* _ := mapErr EAuthorshipDigest (assertCanonicalDigest (JString digest)) in
  Ok digest.

(** ** Scopes and evidence of the author *)

Definition snapshotAuthorCatalogAgentScope (input : Json) : wresult (list (jsstr * Json)) :=
  let invalid := EAuthorship AuthorshipInputInvalid in
  match isPlainRecord input with
  | None => Err invalid
  | Some fields =>
      let* values := exactPrimitiveDataSnapshot fields agentScopeKeys AuthorshipInputInvalid in
      let get key := field (js key) values in
      let* _ := assertEvmAddress (get "authorAddress") in
      let* _ := checkedText invalid assertNetworkIdV1 (get "networkId") in
      let* _ := rethrow invalid (assertContextGraphIdV1 nfc (get "contextGraphId")) in
      let contractIsNull := isNull (get "governanceContractAddress") in
      throw invalid when xorb (isNull (get "governanceChainId")) contractIsNull;
      let* _ := if contractIsNull then Ok [] else
                  let* _ := checkedText invalid assertCanonicalChainId (get "governanceChainId") in
                  assertEvmAddress (get "governanceContractAddress") in
      let* _ := nullable (checkedText invalid assertCanonicalDigest) (get "ownershipTransitionDigest") in
      let* _ := nullable (fun value => rethrow invalid (assertSubGraphNameV1 nfc value)) (get "subGraphName") in
      Ok values
  end.

Definition computeAuthorCatalogAgentScopeDigestV1 (scope : Json) : wresult jsstr :=
  let* snapshot := snapshotAuthorCatalogAgentScope scope in
  authorshipDigest AUTHOR_CATALOG_AGENT_SCOPE_DIGEST_DOMAIN_V1 (encodeUtf8 (canonicalizeStringRecord snapshot)).

Definition buildAuthorCatalogAgentScopeV1 (scope : Json) : wresult jsstr :=
  let* digest := computeAuthorCatalogAgentScopeDigestV1 scope in
  Ok (AUTHOR_CATALOG_AGENT_SCOPE_PREFIX_V1 ++ drop 2 digest).

Definition computeParentEvidenceDigestAfterSnapshot (evidence : list (jsstr * Json)) : wresult jsstr :=
  authorshipDigest AUTHOR_AGENT_DELEGATION_EVIDENCE_DIGEST_DOMAIN_V1 (encodeUtf8 (canonicalizeStringRecord evidence)).

Definition computeAuthorAgentDelegationEvidenceDigestV1 (evidence : Json) : wresult jsstr :=
  let* (_, snapshot) := snapshotParentEvidence evidence in
  computeParentEvidenceDigestAfterSnapshot snapshot.

Definition computeDelegationDigest (evidence : AuthorAgentDelegationEvidenceV1) : bytes :=
  keccak256 (abiEncode (delegationPreimage evidence)).

Definition verifyParentEvidenceSignature (evidence : AuthorAgentDelegationEvidenceV1) : wresult unit :=
  let invalid := EAuthorship AuthorshipParentEvidenceInvalid in
  throw invalid when nonCanonicalSignature (evidenceSignature evidence);
  match verifyMessage (computeDelegationDigest evidence) (evidenceSignature evidence) with
  | None => Err invalid
  | Some recovered =>
      throw invalid when negb (bool_decide (lowerText recovered = evidenceAuthor evidence));
      Ok tt
  end.

(** ** Snapshots of the signed objects *)

(** Every failure but those of the evidence branch and the interval. *)
Definition delegationFailure (e : AuthorityError) : AuthorshipError :=
  match e with
  | EAuthority AuthorityAuthority => EAuthorship AuthorshipIssuerClosureMismatch
  | EAuthority AuthorityTime => EAuthorship AuthorshipIntervalMismatch
  | _ => EAuthorship AuthorshipInputInvalid
  end.

Definition snapshotCatalogIssuerDelegation (input : Json) : wresult (SignedControlEnvelopeV1 * AuthorCatalogIssuerDelegationV1) :=
  mapErr delegationFailure
    (let* bytes := canonicalizeSignedAuthorCatalogIssuerDelegationEnvelopeBytesV1 nfc sha256 input in
     parseCanonicalSignedAuthorCatalogIssuerDelegationEnvelopeV1 nfc sha256 (BytesInput bytes) defaultOptions).

Definition snapshotCatalogHead (input : Json) : wresult (SignedControlEnvelopeV1 * AuthorCatalogHeadV1) :=
  rethrow (EAuthorship AuthorshipInputInvalid)
    (let* bytes := canonicalizeSignedAuthorCatalogHeadEnvelopeBytesV1 nfc sha256 input in
     parseCanonicalSignedAuthorCatalogHeadEnvelopeV1 nfc sha256 (BytesInput bytes) defaultOptions).

Definition bucketFailure (e : ObjectError) : AuthorshipError :=
  match e with
  | EObject (ObjectBucketMapping | ObjectDuplicate | ObjectRowOrder) => EAuthorship AuthorshipRowBindingMismatch
  | _ => EAuthorship AuthorshipInputInvalid
  end.

Definition snapshotCatalogBucket (input : Json) : wresult (SignedControlEnvelopeV1 * AuthorCatalogBucketV1) :=
  mapErr bucketFailure
    (let* bytes := canonicalizeSignedAuthorCatalogBucketEnvelopeBytesV1 nfc sha256 input in
     parseCanonicalSignedAuthorCatalogBucketEnvelopeV1 nfc sha256 (BytesInput bytes) defaultOptions).

Definition snapshotDirectoryNode (bucketCount : jsstr) (input : Json) : wresult SignedControlEnvelopeV1 :=
  let* (envelope, _) := rethrow (EAuthorship AuthorshipPathBindingMismatch)
    (let* bytes := canonicalizeSignedAuthorCatalogDirectoryNodeEnvelopeBytesV1 sha256 input bucketCount in
     parseCanonicalSignedAuthorCatalogDirectoryNodeEnvelopeV1 sha256 (BytesInput bytes) bucketCount defaultOptions) in
  Ok envelope.

Fixpoint snapshotDirectoryPath (bucketCount : jsstr) (values : list Value) : wresult (list SignedControlEnvelopeV1) :=
  match values with
  | [] => Ok []
  | value :: rest =>
      let* envelope := snapshotDirectoryNode bucketCount (asJson value) in
      let* envelopes := snapshotDirectoryPath bucketCount rest in
      Ok (envelope :: envelopes)
  end.

(** The parsed row. *)
Definition snapshotCatalogRow (row : Json) : wresult AuthorCatalogRowV1 :=
  rethrow (EAuthorship AuthorshipRowBindingMismatch)
    (let* text := canonicalizeAuthorCatalogRowV1 nfc row in
     parseCanonicalAuthorCatalogRowV1 nfc (TextInput text) defaultOptions).

Record CatalogClosureObjectsV1 := {
  closureDelegation : SignedControlEnvelopeV1 * AuthorCatalogIssuerDelegationV1;
  closureHead : SignedControlEnvelopeV1 * AuthorCatalogHeadV1;
  closureBucket : SignedControlEnvelopeV1 * AuthorCatalogBucketV1
}.

Definition snapshotCatalogObjects (input : BucketAuthorshipsInput) : wresult CatalogClosureObjectsV1 :=
  let* delegation := snapshotCatalogIssuerDelegation (asJson (inputDelegation input)) in
  let* head := snapshotCatalogHead (asJson (inputHead input)) in
  let* bucket := snapshotCatalogBucket (asJson (inputBucket input)) in
  Ok {| closureDelegation := delegation; closureHead := head; closureBucket := bucket |}.

(** ** Bindings *)

Definition bindExactSignatureProof (registry : VerifiedSignatures) (proof : Value) (envelope : SignedControlEnvelopeV1) : wresult VerifiedControlEnvelopeIssuerSignatureSnapshotV1 :=
  let token := match proof with VToken (SignatureToken position) => Some position | _ => None end in
  match readVerifiedControlEnvelopeIssuerSignatureV1 registry token with
  | None => Err (EAuthorship AuthorshipSignatureProofInvalid)
  | Some snapshot =>
      throw EAuthorship AuthorshipSignatureProofInvalid when
        negb (bool_decide (provenObjectDigest snapshot = objectDigest envelope)) ||
        negb (bool_decide (provenIssuer snapshot = issuer (unsignedEnvelope envelope))) ||
        negb (bool_decide (provenSuite snapshot = suiteText (signatureSuite (unsignedEnvelope envelope))));
      let* variantDigest := mapErr EAuthorshipControl (computeControlSignatureVariantDigestHex sha256 (objectDigest envelope) (signature envelope)) in
      throw EAuthorship AuthorshipSignatureProofInvalid when negb (bool_decide (provenVariantDigest snapshot = variantDigest));
      Ok snapshot
  end.

(** A proof that is not bound to its node is an error of the path. *)
Definition pathSignatureFailure (e : AuthorshipError) : AuthorshipError :=
  match e with
  | EAuthorship AuthorshipSignatureProofInvalid => EAuthorship AuthorshipPathBindingMismatch
  | _ => e
  end.

Fixpoint bindPathSignatures (registry : VerifiedSignatures) (proofs : list Value) (envelopes : list SignedControlEnvelopeV1) : wresult (list VerifiedControlEnvelopeIssuerSignatureSnapshotV1) :=
  match envelopes, proofs with
  | [], _ => Ok []
  | envelope :: envelopes', proof :: proofs' =>
      let* snapshot := mapErr pathSignatureFailure (bindExactSignatureProof registry proof envelope) in
      let* snapshots := bindPathSignatures registry proofs' envelopes' in
      Ok (snapshot :: snapshots)
  | _ :: _, [] => Err (EAuthorship AuthorshipPathBindingMismatch)
  end.

Definition assertHeadBinding (delegation : SignedControlEnvelopeV1 * AuthorCatalogIssuerDelegationV1) (head : AuthorCatalogHeadV1) : wresult unit :=
  let left := delegation.2 in
  let right := laneScope (headScope head) in
  let scope := delegationScope left in
  throw EAuthorship AuthorshipHeadBindingMismatch when
    negb (bool_decide (networkId right = scopeNetworkId scope)) ||
    negb (bool_decide (contextGraphId (lane right) = contextGraphId (scopeLane scope))) ||
    negb (bool_decide (governanceChainId right = scopeChainId scope)) ||
    negb (bool_decide (governanceContractAddress right = scopeContractAddress scope)) ||
    negb (bool_decide (ownershipTransitionDigest right = scopeTransitionDigest scope)) ||
    negb (bool_decide (subGraphName (lane right) = subGraphName (scopeLane scope))) ||
    negb (bool_decide (authorAddress right = delegationAuthor left)) ||
    negb (bool_decide (era right = catalogEra left)) ||
    negb (bool_decide (catalogIssuerDelegationDigest head = objectDigest delegation.1));
  Ok tt.

(** Every failure of the path verifier is an error of the path. *)
Definition readBoundPathDescriptor (paths : VerifiedPaths) (proof : Value) (head : SignedControlEnvelopeV1)
    (path : list SignedControlEnvelopeV1) (selectedBucketId : jsstr) : wresult (AuthorCatalogBucketDescriptorV1 * VerifiedPaths) :=
  let mismatch := EAuthorship AuthorshipPathBindingMismatch in
  let headJson := toCanonicalSignedEnvelope head in
  let token := match proof with VToken (PathToken position) => Some position | _ => None end in
  let* supplied := rethrow mismatch (readVerifiedAuthorCatalogBucketDescriptorV1 nfc sha256 paths token headJson) in
  let* (recomputedProof, paths') := rethrow mismatch
    (verifyAuthorCatalogDirectoryPathV1 nfc sha256 paths headJson (JArray (map toCanonicalSignedEnvelope path)) (JString selectedBucketId)) in
  let* recomputed := rethrow mismatch (readVerifiedAuthorCatalogBucketDescriptorV1 nfc sha256 paths' (Some recomputedProof) headJson) in
  throw mismatch when
    negb (bool_decide (bucketDigest supplied = bucketDigest recomputed)) ||
    negb (bool_decide (descriptorBucketId supplied = descriptorBucketId recomputed)) ||
    negb (bool_decide (descriptorByteLength supplied = descriptorByteLength recomputed)) ||
    negb (bool_decide (descriptorRowCount supplied = descriptorRowCount recomputed)) ||
    negb (bool_decide (descriptorBucketId supplied = selectedBucketId));
  Ok (supplied, paths').

(** ** The closure of a bucket *)

(** The parent evidence that names the issuer of a delegated delegation. *)
Definition verifyParentEvidence (evidenceDigest : jsstr) (evidence : Value) (expectedAgentScope delegationIssuer : jsstr)
    (delegation : AuthorCatalogIssuerDelegationV1) : wresult unit :=
  throw EAuthorship AuthorshipDependencyMissing when isNullValue evidence;
  let* (parent, values) := snapshotParentEvidence (asJson evidence) in
  let* digest := computeParentEvidenceDigestAfterSnapshot values in
  throw EAuthorship AuthorshipParentDigestMismatch when negb (bool_decide (digest = evidenceDigest));
  let* _ := verifyParentEvidenceSignature parent in
  throw EAuthorship AuthorshipParentScopeMismatch when
    negb (bool_decide (evidenceAuthor parent = delegationAuthor delegation)) || negb (bool_decide (evidenceScope parent = expectedAgentScope));
  throw EAuthorship AuthorshipIssuerClosureMismatch when
    negb (bool_decide (delegateeOpKey parent = delegationIssuer)) || negb (bool_decide (delegateeOpKey parent = catalogIssuerKey delegation));
  throw EAuthorship AuthorshipIntervalMismatch when
    (bigIntOf (effectiveAt delegation) <? bigIntOf (evidenceIssuedAt parent))
    || (bigIntOf (expiresAt delegation) <=? bigIntOf (effectiveAt delegation))
    || (bigIntOf (evidenceExpiresAt parent) <? bigIntOf (expiresAt delegation));
  Ok tt.

(** The branch of a direct and of a delegated issuer. *)
Definition verifyIssuer (evidence : Value) (expectedAgentScope delegationIssuer : jsstr) (delegation : AuthorCatalogIssuerDelegationV1) : wresult unit :=
  let issuerIsAuthor := bool_decide (delegationIssuer = delegationAuthor delegation) in
  let* _ := if issuerIsAuthor then
              throw EAuthorship AuthorshipIssuerClosureMismatch when
                negb (bool_decide (authorAuthorityEvidenceDigest delegation = None)) || negb (isNullValue evidence);
              Ok tt
            else match authorAuthorityEvidenceDigest delegation with
                 | None => Err (EAuthorship AuthorshipIssuerClosureMismatch)
                 | Some evidenceDigest => verifyParentEvidence evidenceDigest evidence expectedAgentScope delegationIssuer delegation
                 end in
  throw EAuthorship AuthorshipIssuerClosureMismatch when
    negb issuerIsAuthor && negb (bool_decide (delegationIssuer = catalogIssuerKey delegation));
  Ok tt.

Definition isPackedAuthorFailure (cause : ObjectError) : bool :=
  match cause with EObjectCodec (ECatalog CatalogPackedAuthorMismatch) => true | _ => false end.

(** The descriptor describes the bucket, and the bucket is of the scope. *)
Definition verifyBucketBinding (descriptor : AuthorCatalogBucketDescriptorV1) (bucket : SignedControlEnvelopeV1 * AuthorCatalogBucketV1)
    (selectedBucketId : jsstr) (scope : Json) : wresult unit :=
  throw EAuthorship AuthorshipBucketBindingMismatch when
    bool_decide (descriptorRowCount descriptor = js "0") || bool_decide (descriptorByteLength descriptor = js "0");
  let payload := payload (unsignedEnvelope bucket.1) in
  let* bytes := mapErr EAuthorshipObject (canonicalizeAuthorCatalogBucketPayloadBytesV1 nfc sha256 payload) in
  throw EAuthorship AuthorshipBucketBindingMismatch when
    negb (bool_decide (bucketDigest descriptor = objectDigest bucket.1)) ||
    negb (bool_decide (descriptorBucketId descriptor = bucketId bucket.2)) ||
    negb (bool_decide (descriptorBucketId descriptor = selectedBucketId)) ||
    negb (bigIntOf (descriptorByteLength descriptor) =? js_length bytes) ||
    negb (bigIntOf (descriptorRowCount descriptor) =? js_length (rows bucket.2));
  match assertAuthorCatalogBucketScopeBindingV1 nfc sha256 payload scope with
  | Ok _ => Ok tt
  | Err cause => Err (EAuthorship (if isPackedAuthorFailure cause then AuthorshipRowBindingMismatch else AuthorshipBucketBindingMismatch))
  end.

(** The path envelopes and the proofs of all signatures: delegation, head, bucket
    and path. *)
Record BoundEnvelopes := {
  boundPath : list SignedControlEnvelopeV1;
  boundDelegation : VerifiedControlEnvelopeIssuerSignatureSnapshotV1;
  boundHead : VerifiedControlEnvelopeIssuerSignatureSnapshotV1;
  boundBucket : VerifiedControlEnvelopeIssuerSignatureSnapshotV1;
  boundPathSignatures : list VerifiedControlEnvelopeIssuerSignatureSnapshotV1
}.

Definition bindEnvelopes (registry : VerifiedSignatures) (input : BucketAuthorshipsInput) (objects : CatalogClosureObjectsV1) : wresult BoundEnvelopes :=
  let head := (closureHead objects).2 in
  let expectedLength := bigIntOf (directoryHeight head) + 1 in
  let* envelopes := assertOrdinaryArrayExactLength (inputPathEnvelopes input) AuthorshipPathBindingMismatch expectedLength in
  let* proofs := assertOrdinaryArrayExactLength (inputPathSignatures input) AuthorshipPathBindingMismatch expectedLength in
  let* path := snapshotDirectoryPath (bucketCount (headScope head)) envelopes in
  let* delegationSignature := bindExactSignatureProof registry (inputDelegationSignature input) (closureDelegation objects).1 in
  let* headSignature := bindExactSignatureProof registry (inputHeadSignature input) (closureHead objects).1 in
  let* bucketSignature := bindExactSignatureProof registry (inputBucketSignature input) (closureBucket objects).1 in
  let* pathSignatures := bindPathSignatures registry proofs path in
  Ok {| boundPath := path; boundDelegation := delegationSignature; boundHead := headSignature; boundBucket := bucketSignature;
        boundPathSignatures := pathSignatures |}.

(** The authority of the key that signed the head, the path and the bucket; the
    digest of the lane of the author's delegation. *)
Definition verifyIssuerClosure (input : BucketAuthorshipsInput) (objects : CatalogClosureObjectsV1) (path : list SignedControlEnvelopeV1) : wresult jsstr :=
  let (delegationEnvelope, delegation) := closureDelegation objects in
  let (headEnvelope, head) := closureHead objects in
  let* agentScope := snapshotAuthorCatalogAgentScope (agentScopeObject delegation) in
  let* agentScopeDigest := computeAuthorCatalogAgentScopeDigestV1 (JObject agentScope) in
  let expectedAgentScope := AUTHOR_CATALOG_AGENT_SCOPE_PREFIX_V1 ++ drop 2 agentScopeDigest in
  let* _ := verifyIssuer (inputParentEvidence input) expectedAgentScope (issuer (unsignedEnvelope delegationEnvelope)) delegation in
  let* _ := assertHeadBinding (closureDelegation objects) head in
  let key := catalogIssuerKey delegation in
  let signedByKey envelope := bool_decide (issuer (unsignedEnvelope envelope) = key) in
  throw EAuthorship AuthorshipHeadBindingMismatch when
    negb (signedByKey headEnvelope) || negb (signedByKey (closureBucket objects).1) || existsb (fun envelope => negb (signedByKey envelope)) path;
  let issued := bigIntOf (issuedAt head) in
  throw EAuthorship AuthorshipIntervalMismatch when
    (issued <? bigIntOf (effectiveAt delegation)) || (bigIntOf (expiresAt delegation) <=? issued);
  Ok agentScopeDigest.

Definition sharedAuthorship (objects : CatalogClosureObjectsV1) (bound : BoundEnvelopes) (agentScopeDigest scopeDigest : jsstr) : SharedAuthorship :=
  let (delegationEnvelope, delegation) := closureDelegation objects in
  let (headEnvelope, head) := closureHead objects in
  let (bucketEnvelope, bucket) := closureBucket objects in
  {| authorCatalogAgentScopeDigest := agentScopeDigest; sharedEvidenceDigest := authorAuthorityEvidenceDigest delegation;
     catalogIssuerDelegationObjectDigest := objectDigest delegationEnvelope;
     catalogIssuerDelegationSignatureVariantDigest := provenVariantDigest (boundDelegation bound);
     catalogHeadObjectDigest := objectDigest headEnvelope; catalogHeadSignatureVariantDigest := provenVariantDigest (boundHead bound);
     directoryPathObjectDigests := map objectDigest (boundPath bound);
     directoryPathSignatureVariantDigests := map provenVariantDigest (boundPathSignatures bound);
     bucketObjectDigest := objectDigest bucketEnvelope; bucketSignatureVariantDigest := provenVariantDigest (boundBucket bound);
     sharedScopeDigest := scopeDigest; sharedLane := laneScope (headScope head); sharedIssuerKey := catalogIssuerKey delegation;
     sharedVersion := version head; sharedBucketId := bucketId bucket; sharedEffectiveAt := effectiveAt delegation;
     sharedExpiresAt := expiresAt delegation; headIssuedAt := issuedAt head |}.

(** [selectBucketId] of the bucket count of the scope. *)
Definition verifyCatalogBucketClosure (registries : Registries) (input : BucketAuthorshipsInput) (objects : CatalogClosureObjectsV1)
    (selectBucketId : jsstr -> wresult jsstr) : wresult (SharedAuthorship * VerifiedPaths) :=
  let (headEnvelope, head) := closureHead objects in
  let* bound := bindEnvelopes (verifiedSignatures registries) input objects in
  let* agentScopeDigest := verifyIssuerClosure input objects (boundPath bound) in
  let* scope := mapErr EAuthorshipObject (deriveAuthorCatalogScopeFromHeadV1 nfc (payload (unsignedEnvelope headEnvelope))) in
  let* scopeDigest := mapErr EAuthorshipCodec (computeAuthorCatalogScopeDigestV1 nfc sha256 scope) in
  let* selectedBucketId := selectBucketId (bucketCount (headScope head)) in
  let* (descriptor, paths) := readBoundPathDescriptor (verifiedPaths registries) (inputPathProof input) headEnvelope (boundPath bound) selectedBucketId in
  let* _ := verifyBucketBinding descriptor (closureBucket objects) selectedBucketId scope in
  Ok (sharedAuthorship objects bound agentScopeDigest scopeDigest, paths).

(** ** Rows *)

Definition closeCatalogRowAuthorship (shared : SharedAuthorship) (bucketRow : Json) : wresult VerifiedAuthorCatalogRowAuthorshipSnapshotV1 :=
  let* row := snapshotCatalogRow bucketRow in
  throw EAuthorship AuthorshipRowBindingMismatch when
    negb (Z.shiftr (bigIntOf (kaId row)) 96 =? bigIntOfHex (authorAddress (sharedLane shared)));
  let* rowDigest := mapErr EAuthorshipCodec (computeAuthorCatalogRowDigestV1 nfc sha256 (sharedScopeDigest shared) (rowObject row)) in
  let* identityDigest := mapErr EAuthorshipTransfer (computeKaTransferIdentityDigestV1 sha256 (toCanonicalKaTransferDescriptorV1 (transfer row))) in
  Ok {| shared := shared; catalogRowDigest := rowDigest; transferIdentityDigest := identityDigest; authorshipRow := row |}.

Definition mintVerifiedAuthorship (registries : Registries) (paths : VerifiedPaths) (snapshot : VerifiedAuthorCatalogRowAuthorshipSnapshotV1) : nat * Registries :=
  (length (verifiedAuthorships registries),
   {| verifiedSignatures := verifiedSignatures registries; verifiedPaths := paths;
      verifiedAuthorships := verifiedAuthorships registries ++ [snapshot] |}).

(** The rows of the bucket with their values. *)
Definition bucketRows (bucket : SignedControlEnvelopeV1 * AuthorCatalogBucketV1) : list (Json * AuthorCatalogRowV1) :=
  zip (rowValues (payload (unsignedEnvelope bucket.1))) (rows bucket.2).

Definition verifyAuthorCatalogRowAuthorshipV1 (registries : Registries) (untrustedInput : Value) : wresult (nat * Registries) :=
  let* (input, target) := snapshotRowAuthorshipInput untrustedInput in
  let* objects := snapshotCatalogObjects input in
  let* targetKaId := snapshotTargetKaId target in
  let* (shared, paths) := verifyCatalogBucketClosure registries input objects
    (fun bucketCount => mapErr EAuthorshipCodec (catalogKeyToBucketIdV1 sha256 targetKaId bucketCount)) in
  match List.filter (fun row => bool_decide (kaId row.2 = targetKaId)) (bucketRows (closureBucket objects)) with
  | [row] =>
      let* snapshot := closeCatalogRowAuthorship shared row.1 in
      Ok (mintVerifiedAuthorship registries paths snapshot)
  | _ => Err (EAuthorship AuthorshipRowBindingMismatch)
  end.

(** The tokens of the rows, in the order of the bucket. *)
Fixpoint closeRows (registries : Registries) (shared : SharedAuthorship) (paths : VerifiedPaths) (values : list Json) : wresult (list nat * Registries) :=
  match values with
  | [] => Ok ([], {| verifiedSignatures := verifiedSignatures registries; verifiedPaths := paths; verifiedAuthorships := verifiedAuthorships registries |})
  | value :: rest =>
      let* snapshot := closeCatalogRowAuthorship shared value in
      let (token, registries') := mintVerifiedAuthorship registries paths snapshot in
      let* (tokens, registries'') := closeRows registries' shared paths rest in
      Ok (token :: tokens, registries'')
  end.

Definition verifyAuthorCatalogBucketRowAuthorshipsV1 (registries : Registries) (untrustedInput : Value) : wresult (list nat * Registries) :=
  let* input := snapshotBucketAuthorshipsInput untrustedInput in
  let* objects := snapshotCatalogObjects input in
  let* (shared, paths) := verifyCatalogBucketClosure registries input objects (fun _ => Ok (bucketId (closureBucket objects).2)) in
  closeRows registries shared paths (rowValues (payload (unsignedEnvelope (closureBucket objects).1))).

(** ** Capabilities *)

Definition readVerifiedAuthorCatalogRowAuthorshipV1 (registries : Registries) (value : Value) : wresult VerifiedAuthorCatalogRowAuthorshipSnapshotV1 :=
  match value with
  | VToken (AuthorshipToken position) =>
      match verifiedAuthorships registries !! position with
      | Some snapshot => Ok snapshot
      | None => Err (EAuthorship AuthorshipCapabilityInvalid)
      end
  | _ => Err (EAuthorship AuthorshipCapabilityInvalid)
  end.

Definition assertVerifiedAuthorCatalogRowAuthorshipForTargetV1 (registries : Registries) (value : Value) (rowDigest identityDigest : Json) : wresult unit :=
  let* snapshot := readVerifiedAuthorCatalogRowAuthorshipV1 registries value in
  let invalid := EAuthorship AuthorshipCapabilityInvalid in
  let* row := checkedText invalid assertCanonicalDigest (Some rowDigest) in
  let* identity := checkedText invalid assertCanonicalDigest (Some identityDigest) in
  throw invalid when negb (bool_decide (catalogRowDigest snapshot = row)) || negb (bool_decide (transferIdentityDigest snapshot = identity));
  Ok tt.

(** [deriveAuthorCatalogAgentScopeV1]; the seven fields. *)
Definition deriveAuthorCatalogAgentScopeV1 (delegation : Json) : wresult Json :=
  let* (_, payload) := snapshotCatalogIssuerDelegation delegation in
  Ok (agentScopeObject payload).

End Authorship.
