(* ===== verification/RowAuthorshipTheory.v ===== *)
(** * Facts on the authorship of rows

    What the snapshots of signed objects are, and what each part of the closure of
    a bucket establishes. *)

From S2P Require Import Prelude Bytes Merkle CodePoints JsText JsNumber CanonicalJson CanonicalJsonTheory CanonicalJsonRoundtrip.
From S2P Require Import PlainJson WireScalars KaTransfer AuthorLane AuthorCatalog AuthorCatalogTheory AuthorCatalogRows AuthorCatalogSafety.
From S2P Require Import JsonEquiv ControlObject ControlObjectTheory ControlObjectSafety CatalogObjects CatalogObjectsTheory.
From S2P Require Import CatalogDirectory CatalogDirectoryTheory CatalogDirectorySafety CatalogAuthority SignatureVerifier RowAuthorship.

Open Scope Z_scope.

(** ** Values *)

Definition wfValue (value : Value) : Prop := wfJson (asJson value).

Lemma valueField_json key fields : asJson <$> valueField key fields = field key (map (fun '(k, item) => (k, asJson item)) fields).
Proof.
  unfold valueField, field. induction fields as [|[k item] fields IH]; [done|]. cbn [List.find map fst snd].
  destruct (bool_decide (k = key)); [done|exact IH].
Qed.

(** What is read from a record is well-formed. *)
Lemma valueField_wf value fields key :
  wfValue value -> recordFields value = Some fields -> wfValue (default (VJson JNull) (valueField key fields)).
Proof.
  intros Hw Hf. assert (wfJson (JObject (map (fun '(k, item) => (k, asJson item)) fields))) as Hj.
  { destruct value as [[| | | | |fs]|t| |fs]; try discriminate Hf; injection Hf as <-; try exact Hw.
    rewrite map_map. replace (map _ fs) with fs; [exact Hw|]. rewrite <- (map_id fs) at 1. apply map_ext. by intros [k x]. }
  unfold wfValue. pose proof (field_wf key _ Hj) as H. rewrite <- valueField_json in H. by destruct (valueField key fields).
Qed.

Lemma arrayItems_wf value items : wfValue value -> arrayItems value = Some items -> Forall wfValue items.
Proof.
  unfold wfValue. intros Hw Hi. destruct value as [[| | | |vs|]|t|vs|fs]; try discriminate Hi; injection Hi as <-; cbn [asJson] in Hw; apply wfJson_array in Hw.
  - rewrite Forall_fmap. exact Hw.
  - by rewrite Forall_fmap in Hw.
Qed.

Section Snapshots.
Context (nfc : jsstr -> jsstr) (sha256 : bytes -> bytes).

(** ** Snapshots *)

(** [e] is the envelope read back from the canonical bytes of a signed envelope. *)
Record SnapshotOf (v : Json) (e : SignedControlEnvelopeV1) : Prop := {
  so_wf : wfJson (toCanonicalSignedEnvelope e);
  so_valid : exists b, validateSignedControlEnvelope sha256 (toCanonicalSignedEnvelope e) = Ok (e, b);
  so_inputs : envelopeInputs v = [objectInput (unsignedEnvelope e)];
  so_inputs' : envelopeInputs (toCanonicalSignedEnvelope e) = [objectInput (unsignedEnvelope e)];
  so_digest : objectDigest e = lowerHex (sha256 (objectInput (unsignedEnvelope e)))
}.

Lemma snapshot_signed v b e :
  wfJson v -> canonicalizeSignedControlEnvelopeBytes sha256 v = Ok b ->
  parseCanonicalSignedControlEnvelope sha256 (BytesInput b) defaultOptions = Ok e -> SnapshotOf v e.
Proof.
  intros Hw Hb He. unfold canonicalizeSignedControlEnvelopeBytes in Hb. apply result_bind_Ok in Hb as ([s b'] & Hv & [= <-]).
  destruct (signed_reads _ _ _ _ Hw Hv) as [Hr Hn]. rewrite Hr in He. injection He as <-.
  pose proof Hv as (Hs & Hu & _ & _ & _)%validate_Ok; [|done]. destruct (signed_equiv _ _ Hw Hs) as [_ Hp].
  assert (wfJson (toCanonicalSignedEnvelope (normalSigned s))) as Hwn by (apply toCanonicalSigned_wf; by apply normal_wf).
  pose proof Hn as (Hsn & _ & _ & _ & Hd)%validate_Ok; [|done].
  assert (objectInput (unsignedEnvelope s) = objectInput (unsignedEnvelope (normalSigned s))) as E.
  { unfold objectInput. do 2 f_equal. apply canonText_equiv; [by apply toCanonicalUnsigned_wf|apply toCanonicalUnsigned_wf; by apply normal_wf|].
    symmetry. by apply normalEnvelope_equiv. }
  split; [exact Hwn|by exists b'| | |exact Hd].
  - unfold envelopeInputs. rewrite Hs. by rewrite E.
  - unfold envelopeInputs. by rewrite Hsn.
Qed.

Lemma snapshot_asserts v e : SnapshotOf v e -> assertSignedControlEnvelope sha256 (toCanonicalSignedEnvelope e) = Ok e.
Proof. intros [_ [b Hb] _ _ _]. unfold assertSignedControlEnvelope. by rewrite Hb. Qed.

(** The objects of a closure. *)
Lemma headSnapshot_Ok v e h :
  wfJson v -> snapshotCatalogHead nfc sha256 v = Ok (e, h) ->
  SnapshotOf v e /\ assertSignedAuthorCatalogHeadEnvelopeV1 nfc sha256 (toCanonicalSignedEnvelope e) = Ok (e, h).
Proof.
  unfold snapshotCatalogHead. intros Hw H%rethrow_Ok. apply result_bind_Ok in H as (b & Hb & H).
  unfold canonicalizeSignedAuthorCatalogHeadEnvelopeBytesV1 in Hb. apply result_bind_Ok in Hb as (x & _ & Hb%mapErr_Ok).
  unfold parseCanonicalSignedAuthorCatalogHeadEnvelopeV1 in H. apply result_bind_Ok in H as (e' & He%mapErr_Ok & H).
  pose proof (snapshot_signed _ _ _ Hw Hb He) as Hs. pose proof (proj1 (headEnvelope_Ok _ _ _ _ _ H)) as Ha.
  rewrite (snapshot_asserts _ _ Hs) in Ha. injection Ha as ->. done.
Qed.

Lemma bucketSnapshot_Ok v e b :
  wfJson v -> snapshotCatalogBucket nfc sha256 v = Ok (e, b) ->
  SnapshotOf v e /\ assertSignedAuthorCatalogBucketEnvelopeV1 nfc sha256 (toCanonicalSignedEnvelope e) = Ok (e, b).
Proof.
  unfold snapshotCatalogBucket. intros Hw H%mapErr_Ok. apply result_bind_Ok in H as (t & Hb & H).
  unfold canonicalizeSignedAuthorCatalogBucketEnvelopeBytesV1 in Hb. apply result_bind_Ok in Hb as (x & _ & Hb%mapErr_Ok).
  unfold parseCanonicalSignedAuthorCatalogBucketEnvelopeV1 in H. apply result_bind_Ok in H as (e' & He%mapErr_Ok & H).
  pose proof (snapshot_signed _ _ _ Hw Hb He) as Hs. pose proof (proj1 (bucketEnvelope_Ok _ _ _ _ _ H)) as Ha.
  rewrite (snapshot_asserts _ _ Hs) in Ha. injection Ha as ->. done.
Qed.

Lemma nodeSnapshot_Ok count v e : wfJson v -> snapshotDirectoryNode sha256 count v = Ok e -> SnapshotOf v e.
Proof.
  unfold snapshotDirectoryNode. intros Hw H. apply result_bind_Ok in H as ([e' n] & H%rethrow_Ok & [= ->]). apply result_bind_Ok in H as (t & Hb & H).
  unfold canonicalizeSignedAuthorCatalogDirectoryNodeEnvelopeBytesV1 in Hb. apply result_bind_Ok in Hb as (x & _ & Hb%mapErr_Ok).
  unfold parseCanonicalSignedAuthorCatalogDirectoryNodeEnvelopeV1 in H. apply result_bind_Ok in H as (e' & He%mapErr_Ok & H).
  pose proof (snapshot_signed _ _ _ Hw Hb He) as Hs. unfold assertSignedAuthorCatalogDirectoryNodeEnvelopeV1 in H.
  apply result_bind_Ok in H as (e'' & Ha%mapErr_Ok & H). rewrite (snapshot_asserts _ _ Hs) in Ha. injection Ha as <-.
  apply result_bind_Ok in H as (? & _ & H). apply result_bind_Ok in H as (? & _ & [= <- _]). exact Hs.
Qed.

Lemma pathSnapshot_Ok count values path :
  Forall wfValue values -> snapshotDirectoryPath sha256 count values = Ok path -> Forall2 (fun v e => SnapshotOf (asJson v) e) values path.
Proof.
  intros Hw. revert path. induction Hw as [|v values Hv _ IH]; intros path H; cbn [snapshotDirectoryPath] in H.
  - injection H as <-. constructor.
  - apply result_bind_Ok in H as (e & He & H). apply result_bind_Ok in H as (es & Hes & [= <-]).
    constructor; [by eapply nodeSnapshot_Ok|by apply IH].
Qed.

Lemma delegationSnapshot_Ok v e d :
  wfJson v -> snapshotCatalogIssuerDelegation nfc sha256 v = Ok (e, d) ->
  SnapshotOf v e /\ validateSignedDelegationEnvelopeSnapshot nfc sha256 (toCanonicalSignedEnvelope e) = Ok (e, d).
Proof.
  unfold snapshotCatalogIssuerDelegation. intros Hw H%mapErr_Ok. apply result_bind_Ok in H as (t & Hb & H).
  unfold canonicalizeSignedAuthorCatalogIssuerDelegationEnvelopeBytesV1 in Hb. apply result_bind_Ok in Hb as (x & _ & Hb%mapErr_Ok).
  unfold parseCanonicalSignedAuthorCatalogIssuerDelegationEnvelopeV1 in H. apply result_bind_Ok in H as (e' & He%mapErr_Ok & H).
  pose proof (snapshot_signed _ _ _ Hw Hb He) as Hs. assert (e' = e) as ->; [|done].
  unfold validateSignedDelegationEnvelopeSnapshot, signedAuthorityPass in H. apply result_bind_Ok in H as (? & _ & H).
  apply result_bind_Ok in H as (w & Hc & H). unfold clonePlainData in Hc. apply result_bind_Ok in Hc as (? & _ & [= <-]).
  apply result_bind_Ok in H as ([e2 d2] & H & H2). apply result_bind_Ok in H as (e3 & Ha%mapErr_Ok & H).
  rewrite (snapshot_asserts _ _ Hs) in Ha. injection Ha as <-. apply result_bind_Ok in H as (? & _ & H).
  apply result_bind_Ok in H as ([? ?] & _ & [= <- _]). by apply result_bind_Ok in H2 as (? & _ & [= -> _]).
Qed.

(** The hashed inputs of the envelopes of a path. *)
Lemma path_inputs values path :
  Forall2 (fun v e => SnapshotOf (asJson v) e) values path ->
  pathInputs (map toCanonicalSignedEnvelope path) = flat_map (fun v => envelopeInputs (asJson v)) values.
Proof. intros H. induction H as [|v e vs es [_ _ E E' _] _ IH]; [done|]. cbn [map flat_map]. by rewrite IH, E, E'. Qed.

Lemma path_wf values path :
  Forall2 (fun v e => SnapshotOf (asJson v) e) values path -> wfJson (JArray (map toCanonicalSignedEnvelope path)).
Proof. intros H. apply wfJson_array. rewrite Forall_fmap. induction H as [|v e vs es [] _ IH]; by constructor. Qed.

(** ** The parts of the closure *)

Lemma readBound_Ok paths proof head path id d paths' :
  readBoundPathDescriptor nfc sha256 paths proof head path id = Ok (d, paths') ->
  exists st, verifyPath nfc sha256 (toCanonicalSignedEnvelope head) (JArray (map toCanonicalSignedEnvelope path)) (JString id) = Ok st /\
    stateDescriptor st = d /\ paths' = paths ++ [st] /\ descriptorBucketId d = id.
Proof.
  unfold readBoundPathDescriptor. intros H. apply result_bind_Ok in H as (d0 & H0%rethrow_Ok & H).
  apply result_bind_Ok in H as ([c ps] & Hv%rethrow_Ok & H). unfold verifyAuthorCatalogDirectoryPathV1 in Hv.
  apply result_bind_Ok in Hv as (st & Hst & [= <- <-]). apply result_bind_Ok in H as (d1 & H1%rethrow_Ok & H).
  apply throw_if_Ok in H as [Hc [= <- <-]]. rewrite !orb_false_iff, !negb_false_iff, !bool_decide_eq_true in Hc. destruct Hc as [[[[E1 E2] E3] E4] E5].
  exists st. split; [exact Hst|]. assert (stateDescriptor st = d1) as E.
  { unfold readVerifiedAuthorCatalogBucketDescriptorV1, assertVerifiedAuthorCatalogDirectoryPathForHeadV1 in H1. cbn [mbind option_bind] in H1.
    rewrite lookup_app_r, Nat.sub_diag in H1 by lia. cbn in H1. apply result_bind_Ok in H1 as (st' & Hs & [= <-]).
    apply result_bind_Ok in Hs as ([e h] & _ & Hs). do 2 apply result_bind_Ok in Hs as (? & _ & Hs). by apply throw_if_Ok in Hs as [_ [= ->]]. }
  rewrite E. split; [|done]. destruct d0, d1. cbn in *. by subst.
Qed.

Lemma bucketBinding_Ok d bucket id scope u :
  verifyBucketBinding nfc sha256 d bucket id scope = Ok u ->
  bucketDigest d = objectDigest bucket.1 /\ descriptorBucketId d = bucketId bucket.2 /\ id = bucketId bucket.2 /\
  bigIntOf (descriptorRowCount d) = js_length (rows bucket.2) /\
  assertAuthorCatalogBucketScopeBindingV1 nfc sha256 (payload (unsignedEnvelope bucket.1)) scope = Ok tt.
Proof.
  unfold verifyBucketBinding. intros H. apply throw_if_Ok in H as [_ H]. apply result_bind_Ok in H as (b & _ & H). apply throw_if_Ok in H as [Hc H].
  rewrite !orb_false_iff, !negb_false_iff, !bool_decide_eq_true, !Z.eqb_eq in Hc. destruct Hc as [[[[E1 E2] E3] _] E5].
  destruct (assertAuthorCatalogBucketScopeBindingV1 _ _ _ _) as [[]|]; [|done]. split_and!; [done|done|congruence|done|done].
Qed.

End Snapshots.

Section Rows.
Context (nfc : jsstr -> jsstr) (sha256 : bytes -> bytes).
Context (sha256_length : forall x, length (sha256 x) = 32%nat).

(** ** Rows *)

Lemma rowObject_value row : rowValue (rowObject row) row.
Proof.
  destruct (toCanonical_fields (transfer row)) as (tf & E & Hp). unfold rowObject. rewrite E.
  exists [(js "assertionCoordinate", JString (assertionCoordinate row)); (js "assertionVersion", JString (assertionVersion row));
          (js "kaId", JString (kaId row)); (js "projectionDigest", JString (rowProjectionDigest row));
          (js "projectionId", JString (rowProjectionId row)); (js "sealDigest", JString (sealDigest row)); (js "transfer", JObject tf)], tf.
  split_and!; [reflexivity|exact Hp|]. unfold rowFields, catalogRowKeys, rowFieldValues. reflexivity.
Qed.

Lemma rowObject_wf row : wfJson (rowObject row).
Proof.
  apply wfJson_object. split; [apply (bool_decide_unpack _); vm_compute; exact I|]. repeat (apply Forall_cons; split; [exact I|]).
  apply Forall_cons. split; [apply toCanonical_wf|by apply Forall_nil].
Qed.

Lemma rowObject_asserts v row : wfJson v -> assertAuthorCatalogRowV1 nfc v = Ok row -> assertAuthorCatalogRowV1 nfc (rowObject row) = Ok row.
Proof. intros Hw H. apply assertRow_complete; [by apply (assertRow_sound nfc v)|apply rowObject_value]. Qed.

Lemma identityDigest_total d :
  validDescriptor d -> exists h, computeKaTransferIdentityDigestV1 sha256 (toCanonicalKaTransferDescriptorV1 d) = Ok h.
Proof.
  intros Hv. destruct (toCanonical_fields d) as (tf & E & Hp). pose proof (assertDescriptor_complete tf d Hv Hp) as Ha. rewrite <- E in Ha.
  unfold computeKaTransferIdentityDigestV1, canonicalizeKaTransferDescriptorBytesV1, canonicalizeKaTransferDescriptorV1. rewrite Ha.
  cbn [result_bind]. fold descriptorOptions. rewrite (canonicalize_valid d Hv). cbn [mapErr result_bind]. unfold digestBytesToLowerHex.
  rewrite (sha256_digest sha256 _ (sha256_length _)). eexists. reflexivity.
Qed.

(** Closing a valid row of the author succeeds and keeps the row. *)
Lemma closeRow_total sh v row :
  wfJson v -> assertAuthorCatalogRowV1 nfc v = Ok row -> assertCanonicalDigest (JString (sharedScopeDigest sh)) = Ok tt ->
  Z.shiftr (bigIntOf (kaId row)) 96 = bigIntOfHex (authorAddress (sharedLane sh)) ->
  exists s, closeCatalogRowAuthorship nfc sha256 sh v = Ok s /\ shared s = sh /\ authorshipRow s = row.
Proof.
  intros Hw Ha Hd Hk. destruct (row_reads nfc v row Hw Ha) as (Hc & _ & Hp & _). pose proof (rowObject_asserts v row Hw Ha) as Ho.
  destruct (assertRow_sound nfc v row Hw Ha) as [Hv _]. destruct (identityDigest_total _ (vr_transfer _ _ Hv)) as [h Hh].
  pose proof (rowDigest_total nfc sha256 _ _ _ sha256_length (rowObject_wf row) Ho Hd) as Hrd.
  unfold closeCatalogRowAuthorship, snapshotCatalogRow. rewrite Hc. cbn [result_bind]. rewrite Hp. cbn [rethrow result_bind].
  rewrite (proj2 (Z.eqb_eq _ _) Hk). cbn [negb throw_if]. rewrite Hrd. cbn [mapErr result_bind]. rewrite Hh. cbn [mapErr result_bind].
  eexists. split; [reflexivity|]. split; reflexivity.
Qed.

Lemma closeRow_Ok sh v row s :
  wfJson v -> assertAuthorCatalogRowV1 nfc v = Ok row -> closeCatalogRowAuthorship nfc sha256 sh v = Ok s ->
  shared s = sh /\ authorshipRow s = row /\
  computeAuthorCatalogRowDigestV1 nfc sha256 (sharedScopeDigest sh) (rowObject row) = Ok (catalogRowDigest s) /\
  computeKaTransferIdentityDigestV1 sha256 (toCanonicalKaTransferDescriptorV1 (transfer row)) = Ok (transferIdentityDigest s) /\
  Z.shiftr (bigIntOf (kaId row)) 96 = bigIntOfHex (authorAddress (sharedLane sh)).
Proof.
  intros Hw Ha H. destruct (row_reads nfc v row Hw Ha) as (Hc & _ & Hp & _).
  unfold closeCatalogRowAuthorship, snapshotCatalogRow in H. rewrite Hc in H. cbn [result_bind] in H. rewrite Hp in H. cbn [rethrow result_bind] in H.
  apply throw_if_Ok in H as [Hk%negb_false_iff%Z.eqb_eq H]. apply result_bind_Ok in H as (rd & Hrd%mapErr_Ok & H).
  apply result_bind_Ok in H as (h & Hh%mapErr_Ok & [= <-]).
  split_and!; [reflexivity|reflexivity|exact Hrd|exact Hh|exact Hk].
Qed.

End Rows.

Section Closure.
Context (nfc : jsstr -> jsstr) (sha256 : bytes -> bytes).
Context (verifyMessage : bytes -> jsstr -> option jsstr) (keccak256 : bytes -> bytes) (abiEncode : DelegationPreimage -> bytes).

Abbreviation closes := (verifyCatalogBucketClosure nfc sha256 verifyMessage keccak256 abiEncode).

(** ** The closure of a bucket *)

Lemma head_scope p h :
  assertAuthorCatalogHeadStructureV1 nfc p = Ok h -> assertAuthorCatalogScopeV1 nfc (deriveScopeAfterHeadStructure p) = Ok (headScope h).
Proof.
  intros H. destruct p as [| | | | |fs]; try discriminate H. cbn [assertAuthorCatalogHeadStructureV1 isPlainRecord] in H. cbv zeta in H.
  apply throw_if_Ok in H as [_ H]. apply result_bind_Ok in H as ([scope sc] & Hs & H). cbn [deriveScopeAfterHeadStructure].
  assert (headScope h = sc) as ->.
  { apply result_bind_Ok in H as (? & _ & H). apply result_bind_Ok in H as ([? ?] & _ & H). apply result_bind_Ok in H as (? & _ & H).
    do 2 apply result_bind_Ok in H as ([? ?] & _ & H). apply throw_if_Ok in H as [_ H].
    apply result_bind_Ok in H as (? & _ & H). apply throw_if_Ok in H as [_ H]. apply result_bind_Ok in H as (? & _ & H). apply throw_if_Ok in H as [_ H].
    by apply result_bind_Ok in H as (? & _ & [= <-]). }
  unfold deriveScopeAfterHeadKeys in Hs. cbv zeta in Hs. do 8 apply result_bind_Ok in Hs as (? & _ & Hs).
  by apply result_bind_Ok in Hs as (? & Hs%mapErr_Ok & [= _ <-]).
Qed.

Lemma rowBindings_Ok values rs scope sc :
  assertAuthorCatalogScopeV1 nfc scope = Ok sc -> Forall2 (fun v r => assertAuthorCatalogRowV1 nfc v = Ok r) values rs ->
  assertRowScopeBindings nfc values scope = Ok tt ->
  Forall (fun r => Z.shiftr (bigIntOf (kaId r)) 96 = bigIntOfHex (authorAddress (laneScope sc))) rs.
Proof.
  intros Hs Hr. induction Hr as [|v r values rs Hv _ IH]; intros H; [constructor|]. cbn [assertRowScopeBindings] in H.
  apply result_bind_Ok in H as (? & H1%mapErr_Ok & H). constructor; [|by apply IH].
  unfold assertAuthorCatalogRowScopeBindingV1 in H1. rewrite Hv, Hs in H1. cbn [result_bind] in H1.
  unfold assertPackedKaIdAuthorBindingV1, parseCatalogU256 in H1. apply result_bind_Ok in H1 as (n & Hn%rethrow_Ok & H1).
  unfold parseCanonicalDecimalU256 in Hn. apply parseDecimal_Ok in Hn as [Hn E]; [|done]. injection E as ->.
  apply result_bind_Ok in H1 as (a & [[= <-] _]%catalogScalar_Ok & H1). apply throw_if_Ok in H1 as [Hc%negb_false_iff%Z.eqb_eq _].
  rewrite bigIntOf_decimal by lia. exact Hc.
Qed.

Lemma scopeBinding_Ok p scope sc b :
  assertAuthorCatalogScopeV1 nfc scope = Ok sc -> assertAuthorCatalogBucketStructureV1 nfc sha256 p = Ok b ->
  assertAuthorCatalogBucketScopeBindingV1 nfc sha256 p scope = Ok tt ->
  bucketBucketCount b = bucketCount sc /\
  Forall (fun r => Z.shiftr (bigIntOf (kaId r)) 96 = bigIntOfHex (authorAddress (laneScope sc))) (rows b).
Proof.
  intros Hs Hb H. unfold assertAuthorCatalogBucketScopeBindingV1 in H. apply result_bind_Ok in H as (b' & Hb' & H).
  unfold assertAuthorCatalogBucketV1 in Hb'. rewrite Hb in Hb'. cbn [result_bind] in Hb'. apply result_bind_Ok in Hb' as (? & _ & [= <-]).
  rewrite Hs in H. cbn [mapErr result_bind] in H. apply result_bind_Ok in H as (d & _ & H). apply throw_if_Ok in H as [_ H].
  apply throw_if_Ok in H as [Hc H]. rewrite orb_false_iff, !negb_false_iff, !bool_decide_eq_true in Hc. destruct Hc as [_ Hc]. split; [exact Hc|].
  destruct (bucketStructure_Ok _ _ _ _ Hb) as (_ & _ & _ & Hall). exact (rowBindings_Ok _ _ _ _ Hs Hall H).
Qed.

Record WfInput (input : BucketAuthorshipsInput) : Prop := {
  wi_delegation : wfValue (inputDelegation input);
  wi_head : wfValue (inputHead input);
  wi_path : wfValue (inputPathEnvelopes input);
  wi_bucket : wfValue (inputBucket input)
}.

Lemma closureInput_wf value fields : wfValue value -> recordFields value = Some fields -> WfInput (closureInput fields).
Proof. intros Hw Hf. split; exact (valueField_wf _ _ _ Hw Hf). Qed.

(** The snapshots of the three objects. *)
Record GoodObjects (input : BucketAuthorshipsInput) (objects : CatalogClosureObjectsV1) : Prop := {
  go_delegation : SnapshotOf sha256 (asJson (inputDelegation input)) (closureDelegation objects).1;
  go_delegates : validateSignedDelegationEnvelopeSnapshot nfc sha256 (toCanonicalSignedEnvelope (closureDelegation objects).1) =
    Ok (closureDelegation objects);
  go_head : SnapshotOf sha256 (asJson (inputHead input)) (closureHead objects).1;
  go_heads : assertSignedAuthorCatalogHeadEnvelopeV1 nfc sha256 (toCanonicalSignedEnvelope (closureHead objects).1) = Ok (closureHead objects);
  go_bucket : SnapshotOf sha256 (asJson (inputBucket input)) (closureBucket objects).1;
  go_buckets : assertSignedAuthorCatalogBucketEnvelopeV1 nfc sha256 (toCanonicalSignedEnvelope (closureBucket objects).1) = Ok (closureBucket objects)
}.

Lemma objects_Ok input objects : WfInput input -> snapshotCatalogObjects nfc sha256 input = Ok objects -> GoodObjects input objects.
Proof.
  intros [Wd Wh _ Wb] H. unfold snapshotCatalogObjects in H. apply result_bind_Ok in H as ([de d] & Hd & H).
  apply result_bind_Ok in H as ([he h] & Hh & H). apply result_bind_Ok in H as ([be b] & Hb & [= <-]).
  apply (delegationSnapshot_Ok _ _ _ _ _ Wd) in Hd as [D1 D2]. apply (headSnapshot_Ok _ _ _ _ _ Wh) in Hh as [H1 H2].
  apply (bucketSnapshot_Ok _ _ _ _ _ Wb) in Hb as [B1 B2]. split; assumption.
Qed.

Lemma good_head input objects :
  GoodObjects input objects ->
  assertAuthorCatalogHeadStructureV1 nfc (payload (unsignedEnvelope (closureHead objects).1)) = Ok (closureHead objects).2.
Proof. intros [_ _ _ H _ _]. destruct (closureHead objects) as [e h]. exact (proj2 (headEnvelope_Ok _ _ _ _ _ H)). Qed.

Lemma good_bucket input objects :
  GoodObjects input objects ->
  assertAuthorCatalogBucketStructureV1 nfc sha256 (payload (unsignedEnvelope (closureBucket objects).1)) = Ok (closureBucket objects).2.
Proof. intros [_ _ _ _ _ H]. destruct (closureBucket objects) as [e b]. exact (proj2 (bucketEnvelope_Ok _ _ _ _ _ H)). Qed.

(** What a closed bucket establishes. *)
Record Closed (registries : Registries) (input : BucketAuthorshipsInput) (objects : CatalogClosureObjectsV1) (sh : SharedAuthorship)
    (paths : VerifiedPaths) : Prop := {
  cl_bound : exists bound agentDigest scopeDigest,
    bindEnvelopes sha256 (verifiedSignatures registries) input objects = Ok bound /\
    verifyIssuerClosure nfc sha256 verifyMessage keccak256 abiEncode input objects (boundPath bound) = Ok agentDigest /\
    computeAuthorCatalogScopeDigestV1 nfc sha256 (deriveScopeAfterHeadStructure (payload (unsignedEnvelope (closureHead objects).1))) = Ok scopeDigest /\
    sh = sharedAuthorship objects bound agentDigest scopeDigest /\
    exists st, verifyPath nfc sha256 (toCanonicalSignedEnvelope (closureHead objects).1) (JArray (map toCanonicalSignedEnvelope (boundPath bound)))
        (JString (bucketId (closureBucket objects).2)) = Ok st /\
      bucketDigest (stateDescriptor st) = objectDigest (closureBucket objects).1 /\ paths = verifiedPaths registries ++ [st];
  cl_count : bucketBucketCount (closureBucket objects).2 = bucketCount (headScope (closureHead objects).2);
  cl_packed : Forall (fun r => Z.shiftr (bigIntOf (kaId r)) 96 = bigIntOfHex (authorAddress (sharedLane sh))) (rows (closureBucket objects).2)
}.

Lemma shared_lane objects bound agentDigest scopeDigest :
  sharedLane (sharedAuthorship objects bound agentDigest scopeDigest) = laneScope (headScope (closureHead objects).2).
Proof. unfold sharedAuthorship. by destruct (closureDelegation objects), (closureHead objects), (closureBucket objects). Qed.

Lemma shared_scope objects bound agentDigest scopeDigest :
  sharedScopeDigest (sharedAuthorship objects bound agentDigest scopeDigest) = scopeDigest.
Proof. unfold sharedAuthorship. by destruct (closureDelegation objects), (closureHead objects), (closureBucket objects). Qed.

Lemma closure_Ok registries input objects select sh paths :
  GoodObjects input objects -> closes registries input objects select = Ok (sh, paths) ->
  Closed registries input objects sh paths /\
  select (bucketCount (headScope (closureHead objects).2)) = Ok (bucketId (closureBucket objects).2).
Proof.
  intros Hg H. pose proof (good_head _ _ Hg) as Gh. pose proof (good_bucket _ _ Hg) as Gb. unfold verifyCatalogBucketClosure in H.
  destruct (closureHead objects) as [he h] eqn:Eh. cbn [fst snd] in *.
  apply result_bind_Ok in H as (bound & Hbound & H). apply result_bind_Ok in H as (ad & Had & H).
  apply result_bind_Ok in H as (scope & Hscope%mapErr_Ok & H). unfold deriveAuthorCatalogScopeFromHeadV1 in Hscope.
  apply result_bind_Ok in Hscope as (? & _ & [= <-]). apply result_bind_Ok in H as (sd & Hsd%mapErr_Ok & H).
  apply result_bind_Ok in H as (sel & Hsel & H). apply result_bind_Ok in H as ([d ps] & Hd & H). apply result_bind_Ok in H as (u & Hb & [= <- <-]).
  apply readBound_Ok in Hd as (st & Hst & <- & -> & _). apply bucketBinding_Ok in Hb as (Eb & _ & -> & _ & Hb).
  destruct (scopeBinding_Ok _ _ _ _ (head_scope _ _ Gh) Gb Hb) as [Hc Hp]. split; [|exact Hsel]. split; rewrite ?Eh; cbn [fst snd].
  - exists bound, ad, sd. split; [exact Hbound|]. split; [exact Had|]. split; [exact Hsd|]. split; [reflexivity|]. by exists st.
  - exact Hc.
  - rewrite shared_lane, Eh. exact Hp.
Qed.

Lemma closure_select registries input objects select1 select2 :
  select1 (bucketCount (headScope (closureHead objects).2)) = select2 (bucketCount (headScope (closureHead objects).2)) ->
  closes registries input objects select1 = closes registries input objects select2.
Proof. intros E. unfold verifyCatalogBucketClosure. destruct (closureHead objects) as [he h]. cbn [snd] in E. by rewrite E. Qed.

End Closure.
