(* ===== verification/RowAuthorshipSafety.v ===== *)
(** * What verified authorships promise

    A head has one row for an asset, the batch verifier agrees with the verifier of
    one row, and a verified row is the word of its author: the keys that signed
    lead from the author to the head. *)

From S2P Require Import Prelude Bytes Merkle CodePoints JsText JsNumber CanonicalJson CanonicalJsonTheory CanonicalJsonRoundtrip.
From S2P Require Import PlainJson WireScalars KaTransfer AuthorLane AuthorCatalog AuthorCatalogTheory AuthorCatalogRows AuthorCatalogSafety.
From S2P Require Import JsonEquiv ControlObject ControlObjectTheory ControlObjectSafety CatalogObjects CatalogObjectsTheory.
From S2P Require Import CatalogDirectory CatalogDirectoryTheory CatalogDirectorySafety CatalogAuthority SignatureVerifier SignatureTheory RowAuthorship RowAuthorshipTheory.

Open Scope Z_scope.

Lemma rowValues_wf p : wfJson p -> Forall wfJson (rowValues p).
Proof.
  intros Hw. destruct p as [| | | | |fs]; try constructor. cbn [rowValues]. pose proof (field_wf (js "rows") _ Hw) as Hf.
  destruct (field (js "rows") fs) as [[| | | |vs|]|]; try constructor. by apply wfJson_array.
Qed.

Lemma Forall2_zip {A B} (P : A -> B -> Prop) l k x y : Forall2 P l k -> (x, y) ∈ zip l k -> P x y /\ x ∈ l /\ y ∈ k.
Proof.
  intros H. induction H as [|a b l k Hab _ IH]; [by intros ?%elem_of_nil|]. cbn [zip_with]. rewrite !elem_of_cons.
  intros [[= -> ->]|Hin]; [by auto|]. destruct (IH Hin) as (? & ? & ?). auto.
Qed.

(** Inclusions of appended lists. *)
Ltac in_appended := let x := fresh in intros x; rewrite !elem_of_app; tauto.

Section Safety.
Context (nfc : jsstr -> jsstr) (sha256 : bytes -> bytes).
Context (verifyMessage : bytes -> jsstr -> option jsstr) (keccak256 : bytes -> bytes) (abiEncode : DelegationPreimage -> bytes).

Abbreviation verifyRow := (verifyAuthorCatalogRowAuthorshipV1 nfc sha256 verifyMessage keccak256 abiEncode).
Abbreviation verifyBucket := (verifyAuthorCatalogBucketRowAuthorshipsV1 nfc sha256 verifyMessage keccak256 abiEncode).
Abbreviation Closes := (Closed nfc sha256 verifyMessage keccak256 abiEncode).
Abbreviation Good := (GoodObjects nfc sha256).

(** ** One row *)

(** The rows of a bucket with their values. *)
Lemma bucketRows_Ok input objects v r :
  Good input objects -> (v, r) ∈ bucketRows (closureBucket objects) ->
  wfJson v /\ assertAuthorCatalogRowV1 nfc v = Ok r /\ r ∈ rows (closureBucket objects).2.
Proof.
  intros Hg Hin. destruct (bucketStructure_Ok _ _ _ _ (good_bucket _ _ _ _ Hg)) as (_ & _ & _ & Hall).
  destruct (Forall2_zip _ _ _ _ _ Hall Hin) as (Ha & Hv & Hr). split; [|done].
  pose proof (signed_payload_wf _ _ _ (so_wf _ _ _ (go_bucket _ _ _ _ Hg)) (snapshot_asserts _ _ _ (go_bucket _ _ _ _ Hg))) as Hw.
  apply rowValues_wf in Hw. rewrite Forall_forall in Hw. by apply Hw.
Qed.

(** A row that the verifier closed. *)
Record ClosedRow (registries : Registries) (input : BucketAuthorshipsInput) (objects : CatalogClosureObjectsV1) (target : jsstr)
    (paths : VerifiedPaths) (s : VerifiedAuthorCatalogRowAuthorshipSnapshotV1) : Prop := {
  cr_wf : WfInput input;
  cr_good : Good input objects;
  cr_closed : Closes registries input objects (shared s) paths;
  cr_row : exists v, (v, authorshipRow s) ∈ bucketRows (closureBucket objects) /\ closeCatalogRowAuthorship nfc sha256 (shared s) v = Ok s;
  cr_target : kaId (authorshipRow s) = target
}.

Lemma verifyRow_Ok registries value token registries' :
  wfValue value -> verifyRow registries value = Ok (token, registries') ->
  exists fields objects target paths s, recordFields value = Some fields /\
    snapshotCatalogObjects nfc sha256 (closureInput fields) = Ok objects /\
    ClosedRow registries (closureInput fields) objects target paths s /\ token = length (verifiedAuthorships registries) /\
    registries' = {| verifiedSignatures := verifiedSignatures registries; verifiedPaths := paths;
                     verifiedAuthorships := verifiedAuthorships registries ++ [s] |}.
Proof.
  intros Hw H. unfold verifyAuthorCatalogRowAuthorshipV1 in H. apply result_bind_Ok in H as ([input target] & Hi & H).
  unfold snapshotRowAuthorshipInput in Hi. apply result_bind_Ok in Hi as (fields & Hf & [= <- <-]).
  assert (recordFields value = Some fields) as Hr.
  { unfold snapshotInputFields in Hf. destruct (recordFields value) as [fs|]; [|done]. do 3 apply throw_if_Ok in Hf as [_ Hf]. by injection Hf as ->. }
  apply result_bind_Ok in H as (objects & Ho & H). apply result_bind_Ok in H as (ka & Hka & H). apply result_bind_Ok in H as ([sh paths] & Hc & H).
  pose proof (closureInput_wf _ _ Hw Hr) as Wi. pose proof (objects_Ok _ _ _ _ Wi Ho) as Hg.
  destruct (closure_Ok _ _ _ _ _ _ _ _ _ _ _ Hg Hc) as [Hcl _].
  destruct (List.filter _ _) as [|[v r] [|]] eqn:El; [done| |done]. apply result_bind_Ok in H as (s & Hs & [= <- <-]).
  assert ((v, r) ∈ bucketRows (closureBucket objects) /\ kaId r = ka) as [Hin Hk].
  { assert (In (v, r) (List.filter (fun row => bool_decide (kaId row.2 = ka)) (bucketRows (closureBucket objects)))) as Hin by (rewrite El; by left).
    apply filter_In in Hin as [Hin Hk%bool_decide_eq_true]. split; [by apply list_elem_of_In|done]. }
  destruct (bucketRows_Ok _ _ _ _ Hg Hin) as (Wv & Ha & _). destruct (closeRow_Ok _ _ _ _ _ _ Wv Ha Hs) as (<- & <- & _).
  exists fields, objects, ka, paths, s. split; [exact Hr|]. split; [exact Ho|]. split; [|done]. split; try assumption. by exists v.
Qed.

(** ** One row per asset *)

(** What is hashed for the head, the path and the bucket. *)
Definition snapshotInputs (input : BucketAuthorshipsInput) : list bytes :=
  envelopeInputs (asJson (inputHead input)) ++
  flat_map (fun v => envelopeInputs (asJson v)) (default [] (arrayItems (inputPathEnvelopes input))) ++
  envelopeInputs (asJson (inputBucket input)).

Lemma boundPath_Ok registry input objects bound :
  WfInput input -> bindEnvelopes sha256 registry input objects = Ok bound ->
  exists items, arrayItems (inputPathEnvelopes input) = Some items /\ Forall2 (fun v e => SnapshotOf sha256 (asJson v) e) items (boundPath bound).
Proof.
  intros Wi H. unfold bindEnvelopes in H. apply result_bind_Ok in H as (items & Hi & H). apply result_bind_Ok in H as (? & _ & H).
  apply result_bind_Ok in H as (path & Hp & H). do 4 apply result_bind_Ok in H as (? & _ & H). injection H as <-. cbn [boundPath].
  unfold assertOrdinaryArrayExactLength in Hi. destruct (arrayItems (inputPathEnvelopes input)) as [vs|] eqn:Ei; [|done].
  apply throw_if_Ok in Hi as [_ [= ->]]. exists items. split; [done|].
  exact (pathSnapshot_Ok _ _ _ _ (arrayItems_wf _ _ (wi_path _ Wi) Ei) Hp).
Qed.

Lemma head_digest objects bound agentDigest scopeDigest :
  catalogHeadObjectDigest (sharedAuthorship objects bound agentDigest scopeDigest) = objectDigest (closureHead objects).1.
Proof. unfold sharedAuthorship. by destruct (closureDelegation objects), (closureHead objects), (closureBucket objects). Qed.

(** The bucket of a closed row is the one its key selects under the head. *)
Lemma closedRow_bucket registries input objects target paths s :
  ClosedRow registries input objects target paths s ->
  authorshipRow s ∈ rows (closureBucket objects).2 /\
  catalogKeyToBucketIdV1 sha256 target (bucketCount (headScope (closureHead objects).2)) = Ok (bucketId (closureBucket objects).2).
Proof.
  intros [_ Hg Hc (v & Hin & _) <-]. destruct (bucketRows_Ok _ _ _ _ Hg Hin) as (_ & _ & Hr). split; [exact Hr|].
  destruct (bucketStructure_Ok _ _ _ _ (good_bucket _ _ _ _ Hg)) as (_ & _ & [_ _ Hm] & _). rewrite Forall_forall in Hm.
  rewrite <- (cl_count _ _ _ _ _ _ _ _ _ _ Hc). by apply Hm.
Qed.

Lemma closedRows_bind registries1 registries2 input1 input2 objects1 objects2 target paths1 paths2 s1 s2 :
  ClosedRow registries1 input1 objects1 target paths1 s1 -> ClosedRow registries2 input2 objects2 target paths2 s2 ->
  objectDigest (closureHead objects1).1 = objectDigest (closureHead objects2).1 ->
  (authorshipRow s1 = authorshipRow s2 /\ sharedScopeDigest (shared s1) = sharedScopeDigest (shared s2)) \/
  CollisionIn sha256 (snapshotInputs input1 ++ snapshotInputs input2).
Proof.
  intros C1 C2 Ed. destruct (closedRow_bucket _ _ _ _ _ _ C1) as [R1 B1], (closedRow_bucket _ _ _ _ _ _ C2) as [R2 B2].
  destruct C1 as [W1 G1 [(bd1 & ad1 & sd1 & Bd1 & _ & S1 & E1 & st1 & V1 & D1 & _) _ _] _ K1].
  destruct C2 as [W2 G2 [(bd2 & ad2 & sd2 & Bd2 & _ & S2 & E2 & st2 & V2 & D2 & _) _ _] _ K2].
  destruct (boundPath_Ok _ _ _ _ W1 Bd1) as (it1 & I1 & P1), (boundPath_Ok _ _ _ _ W2 Bd2) as (it2 & I2 & P2).
  pose proof (go_head _ _ _ _ G1) as H1. pose proof (go_head _ _ _ _ G2) as H2. pose proof (go_bucket _ _ _ _ G1) as Q1. pose proof (go_bucket _ _ _ _ G2) as Q2.
  pose proof (signed_payload_wf _ _ _ (so_wf _ _ _ H1) (snapshot_asserts _ _ _ H1)) as Y1.
  pose proof (signed_payload_wf _ _ _ (so_wf _ _ _ H2) (snapshot_asserts _ _ _ H2)) as Y2.
  assert (forall l, CollisionIn sha256 l ->
    l ⊆ (proofInputs (toCanonicalSignedEnvelope (closureHead objects1).1) (JArray (map toCanonicalSignedEnvelope (boundPath bd1))) ++
         proofInputs (toCanonicalSignedEnvelope (closureHead objects2).1) (JArray (map toCanonicalSignedEnvelope (boundPath bd2)))) ++
        (envelopeInputs (toCanonicalSignedEnvelope (closureBucket objects1).1) ++ envelopeInputs (toCanonicalSignedEnvelope (closureBucket objects2).1)) ->
    CollisionIn sha256 (snapshotInputs input1 ++ snapshotInputs input2)) as Hcol.
  { intros l Hl Hsub. eapply collision_mono; [|exact Hl]. etrans; [exact Hsub|]. unfold snapshotInputs, proofInputs. rewrite I1, I2.
    cbn [default from_option id]. rewrite (path_inputs _ _ _ P1), (path_inputs _ _ _ P2), (so_inputs _ _ _ H1), (so_inputs _ _ _ H2),
      (so_inputs' _ _ _ H1), (so_inputs' _ _ _ H2), (so_inputs _ _ _ Q1), (so_inputs _ _ _ Q2), (so_inputs' _ _ _ Q1), (so_inputs' _ _ _ Q2). in_appended. }
  rewrite E1, E2, !shared_scope.
  destruct (signed_digest_binds _ _ _ _ _ (so_wf _ _ _ H1) (so_wf _ _ _ H2) (snapshot_asserts _ _ _ H1) (snapshot_asserts _ _ _ H2) Ed) as [Ep|Hc];
    [|right; apply (Hcol _ Hc); unfold proofInputs; in_appended].
  pose proof (good_head _ _ _ _ G1) as T1. rewrite (headStructure_proper nfc _ _ Ep), (good_head _ _ _ _ G2) in T1. injection T1 as T1.
  rewrite <- T1, B2 in B1. injection B1 as B1. rewrite B1 in V2.
  assert (headObjectDigest st1 = headObjectDigest st2) as Es.
  { apply verifyPath_Ok in V1 as (f1 & ? & ? & ? & ? & ? & X1 & _ & _ & _ & _ & _ & _ & _ & _ & _ & Z1 & _).
    apply verifyPath_Ok in V2 as (f2 & ? & ? & ? & ? & ? & X2 & _ & _ & _ & _ & _ & _ & _ & _ & _ & Z2 & _).
    rewrite (snapshot_asserts _ _ _ H1) in X1. rewrite (snapshot_asserts _ _ _ H2) in X2. congruence. }
  destruct (path_binds _ _ _ _ _ _ _ _ _ (so_wf _ _ _ H1) (so_wf _ _ _ H2) (path_wf _ _ _ P1) (path_wf _ _ _ P2) V1 V2 Es) as [<-|Hc];
    [|right; apply (Hcol _ Hc); in_appended].
  rewrite D1 in D2. pose proof (go_buckets _ _ _ _ G1) as X1. pose proof (go_buckets _ _ _ _ G2) as X2.
  pose proof (good_bucket _ _ _ _ G1) as O1. destruct (closureBucket objects1) as [be1 b1], (closureBucket objects2) as [be2 b2]. cbn [fst snd] in *.
  destruct (bucket_binds _ _ _ _ _ _ _ _ (so_wf _ _ _ Q1) (so_wf _ _ _ Q2) X1 X2 D2) as [Eb|Hc]; [|right; apply (Hcol _ Hc); in_appended].
  subst b2. left. split.
  - destruct (bucketStructure_Ok _ _ _ _ O1) as (_ & _ & Hr & _). apply (rows_unique nfc sha256 _ _ _ _ _ Hr R1 R2). congruence.
  - apply (scopeDigest_proper _ _ _ _ _ (deriveScope_wf _ Y1) (deriveScope_wf _ Y2) (deriveScope_proper _ _ Ep)) in S1. congruence.
Qed.

(** The snapshot that a call minted. *)
Lemma verifyRow_reads registries value token registries' s :
  wfValue value -> verifyRow registries value = Ok (token, registries') ->
  readVerifiedAuthorCatalogRowAuthorshipV1 registries' (VToken (AuthorshipToken token)) = Ok s ->
  exists fields objects target paths, recordFields value = Some fields /\ ClosedRow registries (closureInput fields) objects target paths s.
Proof.
  intros Hw H. apply verifyRow_Ok in H as (fields & objects & target & paths & s' & Hr & _ & Hc & -> & ->); [|done].
  cbn [readVerifiedAuthorCatalogRowAuthorshipV1 verifiedAuthorships]. rewrite lookup_app_r, Nat.sub_diag by lia. cbn. intros [= <-].
  by exists fields, objects, target, paths.
Qed.

Lemma closedRow_head registries input objects target paths s :
  ClosedRow registries input objects target paths s -> catalogHeadObjectDigest (shared s) = objectDigest (closureHead objects).1.
Proof. intros [_ _ [(? & ? & ? & _ & _ & _ & -> & _) _ _] _ _]. apply head_digest. Qed.

Lemma closedRow_digests registries input objects target paths s :
  ClosedRow registries input objects target paths s ->
  computeAuthorCatalogRowDigestV1 nfc sha256 (sharedScopeDigest (shared s)) (rowObject (authorshipRow s)) = Ok (catalogRowDigest s) /\
  computeKaTransferIdentityDigestV1 sha256 (toCanonicalKaTransferDescriptorV1 (transfer (authorshipRow s))) = Ok (transferIdentityDigest s).
Proof.
  intros [_ Hg _ (v & Hin & Hs) _]. destruct (bucketRows_Ok _ _ _ _ Hg Hin) as (Hw & Ha & _).
  destruct (closeRow_Ok _ _ _ _ _ _ Hw Ha Hs) as (_ & _ & Hr & Ht & _). done.
Qed.

(** The inputs hashed for the objects of a call. *)
Definition authorshipInputs (value : Value) : list bytes :=
  match recordFields value with Some fields => snapshotInputs (closureInput fields) | None => [] end.

(** C11: Two verified authorships of the same asset under heads with the same digest
    are of the same row, with the same row digest and transfer identity, unless
    sha256 collides on the envelopes of the two calls: a signed head cannot have two
    rows for an asset, whatever paths, buckets and signatures are presented. *)
Theorem one_row_per_asset registries1 registries2 value1 value2 token1 token2 registries1' registries2' s1 s2 :
  wfValue value1 -> wfValue value2 ->
  verifyRow registries1 value1 = Ok (token1, registries1') -> verifyRow registries2 value2 = Ok (token2, registries2') ->
  readVerifiedAuthorCatalogRowAuthorshipV1 registries1' (VToken (AuthorshipToken token1)) = Ok s1 ->
  readVerifiedAuthorCatalogRowAuthorshipV1 registries2' (VToken (AuthorshipToken token2)) = Ok s2 ->
  catalogHeadObjectDigest (shared s1) = catalogHeadObjectDigest (shared s2) -> kaId (authorshipRow s1) = kaId (authorshipRow s2) ->
  (authorshipRow s1 = authorshipRow s2 /\ catalogRowDigest s1 = catalogRowDigest s2 /\ transferIdentityDigest s1 = transferIdentityDigest s2) \/
  CollisionIn sha256 (authorshipInputs value1 ++ authorshipInputs value2).
Proof.
  intros W1 W2 V1 V2 R1 R2 Eh Ek. destruct (verifyRow_reads _ _ _ _ _ W1 V1 R1) as (f1 & o1 & t1 & p1 & F1 & C1).
  destruct (verifyRow_reads _ _ _ _ _ W2 V2 R2) as (f2 & o2 & t2 & p2 & F2 & C2). unfold authorshipInputs. rewrite F1, F2.
  destruct (closedRow_digests _ _ _ _ _ _ C1) as [D1 I1], (closedRow_digests _ _ _ _ _ _ C2) as [D2 I2].
  rewrite (closedRow_head _ _ _ _ _ _ C1), (closedRow_head _ _ _ _ _ _ C2) in Eh.
  assert (t2 = t1) as -> by (rewrite <- (cr_target _ _ _ _ _ _ C1), <- (cr_target _ _ _ _ _ _ C2); done).
  destruct (closedRows_bind _ _ _ _ _ _ _ _ _ _ _ C1 C2 Eh) as [[Er Es]|Hc]; [left|by right]. rewrite Er, Es, D2 in D1. rewrite Er, I2 in I1.
  injection D1 as D1. injection I1 as I1. done.
Qed.

(** ** All rows of a bucket *)

(** The input of the verifier of one row. *)
Definition rowInput (fields : list (jsstr * Value)) (ka : jsstr) : Value := VRecord (fields ++ [(js "targetKaId", VJson (JString ka))]).

Lemma valueField_app key fields ka :
  valueField key (fields ++ [(js "targetKaId", ka)]) =
  match valueField key fields with Some x => Some x | None => if bool_decide (js "targetKaId" = key) then Some ka else None end.
Proof.
  unfold valueField. induction fields as [|[k x] fields IH]; cbn [List.find app fst snd].
  - by destruct (bool_decide (js "targetKaId" = key)).
  - destruct (bool_decide (k = key)); [done|exact IH].
Qed.

Lemma closureInput_app fields ka : closureInput (fields ++ [(js "targetKaId", ka)]) = closureInput fields.
Proof.
  unfold closureInput. rewrite !valueField_app. rewrite !(bool_decide_eq_false_2 (js "targetKaId" = _)) by (vm_compute; discriminate).
  f_equal; by destruct (valueField _ fields).
Qed.

Lemma valueField_None key fields : key ∉ fields.*1 -> valueField key fields = None.
Proof.
  unfold valueField. induction fields as [|[k x] fields IH]; [done|]. cbn [List.find fst]. intros [Hk Hn]%not_elem_of_cons.
  rewrite bool_decide_eq_false_2 by (intros ->; by apply Hk). by apply IH.
Qed.

Lemma existsb_false {A} (f : A -> bool) l : existsb f l = false <-> forall x, x ∈ l -> f x = false.
Proof.
  rewrite <- not_true_iff_false, existsb_exists. split.
  - intros H x Hx%list_elem_of_In. destruct (f x) eqn:E; [|done]. destruct H. by exists x.
  - intros H (x & Hx%list_elem_of_In & E). rewrite (H x Hx) in E. done.
Qed.

Lemma targetKey_other key : key ∈ BUCKET_AUTHORSHIPS_INPUT_KEYS -> js "targetKaId" <> key.
Proof. intros Hk <-. revert Hk. apply (bool_decide_unpack _). vm_compute. exact I. Qed.

(** An accepted bucket input with a target is an accepted row input. *)
Lemma rowInput_Ok fields input ka :
  snapshotBucketAuthorshipsInput (VRecord fields) = Ok input ->
  snapshotRowAuthorshipInput (rowInput fields ka) = Ok (input, VJson (JString ka)).
Proof.
  unfold snapshotBucketAuthorshipsInput, snapshotRowAuthorshipInput. intros (fs & H & [= <-])%result_bind_Ok.
  unfold snapshotInputFields in *. cbn [recordFields rowInput] in *. apply throw_if_Ok in H as [Hu H]. apply throw_if_Ok in H as [Hm H].
  apply throw_if_Ok in H as [Hn [= <-]]. apply negb_false_iff, bool_decide_eq_true in Hm. rewrite existsb_false in Hu, Hn.
  assert (forall key, key ∈ fields.*1 -> key ∈ BUCKET_AUTHORSHIPS_INPUT_KEYS) as Hsub
    by (intros key Hk; by apply Hu, negb_false_iff, bool_decide_eq_true in Hk).
  assert (forall key, key ∈ BUCKET_AUTHORSHIPS_INPUT_KEYS -> key ∈ fields.*1) as Hall.
  { intros key Hk. destruct (decide (key ∈ fields.*1)) as [|Hno]; [done|exfalso].
    assert (In key (List.filter (fun key => negb (bool_decide (key ∈ fields.*1))) BUCKET_AUTHORSHIPS_INPUT_KEYS)) as Hin; [|by rewrite Hm in Hin].
    apply filter_In. split; [by apply list_elem_of_In|]. by rewrite bool_decide_eq_false_2. }
  assert (js "targetKaId" ∉ fields.*1) as Ht by (intros Hk; by apply (targetKey_other _ (Hsub _ Hk))).
  unfold rowInput. cbn [recordFields]. rewrite (proj2 (existsb_false _ _)).
  2:{ intros key Hk. rewrite fmap_app, elem_of_app in Hk. apply negb_false_iff, bool_decide_eq_true. unfold ROW_AUTHORSHIP_INPUT_KEYS.
      apply elem_of_app. destruct Hk as [Hk|Hk]; [left; by apply Hsub|right; exact Hk]. }
  assert (List.filter (fun key => negb (bool_decide (key ∈ (fields ++ [(js "targetKaId", VJson (JString ka))]).*1))) ROW_AUTHORSHIP_INPUT_KEYS = []) as ->.
  { clear Hm. destruct (List.filter _ _) as [|key l] eqn:El; [reflexivity|exfalso]. assert (In key (key :: l)) as Hin by by left. rewrite <- El in Hin.
    apply filter_In in Hin as [Hk%list_elem_of_In Hb%negb_true_iff%bool_decide_eq_false]. apply Hb. rewrite fmap_app, elem_of_app.
    unfold ROW_AUTHORSHIP_INPUT_KEYS in Hk. apply elem_of_app in Hk as [Hk|Hk]; [left; by apply Hall|right; exact Hk]. }
  rewrite (proj2 (existsb_false _ ROW_AUTHORSHIP_INPUT_KEYS)).
  2:{ intros key Hk. unfold ROW_AUTHORSHIP_INPUT_KEYS in Hk. apply elem_of_app in Hk as [Hk| ->%list_elem_of_singleton].
      - specialize (Hn _ Hk). rewrite valueField_app, (bool_decide_eq_false_2 (js "targetKaId" = key)) by by apply targetKey_other.
        by destruct (valueField key fields).
      - by rewrite (bool_decide_eq_true_2 (js "targetKaId" = js "targetKaId")), andb_false_r by done. }
  cbn [throw_if result_bind bool_decide negb]. rewrite bool_decide_eq_true_2 by done. cbn [negb throw_if result_bind].
  by rewrite closureInput_app, valueField_app, (valueField_None _ _ Ht), bool_decide_eq_true_2 by done.
Qed.

Lemma filter_row (P : Json -> AuthorCatalogRowV1 -> Prop) values rs i v row :
  Forall2 P values rs -> StronglySorted Z.lt (map (fun r => bigIntOf (kaId r)) rs) -> values !! i = Some v -> rs !! i = Some row ->
  List.filter (fun x => bool_decide (kaId x.2 = kaId row)) (zip values rs) = [(v, row)].
Proof.
  intros H. revert i. induction H as [|a b values rs _ Hrest IH]; intros i Hs Hv Hr; [done|]. cbn [map] in Hs. apply StronglySorted_inv in Hs as [Hs Hb].
  rewrite Forall_fmap, Forall_forall in Hb. cbn [zip_with List.filter snd]. destruct i as [|i]; cbn in Hv, Hr.
  - injection Hv as ->. injection Hr as ->. rewrite bool_decide_eq_true_2 by done. f_equal.
    destruct (List.filter _ _) as [|[v' r'] l] eqn:El; [done|exfalso]. assert (In (v', r') ((v', r') :: l)) as Hin by by left. rewrite <- El in Hin.
    apply filter_In in Hin as [Hin%list_elem_of_In Hk%bool_decide_eq_true]. destruct (Forall2_zip _ _ _ _ _ Hrest Hin) as (_ & _ & Hr').
    apply Hb in Hr'. cbn in Hr', Hk. rewrite Hk in Hr'. lia.
  - rewrite bool_decide_eq_false_2; [by apply (IH i)|]. intros E. apply list_elem_of_lookup_2, Hb in Hr. cbn in Hr. rewrite E in Hr. lia.
Qed.

Context (sha256_length : forall x, length (sha256 x) = 32%nat).

(** Closing all rows mints their snapshots in order. *)
Lemma closeRows_total registries sh paths values rs :
  assertCanonicalDigest (JString (sharedScopeDigest sh)) = Ok tt ->
  Forall wfJson values -> Forall2 (fun v r => assertAuthorCatalogRowV1 nfc v = Ok r) values rs ->
  Forall (fun r => Z.shiftr (bigIntOf (kaId r)) 96 = bigIntOfHex (authorAddress (sharedLane sh))) rs ->
  exists ss, Forall2 (fun v s => closeCatalogRowAuthorship nfc sha256 sh v = Ok s) values ss /\
    closeRows nfc sha256 registries sh paths values =
      Ok (seq (length (verifiedAuthorships registries)) (length ss),
          {| verifiedSignatures := verifiedSignatures registries; verifiedPaths := paths; verifiedAuthorships := verifiedAuthorships registries ++ ss |}).
Proof.
  intros Hd Hw Hr Hp. revert registries. induction Hr as [|v r values rs Hv _ IH]; intros registries.
  { exists []. split; [constructor|]. cbn [closeRows length seq]. by rewrite app_nil_r. }
  apply Forall_cons in Hw as [Wv Hw], Hp as [Pr Hp]. destruct (closeRow_total nfc sha256 sha256_length sh v r Wv Hv Hd Pr) as (s & Hs & _).
  destruct (IH Hw Hp (mintVerifiedAuthorship registries paths s).2) as (ss & Hss & E). exists (s :: ss). split; [by constructor|].
  cbn [closeRows]. rewrite Hs. cbn [result_bind mintVerifiedAuthorship]. cbn [mintVerifiedAuthorship snd verifiedAuthorships verifiedSignatures] in E.
  rewrite E. cbn [result_bind length seq]. rewrite length_app, Nat.add_1_r, <- app_assoc. reflexivity.
Qed.

Lemma closed_scope registries input objects sh paths :
  Good input objects -> Closes registries input objects sh paths -> assertCanonicalDigest (JString (sharedScopeDigest sh)) = Ok tt.
Proof.
  intros Hg [(bound & ad & sd & _ & _ & Hs & -> & _) _ _]. rewrite shared_scope. pose proof (go_head _ _ _ _ Hg) as Hh.
  pose proof (signed_payload_wf _ _ _ (so_wf _ _ _ Hh) (snapshot_asserts _ _ _ Hh)) as Hw.
  apply (scopeDigest_Ok _ _ _ _ (deriveScope_wf _ Hw)) in Hs as [-> _]. by apply sha256_digest.
Qed.

(** What the batch verifier does with a closed bucket. *)
Lemma closeBucket_total registries input objects sh paths :
  Good input objects -> Closes registries input objects sh paths ->
  exists ss, Forall2 (fun v s => closeCatalogRowAuthorship nfc sha256 sh v = Ok s) (rowValues (payload (unsignedEnvelope (closureBucket objects).1))) ss /\
    closeRows nfc sha256 registries sh paths (rowValues (payload (unsignedEnvelope (closureBucket objects).1))) =
      Ok (seq (length (verifiedAuthorships registries)) (length ss),
          {| verifiedSignatures := verifiedSignatures registries; verifiedPaths := paths; verifiedAuthorships := verifiedAuthorships registries ++ ss |}).
Proof.
  intros Hg Hc. destruct (bucketStructure_Ok _ _ _ _ (good_bucket _ _ _ _ Hg)) as (_ & _ & _ & Hall). pose proof (go_bucket _ _ _ _ Hg) as Hb.
  apply (closeRows_total _ _ _ _ (rows (closureBucket objects).2)); [exact (closed_scope _ _ _ _ _ Hg Hc)| |exact Hall|exact (cl_packed _ _ _ _ _ _ _ _ _ _ Hc)].
  exact (rowValues_wf _ (signed_payload_wf _ _ _ (so_wf _ _ _ Hb) (snapshot_asserts _ _ _ Hb))).
Qed.

(** The verifier of one row selects the bucket that the batch verifier takes. *)
Lemma row_closure registries input objects i row :
  Good input objects -> rows (closureBucket objects).2 !! i = Some row ->
  bucketBucketCount (closureBucket objects).2 = bucketCount (headScope (closureHead objects).2) ->
  verifyCatalogBucketClosure nfc sha256 verifyMessage keccak256 abiEncode registries input objects
    (fun bucketCount => mapErr EAuthorshipCodec (catalogKeyToBucketIdV1 sha256 (kaId row) bucketCount)) =
  verifyCatalogBucketClosure nfc sha256 verifyMessage keccak256 abiEncode registries input objects (fun _ => Ok (bucketId (closureBucket objects).2)).
Proof.
  intros Hg Hi Ec. apply closure_select. destruct (bucketStructure_Ok _ _ _ _ (good_bucket _ _ _ _ Hg)) as (_ & _ & [_ _ Hm] & _).
  rewrite Forall_forall in Hm. rewrite <- Ec, (Hm _ (list_elem_of_lookup_2 _ _ _ Hi)). reflexivity.
Qed.

(** The value of a row, and the only one of its asset. *)
Lemma row_value input objects i row :
  Good input objects -> rows (closureBucket objects).2 !! i = Some row ->
  exists v, rowValues (payload (unsignedEnvelope (closureBucket objects).1)) !! i = Some v /\
    List.filter (fun x => bool_decide (kaId x.2 = kaId row)) (bucketRows (closureBucket objects)) = [(v, row)] /\
    assertCanonicalKaId (JString (kaId row)) = Ok tt.
Proof.
  intros Hg Hi. destruct (bucketStructure_Ok _ _ _ _ (good_bucket _ _ _ _ Hg)) as (_ & _ & [Hs _ _] & Hall).
  destruct (Forall2_lookup_r _ _ _ _ _ Hall Hi) as (v & Hv & Ha). exists v. split; [exact Hv|].
  split; [exact (filter_row _ _ _ _ _ _ Hall Hs Hv Hi)|]. pose proof (go_bucket _ _ _ _ Hg) as Hb.
  pose proof (rowValues_wf _ (signed_payload_wf _ _ _ (so_wf _ _ _ Hb) (snapshot_asserts _ _ _ Hb))) as Hw. rewrite Forall_forall in Hw.
  exact (vr_kaId _ _ (proj1 (assertRow_sound nfc v row (Hw _ (list_elem_of_lookup_2 _ _ _ Hv)) Ha))).
Qed.

(** The snapshot of a token. *)
Lemma read_minted sigs paths verified ss i s :
  ss !! i = Some s ->
  seq (length verified) (length ss) !! i = Some (length verified + i)%nat /\
  readVerifiedAuthorCatalogRowAuthorshipV1 {| verifiedSignatures := sigs; verifiedPaths := paths; verifiedAuthorships := verified ++ ss |}
    (VToken (AuthorshipToken (length verified + i))) = Ok s.
Proof.
  intros Hs. split; [apply lookup_seq; split; [reflexivity|by eapply lookup_lt_Some]|].
  cbn [readVerifiedAuthorCatalogRowAuthorshipV1 verifiedAuthorships]. rewrite lookup_app_r by lia.
  replace (length verified + i - length verified)%nat with i by lia. by rewrite Hs.
Qed.

(** The objects of an accepted input. *)
Lemma bucketInput_good fields input objects :
  wfValue (VRecord fields) -> snapshotBucketAuthorshipsInput (VRecord fields) = Ok input -> snapshotCatalogObjects nfc sha256 input = Ok objects ->
  Good input objects.
Proof.
  intros Hw Hi Ho. pose proof Hi as (fs & Hf & [= E])%result_bind_Ok. assert (recordFields (VRecord fields) = Some fs) as Hr.
  { unfold snapshotInputFields in Hf. cbn [recordFields] in *. do 3 apply throw_if_Ok in Hf as [_ Hf]. by injection Hf as ->. }
  pose proof (closureInput_wf _ _ Hw Hr) as Wi. rewrite E in Wi. exact (objects_Ok _ _ _ _ Wi Ho).
Qed.

(** The answers of the batch verifier and of the verifier of the row at [i]. *)
Definition RowsAgree (objects : CatalogClosureObjectsV1) (i : nat) (row : AuthorCatalogRowV1)
    (batch : wresult (list nat * Registries)) (single : wresult (nat * Registries)) : Prop :=
  match batch, single with
  | Ok (tokens, registries1), Ok (token2, registries2) =>
      length tokens = length (rows (closureBucket objects).2) /\
      exists token1 s, tokens !! i = Some token1 /\ authorshipRow s = row /\
        readVerifiedAuthorCatalogRowAuthorshipV1 registries1 (VToken (AuthorshipToken token1)) = Ok s /\
        readVerifiedAuthorCatalogRowAuthorshipV1 registries2 (VToken (AuthorshipToken token2)) = Ok s
  | Err e1, Err e2 => bucketBucketCount (closureBucket objects).2 = bucketCount (headScope (closureHead objects).2) -> e1 = e2
  | _, _ => False
  end.

(** C12: The batch verifier agrees with the verifier of one row on every row of its
    bucket: both accept, and the tokens of the row stand for equal snapshots, or both
    refuse, with the same error when the bucket has the bucket count of the head. *)
Theorem bucket_rows_agree registries fields input objects i row :
  wfValue (VRecord fields) -> snapshotBucketAuthorshipsInput (VRecord fields) = Ok input ->
  snapshotCatalogObjects nfc sha256 input = Ok objects -> rows (closureBucket objects).2 !! i = Some row ->
  RowsAgree objects i row (verifyBucket registries (VRecord fields)) (verifyRow registries (rowInput fields (kaId row))).
Proof.
  intros Hw Hi Ho Hrow. pose proof (bucketInput_good _ _ _ Hw Hi Ho) as Hg.
  destruct (row_value _ _ _ _ Hg Hrow) as (v & Hv & Hfilter & Hka).
  unfold RowsAgree, verifyAuthorCatalogBucketRowAuthorshipsV1, verifyAuthorCatalogRowAuthorshipV1. rewrite Hi, (rowInput_Ok _ _ _ Hi). cbn [result_bind].
  rewrite Ho. cbn [result_bind snapshotTargetKaId]. rewrite Hka. cbn [rethrow result_bind].
  destruct (decide (bucketBucketCount (closureBucket objects).2 = bucketCount (headScope (closureHead objects).2))) as [Ec|Ec].
  - rewrite (row_closure _ _ _ _ _ Hg Hrow Ec). destruct (verifyCatalogBucketClosure _ _ _ _ _ _ _ _ _) as [[sh paths]|e] eqn:Hc; [|intros _; reflexivity].
    apply closure_Ok in Hc as [Hc _]; [|exact Hg]. destruct (closeBucket_total _ _ _ _ _ Hg Hc) as (ss & Hss & E'). cbn [result_bind]. rewrite E', Hfilter. cbn [fst].
    destruct (Forall2_lookup_l _ _ _ _ _ Hss Hv) as (s & Hs & Hclose). rewrite Hclose. cbn [result_bind mintVerifiedAuthorship].
    split; [|exists (length (verifiedAuthorships registries) + i)%nat, s].
    { destruct (bucketStructure_Ok _ _ _ _ (good_bucket _ _ _ _ Hg)) as (_ & _ & _ & Hall). rewrite length_seq, <- (Forall2_length _ _ _ Hss). exact (Forall2_length _ _ _ Hall). }
    destruct (read_minted (verifiedSignatures registries) paths (verifiedAuthorships registries) ss i s Hs) as [T1 R1].
    destruct (read_minted (verifiedSignatures registries) paths (verifiedAuthorships registries) [s] 0 s eq_refl) as [_ R2]. rewrite Nat.add_0_r in R2.
    split; [exact T1|]. split; [|split; [exact R1|exact R2]].
    assert ((v, row) ∈ bucketRows (closureBucket objects)) as Hin
      by (apply list_elem_of_In; eapply proj1, filter_In; rewrite Hfilter; by left).
    destruct (bucketRows_Ok _ _ _ _ Hg Hin) as (Wv & Ha & _). exact (proj1 (proj2 (closeRow_Ok _ _ _ _ _ _ Wv Ha Hclose))).
  - destruct (verifyCatalogBucketClosure _ _ _ _ _ _ _ _ (fun _ => Ok _)) as [[sh paths]|e] eqn:Hc1.
    { apply closure_Ok in Hc1 as [Hc1 _]; [|exact Hg]. by destruct (Ec (cl_count _ _ _ _ _ _ _ _ _ _ Hc1)). }
    destruct (verifyCatalogBucketClosure _ _ _ _ _ _ _ _ (fun _ => mapErr _ _)) as [[sh paths]|e'] eqn:Hc2; [|cbn [result_bind]; intros E1; by destruct (Ec E1)].
    apply closure_Ok in Hc2 as [Hc2 _]; [|exact Hg]. by destruct (Ec (cl_count _ _ _ _ _ _ _ _ _ _ Hc2)).
Qed.

(** The closure once the signatures and the issuer are settled. *)
Lemma closure_tail registries input objects bound digest select :
  Good input objects -> bindEnvelopes sha256 (verifiedSignatures registries) input objects = Ok bound ->
  verifyIssuerClosure nfc sha256 verifyMessage keccak256 abiEncode input objects (boundPath bound) = Ok digest ->
  exists scopeDigest,
    verifyCatalogBucketClosure nfc sha256 verifyMessage keccak256 abiEncode registries input objects select =
    let* id := select (bucketCount (headScope (closureHead objects).2)) in
    let* (descriptor, paths) := readBoundPathDescriptor nfc sha256 (verifiedPaths registries) (inputPathProof input) (closureHead objects).1 (boundPath bound) id in
    let* _ := verifyBucketBinding nfc sha256 descriptor (closureBucket objects) id
                (deriveScopeAfterHeadStructure (payload (unsignedEnvelope (closureHead objects).1))) in
    Ok (sharedAuthorship objects bound digest scopeDigest, paths).
Proof.
  intros Hg Hb Hi. pose proof (go_head _ _ _ _ Hg) as Hh. pose proof (good_head _ _ _ _ Hg) as Gh. pose proof (go_heads _ _ _ _ Hg) as Ga.
  pose proof (deriveScope_wf _ (signed_payload_wf _ _ _ (so_wf _ _ _ Hh) (snapshot_asserts _ _ _ Hh))) as Hw.
  pose proof (scopeDigest_total nfc sha256 _ _ sha256_length Hw (head_scope _ _ _ Gh)) as Hs.
  unfold verifyCatalogBucketClosure. destruct (closureHead objects) as [he h] eqn:Eh. cbn [fst snd] in *. eexists. rewrite Hb. cbn [result_bind]. rewrite Hi. cbn [result_bind].
  assert (deriveAuthorCatalogScopeFromHeadV1 nfc (payload (unsignedEnvelope he)) = Ok (deriveScopeAfterHeadStructure (payload (unsignedEnvelope he)))) as ->.
  { unfold assertSignedAuthorCatalogHeadEnvelopeV1, assertSignedPayload in Ga. apply result_bind_Ok in Ga as (e' & _ & Ga).
    apply result_bind_Ok in Ga as (u & _ & Ga). apply result_bind_Ok in Ga as (h' & Ha & [= -> ->]). unfold deriveAuthorCatalogScopeFromHeadV1. by rewrite Ha. }
  cbn [mapErr result_bind]. rewrite Hs. cbn [mapErr result_bind]. reflexivity.
Qed.

(** The proof of the path of another bucket is an error of the path. *)
Lemma readBound_other paths proof head path id d paths' id' :
  readBoundPathDescriptor nfc sha256 paths proof head path id = Ok (d, paths') -> id' <> id ->
  readBoundPathDescriptor nfc sha256 paths proof head path id' = Err (EAuthorship AuthorshipPathBindingMismatch).
Proof.
  intros H Hne. pose proof (readBound_Ok _ _ _ _ _ _ _ _ _ H) as (_ & _ & _ & _ & Hid). unfold readBoundPathDescriptor in *.
  apply result_bind_Ok in H as (d0 & H0 & H). apply result_bind_Ok in H as ([c ps] & _ & H). apply result_bind_Ok in H as (d1 & _ & H).
  apply throw_if_Ok in H as [_ [= -> _]]. rewrite H0. clear H0. cbn [result_bind].
  destruct (verifyAuthorCatalogDirectoryPathV1 _ _ _ _ _ _) as [[c' ps']|]; [|reflexivity]. cbn [rethrow result_bind].
  destruct (readVerifiedAuthorCatalogBucketDescriptorV1 _ _ _ _ _) as [d'|]; [|reflexivity]. cbn [rethrow result_bind].
  rewrite (bool_decide_eq_false_2 (descriptorBucketId d = id')) by congruence. by rewrite orb_true_r.
Qed.

Lemma bucketBinding_other input objects d id scope :
  Good input objects -> descriptorBucketId d <> bucketId (closureBucket objects).2 ->
  verifyBucketBinding nfc sha256 d (closureBucket objects) id scope = Err (EAuthorship AuthorshipBucketBindingMismatch).
Proof.
  intros Hg Hne. unfold verifyBucketBinding. destruct (_ || _); [reflexivity|]. cbn [throw_if]. pose proof (go_buckets _ _ _ _ Hg) as Ga.
  assert (exists bytes, canonicalizeAuthorCatalogBucketPayloadBytesV1 nfc sha256 (payload (unsignedEnvelope (closureBucket objects).1)) = Ok bytes) as [bytes ->].
  { destruct (closureBucket objects) as [e b]. unfold assertSignedAuthorCatalogBucketEnvelopeV1, assertSignedPayload in Ga. apply result_bind_Ok in Ga as (e' & _ & Ga).
    apply result_bind_Ok in Ga as (u & _ & Ga). apply result_bind_Ok in Ga as (b' & Ha & [= -> ->]). unfold assertAuthorCatalogBucketV1 in Ha.
    apply result_bind_Ok in Ha as (b0 & Hb0 & Ha). apply result_bind_Ok in Ha as (text & Ht & _). exists (encodeUtf8 text).
    unfold canonicalizeAuthorCatalogBucketPayloadBytesV1. cbn [fst]. rewrite Hb0. cbn [result_bind]. by rewrite Ht. }
  cbn [mapErr result_bind]. rewrite (bool_decide_eq_false_2 (descriptorBucketId d = bucketId _)) by exact Hne. by rewrite orb_true_r.
Qed.

(** C39: On a bucket that is not the one its rows have under the head, the batch verifier
    fails with an error that the verifier of one row does not report: when everything
    before the path holds and the path proof of the input is that of the bucket that
    the key of a row selects under the head, the batch verifier refuses the path and the
    verifier of the row the bucket. *)
Theorem batch_error_differs registries fields input objects i row bound digest id descriptor paths :
  wfValue (VRecord fields) -> snapshotBucketAuthorshipsInput (VRecord fields) = Ok input ->
  snapshotCatalogObjects nfc sha256 input = Ok objects -> rows (closureBucket objects).2 !! i = Some row ->
  bindEnvelopes sha256 (verifiedSignatures registries) input objects = Ok bound ->
  verifyIssuerClosure nfc sha256 verifyMessage keccak256 abiEncode input objects (boundPath bound) = Ok digest ->
  catalogKeyToBucketIdV1 sha256 (kaId row) (bucketCount (headScope (closureHead objects).2)) = Ok id ->
  readBoundPathDescriptor nfc sha256 (verifiedPaths registries) (inputPathProof input) (closureHead objects).1 (boundPath bound) id = Ok (descriptor, paths) ->
  bucketId (closureBucket objects).2 <> id ->
  verifyBucket registries (VRecord fields) = Err (EAuthorship AuthorshipPathBindingMismatch) /\
  verifyRow registries (rowInput fields (kaId row)) = Err (EAuthorship AuthorshipBucketBindingMismatch).
Proof.
  intros Hw Hi Ho Hrow Hb Hc Hk Hd Hne. pose proof (bucketInput_good _ _ _ Hw Hi Ho) as Hg. destruct (row_value _ _ _ _ Hg Hrow) as (_ & _ & _ & Hka).
  unfold verifyAuthorCatalogBucketRowAuthorshipsV1, verifyAuthorCatalogRowAuthorshipV1. rewrite Hi, (rowInput_Ok _ _ _ Hi). cbn [result_bind].
  rewrite Ho. cbn [result_bind snapshotTargetKaId]. rewrite Hka. cbn [rethrow result_bind]. split.
  - destruct (closure_tail registries input objects bound digest (fun _ => Ok (bucketId (closureBucket objects).2)) Hg Hb Hc) as [sd ->].
    cbn [result_bind]. by rewrite (readBound_other _ _ _ _ _ _ _ _ Hd Hne).
  - destruct (closure_tail registries input objects bound digest
      (fun bucketCount => mapErr EAuthorshipCodec (catalogKeyToBucketIdV1 sha256 (kaId row) bucketCount)) Hg Hb Hc) as [sd ->].
    rewrite Hk. cbn [mapErr result_bind]. rewrite Hd. cbn [result_bind].
    pose proof (readBound_Ok _ _ _ _ _ _ _ _ _ Hd) as (_ & _ & _ & _ & Hid). rewrite (bucketBinding_other input); [reflexivity|exact Hg|congruence].
Qed.

End Safety.

(** ** Examples *)

(** The author delegates to its own key. *)
Definition oneDelegation : SignedControlEnvelopeV1 :=
  sampleSigned AUTHOR_CATALOG_ISSUER_DELEGATION_OBJECT_TYPE_V1
    (JObject [(js "authorAddress", JString (lowerHex sampleAuthor)); (js "authorAuthorityEvidenceDigest", JNull); (js "catalogEra", JString (js "0"));
              (js "catalogIssuerKey", JString (lowerHex sampleAuthor)); (js "contextGraphId", JString (js "org/lab"));
              (js "effectiveAt", JString (js "5")); (js "expiresAt", JString (js "9")); (js "governanceChainId", JNull);
              (js "governanceContractAddress", JNull); (js "networkId", JString (js "otp:20430")); (js "ownershipTransitionDigest", JNull);
              (js "previousDelegationDigest", JNull); (js "subGraphName", JNull)]).

Definition delegatedHead : SignedControlEnvelopeV1 := oneHead (objectDigest oneDelegation).

Definition sampleKeccak : bytes -> bytes := sampleHash.
Definition sampleAbi (preimage : DelegationPreimage) : bytes := encodeUtf8 (preimageScope preimage).

(** The signatures of the delegation, the head, a bucket and the root. *)
Definition signaturesWith (bucket : SignedControlEnvelopeV1) : VerifiedSignatures :=
  foldl (fun registry envelope =>
    registryAfter (verifyEip191ControlEnvelopeIssuerSignatureV1 sampleHash Some sampleVerifyMessage registry (toCanonicalSignedEnvelope envelope)) registry)
    [] [oneDelegation; delegatedHead; bucket; oneRoot].

Definition registriesWith (bucket : SignedControlEnvelopeV1) : Registries :=
  {| verifiedSignatures := signaturesWith bucket;
     verifiedPaths := registryAfter
       (verifyAuthorCatalogDirectoryPathV1 sampleNfc sampleHash [] (toCanonicalSignedEnvelope delegatedHead) onePathJson (JString (js "0"))) [];
     verifiedAuthorships := [] |}.

Definition fieldsWith (bucket : SignedControlEnvelopeV1) : list (jsstr * Value) :=
  [(js "catalogBucket", VJson (toCanonicalSignedEnvelope bucket)); (js "catalogBucketSignature", VToken (SignatureToken 2));
   (js "catalogHead", VJson (toCanonicalSignedEnvelope delegatedHead)); (js "catalogHeadSignature", VToken (SignatureToken 1));
   (js "catalogIssuerDelegation", VJson (toCanonicalSignedEnvelope oneDelegation)); (js "catalogIssuerDelegationSignature", VToken (SignatureToken 0));
   (js "directoryPathEnvelopes", VJson onePathJson); (js "directoryPathProof", VToken (PathToken 0));
   (js "directoryPathSignatures", VArray [VToken (SignatureToken 3)]); (js "parentAuthorAgentEvidence", VJson JNull)].

Definition oneRegistries : Registries := registriesWith oneBucket.
Definition oneFields : list (jsstr * Value) := fieldsWith oneBucket.
Definition oneRowInput : Value := rowInput oneFields (kaId sampleRowRecord).

Abbreviation sampleVerifyRow := (verifyAuthorCatalogRowAuthorshipV1 sampleNfc sampleHash sampleVerifyMessage sampleKeccak sampleAbi).
Abbreviation sampleVerifyBucket := (verifyAuthorCatalogBucketRowAuthorshipsV1 sampleNfc sampleHash sampleVerifyMessage sampleKeccak sampleAbi).

Definition oneVerified : Registries := registryAfter (sampleVerifyRow oneRegistries oneRowInput) oneRegistries.

Lemma oneFields_wf : wfValue (VRecord oneFields).
Proof. apply uniqueKeys_wf. vm_compute. reflexivity. Qed.

Lemma oneRowInput_wf : wfValue oneRowInput.
Proof. apply uniqueKeys_wf. vm_compute. reflexivity. Qed.

Lemma oneRow_verifies : sampleVerifyRow oneRegistries oneRowInput = Ok (0%nat, oneVerified).
Proof. vm_compute. reflexivity. Qed.

Lemma oneRow_reads : exists s, readVerifiedAuthorCatalogRowAuthorshipV1 oneVerified (VToken (AuthorshipToken 0)) = Ok s /\ authorshipRow s = sampleRowRecord.
Proof. eexists. split; vm_compute; reflexivity. Qed.

(** The same objects with the fields of the input in another order. *)
Definition reorderedInput : Value := rowInput (reverse oneFields) (kaId sampleRowRecord).

Lemma reorderedInput_wf : wfValue reorderedInput.
Proof. apply uniqueKeys_wf. vm_compute. reflexivity. Qed.

Lemma reordered_verifies : sampleVerifyRow oneRegistries reorderedInput = Ok (0%nat, oneVerified).
Proof. vm_compute. reflexivity. Qed.

Lemma one_row_per_asset_witness :
  exists s, authorshipRow s = sampleRowRecord /\
    ((authorshipRow s = authorshipRow s /\ catalogRowDigest s = catalogRowDigest s /\ transferIdentityDigest s = transferIdentityDigest s) \/
     CollisionIn sampleHash (authorshipInputs oneRowInput ++ authorshipInputs reorderedInput)).
Proof.
  destruct oneRow_reads as (s & Hs & Hr). exists s. split; [exact Hr|].
  exact (one_row_per_asset _ _ _ _ _ _ _ _ _ _ _ _ _ _ _ oneRowInput_wf reorderedInput_wf oneRow_verifies reordered_verifies Hs Hs eq_refl eq_refl).
Defined.

Lemma oneObjects_accepted :
  exists objects, snapshotBucketAuthorshipsInput (VRecord oneFields) = Ok (closureInput oneFields) /\
    snapshotCatalogObjects sampleNfc sampleHash (closureInput oneFields) = Ok objects /\ rows (closureBucket objects).2 !! 0%nat = Some sampleRowRecord.
Proof. eexists. split; [|split]; vm_compute; reflexivity. Qed.

Lemma bucket_rows_agree_witness :
  exists objects, rows (closureBucket objects).2 !! 0%nat = Some sampleRowRecord /\
    RowsAgree objects 0 sampleRowRecord
      (sampleVerifyBucket oneRegistries (VRecord oneFields)) (sampleVerifyRow oneRegistries oneRowInput).
Proof.
  destruct oneObjects_accepted as (objects & Hi & Ho & Hr). exists objects. split; [exact Hr|].
  exact (bucket_rows_agree sampleNfc sampleHash sampleVerifyMessage sampleKeccak sampleAbi sampleHash_length oneRegistries oneFields
    (closureInput oneFields) objects 0 sampleRowRecord oneFields_wf Hi Ho Hr).
Defined.

(** A bucket of a catalog of four, signed by the issuer of the catalog of one. *)
Definition foreignBucket : SignedControlEnvelopeV1 :=
  sampleSigned AUTHOR_CATALOG_BUCKET_OBJECT_TYPE_V1
    (JObject [(js "bucketCount", JString (js "4")); (js "bucketId", JString (js "1")); (js "catalogScopeDigest", JString oneScopeDigest);
              (js "era", JString (js "0")); (js "rows", JArray [sampleRow])]).

Lemma foreign_wf : wfValue (VRecord (fieldsWith foreignBucket)).
Proof. apply uniqueKeys_wf. vm_compute. reflexivity. Qed.

(** What [batch_error_differs] asks of an input, as a computation: the stages before
    the bucket pass, and the first row's bucket is [id] and not the bucket's own. *)
Definition otherBucket registries fields key id : bool :=
  let input := closureInput fields in
  match snapshotBucketAuthorshipsInput (VRecord fields), snapshotCatalogObjects sampleNfc sampleHash input with
  | Ok _, Ok objects =>
      bool_decide (kaId <$> rows (closureBucket objects).2 !! 0%nat = Some key) && negb (bool_decide (bucketId (closureBucket objects).2 = id)) &&
      match bindEnvelopes sampleHash (verifiedSignatures registries) input objects,
            catalogKeyToBucketIdV1 sampleHash key (bucketCount (headScope (closureHead objects).2)) with
      | Ok bound, Ok id' =>
          bool_decide (id' = id) &&
          match verifyIssuerClosure sampleNfc sampleHash sampleVerifyMessage sampleKeccak sampleAbi input objects (boundPath bound),
                readBoundPathDescriptor sampleNfc sampleHash (verifiedPaths registries) (inputPathProof input) (closureHead objects).1 (boundPath bound) id with
          | Ok _, Ok _ => true
          | _, _ => false
          end
      | _, _ => false
      end
  | _, _ => false
  end.

Lemma otherBucket_true registries fields key id :
  otherBucket registries fields key id = true ->
  exists objects row bound digest descriptor paths,
    snapshotBucketAuthorshipsInput (VRecord fields) = Ok (closureInput fields) /\ snapshotCatalogObjects sampleNfc sampleHash (closureInput fields) = Ok objects /\
    rows (closureBucket objects).2 !! 0%nat = Some row /\ kaId row = key /\ bucketId (closureBucket objects).2 <> id /\
    bindEnvelopes sampleHash (verifiedSignatures registries) (closureInput fields) objects = Ok bound /\
    catalogKeyToBucketIdV1 sampleHash (kaId row) (bucketCount (headScope (closureHead objects).2)) = Ok id /\
    verifyIssuerClosure sampleNfc sampleHash sampleVerifyMessage sampleKeccak sampleAbi (closureInput fields) objects (boundPath bound) = Ok digest /\
    readBoundPathDescriptor sampleNfc sampleHash (verifiedPaths registries) (inputPathProof (closureInput fields)) (closureHead objects).1 (boundPath bound) id
      = Ok (descriptor, paths).
Proof.
  intros H. unfold otherBucket in H. destruct (snapshotBucketAuthorshipsInput _) as [input|] eqn:Hi; [|discriminate H].
  assert (input = closureInput fields) as -> by (apply result_bind_Ok in Hi as (fs & Hf & [= <-]); unfold snapshotInputFields in Hf; cbn [recordFields] in Hf;
    do 3 apply throw_if_Ok in Hf as [_ Hf]; by injection Hf as ->).
  destruct (snapshotCatalogObjects _ _ _) as [objects|] eqn:Ho; [|discriminate H].
  apply andb_prop in H as [[Hr Hn]%andb_prop H]. apply bool_decide_eq_true, fmap_Some in Hr as (row & Hr & ->). apply negb_true_iff, bool_decide_eq_false in Hn.
  destruct (bindEnvelopes _ _ _ _) as [bound|] eqn:Hb; [|discriminate H]. destruct (catalogKeyToBucketIdV1 _ _ _) as [id'|] eqn:Hk; [|discriminate H].
  apply andb_prop in H as [->%bool_decide_eq_true H]. destruct (verifyIssuerClosure _ _ _ _ _ _ _ _) as [digest|] eqn:Hc; [|discriminate H].
  destruct (readBoundPathDescriptor _ _ _ _ _ _ _) as [[descriptor paths]|] eqn:Hd; [|discriminate H].
  exists objects, row, bound, digest, descriptor, paths.
  exact (conj eq_refl (conj eq_refl (conj Hr (conj eq_refl (conj Hn (conj Hb (conj Hk (conj Hc Hd)))))))).
Qed.

Lemma foreign_other : otherBucket (registriesWith foreignBucket) (fieldsWith foreignBucket) (kaId sampleRowRecord) (js "0") = true.
Proof. vm_compute. reflexivity. Qed.

Lemma batch_error_differs_witness :
  sampleVerifyBucket (registriesWith foreignBucket) (VRecord (fieldsWith foreignBucket)) = Err (EAuthorship AuthorshipPathBindingMismatch) /\
  sampleVerifyRow (registriesWith foreignBucket) (rowInput (fieldsWith foreignBucket) (kaId sampleRowRecord)) = Err (EAuthorship AuthorshipBucketBindingMismatch).
Proof.
  destruct (otherBucket_true _ _ _ _ foreign_other) as (objects & row & bound & digest & descriptor & paths & Hi & Ho & Hr & <- & Hn & Hb & Hk & Hc & Hd).
  exact (batch_error_differs sampleNfc sampleHash sampleVerifyMessage sampleKeccak sampleAbi sampleHash_length (registriesWith foreignBucket)
    (fieldsWith foreignBucket) (closureInput (fieldsWith foreignBucket)) objects 0 row bound digest (js "0") descriptor paths foreign_wf Hi Ho Hr Hb Hc Hk Hd Hn).
Defined.
