(* ===== verification/RowAuthorshipTrust.v ===== *)
(** * The word of the author

    The keys that signed a verified row lead from its author to the head. *)

From S2P Require Import Prelude Bytes Merkle CodePoints JsText JsNumber CanonicalJson CanonicalJsonTheory CanonicalJsonRoundtrip.
From S2P Require Import PlainJson WireScalars KaTransfer AuthorLane AuthorCatalog AuthorCatalogTheory AuthorCatalogRows AuthorCatalogSafety.
From S2P Require Import JsonEquiv ControlObject ControlObjectTheory ControlObjectSafety CatalogObjects CatalogObjectsTheory.
From S2P Require Import CatalogDirectory CatalogDirectoryTheory CatalogDirectorySafety CatalogAuthority SignatureVerifier SignatureTheory.
From S2P Require Import RowAuthorship RowAuthorshipTheory RowAuthorshipSafety.

Open Scope Z_scope.

(** The lane of a row, as the author's delegation to an operational key names it. *)
Definition laneObject (l : AuthorLaneScopeV1) : Json :=
  JObject [(js "authorAddress", JString (authorAddress l)); (js "contextGraphId", JString (contextGraphId (lane l)));
           (js "governanceChainId", orNull (governanceChainId l)); (js "governanceContractAddress", orNull (governanceContractAddress l));
           (js "networkId", JString (networkId l)); (js "ownershipTransitionDigest", orNull (ownershipTransitionDigest l));
           (js "subGraphName", orNull (subGraphName (lane l)))].

(** A delegation is for the lane: the same author, network, context graph, sub-graph,
    governance and era. *)
Record DelegatesLane (l : AuthorLaneScopeV1) (delegation : AuthorCatalogIssuerDelegationV1) : Prop := {
  dl_author : delegationAuthor delegation = authorAddress l;
  dl_network : scopeNetworkId (delegationScope delegation) = networkId l;
  dl_contextGraph : contextGraphId (scopeLane (delegationScope delegation)) = contextGraphId (lane l);
  dl_subGraph : subGraphName (scopeLane (delegationScope delegation)) = subGraphName (lane l);
  dl_chain : scopeChainId (delegationScope delegation) = governanceChainId l;
  dl_contract : scopeContractAddress (delegationScope delegation) = governanceContractAddress l;
  dl_transition : scopeTransitionDigest (delegationScope delegation) = ownershipTransitionDigest l;
  dl_era : catalogEra delegation = era l
}.

Lemma lane_object l delegation : DelegatesLane l delegation -> agentScopeObject delegation = laneObject l.
Proof. intros []. unfold agentScopeObject, laneObject. congruence. Qed.

Section Trust.
Context (nfc : jsstr -> jsstr) (sha256 : bytes -> bytes).
Context (signatureSerialized : jsstr -> option jsstr) (verifyMessage : bytes -> jsstr -> option jsstr).
Context (encodeIsValidSignature : jsstr -> jsstr -> jsstr) (Gateway : (CurrentFinalizedEvmCallRequestV1 -> CallOutcome) -> Prop).
Context (keccak256 : bytes -> bytes) (abiEncode : DelegationPreimage -> bytes).

Abbreviation verifyRow := (verifyAuthorCatalogRowAuthorshipV1 nfc sha256 verifyMessage keccak256 abiEncode).
Abbreviation signedBy := (SignedBy verifyMessage encodeIsValidSignature Gateway).
Abbreviation authentic := (Authentic sha256 verifyMessage encodeIsValidSignature Gateway).

(** [key] signed the object of an envelope, and the envelope carries that
    signature up to a collision of variant digests. *)
Definition IssuedBy (key : jsstr) (envelope : SignedControlEnvelopeV1) : Prop :=
  issuer (unsignedEnvelope envelope) = key /\
  exists signature' evidence, signedBy (objectDigest envelope) signature' key evidence /\
    computeControlSignatureVariantDigestHex sha256 (objectDigest envelope) signature' =
    computeControlSignatureVariantDigestHex sha256 (objectDigest envelope) (signature envelope).

(** The author signed a delegation of the lane to an operational key. *)
Record AuthorDelegates (author opKey agentScope : jsstr) (delegation : AuthorCatalogIssuerDelegationV1) (parent : AuthorAgentDelegationEvidenceV1) : Prop := {
  ad_signed : exists recovered, CanonicalSignature (evidenceSignature parent) /\
    verifyMessage (computeDelegationDigest keccak256 abiEncode parent) (evidenceSignature parent) = Some recovered /\ lowerText recovered = author;
  ad_author : evidenceAuthor parent = author;
  ad_scope : evidenceScope parent = agentScope;
  ad_opKey : delegateeOpKey parent = opKey;
  ad_from : bigIntOf (evidenceIssuedAt parent) <= bigIntOf (effectiveAt delegation);
  ad_until : bigIntOf (expiresAt delegation) <= bigIntOf (evidenceExpiresAt parent)
}.

(** The digest of a lane, and the scope of the author's delegations for it. *)
Definition laneDigest (l : AuthorLaneScopeV1) : jsstr :=
  lowerHex (sha256 (encodeUtf8 AUTHOR_CATALOG_AGENT_SCOPE_DIGEST_DOMAIN_V1 ++ encodeUtf8 (canonText (laneObject l)))).
Definition laneAgentScope (l : AuthorLaneScopeV1) : jsstr := AUTHOR_CATALOG_AGENT_SCOPE_PREFIX_V1 ++ drop 2 (laneDigest l).

(** The author of the lane made [key] the issuer of its catalog, directly or through
    the operational key [key]. *)
Definition AuthorizedKey (l : AuthorLaneScopeV1) (key : jsstr) (delegation : SignedControlEnvelopeV1 * AuthorCatalogIssuerDelegationV1) : Prop :=
  DelegatesLane l delegation.2 /\ catalogIssuerKey delegation.2 = key /\
  (IssuedBy (authorAddress l) delegation.1 \/
   IssuedBy key delegation.1 /\ exists parent, AuthorDelegates (authorAddress l) key (laneAgentScope l) delegation.2 parent).

(** The snapshot of a scope is its seven fields. *)
Lemma agentScope_values fields values :
  snapshotAuthorCatalogAgentScope nfc (JObject fields) = Ok values ->
  values = map (fun key => (key, default JNull (field key fields))) agentScopeKeys.
Proof.
  unfold snapshotAuthorCatalogAgentScope. cbn [isPlainRecord]. intros H. apply result_bind_Ok in H as (vs & Hv & H). cbv zeta in H.
  do 3 apply result_bind_Ok in H as (? & _ & H). apply throw_if_Ok in H as [_ H]. do 3 apply result_bind_Ok in H as (? & _ & H).
  injection H as <-. unfold exactPrimitiveDataSnapshot in Hv. cbv zeta in Hv. do 2 apply throw_if_Ok in Hv as [_ Hv]. by injection Hv as <-.
Qed.

Lemma agentScope_digest delegation values digest :
  snapshotAuthorCatalogAgentScope nfc (agentScopeObject delegation) = Ok values ->
  computeAuthorCatalogAgentScopeDigestV1 nfc sha256 (JObject values) = Ok digest ->
  digest = lowerHex (sha256 (encodeUtf8 AUTHOR_CATALOG_AGENT_SCOPE_DIGEST_DOMAIN_V1 ++ encodeUtf8 (canonText (agentScopeObject delegation)))).
Proof.
  intros Hv%agentScope_values H. assert (JObject values = agentScopeObject delegation) as E by by rewrite Hv.
  rewrite E in H. unfold computeAuthorCatalogAgentScopeDigestV1 in H. apply result_bind_Ok in H as (vs & Hvs%agentScope_values & H).
  unfold authorshipDigest in H. apply result_bind_Ok in H as (? & _ & [= <-]). unfold canonicalizeStringRecord.
  do 5 f_equal. by rewrite Hvs.
Qed.

Lemma bindExact_Ok registry proof envelope s :
  Forall authentic registry -> bindExactSignatureProof sha256 registry proof envelope = Ok s ->
  IssuedBy (issuer (unsignedEnvelope envelope)) envelope.
Proof.
  intros Hr H. unfold bindExactSignatureProof in H. destruct (readVerifiedControlEnvelopeIssuerSignatureV1 _ _) as [snapshot|] eqn:E; [|done].
  apply throw_if_Ok in H as [Hc H]. rewrite !orb_false_iff, !negb_false_iff, !bool_decide_eq_true in Hc. destruct Hc as [[Ed Ei] _].
  apply result_bind_Ok in H as (vd & Hvd%mapErr_Ok & H). apply throw_if_Ok in H as [Hv%negb_false_iff%bool_decide_eq_true _].
  unfold readVerifiedControlEnvelopeIssuerSignatureV1 in E. destruct (match proof with VToken _ => _ | _ => _ end) as [token|]; [|done].
  cbn [mbind option_bind] in E. rewrite Forall_forall in Hr. destruct (Hr _ (list_elem_of_lookup_2 _ _ _ E)) as (sig & Hsig & Hby).
  rewrite Ed, Ei in *. split; [reflexivity|]. exists sig, (verificationEvidence snapshot). split; [exact Hby|]. congruence.
Qed.

Lemma bindPath_Ok registry proofs envelopes ss :
  Forall authentic registry -> bindPathSignatures sha256 registry proofs envelopes = Ok ss ->
  Forall (fun e => IssuedBy (issuer (unsignedEnvelope e)) e) envelopes.
Proof.
  intros Hr. revert proofs ss. induction envelopes as [|e es IH]; intros proofs ss H; [constructor|]. destruct proofs as [|p proofs]; [done|].
  cbn [bindPathSignatures] in H. apply result_bind_Ok in H as (s & Hs%mapErr_Ok & H). apply result_bind_Ok in H as (rest & H & _).
  constructor; [exact (bindExact_Ok _ _ _ _ Hr Hs)|exact (IH _ _ H)].
Qed.

(** All signatures of a closure are authentic. *)
Lemma bindEnvelopes_Ok registry input objects bound :
  Forall authentic registry -> bindEnvelopes sha256 registry input objects = Ok bound ->
  Forall (fun e => IssuedBy (issuer (unsignedEnvelope e)) e)
    ((closureDelegation objects).1 :: (closureHead objects).1 :: (closureBucket objects).1 :: boundPath bound).
Proof.
  intros Hr H. unfold bindEnvelopes in H. do 2 apply result_bind_Ok in H as (? & _ & H). apply result_bind_Ok in H as (path & _ & H).
  apply result_bind_Ok in H as (d & Hd & H). apply result_bind_Ok in H as (h & Hh & H). apply result_bind_Ok in H as (b & Hb & H).
  apply result_bind_Ok in H as (ss & Hss & [= <-]). cbn [boundPath].
  repeat (constructor; [by eapply bindExact_Ok|]). by eapply bindPath_Ok.
Qed.

Lemma parentEvidence_Ok digest evidence agentScope key delegation u :
  verifyParentEvidence sha256 verifyMessage keccak256 abiEncode digest evidence agentScope key delegation = Ok u ->
  catalogIssuerKey delegation = key /\ exists parent, AuthorDelegates (delegationAuthor delegation) key agentScope delegation parent.
Proof.
  unfold verifyParentEvidence. intros [_ H]%throw_if_Ok. apply result_bind_Ok in H as ([parent values] & _ & H).
  apply result_bind_Ok in H as (d & _ & H). apply throw_if_Ok in H as [_ H]. apply result_bind_Ok in H as (x & Hs & H).
  apply throw_if_Ok in H as [H1 H]. apply throw_if_Ok in H as [H2 H]. apply throw_if_Ok in H as [H3 _].
  rewrite orb_false_iff, !negb_false_iff, !bool_decide_eq_true in H1, H2. destruct H1 as [A1 A2], H2 as [K1 K2].
  rewrite !orb_false_iff, !Z.ltb_ge in H3. destruct H3 as [[T1 _] T2]. split; [congruence|]. exists parent. split; [|exact A1|exact A2|exact K1|lia|lia].
  unfold verifyParentEvidenceSignature in Hs. apply throw_if_Ok in Hs as [Hn Hs]. destruct (verifyMessage _ _) as [r|] eqn:Er; [|done].
  apply throw_if_Ok in Hs as [Hr%negb_false_iff%bool_decide_eq_true _]. exists r. split; [exact (canonical_signature _ Hn)|]. split; [reflexivity|congruence].
Qed.

(** The head is of the lane of the delegation and names it. *)
Lemma headBinding_lane delegation head u :
  assertHeadBinding delegation head = Ok u ->
  DelegatesLane (laneScope (headScope head)) delegation.2 /\ catalogIssuerDelegationDigest head = objectDigest delegation.1.
Proof.
  unfold assertHeadBinding. intros [H _]%throw_if_Ok. rewrite !orb_false_iff, !negb_false_iff, !bool_decide_eq_true in H.
  destruct H as [[[[[[[[H1 H2] H3] H4] H5] H6] H7] H8] H9]. split; [split; by symmetry|exact H9].
Qed.

(** The key that the issuer closure accepts. *)
Lemma issuerClosure_Ok input objects path digest :
  verifyIssuerClosure nfc sha256 verifyMessage keccak256 abiEncode input objects path = Ok digest ->
  Forall (fun e => IssuedBy (issuer (unsignedEnvelope e)) e) ((closureDelegation objects).1 :: (closureHead objects).1 :: (closureBucket objects).1 :: path) ->
  AuthorizedKey (laneScope (headScope (closureHead objects).2)) (catalogIssuerKey (closureDelegation objects).2) (closureDelegation objects) /\
  digest = laneDigest (laneScope (headScope (closureHead objects).2)) /\
  Forall (IssuedBy (catalogIssuerKey (closureDelegation objects).2)) ((closureHead objects).1 :: (closureBucket objects).1 :: path) /\
  catalogIssuerDelegationDigest (closureHead objects).2 = objectDigest (closureDelegation objects).1 /\
  bigIntOf (effectiveAt (closureDelegation objects).2) <= bigIntOf (issuedAt (closureHead objects).2) < bigIntOf (expiresAt (closureDelegation objects).2).
Proof.
  intros H Hall. unfold verifyIssuerClosure in H. destruct (closureDelegation objects) as [de d], (closureHead objects) as [he h]. cbn [fst snd] in *.
  apply result_bind_Ok in H as (scope & Hscope & H). apply result_bind_Ok in H as (ad & Had & H). apply result_bind_Ok in H as (u & Hi & H).
  apply result_bind_Ok in H as (? & Hb & H). apply throw_if_Ok in H as [Hk H]. apply throw_if_Ok in H as [Ht [= ->]].
  destruct (headBinding_lane _ _ _ Hb) as [Hlane Ed]. cbn [fst snd] in Hlane, Ed.
  rewrite !orb_false_iff, !negb_false_iff, !bool_decide_eq_true in Hk. destruct Hk as [[K1 K2] K3].
  rewrite existsb_false in K3. rewrite orb_false_iff, Z.ltb_ge, Z.leb_gt in Ht. apply Forall_cons in Hall as [Hd Hall].
  assert (digest = laneDigest (laneScope (headScope h))) as El.
  { unfold laneDigest. rewrite <- (lane_object _ _ Hlane). exact (agentScope_digest _ _ _ Hscope Had). }
  split; [|split; [exact El|split; [|split; [exact Ed|lia]]]].
  - split; [exact Hlane|]. split; [reflexivity|]. rewrite <- (dl_author _ _ Hlane). unfold verifyIssuer in Hi. apply result_bind_Ok in Hi as (? & Hi & Hx).
    destruct (bool_decide_reflect (issuer (unsignedEnvelope de) = delegationAuthor d)) as [E|E]; [left; by rewrite <- E|right].
    destruct (authorAuthorityEvidenceDigest d) as [evidenceDigest|]; [|done]. apply parentEvidence_Ok in Hi as [Ek Hp].
    rewrite Ek. unfold laneAgentScope. rewrite <- El. split; [exact Hd|exact Hp].
  - rewrite Forall_forall in *. intros e He. pose proof (Hall e He) as Hs. replace (catalogIssuerKey d) with (issuer (unsignedEnvelope e)); [exact Hs|].
    apply elem_of_cons in He as [->|He]; [exact K1|]. apply elem_of_cons in He as [->|He]; [exact K2|].
    specialize (K3 _ He). by apply negb_false_iff, bool_decide_eq_true in K3.
Qed.

(** C5: A verified authorship is the word of the author of the row: for the lane of the
    row (author, network, context graph, sub-graph, governance and era) the author made
    the key of the snapshot the issuer of the catalog, with a signed delegation or
    through an operational key that the author's signed evidence names for the digest
    of this lane and for this time; that key signed the head, the bucket and every node of the path; the head
    names the delegation and was issued while it was in force; the path of the head
    leads to the bucket; and the row is of the bucket and its asset of the author. *)
Theorem authorship_sound registries value token registries' s :
  wfValue value -> VerifiedRegistry sha256 signatureSerialized verifyMessage encodeIsValidSignature Gateway (verifiedSignatures registries) ->
  verifyRow registries value = Ok (token, registries') ->
  readVerifiedAuthorCatalogRowAuthorshipV1 registries' (VToken (AuthorshipToken token)) = Ok s ->
  exists fields objects path st,
    let author := authorAddress (sharedLane (shared s)) in
    let key := sharedIssuerKey (shared s) in
    recordFields value = Some fields /\ snapshotCatalogObjects nfc sha256 (closureInput fields) = Ok objects /\
    AuthorizedKey (sharedLane (shared s)) key (closureDelegation objects) /\
    authorCatalogAgentScopeDigest (shared s) = laneDigest (sharedLane (shared s)) /\
    Forall (IssuedBy key) ((closureHead objects).1 :: (closureBucket objects).1 :: path) /\
    map objectDigest path = directoryPathObjectDigests (shared s) /\ objectDigest (closureHead objects).1 = catalogHeadObjectDigest (shared s) /\
    catalogIssuerDelegationDigest (closureHead objects).2 = objectDigest (closureDelegation objects).1 /\
    bigIntOf (sharedEffectiveAt (shared s)) <= bigIntOf (headIssuedAt (shared s)) < bigIntOf (sharedExpiresAt (shared s)) /\
    verifyPath nfc sha256 (toCanonicalSignedEnvelope (closureHead objects).1) (JArray (map toCanonicalSignedEnvelope path))
      (JString (sharedBucketId (shared s))) = Ok st /\
    bucketDigest (stateDescriptor st) = objectDigest (closureBucket objects).1 /\
    authorshipRow s ∈ rows (closureBucket objects).2 /\ Z.shiftr (bigIntOf (kaId (authorshipRow s))) 96 = bigIntOfHex author.
Proof.
  intros Hw Hreg%registry_authentic H Hread. apply verifyRow_Ok in H as (fields & objects & target & paths & s' & Hf & Ho & Hc & -> & ->); [|exact Hw].
  destruct (read_minted (verifiedSignatures registries) paths (verifiedAuthorships registries) [s'] 0 s' eq_refl) as [_ R].
  rewrite Nat.add_0_r in R. rewrite R in Hread. injection Hread as ->. destruct (closedRow_bucket _ _ _ _ _ _ _ _ _ _ _ Hc) as [Hrow _].
  destruct Hc as [_ Hg [(bound & ad & sd & Hb & Hi & _ & E & st & Hst & Ed & _) _ Hp] _ _]. rewrite Forall_forall in Hp.
  pose proof (Hp _ Hrow) as Hk. clear R Hp. apply bindEnvelopes_Ok in Hb; [|exact Hreg]. destruct (issuerClosure_Ok _ _ _ _ Hi Hb) as (Ha & El & Hs & Hd & Ht).
  exists fields, objects, (boundPath bound), st. cbv zeta. rewrite E in *. clear E Hb Hi. unfold sharedAuthorship in *.
  destruct (closureDelegation objects) as [de d] eqn:Ede, (closureHead objects) as [he h] eqn:Ehe, (closureBucket objects) as [be b] eqn:Ebe. cbn [fst snd] in *.
  split; [exact Hf|]. split; [exact Ho|]. split; [exact Ha|]. split; [exact El|]. split; [exact Hs|]. split; [reflexivity|]. split; [reflexivity|]. split; [exact Hd|].
  split; [exact Ht|]. split; [exact Hst|]. split; [exact Ed|]. split; [exact Hrow|exact Hk].
Qed.

End Trust.

(** ** Examples *)

Lemma oneSignatures_verified :
  VerifiedRegistry sampleHash Some sampleVerifyMessage sampleEncode (eq sampleGateway) (verifiedSignatures oneRegistries).
Proof.
  unfold oneRegistries, registriesWith, signaturesWith. cbn [verifiedSignatures].
  generalize [oneDelegation; delegatedHead; oneBucket; oneRoot]. intros envelopes.
  assert (VerifiedRegistry sampleHash Some sampleVerifyMessage sampleEncode (eq sampleGateway) []) as Hr by constructor. revert Hr.
  generalize (@nil VerifiedControlEnvelopeIssuerSignatureSnapshotV1). induction envelopes as [|e es IH]; intros registry Hr; [exact Hr|].
  cbn [foldl]. apply IH. destruct (verifyEip191ControlEnvelopeIssuerSignatureV1 _ _ _ _ _) as [[token registry']|] eqn:E; [|exact Hr].
  exact (Eip191SignatureVerified _ _ _ _ _ _ _ _ _ Hr E).
Qed.

Lemma authorship_sound_witness :
  exists s, authorshipRow s = sampleRowRecord /\
  exists fields objects path st,
    recordFields oneRowInput = Some fields /\ snapshotCatalogObjects sampleNfc sampleHash (closureInput fields) = Ok objects /\
    AuthorizedKey sampleHash sampleVerifyMessage sampleEncode (eq sampleGateway) sampleKeccak sampleAbi
      (sharedLane (shared s)) (sharedIssuerKey (shared s)) (closureDelegation objects) /\
    authorCatalogAgentScopeDigest (shared s) = laneDigest sampleHash (sharedLane (shared s)) /\
    Forall (IssuedBy sampleHash sampleVerifyMessage sampleEncode (eq sampleGateway) (sharedIssuerKey (shared s)))
      ((closureHead objects).1 :: (closureBucket objects).1 :: path) /\
    map objectDigest path = directoryPathObjectDigests (shared s) /\ objectDigest (closureHead objects).1 = catalogHeadObjectDigest (shared s) /\
    catalogIssuerDelegationDigest (closureHead objects).2 = objectDigest (closureDelegation objects).1 /\
    bigIntOf (sharedEffectiveAt (shared s)) <= bigIntOf (headIssuedAt (shared s)) < bigIntOf (sharedExpiresAt (shared s)) /\
    verifyPath sampleNfc sampleHash (toCanonicalSignedEnvelope (closureHead objects).1) (JArray (map toCanonicalSignedEnvelope path))
      (JString (sharedBucketId (shared s))) = Ok st /\
    bucketDigest (stateDescriptor st) = objectDigest (closureBucket objects).1 /\
    authorshipRow s ∈ rows (closureBucket objects).2 /\
    Z.shiftr (bigIntOf (kaId (authorshipRow s))) 96 = bigIntOfHex (authorAddress (sharedLane (shared s))).
Proof.
  destruct oneRow_reads as (s & Hs & Hr). exists s. split; [exact Hr|].
  exact (authorship_sound sampleNfc sampleHash Some sampleVerifyMessage sampleEncode (eq sampleGateway) sampleKeccak sampleAbi
    oneRegistries oneRowInput 0 oneVerified s oneRowInput_wf oneSignatures_verified oneRow_verifies Hs).
Defined.
