(* ===== verification/OutboxStore.v ===== *)
(** * The store of the message outbox: data, contract, reference behaviour

    packages/core/src/messenger-types.ts: entries of the durable retry queue of
    the messenger and the interface [BoundedProtocolOutboxStore].  The interface
    is a class of operations ([OutboxStore]); [OutboxStoreLaws] states its
    contract over the finite map of queued entries ([ov_rows]).  The in-memory
    store (OutboxMemory.v) and the SQLite store (OutboxSqlite.v) satisfy it, and
    the messenger (Messenger.v) is proved against it. *)

From stdpp Require Import list_numbers.
From S2P Require Import Prelude Bytes CodePoints.

Open Scope Z_scope.

(** ** Data *)

(** [(peer, protocol, messageId)] *)
Definition messageKey : Type := jsstr * jsstr * jsstr.

Record ProtocolOutboxEntry : Type := {
  oe_peer : jsstr;
  oe_protocol : jsstr;
  oe_messageId : jsstr;
  oe_payload : bytes;
  oe_attempts : Z;
  oe_firstFailureAt : Z;
  oe_lastAttemptAt : Z;
  oe_nextAttemptAt : Z;
  oe_lastError : string }.

Definition entryKey (e : ProtocolOutboxEntry) : messageKey := (oe_peer e, oe_protocol e, oe_messageId e).

(** [payload.byteLength] *)
Definition byteLength (payload : bytes) : Z := Z.of_nat (length payload).
Definition entryBytes (e : ProtocolOutboxEntry) : Z := byteLength (oe_payload e).

Record ProtocolOutboxMetadata : Type := {
  om_key : messageKey;
  om_attempts : Z;
  om_firstFailureAt : Z;
  om_lastAttemptAt : Z;
  om_nextAttemptAt : Z;
  om_lastError : string;
  om_payloadBytes : Z }.

Definition entryMetadata (e : ProtocolOutboxEntry) : ProtocolOutboxMetadata :=
  {| om_key := entryKey e; om_attempts := oe_attempts e;
     om_firstFailureAt := oe_firstFailureAt e; om_lastAttemptAt := oe_lastAttemptAt e;
     om_nextAttemptAt := oe_nextAttemptAt e; om_lastError := oe_lastError e;
     om_payloadBytes := entryBytes e |}.

Record ProtocolOutboxPageBudget : Type := { maxEntries : Z; maxPayloadBytes : Z }.

Record ProtocolOutboxPage : Type := {
  pg_entries : list ProtocolOutboxEntry;
  pg_skippedOversizedEntries : Z;
  pg_byteBudgetExhausted : bool }.

Record ProtocolOutboxQueueStats : Type := {
  qs_queuedEntries : Z;
  qs_queuedBytes : Z;
  qs_oldestDueAgeMs : Z;
  qs_oversizedDueEntries : Z }.

Record ProtocolOutboxStorePolicy : Type := {
  pol_backoffs : list Z;
  pol_maxAgeMs : Z;
  pol_backoffFor : Z -> Z }.

Definition MAX_SAFE_INTEGER : Z := 9007199254740991.

Definition isPositiveSafeInteger (x : Z) : bool := (x <=? MAX_SAFE_INTEGER) && (0 <? x).

Definition validateProtocolOutboxPageBudget (budget : ProtocolOutboxPageBudget) : result string unit :=
  throw "Outbox maxEntries must be a positive safe integer"%string when negb (isPositiveSafeInteger (maxEntries budget));
  throw "Outbox maxPayloadBytes must be a positive safe integer"%string when negb (isPositiveSafeInteger (maxPayloadBytes budget));
  Ok tt.

(** ** The order of due entries *)

Definition compareDueEntries (a b : ProtocolOutboxEntry) : Z :=
  orElse (oe_nextAttemptAt a - oe_nextAttemptAt b)
  (orElse (oe_firstFailureAt a - oe_firstFailureAt b)
  (orElse (compareCodePoint (oe_peer a) (oe_peer b))
  (orElse (compareCodePoint (oe_protocol a) (oe_protocol b))
          (compareCodePoint (oe_messageId a) (oe_messageId b))))).

#[export] Instance compareDueEntries_comparator : Comparator compareDueEntries.
Proof.
  apply (comparator_orElse _ _ (comparator_difference _)).
  apply (comparator_orElse _ _ (comparator_difference _)).
  apply comparator_orElse; [apply comparator_on, _|].
  apply comparator_orElse; apply comparator_on, _.
Qed.

Lemma compareDueEntries_key a b : compareDueEntries a b = 0 -> entryKey a = entryKey b.
Proof.
  unfold compareDueEntries, entryKey. rewrite !orElse_zero, !compareCodePoint_eq.
  intros (_ & _ & E1 & E2 & E3). by rewrite E1, E2, E3.
Qed.

(** ** Reference behaviour *)

Notation Rows := (gmap messageKey ProtocolOutboxEntry).

Definition rowValues (rows : Rows) : list ProtocolOutboxEntry := (map_to_list rows).*2.

(** Every row is stored under its own key. *)
Definition rowsOk (rows : Rows) : Prop := map_Forall (fun k e => entryKey e = k) rows.

(** The state of an entry after one more failed attempt. *)
Definition advanced (backoff : Z -> Z) (error : string) (now : Z) (e : ProtocolOutboxEntry) : ProtocolOutboxEntry :=
  {| oe_peer := oe_peer e; oe_protocol := oe_protocol e; oe_messageId := oe_messageId e;
     oe_payload := oe_payload e; oe_attempts := oe_attempts e + 1;
     oe_firstFailureAt := oe_firstFailureAt e; oe_lastAttemptAt := now;
     oe_nextAttemptAt := now + backoff (oe_attempts e + 1); oe_lastError := error |}.

Definition firstFailure (backoff : Z -> Z) (k : messageKey) (payload : bytes) (error : string) (now : Z) : ProtocolOutboxEntry :=
  {| oe_peer := k.1.1; oe_protocol := k.1.2; oe_messageId := k.2; oe_payload := payload;
     oe_attempts := 1; oe_firstFailureAt := now; oe_lastAttemptAt := now;
     oe_nextAttemptAt := now + backoff 1; oe_lastError := error |}.

Definition enqueued (backoff : Z -> Z) (rows : Rows) (k : messageKey) (payload : bytes) (error : string) (now : Z) : ProtocolOutboxEntry :=
  match rows !! k with
  | Some e => advanced backoff error now e
  | None => firstFailure backoff k payload error now
  end.

Definition isDue (now : Z) (e : ProtocolOutboxEntry) : bool := oe_nextAttemptAt e <=? now.
Definition isExpired (maxAgeMs now : Z) (e : ProtocolOutboxEntry) : bool := maxAgeMs <? now - oe_firstFailureAt e.
Definition isOversized (limit : Z) (e : ProtocolOutboxEntry) : bool := limit <? entryBytes e.

Definition payloadSum (es : list ProtocolOutboxEntry) : Z := foldr (fun e n => entryBytes e + n) 0 es.
Definition countOf {A} (p : A -> bool) (l : list A) : Z := Z.of_nat (length (List.filter p l)).

(** Due rows that fit the byte budget on their own, in retry order. *)
Definition eligible (rows : Rows) (now limit : Z) : list ProtocolOutboxEntry :=
  js_sort compareDueEntries
    (List.filter (fun e => isDue now e && negb (isOversized limit e)) (rowValues rows)).

(** All due rows, in retry order. *)
Definition dueRows (rows : Rows) (now : Z) : list ProtocolOutboxEntry :=
  js_sort compareDueEntries (List.filter (isDue now) (rowValues rows)).

(** The page of a read: the longest prefix of the eligible rows that fits both
    budgets, the number of oversized due rows, and whether the byte budget is
    what ended it. *)
Definition DuePage (rows : Rows) (now : Z) (budget : ProtocolOutboxPageBudget) (page : ProtocolOutboxPage) : Prop :=
  exists rest,
    eligible rows now (maxPayloadBytes budget) = pg_entries page ++ rest /\
    Z.of_nat (length (pg_entries page)) <= maxEntries budget /\
    payloadSum (pg_entries page) <= maxPayloadBytes budget /\
    match rest with
    | [] => pg_byteBudgetExhausted page = false
    | e :: _ =>
        if Z.of_nat (length (pg_entries page)) <? maxEntries budget
        then pg_byteBudgetExhausted page = true /\ maxPayloadBytes budget < payloadSum (pg_entries page) + entryBytes e
        else pg_byteBudgetExhausted page = false
    end /\
    pg_skippedOversizedEntries page
      = countOf (fun e => isDue now e && isOversized (maxPayloadBytes budget) e) (rowValues rows).

Definition statsOf (rows : Rows) (now limit : Z) : ProtocolOutboxQueueStats :=
  {| qs_queuedEntries := Z.of_nat (size rows);
     qs_queuedBytes := payloadSum (rowValues rows);
     qs_oldestDueAgeMs :=
       foldr Z.max 0 ((fun e => now - oe_nextAttemptAt e) <$> List.filter (isDue now) (rowValues rows));
     qs_oversizedDueEntries := countOf (fun e => isDue now e && isOversized limit e) (rowValues rows) |}.

Definition pendingPeer (peer : jsstr) (e : ProtocolOutboxEntry) : bool := bool_decide (oe_peer e = peer).

(** ** The interface *)

Class OutboxStore (S : Type) : Type := {
  st_configurePolicy : S -> ProtocolOutboxStorePolicy -> result string S;
  st_enqueue : S -> messageKey -> bytes -> string -> Z -> ProtocolOutboxEntry * S;
  st_markDelivered : S -> messageKey -> bool * S;
  st_hasEntry : S -> messageKey -> bool;
  st_hasPendingFor : S -> jsstr -> bool;
  st_size : S -> Z;
  st_readDuePage : S -> Z -> ProtocolOutboxPageBudget -> result string ProtocolOutboxPage;
  st_listMetadata : S -> option jsstr -> list ProtocolOutboxMetadata;
  st_dropExpiredMetadata : S -> Z -> list ProtocolOutboxMetadata * S;
  st_recordRetryFailure : S -> messageKey -> string -> Z -> option ProtocolOutboxMetadata * S;
  st_queueStats : S -> Z -> Z -> ProtocolOutboxQueueStats }.

(** What a client can rely on: the rows, the delays and the maximal age. *)
Record OutboxView : Type := {
  ov_rows : Rows;
  ov_backoff : Z -> Z;
  ov_maxAgeMs : Z }.

Definition withRows (v : OutboxView) (rows : Rows) : OutboxView :=
  {| ov_rows := rows; ov_backoff := ov_backoff v; ov_maxAgeMs := ov_maxAgeMs v |}.

(** Identifiers are well-formed strings; peers and protocols, which a key joins
    with NUL, do not contain it. *)
Definition nulFree (s : jsstr) : bool := forallb (fun u => negb (unitZ u =? 0)) s.

Definition wfKey (k : messageKey) : bool :=
  nulFree k.1.1 && nulFree k.1.2 && isWellFormed k.1.1 && isWellFormed k.1.2 && isWellFormed k.2.

(** [backoffs[min(max(attempts - 1, 0), backoffs.length - 1)]] *)
Definition ladder (backoffs : list Z) (attempts : Z) : Z :=
  default 0 (js_at backoffs (Z.min (Z.max (attempts - 1) 0) (js_length backoffs - 1))).

Class OutboxStoreLaws (S : Type) `{!OutboxStore S} : Type := {
  st_ok : S -> Prop;
  st_view : S -> OutboxView;
  st_rows s := ov_rows (st_view s);
  law_rows s : st_ok s -> rowsOk (st_rows s) /\ map_Forall (fun k _ => wfKey k = true) (st_rows s);
  law_configurePolicy s p :
    st_ok s -> pol_backoffs p <> [] -> (forall n, pol_backoffFor p n = ladder (pol_backoffs p) n) ->
    exists s', st_configurePolicy s p = Ok s' /\ st_ok s' /\ st_rows s' = st_rows s /\
      ov_maxAgeMs (st_view s') = pol_maxAgeMs p /\
      forall n, ov_backoff (st_view s') n = ladder (pol_backoffs p) n;
  law_enqueue s k payload error now :
    st_ok s -> wfKey k = true ->
    let '(e, s') := st_enqueue s k payload error now in
    st_ok s' /\ e = enqueued (ov_backoff (st_view s)) (st_rows s) k payload error now /\
    st_view s' = withRows (st_view s) (<[k := e]> (st_rows s));
  law_markDelivered s k :
    st_ok s -> wfKey k = true ->
    let '(removed, s') := st_markDelivered s k in
    st_ok s' /\ removed = bool_decide (is_Some (st_rows s !! k)) /\
    st_view s' = withRows (st_view s) (delete k (st_rows s));
  law_hasEntry s k : st_ok s -> wfKey k = true -> st_hasEntry s k = bool_decide (is_Some (st_rows s !! k));
  law_hasPendingFor s peer : st_ok s -> st_hasPendingFor s peer = existsb (pendingPeer peer) (rowValues (st_rows s));
  law_size s : st_ok s -> st_size s = Z.of_nat (size (st_rows s));
  law_readDuePage s now budget :
    st_ok s ->
    match st_readDuePage s now budget with
    | Ok page => validateProtocolOutboxPageBudget budget = Ok tt /\ DuePage (st_rows s) now budget page
    | Err e => validateProtocolOutboxPageBudget budget = Err e
    end;
  law_listMetadata s peer :
    st_ok s ->
    st_listMetadata s peer ≡ₚ
      entryMetadata <$> List.filter (fun e => match peer with None => true | Some p => pendingPeer p e end)
                                    (rowValues (st_rows s));
  law_dropExpired s now :
    st_ok s ->
    let '(dropped, s') := st_dropExpiredMetadata s now in
    let expired := isExpired (ov_maxAgeMs (st_view s)) now in
    st_ok s' /\ dropped ≡ₚ entryMetadata <$> List.filter expired (rowValues (st_rows s)) /\
    st_view s' = withRows (st_view s) (filter (fun ke => expired ke.2 = false) (st_rows s));
  law_recordRetryFailure s k error now :
    st_ok s -> wfKey k = true ->
    let '(m, s') := st_recordRetryFailure s k error now in
    st_ok s' /\ m = entryMetadata <$> st_rows s' !! k /\
    st_view s' = withRows (st_view s) (alter (advanced (ov_backoff (st_view s)) error now) k (st_rows s));
  law_queueStats s now limit : st_ok s -> st_queueStats s now limit = statsOf (st_rows s) now limit }.

(** ** Facts about rows and pages *)

Section Rows.
Context (rows : Rows) (Hrows : rowsOk rows).

Lemma elem_of_rowValues e : e ∈ rowValues rows <-> rows !! entryKey e = Some e.
Proof.
  unfold rowValues. rewrite list_elem_of_fmap. split.
  - intros ([k e'] & -> & Hin%elem_of_map_to_list). simpl. by rewrite (Hrows k e' Hin).
  - intros He. exists (entryKey e, e). by rewrite elem_of_map_to_list.
Qed.

Lemma rowValues_key e1 e2 : e1 ∈ rowValues rows -> e2 ∈ rowValues rows -> entryKey e1 = entryKey e2 -> e1 = e2.
Proof. rewrite !elem_of_rowValues. congruence. Qed.

(** Sorting selected rows gives the same list in any order of arrival. *)
Lemma sorted_of_perm (p : ProtocolOutboxEntry -> bool) l :
  l ≡ₚ rowValues rows ->
  js_sort compareDueEntries (List.filter p l) = js_sort compareDueEntries (List.filter p (rowValues rows)).
Proof.
  intros Hp. apply js_sort_unique; [apply _| |by rewrite Hp].
  intros x y Hx Hy Hxy. apply compareDueEntries_key in Hxy. rewrite elem_of_js_filter, Hp in Hx, Hy.
  by apply rowValues_key; [apply Hx|apply Hy|].
Qed.

Lemma eligible_of_perm now limit l :
  l ≡ₚ rowValues rows ->
  js_sort compareDueEntries (List.filter (fun e => isDue now e && negb (isOversized limit e)) l)
    = eligible rows now limit.
Proof. apply sorted_of_perm. Qed.

Lemma dueRows_of_perm now l : l ≡ₚ rowValues rows -> js_sort compareDueEntries (List.filter (isDue now) l) = dueRows rows now.
Proof. apply sorted_of_perm. Qed.
End Rows.

Lemma payloadSum_app l1 l2 : payloadSum (l1 ++ l2) = payloadSum l1 + payloadSum l2.
Proof. induction l1 as [|e l1 IH]; simpl; [done|]. unfold payloadSum in *. simpl. lia. Qed.

Lemma entryBytes_nonneg e : 0 <= entryBytes e.
Proof. unfold entryBytes, byteLength. lia. Qed.

#[export] Instance payloadSum_perm : Proper (Permutation ==> eq) payloadSum.
Proof. intros l1 l2. induction 1; unfold payloadSum in *; simpl in *; lia. Qed.

#[export] Instance countOf_perm {A} (p : A -> bool) : Proper (Permutation ==> eq) (countOf p).
Proof. intros l1 l2 Hp. unfold countOf. by rewrite Hp. Qed.

#[export] Instance foldr_max_perm : Proper (Permutation ==> eq) (foldr Z.max 0).
Proof. intros l1 l2. induction 1; simpl; lia. Qed.

Lemma foldr_max_nonneg l : 0 <= foldr Z.max 0 l.
Proof. induction l; simpl; lia. Qed.

Lemma payloadSum_nonneg l : 0 <= payloadSum l.
Proof. induction l as [|e l IH]; unfold payloadSum in *; simpl; [done|]. pose proof (entryBytes_nonneg e). lia. Qed.

(** The page is the longest prefix of the eligible rows that fits. *)
Lemma DuePage_longest rows now budget page l rest :
  DuePage rows now budget page -> eligible rows now (maxPayloadBytes budget) = l ++ rest ->
  Z.of_nat (length l) <= maxEntries budget -> payloadSum l <= maxPayloadBytes budget ->
  (length l <= length (pg_entries page))%nat.
Proof.
  intros (r & E & Hn & Hb & Hx & _) E' Hn' Hb'. rewrite E in E'.
  destruct (Nat.le_gt_cases (length l) (length (pg_entries page))) as [?|Hl]; [done|].
  apply app_eq_inv in E' as [(k & E' & ->)|(k & -> & ->)]; [rewrite E', length_app in Hl; lia|].
  destruct k as [|e k]; [rewrite app_nil_r in Hl; lia|]. simpl in Hx.
  rewrite length_app in Hn'. simpl in Hn'. rewrite payloadSum_app in Hb'. unfold payloadSum at 2 in Hb'. simpl in Hb'.
  pose proof (payloadSum_nonneg k). unfold payloadSum in H at 1.
  destruct (Z.ltb_spec (Z.of_nat (length (pg_entries page))) (maxEntries budget)); lia.
Qed.

(** The contract of a read leaves no choice. *)
Lemma DuePage_unique rows now budget p1 p2 :
  DuePage rows now budget p1 -> DuePage rows now budget p2 -> p1 = p2.
Proof.
  intros H1 H2. pose proof H1 as (r1 & E1 & Hn1 & Hb1 & Hx1 & Hs1). pose proof H2 as (r2 & E2 & Hn2 & Hb2 & Hx2 & Hs2).
  pose proof (DuePage_longest _ _ _ _ _ _ H1 E2 Hn2 Hb2). pose proof (DuePage_longest _ _ _ _ _ _ H2 E1 Hn1 Hb1).
  rewrite E1 in E2. apply app_inj_1 in E2 as [El <-]; [|lia].
  destruct p1 as [l1 s1 x1], p2 as [l2 s2 x2]. simpl in *. subst l2 s1 s2. f_equal.
  destruct r1; [congruence|]. case_match; [destruct Hx1, Hx2|]; congruence.
Qed.

(** An eligible row is never starved by the budgets: the page starts with the
    first eligible row. *)
Lemma DuePage_progress rows now budget page e rest :
  DuePage rows now budget page -> validateProtocolOutboxPageBudget budget = Ok tt ->
  eligible rows now (maxPayloadBytes budget) = e :: rest -> head (pg_entries page) = Some e.
Proof.
  intros Hp Hv E. pose proof Hp as (r & E' & _).
  unfold validateProtocolOutboxPageBudget, isPositiveSafeInteger in Hv. ok_inv.
  assert (e ∈ eligible rows now (maxPayloadBytes budget)) as Hin by (rewrite E; left).
  unfold eligible in Hin. rewrite js_sort_perm, elem_of_js_filter in Hin. destruct Hin as [_ Hin].
  apply andb_true_iff in Hin as [_ Hin]. unfold isOversized in Hin.
  pose proof (DuePage_longest _ _ _ _ [e] rest Hp E) as Hl. unfold payloadSum in Hl. simpl in Hl.
  rewrite E in E'. destruct (pg_entries page) as [|e' es]; simpl in *; [|by injection E' as ->].
  assert (1 <= 0)%nat; [apply Hl; lia|lia].
Qed.
