(* ===== verification/OutboxMemory.v ===== *)
(** * The in-memory outbox store and the attempt guard

    packages/core/src/protocol-outbox.ts: [InMemoryProtocolOutboxStore], the
    executable specification of the store contract, and the class
    [ProtocolOutboxAttempts] (with its facades) that adds the in-flight guard and
    the retry policy to a store.  The store satisfies [OutboxStoreLaws]. *)

From Stdlib Require Import Strings.Byte.
From S2P Require Import Prelude Bytes CodePoints JsMap OutboxStore.

Open Scope Z_scope.

(** ** Policy *)

Definition DEFAULT_PROTOCOL_OUTBOX_BACKOFFS_MS : list Z :=
  [5000; 15000; 30000; 60000; 5 * 60000; 30 * 60000; 2 * 60 * 60000].

Definition DEFAULT_PROTOCOL_OUTBOX_MAX_AGE_MS : Z := 24 * 60 * 60 * 1000.

Record ProtocolOutboxOptions : Type := {
  opt_backoffs : option (list Z);
  opt_maxAgeMs : option Z }.

(** [`${peer}\x00${protocol}\x00${messageId}`] *)
Definition nulUnit : codeUnit := (x00, x00).

Definition inflightKey (k : messageKey) : jsstr := k.1.1 ++ nulUnit :: k.1.2 ++ nulUnit :: k.2.

(** ** [InMemoryProtocolOutboxStore] *)

Module InMemory.

Record store : Type := {
  entries : jsMap jsstr ProtocolOutboxEntry;
  backoffs : list Z;
  maxAgeMs : Z }.

Definition with_entries (s : store) (m : jsMap jsstr ProtocolOutboxEntry) : store :=
  {| entries := m; backoffs := backoffs s; maxAgeMs := maxAgeMs s |}.

Definition key : messageKey -> jsstr := inflightKey.

Definition backoffFor (s : store) (attempts : Z) : Z :=
  let idx := Z.min (Z.max (attempts - 1) 0) (js_length (backoffs s) - 1) in
  default 0 (js_at (backoffs s) idx).

Definition configurePolicy (s : store) (options : ProtocolOutboxOptions) : result string store :=
  let newBackoffs := default (backoffs s) (opt_backoffs options) in
  throw "ProtocolOutbox: backoffs must be non-empty"%string when (js_length newBackoffs =? 0);
  Ok {| entries := entries s; backoffs := newBackoffs; maxAgeMs := default (maxAgeMs s) (opt_maxAgeMs options) |}.

Definition new (options : ProtocolOutboxOptions) : result string store :=
  configurePolicy {| entries := []; backoffs := DEFAULT_PROTOCOL_OUTBOX_BACKOFFS_MS;
                     maxAgeMs := DEFAULT_PROTOCOL_OUTBOX_MAX_AGE_MS |} options.

Definition advanceRetry (s : store) (entry : ProtocolOutboxEntry) (error : string) (now : Z) : ProtocolOutboxEntry :=
  let attempts := oe_attempts entry + 1 in
  {| oe_peer := oe_peer entry; oe_protocol := oe_protocol entry; oe_messageId := oe_messageId entry;
     oe_payload := oe_payload entry; oe_attempts := attempts;
     oe_firstFailureAt := oe_firstFailureAt entry; oe_lastAttemptAt := now;
     oe_nextAttemptAt := now + backoffFor s attempts; oe_lastError := error |}.

Definition enqueue (s : store) (k : messageKey) (payload : bytes) (error : string) (now : Z) : ProtocolOutboxEntry * store :=
  match mapGet (key k) (entries s) with
  | Some existing =>
      let e := advanceRetry s existing error now in
      (e, with_entries s (mapSet (key k) e (entries s)))
  | None =>
      let entry :=
        {| oe_peer := k.1.1; oe_protocol := k.1.2; oe_messageId := k.2; oe_payload := payload;
           oe_attempts := 1; oe_firstFailureAt := now; oe_lastAttemptAt := now;
           oe_nextAttemptAt := now + backoffFor s 1; oe_lastError := error |} in
      (entry, with_entries s (mapSet (key k) entry (entries s)))
  end.

Definition markDelivered (s : store) (k : messageKey) : bool * store :=
  (mapHas (key k) (entries s), with_entries s (mapDelete (key k) (entries s))).

Definition hasEntry (s : store) (k : messageKey) : bool := mapHas (key k) (entries s).

Definition hasPendingFor (s : store) (peer : jsstr) : bool :=
  existsb (fun entry => bool_decide (oe_peer entry = peer)) (mapValues (entries s)).

Definition pendingFor (s : store) (peer : jsstr) : list ProtocolOutboxEntry :=
  js_sort (fun a b => oe_firstFailureAt a - oe_firstFailureAt b)
    (List.filter (fun entry => bool_decide (oe_peer entry = peer)) (mapValues (entries s))).

Definition dueEntries (s : store) (now : Z) : list ProtocolOutboxEntry :=
  js_sort compareDueEntries (List.filter (fun entry => oe_nextAttemptAt entry <=? now) (mapValues (entries s))).

Definition due (s : store) (now : Z) : list ProtocolOutboxEntry := dueEntries s now.

Definition normalizeDuePageLimit (limit : Z) : result string Z :=
  throw "Outbox duePage limit must be finite and non-negative"%string when ((limit <? 0) || (MAX_SAFE_INTEGER <? limit));
  Ok limit.

Definition duePage (s : store) (now limit : Z) : result string (list ProtocolOutboxEntry) :=
  let* l := normalizeDuePageLimit limit in
  Ok (take (Z.to_nat l) (dueEntries s now)).

(** The loop of [readDuePage] over the candidates: admitted entries, and
    whether the byte budget ended it. *)
Fixpoint admitCandidates (budget : ProtocolOutboxPageBudget) (taken : list ProtocolOutboxEntry) (payloadBytes : Z)
    (candidates : list ProtocolOutboxEntry) : list ProtocolOutboxEntry * bool :=
  match candidates with
  | [] => (taken, false)
  | entry :: rest =>
      if js_length taken =? maxEntries budget then (taken, false)
      else if maxPayloadBytes budget <? payloadBytes + entryBytes entry then (taken, true)
      else admitCandidates budget (taken ++ [entry]) (payloadBytes + entryBytes entry) rest
  end.

Definition readDuePage (s : store) (now : Z) (budget : ProtocolOutboxPageBudget) : result string ProtocolOutboxPage :=
  let* _ := validateProtocolOutboxPageBudget budget in
  let dueNow := dueEntries s now in
  let fits entry := entryBytes entry <=? maxPayloadBytes budget in
  let skippedOversizedEntries := js_length (List.filter (fun e => negb (fits e)) dueNow) in
  let '(admitted, byteBudgetExhausted) := admitCandidates budget [] 0 (List.filter fits dueNow) in
  Ok {| pg_entries := admitted; pg_skippedOversizedEntries := skippedOversizedEntries;
        pg_byteBudgetExhausted := byteBudgetExhausted |}.

Definition listMetadata (s : store) (peer : option jsstr) : list ProtocolOutboxMetadata :=
  entryMetadata <$>
    List.filter (fun entry => match peer with None => true | Some p => bool_decide (oe_peer entry = p) end)
                (mapValues (entries s)).

Definition removeExpired {T} (s : store) (now : Z) (project : ProtocolOutboxEntry -> T) : list T * store :=
  let expired entry := maxAgeMs s <? now - oe_firstFailureAt entry in
  (project <$> List.filter expired (mapValues (entries s)),
   with_entries s (deleteWhere expired (entries s))).

Definition dropExpiredMetadata (s : store) (now : Z) := removeExpired s now entryMetadata.
Definition dropExpired (s : store) (now : Z) := removeExpired s now (fun e => e).

Definition recordRetryFailure (s : store) (k : messageKey) (error : string) (now : Z) : option ProtocolOutboxMetadata * store :=
  match mapGet (key k) (entries s) with
  | None => (None, s)
  | Some entry =>
      let e := advanceRetry s entry error now in
      (Some (entryMetadata e), with_entries s (mapSet (key k) e (entries s)))
  end.

(** One round of the loop of [queueStats] on
    (queuedBytes, oldestDueAgeMs, oversizedDueEntries). *)
Definition statsStep (now limit : Z) (acc : Z * Z * Z) (entry : ProtocolOutboxEntry) : Z * Z * Z :=
  let '(queuedBytes, oldestDueAgeMs, oversizedDueEntries) := acc in
  let queuedBytes := queuedBytes + entryBytes entry in
  if oe_nextAttemptAt entry <=? now then
    (queuedBytes, Z.max oldestDueAgeMs (now - oe_nextAttemptAt entry),
     if limit <? entryBytes entry then oversizedDueEntries + 1 else oversizedDueEntries)
  else (queuedBytes, oldestDueAgeMs, oversizedDueEntries).

Definition queueStats (s : store) (now limit : Z) : ProtocolOutboxQueueStats :=
  let '(queuedBytes, oldestDueAgeMs, oversizedDueEntries) :=
    foldl (statsStep now limit) (0, 0, 0) (mapValues (entries s)) in
  {| qs_queuedEntries := mapSize (entries s); qs_queuedBytes := queuedBytes;
     qs_oldestDueAgeMs := oldestDueAgeMs; qs_oversizedDueEntries := oversizedDueEntries |}.

Definition size (s : store) : Z := mapSize (entries s).
Definition listEntries (s : store) : list ProtocolOutboxEntry := mapValues (entries s).
Definition getEntry (s : store) (k : messageKey) : option ProtocolOutboxEntry := mapGet (key k) (entries s).

#[export] Instance outboxStore : OutboxStore store := {|
  st_configurePolicy s p :=
    configurePolicy s {| opt_backoffs := Some (pol_backoffs p); opt_maxAgeMs := Some (pol_maxAgeMs p) |};
  st_enqueue := enqueue;
  st_markDelivered := markDelivered;
  st_hasEntry := hasEntry;
  st_hasPendingFor := hasPendingFor;
  st_size := size;
  st_readDuePage := readDuePage;
  st_listMetadata := listMetadata;
  st_dropExpiredMetadata := dropExpiredMetadata;
  st_recordRetryFailure := recordRetryFailure;
  st_queueStats := queueStats |}.

End InMemory.

(** ** The key of an entry *)

Lemma nulFree_not_nul s : nulFree s = true -> nulUnit ∉ s.
Proof.
  unfold nulFree. rewrite forallb_forall. intros H Hin%list_elem_of_In. by specialize (H _ Hin).
Qed.

(** What precedes the first NUL is determined. *)
Lemma nul_split_inj a b a' b' :
  nulUnit ∉ a -> nulUnit ∉ a' -> a ++ nulUnit :: b = a' ++ nulUnit :: b' -> a = a' /\ b = b'.
Proof.
  revert a'. induction a as [|u a IH]; intros [|u' a'] Ha Ha' E; simpl in *.
  - by injection E.
  - injection E as <- _. by apply not_elem_of_cons in Ha' as [? _].
  - injection E as -> _. by apply not_elem_of_cons in Ha as [? _].
  - injection E as -> E. apply not_elem_of_cons in Ha as [_ Ha], Ha' as [_ Ha'].
    by destruct (IH a') as [-> ->].
Qed.

Lemma inflightKey_inj k k' : wfKey k = true -> wfKey k' = true -> inflightKey k = inflightKey k' -> k = k'.
Proof.
  destruct k as [[p q] m], k' as [[p' q'] m']. unfold wfKey, inflightKey. simpl. rewrite !andb_true_iff.
  intros ((((Hp & Hq) & _) & _) & _) ((((Hp' & Hq') & _) & _) & _) E.
  apply nul_split_inj in E as [-> E]; [|by apply nulFree_not_nul..].
  by apply nul_split_inj in E as [-> ->]; [|by apply nulFree_not_nul..].
Qed.

Module InMemoryLaws.
Import InMemory.

(** Keys are unique, and each is the key of the entry it leads to. *)
Definition ok (s : store) : Prop :=
  mapOk (entries s) /\
  Forall (fun ke => ke.1 = key (entryKey ke.2) /\ wfKey (entryKey ke.2) = true) (entries s).

Definition rowsOf (m : jsMap jsstr ProtocolOutboxEntry) : Rows :=
  list_to_map ((fun ke => (entryKey ke.2, ke.2)) <$> m).

Definition view (s : store) : OutboxView :=
  {| ov_rows := rowsOf (entries s); ov_backoff := backoffFor s; ov_maxAgeMs := maxAgeMs s |}.

Lemma rowsOf_cons j e m : rowsOf ((j, e) :: m) = <[entryKey e := e]> (rowsOf m).
Proof. done. Qed.

Lemma rowsOf_lookup s k : ok s -> wfKey k = true -> rowsOf (entries s) !! k = mapGet (key k) (entries s).
Proof.
  intros [_ Hf] Hk. induction Hf as [|[j e] m [Hj Hw] _ IH]; [apply lookup_empty|].
  rewrite rowsOf_cons. simpl in *. destruct (decide (entryKey e = k)) as [<-|Hne].
  - by rewrite lookup_insert_eq, decide_True.
  - rewrite lookup_insert_ne, IH by done. rewrite decide_False; [done|].
    intros E. rewrite Hj in E. by apply inflightKey_inj in E.
Qed.

Lemma rowsOf_None s k : ok s -> wfKey k = false -> rowsOf (entries s) !! k = None.
Proof.
  intros [_ Hf] Hk. induction Hf as [|[j e] m [Hj Hw] _ IH]; [apply lookup_empty|].
  rewrite rowsOf_cons, lookup_insert_ne; [done|]. intros <-. simpl in Hw. congruence.
Qed.

Lemma rowsOf_rowsOk m : rowsOk (rowsOf m).
Proof.
  unfold rowsOk. induction m as [|[j e] m IH]; [apply map_Forall_empty|].
  rewrite rowsOf_cons. by apply map_Forall_insert_2.
Qed.

Lemma ok_mapSet s e :
  ok s -> wfKey (entryKey e) = true -> ok (with_entries s (mapSet (key (entryKey e)) e (entries s))).
Proof.
  intros [Hm Hf] He. split; simpl; [auto with dkg|]. rewrite Forall_forall in Hf |- *.
  intros kv [->|[_ Hin]]%elem_of_mapSet; [done| |done]. by apply Hf.
Qed.

Lemma ok_filter s (P : jsstr * ProtocolOutboxEntry -> Prop) `{!forall x, Decision (P x)} :
  ok s -> ok (with_entries s (filter P (entries s))).
Proof.
  intros [Hm Hf]. split; simpl; [by apply mapOk_filter|]. rewrite Forall_forall in Hf |- *.
  intros kv [_ Hin]%list_elem_of_filter. by apply Hf.
Qed.

Lemma view_mapSet s e :
  ok s -> wfKey (entryKey e) = true ->
  view (with_entries s (mapSet (key (entryKey e)) e (entries s)))
    = withRows (view s) (<[entryKey e := e]> (rowsOf (entries s))).
Proof.
  intros Hs He. unfold view, withRows. simpl. f_equal. apply map_eq. intros k.
  pose proof (ok_mapSet s e Hs He) as Hs'.
  pose proof (rowsOf_lookup _ k Hs') as Hl. pose proof (rowsOf_None _ k Hs') as Hn. simpl in *.
  destruct (wfKey k) eqn:Hk.
  - rewrite Hl by done. destruct (decide (entryKey e = k)) as [<-|Hne].
    + by rewrite mapGet_mapSet, lookup_insert_eq.
    + rewrite mapGet_mapSet_ne, lookup_insert_ne by (try done; by intros E%inflightKey_inj).
      by rewrite rowsOf_lookup.
  - rewrite Hn, lookup_insert_ne by (try done; congruence). by rewrite rowsOf_None.
Qed.

Lemma view_mapDelete s k :
  ok s -> wfKey k = true ->
  view (with_entries s (mapDelete (key k) (entries s))) = withRows (view s) (delete k (rowsOf (entries s))).
Proof.
  intros Hs Hk0. unfold view, withRows. simpl. f_equal. apply map_eq. intros k'.
  pose proof (ok_filter s (fun kv => kv.1 ≠ key k) Hs) as Hs'.
  pose proof (rowsOf_lookup _ k' Hs') as Hl. pose proof (rowsOf_None _ k' Hs') as Hn. simpl in *.
  change (filter _ (entries s)) with (mapDelete (key k) (entries s)) in *.
  destruct (wfKey k') eqn:Hk.
  - rewrite Hl by done. destruct (decide (k = k')) as [<-|Hne].
    + by rewrite mapGet_mapDelete, lookup_delete_eq.
    + rewrite mapGet_mapDelete_ne, lookup_delete_ne by (try done; by intros E%inflightKey_inj).
      by rewrite rowsOf_lookup.
  - rewrite Hn, lookup_delete_ne by (try done; congruence). by rewrite rowsOf_None.
Qed.

(** The values of the map are the rows. *)
Lemma values_perm s : ok s -> mapValues (entries s) ≡ₚ rowValues (rowsOf (entries s)).
Proof.
  intros [Hm Hf]. unfold rowValues, rowsOf, mapValues. rewrite map_to_list_to_map.
  - by rewrite <- list_fmap_compose.
  - rewrite <- list_fmap_compose. unfold mapOk, mapKeys in Hm. clear -Hm Hf.
    induction Hf as [|[j e] m [Hj Hw] Hf IH]; simpl in *; [constructor|].
    apply NoDup_cons in Hm as [Hn Hm]. constructor; [|by apply IH].
    intros ([j' e'] & E & Hin)%list_elem_of_fmap. simpl in E. apply Hn. apply list_elem_of_fmap.
    exists (j', e'). split; [|done]. rewrite Forall_forall in Hf. destruct (Hf _ Hin) as [E' _]. simpl in *. congruence.
Qed.

Lemma size_rows s : ok s -> mapSize (entries s) = Z.of_nat (base.size (rowsOf (entries s))).
Proof.
  intros Hs. pose proof (Permutation_length (values_perm s Hs)) as Hl.
  unfold mapValues, rowValues in Hl. rewrite !length_fmap, length_map_to_list in Hl. unfold mapSize. lia.
Qed.

Lemma advanceRetry_advanced s e error now : advanceRetry s e error now = advanced (backoffFor s) error now e.
Proof. done. Qed.

Lemma lookup_wf s k e : ok s -> wfKey k = true -> mapGet (key k) (entries s) = Some e -> entryKey e = k.
Proof. intros Hs Hk He. rewrite <- rowsOf_lookup in He by done. by apply (rowsOf_rowsOk (entries s)). Qed.

(** ** Pages *)

Lemma admitCandidates_spec budget taken l :
  js_length taken <= maxEntries budget -> payloadSum taken <= maxPayloadBytes budget ->
  exists more rest, l = more ++ rest /\
    (admitCandidates budget taken (payloadSum taken) l).1 = taken ++ more /\
    js_length (taken ++ more) <= maxEntries budget /\ payloadSum (taken ++ more) <= maxPayloadBytes budget /\
    match rest with
    | [] => (admitCandidates budget taken (payloadSum taken) l).2 = false
    | e :: _ =>
        if js_length (taken ++ more) <? maxEntries budget
        then (admitCandidates budget taken (payloadSum taken) l).2 = true /\
             maxPayloadBytes budget < payloadSum (taken ++ more) + entryBytes e
        else (admitCandidates budget taken (payloadSum taken) l).2 = false
    end.
Proof.
  revert taken. induction l as [|e l IH]; intros taken Hn Hb; simpl.
  { exists [], []. rewrite !app_nil_r. split_and!; done. }
  destruct (Z.eqb_spec (js_length taken) (maxEntries budget)) as [En|En].
  { exists [], (e :: l). rewrite !app_nil_r. split_and!; [done..|]. simpl. by rewrite (proj2 (Z.ltb_ge _ _)) by lia. }
  destruct (Z.ltb_spec (maxPayloadBytes budget) (payloadSum taken + entryBytes e)) as [Eb|Eb].
  { exists [], (e :: l). rewrite !app_nil_r. split_and!; [done..|]. simpl. by rewrite (proj2 (Z.ltb_lt _ _)) by lia. }
  assert (payloadSum (taken ++ [e]) = payloadSum taken + entryBytes e) as Es
    by (rewrite payloadSum_app; unfold payloadSum at 2; simpl; lia).
  destruct (IH (taken ++ [e])) as (more & rest & -> & H).
  - unfold js_length in *. rewrite length_app. simpl. lia.
  - lia.
  - exists (e :: more), rest. rewrite Es, <- (assoc_L (++)) in H. by split.
Qed.

Lemma due_law s now : ok s -> due s now = dueRows (rowsOf (entries s)) now.
Proof. intros Hs. by apply dueRows_of_perm; [apply rowsOf_rowsOk|apply values_perm]. Qed.

Lemma duePage_law s now limit :
  ok s -> 0 <= limit <= MAX_SAFE_INTEGER -> duePage s now limit = Ok (take (Z.to_nat limit) (dueRows (rowsOf (entries s)) now)).
Proof.
  intros Hs Hl. unfold duePage, normalizeDuePageLimit. rewrite !(proj2 (Z.ltb_ge _ _)) by lia. simpl. do 2 f_equal. by apply due_law.
Qed.

Lemma readDuePage_law s now budget :
  ok s ->
  match readDuePage s now budget with
  | Ok page => validateProtocolOutboxPageBudget budget = Ok tt /\ DuePage (rowsOf (entries s)) now budget page
  | Err e => validateProtocolOutboxPageBudget budget = Err e
  end.
Proof.
  intros Hs. unfold readDuePage. destruct (validateProtocolOutboxPageBudget budget) as [[]|e] eqn:Ev; simpl; [|done].
  set (fits := fun e => entryBytes e <=? maxPayloadBytes budget).
  assert (List.filter fits (dueEntries s now) = eligible (rowsOf (entries s)) now (maxPayloadBytes budget)) as Hel.
  { unfold dueEntries. rewrite js_sort_filter, js_filter_filter by apply _.
    rewrite <- (eligible_of_perm _ (rowsOf_rowsOk _) _ _ _ (values_perm s Hs)). f_equal.
    apply filter_ext. intros e. unfold isDue, isOversized, fits. by rewrite (Z.leb_antisym _ (entryBytes e)). }
  assert (js_length (List.filter (fun e => negb (fits e)) (dueEntries s now))
          = countOf (fun e => isDue now e && isOversized (maxPayloadBytes budget) e) (rowValues (rowsOf (entries s)))) as Hsk.
  { unfold dueEntries. rewrite js_sort_filter, js_filter_filter by apply _. rewrite <- (values_perm s Hs).
    unfold js_length, countOf. rewrite js_sort_length. do 2 f_equal. apply filter_ext. intros e.
    unfold isDue, isOversized, fits. by rewrite (Z.leb_antisym _ (entryBytes e)), negb_involutive. }
  unfold validateProtocolOutboxPageBudget, isPositiveSafeInteger in Ev. ok_inv.
  destruct (admitCandidates_spec budget [] (List.filter fits (dueEntries s now))) as (more & rest & El & Ha & Hn & Hb & Hx);
    [unfold js_length; simpl; lia|unfold payloadSum; simpl; lia|].
  simpl in *. change (payloadSum []) with 0 in *.
  destruct (admitCandidates budget [] 0 _) as [admitted x]. simpl in *. subst admitted.
  split; [done|]. exists rest. simpl. rewrite <- Hel. by split_and!.
Qed.

(** ** Statistics *)

Lemma statsStep_spec now limit l b o z :
  0 <= o ->
  foldl (statsStep now limit) (b, o, z) l =
  (b + payloadSum l,
   Z.max o (foldr Z.max 0 ((fun e => now - oe_nextAttemptAt e) <$> List.filter (isDue now) l)),
   z + countOf (fun e => isDue now e && isOversized limit e) l).
Proof.
  revert b o z. induction l as [|e l IH]; intros b o z Ho; simpl.
  - unfold countOf, payloadSum. simpl. f_equal; [f_equal; lia|lia].
  - change (oe_nextAttemptAt e <=? now) with (isDue now e).
    change (limit <? entryBytes e) with (isOversized limit e).
    unfold payloadSum, countOf in *. csimpl. destruct (isDue now e); csimpl.
    + rewrite IH by lia.
      destruct (isOversized limit e); csimpl; repeat (f_equal; try lia).
    + rewrite IH by lia. f_equal. f_equal. lia.
Qed.

Lemma queueStats_law s now limit : ok s -> queueStats s now limit = statsOf (rowsOf (entries s)) now limit.
Proof.
  intros Hs. unfold queueStats, statsOf. rewrite statsStep_spec by done.
  pose proof (values_perm s Hs) as Hp. rewrite size_rows, Z.add_0_l, Z.add_0_l by done.
  f_equal; [by rewrite Hp| |by rewrite Hp].
  rewrite Z.max_r by apply foldr_max_nonneg. by rewrite Hp.
Qed.

Lemma removeExpired_view s now :
  ok s ->
  let expired := isExpired (maxAgeMs s) now in
  ok (with_entries s (deleteWhere expired (entries s))) /\
  view (with_entries s (deleteWhere expired (entries s)))
    = withRows (view s) (filter (fun ke => expired ke.2 = false) (rowsOf (entries s))).
Proof.
  intros Hs expired. pose proof (ok_filter s (fun kv => expired kv.2 = false) Hs) as Hs'.
  rewrite deleteWhere_filter by apply Hs. split; [done|]. unfold view, withRows. simpl. f_equal.
  apply map_eq. intros k. apply option_eq. intros e. rewrite map_lookup_filter_Some. simpl.
  destruct (wfKey k) eqn:Hk.
  - pose proof (rowsOf_lookup _ k Hs' Hk) as Hl. simpl in Hl. rewrite Hl, rowsOf_lookup by done.
    rewrite !mapGet_elem by apply Hs || apply Hs'. rewrite list_elem_of_filter. simpl. tauto.
  - pose proof (rowsOf_None _ k Hs' Hk) as Hl. simpl in Hl. rewrite Hl, rowsOf_None by done. naive_solver.
Qed.

#[export] Program Instance outboxStoreLaws : OutboxStoreLaws store := {|
  st_ok := ok;
  st_view := view;
  law_readDuePage := readDuePage_law;
  law_queueStats := queueStats_law |}.
Next Obligation.
  intros s Hs. split; [apply rowsOf_rowsOk|]. intros k e He. simpl in *.
  destruct (wfKey k) eqn:Hk; [done|]. by rewrite rowsOf_None in He.
Qed.
Next Obligation.
  intros s p Hs Hb Hf. simpl. unfold configurePolicy, js_length. simpl.
  destruct (pol_backoffs p) as [|x l] eqn:E; [done|]. simpl. eexists. split_and!; [done|apply Hs|done..].
Qed.
Next Obligation.
  intros s k payload error now Hs Hk. simpl. unfold enqueue, enqueued. rewrite rowsOf_lookup by done.
  destruct (mapGet (key k) (entries s)) as [e|] eqn:E.
  - pose proof (lookup_wf s k e Hs Hk E) as <-.
    pose proof (ok_mapSet s (advanceRetry s e error now) Hs Hk). pose proof (view_mapSet s (advanceRetry s e error now) Hs Hk).
    split_and!; done.
  - destruct k as [[p q] m]. split_and!; [|done|].
    + by apply (ok_mapSet s (firstFailure (backoffFor s) (p, q, m) payload error now)).
    + by apply (view_mapSet s (firstFailure (backoffFor s) (p, q, m) payload error now)).
Qed.
Next Obligation.
  intros s k Hs Hk. simpl. unfold markDelivered. split_and!.
  - by apply ok_filter.
  - rewrite rowsOf_lookup by done. unfold mapHas. by destruct (mapGet (key k) (entries s)).
  - by apply view_mapDelete.
Qed.
Next Obligation.
  intros s k Hs Hk. simpl. rewrite rowsOf_lookup by done. unfold hasEntry, mapHas.
  by destruct (mapGet (key k) (entries s)).
Qed.
Next Obligation.
  intros s peer Hs. simpl. unfold hasPendingFor. apply eq_true_iff_eq. rewrite !existsb_exists.
  setoid_rewrite <- list_elem_of_In. by setoid_rewrite (values_perm s Hs).
Qed.
Next Obligation. intros s Hs. by apply size_rows. Qed.
Next Obligation.
  intros s peer Hs. simpl. unfold listMetadata. by rewrite (values_perm s Hs).
Qed.
Next Obligation.
  intros s now Hs. simpl. destruct (removeExpired_view s now Hs) as [H1 H2].
  split_and!; [done| |done]. by rewrite (values_perm s Hs).
Qed.
Next Obligation.
  intros s k error now Hs Hk. simpl. unfold recordRetryFailure.
  destruct (mapGet (key k) (entries s)) as [e|] eqn:E.
  - pose proof (lookup_wf s k e Hs Hk E) as <-.
    pose proof (ok_mapSet s (advanceRetry s e error now) Hs Hk) as H1.
    pose proof (view_mapSet s (advanceRetry s e error now) Hs Hk) as H2. split_and!; [done| |].
    + etrans; [|exact (f_equal (fun v => entryMetadata <$> ov_rows v !! entryKey e) (eq_sym H2))].
      cbn. by rewrite lookup_insert_eq.
    + etrans; [exact H2|]. f_equal. rewrite <- rowsOf_lookup in E by done.
      apply map_eq. intros k. destruct (decide (entryKey e = k)) as [<-|Hne].
      * by rewrite lookup_insert_eq, lookup_alter_eq, E.
      * by rewrite lookup_insert_ne, lookup_alter_ne.
  - split_and!; [done| |].
    + by rewrite rowsOf_lookup, E.
    + rewrite alter_id'; [done|]. by rewrite rowsOf_lookup.
Qed.

End InMemoryLaws.
