(* ===== verification/OutboxSqlite.v ===== *)
(** * The SQLite outbox store

    packages/node-store/src/protocol-outbox-store.ts: the durable store of the
    daemon.  The table [protocol_outbox] is a finite map from its primary key to
    rows; each statement is the function it denotes.  SQL leaves the order of
    rows without ORDER BY open: [plan] stands for the choice, per statement, and
    is only assumed to permute.  Text columns compare as their UTF-8 encodings
    (collation BINARY).  The store satisfies [OutboxStoreLaws], so by
    [sqlite_store_agrees] no client can tell it from the in-memory one. *)

From S2P Require Import Prelude Bytes CodePoints OutboxStore OutboxMemory.

Open Scope Z_scope.

Module Sqlite.

Record SqliteOutboxRow : Type := {
  peer_id : jsstr;
  protocol : jsstr;
  message_id : jsstr;
  payload : bytes;
  attempts : Z;
  first_failure_at : Z;
  last_attempt_at : Z;
  next_attempt_at : Z;
  last_error : option string }.

Definition rowKey (r : SqliteOutboxRow) : messageKey := (peer_id r, protocol r, message_id r).

Definition rowToEntry (row : SqliteOutboxRow) : ProtocolOutboxEntry :=
  {| oe_peer := peer_id row; oe_protocol := protocol row; oe_messageId := message_id row;
     oe_payload := payload row; oe_attempts := attempts row;
     oe_firstFailureAt := first_failure_at row; oe_lastAttemptAt := last_attempt_at row;
     oe_nextAttemptAt := next_attempt_at row; oe_lastError := default EmptyString (last_error row) |}.

(** [OUTBOX_METADATA_COLUMNS] *)
Definition metadataColumns (row : SqliteOutboxRow) : ProtocolOutboxMetadata :=
  {| om_key := rowKey row; om_attempts := attempts row;
     om_firstFailureAt := first_failure_at row; om_lastAttemptAt := last_attempt_at row;
     om_nextAttemptAt := next_attempt_at row; om_lastError := default EmptyString (last_error row);
     om_payloadBytes := byteLength (payload row) |}.

Record store : Type := {
  protocol_outbox : gmap messageKey SqliteOutboxRow;
  maxAgeMs : Z;
  backoffFor : Z -> Z }.

Definition with_table (s : store) (t : gmap messageKey SqliteOutboxRow) : store :=
  {| protocol_outbox := t; maxAgeMs := maxAgeMs s; backoffFor := backoffFor s |}.

Record SqliteProtocolOutboxStoreOptions : Type := {
  so_maxAgeMs : option Z;
  so_backoffFor : option (Z -> Z) }.

Definition configurePolicy (s : store) (options : SqliteProtocolOutboxStoreOptions) : store :=
  {| protocol_outbox := protocol_outbox s;
     maxAgeMs := default (maxAgeMs s) (so_maxAgeMs options);
     backoffFor := default (backoffFor s) (so_backoffFor options) |}.

(** A store over a table that earlier runs of the daemon filled. *)
Definition open (table : gmap messageKey SqliteOutboxRow) (options : SqliteProtocolOutboxStoreOptions) : store :=
  configurePolicy {| protocol_outbox := table; maxAgeMs := 24 * 60 * 60 * 1000; backoffFor := fun _ => 5000 |} options.

(** Text is compared by the bytes of its encoding. *)
Definition compareText (a b : jsstr) : Z := lexCompare (utf8 a) (utf8 b).

(** [ORDER BY next_attempt_at, first_failure_at, peer_id, protocol, message_id] *)
Definition dueOrder (a b : SqliteOutboxRow) : Z :=
  orElse (next_attempt_at a - next_attempt_at b)
  (orElse (first_failure_at a - first_failure_at b)
  (orElse (compareText (peer_id a) (peer_id b))
  (orElse (compareText (protocol a) (protocol b))
          (compareText (message_id a) (message_id b))))).

(** [ORDER BY first_failure_at, peer_id, protocol, message_id] *)
Definition listOrder (a b : SqliteOutboxRow) : Z :=
  orElse (first_failure_at a - first_failure_at b)
  (orElse (compareText (peer_id a) (peer_id b))
  (orElse (compareText (protocol a) (protocol b))
          (compareText (message_id a) (message_id b)))).

(** The loop over the candidates of a page: how many are admitted, and whether
    the byte budget ended it. *)
Fixpoint selectCandidates (limit : Z) (payloadBytes : Z) (candidates : list ProtocolOutboxMetadata) : nat * bool :=
  match candidates with
  | [] => (0%nat, false)
  | candidate :: rest =>
      if limit <? payloadBytes + om_payloadBytes candidate then (0%nat, true)
      else let '(n, exhausted) := selectCandidates limit (payloadBytes + om_payloadBytes candidate) rest in
           (S n, exhausted)
  end.

(** [max(...)] of SQL: NULL on no rows. *)
Definition sqlMax (l : list Z) : option Z :=
  match l with [] => None | x :: l' => Some (foldl Z.max x l') end.

Section Statements.
Variable plan : string -> forall A : Type, list A -> list A.

(** The rows of the table, in the order a statement visits them. *)
Definition scan (statement : string) (s : store) : list SqliteOutboxRow :=
  plan statement _ (map_to_list (protocol_outbox s)).*2.

Definition advanceRetryEntry (s : store) (k : messageKey) (newAttempts : Z) (error : string) (now : Z)
    : option SqliteOutboxRow * store :=
  let update r :=
    {| peer_id := peer_id r; protocol := protocol r; message_id := message_id r; payload := payload r;
       attempts := newAttempts; first_failure_at := first_failure_at r; last_attempt_at := now;
       next_attempt_at := now + backoffFor s newAttempts; last_error := Some error |} in
  let t := alter update k (protocol_outbox s) in
  (t !! k, with_table s t).

Definition enqueue (s : store) (k : messageKey) (pl : bytes) (error : string) (now : Z) : ProtocolOutboxEntry * store :=
  match protocol_outbox s !! k with
  | Some existing =>
      match advanceRetryEntry s k (attempts existing + 1) error now with
      | (Some row, s') => (rowToEntry row, s')
      | (None, s') => (rowToEntry existing, s')
      end
  | None =>
      let row :=
        {| peer_id := k.1.1; protocol := k.1.2; message_id := k.2; payload := pl; attempts := 1;
           first_failure_at := now; last_attempt_at := now; next_attempt_at := now + backoffFor s 1;
           last_error := Some error |} in
      (rowToEntry row, with_table s (<[k := row]> (protocol_outbox s)))
  end.

Definition markDelivered (s : store) (k : messageKey) : bool * store :=
  (bool_decide (is_Some (protocol_outbox s !! k)), with_table s (delete k (protocol_outbox s))).

Definition hasEntry (s : store) (k : messageKey) : bool := bool_decide (is_Some (protocol_outbox s !! k)).

Definition hasPendingFor (s : store) (peer : jsstr) : bool :=
  match List.filter (fun r => bool_decide (peer_id r = peer)) (scan "hasPendingFor" s) with
  | [] => false
  | _ => true
  end.

Definition readDuePage (s : store) (now : Z) (budget : ProtocolOutboxPageBudget) : result string ProtocolOutboxPage :=
  let* _ := validateProtocolOutboxPageBudget budget in
  let candidates :=
    metadataColumns <$>
      take (Z.to_nat (maxEntries budget))
        (js_sort dueOrder
          (List.filter (fun r => (next_attempt_at r <=? now) && (byteLength (payload r) <=? maxPayloadBytes budget))
                       (scan "readDuePage" s))) in
  let '(selectedCount, byteBudgetExhausted) := selectCandidates (maxPayloadBytes budget) 0 candidates in
  let admittedKeys := om_key <$> take selectedCount candidates in
  let rows :=
    plan "admitted" _
      (omap (fun ik => (fun r => (Z.of_nat ik.1, r)) <$> protocol_outbox s !! ik.2) (imap pair admittedKeys)) in
  let sorted := js_sort (fun a b => a.1 - b.1) rows in
  let skippedOversizedEntries :=
    js_length (List.filter (fun r => (next_attempt_at r <=? now) && (maxPayloadBytes budget <? byteLength (payload r)))
                           (scan "skippedOversizedEntries" s)) in
  Ok {| pg_entries := (fun ir => rowToEntry ir.2) <$> sorted;
        pg_skippedOversizedEntries := skippedOversizedEntries;
        pg_byteBudgetExhausted := byteBudgetExhausted |}.

Definition listMetadata (s : store) (peer : option jsstr) : list ProtocolOutboxMetadata :=
  metadataColumns <$>
    js_sort listOrder
      (List.filter (fun r => match peer with None => true | Some p => bool_decide (peer_id r = p) end)
                   (scan "listMetadata" s)).

Definition dropExpiredMetadata (s : store) (now : Z) : list ProtocolOutboxMetadata * store :=
  let expired r := first_failure_at r <? now - maxAgeMs s in
  (metadataColumns <$> List.filter expired (scan "dropExpiredMetadata" s),
   with_table s (filter (fun kr => expired kr.2 = false) (protocol_outbox s))).

Definition advanceRetryMetadata (s : store) (k : messageKey) (newAttempts : Z) (error : string) (now : Z)
    : option ProtocolOutboxMetadata * store :=
  let '(row, s') := advanceRetryEntry s k newAttempts error now in (metadataColumns <$> row, s').

Definition recordRetryFailure (s : store) (k : messageKey) (error : string) (now : Z) : option ProtocolOutboxMetadata * store :=
  match protocol_outbox s !! k with
  | None => (None, s)
  | Some current => advanceRetryMetadata s k (attempts current + 1) error now
  end.

Definition queueStats (s : store) (now limit : Z) : ProtocolOutboxQueueStats :=
  let rows := scan "queueStats" s in
  let isDueRow r := next_attempt_at r <=? now in
  {| qs_queuedEntries := js_length rows;
     qs_queuedBytes := default 0 (match rows with [] => None | _ => Some (foldr Z.add 0 ((fun r => byteLength (payload r)) <$> rows)) end);
     qs_oldestDueAgeMs := default 0 (sqlMax ((fun r => now - next_attempt_at r) <$> List.filter isDueRow rows));
     qs_oversizedDueEntries := js_length (List.filter (fun r => isDueRow r && (limit <? byteLength (payload r))) rows) |}.

Definition size (s : store) : Z := js_length (scan "size" s).

(** *** Snapshots with payloads *)

(** [ORDER BY first_failure_at, protocol, message_id] *)
Definition pendingOrder (a b : SqliteOutboxRow) : Z :=
  orElse (first_failure_at a - first_failure_at b)
  (orElse (compareText (protocol a) (protocol b))
          (compareText (message_id a) (message_id b))).

Definition pendingFor (s : store) (peer : jsstr) : list ProtocolOutboxEntry :=
  rowToEntry <$> js_sort pendingOrder (List.filter (fun r => bool_decide (peer_id r = peer)) (scan "pendingFor" s)).

Definition due (s : store) (now : Z) : list ProtocolOutboxEntry :=
  rowToEntry <$> js_sort dueOrder (List.filter (fun r => next_attempt_at r <=? now) (scan "due" s)).

Definition duePage (s : store) (now limit : Z) : result string (list ProtocolOutboxEntry) :=
  throw "Outbox duePage limit must be a non-negative safe integer"%string when ((MAX_SAFE_INTEGER <? limit) || (limit <? 0));
  Ok (rowToEntry <$> take (Z.to_nat limit) (js_sort dueOrder (List.filter (fun r => next_attempt_at r <=? now) (scan "duePage" s)))).

Definition dropExpired (s : store) (now : Z) : list ProtocolOutboxEntry * store :=
  let expired r := first_failure_at r <? now - maxAgeMs s in
  (rowToEntry <$> List.filter expired (scan "dropExpired" s),
   with_table s (filter (fun kr => expired kr.2 = false) (protocol_outbox s))).

Definition listEntries (s : store) : list ProtocolOutboxEntry :=
  rowToEntry <$> js_sort (fun a b => first_failure_at a - first_failure_at b) (scan "list" s).

Definition getEntry (s : store) (k : messageKey) : option ProtocolOutboxEntry := rowToEntry <$> protocol_outbox s !! k.

#[export] Instance outboxStore : OutboxStore store := {|
  st_configurePolicy s p :=
    Ok (configurePolicy s {| so_maxAgeMs := Some (pol_maxAgeMs p); so_backoffFor := Some (pol_backoffFor p) |});
  st_enqueue := enqueue;
  st_markDelivered := markDelivered;
  st_hasEntry := hasEntry;
  st_hasPendingFor := hasPendingFor;
  st_size := size;
  st_readDuePage := readDuePage;
  st_listMetadata := listMetadata;
  st_dropExpiredMetadata := dropExpiredMetadata;
  st_recordRetryFailure := recordRetryFailure;
  st_queueStats := queueStats |}.
End Statements.
End Sqlite.

Module SqliteLaws.
Import Sqlite.

Section Laws.
Variable plan : string -> forall A : Type, list A -> list A.
(** SQL returns every row of a result once, in some order. *)
Hypothesis plan_perm : forall statement A (l : list A), plan statement A l ≡ₚ l.

(** Rows carry the columns of their primary key, and identifiers are
    well-formed. *)
Definition ok (s : store) : Prop :=
  map_Forall (fun k r => rowKey r = k /\ wfKey k = true) (protocol_outbox s).

Definition view (s : store) : OutboxView :=
  {| ov_rows := rowToEntry <$> protocol_outbox s; ov_backoff := backoffFor s; ov_maxAgeMs := maxAgeMs s |}.

Lemma view_rowsOk s : ok s -> rowsOk (ov_rows (view s)).
Proof. intros Hs k e. simpl. rewrite lookup_fmap_Some. intros (r & <- & Hr). by apply Hs in Hr as [<- _]. Qed.

Lemma scan_perm st s : rowToEntry <$> scan plan st s ≡ₚ rowValues (ov_rows (view s)).
Proof.
  unfold scan, rowValues. simpl. rewrite plan_perm, map_to_list_fmap, <- !list_fmap_compose. done.
Qed.

Lemma elem_of_scan st s r : ok s -> r ∈ scan plan st s -> protocol_outbox s !! rowKey r = Some r /\ wfKey (rowKey r) = true.
Proof.
  intros Hs. unfold scan. rewrite plan_perm. intros ([k r'] & -> & Hin%elem_of_map_to_list)%list_elem_of_fmap.
  simpl. destruct (Hs k r' Hin) as [<- Hw]. done.
Qed.

Lemma metadata_entry r : metadataColumns r = entryMetadata (rowToEntry r).
Proof. done. Qed.

Lemma scan_size st s : js_length (scan plan st s) = Z.of_nat (base.size (ov_rows (view s))).
Proof.
  unfold js_length, scan. rewrite plan_perm, length_fmap, length_map_to_list. simpl. by rewrite map_size_fmap.
Qed.

(** [js_filter] through [rowToEntry]. *)
Lemma filter_rows (p : SqliteOutboxRow -> bool) (q : ProtocolOutboxEntry -> bool) l :
  (forall r, p r = q (rowToEntry r)) -> rowToEntry <$> List.filter p l = List.filter q (rowToEntry <$> l).
Proof.
  intros H. induction l as [|r l IH]; [done|]. csimpl. rewrite H. case_match; csimpl; by rewrite IH.
Qed.

Lemma compareText_sgn a b :
  isWellFormed a = true -> isWellFormed b = true ->
  (compareText a b <=? 0) = (compareCodePoint a b <=? 0) /\ (compareText a b =? 0) = (compareCodePoint a b =? 0).
Proof.
  intros Ha Hb. pose proof (code_point_order_sgn a b Ha Hb) as H. unfold compareText.
  destruct (Z.sgn_spec (compareCodePoint a b)) as [[? E]|[[? E]|[? E]]];
  destruct (Z.sgn_spec (lexCompare (utf8 a) (utf8 b))) as [[? E']|[[? E']|[? E']]]; lia.
Qed.

(** SQLite and JavaScript order rows alike. *)
Lemma dueOrder_compare a b :
  wfKey (rowKey a) = true -> wfKey (rowKey b) = true ->
  (dueOrder a b <=? 0) = (compareDueEntries (rowToEntry a) (rowToEntry b) <=? 0).
Proof.
  unfold wfKey. simpl. rewrite !andb_true_iff. intros (((_ & Ha1) & Ha2) & Ha3) (((_ & Hb1) & Hb2) & Hb3).
  unfold dueOrder, compareDueEntries, orElse. simpl.
  destruct (compareText_sgn _ _ Ha1 Hb1) as [L1 E1], (compareText_sgn _ _ Ha2 Hb2) as [L2 E2],
    (compareText_sgn _ _ Ha3 Hb3) as [L3 _].
  rewrite E1, E2. repeat case_match; done.
Qed.

Lemma sorted_rows s st (p : SqliteOutboxRow -> bool) (q : ProtocolOutboxEntry -> bool) :
  ok s -> (forall r, p r = q (rowToEntry r)) ->
  rowToEntry <$> js_sort dueOrder (List.filter p (scan plan st s))
    = js_sort compareDueEntries (List.filter q (rowToEntry <$> scan plan st s)).
Proof.
  intros Hs Hpq. rewrite (js_sort_ext dueOrder (fun a b => compareDueEntries (rowToEntry a) (rowToEntry b))).
  - by rewrite <- js_sort_fmap, (filter_rows _ q).
  - intros x y Hx%elem_of_js_filter Hy%elem_of_js_filter. destruct Hx as [Hx _], Hy as [Hy _].
    apply elem_of_scan in Hx as [_ Hx], Hy as [_ Hy]; [|done..]. by apply dueOrder_compare.
Qed.

Lemma eligible_rows s now limit :
  ok s ->
  rowToEntry <$> js_sort dueOrder
      (List.filter (fun r => (next_attempt_at r <=? now) && (byteLength (payload r) <=? limit)) (scan plan "readDuePage" s))
    = eligible (ov_rows (view s)) now limit.
Proof.
  intros Hs. rewrite (sorted_rows _ _ _ (fun e => isDue now e && negb (isOversized limit e))); [|done|].
  - apply eligible_of_perm; [by apply view_rowsOk|apply scan_perm].
  - intros r. unfold isDue, isOversized, entryBytes. simpl. by rewrite (Z.leb_antisym _ (byteLength (payload r))).
Qed.

(** All due rows, in retry order. *)
Lemma sqlite_due_law s now : ok s -> due plan s now = dueRows (ov_rows (view s)) now.
Proof.
  intros Hs. unfold due. rewrite (sorted_rows _ _ _ (isDue now)); [|done..].
  apply dueRows_of_perm; [by apply view_rowsOk|apply scan_perm].
Qed.

Lemma sqlite_duePage_law s now limit :
  ok s -> 0 <= limit <= MAX_SAFE_INTEGER -> duePage plan s now limit = Ok (take (Z.to_nat limit) (dueRows (ov_rows (view s)) now)).
Proof.
  intros Hs Hl. unfold duePage. rewrite !(proj2 (Z.ltb_ge _ _)) by lia. simpl. f_equal. rewrite fmap_take. f_equal.
  rewrite (sorted_rows _ _ _ (isDue now)); [|done..]. apply dueRows_of_perm; [by apply view_rowsOk|apply scan_perm].
Qed.

Lemma selectCandidates_spec limit b l :
  b <= limit ->
  let '(n, x) := selectCandidates limit b (metadataColumns <$> l) in
  let more := rowToEntry <$> take n l in
  b + payloadSum more <= limit /\ (n <= length l)%nat /\
  match drop n l with
  | [] => x = false
  | r :: _ => x = true /\ limit < b + payloadSum more + entryBytes (rowToEntry r)
  end.
Proof.
  revert b. induction l as [|r l IH]; intros b Hb.
  { cbn. unfold payloadSum. simpl. split; [lia|]. split; [lia|done]. }
  rewrite fmap_cons. cbn [selectCandidates].
  change (om_payloadBytes (metadataColumns r)) with (entryBytes (rowToEntry r)).
  destruct (Z.ltb_spec limit (b + entryBytes (rowToEntry r))) as [Hlt|Hge].
  - cbn. unfold payloadSum. simpl. split; [lia|]. split; [lia|]. split; [done|lia].
  - specialize (IH (b + entryBytes (rowToEntry r)) ltac:(lia)).
    destruct (selectCandidates limit _ _) as [n x]. cbn [take drop length]. rewrite fmap_cons.
    unfold payloadSum in *. cbn [foldr].
    destruct IH as (H1 & H2 & H3). split_and!; [lia|lia|]. destruct (drop n l); [done|]. split; [apply H3|lia].
Qed.

(** The second query and the sort give the admitted rows back in order. *)
Lemma indexed_sorted {A} (l : list A) (n : nat) :
  StronglySorted (cmp_le (fun a b : Z * A => a.1 - b.1)) (imap (fun i x => (Z.of_nat (n + i), x)) l).
Proof.
  revert n. induction l as [|x l IH]; intros n; [constructor|]. rewrite imap_cons. constructor.
  - specialize (IH (S n)). erewrite imap_ext; [exact IH|]. intros i y _. simpl. f_equal. lia.
  - apply Forall_forall. intros [j y] (i & z & E & _)%elem_of_lookup_imap. unfold cmp_le. simpl in *.
    injection E as -> _. lia.
Qed.

#[local] Instance index_comparator {A} : Comparator (fun a b : Z * A => a.1 - b.1).
Proof. apply comparator_difference. Qed.

Lemma sort_by_index {A} (l : list A) l' :
  l' ≡ₚ imap (fun i x => (Z.of_nat i, x)) l -> snd <$> js_sort (fun a b : Z * A => a.1 - b.1) l' = l.
Proof.
  intros Hp. rewrite (sorted_unique (fun a b : Z * A => a.1 - b.1) _ (imap (fun i x => (Z.of_nat i, x)) l)).
  - rewrite fmap_imap. clear. induction l as [|x l IH]; [done|]. rewrite imap_cons. f_equal. exact IH.
  - intros x y. rewrite js_sort_perm, Hp, !elem_of_lookup_imap.
    intros (i & a & -> & Ha) (j & b & -> & Hb) E. simpl in E. assert (i = j) as -> by lia. congruence.
  - apply js_sort_sorted, _.
  - apply (indexed_sorted l 0).
  - by rewrite js_sort_perm.
Qed.

Lemma join_admitted s l n :
  Forall (fun r => protocol_outbox s !! rowKey r = Some r) l ->
  omap (fun ik => (fun r => (Z.of_nat ik.1, r)) <$> protocol_outbox s !! ik.2)
       (imap (fun i k => ((n + i)%nat, k)) (rowKey <$> l))
    = imap (fun i r => (Z.of_nat (n + i), r)) l.
Proof.
  intros Hl. revert n. induction Hl as [|r l Hr Hl IH]; intros n; [done|].
  rewrite fmap_cons, !imap_cons. csimpl. rewrite Hr. simpl. f_equal.
  rewrite (imap_ext _ (fun i k => ((S n + i)%nat, k))) by (intros; simpl; f_equal; lia).
  rewrite (IH (S n)). apply imap_ext. intros. simpl. f_equal. lia.
Qed.

Lemma admitted_rows s st l :
  Forall (fun r => protocol_outbox s !! rowKey r = Some r) l ->
  snd <$> js_sort (fun a b : Z * SqliteOutboxRow => a.1 - b.1)
     (plan st _ (omap (fun ik => (fun r => (Z.of_nat ik.1, r)) <$> protocol_outbox s !! ik.2)
                      (imap pair (rowKey <$> l))))
    = l.
Proof.
  intros Hl. apply sort_by_index. rewrite plan_perm. apply (reflexive_eq (R := Permutation)).
  exact (join_admitted s l 0 Hl).
Qed.

Lemma sqlite_readDuePage_law s now budget :
  ok s ->
  match readDuePage plan s now budget with
  | Ok page => validateProtocolOutboxPageBudget budget = Ok tt /\ DuePage (ov_rows (view s)) now budget page
  | Err e => validateProtocolOutboxPageBudget budget = Err e
  end.
Proof.
  intros Hs. unfold readDuePage. destruct (validateProtocolOutboxPageBudget budget) as [[]|e] eqn:Ev; simpl; [|done].
  pose proof (eligible_rows s now (maxPayloadBytes budget) Hs) as Hel.
  set (sorted := js_sort dueOrder _) in *.
  assert (Forall (fun r => protocol_outbox s !! rowKey r = Some r) sorted) as Hin.
  { apply Forall_forall. intros r. subst sorted. rewrite js_sort_perm, elem_of_js_filter.
    intros [Hr _]. by apply elem_of_scan in Hr as [? _]. }
  clearbody sorted. set (lim := Z.to_nat (maxEntries budget)).
  unfold validateProtocolOutboxPageBudget, isPositiveSafeInteger in Ev. ok_inv.
  pose proof (selectCandidates_spec (maxPayloadBytes budget) 0 (take lim sorted) ltac:(lia)) as Hsel.
  destruct (selectCandidates _ _ _) as [n x]. destruct Hsel as (Hb & Hn & Hx). split; [done|].
  rewrite <- fmap_take, <- list_fmap_compose. change (om_key ∘ metadataColumns) with rowKey.
  rewrite length_take in Hn.
  assert (take n (take lim sorted) = take n sorted) as Et by (rewrite take_take; f_equal; lia). rewrite Et in *.
  change (fun ir : Z * SqliteOutboxRow => rowToEntry ir.2) with (rowToEntry ∘ @snd Z SqliteOutboxRow).
  rewrite (list_fmap_compose snd rowToEntry), admitted_rows by by apply Forall_take.
  assert (length (rowToEntry <$> take n sorted) = n) as Elen by (rewrite length_fmap, length_take; lia).
  exists (rowToEntry <$> drop n sorted). simpl. rewrite Elen. split_and!.
  - by rewrite <- fmap_app, take_drop.
  - lia.
  - lia.
  - rewrite skipn_firstn_comm in Hx. destruct (drop n sorted) as [|r rest] eqn:Ed.
    + by rewrite take_nil in Hx.
    + csimpl. destruct (Z.ltb_spec (Z.of_nat n) (maxEntries budget)) as [Hlt|Hge].
      * replace (lim - n)%nat with (S (pred (lim - n))) in Hx by lia. simpl in Hx. split; [apply Hx|lia].
      * replace (lim - n)%nat with 0%nat in Hx by lia. done.
  - rewrite <- (scan_perm "skippedOversizedEntries" s). unfold countOf, js_length.
    rewrite <- (filter_rows (fun r => (next_attempt_at r <=? now) && (maxPayloadBytes budget <? byteLength (payload r)))) by done.
    by rewrite length_fmap.
Qed.

Lemma sqlMax_foldr l : Forall (Z.le 0) l -> default 0 (sqlMax l) = foldr Z.max 0 l.
Proof.
  destruct l as [|x l]; [done|]. intros [Hx Hl]%Forall_cons. simpl. revert x Hx.
  induction Hl as [|y l Hy Hl IH]; intros x Hx; simpl; [lia|]. rewrite IH by lia. lia.
Qed.

Lemma sum_rows l : foldr Z.add 0 ((fun r => byteLength (payload r)) <$> l) = payloadSum (rowToEntry <$> l).
Proof. induction l as [|r l IH]; [done|]. rewrite !fmap_cons. unfold payloadSum in *. cbn [foldr]. by rewrite IH. Qed.

Lemma sqlite_queueStats_law s now limit : ok s -> queueStats plan s now limit = statsOf (ov_rows (view s)) now limit.
Proof.
  intros Hs. pose proof (scan_perm "queueStats" s) as Hp. unfold queueStats, statsOf. f_equal.
  - apply scan_size.
  - rewrite <- Hp, <- sum_rows. by destruct (scan plan "queueStats" s).
  - rewrite sqlMax_foldr.
    + rewrite <- Hp, <- (filter_rows (fun r => next_attempt_at r <=? now)) by done.
      by rewrite <- list_fmap_compose.
    + apply Forall_fmap, Forall_forall. intros r [_ Hr]%elem_of_js_filter. simpl. lia.
  - rewrite <- Hp. unfold countOf, js_length.
    rewrite <- (filter_rows (fun r => (next_attempt_at r <=? now) && (limit <? byteLength (payload r)))) by done.
    by rewrite length_fmap.
Qed.

Lemma advanceRetryEntry_law s k r error now :
  ok s -> protocol_outbox s !! k = Some r ->
  let '(row, s') := advanceRetryEntry s k (attempts r + 1) error now in
  ok s' /\ rowToEntry <$> row = Some (advanced (backoffFor s) error now (rowToEntry r)) /\
  view s' = withRows (view s) (<[k := advanced (backoffFor s) error now (rowToEntry r)]> (ov_rows (view s))).
Proof.
  intros Hs Hr. unfold advanceRetryEntry. set (update := fun r => _). split_and!.
  - intros k' r'. simpl. destruct (decide (k = k')) as [<-|Hne].
    + rewrite lookup_alter_eq, Hr. intros [= <-]. apply (Hs k r Hr).
    + rewrite lookup_alter_ne by done. apply Hs.
  - by rewrite lookup_alter_eq, Hr.
  - unfold view, withRows. simpl. f_equal. apply map_eq. intros k'. destruct (decide (k = k')) as [<-|Hne].
    + by rewrite lookup_insert_eq, lookup_fmap, lookup_alter_eq, Hr.
    + by rewrite lookup_insert_ne, !lookup_fmap, lookup_alter_ne.
Qed.

#[export] Program Instance outboxStoreLaws : @OutboxStoreLaws store (outboxStore plan) := {|
  st_ok := ok;
  st_view := view;
  law_readDuePage := sqlite_readDuePage_law;
  law_queueStats := sqlite_queueStats_law |}.
Next Obligation.
  intros s Hs. split; [by apply view_rowsOk|]. intros k e. simpl. rewrite lookup_fmap_Some.
  intros (r & _ & Hr). by apply Hs in Hr as [_ ?].
Qed.
Next Obligation. intros s p Hs Hb Hf. simpl. eexists. split_and!; [done|apply Hs|done..]. Qed.
Next Obligation.
  intros s k pl error now Hs Hk. simpl. unfold enqueue, enqueued. rewrite lookup_fmap.
  destruct (protocol_outbox s !! k) as [r|] eqn:E.
  - pose proof (advanceRetryEntry_law s k r error now Hs E) as H.
    destruct (advanceRetryEntry s k (attempts r + 1) error now) as [[row|] s']; [|by destruct H as (_ & ? & _)].
    destruct H as (H1 & H2 & H3). apply (inj Some) in H2. rewrite <- H2 in H3. exact (conj H1 (conj H2 H3)).
  - destruct k as [[p q] m]. split_and!; [|done|].
    + intros k' r'. simpl. rewrite lookup_insert_Some. intros [[<- <-]|[_ Hr]]; [done|by apply Hs].
    + unfold view, withRows. simpl. f_equal. by rewrite fmap_insert.
Qed.
Next Obligation.
  intros s k Hs Hk. simpl. split_and!.
  - intros k' r'. simpl. rewrite lookup_delete_Some. intros [_ Hr]. by apply Hs.
  - rewrite lookup_fmap. by destruct (protocol_outbox s !! k).
  - unfold view, withRows. simpl. by rewrite fmap_delete.
Qed.
Next Obligation.
  intros s k Hs Hk. simpl. unfold hasEntry. rewrite lookup_fmap. by destruct (protocol_outbox s !! k).
Qed.
Next Obligation.
  intros s peer Hs. simpl. unfold hasPendingFor. apply eq_true_iff_eq. rewrite existsb_exists.
  setoid_rewrite <- list_elem_of_In. setoid_rewrite <- (scan_perm "hasPendingFor" s).
  setoid_rewrite list_elem_of_fmap. split.
  - destruct (List.filter _ _) as [|r l] eqn:E; [done|]. intros _.
    assert (r ∈ List.filter (fun r => bool_decide (peer_id r = peer)) (scan plan "hasPendingFor" s)) as Hr
      by (rewrite E; left). apply elem_of_js_filter in Hr as [Hr Hp]. eauto.
  - intros (e & (r & -> & Hr) & Hp). destruct (List.filter _ _) eqn:E; [|done].
    assert (r ∈ List.filter (fun r => bool_decide (peer_id r = peer)) (scan plan "hasPendingFor" s)) as Hin
      by (by apply elem_of_js_filter). rewrite E in Hin. by apply not_elem_of_nil in Hin.
Qed.
Next Obligation. intros s Hs. apply scan_size. Qed.
Next Obligation.
  intros s peer Hs. simpl. unfold listMetadata. rewrite js_sort_perm, <- (scan_perm "listMetadata" s).
  erewrite <- filter_rows; [by rewrite <- list_fmap_compose|]. by intros r.
Qed.
Next Obligation.
  intros s now Hs. simpl. split_and!.
  - intros k r [Hr _]%map_lookup_filter_Some. by apply Hs.
  - rewrite <- (scan_perm "dropExpiredMetadata" s). erewrite <- filter_rows; [by rewrite <- list_fmap_compose|].
    intros r. unfold isExpired. simpl. lia.
  - unfold view, withRows. simpl. f_equal. apply map_eq. intros k. apply option_eq. intros e.
    rewrite lookup_fmap_Some, map_lookup_filter_Some, lookup_fmap_Some.
    setoid_rewrite map_lookup_filter_Some. unfold isExpired. simpl. split.
    + intros (r & <- & Hr & He). split; [by exists r|]. simpl. lia.
    + intros [(r & <- & Hr) He]. exists r. split_and!; [done..|]. simpl in He. lia.
Qed.
Next Obligation.
  intros s k error now Hs Hk. simpl. unfold recordRetryFailure, advanceRetryMetadata.
  destruct (protocol_outbox s !! k) as [r|] eqn:E.
  - pose proof (advanceRetryEntry_law s k r error now Hs E) as H.
    destruct (advanceRetryEntry s k (attempts r + 1) error now) as [row s'].
    destruct H as (H1 & H2 & H3). split_and!; [done| |].
    + etrans; [|exact (f_equal (fun v => entryMetadata <$> ov_rows v !! k) (eq_sym H3))]. simpl.
      rewrite lookup_insert_eq. destruct row as [row|]; [|done]. apply (inj Some) in H2. simpl. by rewrite <- H2.
    + rewrite H3. f_equal. apply map_eq. intros k'. destruct (decide (k = k')) as [<-|Hne].
      * by rewrite lookup_insert_eq, lookup_alter_eq, lookup_fmap, E.
      * by rewrite lookup_insert_ne, lookup_alter_ne.
  - split_and!; [done|by rewrite lookup_fmap, E|].
    rewrite alter_id'; [done|]. by rewrite lookup_fmap, E.
Qed.
End Laws.
End SqliteLaws.
