(* ===== verification/ProtocolOutbox.v ===== *)
(** * The outbox over a store

    packages/core/src/protocol-outbox.ts: [ProtocolOutboxAttempts] and
    [BoundedProtocolOutbox] add the in-flight guard and the retry policy to any
    store of the interface.  Then: two lawful stores under the same outbox cannot
    be told apart, which makes the SQLite store an implementation of its
    in-memory specification, and what a bounded read returns. *)

From S2P Require Import Prelude Bytes CodePoints JsMap OutboxStore OutboxMemory OutboxSqlite.

Open Scope Z_scope.

Section Outbox.
Context {S : Type} `{!OutboxStore S}.

Record ProtocolOutboxAttempts : Type := {
  ob_store : S;
  ob_backoffs : list Z;
  ob_inflight : gset jsstr }.

Definition with_store (o : ProtocolOutboxAttempts) (s : S) : ProtocolOutboxAttempts :=
  {| ob_store := s; ob_backoffs := ob_backoffs o; ob_inflight := ob_inflight o |}.

Definition with_inflight (o : ProtocolOutboxAttempts) (i : gset jsstr) : ProtocolOutboxAttempts :=
  {| ob_store := ob_store o; ob_backoffs := ob_backoffs o; ob_inflight := i |}.

Definition backoffFor (backoffs : list Z) (attempts : Z) : Z :=
  let idx := Z.min (Z.max (attempts - 1) 0) (js_length backoffs - 1) in
  default 0 (js_at backoffs idx).

(** The constructor of [BoundedProtocolOutbox]. *)
Definition newOutbox (store : S) (options : ProtocolOutboxOptions) : result string ProtocolOutboxAttempts :=
  let backoffs := default DEFAULT_PROTOCOL_OUTBOX_BACKOFFS_MS (opt_backoffs options) in
  throw "ProtocolOutbox: backoffs must be non-empty"%string when (js_length backoffs =? 0);
  let* configured := st_configurePolicy store
    {| pol_backoffs := backoffs;
       pol_maxAgeMs := default DEFAULT_PROTOCOL_OUTBOX_MAX_AGE_MS (opt_maxAgeMs options);
       pol_backoffFor := backoffFor backoffs |} in
  Ok {| ob_store := configured; ob_backoffs := backoffs; ob_inflight := ∅ |}.

Definition tryBeginAttempt (o : ProtocolOutboxAttempts) (k : messageKey) : bool * ProtocolOutboxAttempts :=
  let key := inflightKey k in
  if bool_decide (key ∈ ob_inflight o) then (false, o)
  else (true, with_inflight o ({[ key ]} ∪ ob_inflight o)).

Definition endAttempt (o : ProtocolOutboxAttempts) (k : messageKey) : ProtocolOutboxAttempts :=
  with_inflight o (ob_inflight o ∖ {[ inflightKey k ]}).

Definition enqueueFailure (o : ProtocolOutboxAttempts) (k : messageKey) (payload : bytes) (error : string) (now : Z)
    : ProtocolOutboxEntry * ProtocolOutboxAttempts :=
  let '(e, s) := st_enqueue (ob_store o) k payload error now in (e, with_store o s).

Definition markDelivered (o : ProtocolOutboxAttempts) (k : messageKey) : bool * ProtocolOutboxAttempts :=
  let '(removed, s) := st_markDelivered (ob_store o) k in (removed, with_store o s).

Definition hasEntry (o : ProtocolOutboxAttempts) (k : messageKey) : bool := st_hasEntry (ob_store o) k.

Definition hasPendingFor (o : ProtocolOutboxAttempts) (peer : jsstr) : bool := st_hasPendingFor (ob_store o) peer.

Definition readDuePage (o : ProtocolOutboxAttempts) (now : Z) (budget : ProtocolOutboxPageBudget) : result string ProtocolOutboxPage :=
  let* _ := validateProtocolOutboxPageBudget budget in
  st_readDuePage (ob_store o) now budget.

Definition dropExpiredMetadata (o : ProtocolOutboxAttempts) (now : Z) : list ProtocolOutboxMetadata * ProtocolOutboxAttempts :=
  let '(dropped, s) := st_dropExpiredMetadata (ob_store o) now in (dropped, with_store o s).

Definition recordRetryFailure (o : ProtocolOutboxAttempts) (k : messageKey) (error : string) (now : Z)
    : option ProtocolOutboxMetadata * ProtocolOutboxAttempts :=
  let '(m, s) := st_recordRetryFailure (ob_store o) k error now in (m, with_store o s).

Definition queueStats (o : ProtocolOutboxAttempts) (now limit : Z) : ProtocolOutboxQueueStats :=
  st_queueStats (ob_store o) now limit.

Definition listMetadata (o : ProtocolOutboxAttempts) (peer : option jsstr) : list ProtocolOutboxMetadata :=
  st_listMetadata (ob_store o) peer.

Definition outboxSize (o : ProtocolOutboxAttempts) : Z := st_size (ob_store o).

(** ** Sequences of calls *)

Inductive outboxCall : Type :=
| CallEnqueue (k : messageKey) (payload : bytes) (error : string) (now : Z)
| CallMarkDelivered (k : messageKey)
| CallHasEntry (k : messageKey)
| CallHasPendingFor (peer : jsstr)
| CallReadDuePage (now : Z) (budget : ProtocolOutboxPageBudget)
| CallListMetadata (peer : option jsstr)
| CallDropExpired (now : Z)
| CallRecordRetryFailure (k : messageKey) (error : string) (now : Z)
| CallQueueStats (now limit : Z)
| CallSize.

Inductive outboxReply : Type :=
| ReplyEntry (e : ProtocolOutboxEntry)
| ReplyBool (b : bool)
| ReplyPage (p : result string ProtocolOutboxPage)
| ReplyList (l : list ProtocolOutboxMetadata)
| ReplyMaybe (m : option ProtocolOutboxMetadata)
| ReplyStats (q : ProtocolOutboxQueueStats)
| ReplyNumber (n : Z).

Definition call (o : ProtocolOutboxAttempts) (c : outboxCall) : outboxReply * ProtocolOutboxAttempts :=
  match c with
  | CallEnqueue k payload error now => let '(e, o') := enqueueFailure o k payload error now in (ReplyEntry e, o')
  | CallMarkDelivered k => let '(b, o') := markDelivered o k in (ReplyBool b, o')
  | CallHasEntry k => (ReplyBool (hasEntry o k), o)
  | CallHasPendingFor peer => (ReplyBool (hasPendingFor o peer), o)
  | CallReadDuePage now budget => (ReplyPage (readDuePage o now budget), o)
  | CallListMetadata peer => (ReplyList (listMetadata o peer), o)
  | CallDropExpired now => let '(l, o') := dropExpiredMetadata o now in (ReplyList l, o')
  | CallRecordRetryFailure k error now => let '(m, o') := recordRetryFailure o k error now in (ReplyMaybe m, o')
  | CallQueueStats now limit => (ReplyStats (queueStats o now limit), o)
  | CallSize => (ReplyNumber (outboxSize o), o)
  end.

Fixpoint calls (o : ProtocolOutboxAttempts) (cs : list outboxCall) : list outboxReply :=
  match cs with
  | [] => []
  | c :: cs' => let '(r, o') := call o c in r :: calls o' cs'
  end.
End Outbox.
Arguments ProtocolOutboxAttempts : clear implicits.

(** The identifiers a call names are well-formed. *)
Definition wfCall (c : outboxCall) : bool :=
  match c with
  | CallEnqueue k _ _ _ | CallMarkDelivered k | CallHasEntry k | CallRecordRetryFailure k _ _ => wfKey k
  | _ => true
  end.

(** Replies agree; lists whose order the interface leaves open, as multisets. *)
Definition replyAgree (r1 r2 : outboxReply) : Prop :=
  match r1, r2 with
  | ReplyList l1, ReplyList l2 => l1 ≡ₚ l2
  | _, _ => r1 = r2
  end.

(** ** The constructor over a lawful store *)

Lemma newOutbox_spec {S} `{!OutboxStore S, !OutboxStoreLaws S} s options o :
  st_ok s -> newOutbox s options = Ok o ->
  st_ok (ob_store o) /\ st_rows (ob_store o) = st_rows s /\ ob_inflight o = ∅ /\
  ov_maxAgeMs (st_view (ob_store o)) = default DEFAULT_PROTOCOL_OUTBOX_MAX_AGE_MS (opt_maxAgeMs options) /\
  forall n, ov_backoff (st_view (ob_store o)) n
            = ladder (default DEFAULT_PROTOCOL_OUTBOX_BACKOFFS_MS (opt_backoffs options)) n.
Proof.
  intros Hs H. unfold newOutbox in H. set (backoffs := default _ (opt_backoffs options)) in *.
  apply throw_if_Ok in H as [Hb H].
  set (p := {| pol_backoffs := backoffs; pol_maxAgeMs := _; pol_backoffFor := _ |}) in *.
  destruct (law_configurePolicy s p Hs) as (c & C & K & R & M & B); [|done|].
  - simpl. intros E. by rewrite E in Hb.
  - rewrite C in H. by injection H as <-.
Qed.

(** ** Two lawful stores *)

Section Agreement.
Context {S1 S2 : Type} `{!OutboxStore S1, !OutboxStore S2, !OutboxStoreLaws S1, !OutboxStoreLaws S2}.

Definition viewsAgree (v1 v2 : OutboxView) : Prop :=
  ov_rows v1 = ov_rows v2 /\ ov_maxAgeMs v1 = ov_maxAgeMs v2 /\ forall n, ov_backoff v1 n = ov_backoff v2 n.

Definition agree (o1 : ProtocolOutboxAttempts S1) (o2 : ProtocolOutboxAttempts S2) : Prop :=
  st_ok (ob_store o1) /\ st_ok (ob_store o2) /\ viewsAgree (st_view (ob_store o1)) (st_view (ob_store o2)).

Lemma advanced_ext f g e error now : (forall n, f n = g n) -> advanced f error now e = advanced g error now e.
Proof. intros H. unfold advanced. by rewrite H. Qed.

Lemma enqueued_ext f g rows k p error now :
  (forall n, f n = g n) -> enqueued f rows k p error now = enqueued g rows k p error now.
Proof. intros H. unfold enqueued, firstFailure. rewrite (H 1). case_match; [by apply advanced_ext|done]. Qed.

Lemma new_agree s1 s2 options o1 o2 :
  st_ok s1 -> st_ok s2 -> st_rows s1 = st_rows s2 ->
  newOutbox s1 options = Ok o1 -> newOutbox s2 options = Ok o2 -> agree o1 o2.
Proof.
  intros H1 H2 Hr E1 E2. destruct (newOutbox_spec _ _ _ H1 E1) as (K1 & R1 & _ & M1 & B1).
  destruct (newOutbox_spec _ _ _ H2 E2) as (K2 & R2 & _ & M2 & B2).
  unfold agree, viewsAgree. split_and!; [done..| | |].
  - unfold st_rows in *. congruence.
  - congruence.
  - intros n. by rewrite B1, B2.
Qed.

(** Stores that agree still do after writing the same rows. *)
Lemma agree_withRows o1 o2 s1 s2 rows :
  agree o1 o2 -> st_ok s1 -> st_ok s2 ->
  st_view s1 = withRows (st_view (ob_store o1)) rows -> st_view s2 = withRows (st_view (ob_store o2)) rows ->
  agree (with_store o1 s1) (with_store o2 s2).
Proof. intros (_ & _ & _ & Hm & Hb) K1 K2 V1 V2. unfold agree, viewsAgree. simpl. rewrite V1, V2. by split_and!. Qed.

Definition callAgree (o1 : ProtocolOutboxAttempts S1) (o2 : ProtocolOutboxAttempts S2) (c : outboxCall) : Prop :=
  let '(r1, o1') := call o1 c in
  let '(r2, o2') := call o2 c in
  replyAgree r1 r2 /\ agree o1' o2'.

Lemma enqueue_agree o1 o2 k p e now : agree o1 o2 -> wfKey k = true -> callAgree o1 o2 (CallEnqueue k p e now).
Proof.
  intros Ho Hw. pose proof Ho as (H1 & H2 & Hr & _ & Hb). unfold callAgree. simpl. unfold enqueueFailure.
  pose proof (law_enqueue _ k p e now H1 Hw) as L1. pose proof (law_enqueue _ k p e now H2 Hw) as L2.
  destruct (st_enqueue (ob_store o1) k p e now) as [e1 s1], (st_enqueue (ob_store o2) k p e now) as [e2 s2].
  destruct L1 as (K1 & -> & V1), L2 as (K2 & -> & V2). unfold st_rows in *. rewrite Hr in *.
  rewrite (enqueued_ext _ _ _ _ _ _ _ Hb) in *. split; [done|]. by eapply agree_withRows.
Qed.

Lemma delivered_agree o1 o2 k : agree o1 o2 -> wfKey k = true -> callAgree o1 o2 (CallMarkDelivered k).
Proof.
  intros Ho Hw. pose proof Ho as (H1 & H2 & Hr & _). unfold callAgree. simpl. unfold markDelivered.
  pose proof (law_markDelivered _ k H1 Hw) as L1. pose proof (law_markDelivered _ k H2 Hw) as L2.
  destruct (st_markDelivered (ob_store o1) k) as [r1 s1], (st_markDelivered (ob_store o2) k) as [r2 s2].
  destruct L1 as (K1 & -> & V1), L2 as (K2 & -> & V2). unfold st_rows in *. rewrite Hr in *.
  split; [done|]. by eapply agree_withRows.
Qed.

Lemma expired_agree o1 o2 now : agree o1 o2 -> callAgree o1 o2 (CallDropExpired now).
Proof.
  intros Ho. pose proof Ho as (H1 & H2 & Hr & Hm & _). unfold callAgree. simpl. unfold dropExpiredMetadata.
  pose proof (law_dropExpired _ now H1) as L1. pose proof (law_dropExpired _ now H2) as L2.
  destruct (st_dropExpiredMetadata (ob_store o1) now) as [d1 s1], (st_dropExpiredMetadata (ob_store o2) now) as [d2 s2].
  destruct L1 as (K1 & P1 & V1), L2 as (K2 & P2 & V2). unfold st_rows in *. rewrite Hr, Hm in *.
  split; [simpl; by rewrite P1, P2|]. by eapply agree_withRows.
Qed.

Lemma retry_agree o1 o2 k e now : agree o1 o2 -> wfKey k = true -> callAgree o1 o2 (CallRecordRetryFailure k e now).
Proof.
  intros Ho Hw. pose proof Ho as (H1 & H2 & Hr & _ & Hb). unfold callAgree. simpl. unfold recordRetryFailure.
  pose proof (law_recordRetryFailure _ k e now H1 Hw) as L1. pose proof (law_recordRetryFailure _ k e now H2 Hw) as L2.
  destruct (st_recordRetryFailure (ob_store o1) k e now) as [m1 s1], (st_recordRetryFailure (ob_store o2) k e now) as [m2 s2].
  destruct L1 as (K1 & -> & V1), L2 as (K2 & -> & V2). unfold st_rows in *. rewrite Hr in *.
  rewrite (alter_ext _ (advanced (ov_backoff (st_view (ob_store o2))) e now)) in V1 by (intros x _; by apply advanced_ext).
  rewrite V1, V2. simpl. split; [done|]. by eapply agree_withRows.
Qed.

Lemma page_agree o1 o2 now budget : agree o1 o2 -> readDuePage o1 now budget = readDuePage o2 now budget.
Proof.
  intros (H1 & H2 & Hr & _). unfold readDuePage. destruct (validateProtocolOutboxPageBudget budget) eqn:Ev; simpl; [|done].
  pose proof (law_readDuePage _ now budget H1) as L1. pose proof (law_readDuePage _ now budget H2) as L2.
  unfold st_rows in *. rewrite Hr in *.
  destruct (st_readDuePage (ob_store o1) now budget), (st_readDuePage (ob_store o2) now budget); try congruence.
  destruct L1 as [_ L1], L2 as [_ L2]. f_equal. by eapply DuePage_unique.
Qed.

Lemma call_agree o1 o2 c : agree o1 o2 -> wfCall c = true -> callAgree o1 o2 c.
Proof.
  intros Ho Hw. pose proof Ho as (H1 & H2 & Hr & Hm & Hb).
  destruct c as [k p e now|k|k|peer|now budget|peer|now|k e now|now limit|]; simpl in Hw.
  - by apply enqueue_agree.
  - by apply delivered_agree.
  - unfold callAgree. simpl. unfold hasEntry. rewrite !law_hasEntry by done. unfold st_rows. by rewrite Hr.
  - unfold callAgree. simpl. unfold hasPendingFor. rewrite !law_hasPendingFor by done. unfold st_rows. by rewrite Hr.
  - split; [|done]. simpl. f_equal. by apply page_agree.
  - split; [|done]. simpl. unfold listMetadata. rewrite !law_listMetadata by done. unfold st_rows. by rewrite Hr.
  - by apply expired_agree.
  - by apply retry_agree.
  - split; [|done]. simpl. unfold queueStats. rewrite !law_queueStats by done. unfold st_rows. by rewrite Hr.
  - split; [|done]. simpl. unfold outboxSize. rewrite !law_size by done. unfold st_rows. by rewrite Hr.
Qed.

Lemma calls_agree o1 o2 cs :
  agree o1 o2 -> forallb wfCall cs = true -> Forall2 replyAgree (calls o1 cs) (calls o2 cs).
Proof.
  revert o1 o2. induction cs as [|c cs IH]; intros o1 o2 Ho Hw; simpl; [constructor|].
  simpl in Hw. apply andb_true_iff in Hw as [Hc Hw]. pose proof (call_agree o1 o2 c Ho Hc) as H. unfold callAgree in H.
  destruct (call o1 c) as [r1 o1'], (call o2 c) as [r2 o2']. destruct H as [Hr Ho']. constructor; [done|by apply IH].
Qed.
End Agreement.

(** ** The SQLite store implements the in-memory one *)

Section Refinement.
Variable plan : string -> forall A : Type, list A -> list A.
Hypothesis plan_perm : forall statement A (l : list A), plan statement A l ≡ₚ l.

#[local] Existing Instance InMemory.outboxStore.
#[local] Existing Instance InMemoryLaws.outboxStoreLaws.
#[local] Instance sqliteStore : OutboxStore Sqlite.store := Sqlite.outboxStore plan.
#[local] Instance sqliteLaws : OutboxStoreLaws Sqlite.store := SqliteLaws.outboxStoreLaws plan plan_perm.

Definition emptyTable : Sqlite.store := Sqlite.open ∅ {| Sqlite.so_maxAgeMs := None; Sqlite.so_backoffFor := None |}.
Definition defaultOptions : ProtocolOutboxOptions := {| opt_backoffs := None; opt_maxAgeMs := None |}.

Lemma newOutbox_total {S} `{!OutboxStore S, !OutboxStoreLaws S} (s : S) options :
  st_ok s -> opt_backoffs options <> Some [] -> exists o, newOutbox s options = Ok o.
Proof.
  intros Hs Hb. unfold newOutbox. set (backoffs := default _ (opt_backoffs options)).
  assert (backoffs <> []) as Hne by (unfold backoffs; destruct (opt_backoffs options) as [l|]; [by intros E; simpl in E; subst|done]).
  set (p := {| pol_backoffs := backoffs; pol_maxAgeMs := _; pol_backoffFor := _ |}).
  destruct (law_configurePolicy s p Hs) as (c & C & _); [done|done|]. rewrite C. simpl.
  exists {| ob_store := c; ob_backoffs := backoffs; ob_inflight := ∅ |}. unfold throw_if.
  destruct (js_length backoffs =? 0) eqn:E; [|done]. apply Z.eqb_eq in E. unfold js_length in E. destruct backoffs; [done|simpl in E; lia].
Qed.

(** C17: whatever order SQL returns rows in, an outbox on an empty SQLite table and
    one on an in-memory store, configured alike, give the same replies to every
    sequence of calls: the same entries, pages, flags, counts and errors, and the
    same listings up to their order. *)
Theorem sqlite_store_agrees options :
  opt_backoffs options <> Some [] ->
  exists memory oM oS,
    InMemory.new defaultOptions = Ok memory /\ newOutbox memory options = Ok oM /\ newOutbox emptyTable options = Ok oS /\
    forall cs, forallb wfCall cs = true -> Forall2 replyAgree (calls oM cs) (calls oS cs).
Proof using plan_perm.
  intros Hb. destruct (InMemory.new defaultOptions) as [memory|] eqn:Em; [|done]. injection Em as Em.
  assert (st_ok memory) as H1 by (subst memory; split; constructor).
  assert (st_ok emptyTable) as H2 by exact (map_Forall_empty (M:=gmap messageKey) _).
  destruct (newOutbox_total memory options H1 Hb) as [oM HM]. destruct (newOutbox_total emptyTable options H2 Hb) as [oS HS].
  exists memory, oM, oS. split_and!; [done..|]. intros cs Hcs. apply calls_agree; [|done].
  eapply new_agree; [exact H1|exact H2| |exact HM|exact HS]. by subst memory.
Qed.
End Refinement.

(** Statements that return rows backwards. *)
Definition backwards (statement : string) (A : Type) (rows : list A) : list A := reverse rows.

Lemma backwards_perm statement A (rows : list A) : backwards statement A rows ≡ₚ rows.
Proof. apply reverse_Permutation. Qed.

Lemma sqlite_store_agrees_witness :
  exists memory oM oS,
    InMemory.new defaultOptions = Ok memory /\ @newOutbox _ InMemory.outboxStore memory defaultOptions = Ok oM /\
    @newOutbox _ (Sqlite.outboxStore backwards) emptyTable defaultOptions = Ok oS /\
    forall cs, forallb wfCall cs = true ->
      Forall2 replyAgree (@calls _ InMemory.outboxStore oM cs) (@calls _ (Sqlite.outboxStore backwards) oS cs).
Proof. apply (sqlite_store_agrees backwards backwards_perm defaultOptions). discriminate. Defined.
