(* ===== verification/Idempotency.v ===== *)
(** * The idempotency store of the messenger

    The interface [MessageIdempotencyStore] (packages/core/src/messenger-types.ts),
    its contract over what is recorded for a message and a direction, and the
    in-memory implementation (packages/core/src/protocol-outbox.ts). *)

From Stdlib Require Import Strings.Byte.
From S2P Require Import Prelude Bytes CodePoints JsMap OutboxStore OutboxMemory.

Open Scope Z_scope.

Definition RESPONSE_CACHE_BYTES : Z := 256 * 1024.

Inductive MessageDirection : Type := DirIn | DirOut.

#[export] Instance direction_eq_dec : EqDecision MessageDirection.
Proof. solve_decision. Defined.

#[export] Program Instance direction_countable : Countable MessageDirection :=
  inj_countable' (fun d => match d with DirIn => true | DirOut => false end)
                 (fun b => if b then DirIn else DirOut) _.
Next Obligation. by intros []. Qed.

Inductive IdempotencyCheckResult : Type :=
| NotSeen
| Seen (cachedResponse : option bytes).

(** A response that fits the cache is stored inline, others are mark-only. *)
Definition cacheable (response : option bytes) : option bytes :=
  match response with
  | Some r => if byteLength r <=? RESPONSE_CACHE_BYTES then Some r else None
  | None => None
  end.

(** ** The interface *)

Class IdempotencyStore (I : Type) : Type := {
  id_check : I -> messageKey -> MessageDirection -> IdempotencyCheckResult;
  id_record : I -> messageKey -> MessageDirection -> option bytes -> Z -> I;
  id_pruneOlderThan : I -> Z -> Z * I }.

(** The contract, by what is recorded for a message and a direction: the cached
    response, if it was small enough, and the time. *)
Class IdempotencyLaws (I : Type) `{!IdempotencyStore I} : Type := {
  id_ok : I -> Prop;
  id_lookup : I -> messageKey -> MessageDirection -> option (option bytes * Z);
  law_check i k d :
    id_ok i -> wfKey k = true ->
    id_check i k d = match id_lookup i k d with Some (cached, _) => Seen cached | None => NotSeen end;
  law_record i k d response now :
    id_ok i -> wfKey k = true ->
    id_ok (id_record i k d response now) /\
    forall k' d', wfKey k' = true ->
      id_lookup (id_record i k d response now) k' d'
        = if bool_decide ((k', d') = (k, d) /\ id_lookup i k d = None) then Some (cacheable response, now)
          else id_lookup i k' d';
  law_prune i ts :
    id_ok i ->
    id_ok (id_pruneOlderThan i ts).2 /\
    forall k d, wfKey k = true ->
      id_lookup (id_pruneOlderThan i ts).2 k d
        = match id_lookup i k d with
          | Some (cached, t) => if t <? ts then None else Some (cached, t)
          | None => None
          end }.

(** ** In memory *)

Module InMemoryIdempotency.

Record IdempotencyRecord : Type := { responseBlob : option bytes; ts : Z }.

Notation store := (jsMap jsstr IdempotencyRecord).

Definition directionText (d : MessageDirection) : jsstr :=
  match d with DirIn => js "in" | DirOut => js "out" end.

Definition key (k : messageKey) (d : MessageDirection) : jsstr := inflightKey k ++ nulUnit :: directionText d.

Definition check (records : store) (k : messageKey) (d : MessageDirection) : IdempotencyCheckResult :=
  match mapGet (key k d) records with
  | None => NotSeen
  | Some rec => Seen (responseBlob rec)
  end.

Definition record (records : store) (k : messageKey) (d : MessageDirection) (response : option bytes) (now : Z) : store :=
  if mapHas (key k d) records then records
  else
    let blob :=
      match response with
      | Some r => if byteLength r <=? RESPONSE_CACHE_BYTES then Some r else None
      | None => None
      end in
    mapSet (key k d) {| responseBlob := blob; ts := now |} records.

Definition pruneOlderThan (records : store) (tsMs : Z) : Z * store :=
  let old rec := ts rec <? tsMs in
  (js_length (List.filter old (mapValues records)), deleteWhere old records).

#[export] Instance idempotencyStore : IdempotencyStore store := {|
  id_check := check; id_record := record; id_pruneOlderThan := pruneOlderThan |}.

Lemma key_inj k d k' d' : wfKey k = true -> wfKey k' = true -> key k d = key k' d' -> k = k' /\ d = d'.
Proof.
  intros Hk Hk' E. unfold key in E. destruct d, d'; simpl in E.
  - apply app_inv_tail in E. by apply inflightKey_inj in E.
  - apply (f_equal (@rev codeUnit)) in E. rewrite !rev_app_distr in E. by simplify_eq/=.
  - apply (f_equal (@rev codeUnit)) in E. rewrite !rev_app_distr in E. by simplify_eq/=.
  - apply app_inv_tail in E. by apply inflightKey_inj in E.
Qed.

#[export] Program Instance idempotencyLaws : IdempotencyLaws store := {|
  id_ok := mapOk;
  id_lookup m k d := (fun r => (responseBlob r, ts r)) <$> mapGet (key k d) m |}.
Next Obligation. intros m k d Hm Hk. simpl. unfold check. by destruct (mapGet (key k d) m). Qed.
Next Obligation.
  intros m k d response now Hm Hk. simpl. unfold record, mapHas.
  destruct (mapGet (key k d) m) as [r|] eqn:E; simpl.
  - split; [done|]. intros k' d' Hk'. by rewrite bool_decide_false by (by intros [_ ?]).
  - split; [by apply mapOk_mapSet|]. intros k' d' Hk'. case_bool_decide as Hkd.
    + destruct Hkd as [[= -> ->] _]. by rewrite mapGet_mapSet.
    + rewrite mapGet_mapSet_ne; [done|]. intros [-> ->]%key_inj; [|done..]. tauto.
Qed.
Next Obligation.
  intros m t Hm. simpl. rewrite deleteWhere_filter by done. split; [by apply mapOk_filter|]. intros k d Hk.
  rewrite mapGet_filter by done. simpl. destruct (mapGet (key k d) m) as [r|]; simpl; [|done].
  by destruct (ts r <? t).
Qed.
End InMemoryIdempotency.
