(* ===== verification/IdempotencySqlite.v ===== *)
(** * The SQLite idempotency store

    packages/node-store/src/message-idempotency-store.ts, over the table of
    packages/node-ui/src/db.ts, and that it keeps the contract of the interface. *)

From S2P Require Import Prelude Bytes CodePoints OutboxStore Idempotency.

Open Scope Z_scope.

Module SqliteIdempotency.

Record IdempotencyRow : Type := {
  response_blob : option bytes;
  response_size : Z;
  row_ts : Z }.

(** The table, by its primary key. *)
Notation store := (gmap (messageKey * MessageDirection) IdempotencyRow).

Definition check (table : store) (k : messageKey) (d : MessageDirection) : IdempotencyCheckResult :=
  match table !! (k, d) with
  | None => NotSeen
  | Some row => Seen (response_blob row)
  end.

(** [INSERT ... ON CONFLICT (...) DO NOTHING] *)
Definition record (table : store) (k : messageKey) (d : MessageDirection) (response : option bytes) (now : Z) : store :=
  let responseSize := default 0 (byteLength <$> response) in
  let blob :=
    match response with
    | Some r => if byteLength r <=? RESPONSE_CACHE_BYTES then Some r else None
    | None => None
    end in
  match table !! (k, d) with
  | Some _ => table
  | None => <[(k, d) := {| response_blob := blob; response_size := responseSize; row_ts := now |}]> table
  end.

Definition pruneOlderThan (table : store) (tsMs : Z) : Z * store :=
  let kept := filter (fun kr => (row_ts kr.2 <? tsMs) = false) table in
  (Z.of_nat (size table) - Z.of_nat (size kept), kept).

#[export] Instance idempotencyStore : IdempotencyStore store := {|
  id_check := check; id_record := record; id_pruneOlderThan := pruneOlderThan |}.

#[export] Program Instance idempotencyLaws : IdempotencyLaws store := {|
  id_ok _ := True;
  id_lookup t k d := (fun r => (response_blob r, row_ts r)) <$> t !! (k, d) |}.
Next Obligation. intros t k d _ Hk. simpl. unfold check. by destruct (t !! (k, d)). Qed.
Next Obligation.
  intros t k d response now _ Hk. simpl. split; [done|]. intros k' d' Hk'. unfold record.
  destruct (t !! (k, d)) as [r|] eqn:E; simpl.
  - by rewrite bool_decide_false by (by intros [_ ?]).
  - case_bool_decide as Hkd.
    + destruct Hkd as [[= -> ->] _]. by rewrite lookup_insert_eq.
    + rewrite lookup_insert_ne; [done|]. intros [= -> ->]. tauto.
Qed.
Next Obligation.
  intros t ts _. simpl. split; [done|]. intros k d Hk. rewrite map_lookup_filter. simpl.
  destruct (t !! (k, d)) as [r|]; simpl; [|done]. by destruct (row_ts r <? ts).
Qed.
End SqliteIdempotency.
