(* ===== verification/OutboxDrainer.v ===== *)
(** * The scheduler of outbox retries

    packages/agent/src/p2p/outbox-drainer.ts and the bounded map of
    packages/agent/src/map-with-concurrency.ts: a single-flight drain that loads
    one page of due entries and retries them with a fixed number of workers.
    Between two awaits the code runs without interruption, so each such segment
    is one function here, and interleavings are sequences of their calls
    ([drainSteps]). *)

From S2P Require Import Prelude Bytes CodePoints OutboxStore.

Open Scope Z_scope.

Definition DEFAULT_OUTBOX_DRAIN_BATCH_SIZE : Z := 100.
Definition DEFAULT_OUTBOX_DRAIN_CONCURRENCY : Z := 4.
Definition DEFAULT_OUTBOX_DRAIN_MAX_PAYLOAD_BYTES : Z := 10 * 1024 * 1024.

Record OutboxDrainOptions : Type := {
  do_batchSize : option Z;
  do_concurrency : option Z;
  do_maxPayloadBytes : option Z }.

Record ResolvedOutboxDrainerOptions : Type := {
  batchSize : Z;
  concurrency : Z;
  drainMaxPayloadBytes : Z }.

Definition positiveInteger (value : option Z) (fallback : Z) (name : string) : result string Z :=
  let resolved := default fallback value in
  throw (String.append "OutboxDrainer " (String.append name " must be a positive integer"))%string
    when ((MAX_SAFE_INTEGER <? resolved) || (resolved <=? 0));
  Ok resolved.

Definition resolveOutboxDrainerOptions (options : OutboxDrainOptions) : result string ResolvedOutboxDrainerOptions :=
  let* b := positiveInteger (do_batchSize options) DEFAULT_OUTBOX_DRAIN_BATCH_SIZE "batchSize" in
  let* c := positiveInteger (do_concurrency options) DEFAULT_OUTBOX_DRAIN_CONCURRENCY "concurrency" in
  let* p := positiveInteger (do_maxPayloadBytes options) DEFAULT_OUTBOX_DRAIN_MAX_PAYLOAD_BYTES "maxPayloadBytes" in
  Ok {| batchSize := b; concurrency := c; drainMaxPayloadBytes := p |}.

Definition optionsOk (o : ResolvedOutboxDrainerOptions) : Prop :=
  0 < batchSize o <= MAX_SAFE_INTEGER /\ 0 < concurrency o <= MAX_SAFE_INTEGER /\
  0 < drainMaxPayloadBytes o <= MAX_SAFE_INTEGER.

Lemma positiveInteger_Ok value fallback name n : positiveInteger value fallback name = Ok n -> 0 < n <= MAX_SAFE_INTEGER.
Proof.
  unfold positiveInteger. intros [H [= <-]]%throw_if_Ok. apply orb_false_iff in H as [H1 H2]. lia.
Qed.

Lemma resolveOptions_Ok options o : resolveOutboxDrainerOptions options = Ok o -> optionsOk o.
Proof.
  unfold resolveOutboxDrainerOptions. intros (b & Hb & H)%result_bind_Ok. apply result_bind_Ok in H as (c & Hc & H).
  apply result_bind_Ok in H as (p & Hp & [= <-]). split_and!; simpl; by eapply positiveInteger_Ok.
Qed.

(** ** The bounded map

    [mapWithConcurrency(due, limit, fn)] while it runs: the workers that are
    about to take the next index, the indices whose callback is being awaited,
    and the failures so far.  With [limit >= items.length] the code starts every
    callback at once, which is one worker per item. *)

Record Drain : Type := {
  dn_due : list ProtocolOutboxEntry;
  dn_nextIndex : nat;
  dn_idle : nat;
  dn_running : list nat;
  dn_failures : list string }.

Definition workerCount (limit : Z) (items : nat) : nat := Nat.min (Z.to_nat limit) items.

Definition startMap (limit : Z) (due : list ProtocolOutboxEntry) : Drain :=
  {| dn_due := due; dn_nextIndex := 0; dn_idle := workerCount limit (length due);
     dn_running := []; dn_failures := [] |}.

(** A worker takes [nextIndex++].  It starts the callback of an item, finds that
    the drainer is stopping and goes on, or ends. *)
Definition takeNext (stopping : bool) (d : Drain) : option ProtocolOutboxEntry * Drain :=
  match dn_idle d with
  | O => (None, d)
  | S idle' =>
      let i := dn_nextIndex d in
      match dn_due d !! i with
      | None =>
          (None, {| dn_due := dn_due d; dn_nextIndex := S i; dn_idle := idle';
                    dn_running := dn_running d; dn_failures := dn_failures d |})
      | Some entry =>
          if stopping then
            (None, {| dn_due := dn_due d; dn_nextIndex := S i; dn_idle := dn_idle d;
                      dn_running := dn_running d; dn_failures := dn_failures d |})
          else
            (Some entry, {| dn_due := dn_due d; dn_nextIndex := S i; dn_idle := idle';
                            dn_running := i :: dn_running d; dn_failures := dn_failures d |})
      end
  end.

(** The callback of an index settles; its worker takes the next index. *)
Definition callbackDone (i : nat) (failure : option string) (d : Drain) : Drain :=
  {| dn_due := dn_due d; dn_nextIndex := dn_nextIndex d; dn_idle := S (dn_idle d);
     dn_running := List.filter (fun j => negb (Nat.eqb i j)) (dn_running d);
     dn_failures := match failure with Some e => dn_failures d ++ [e] | None => dn_failures d end |}.

Definition mapSettled (d : Drain) : bool :=
  Nat.eqb (dn_idle d) 0 && Nat.eqb (length (dn_running d)) 0.

(** ** The drainer *)

Inductive Activity : Type :=
| Scheduled (now : Z)
| Draining (d : Drain).

Record OutboxDrainer : Type := {
  dr_options : ResolvedOutboxDrainerOptions;
  dr_active : option Activity;
  dr_stopping : bool;
  dr_claimedEntries : Z;
  dr_claimedBytes : Z;
  dr_lastBatchEntries : Z;
  dr_lastBatchPayloadBytes : Z;
  dr_skippedOversizedEntriesTotal : Z;
  dr_byteBudgetDeferralsTotal : Z }.

Definition newDrainer (options : OutboxDrainOptions) : result string OutboxDrainer :=
  let* resolved := resolveOutboxDrainerOptions options in
  Ok {| dr_options := resolved; dr_active := None; dr_stopping := false; dr_claimedEntries := 0;
        dr_claimedBytes := 0; dr_lastBatchEntries := 0; dr_lastBatchPayloadBytes := 0;
        dr_skippedOversizedEntriesTotal := 0; dr_byteBudgetDeferralsTotal := 0 |}.

Definition with_active (dr : OutboxDrainer) (a : option Activity) : OutboxDrainer :=
  {| dr_options := dr_options dr; dr_active := a; dr_stopping := dr_stopping dr;
     dr_claimedEntries := dr_claimedEntries dr; dr_claimedBytes := dr_claimedBytes dr;
     dr_lastBatchEntries := dr_lastBatchEntries dr; dr_lastBatchPayloadBytes := dr_lastBatchPayloadBytes dr;
     dr_skippedOversizedEntriesTotal := dr_skippedOversizedEntriesTotal dr;
     dr_byteBudgetDeferralsTotal := dr_byteBudgetDeferralsTotal dr |}.

Definition tick (now : Z) (dr : OutboxDrainer) : OutboxDrainer :=
  if dr_stopping dr then dr
  else match dr_active dr with
       | Some _ => dr
       | None => with_active dr (Some (Scheduled now))
       end.

Definition stop (dr : OutboxDrainer) : OutboxDrainer :=
  {| dr_options := dr_options dr; dr_active := dr_active dr; dr_stopping := true;
     dr_claimedEntries := dr_claimedEntries dr; dr_claimedBytes := dr_claimedBytes dr;
     dr_lastBatchEntries := dr_lastBatchEntries dr; dr_lastBatchPayloadBytes := dr_lastBatchPayloadBytes dr;
     dr_skippedOversizedEntriesTotal := dr_skippedOversizedEntriesTotal dr;
     dr_byteBudgetDeferralsTotal := dr_byteBudgetDeferralsTotal dr |}.

Record OutboxDrainStats : Type := {
  ds_batchSize : Z;
  ds_maxPayloadBytes : Z;
  ds_claimedEntries : Z;
  ds_claimedBytes : Z;
  ds_lastBatchEntries : Z;
  ds_lastBatchPayloadBytes : Z;
  ds_skippedOversizedEntriesTotal : Z;
  ds_byteBudgetDeferralsTotal : Z }.

Definition getStats (dr : OutboxDrainer) : OutboxDrainStats :=
  {| ds_batchSize := batchSize (dr_options dr); ds_maxPayloadBytes := drainMaxPayloadBytes (dr_options dr);
     ds_claimedEntries := dr_claimedEntries dr; ds_claimedBytes := dr_claimedBytes dr;
     ds_lastBatchEntries := dr_lastBatchEntries dr; ds_lastBatchPayloadBytes := dr_lastBatchPayloadBytes dr;
     ds_skippedOversizedEntriesTotal := dr_skippedOversizedEntriesTotal dr;
     ds_byteBudgetDeferralsTotal := dr_byteBudgetDeferralsTotal dr |}.

Definition drainBudget (dr : OutboxDrainer) : ProtocolOutboxPageBudget :=
  {| maxEntries := batchSize (dr_options dr); maxPayloadBytes := drainMaxPayloadBytes (dr_options dr) |}.

(** The first segment of [drain]: load a page, check the budgets, claim it and
    start the workers.  [Err] is a rejected drain. *)
Definition drainStart (loadDue : Z -> ProtocolOutboxPageBudget -> result string ProtocolOutboxPage)
    (dr : OutboxDrainer) : result string OutboxDrainer * OutboxDrainer :=
  match dr_active dr with
  | Some (Scheduled now) =>
      if dr_stopping dr then (Ok (with_active dr None), with_active dr None)
      else
        let outcome :=
          let* page := loadDue now (drainBudget dr) in
          let due := pg_entries page in
          let payloadBytes := payloadSum due in
          throw "Outbox store violated the count or payload-byte page budget"%string
            when ((batchSize (dr_options dr) <? js_length due) || (drainMaxPayloadBytes (dr_options dr) <? payloadBytes));
          throw "Outbox store returned invalid page outcome metadata"%string
            when ((MAX_SAFE_INTEGER <? pg_skippedOversizedEntries page) || (pg_skippedOversizedEntries page <? 0));
          Ok {| dr_options := dr_options dr;
                dr_active := Some (Draining (startMap (concurrency (dr_options dr)) due));
                dr_stopping := false;
                dr_claimedEntries := js_length due; dr_claimedBytes := payloadBytes;
                dr_lastBatchEntries := js_length due; dr_lastBatchPayloadBytes := payloadBytes;
                dr_skippedOversizedEntriesTotal :=
                  dr_skippedOversizedEntriesTotal dr + pg_skippedOversizedEntries page;
                dr_byteBudgetDeferralsTotal :=
                  dr_byteBudgetDeferralsTotal dr + if pg_byteBudgetExhausted page then 1 else 0 |} in
        (outcome, match outcome with Ok dr' => dr' | Err _ => with_active dr None end)
  | _ => (Ok dr, dr)
  end.

(** The end of [drain]: release the claim; failed workers reject it. *)
Definition drainSettle (dr : OutboxDrainer) : result (list string) unit * OutboxDrainer :=
  match dr_active dr with
  | Some (Draining d) =>
      if mapSettled d then
        (match dn_failures d with [] => Ok tt | f => Err f end,
         {| dr_options := dr_options dr; dr_active := None; dr_stopping := dr_stopping dr;
            dr_claimedEntries := 0; dr_claimedBytes := 0;
            dr_lastBatchEntries := dr_lastBatchEntries dr; dr_lastBatchPayloadBytes := dr_lastBatchPayloadBytes dr;
            dr_skippedOversizedEntriesTotal := dr_skippedOversizedEntriesTotal dr;
            dr_byteBudgetDeferralsTotal := dr_byteBudgetDeferralsTotal dr |})
      else (Ok tt, dr)
  | _ => (Ok tt, dr)
  end.

(** ** Interleavings of a map *)

(** [drainSteps n b d started b' d']: [n] moves of the workers and callbacks of
    [d] lead to [d'], having started the callbacks of [started], in order;
    [stopping] may turn from [b] to [b'] on the way. *)
Inductive drainSteps : nat -> bool -> Drain -> list ProtocolOutboxEntry -> bool -> Drain -> Prop :=
| steps_refl b d : drainSteps 0 b d [] b d
| steps_take n b d started b' d' e d1 :
    (0 < dn_idle d)%nat -> takeNext b d = (e, d1) -> drainSteps n b d1 started b' d' ->
    drainSteps (S n) b d (option_list e ++ started) b' d'
| steps_done n b d started b' d' i f :
    i ∈ dn_running d -> drainSteps n b (callbackDone i f d) started b' d' -> drainSteps (S n) b d started b' d'
| steps_stop n d started b' d' : drainSteps n true d started b' d' -> drainSteps n false d started b' d'.

(** Workers in use never exceed [workers]; indices in progress are distinct and
    already taken; a worker ends only after the last item was taken. *)
Record drainOk (workers : nat) (d : Drain) : Prop := {
  ok_workers : (dn_idle d + length (dn_running d) <= workers)%nat;
  ok_nodup : NoDup (dn_running d);
  ok_taken : Forall (fun i => i < dn_nextIndex d)%nat (dn_running d);
  ok_exits : (dn_idle d + length (dn_running d) < workers -> length (dn_due d) < dn_nextIndex d)%nat;
  ok_bound : (dn_nextIndex d + dn_idle d + length (dn_running d) <= length (dn_due d) + workers \/
              dn_nextIndex d <= length (dn_due d))%nat }.

Lemma length_filter_ne i l : NoDup l -> i ∈ l -> S (length (List.filter (fun j => negb (Nat.eqb i j)) l)) = length l.
Proof.
  induction 1 as [|x l Hx Hl IH]; intros Hin; [by apply not_elem_of_nil in Hin|]. simpl.
  apply elem_of_cons in Hin as [->|Hin].
  - rewrite Nat.eqb_refl. simpl. f_equal. clear -Hx. induction l as [|y l IH]; simpl; [done|].
    apply not_elem_of_cons in Hx as [Hy Hx]. rewrite (proj2 (Nat.eqb_neq _ _)) by done. simpl. by rewrite IH.
  - rewrite (proj2 (Nat.eqb_neq _ _)) by (intros ->; done). simpl. by rewrite IH.
Qed.

Lemma startMap_ok limit due : drainOk (workerCount limit (length due)) (startMap limit due).
Proof. split; simpl; [lia|constructor|constructor|lia|lia]. Qed.

Lemma takeNext_ok w b d e d' : drainOk w d -> (0 < dn_idle d)%nat -> takeNext b d = (e, d') -> drainOk w d'.
Proof.
  intros [H1 H2 H3 H4 H5] Hi. unfold takeNext. destruct (dn_idle d) as [|idle] eqn:Ei; [lia|].
  destruct (dn_due d !! dn_nextIndex d) as [x|] eqn:Ex; [destruct b|]; intros [= <- <-].
  - apply lookup_lt_Some in Ex. split; simpl; [lia|done| |lia|lia]. eapply Forall_impl; [exact H3|]. simpl. lia.
  - apply lookup_lt_Some in Ex. split; simpl; [lia| | |lia|lia].
    + constructor; [|done]. intros Hin. rewrite Forall_forall in H3. specialize (H3 _ Hin). simpl in H3. lia.
    + constructor; [lia|]. eapply Forall_impl; [exact H3|]. simpl. lia.
  - apply lookup_ge_None in Ex. split; simpl; [lia|done| |lia|lia]. eapply Forall_impl; [exact H3|]. simpl. lia.
Qed.

Lemma callbackDone_ok w i f d : drainOk w d -> i ∈ dn_running d -> drainOk w (callbackDone i f d).
Proof.
  intros [H1 H2 H3 H4 H5] Hi. pose proof (length_filter_ne i _ H2 Hi). unfold callbackDone. split; simpl; [lia| | |lia|lia].
  - by apply NoDup_ListNoDup, List.NoDup_filter, NoDup_ListNoDup.
  - rewrite Forall_forall in H3 |- *. intros j [Hj _]%elem_of_js_filter. by apply H3.
Qed.

(** The moves still possible. *)
Definition drainMeasure (w : nat) (d : Drain) : nat :=
  (2 * (length (dn_due d) + w - dn_nextIndex d) + length (dn_running d))%nat.

Lemma takeNext_spec w b d e d' :
  drainOk w d -> (0 < dn_idle d)%nat -> takeNext b d = (e, d') ->
  dn_due d' = dn_due d /\ dn_nextIndex d' = S (dn_nextIndex d) /\ (S (drainMeasure w d') <= drainMeasure w d)%nat /\
  option_list e = (if b then [] else take 1 (drop (dn_nextIndex d) (dn_due d))).
Proof.
  intros [H1 H2 H3 H4 H5] Hi. unfold takeNext, drainMeasure. destruct (dn_idle d) as [|idle] eqn:Ei; [lia|].
  destruct (dn_due d !! dn_nextIndex d) as [x|] eqn:Ex; [destruct b|]; intros [= <- <-]; simpl.
  - apply lookup_lt_Some in Ex. split_and!; [done|done|lia|done].
  - pose proof (lookup_lt_Some _ _ _ Ex). split_and!; [done|done|lia|]. by rewrite (drop_S _ x _ Ex).
  - apply lookup_ge_None in Ex. split_and!; [done|done|lia|]. rewrite drop_ge by done. by destruct b.
Qed.

Lemma drainSteps_spec w n b d started b' d' :
  drainSteps n b d started b' d' -> drainOk w d ->
  drainOk w d' /\ dn_due d' = dn_due d /\ (dn_nextIndex d <= dn_nextIndex d')%nat /\
  (n + drainMeasure w d' <= drainMeasure w d)%nat /\
  (exists j, started = take j (drop (dn_nextIndex d) (dn_due d))) /\
  (b' = false -> b = false /\ started = take (dn_nextIndex d' - dn_nextIndex d) (drop (dn_nextIndex d) (dn_due d))) /\
  (b = true -> started = []).
Proof.
  induction 1 as [b d|n b d started b' d' e d1 Hi Ht Hs IH|n b d started b' d' i f Hi Hs IH|n d started b' d' Hs IH];
    intros Hok.
  - split_and!; [done|done|lia|lia|by exists 0%nat| |done]. intros ->. split; [done|]. by rewrite Nat.sub_diag.
  - destruct (takeNext_spec w b d e d1 Hok Hi Ht) as (Ed & En & Em & Ee).
    destruct (IH (takeNext_ok w b d e d1 Hok Hi Ht)) as (K1 & K2 & K3 & K4 & (j & K5) & K6 & K7).
    rewrite Ed, En in *. rewrite Ee.
    split_and!; [done|done|lia|lia| | |intros ->; rewrite K7 by done; done].
    + destruct b; [exists 0%nat; by rewrite K7|]. exists (S j). rewrite K5.
      replace (S (dn_nextIndex d)) with (dn_nextIndex d + 1)%nat by lia.
      by rewrite <- drop_drop, take_take_drop.
    + intros Hb. destruct (K6 Hb) as [-> K6']. split; [done|]. rewrite K6'.
      replace (S (dn_nextIndex d)) with (dn_nextIndex d + 1)%nat by lia.
      rewrite <- drop_drop, take_take_drop. f_equal. lia.
  - destruct (IH (callbackDone_ok w i f d Hok Hi)) as (K1 & K2 & K3 & K4 & K5 & K6 & K7). simpl in *.
    split_and!; try done. unfold drainMeasure in *. simpl in K4.
    pose proof (length_filter_ne i _ (ok_nodup _ _ Hok) Hi). lia.
  - destruct (IH Hok) as (K1 & K2 & K3 & K4 & K5 & K6 & K7). split_and!; try done.
    intros Hb. by destruct (K6 Hb).
Qed.

(** Some move is enabled until the map has settled. *)
Lemma drain_progress d : mapSettled d = false -> (0 < dn_idle d)%nat \/ exists i, i ∈ dn_running d.
Proof.
  unfold mapSettled. destruct (dn_idle d); [|left; lia]. simpl. destruct (dn_running d) as [|i l]; [done|].
  intros _. right. exists i. left.
Qed.

(** C32: whatever the interleaving, a drain retries the entries of its page in
    order, each at most once, with at most [concurrency] at a time; it ends after
    a bounded number of moves; if it ends without being stopped every entry of
    the page was retried, and once stopped it starts none. *)
Theorem drain_runs_page limit due n b started b' d' :
  0 < limit -> drainSteps n b (startMap limit due) started b' d' ->
  (exists rest, due = started ++ rest) /\
  Z.of_nat (length (dn_running d')) <= limit /\
  (n <= 4 * length due)%nat /\
  (mapSettled d' = true -> b' = false -> started = due) /\
  (b = true -> started = []).
Proof.
  intros Hl Hs. set (w := workerCount limit (length due)).
  destruct (drainSteps_spec w _ _ _ _ _ _ Hs (startMap_ok limit due)) as (Hok & Hd & Hn & Hm & (j & Hj) & Hf & Hb).
  simpl in *. rewrite drop_0 in *. unfold drainMeasure in Hm. simpl in Hm.
  assert (w <= length due)%nat by (unfold w, workerCount; lia).
  split_and!; [| |lia| |done].
  - exists (drop j due). by rewrite Hj, take_drop.
  - pose proof (ok_workers _ _ Hok). unfold w, workerCount in *. lia.
  - intros Hset Hb'. destruct (Hf Hb') as [_ ->]. unfold mapSettled in Hset. apply andb_true_iff in Hset as [E1 E2].
    apply Nat.eqb_eq in E1, E2. apply take_ge.
    destruct (decide (length due = 0%nat)); [lia|].
    pose proof (ok_exits _ _ Hok) as Hx. rewrite Hd in Hx. unfold w, workerCount in Hx. lia.
Qed.

(** Two entries, one worker: the first is retried, and its callback settles. *)
Definition exEntry (id : string) : ProtocolOutboxEntry :=
  {| oe_peer := js "B"; oe_protocol := js "/dkg/chat"; oe_messageId := js id; oe_payload := []; oe_attempts := 1;
     oe_firstFailureAt := 0; oe_lastAttemptAt := 0; oe_nextAttemptAt := 5000; oe_lastError := EmptyString |}.

Definition exDue : list ProtocolOutboxEntry := [exEntry "m1"; exEntry "m2"].

Lemma drain_runs_page_witness :
  let d1 := (takeNext false (startMap 1 exDue)).2 in
  let d2 := callbackDone 0 None d1 in
  (exists rest, exDue = [exEntry "m1"] ++ rest) /\ Z.of_nat (length (dn_running d2)) <= 1 /\ (2 <= 4 * length exDue)%nat /\
  (mapSettled d2 = true -> false = false -> [exEntry "m1"] = exDue) /\ (false = true -> [exEntry "m1"] = []).
Proof.
  apply (drain_runs_page 1 exDue 2 false [exEntry "m1"] false); [reflexivity|].
  apply (steps_take 1 false (startMap 1 exDue) [] false _ (Some (exEntry "m1")) (takeNext false (startMap 1 exDue)).2);
    [apply Nat.lt_0_1|reflexivity|].
  apply (steps_done 0 _ _ [] _ _ 0 None); [apply list_elem_of_singleton; reflexivity|apply steps_refl].
Defined.
