(* ===== verification/Messenger.v ===== *)
(** * The messenger

    packages/agent/src/p2p/messenger.ts: reliable sends with a durable outbox,
    and registered handlers behind a deduplicating wrapper.  An [async] method
    runs without interruption between two awaits; each such segment is a
    function here, and a suspended activation is a [Task].  The router, the
    application handlers, the validators and the peer resolver are outside: their
    answers are arguments of the segment that resumes with them.  The stores are
    any instances of the interfaces. *)

From Stdlib Require Import Strings.Ascii.
From S2P Require Import Prelude Bytes CodePoints JsString OutboxStore OutboxMemory ProtocolOutbox Idempotency OutboxDrainer.

Open Scope Z_scope.

(** ** Texts *)

(** A string as the bytes of its encoding, for error texts. *)
Definition toText (s : jsstr) : string :=
  String.string_of_list_ascii ((fun b => ascii_of_N (Z.to_N b)) <$> utf8 s).

Definition RESPONSE_GONE_BYTES : bytes := byte_of_ascii <$> String.list_ascii_of_string "RESPONSE_GONE".

Definition RELIABLE_ENVELOPE_VERSION : Z := 1.
Definition OUTBOX_STALL_THRESHOLD : Z := 5.
Definition DHT_WALK_RATE_LIMIT_MS : Z := 5 * 60 * 1000.
Definition DEFAULT_SLO_WINDOW_SAMPLES : Z := 1000.

Definition DHT_WALK_TRIGGER_ERRORS : list string :=
  ["no valid addresses"; "no_reservation"; "all multiaddr dials failed"]%string.

Definition shouldTriggerDhtWalk (errMsg : string) : bool :=
  let lower := toLowerCase errMsg in
  existsb (fun needle => includes lower needle) DHT_WALK_TRIGGER_ERRORS.

(** [isRecoverableSendError] of packages/core/src/protocol-router.ts. *)
Definition isRecoverableSendError (errMsg : string) : bool :=
  let msg := toLowerCase errMsg in
  includes msg "closed" ||
  includes msg "reset" ||
  includes msg "stream returned in closed state" ||
  includes msg "econnreset" ||
  includes msg "etimedout" ||
  includes msg "send timeout" ||
  includes msg "operation timed out" ||
  includes msg "operation was aborted due to timeout" ||
  includes msg "econnrefused" ||
  includes msg "epipe" ||
  includes msg "aborted" ||
  includes msg "no valid addresses" ||
  (includes msg "sync responder" && (includes msg "queue full" || includes msg "queue wait exceeded")) ||
  includes msg "all multiaddr dials failed" ||
  includes msg "no_reservation" ||
  includes msg "no reservation" ||
  includes msg "protocol selection failed" ||
  includes msg "could not negotiate".

(** What a send can fail with: an error of the transport, or a response that
    the validator of the protocol refuses. *)
Inductive SendError : Type :=
| TransportError (message : string)
| MessengerResponseRejectedError (message : string).

Definition errorMessage (e : SendError) : string :=
  match e with TransportError m | MessengerResponseRejectedError m => m end.

Definition isRecoverableMessengerSendError (err : SendError) (errMsg : string) : bool :=
  match err with
  | MessengerResponseRejectedError _ => true
  | TransportError _ => isRecoverableSendError errMsg || shouldTriggerDhtWalk errMsg
  end.

Definition rejected (protocolId : jsstr) (reason : string) : SendError :=
  MessengerResponseRejectedError
    (String.append "[Messenger] invalid response on " (String.append (toText protocolId) (String.append ": " reason))).

(** [`${protocolId}|${peerId}|${messageId}`] *)
Definition sloKey (protocolId peerId messageId : jsstr) : jsstr :=
  protocolId ++ js "|" ++ peerId ++ js "|" ++ messageId.

Definition keyPeer (k : messageKey) : jsstr := k.1.1.
Definition keyProtocol (k : messageKey) : jsstr := k.1.2.
Definition keyMessageId (k : messageKey) : jsstr := k.2.
Definition sloKeyOf (k : messageKey) : jsstr := sloKey (keyProtocol k) (keyPeer k) (keyMessageId k).

(** ** Messages and results *)

Record ReliableEnvelopeMsg : Type := {
  env_messageId : jsstr;
  env_version : Z;
  env_tsMs : Z;
  env_payload : bytes }.

Inductive FramedFailurePolicy : Type := DurableOutbox | RequestOwned.

Record RequestOwnedSendOpts : Type := {
  opts_messageId : option jsstr;
  opts_recoverPeerAfterFailure : option bool }.

Inductive ReliableSendResult : Type :=
| Delivered (response : bytes) (attempts : Z) (messageId : jsstr)
| Queued (attempts : Z) (messageId : jsstr) (error : string) (nextAttemptAtMs : Z)
| InFlight (messageId : jsstr).

Inductive Settlement : Type :=
| Returned (r : ReliableSendResult)
| Threw (error : string).

(** ** Tasks *)

Inductive Task : Type :=
| SendTask (policy : FramedFailurePolicy) (k : messageKey) (envelope : bytes) (recover : bool)
| SendRecovering (k : messageKey) (error : string) (triggered : bool) (walk : option nat)
| RetryTask (index : nat) (k : messageKey) (payload : bytes)
| RetryResponding (index : nat) (k : messageKey) (response : bytes)
| HandlerTask (k : messageKey) (payload : bytes)
| HandlerSettled (k : messageKey).

(** What [router.send] settles with. *)
Inductive RouterOutcome : Type :=
| RouterResponse (response : bytes)
| RouterError (message : string).

(** ** State *)

Record Slo : Type := {
  firstAttemptAt : gmap jsstr Z;
  sloLatencies : gmap jsstr (list Z);
  sloCounters : gmap jsstr (Z * Z) }.

Record Dht : Type := {
  lastDhtWalkAt : gmap jsstr Z;
  dhtWalksInFlight : gmap jsstr nat;
  nextWalk : nat }.

(** Callbacks by protocol; a handler is an id, a predicate may throw. *)
Record Tables : Type := {
  handlers : gmap jsstr nat;
  deliveredResponseClassifiers : gmap jsstr (bytes -> result string bool);
  responseAcceptanceValidators : gmap jsstr (bytes -> result string bool);
  outboxResponseHandlers : gset jsstr }.

Section Messenger.
Context {S I : Type} `{!OutboxStore S} `{!IdempotencyStore I}.

Record Messenger : Type := {
  ms_outbox : ProtocolOutboxAttempts S;
  ms_idem : I;
  ms_slo : Slo;
  ms_dht : Dht;
  ms_tables : Tables;
  ms_inboundInFlight : gmap jsstr nat;
  ms_promises : gmap nat (result string bytes);
  ms_tasks : gmap nat Task;
  ms_nextTask : nat;
  ms_drainer : OutboxDrainer;
  ms_sloWindowSamples : Z;
  ms_hasResolvePeer : bool }.

Definition set_outbox (m : Messenger) (o : ProtocolOutboxAttempts S) : Messenger :=
  {| ms_outbox := o; ms_idem := ms_idem m; ms_slo := ms_slo m; ms_dht := ms_dht m; ms_tables := ms_tables m;
     ms_inboundInFlight := ms_inboundInFlight m; ms_promises := ms_promises m; ms_tasks := ms_tasks m;
     ms_nextTask := ms_nextTask m; ms_drainer := ms_drainer m;
     ms_sloWindowSamples := ms_sloWindowSamples m; ms_hasResolvePeer := ms_hasResolvePeer m |}.

Definition set_idem (m : Messenger) (i : I) : Messenger :=
  {| ms_outbox := ms_outbox m; ms_idem := i; ms_slo := ms_slo m; ms_dht := ms_dht m; ms_tables := ms_tables m;
     ms_inboundInFlight := ms_inboundInFlight m; ms_promises := ms_promises m; ms_tasks := ms_tasks m;
     ms_nextTask := ms_nextTask m; ms_drainer := ms_drainer m;
     ms_sloWindowSamples := ms_sloWindowSamples m; ms_hasResolvePeer := ms_hasResolvePeer m |}.

Definition set_slo (m : Messenger) (s : Slo) : Messenger :=
  {| ms_outbox := ms_outbox m; ms_idem := ms_idem m; ms_slo := s; ms_dht := ms_dht m; ms_tables := ms_tables m;
     ms_inboundInFlight := ms_inboundInFlight m; ms_promises := ms_promises m; ms_tasks := ms_tasks m;
     ms_nextTask := ms_nextTask m; ms_drainer := ms_drainer m;
     ms_sloWindowSamples := ms_sloWindowSamples m; ms_hasResolvePeer := ms_hasResolvePeer m |}.

Definition set_dht (m : Messenger) (d : Dht) : Messenger :=
  {| ms_outbox := ms_outbox m; ms_idem := ms_idem m; ms_slo := ms_slo m; ms_dht := d; ms_tables := ms_tables m;
     ms_inboundInFlight := ms_inboundInFlight m; ms_promises := ms_promises m; ms_tasks := ms_tasks m;
     ms_nextTask := ms_nextTask m; ms_drainer := ms_drainer m;
     ms_sloWindowSamples := ms_sloWindowSamples m; ms_hasResolvePeer := ms_hasResolvePeer m |}.

Definition set_tables (m : Messenger) (t : Tables) : Messenger :=
  {| ms_outbox := ms_outbox m; ms_idem := ms_idem m; ms_slo := ms_slo m; ms_dht := ms_dht m; ms_tables := t;
     ms_inboundInFlight := ms_inboundInFlight m; ms_promises := ms_promises m; ms_tasks := ms_tasks m;
     ms_nextTask := ms_nextTask m; ms_drainer := ms_drainer m;
     ms_sloWindowSamples := ms_sloWindowSamples m; ms_hasResolvePeer := ms_hasResolvePeer m |}.

Definition set_inbound (m : Messenger) (i : gmap jsstr nat) (p : gmap nat (result string bytes)) : Messenger :=
  {| ms_outbox := ms_outbox m; ms_idem := ms_idem m; ms_slo := ms_slo m; ms_dht := ms_dht m; ms_tables := ms_tables m;
     ms_inboundInFlight := i; ms_promises := p; ms_tasks := ms_tasks m;
     ms_nextTask := ms_nextTask m; ms_drainer := ms_drainer m;
     ms_sloWindowSamples := ms_sloWindowSamples m; ms_hasResolvePeer := ms_hasResolvePeer m |}.

Definition set_tasks (m : Messenger) (t : gmap nat Task) (next : nat) : Messenger :=
  {| ms_outbox := ms_outbox m; ms_idem := ms_idem m; ms_slo := ms_slo m; ms_dht := ms_dht m; ms_tables := ms_tables m;
     ms_inboundInFlight := ms_inboundInFlight m; ms_promises := ms_promises m; ms_tasks := t;
     ms_nextTask := next; ms_drainer := ms_drainer m;
     ms_sloWindowSamples := ms_sloWindowSamples m; ms_hasResolvePeer := ms_hasResolvePeer m |}.

Definition set_drainer (m : Messenger) (d : OutboxDrainer) : Messenger :=
  {| ms_outbox := ms_outbox m; ms_idem := ms_idem m; ms_slo := ms_slo m; ms_dht := ms_dht m; ms_tables := ms_tables m;
     ms_inboundInFlight := ms_inboundInFlight m; ms_promises := ms_promises m; ms_tasks := ms_tasks m;
     ms_nextTask := ms_nextTask m; ms_drainer := d;
     ms_sloWindowSamples := ms_sloWindowSamples m; ms_hasResolvePeer := ms_hasResolvePeer m |}.

(** A new activation is suspended; one that goes on waiting keeps its id. *)
Definition spawn (m : Messenger) (t : Task) : nat * Messenger :=
  (ms_nextTask m, set_tasks m (<[ms_nextTask m := t]> (ms_tasks m)) (Datatypes.S (ms_nextTask m))).

Definition become (m : Messenger) (id : nat) (t : Task) : Messenger :=
  set_tasks m (<[id := t]> (ms_tasks m)) (ms_nextTask m).

Definition finish (m : Messenger) (id : nat) : Messenger :=
  set_tasks m (delete id (ms_tasks m)) (ms_nextTask m).

Record MessengerDeps : Type := {
  dep_outboxStore : S;
  dep_idempotencyStore : I;
  dep_backoffs : option (list Z);
  dep_maxAgeMs : option Z;
  dep_outboxDrain : OutboxDrainOptions;
  dep_sloWindowSamples : option Z;
  dep_hasResolvePeer : bool }.

(** The constructor, with both stores given. *)
Definition newMessenger (deps : MessengerDeps) : result string Messenger :=
  let* outbox := newOutbox (dep_outboxStore deps)
                   {| opt_backoffs := dep_backoffs deps; opt_maxAgeMs := dep_maxAgeMs deps |} in
  let* drainer := newDrainer (dep_outboxDrain deps) in
  Ok {| ms_outbox := outbox;
        ms_idem := dep_idempotencyStore deps;
        ms_slo := {| firstAttemptAt := ∅; sloLatencies := ∅; sloCounters := ∅ |};
        ms_dht := {| lastDhtWalkAt := ∅; dhtWalksInFlight := ∅; nextWalk := 0 |};
        ms_tables := {| handlers := ∅; deliveredResponseClassifiers := ∅;
                        responseAcceptanceValidators := ∅; outboxResponseHandlers := ∅ |};
        ms_inboundInFlight := ∅; ms_promises := ∅; ms_tasks := ∅; ms_nextTask := 0;
        ms_drainer := drainer;
        ms_sloWindowSamples := default DEFAULT_SLO_WINDOW_SAMPLES (dep_sloWindowSamples deps);
        ms_hasResolvePeer := dep_hasResolvePeer deps |}.
End Messenger.
Arguments Messenger : clear implicits.
Arguments MessengerDeps : clear implicits.

(** ** Operations *)

Section Operations.
Context {S I : Type} `{!OutboxStore S} `{!IdempotencyStore I}.
(** The protobuf codec of the envelope. *)
Variable encodeReliableEnvelope : ReliableEnvelopeMsg -> bytes.
Variable decodeReliableEnvelope : bytes -> result string ReliableEnvelopeMsg.

Notation Messenger := (Messenger S I).

(** *** Registration *)

Definition setResponseDeliveredClassifier (m : Messenger) (protocolId : jsstr) (classifier : bytes -> result string bool) : Messenger :=
  let t := ms_tables m in
  set_tables m {| handlers := handlers t;
                  deliveredResponseClassifiers := <[protocolId := classifier]> (deliveredResponseClassifiers t);
                  responseAcceptanceValidators := responseAcceptanceValidators t;
                  outboxResponseHandlers := outboxResponseHandlers t |}.

Definition setResponseAcceptanceValidator (m : Messenger) (protocolId : jsstr) (validator : bytes -> result string bool) : Messenger :=
  let t := ms_tables m in
  set_tables m {| handlers := handlers t;
                  deliveredResponseClassifiers := deliveredResponseClassifiers t;
                  responseAcceptanceValidators := <[protocolId := validator]> (responseAcceptanceValidators t);
                  outboxResponseHandlers := outboxResponseHandlers t |}.

Definition setOutboxResponseHandler (m : Messenger) (protocolId : jsstr) : Messenger :=
  let t := ms_tables m in
  set_tables m {| handlers := handlers t;
                  deliveredResponseClassifiers := deliveredResponseClassifiers t;
                  responseAcceptanceValidators := responseAcceptanceValidators t;
                  outboxResponseHandlers := {[ protocolId ]} ∪ outboxResponseHandlers t |}.

Definition set_handlers (m : Messenger) (h : gmap jsstr nat) : Messenger :=
  let t := ms_tables m in
  set_tables m {| handlers := h;
                  deliveredResponseClassifiers := deliveredResponseClassifiers t;
                  responseAcceptanceValidators := responseAcceptanceValidators t;
                  outboxResponseHandlers := outboxResponseHandlers t |}.

Definition register (m : Messenger) (protocolId : jsstr) (handler : nat) : Messenger :=
  set_handlers m (<[protocolId := handler]> (handlers (ms_tables m))).

Definition unregister (m : Messenger) (protocolId : jsstr) : Messenger :=
  set_handlers m (delete protocolId (handlers (ms_tables m))).

(** [registerGroup]: every protocol of a family, or none.  [routerFails] tells
    which registration the router refuses, with what error. *)
Fixpoint hasRegistered (m : Messenger) (ids : list jsstr) (entries : list (jsstr * nat)) : option jsstr :=
  match entries with
  | [] => None
  | (protocolId, _) :: rest =>
      if bool_decide (protocolId ∈ ids) || bool_decide (is_Some (handlers (ms_tables m) !! protocolId)) then Some protocolId
      else hasRegistered m (protocolId :: ids) rest
  end.

Definition disposeGroup (m : Messenger) (entries : list (jsstr * nat)) : Messenger :=
  foldl (fun acc e => if bool_decide (handlers (ms_tables acc) !! e.1 = Some e.2) then unregister acc e.1 else acc) m entries.

Fixpoint registerAll (routerFails : jsstr -> option string) (m : Messenger) (entries : list (jsstr * nat)) : option string * Messenger :=
  match entries with
  | [] => (None, m)
  | (protocolId, handler) :: rest =>
      let m1 := register m protocolId handler in
      match routerFails protocolId with
      | Some error => (Some error, m1)
      | None => registerAll routerFails m1 rest
      end
  end.

Definition registerGroup (routerFails : jsstr -> option string) (m : Messenger) (entries : list (jsstr * nat))
    : result string unit * Messenger :=
  match hasRegistered m [] entries with
  | Some protocolId => (Err (String.append "Messenger protocol already registered: " (toText protocolId)), m)
  | None =>
      match registerAll routerFails m entries with
      | (None, m1) => (Ok tt, m1)
      | (Some error, m1) => (Err error, disposeGroup m1 entries)
      end
  end.

(** *** Responses *)

Definition assertResponseAccepted (m : Messenger) (protocolId : jsstr) (response : bytes) : result SendError bytes :=
  match responseAcceptanceValidators (ms_tables m) !! protocolId with
  | None => Ok response
  | Some validator =>
      match validator response with
      | Ok true => Ok response
      | Ok false => Err (rejected protocolId "validator returned false")
      | Err message => Err (rejected protocolId (String.append "validator threw: " message))
      end
  end.

Definition shouldCountResponseAsDelivered (m : Messenger) (protocolId : jsstr) (response : bytes) : bool :=
  match deliveredResponseClassifiers (ms_tables m) !! protocolId with
  | None => true
  | Some classifier => match classifier response with Ok counts => counts | Err _ => true end
  end.

(** *** SLO bookkeeping *)

Definition set_firstAttemptAt (m : Messenger) (f : gmap jsstr Z) : Messenger :=
  let s := ms_slo m in
  set_slo m {| firstAttemptAt := f; sloLatencies := sloLatencies s; sloCounters := sloCounters s |}.

Definition forgetFirstAttempt (m : Messenger) (k : jsstr) : Messenger :=
  set_firstAttemptAt m (delete k (firstAttemptAt (ms_slo m))).

Definition bumpCounter (m : Messenger) (protocolId : jsstr) (delivered : bool) : Messenger :=
  let s := ms_slo m in
  let '(d, q) := default (0, 0) (sloCounters s !! protocolId) in
  let c := if delivered then (d + 1, q) else (d, q + 1) in
  set_slo m {| firstAttemptAt := firstAttemptAt s; sloLatencies := sloLatencies s;
               sloCounters := <[protocolId := c]> (sloCounters s) |}.

(** [samples.push(latency)], then the oldest beyond the window are dropped. *)
Definition pushSample (window : Z) (samples : list Z) (latency : Z) : list Z :=
  let pushed := samples ++ [latency] in
  if window <? js_length pushed then drop (Z.to_nat (js_length pushed - window)) pushed else pushed.

Definition noteDeliveredForSlo (m : Messenger) (k : messageKey) (response : bytes) (now : Z) : Messenger :=
  let protocolId := keyProtocol k in
  let key := sloKeyOf k in
  if negb (shouldCountResponseAsDelivered m protocolId response) then forgetFirstAttempt m key
  else
    match firstAttemptAt (ms_slo m) !! key with
    | None => bumpCounter m protocolId true
    | Some startedAt =>
        let m1 := forgetFirstAttempt m key in
        let s := ms_slo m1 in
        let samples := pushSample (ms_sloWindowSamples m) (default [] (sloLatencies s !! protocolId)) (now - startedAt) in
        bumpCounter (set_slo m1 {| firstAttemptAt := firstAttemptAt s;
                                   sloLatencies := <[protocolId := samples]> (sloLatencies s);
                                   sloCounters := sloCounters s |}) protocolId true
    end.

(** *** Peer recovery *)

(** The walk to await, if one is running or was started. *)
Definition resolvePeerOnce (m : Messenger) (peerId : jsstr) (now : Z) : option nat * Messenger :=
  if negb (ms_hasResolvePeer m) then (None, m)
  else
    let d := ms_dht m in
    match dhtWalksInFlight d !! peerId with
    | Some activeWalk => (Some activeWalk, m)
    | None =>
        let limited := match lastDhtWalkAt d !! peerId with
                       | Some last => now - last <? DHT_WALK_RATE_LIMIT_MS
                       | None => false
                       end in
        if limited then (None, m)
        else
          let walk := nextWalk d in
          (Some walk,
           set_dht m {| lastDhtWalkAt := <[peerId := now]> (lastDhtWalkAt d);
                        dhtWalksInFlight := <[peerId := walk]> (dhtWalksInFlight d);
                        nextWalk := Datatypes.S walk |})
    end.

(** The [finally] of a walk. *)
Definition walkEnds (m : Messenger) (walk : nat) : Messenger :=
  let d := ms_dht m in
  set_dht m {| lastDhtWalkAt := lastDhtWalkAt d;
               dhtWalksInFlight := filter (fun pw => pw.2 <> walk) (dhtWalksInFlight d);
               nextWalk := nextWalk d |}.

Definition scheduleOutboxPeerRecovery (m : Messenger) (peerId : jsstr) (attempts : Z) (errMsg : string) (now : Z) : Messenger :=
  if (attempts <? OUTBOX_STALL_THRESHOLD) || negb (shouldTriggerDhtWalk errMsg) then m
  else (resolvePeerOnce m peerId now).2.

Definition clearDhtWalkRateLimitIfDrained (m : Messenger) (peerId : jsstr) : Messenger :=
  if hasPendingFor (ms_outbox m) peerId then m
  else
    let d := ms_dht m in
    set_dht m {| lastDhtWalkAt := delete peerId (lastDhtWalkAt d);
                 dhtWalksInFlight := dhtWalksInFlight d; nextWalk := nextWalk d |}.

(** *** Sending *)

Definition release (m : Messenger) (k : messageKey) : Messenger := set_outbox m (endAttempt (ms_outbox m) k).

(** [if (!this.firstAttemptAt.has(sloK)) this.firstAttemptAt.set(sloK, now)] *)
Definition noteFirstAttempt (m : Messenger) (sloK : jsstr) (now : Z) : Messenger :=
  match firstAttemptAt (ms_slo m) !! sloK with
  | Some _ => m
  | None => set_firstAttemptAt m (<[sloK := now]> (firstAttemptAt (ms_slo m)))
  end.

(** [sendFramed] past its abort check, up to its first await: a cached answer,
    an attempt in flight, or a new attempt. *)
Definition beginFramed (m : Messenger) (now : Z) (k : messageKey) (payload : bytes) (recover : bool)
    (policy : FramedFailurePolicy) : (Settlement + nat) * Messenger :=
  let sloK := sloKeyOf k in
  let messageId := keyMessageId k in
  let protocolId := keyProtocol k in
  let m1 := noteFirstAttempt m sloK now in
  match id_check (ms_idem m1) k DirOut with
  | Seen cachedResponse =>
      let cached := default RESPONSE_GONE_BYTES cachedResponse in
      let m2 := if shouldCountResponseAsDelivered m1 protocolId cached then bumpCounter m1 protocolId true else m1 in
      (inl (Returned (Delivered cached 1 messageId)), forgetFirstAttempt m2 sloK)
  | NotSeen =>
      let envelope := encodeReliableEnvelope
        {| env_messageId := messageId; env_version := RELIABLE_ENVELOPE_VERSION; env_tsMs := now; env_payload := payload |} in
      match tryBeginAttempt (ms_outbox m1) k with
      | (false, _) => (inl (Returned (InFlight messageId)), m1)
      | (true, o) =>
          let '(t, m2) := spawn (set_outbox m1 o) (SendTask policy k envelope recover) in
          (inr t, m2)
      end
  end.

(** [sendFramed] up to its first await.  [signal] is the reason of an aborted
    signal. *)
Definition sendFramed (m : Messenger) (now : Z) (uuid : jsstr) (peerId protocolId : jsstr) (payload : bytes)
    (opts : RequestOwnedSendOpts) (policy : FramedFailurePolicy) (signal : option string)
    : (Settlement + nat) * Messenger :=
  match policy, signal with
  | RequestOwned, Some reason => (inl (Threw reason), m)
  | _, _ =>
      let messageId := default uuid (opts_messageId opts) in
      let recover := default true (opts_recoverPeerAfterFailure opts) in
      beginFramed m now (peerId, protocolId, messageId) payload recover policy
  end.

Definition handleDurableRecoverableFailure (m : Messenger) (k : messageKey) (payload : bytes) (errMsg : string) (now : Z)
    : ReliableSendResult * Messenger :=
  let '(entry, o) := enqueueFailure (ms_outbox m) k payload errMsg now in
  let m1 := bumpCounter (set_outbox m o) (keyProtocol k) false in
  let m2 := scheduleOutboxPeerRecovery m1 (keyPeer k) (oe_attempts entry) errMsg now in
  (Queued (oe_attempts entry) (keyMessageId k) errMsg (oe_nextAttemptAt entry), m2).

(** What a delivered response does, on the first attempt and on retries. *)
Definition noteDelivered (m : Messenger) (k : messageKey) (response : bytes) (now : Z) : Messenger :=
  let m1 := set_idem m (id_record (ms_idem m) k DirOut (Some response) now) in
  let m2 := set_outbox m1 (markDelivered (ms_outbox m1) k).2 in
  let m3 := noteDeliveredForSlo m2 k response now in
  clearDhtWalkRateLimitIfDrained m3 (keyPeer k).

(** [sendFramed] from the settlement of [router.send]: settled, or waiting for
    peer recovery ([None]). *)
Definition settleSend (m : Messenger) (t : nat) (now : Z) (outcome : RouterOutcome) (signal : option string)
    : option (option Settlement * Messenger) :=
  match ms_tasks m !! t with
  | Some (SendTask policy k envelope recover) =>
      let sloK := sloKeyOf k in
      let aborted := match policy with RequestOwned => signal | DurableOutbox => None end in
      let attempt : result SendError bytes :=
        match outcome with
        | RouterError message => Err (TransportError message)
        | RouterResponse response =>
            match aborted with
            | Some reason => Err (TransportError reason)
            | None => assertResponseAccepted m (keyProtocol k) response
            end
        end in
      match attempt with
      | Ok response =>
          let m1 := noteDelivered m k response now in
          Some (Some (Returned (Delivered response 1 (keyMessageId k))), release (finish m1 t) k)
      | Err err =>
          let errMsg := errorMessage err in
          match aborted with
          | Some reason => Some (Some (Threw reason), release (finish (forgetFirstAttempt m sloK) t) k)
          | None =>
              if negb (isRecoverableMessengerSendError err errMsg) then
                Some (Some (Threw errMsg), release (finish (forgetFirstAttempt m sloK) t) k)
              else
                match policy with
                | RequestOwned =>
                    let m1 := forgetFirstAttempt m sloK in
                    if negb recover then Some (Some (Threw errMsg), release (finish m1 t) k)
                    else
                      let triggered := shouldTriggerDhtWalk errMsg in
                      let '(walk, m2) := if triggered then resolvePeerOnce m1 (keyPeer k) now else (None, m1) in
                      Some (None, become m2 t (SendRecovering k errMsg triggered walk))
                | DurableOutbox =>
                    let '(r, m1) := handleDurableRecoverableFailure m k envelope errMsg now in
                    Some (Some (Returned r), release (finish m1 t) k)
                end
          end
      end
  | _ => None
  end.

(** A request-owned send goes on when the walk it awaits has ended, or its
    signal fires. *)
Definition settleRecovery (m : Messenger) (t : nat) (signal : option string) : option (Settlement * Messenger) :=
  match ms_tasks m !! t with
  | Some (SendRecovering k err triggered walk) =>
      let waiting := match walk with
                     | Some w => bool_decide (w ∈ (map_to_list (dhtWalksInFlight (ms_dht m))).*2)
                     | None => false
                     end in
      match signal with
      | Some reason => if triggered then Some (Threw reason, release (finish m t) k)
                       else Some (Threw err, release (finish m t) k)
      | None => if waiting then None else Some (Threw err, release (finish m t) k)
      end
  | _ => None
  end.
(** *** Retries *)

(** The promise of a retry settles: its worker takes the next entry. *)
Definition retryEnds (m : Messenger) (index : nat) : Messenger :=
  match dr_active (ms_drainer m) with
  | Some (Draining d) => set_drainer m (with_active (ms_drainer m) (Some (Draining (callbackDone index None d))))
  | _ => m
  end.

(** [retryOutboxEntry] up to its first await, called by a worker for the entry
    of an index.  [None]: it returned without a send. *)
Definition retryOutboxEntry (m : Messenger) (index : nat) (entry : ProtocolOutboxEntry) : option nat * Messenger :=
  let k := entryKey entry in
  match tryBeginAttempt (ms_outbox m) k with
  | (false, _) => (None, retryEnds m index)
  | (true, o) =>
      let m1 := set_outbox m o in
      if negb (hasEntry (ms_outbox m1) k) then (None, retryEnds (release m1 k) index)
      else let '(t, m2) := spawn m1 (RetryTask index k (oe_payload entry)) in (Some t, m2)
  end.

Definition retryFails (m : Messenger) (t index : nat) (k : messageKey) (err : SendError) (now : Z) : Messenger :=
  let errMsg := errorMessage err in
  let '(updated, o) := recordRetryFailure (ms_outbox m) k errMsg now in
  let m1 := set_outbox m o in
  let m2 := match updated with
            | Some u => if isRecoverableMessengerSendError err errMsg
                        then scheduleOutboxPeerRecovery m1 (keyPeer k) (om_attempts u) errMsg now else m1
            | None => m1
            end in
  retryEnds (release (finish m2 t) k) index.

Definition retrySucceeds (m : Messenger) (t index : nat) (k : messageKey) (response : bytes) (now : Z) : Messenger :=
  retryEnds (release (finish (noteDelivered m k response now) t) k) index.

(** [retryOutboxEntry] from the settlement of [router.send], with the response
    if it was delivered. *)
Definition settleRetry (m : Messenger) (t : nat) (now : Z) (outcome : RouterOutcome) : option (option bytes * Messenger) :=
  match ms_tasks m !! t with
  | Some (RetryTask index k payload) =>
      match outcome with
      | RouterError message => Some (None, retryFails m t index k (TransportError message) now)
      | RouterResponse response =>
          match assertResponseAccepted m (keyProtocol k) response with
          | Err err => Some (None, retryFails m t index k err now)
          | Ok _ =>
              if bool_decide (keyProtocol k ∈ outboxResponseHandlers (ms_tables m)) then
                match decodeReliableEnvelope payload with
                | Err e => Some (None, retryFails m t index k (TransportError e) now)
                | Ok _ => Some (None, become m t (RetryResponding index k response))
                end
              else Some (Some response, retrySucceeds m t index k response now)
          end
      end
  | _ => None
  end.

(** ... and from the settlement of the response handler. *)
Definition settleResponseHandler (m : Messenger) (t : nat) (now : Z) (failure : option string)
    : option (option bytes * Messenger) :=
  match ms_tasks m !! t with
  | Some (RetryResponding index k response) =>
      match failure with
      | Some e => Some (None, retryFails m t index k (TransportError e) now)
      | None => Some (Some response, retrySucceeds m t index k response now)
      end
  | _ => None
  end.

(** *** The drain *)

Definition processOutboxTick (m : Messenger) (now : Z) : Messenger := set_drainer m (tick now (ms_drainer m)).

Definition stopOutboxDrain (m : Messenger) : Messenger := set_drainer m (stop (ms_drainer m)).

Definition drainLoads (m : Messenger) : result string OutboxDrainer * Messenger :=
  let '(r, d) := drainStart (fun now budget => readDuePage (ms_outbox m) now budget) (ms_drainer m) in
  (r, set_drainer m d).

(** A worker takes an index and, unless the drainer stops, retries its entry:
    the task it started. *)
Definition workerTakes (m : Messenger) : option nat * Messenger :=
  match dr_active (ms_drainer m) with
  | Some (Draining d) =>
      let '(e, d') := takeNext (dr_stopping (ms_drainer m)) d in
      let m1 := set_drainer m (with_active (ms_drainer m) (Some (Draining d'))) in
      match e with
      | Some entry => retryOutboxEntry m1 (dn_nextIndex d) entry
      | None => (None, m1)
      end
  | _ => (None, m)
  end.

Definition drainEnds (m : Messenger) : result (list string) unit * Messenger :=
  let '(r, d) := drainSettle (ms_drainer m) in (r, set_drainer m d).

(** *** Receiving *)

Inductive ReceiveStart : Type :=
| Replies (response : bytes)
| Refuses (error : string)
| Awaits (promise : nat) (runsHandler : bool).

Definition idempotencyKey (k : messageKey) : jsstr := InMemoryIdempotency.key k DirIn.

(** The wrapper of a registered handler, up to the handler's first await. *)
Definition reliableHandler (m : Messenger) (protocolId : jsstr) (data : bytes) (peerKey : jsstr) : ReceiveStart * Messenger :=
  match decodeReliableEnvelope data with
  | Err msg =>
      (Refuses (String.append "[Messenger] failed to decode ReliableEnvelope on "
                 (String.append (toText protocolId) (String.append " from "
                   (String.append (toText (drop (length peerKey - 8) peerKey)) (String.append ": " msg))))), m)
  | Ok envelope =>
      let k := (peerKey, protocolId, env_messageId envelope) in
      match id_check (ms_idem m) k DirIn with
      | Seen cached => (Replies (default RESPONSE_GONE_BYTES cached), m)
      | NotSeen =>
          let inFlightKey := idempotencyKey k in
          match ms_inboundInFlight m !! inFlightKey with
          | Some promise => (Awaits promise false, m)
          | None =>
              let '(t, m1) := spawn m (HandlerTask k (env_payload envelope)) in
              (Awaits t true, set_inbound m1 (<[inFlightKey := t]> (ms_inboundInFlight m1)) (ms_promises m1))
          end
      end
  end.

(** The application handler settles: the response is recorded and the promise
    that duplicates await is settled with it. *)
Definition settleHandler (m : Messenger) (t : nat) (now : Z) (outcome : result string bytes) : option Messenger :=
  match ms_tasks m !! t with
  | Some (HandlerTask k payload) =>
      let m1 := match outcome with
                | Ok response => set_idem m (id_record (ms_idem m) k DirIn (Some response) now)
                | Err _ => m
                end in
      Some (become (set_inbound m1 (ms_inboundInFlight m1) (<[t := outcome]> (ms_promises m1))) t (HandlerSettled k))
  | _ => None
  end.

(** The [finally] of the wrapper, one turn later. *)
Definition handlerCleanup (m : Messenger) (t : nat) : option Messenger :=
  match ms_tasks m !! t with
  | Some (HandlerSettled k) =>
      Some (finish (set_inbound m (delete (idempotencyKey k) (ms_inboundInFlight m)) (ms_promises m)) t)
  | _ => None
  end.

(** *** Diagnostics *)

Definition messengerOutboxSize (m : Messenger) : Z := outboxSize (ms_outbox m).

Definition listOutboxMetadata (m : Messenger) (peerId : option jsstr) : list ProtocolOutboxMetadata :=
  listMetadata (ms_outbox m) peerId.

Definition getOutboxStats (m : Messenger) (now : Z) : OutboxDrainStats * ProtocolOutboxQueueStats :=
  let stats := getStats (ms_drainer m) in
  (stats, queueStats (ms_outbox m) now (ds_maxPayloadBytes stats)).

(** *** Expiry, pruning, restart *)

Definition dropExpiredOutbox (m : Messenger) (now : Z) : list ProtocolOutboxMetadata * Messenger :=
  let '(dropped, o) := dropExpiredMetadata (ms_outbox m) now in
  let m1 := set_outbox m o in
  let m2 := foldl (fun acc e => forgetFirstAttempt acc (sloKeyOf (om_key e))) m1 dropped in
  let droppedPeers := uniqueValues [] ((fun e => keyPeer (om_key e)) <$> dropped) in
  (dropped, foldl clearDhtWalkRateLimitIfDrained m2 droppedPeers).

Definition pruneIdempotency (m : Messenger) (ts : Z) : Messenger := set_idem m (id_pruneOlderThan (ms_idem m) ts).2.

(** The process ends and a new one opens the same stores, configured by [deps]. *)
Definition restart (m : Messenger) (deps : MessengerDeps S I) : result string Messenger :=
  newMessenger {| dep_outboxStore := ob_store (ms_outbox m); dep_idempotencyStore := ms_idem m;
                  dep_backoffs := dep_backoffs deps; dep_maxAgeMs := dep_maxAgeMs deps;
                  dep_outboxDrain := dep_outboxDrain deps; dep_sloWindowSamples := dep_sloWindowSamples deps;
                  dep_hasResolvePeer := dep_hasResolvePeer deps |}.

(** ** Runs

    An event is one segment, with what the environment answers; its observations
    are what others can see of it. *)

Inductive event : Type :=
| EvSend (now : Z) (uuid peerId protocolId : jsstr) (payload : bytes) (opts : RequestOwnedSendOpts)
    (policy : FramedFailurePolicy) (signal : option string)
| EvSettleSend (t : nat) (now : Z) (outcome : RouterOutcome) (signal : option string)
| EvSettleRecovery (t : nat) (signal : option string)
| EvTick (now : Z)
| EvStop
| EvDrainLoads
| EvWorkerTakes
| EvSettleRetry (t : nat) (now : Z) (outcome : RouterOutcome)
| EvSettleResponseHandler (t : nat) (now : Z) (failure : option string)
| EvDrainEnds
| EvReceive (protocolId : jsstr) (data : bytes) (peerKey : jsstr)
| EvSettleHandler (t : nat) (now : Z) (outcome : result string bytes)
| EvHandlerCleanup (t : nat)
| EvWalkEnds (walk : nat)
| EvExpire (now : Z)
| EvPrune (ts : Z)
| EvConfigure (t : Tables)
| EvRestart (deps : MessengerDeps S I).

Inductive observation : Type :=
| ObsWire (t : nat) (k : messageKey) (data : bytes)
| ObsSettled (k : messageKey) (s : Settlement)
| ObsDelivered (k : messageKey) (response : bytes)
| ObsExpired (k : messageKey)
| ObsReceived (k : messageKey) (r : ReceiveStart)
| ObsHandlerStarts (t : nat) (k : messageKey) (payload : bytes)
| ObsHandlerSettles (t : nat) (k : messageKey) (now : Z) (outcome : result string bytes)
| ObsPruned (ts : Z)
| ObsRestarted.

(** The bytes of a task that has just been handed to the router. *)
Definition wireOf (m : Messenger) (t : nat) : list observation :=
  match ms_tasks m !! t with
  | Some (SendTask _ k envelope _) => [ObsWire t k envelope]
  | Some (RetryTask _ k payload) => [ObsWire t k payload]
  | _ => []
  end.

Definition taskKey (task : Task) : messageKey :=
  match task with
  | SendTask _ k _ _ | SendRecovering k _ _ _ | RetryTask _ k _ | RetryResponding _ k _
  | HandlerTask k _ | HandlerSettled k => k
  end.

Definition settledObs (k : messageKey) (s : Settlement) : list observation :=
  match s with
  | Returned (Delivered response _ _) => [ObsDelivered k response; ObsSettled k s]
  | _ => [ObsSettled k s]
  end.

Definition deliveredObs (k : messageKey) (response : option bytes) : list observation :=
  match response with Some r => [ObsDelivered k r] | None => [] end.

Definition startedObs (m : Messenger) (k : messageKey) (r : ReceiveStart) : list observation :=
  match r with
  | Awaits t true =>
      match ms_tasks m !! t with
      | Some (HandlerTask _ payload) => [ObsHandlerStarts t k payload; ObsReceived k r]
      | _ => [ObsReceived k r]
      end
  | _ => [ObsReceived k r]
  end.

Definition step (m : Messenger) (ev : event) : option (list observation * Messenger) :=
  match ev with
  | EvSend now uuid peerId protocolId payload opts policy signal =>
      let '(r, m') := sendFramed m now uuid peerId protocolId payload opts policy signal in
      let k := (peerId, protocolId, default uuid (opts_messageId opts)) in
      Some (match r with inl s => [ObsSettled k s] | inr t => wireOf m' t end, m')
  | EvSettleSend t now outcome signal =>
      task ← ms_tasks m !! t;
      '(s, m') ← settleSend m t now outcome signal;
      Some (match s with Some s' => settledObs (taskKey task) s' | None => [] end, m')
  | EvSettleRecovery t signal =>
      task ← ms_tasks m !! t;
      '(s, m') ← settleRecovery m t signal;
      Some ([ObsSettled (taskKey task) s], m')
  | EvTick now => Some ([], processOutboxTick m now)
  | EvStop => Some ([], stopOutboxDrain m)
  | EvDrainLoads => Some ([], (drainLoads m).2)
  | EvWorkerTakes =>
      let '(t, m') := workerTakes m in
      Some (match t with Some t' => wireOf m' t' | None => [] end, m')
  | EvSettleRetry t now outcome =>
      task ← ms_tasks m !! t;
      '(r, m') ← settleRetry m t now outcome;
      Some (deliveredObs (taskKey task) r, m')
  | EvSettleResponseHandler t now failure =>
      task ← ms_tasks m !! t;
      '(r, m') ← settleResponseHandler m t now failure;
      Some (deliveredObs (taskKey task) r, m')
  | EvDrainEnds => Some ([], (drainEnds m).2)
  | EvReceive protocolId data peerKey =>
      let '(r, m') := reliableHandler m protocolId data peerKey in
      match decodeReliableEnvelope data with
      | Ok envelope => Some (startedObs m' (peerKey, protocolId, env_messageId envelope) r, m')
      | Err _ => Some ([], m')
      end
  | EvSettleHandler t now outcome =>
      task ← ms_tasks m !! t;
      m' ← settleHandler m t now outcome;
      Some ([ObsHandlerSettles t (taskKey task) now outcome], m')
  | EvHandlerCleanup t => m' ← handlerCleanup m t; Some ([], m')
  | EvWalkEnds walk => Some ([], walkEnds m walk)
  | EvExpire now =>
      let '(dropped, m') := dropExpiredOutbox m now in
      Some ((fun e => ObsExpired (om_key e)) <$> dropped, m')
  | EvPrune ts => Some ([ObsPruned ts], pruneIdempotency m ts)
  | EvConfigure t => Some ([], set_tables m t)
  | EvRestart deps =>
      match restart m deps with
      | Ok m' => Some ([ObsRestarted], m')
      | Err _ => None
      end
  end.

(** The identifiers of an event are well-formed. *)
Definition wfEvent (ev : event) : bool :=
  match ev with
  | EvSend _ uuid peerId protocolId _ opts _ _ => wfKey (peerId, protocolId, default uuid (opts_messageId opts))
  | EvReceive protocolId data peerKey =>
      match decodeReliableEnvelope data with
      | Ok envelope => wfKey (peerKey, protocolId, env_messageId envelope)
      | Err _ => true
      end
  | _ => true
  end.

(** [run m evs tr m']: the events take [m] to [m'] with the observations [tr]. *)
Inductive run : Messenger -> list event -> list observation -> Messenger -> Prop :=
| run_nil m : run m [] [] m
| run_snoc m evs tr m1 ev obs m2 :
    run m evs tr m1 -> wfEvent ev = true -> step m1 ev = Some (obs, m2) ->
    run m (evs ++ [ev]) (tr ++ obs) m2.

(** The run of a list of events, computed. *)
Fixpoint exec (tr : list observation) (m : Messenger) (evs : list event) : option (list observation * Messenger) :=
  match evs with
  | [] => Some (tr, m)
  | ev :: evs' => if wfEvent ev then '(obs, m') ← step m ev; exec (tr ++ obs) m' evs' else None
  end.

Lemma exec_run m0 evs0 tr m evs tr' m' :
  run m0 evs0 tr m -> exec tr m evs = Some (tr', m') -> run m0 (evs0 ++ evs) tr' m'.
Proof.
  revert evs0 tr m. induction evs as [|ev evs IH]; intros evs0 tr m Hr He; simpl in He.
  - injection He as <- <-. by rewrite app_nil_r.
  - destruct (wfEvent ev) eqn:Hw; [|done]. destruct (step m ev) as [[obs m1]|] eqn:Hs; [|done]. simpl in He.
    replace (evs0 ++ ev :: evs) with ((evs0 ++ [ev]) ++ evs) by (by rewrite <- app_assoc).
    eapply IH; [|exact He]. by econstructor.
Qed.
End Operations.
