(* ===== verification/MessengerTheory.v ===== *)
(** * Invariants of the messenger

    What holds of every messenger reached from a fresh one by any interleaving of
    sends, answers of the router, drains, inbound messages, handler settlements,
    expiry, pruning and restarts. *)

From S2P Require Import Prelude Bytes CodePoints OutboxStore OutboxMemory ProtocolOutbox Idempotency OutboxDrainer Messenger.

Open Scope Z_scope.

Definition attemptKey (task : Task) : option messageKey :=
  match task with
  | SendTask _ k _ _ | SendRecovering k _ _ _ | RetryTask _ k _ | RetryResponding _ k _ => Some k
  | _ => None
  end.

Definition handlerKey (task : Task) : option messageKey :=
  match task with HandlerTask k _ | HandlerSettled k => Some k | _ => None end.

(** The cases of [effect] below, with names for what each one has. *)
Ltac case_effect H :=
  destruct H as
    [obs m' Hn Hh
    |k' c' ts' m' Hk' Hl' Hn
    |k' tk data o' m' Hk' Hb Hs Hn
    |u tk k' r' n rest m' Ht Ha Hans Hn Hrest
    |u pol k' data rec err n e' s' m' Ht Hq Hn
    |u tk k' err n m' Ht Ha Hn
    |u tk k' err m' Ht Ha Hn
    |u tk tk' k' m' Ht Ha Ha' Hx Hn
    |dr Ho Hp
    |pr data pk env c' ts' Hev Hd k' Hk' Hl'
    |pr data pk env u Hev Hd k' Hk' Hl' Hi
    |pr data pk env Hev Hd k' u Hk' Hl' Hi
    |u k' p' n out m' Hev Ht Hs
    |u m' Hc
    |n l' s' m' Hx Hn
    |ts'
    |deps m' Hev Hr].

(** ** Registering a family of protocols *)

Section Group.
Context {S I : Type} `{!OutboxStore S, !IdempotencyStore I}.
Implicit Types m : Messenger S I.

Notation handlersOf m := (handlers (ms_tables m)).

Lemma unregister_handlers m p : handlersOf (unregister m p) = delete p (handlersOf m).
Proof. done. Qed.

Lemma dispose_ne m entries q : q ∉ entries.*1 -> handlersOf (disposeGroup m entries) !! q = handlersOf m !! q.
Proof.
  unfold disposeGroup. revert m. induction entries as [|[p h] entries IH]; intros m Hq; csimpl; [done|].
  csimpl in Hq. apply not_elem_of_cons in Hq as [Hp Hq]. rewrite IH by done.
  case_bool_decide; [|done]. rewrite unregister_handlers. by rewrite lookup_delete_ne.
Qed.

Lemma dispose_cons m p h entries :
  disposeGroup m ((p, h) :: entries) = disposeGroup (if bool_decide (handlersOf m !! p = Some h) then unregister m p else m) entries.
Proof. done. Qed.

Lemma dispose_in m entries q h :
  NoDup entries.*1 -> (q, h) ∈ entries -> handlersOf m !! q = Some h \/ handlersOf m !! q = None ->
  handlersOf (disposeGroup m entries) !! q = None.
Proof.
  revert m. induction entries as [|[p h'] entries IH]; intros m Hnd Hin Hm; [by apply not_elem_of_nil in Hin|].
  rewrite dispose_cons. csimpl in *. apply NoDup_cons in Hnd as [Hp Hnd]. apply elem_of_cons in Hin as [[= -> ->]|Hin].
  - rewrite (dispose_ne _ entries p Hp). case_bool_decide as E; [by rewrite unregister_handlers, lookup_delete_eq|].
    by destruct Hm.
  - apply IH; [done..|]. case_bool_decide; [|done]. rewrite unregister_handlers. destruct (decide (p = q)) as [->|Hne].
    + right. apply lookup_delete_eq.
    + by rewrite lookup_delete_ne.
Qed.

Lemma registerAll_lookup routerFails m entries q :
  NoDup entries.*1 ->
  let m' := (registerAll routerFails m entries).2 in
  handlersOf m' !! q = handlersOf m !! q \/ exists h, (q, h) ∈ entries /\ handlersOf m' !! q = Some h.
Proof.
  revert m. induction entries as [|[p h] entries IH]; intros m Hnd; cbn [registerAll]; [by left|].
  csimpl in Hnd. apply NoDup_cons in Hnd as [Hp Hnd].
  assert (handlersOf (register m p h) !! q = handlersOf m !! q \/ q = p /\ handlersOf (register m p h) !! q = Some h) as Hr.
  { simpl. destruct (decide (p = q)) as [->|Hne]; [right; by rewrite lookup_insert_eq|left; by rewrite lookup_insert_ne]. }
  destruct (routerFails p); cbn [snd].
  - destruct Hr as [->|[-> E]]; [by left|]. right. exists h. split; [left|done].
  - destruct (IH (register m p h) Hnd) as [->|(h' & Hin & E)]; [|right; exists h'; split; [by right|done]].
    destruct Hr as [->|[-> E]]; [by left|]. right. exists h. split; [left|done].
Qed.

Lemma hasRegistered_None m ids entries :
  hasRegistered m ids entries = None ->
  NoDup entries.*1 /\ forall p h, (p, h) ∈ entries -> p ∉ ids /\ handlersOf m !! p = None.
Proof.
  revert ids. induction entries as [|[p h] entries IH]; intros ids; simpl.
  - intros _. split; [constructor|]. by intros p h ?%not_elem_of_nil.
  - case_bool_decide as H1; [done|]. case_bool_decide as H2; [done|]. simpl. intros [Hnd Hall]%IH. csimpl. split.
    + constructor; [|done]. intros Hin. apply list_elem_of_fmap in Hin as ([p' h'] & -> & Hin). destruct (Hall p' h' Hin) as [Hno _].
      destruct Hno. left.
    + intros p' h' [[= -> ->]|Hin]%elem_of_cons; [split; [done|by apply eq_None_not_Some]|].
      destruct (Hall p' h' Hin) as [Hno ?]. split; [|done]. intros Hi. destruct Hno. by right.
Qed.

(** A family is registered as a whole or not at all. *)
Theorem register_group_atomic routerFails m entries e m' :
  registerGroup routerFails m entries = (Err e, m') -> handlersOf m' = handlersOf m.
Proof.
  unfold registerGroup. destruct (hasRegistered m [] entries) eqn:Eh; [by intros [= _ <-]|].
  apply hasRegistered_None in Eh as [Hnd Hall]. destruct (registerAll routerFails m entries) as [[error|] m1] eqn:Er; [|done].
  intros [= _ <-]. apply map_eq. intros q. pose proof (registerAll_lookup routerFails m entries q Hnd) as Hl. rewrite Er in Hl. simpl in Hl.
  destruct (decide (q ∈ entries.*1)) as [Hin|Hin].
  - apply list_elem_of_fmap in Hin as ([q' h] & -> & Hin). simpl in *. destruct (Hall q' h Hin) as [_ Hn]. rewrite Hn in *.
    destruct Hl as [Hl|(h' & Hin' & Hl)].
    + eapply dispose_in; [done|exact Hin|by right].
    + eapply dispose_in; [done|exact Hin'|by left].
  - rewrite dispose_ne by done. destruct Hl as [->|(h & Hin' & _)]; [done|]. destruct Hin. apply list_elem_of_fmap. by exists (q, h).
Qed.
End Group.

Section Theory.
Context {S I : Type} `{!OutboxStore S, !OutboxStoreLaws S, !IdempotencyStore I, !IdempotencyLaws I}.
Variable encodeReliableEnvelope : ReliableEnvelopeMsg -> bytes.
Variable decodeReliableEnvelope : bytes -> result string ReliableEnvelopeMsg.

Notation Messenger := (Messenger S I).
Notation event := (event (S:=S) (I:=I)).
Notation step := (step encodeReliableEnvelope decodeReliableEnvelope).
Notation wfEvent := (wfEvent (S:=S) (I:=I) decodeReliableEnvelope).
Implicit Types m : Messenger.

Definition rowsM (m : Messenger) : Rows := st_rows (ob_store (ms_outbox m)).
Definition inbound (m : Messenger) (k : messageKey) : option (option bytes * Z) := id_lookup (ms_idem m) k DirIn.
Definition outbound (m : Messenger) (k : messageKey) : option (option bytes * Z) := id_lookup (ms_idem m) k DirOut.

(** The page of a running drain. *)
Definition pageOf (dr : OutboxDrainer) : list ProtocolOutboxEntry :=
  match dr_active dr with Some (Draining d) => dn_due d | _ => [] end.

Record inv (m : Messenger) : Prop := {
  inv_store : st_ok (ob_store (ms_outbox m));
  inv_idem : id_ok (ms_idem m);
  inv_next : forall t task, ms_tasks m !! t = Some task -> (t < ms_nextTask m)%nat;
  inv_wf : forall t task, ms_tasks m !! t = Some task -> wfKey (taskKey task) = true;
  inv_holds : forall t task k, ms_tasks m !! t = Some task -> attemptKey task = Some k -> inflightKey k ∈ ob_inflight (ms_outbox m);
  inv_single : forall t t' task task' k k',
    ms_tasks m !! t = Some task -> attemptKey task = Some k ->
    ms_tasks m !! t' = Some task' -> attemptKey task' = Some k' -> inflightKey k = inflightKey k' -> t = t';
  inv_held : forall s, s ∈ ob_inflight (ms_outbox m) ->
    exists t task k, ms_tasks m !! t = Some task /\ attemptKey task = Some k /\ s = inflightKey k;
  inv_handler : forall t task k, ms_tasks m !! t = Some task -> handlerKey task = Some k ->
    ms_inboundInFlight m !! idempotencyKey k = Some t;
  inv_inbound : forall s t, ms_inboundInFlight m !! s = Some t ->
    exists task k, ms_tasks m !! t = Some task /\ handlerKey task = Some k /\ s = idempotencyKey k;
  inv_running : forall t k p, ms_tasks m !! t = Some (HandlerTask k p) -> inbound m k = None;
  inv_page : forall e, e ∈ pageOf (ms_drainer m) -> wfKey (entryKey e) = true;
  inv_options : optionsOk (dr_options (ms_drainer m)) }.

(** ** Bookkeeping does not matter *)

(** Everything but statistics, peer recovery, the tables of callbacks and the
    progress of a drain. *)
Definition near (m m' : Messenger) : Prop :=
  ms_outbox m' = ms_outbox m /\ ms_idem m' = ms_idem m /\ ms_inboundInFlight m' = ms_inboundInFlight m /\
  ms_promises m' = ms_promises m /\ ms_tasks m' = ms_tasks m /\ ms_nextTask m' = ms_nextTask m /\
  (pageOf (ms_drainer m') ⊆ pageOf (ms_drainer m) /\ dr_options (ms_drainer m') = dr_options (ms_drainer m)).

#[export] Instance near_refl : Reflexive near.
Proof. by intros m. Qed.

#[export] Instance near_trans : Transitive near.
Proof.
  intros m1 m2 m3 (A1 & A2 & A3 & A4 & A5 & A6 & A7) (B1 & B2 & B3 & B4 & B5 & B6 & B7).
  unfold near. rewrite B1, B2, B3, B4, B5, B6. split_and!; [done..| |]; [by etrans; [apply B7|apply A7]|].
  destruct B7 as [_ ->]. apply A7.
Qed.

Lemma near_tasks m m' : near m m' -> ms_tasks m' = ms_tasks m.
Proof. by intros (_ & _ & _ & _ & -> & _). Qed.

Lemma inv_near m m' : near m m' -> inv m -> inv m'.
Proof.
  intros (E1 & E2 & E3 & E4 & E5 & E6 & E7) []. split; unfold inbound in *; destruct E7 as [E7 E8]; rewrite ?E1, ?E2, ?E3, ?E4, ?E5, ?E6, ?E8; auto.
Qed.

Lemma near_forget m s : near m (forgetFirstAttempt m s).
Proof. done. Qed.

Lemma near_noteFirst m s now : near m (noteFirstAttempt m s now).
Proof. unfold noteFirstAttempt. by case_match. Qed.

Lemma near_bump m p d : near m (bumpCounter m p d).
Proof. unfold bumpCounter. by destruct (default (0, 0) (sloCounters (ms_slo m) !! p)). Qed.

Lemma near_note m k r now : near m (noteDeliveredForSlo m k r now).
Proof.
  unfold noteDeliveredForSlo. case_match; [done|]. case_match; [|apply near_bump].
  etrans; [|apply near_bump]. done.
Qed.

Lemma near_resolve m p now : near m (resolvePeerOnce m p now).2.
Proof. unfold resolvePeerOnce. repeat case_match; done. Qed.

Lemma near_schedule m p a e now : near m (scheduleOutboxPeerRecovery m p a e now).
Proof. unfold scheduleOutboxPeerRecovery. case_match; [done|apply near_resolve]. Qed.

Lemma near_clear m p : near m (clearDhtWalkRateLimitIfDrained m p).
Proof. unfold clearDhtWalkRateLimitIfDrained. by case_match. Qed.

Lemma near_foldl {A} (f : Messenger -> A -> Messenger) l m :
  (forall m x, near m (f m x)) -> near m (foldl f m l).
Proof.
  intros Hf. revert m. induction l as [|x l IH]; intros m; simpl; [done|]. etrans; [apply Hf|apply IH].
Qed.

Lemma near_idle m dr : pageOf dr = [] -> dr_options dr = dr_options (ms_drainer m) -> near m (set_drainer m dr).
Proof. intros E Eo. unfold near. simpl. rewrite E. split_and!; [done..| |done]. apply list_subseteq_nil. Qed.

Lemma near_retryEnds m i : near m (retryEnds m i).
Proof.
  unfold retryEnds. destruct (dr_active (ms_drainer m)) as [[|d]|] eqn:E; [done| |done].
  unfold near, pageOf. simpl. by rewrite E.
Qed.

(** ** Store and idempotency changes *)

Lemma inv_set_store m s : inv m -> st_ok s -> inv (set_outbox m (with_store (ms_outbox m) s)).
Proof. intros [] Hs. split; auto. Qed.

Lemma idempotencyKey_inj k k' : wfKey k = true -> wfKey k' = true -> idempotencyKey k = idempotencyKey k' -> k = k'.
Proof. intros Hk Hk' E. by apply InMemoryIdempotency.key_inj in E as [-> _]. Qed.

(** A change of the idempotency store under which running handlers stay
    unrecorded. *)
Lemma inv_set_idem m i :
  inv m -> id_ok i ->
  (forall t k p, ms_tasks m !! t = Some (HandlerTask k p) -> id_lookup i k DirIn = None) ->
  inv (set_idem m i).
Proof. intros [] Hi Hr. split; auto. Qed.

Lemma inv_record_out m k r now :
  inv m -> wfKey k = true -> inv (set_idem m (id_record (ms_idem m) k DirOut r now)).
Proof.
  intros Hm Hk. destruct (law_record (ms_idem m) k DirOut r now (inv_idem _ Hm) Hk) as [Hok Hl].
  apply inv_set_idem; [done..|]. intros t k' p Ht.
  rewrite Hl by by apply (inv_wf _ Hm) in Ht. rewrite bool_decide_false by (intros [[=] _]).
  by apply (inv_running _ Hm) in Ht.
Qed.

Lemma inv_prune m ts : inv m -> inv (pruneIdempotency m ts).
Proof.
  intros Hm. unfold pruneIdempotency. destruct (law_prune (ms_idem m) ts (inv_idem _ Hm)) as [Hok Hl].
  apply inv_set_idem; [done..|]. intros t k p Ht. rewrite Hl by by apply (inv_wf _ Hm) in Ht.
  apply (inv_running _ Hm) in Ht. unfold inbound in Ht. by rewrite Ht.
Qed.

Lemma inv_markDelivered m k :
  inv m -> wfKey k = true -> inv (set_outbox m (markDelivered (ms_outbox m) k).2).
Proof.
  intros Hm Hk. unfold markDelivered. pose proof (law_markDelivered _ k (inv_store _ Hm) Hk) as L.
  destruct (st_markDelivered _ k) as [b s], L as [L _]. by apply inv_set_store.
Qed.

(** ** Attempts *)

Lemma spawn_attempt m o k task :
  inv m -> wfKey k = true -> tryBeginAttempt (ms_outbox m) k = (true, o) ->
  attemptKey task = Some k -> taskKey task = k -> inv (spawn (set_outbox m o) task).2.
Proof.
  intros Hm Hk Ht Ha Hkey. unfold tryBeginAttempt in Ht. case_bool_decide as Hin; [done|]. injection Ht as <-.
  assert (ms_tasks m !! ms_nextTask m = None) as Hfresh.
  { destruct (ms_tasks m !! ms_nextTask m) as [t|] eqn:E; [|done]. apply (inv_next _ Hm) in E. lia. }
  assert (handlerKey task = None) as Hh by (by destruct task).
  destruct Hm. split; simpl; try done.
  - intros t task'. rewrite lookup_insert_Some. intros [[<- _]|[_ E]]; [lia|]. apply inv_next0 in E. lia.
  - intros t task'. rewrite lookup_insert_Some. intros [[_ <-]|[_ E]]; [by rewrite Hkey|eauto].
  - intros t task' k'. rewrite lookup_insert_Some. intros [[_ <-]|[_ E]] Ha'; [|apply elem_of_union_r; eauto].
    rewrite Ha in Ha'. injection Ha' as <-. apply elem_of_union_l. by apply elem_of_singleton.
  - intros t t' task1 task2 k1 k2. rewrite !lookup_insert_Some.
    intros [[<- <-]|[H1 E1]] Ha1 [[<- <-]|[H2 E2]] Ha2 Hk12; [done| | |eauto].
    + rewrite Ha in Ha1. injection Ha1 as <-. destruct Hin. rewrite Hk12. eauto.
    + rewrite Ha in Ha2. injection Ha2 as <-. destruct Hin. rewrite <- Hk12. eauto.
  - intros s [->%elem_of_singleton|Hs]%elem_of_union.
    + exists (ms_nextTask m), task, k. by rewrite lookup_insert_eq.
    + destruct (inv_held0 s Hs) as (t & task' & k' & E & ? & ?). exists t, task', k'.
      rewrite lookup_insert_ne; [done|]. intros <-. congruence.
  - intros t task' k'. rewrite lookup_insert_Some. intros [[_ <-]|[_ E]] Hk'; [congruence|eauto].
  - intros s t Hs. destruct (inv_inbound0 s t Hs) as (task' & k' & E & ? & ?). exists task', k'.
    rewrite lookup_insert_ne; [done|]. intros <-. congruence.
  - intros t k' p. rewrite lookup_insert_Some. intros [[_ ->]|[_ E]]; [done|eauto].
Qed.

Lemma end_attempt m t task k :
  inv m -> ms_tasks m !! t = Some task -> attemptKey task = Some k -> inv (release (finish m t) k).
Proof.
  intros Hm Ht Ha. assert (handlerKey task = None) as Hh by (by destruct task).
  destruct Hm. split; simpl; try done.
  - intros t' task'. rewrite lookup_delete_Some. intros [_ E]. eauto.
  - intros t' task'. rewrite lookup_delete_Some. intros [_ E]. eauto.
  - intros t' task' k'. rewrite lookup_delete_Some. intros [Hne E] Ha'.
    apply elem_of_difference. split; [eauto|]. intros Hk%elem_of_singleton. by eapply Hne, inv_single0.
  - intros t1 t2 task1 task2 k1 k2. rewrite !lookup_delete_Some. intros [_ ?] ? [_ ?] ? ?. eauto.
  - intros s [Hs Hn]%elem_of_difference. destruct (inv_held0 s Hs) as (t' & task' & k' & E & Ha' & ->).
    exists t', task', k'. rewrite lookup_delete_ne; [done|]. intros <-. apply Hn, elem_of_singleton. congruence.
  - intros t' task' k'. rewrite lookup_delete_Some. intros [_ E] ?. eauto.
  - intros s t' Hs. destruct (inv_inbound0 s t' Hs) as (task' & k' & E & ? & ?). exists task', k'.
    rewrite lookup_delete_ne; [done|]. intros <-. congruence.
  - intros t' k' p. rewrite lookup_delete_Some. intros [_ E]. eauto.
Qed.

Lemma become_attempt m t task task' k :
  inv m -> ms_tasks m !! t = Some task -> attemptKey task = Some k -> attemptKey task' = Some k -> taskKey task' = k ->
  inv (become m t task').
Proof.
  intros Hm Ht Ha Ha' Hk. assert (handlerKey task = None) as Hh by (by destruct task).
  assert (handlerKey task' = None) as Hh' by (by destruct task').
  assert (wfKey k = true) as Hw. { apply (inv_wf _ Hm) in Ht. destruct task; simpl in *; congruence. }
  destruct Hm. split; simpl; try done.
  - intros u x. rewrite lookup_insert_Some. intros [[<- _]|[_ E]]; eauto.
  - intros u x. rewrite lookup_insert_Some. intros [[_ <-]|[_ E]]; [by rewrite Hk|eauto].
  - intros u x k'. rewrite lookup_insert_Some. intros [[_ <-]|[_ E]] Hx; [|eauto].
    rewrite Ha' in Hx. injection Hx as <-. eauto.
  - intros u u' x x' k1 k2. rewrite !lookup_insert_Some.
    intros [[<- <-]|[H1 E1]] Ha1 [[<- <-]|[H2 E2]] Ha2 Hk12; [done| | |eauto].
    + rewrite Ha' in Ha1. injection Ha1 as <-. eauto.
    + rewrite Ha' in Ha2. injection Ha2 as <-. eauto.
  - intros s Hs. destruct (inv_held0 s Hs) as (u & x & k' & E & Hx & ->).
    destruct (decide (t = u)) as [<-|Hne].
    + exists t, task', k. rewrite lookup_insert_eq. split_and!; [done..|]. congruence.
    + exists u, x, k'. by rewrite lookup_insert_ne.
  - intros u x k'. rewrite lookup_insert_Some. intros [[_ <-]|[_ E]] Hk'; [congruence|eauto].
  - intros s u Hs. destruct (inv_inbound0 s u Hs) as (x & k' & E & ? & ?). exists x, k'.
    rewrite lookup_insert_ne; [done|]. intros <-. congruence.
  - intros u k' p. rewrite lookup_insert_Some. intros [[_ ->]|[_ E]]; [done|eauto].
Qed.
(** ** Handlers *)

Lemma spawn_handler m k payload :
  inv m -> wfKey k = true -> inbound m k = None -> ms_inboundInFlight m !! idempotencyKey k = None ->
  let m1 := (spawn m (HandlerTask k payload)).2 in
  inv (set_inbound m1 (<[idempotencyKey k := ms_nextTask m]> (ms_inboundInFlight m1)) (ms_promises m1)).
Proof.
  intros Hm Hk Hi Hn. simpl.
  assert (ms_tasks m !! ms_nextTask m = None) as Hfresh.
  { destruct (ms_tasks m !! ms_nextTask m) as [t|] eqn:E; [|done]. apply (inv_next _ Hm) in E. lia. }
  destruct Hm. split; simpl; try done.
  - intros t task'. rewrite lookup_insert_Some. intros [[<- _]|[_ E]]; [lia|]. apply inv_next0 in E. lia.
  - intros t task'. rewrite lookup_insert_Some. intros [[_ <-]|[_ E]]; [done|eauto].
  - intros t task' k'. rewrite lookup_insert_Some. intros [[_ <-]|[_ E]] Ha'; [done|eauto].
  - intros t t' task1 task2 k1 k2. rewrite !lookup_insert_Some.
    intros [[<- <-]|[H1 E1]] Ha1 [[<- <-]|[H2 E2]] Ha2 Hk12; [done..|eauto].
  - intros s Hs. destruct (inv_held0 s Hs) as (t & task' & k' & E & ? & ?). exists t, task', k'.
    rewrite lookup_insert_ne; [done|]. intros <-. congruence.
  - intros t task' k'. rewrite lookup_insert_Some. intros [[<- <-]|[_ E]] Hk'.
    + injection Hk' as <-. by rewrite lookup_insert_eq.
    + pose proof (inv_handler0 _ _ _ E Hk'). rewrite lookup_insert_ne; [done|]. congruence.
  - intros s t. rewrite lookup_insert_Some. intros [[<- <-]|[Hne Hs]].
    + exists (HandlerTask k payload), k. by rewrite lookup_insert_eq.
    + destruct (inv_inbound0 s t Hs) as (task' & k' & E & ? & ?). exists task', k'.
      rewrite lookup_insert_ne; [done|]. intros <-. congruence.
  - intros t k' p. rewrite lookup_insert_Some. intros [[_ [= <- <-]]|[_ E]]; [done|]. eauto.
Qed.

Lemma settle_handler m t k payload promises :
  inv m -> ms_tasks m !! t = Some (HandlerTask k payload) ->
  inv (become (set_inbound m (ms_inboundInFlight m) promises) t (HandlerSettled k)).
Proof.
  intros Hm Ht. pose proof (inv_wf _ Hm _ _ Ht) as Hw. destruct Hm. split; simpl; try done.
  - intros u x. rewrite lookup_insert_Some. intros [[<- _]|[_ E]]; eauto.
  - intros u x. rewrite lookup_insert_Some. intros [[_ <-]|[_ E]]; [done|eauto].
  - intros u x k'. rewrite lookup_insert_Some. intros [[_ <-]|[_ E]] Hx; [done|eauto].
  - intros u u' x x' k1 k2. rewrite !lookup_insert_Some.
    intros [[<- <-]|[H1 E1]] Ha1 [[<- <-]|[H2 E2]] Ha2 Hk12; [done..|eauto].
  - intros s Hs. destruct (inv_held0 s Hs) as (u & x & k' & E & Hx & ->). exists u, x, k'.
    rewrite lookup_insert_ne; [done|]. intros <-. rewrite Ht in E. injection E as <-. done.
  - intros u x k'. rewrite lookup_insert_Some. intros [[<- <-]|[_ E]] Hk'; [|eauto].
    injection Hk' as <-. eauto.
  - intros s u Hs. destruct (inv_inbound0 s u Hs) as (x & k' & E & Hx & ->).
    destruct (decide (t = u)) as [<-|Hne].
    + exists (HandlerSettled k), k. rewrite lookup_insert_eq. rewrite Ht in E. injection E as <-. by injection Hx as ->.
    + exists x, k'. by rewrite lookup_insert_ne.
  - intros u k' p. rewrite lookup_insert_Some. intros [[_ [=]]|[_ E]]. eauto.
Qed.

(** The message of a running handler is recorded; no other activation runs it. *)
Lemma record_in_after m t k now response promises :
  inv m -> ms_tasks m !! t = Some (HandlerTask k promises) ->
  id_ok (id_record (ms_idem m) k DirIn response now) /\
  (forall k' d, wfKey k' = true ->
     id_lookup (id_record (ms_idem m) k DirIn response now) k' d
       = if bool_decide ((k', d) = (k, DirIn)) then Some (cacheable response, now) else id_lookup (ms_idem m) k' d).
Proof.
  intros Hm Ht. pose proof (inv_running _ Hm _ _ _ Ht) as Hr. unfold inbound in Hr.
  destruct (law_record (ms_idem m) k DirIn response now (inv_idem _ Hm) (inv_wf _ Hm _ _ Ht)) as [Hok Hl].
  split; [done|]. intros k' d Hk'. rewrite Hl by done. case_bool_decide as H1; case_bool_decide as H2; try done.
  - by destruct H1.
  - by destruct H1; injection H2 as -> ->.
Qed.

Lemma handler_unique m t t' k p p' :
  inv m -> ms_tasks m !! t = Some (HandlerTask k p) -> ms_tasks m !! t' = Some (HandlerTask k p') -> t = t'.
Proof.
  intros Hm H1 H2. pose proof (inv_handler _ Hm t _ k H1 eq_refl). pose proof (inv_handler _ Hm t' _ k H2 eq_refl).
  congruence.
Qed.

Lemma inv_settleHandler m t now outcome m' : inv m -> settleHandler m t now outcome = Some m' -> inv m'.
Proof.
  intros Hm. unfold settleHandler. destruct (ms_tasks m !! t) as [[| | | |k p|]|] eqn:Ht; try done.
  intros [= <-]. destruct outcome as [r|e]; [|by eapply settle_handler].
  destruct (record_in_after m t k now (Some r) p Hm Ht) as [Hok Hl].
  assert (forall u k' q, u <> t -> ms_tasks m !! u = Some (HandlerTask k' q) ->
            id_lookup (id_record (ms_idem m) k DirIn (Some r) now) k' DirIn = None) as Hrun.
  { intros u k' q Hu E. rewrite Hl by by apply (inv_wf _ Hm) in E. case_bool_decide as Ek.
    - injection Ek as ->. by destruct Hu; eapply handler_unique.
    - by apply (inv_running _ Hm) in E. }
  pose proof (settle_handler m t k p (<[t := Ok r]> (ms_promises m)) Hm Ht) as Hs.
  destruct Hs. split; try done. intros u k' q. simpl. rewrite lookup_insert_Some. intros [[_ [=]]|[Hu E]]. eauto.
Qed.

Lemma inv_handlerCleanup m t m' : inv m -> handlerCleanup m t = Some m' -> inv m'.
Proof.
  intros Hm. unfold handlerCleanup. destruct (ms_tasks m !! t) as [[| | | | |k]|] eqn:Ht; try done. intros [= <-].
  pose proof (inv_handler _ Hm _ _ _ Ht eq_refl) as Hin.
  destruct Hm. split; simpl; try done.
  - intros t' task'. rewrite lookup_delete_Some. intros [_ E]. eauto.
  - intros t' task'. rewrite lookup_delete_Some. intros [_ E]. eauto.
  - intros t' task' k'. rewrite lookup_delete_Some. intros [_ E]. eauto.
  - intros t1 t2 task1 task2 k1 k2. rewrite !lookup_delete_Some. intros [_ ?] ? [_ ?] ? ?. eauto.
  - intros s Hs. destruct (inv_held0 s Hs) as (t' & task' & k' & E & Ha' & ->). exists t', task', k'.
    rewrite lookup_delete_ne; [done|]. intros <-. rewrite Ht in E. by injection E as <-.
  - intros t' task' k'. rewrite !lookup_delete_Some. intros [Hne E] Hk.
    pose proof (inv_handler0 _ _ _ E Hk). split; [|done]. congruence.
  - intros s t'. rewrite lookup_delete_Some. intros [Hne Hs].
    destruct (inv_inbound0 s t' Hs) as (task' & k' & E & Hk & ->). exists task', k'.
    rewrite lookup_delete_ne; [done|]. intros <-. rewrite Ht in E. injection E as <-. by injection Hk as <-.
  - intros t' k' p. rewrite lookup_delete_Some. intros [_ E]. eauto.
Qed.

(** ** Effects

    What an event does to the stores, the guards and the suspended activations;
    statistics and peer recovery are left out. *)

Definition harmless (o : observation) : bool :=
  match o with
  | ObsSettled _ (Returned (InFlight _)) | ObsSettled _ (Threw _) => true
  | _ => false
  end.

(** The bytes of a new attempt: a fresh envelope, or those of a page entry whose
    message is still queued. *)
Definition startsWith (m : Messenger) (task : Task) (k : messageKey) (data : bytes) : Prop :=
  (exists policy recover env, task = SendTask policy k data recover /\ data = encodeReliableEnvelope env /\
     env_messageId env = keyMessageId k) \/
  (exists index e, task = RetryTask index k data /\ e ∈ pageOf (ms_drainer m) /\ entryKey e = k /\ oe_payload e = data /\
     is_Some (rowsM m !! k)).

(** The router has answered a task with [response]. *)
Definition answers (ev : event) (t : nat) (task : Task) (response : bytes) : Prop :=
  match task with
  | SendTask _ _ _ _ => exists now signal, ev = EvSettleSend t now (RouterResponse response) signal
  | RetryTask _ _ _ => exists now, ev = EvSettleRetry t now (RouterResponse response)
  | RetryResponding _ _ r => r = response
  | _ => False
  end.

Definition ends (m : Messenger) (t : nat) (k : messageKey) : Messenger := release (finish m t) k.

Inductive effect (m : Messenger) (ev : event) : list observation -> Messenger -> Prop :=
| eff_none obs m' : near m m' -> forallb harmless obs = true -> effect m ev obs m'
| eff_cached k c ts m' :
    wfKey k = true -> outbound m k = Some (c, ts) -> near m m' ->
    effect m ev [ObsSettled k (Returned (Delivered (default RESPONSE_GONE_BYTES c) 1 (keyMessageId k)))] m'
| eff_begin k task data o m' :
    wfKey k = true -> tryBeginAttempt (ms_outbox m) k = (true, o) -> startsWith m task k data ->
    near (spawn (set_outbox m o) task).2 m' -> effect m ev [ObsWire (ms_nextTask m) k data] m'
| eff_deliver t task k response now rest m' :
    ms_tasks m !! t = Some task -> attemptKey task = Some k -> answers ev t task response ->
    near (ends (set_outbox (set_idem m (id_record (ms_idem m) k DirOut (Some response) now))
                           (markDelivered (ms_outbox m) k).2) t k) m' ->
    rest = [] \/ rest = [ObsSettled k (Returned (Delivered response 1 (keyMessageId k)))] ->
    effect m ev (ObsDelivered k response :: rest) m'
| eff_queue t policy k data recover error now e s m' :
    ms_tasks m !! t = Some (SendTask policy k data recover) ->
    st_enqueue (ob_store (ms_outbox m)) k data error now = (e, s) ->
    near (ends (set_outbox m (with_store (ms_outbox m) s)) t k) m' ->
    effect m ev [ObsSettled k (Returned (Queued (oe_attempts e) (keyMessageId k) error (oe_nextAttemptAt e)))] m'
| eff_retryFail t task k error now m' :
    ms_tasks m !! t = Some task -> attemptKey task = Some k ->
    near (ends (set_outbox m (recordRetryFailure (ms_outbox m) k error now).2) t k) m' -> effect m ev [] m'
| eff_giveUp t task k error m' :
    ms_tasks m !! t = Some task -> attemptKey task = Some k -> near (ends m t k) m' ->
    effect m ev [ObsSettled k (Threw error)] m'
| eff_wait t task task' k m' :
    ms_tasks m !! t = Some task -> attemptKey task = Some k -> attemptKey task' = Some k ->
    match task' with SendRecovering _ _ _ _ => True | RetryResponding _ _ r => answers ev t task r | _ => False end ->
    near (become m t task') m' -> effect m ev [] m'
| eff_load dr :
    dr_options dr = dr_options (ms_drainer m) ->
    (forall e, e ∈ pageOf dr -> e ∈ pageOf (ms_drainer m) \/ e ∈ rowValues (rowsM m)) -> effect m ev [] (set_drainer m dr)
| eff_reply protocolId data peerKey env c ts :
    ev = EvReceive protocolId data peerKey -> decodeReliableEnvelope data = Ok env ->
    let k := (peerKey, protocolId, env_messageId env) in
    wfKey k = true -> inbound m k = Some (c, ts) ->
    effect m ev [ObsReceived k (Replies (default RESPONSE_GONE_BYTES c))] m
| eff_join protocolId data peerKey env t :
    ev = EvReceive protocolId data peerKey -> decodeReliableEnvelope data = Ok env ->
    let k := (peerKey, protocolId, env_messageId env) in
    wfKey k = true -> inbound m k = None -> ms_inboundInFlight m !! idempotencyKey k = Some t ->
    effect m ev [ObsReceived k (Awaits t false)] m
| eff_start protocolId data peerKey env :
    ev = EvReceive protocolId data peerKey -> decodeReliableEnvelope data = Ok env ->
    let k := (peerKey, protocolId, env_messageId env) in
    let t := ms_nextTask m in
    wfKey k = true -> inbound m k = None -> ms_inboundInFlight m !! idempotencyKey k = None ->
    effect m ev [ObsHandlerStarts t k (env_payload env); ObsReceived k (Awaits t true)]
      (set_inbound (spawn m (HandlerTask k (env_payload env))).2 (<[idempotencyKey k := t]> (ms_inboundInFlight m)) (ms_promises m))
| eff_handled t k payload now outcome m' :
    ev = EvSettleHandler t now outcome ->
    ms_tasks m !! t = Some (HandlerTask k payload) -> settleHandler m t now outcome = Some m' ->
    effect m ev [ObsHandlerSettles t k now outcome] m'
| eff_cleanup t m' : handlerCleanup m t = Some m' -> effect m ev [] m'
| eff_expire now dropped s m' :
    st_dropExpiredMetadata (ob_store (ms_outbox m)) now = (dropped, s) ->
    near (set_outbox m (with_store (ms_outbox m) s)) m' ->
    effect m ev ((fun e => ObsExpired (om_key e)) <$> dropped) m'
| eff_prune ts : effect m ev [ObsPruned ts] (pruneIdempotency m ts)
| eff_restart deps m' : ev = EvRestart deps -> restart m deps = Ok m' -> effect m ev [ObsRestarted] m'.

(** ** Every event has one of these effects *)

Lemma noteDelivered_near m k response now :
  near (set_outbox (set_idem m (id_record (ms_idem m) k DirOut (Some response) now)) (markDelivered (ms_outbox m) k).2)
       (noteDelivered m k response now).
Proof. unfold noteDelivered. etrans; [apply near_note|apply near_clear]. Qed.

Lemma near_ends m m' t k : near m m' -> near (ends m t k) (ends m' t k).
Proof.
  intros (A1 & A2 & A3 & A4 & A5 & A6 & A7). unfold near, ends, release, finish. simpl.
  rewrite A1, A2, A3, A4, A5, A6. done.
Qed.

Lemma send_effect m ev now k payload recover policy :
  inv m -> wfKey k = true ->
  let '(r, m') := beginFramed encodeReliableEnvelope m now k payload recover policy in
  effect m ev (match r with inl s => [ObsSettled k s] | inr t => wireOf m' t end) m'.
Proof.
  intros Hm Hk. unfold beginFramed. pose proof (near_noteFirst m (sloKeyOf k) now) as Hn.
  set (m1 := noteFirstAttempt _ _ _) in *. pose proof (inv_near _ _ Hn Hm) as Hm1.
  rewrite law_check by (done || apply Hm1).
  destruct (id_lookup (ms_idem m1) k DirOut) as [[c ts]|] eqn:El.
  - apply eff_cached with ts; [done| |].
    + unfold outbound. by destruct Hn as (_ & <- & _).
    + etrans; [exact Hn|]. etrans; [|apply near_forget]. case_match; [apply near_bump|done].
  - destruct (tryBeginAttempt (ms_outbox m1) k) as [[|] o] eqn:Et; [|by apply eff_none].
    destruct Hn as (A1 & A2 & A3 & A4 & A5 & A6 & A7). rewrite A1 in Et. simpl.
    unfold wireOf. simpl. rewrite lookup_insert_eq, A6.
    eapply eff_begin; [done|exact Et|left; by eexists _, _, _|].
    unfold near. simpl. rewrite A2, A3, A4, A5. done.
Qed.

Lemma sendFramed_effect m ev now uuid peerId protocolId payload opts policy signal :
  let k := (peerId, protocolId, default uuid (opts_messageId opts)) in
  inv m -> wfKey k = true ->
  let '(r, m') := sendFramed encodeReliableEnvelope m now uuid peerId protocolId payload opts policy signal in
  effect m ev (match r with inl s => [ObsSettled k s] | inr t => wireOf m' t end) m'.
Proof.
  intros k Hm Hk. unfold sendFramed. destruct policy; [by apply send_effect|].
  destruct signal; [by apply eff_none|by apply send_effect].
Qed.

Lemma settleSend_effect m t now outcome signal task s m' :
  ms_tasks m !! t = Some task -> settleSend m t now outcome signal = Some (s, m') ->
  effect m (EvSettleSend t now outcome signal) (match s with Some s' => settledObs (taskKey task) s' | None => [] end) m'.
Proof.
  intros Ht. unfold settleSend. rewrite Ht. destruct task as [policy k data recover| | | | |]; try done.
  set (aborted := match policy with RequestOwned => signal | DurableOutbox => None end).
  destruct (match outcome with RouterResponse _ => _ | RouterError _ => _ end) as [response|err] eqn:Ea.
  - intros [= <- <-]. assert (outcome = RouterResponse response) as ->.
    { destruct outcome as [r|]; [|done]. destruct aborted; [done|]. unfold assertResponseAccepted in Ea.
      repeat case_match; congruence. }
    eapply (eff_deliver _ _ t); [exact Ht|done|by eexists _, _| |by right].
    eapply near_ends, noteDelivered_near.
  - destruct aborted as [reason|]; [|destruct (negb (isRecoverableMessengerSendError _ _))].
    + intros [= <- <-]. by eapply eff_giveUp.
    + intros [= <- <-]. by eapply eff_giveUp.
    + destruct policy.
      * destruct (handleDurableRecoverableFailure _ _ _ _ _) as [r m1] eqn:E. intros [= <- <-].
        unfold handleDurableRecoverableFailure, enqueueFailure in E. destruct (st_enqueue _ _ _ _ _) as [e st] eqn:Es.
        injection E as <- <-. eapply eff_queue; [done..|]. apply near_ends.
        etrans; [apply near_bump|apply near_schedule].
      * destruct recover; simpl.
        -- destruct (if shouldTriggerDhtWalk _ then _ else _) as [walk m2] eqn:E. intros [= <- <-].
           eapply (eff_wait _ _ t _ (SendRecovering _ _ _ _)); [exact Ht|done|done|done|].
           assert (near m m2) as (A1 & A2 & A3 & A4 & A5 & A6 & A7).
           { destruct (shouldTriggerDhtWalk _); [|by injection E as <- <-].
             change m2 with (walk, m2).2. rewrite <- E. etrans; [apply near_forget|apply near_resolve]. }
           unfold near. simpl. by rewrite A1, A2, A3, A4, A5, A6.
        -- intros [= <- <-]. by eapply eff_giveUp.
Qed.

Lemma settleRecovery_effect m ev t signal task s m' :
  ms_tasks m !! t = Some task -> settleRecovery m t signal = Some (s, m') -> effect m ev [ObsSettled (taskKey task) s] m'.
Proof.
  intros Ht. unfold settleRecovery. rewrite Ht. destruct task as [|k err triggered walk| | | |]; try done.
  intros H. assert (exists e, s = Threw e /\ m' = ends m t k) as (e & -> & ->).
  { destruct signal; [destruct triggered|case_match]; try done; injection H as <- <-; eauto. }
  by eapply eff_giveUp.
Qed.

Lemma retryFails_effect m ev t task index k err now :
  ms_tasks m !! t = Some task -> attemptKey task = Some k -> effect m ev [] (retryFails m t index k err now).
Proof.
  intros Ht Ha. unfold retryFails. destruct (recordRetryFailure _ _ _ _) as [u o] eqn:E.
  eapply eff_retryFail; [done..|]. rewrite E. simpl. etrans; [|apply near_retryEnds]. apply near_ends.
  destruct u; [|done]. case_match; [apply near_schedule|done].
Qed.

Lemma retrySucceeds_effect m ev t task index k response now :
  ms_tasks m !! t = Some task -> attemptKey task = Some k -> answers ev t task response ->
  effect m ev [ObsDelivered k response] (retrySucceeds m t index k response now).
Proof.
  intros Ht Ha Hr. eapply eff_deliver; [done..| |by left]. etrans; [|apply near_retryEnds].
  apply near_ends, noteDelivered_near.
Qed.

Lemma settleRetry_effect m t now outcome task r m' :
  ms_tasks m !! t = Some task -> settleRetry decodeReliableEnvelope m t now outcome = Some (r, m') ->
  effect m (EvSettleRetry t now outcome) (deliveredObs (taskKey task) r) m'.
Proof.
  intros Ht. unfold settleRetry. rewrite Ht. destruct task as [| |index k data| | |]; try done.
  destruct outcome as [response|message]; [|intros [= <- <-]; by eapply retryFails_effect].
  destruct (assertResponseAccepted _ _ _); [|intros [= <- <-]; by eapply retryFails_effect].
  case_bool_decide; [destruct (decodeReliableEnvelope _)|]; intros [= <- <-].
  - eapply (eff_wait _ _ t _ (RetryResponding _ _ _)); [exact Ht|done|done|by eexists|done].
  - by eapply retryFails_effect.
  - eapply retrySucceeds_effect; [done|done|by eexists].
Qed.

Lemma settleResponseHandler_effect m ev t now failure task r m' :
  ms_tasks m !! t = Some task -> settleResponseHandler m t now failure = Some (r, m') ->
  effect m ev (deliveredObs (taskKey task) r) m'.
Proof.
  intros Ht. unfold settleResponseHandler. rewrite Ht. destruct task as [| | |index k response| |]; try done.
  destruct failure; intros [= <- <-]; [by eapply retryFails_effect|]. by eapply retrySucceeds_effect.
Qed.

Lemma takeNext_due stopping d : dn_due (takeNext stopping d).2 = dn_due d.
Proof. unfold takeNext. by repeat case_match. Qed.

Lemma takeNext_from stopping d e d' : takeNext stopping d = (Some e, d') -> e ∈ dn_due d.
Proof.
  unfold takeNext. destruct (dn_idle d); [done|]. destruct (dn_due d !! _) as [x|] eqn:Ex; [|done].
  destruct stopping; [done|]. intros [= -> _]. by eapply list_elem_of_lookup_2.
Qed.

Lemma begin_then_release (o o' : ProtocolOutboxAttempts S) k :
  tryBeginAttempt o k = (true, o') -> endAttempt o' k = o.
Proof.
  unfold tryBeginAttempt. case_bool_decide as Hk; [done|]. intros [= <-]. unfold endAttempt. simpl.
  destruct o as [s b i]. simpl in *. unfold with_inflight. simpl. f_equal. apply set_eq. intros x.
  rewrite elem_of_difference, elem_of_union, elem_of_singleton. split; [tauto|]. intros Hx. split; [by right|]. by intros ->.
Qed.

Lemma workerTakes_effect m ev :
  inv m ->
  let '(t, m') := workerTakes m in effect m ev (match t with Some t' => wireOf m' t' | None => [] end) m'.
Proof.
  intros Hm. unfold workerTakes. destruct (dr_active (ms_drainer m)) as [[|d]|] eqn:Ed; [by apply eff_none| |by apply eff_none].
  destruct (takeNext _ d) as [e d'] eqn:Et. set (m1 := set_drainer m _).
  assert (near m m1) as Hn.
  { unfold near, m1, pageOf. simpl. rewrite Ed. pose proof (takeNext_due (dr_stopping (ms_drainer m)) d) as <-. by rewrite Et. }
  destruct e as [entry|]; [|by apply eff_none]. unfold retryOutboxEntry.
  assert (entry ∈ pageOf (ms_drainer m)) as Hin by (unfold pageOf; rewrite Ed; by eapply takeNext_from).
  pose proof (inv_page _ Hm entry Hin) as Hw.
  destruct (tryBeginAttempt (ms_outbox m1) (entryKey entry)) as [[|] o] eqn:Eb.
  - destruct (negb _) eqn:Eh; simpl.
    + apply eff_none; [|done]. etrans; [exact Hn|]. etrans; [|apply near_retryEnds].
      unfold near. simpl. apply begin_then_release in Eb. rewrite Eb. done.
    + unfold wireOf. simpl. rewrite lookup_insert_eq. eapply eff_begin; [done|exact Eb| |unfold near; simpl; split_and!; [done..|apply Hn|done]].
      right. exists (dn_nextIndex d), entry. split_and!; [done..|].
      apply begin_then_release in Eb. apply (f_equal ob_store) in Eb. simpl in Eb. unfold hasEntry in Eh. simpl in Eh.
      rewrite Eb, law_hasEntry in Eh by (done || apply Hm). by apply negb_false_iff, bool_decide_eq_true in Eh.
  - apply eff_none; [|done]. etrans; [exact Hn|apply near_retryEnds].
Qed.

Lemma drainLoads_effect m ev : inv m -> effect m ev [] (drainLoads m).2.
Proof.
  intros Hm. unfold drainLoads, drainStart.
  destruct (dr_active (ms_drainer m)) as [[now|d]|] eqn:Ed; [|by apply eff_none..].
  destruct (dr_stopping (ms_drainer m)); [apply eff_none; [by apply near_idle|done]|]. simpl. unfold readDuePage.
  pose proof (law_readDuePage (ob_store (ms_outbox m)) now (drainBudget (ms_drainer m)) (inv_store _ Hm)) as L.
  destruct (validateProtocolOutboxPageBudget _) as [[]|]; [|apply eff_none; [by apply near_idle|done]]. simpl.
  destruct (st_readDuePage _ _ _) as [page|e]; [|apply eff_none; [by apply near_idle|done]]. simpl.
  destruct (throw_if _ _ _) as [dr|] eqn:E; [|apply eff_none; [by apply near_idle|done]]. simpl.
  apply throw_if_Ok in E as [_ E]. apply throw_if_Ok in E as [_ [= <-]].
  apply eff_load; [done|]. intros e He. right. unfold pageOf in He. simpl in He.
  destruct L as [_ (rest & L & _)]. assert (e ∈ eligible (rowsM m) now (maxPayloadBytes (drainBudget (ms_drainer m)))) as H.
  { unfold rowsM. rewrite L. apply elem_of_app. by left. }
  unfold eligible in H. rewrite (js_sort_perm compareDueEntries), elem_of_js_filter in H. apply H.
Qed.

Lemma receive_effect m protocolId data peerKey :
  inv m -> wfEvent (EvReceive protocolId data peerKey) = true ->
  let '(r, m') := reliableHandler decodeReliableEnvelope m protocolId data peerKey in
  effect m (EvReceive protocolId data peerKey)
    match decodeReliableEnvelope data with
    | Ok env => startedObs m' (peerKey, protocolId, env_messageId env) r
    | Err _ => []
    end m'.
Proof.
  intros Hm Hw. simpl in Hw. unfold reliableHandler. destruct (decodeReliableEnvelope data) as [env|e] eqn:Ed; [|by apply eff_none].
  rewrite law_check by (try done; apply Hm). destruct (id_lookup _ _ _) as [[c ts]|] eqn:E1; [by eapply eff_reply|].
  destruct (ms_inboundInFlight m !! _) as [p|] eqn:E2; [by eapply eff_join|].
  simpl. rewrite lookup_insert_eq. by eapply eff_start.
Qed.

Lemma expire_effect m ev now :
  let '(dropped, m') := dropExpiredOutbox m now in
  effect m ev ((fun e => ObsExpired (om_key e)) <$> dropped) m'.
Proof.
  unfold dropExpiredOutbox, dropExpiredMetadata. destruct (st_dropExpiredMetadata _ now) as [dropped s] eqn:E.
  eapply eff_expire; [exact E|]. etrans; [|apply near_foldl; intros; apply near_clear].
  apply near_foldl. intros; apply near_forget.
Qed.

Lemma step_effect m ev obs m' : inv m -> wfEvent ev = true -> step m ev = Some (obs, m') -> effect m ev obs m'.
Proof.
  intros Hm Hw. destruct ev; simpl.
  - match goal with |- context [effect m ?ev] => pose proof (sendFramed_effect m ev now uuid peerId protocolId payload opts policy signal Hm Hw) as H end.
    destruct (sendFramed _ _ _ _ _ _ _ _ _ _) as [r m1]. by intros [= <- <-].
  - destruct (ms_tasks m !! t) as [task|] eqn:Ht; [|done]. simpl. destruct (settleSend _ _ _ _ _) as [[s m1]|] eqn:E; [|done].
    intros [= <- <-]. by eapply settleSend_effect.
  - destruct (ms_tasks m !! t) as [task|] eqn:Ht; [|done]. simpl. destruct (settleRecovery _ _ _) as [[s m1]|] eqn:E; [|done].
    intros [= <- <-]. by eapply settleRecovery_effect.
  - intros [= <- <-]. apply eff_none; [|done]. unfold near, processOutboxTick, tick, pageOf. simpl.
    destruct (dr_stopping _); [done|]. by destruct (dr_active (ms_drainer m)) as [[]|] eqn:E; simpl; rewrite ?E.
  - intros [= <- <-]. by apply eff_none.
  - intros [= <- <-]. by apply drainLoads_effect.
  - pose proof (workerTakes_effect m EvWorkerTakes Hm) as H. destruct (workerTakes m) as [t m1]. by intros [= <- <-].
  - destruct (ms_tasks m !! t) as [task|] eqn:Ht; [|done]. simpl. destruct (settleRetry _ _ _ _ _) as [[s m1]|] eqn:E; [|done].
    intros [= <- <-]. by eapply settleRetry_effect.
  - destruct (ms_tasks m !! t) as [task|] eqn:Ht; [|done]. simpl. destruct (settleResponseHandler _ _ _ _) as [[s m1]|] eqn:E; [|done].
    intros [= <- <-]. by eapply settleResponseHandler_effect.
  - intros [= <- <-]. apply eff_none; [|done]. unfold drainEnds, drainSettle.
    destruct (dr_active (ms_drainer m)) as [[|d]|]; [done| |done]. destruct (mapSettled d); [by apply near_idle|done].
  - pose proof (receive_effect m protocolId data peerKey Hm Hw) as H. destruct (reliableHandler _ _ _ _ _) as [r m1].
    destruct (decodeReliableEnvelope data); by intros [= <- <-].
  - destruct (ms_tasks m !! t) as [task|] eqn:Ht; [|done]. simpl. destruct (settleHandler _ _ _ _) as [m1|] eqn:E; [|done].
    intros [= <- <-]. pose proof E as E'. unfold settleHandler in E'. rewrite Ht in E'. destruct task; try done. by eapply eff_handled.
  - destruct (handlerCleanup _ _) as [m1|] eqn:E; [|done]. intros [= <- <-]. by eapply eff_cleanup.
  - intros [= <- <-]. by apply eff_none.
  - pose proof (expire_effect m (EvExpire now) now) as H. destruct (dropExpiredOutbox m now) as [l m1]. by intros [= <- <-].
  - intros [= <- <-]. apply eff_prune.
  - intros [= <- <-]. by apply eff_none.
  - destruct (restart m deps) as [m1|] eqn:E; [|done]. intros [= <- <-]. by eapply eff_restart.
Qed.

(** ** The invariant is kept *)

Lemma rows_wf m k e : inv m -> rowsM m !! k = Some e -> entryKey e = k /\ wfKey k = true.
Proof.
  intros Hm He. destruct (law_rows _ (inv_store _ Hm)) as [Hk Hw]. split; [by apply Hk|by apply (Hw k e)].
Qed.

Lemma attempt_wf m t task k : inv m -> ms_tasks m !! t = Some task -> attemptKey task = Some k -> wfKey k = true.
Proof. intros Hm Ht Ha. apply (inv_wf _ Hm) in Ht. destruct task; simpl in *; congruence. Qed.

Lemma new_inv deps m : st_ok (dep_outboxStore deps) -> id_ok (dep_idempotencyStore deps) -> newMessenger deps = Ok m -> inv m.
Proof.
  intros Hs Hi H. unfold newMessenger in H. apply result_bind_Ok in H as (o & Ho & H). apply result_bind_Ok in H as (dr & Hd & [= <-]).
  destruct (newOutbox_spec _ _ _ Hs Ho) as (Hok & _ & Hf & _).
  assert (pageOf dr = [] /\ optionsOk (dr_options dr)) as [Hp Hopt].
  { unfold newDrainer in Hd. apply result_bind_Ok in Hd as (r & Hr & [= <-]). split; [done|]. by eapply resolveOptions_Ok. }
  split; simpl; try done; try (intros *; rewrite lookup_empty; done).
  - rewrite Hf. intros s Hin. by apply not_elem_of_empty in Hin.
  - rewrite Hp. intros e Hin. by apply not_elem_of_nil in Hin.
Qed.

Lemma effect_inv m ev obs m' : inv m -> effect m ev obs m' -> inv m'.
Proof.
  intros Hm Heff. case_effect Heff; try done.
  - by eapply inv_near.
  - by eapply inv_near.
  - eapply inv_near; [exact Hn|]. destruct Hs as [(? & ? & ? & -> & _)|(? & ? & -> & _)]; by eapply spawn_attempt.
  - eapply inv_near; [exact Hn|]. eapply end_attempt; [|exact Ht|done].
    pose proof (attempt_wf _ _ _ _ Hm Ht Ha). apply (inv_markDelivered (set_idem m _)); [by apply inv_record_out|done].
  - eapply inv_near; [exact Hn|]. eapply end_attempt; [|exact Ht|done]. apply inv_set_store; [done|].
    pose proof (law_enqueue _ k' data err n (inv_store _ Hm) (inv_wf _ Hm _ _ Ht)) as L. rewrite Hq in L. apply L.
  - eapply inv_near; [exact Hn|]. eapply end_attempt; [|exact Ht|done]. unfold recordRetryFailure.
    pose proof (law_recordRetryFailure _ k' err n (inv_store _ Hm) (attempt_wf _ _ _ _ Hm Ht Ha)) as L.
    destruct (st_recordRetryFailure _ _ _ _) as [updated s]. by apply inv_set_store; [|apply L].
  - eapply inv_near; [exact Hn|]. by eapply end_attempt.
  - eapply inv_near; [exact Hn|]. eapply become_attempt; [done..|]. destruct tk'; simpl in *; congruence.
  - destruct Hm. split; try done; [|simpl; by rewrite Ho]. intros e' [He|He]%Hp; [by apply inv_page0|].
    rewrite elem_of_rowValues in He by apply law_rows, inv_store0. by apply (law_rows _ inv_store0) in He.
  - by apply spawn_handler.
  - by eapply inv_settleHandler.
  - by eapply inv_handlerCleanup.
  - eapply inv_near; [exact Hn|]. apply inv_set_store; [done|].
    pose proof (law_dropExpired _ n (inv_store _ Hm)) as L. rewrite Hx in L. apply L.
  - by apply inv_prune.
  - eapply new_inv; [| |exact Hr]; apply Hm.
Qed.

Lemma step_inv m ev obs m' : inv m -> wfEvent ev = true -> step m ev = Some (obs, m') -> inv m'.
Proof. intros Hm Hw Hs. eapply effect_inv; [done|by eapply step_effect]. Qed.

Notation run := (run encodeReliableEnvelope decodeReliableEnvelope).

Lemma run_inv m evs tr m' : inv m -> run m evs tr m' -> inv m'.
Proof.
  intros Hm Hr. induction Hr as [|m evs tr m1 ev obs m2 Hr IH Hw Hs]; [done|]. eapply step_inv; [by apply IH|exact Hw|exact Hs].
Qed.
End Theory.
