(* ===== verification/MessengerExample.v ===== *)
(** * A messenger to run

    Concrete stores, a concrete codec of the envelope and a concrete run, on which
    the theorems about messengers are instantiated. *)

From S2P Require Import Prelude Bytes CodePoints OutboxStore OutboxMemory OutboxSqlite ProtocolOutbox Idempotency IdempotencySqlite OutboxDrainer Messenger.

Open Scope Z_scope.

(** SQLite stores whose statements return rows in the order of the table. *)
Definition tableOrder (statement : string) (A : Type) (rows : list A) : list A := rows.

Lemma tableOrder_perm st A rows : tableOrder st A rows ≡ₚ rows.
Proof. done. Qed.

Notation exS := Sqlite.store.
Notation exI := SqliteIdempotency.store.

#[export] Instance exStore : OutboxStore exS := Sqlite.outboxStore tableOrder.
#[export] Instance exStoreLaws : OutboxStoreLaws exS := SqliteLaws.outboxStoreLaws tableOrder tableOrder_perm.
#[export] Instance exIdem : IdempotencyStore exI := SqliteIdempotency.idempotencyStore.
#[export] Instance exIdemLaws : IdempotencyLaws exI := SqliteIdempotency.idempotencyLaws.

(** An envelope as its id, two bytes and a mark per unit, and its payload. *)
Definition plainEncode (env : ReliableEnvelopeMsg) : bytes :=
  concat ((fun u => [Byte.x01; u.1; u.2]) <$> env_messageId env) ++ Byte.x00 :: env_payload env.

Fixpoint plainDecodeFrom (id : jsstr) (data : bytes) : result string ReliableEnvelopeMsg :=
  match data with
  | Byte.x00 :: payload => Ok {| env_messageId := id; env_version := 1; env_tsMs := 0; env_payload := payload |}
  | _ :: hi :: lo :: rest => plainDecodeFrom (id ++ [(hi, lo)]) rest
  | _ => Err "truncated"%string
  end.

Definition plainDecode (data : bytes) : result string ReliableEnvelopeMsg := plainDecodeFrom [] data.

Lemma plain_roundtrip env :
  exists env', plainDecode (plainEncode env) = Ok env' /\
    env_messageId env' = env_messageId env /\ env_payload env' = env_payload env.
Proof.
  destruct env as [id v ts payload]. unfold plainDecode, plainEncode. simpl.
  assert (forall pre, exists env', plainDecodeFrom pre (concat ((fun u => [Byte.x01; u.1; u.2]) <$> id) ++ Byte.x00 :: payload) = Ok env' /\
    env_messageId env' = pre ++ id /\ env_payload env' = payload) as H; [|apply (H [])].
  induction id as [|[hi lo] id IH]; intros pre; simpl.
  - eexists. split; [done|]. simpl. by rewrite app_nil_r.
  - destruct (IH (pre ++ [(hi, lo)])) as (env' & E & Hid & Hp). exists env'. split_and!; [done| |done].
    by rewrite Hid, <- app_assoc.
Qed.

Definition exDeps : MessengerDeps exS exI :=
  {| dep_outboxStore := Sqlite.open ∅ {| Sqlite.so_maxAgeMs := None; Sqlite.so_backoffFor := None |}; dep_idempotencyStore := ∅; dep_backoffs := None; dep_maxAgeMs := None;
     dep_outboxDrain := {| do_batchSize := None; do_concurrency := None; do_maxPayloadBytes := None |};
     dep_sloWindowSamples := None; dep_hasResolvePeer := true |}.

(** A value computed by a function that does not fail on these arguments. *)
Definition got {E A} (r : result E A) (H : match r with Ok _ => true | Err _ => false end = true) : A :=
  match r as r' return match r' with Ok _ => true | Err _ => false end = true -> A with
  | Ok a => fun _ => a
  | Err _ => fun H' => match Bool.diff_false_true H' with end
  end H.

Lemma got_ok {E A} (r : result E A) H : r = Ok (got r H).
Proof. by destruct r. Qed.

Definition exMessenger : Messenger exS exI := got (newMessenger exDeps) eq_refl.

Definition peerA : jsstr := js "A".
Definition peerB : jsstr := js "B".
Definition exProtocol : jsstr := js "/dkg/chat".
Definition exId : jsstr := js "m1".
Definition exPayload : bytes := [Byte.x68; Byte.x69].
Definition exAnswer : bytes := [Byte.x6f; Byte.x6b].
Definition exOpts : RequestOwnedSendOpts := {| opts_messageId := None; opts_recoverPeerAfterFailure := None |}.
Definition exTimeout : string := "operation timed out".

(** The message to B, and the one that B sends. *)
Definition keyAB : messageKey := (peerB, exProtocol, exId).
Definition keyBA : messageKey := (peerB, exProtocol, js "n1").
Definition dataBA : bytes :=
  plainEncode {| env_messageId := js "n1"; env_version := 1; env_tsMs := 0; env_payload := exPayload |}.

(** A send fails and is queued, a drain retries it and fails again; a message of
    B is handled; the node restarts, and B's message arrives once more. *)
Definition exSends : list (event (S:=exS) (I:=exI)) :=
  [EvSend 1000 exId peerB exProtocol exPayload exOpts DurableOutbox None;
   EvSettleSend 0 1010 (RouterError exTimeout) None].

Definition exDrains : list (event (S:=exS) (I:=exI)) :=
  [EvTick 100000; EvDrainLoads; EvWorkerTakes].

Definition exReceives : list (event (S:=exS) (I:=exI)) :=
  [EvSettleRetry 1 100010 (RouterError exTimeout);
   EvReceive exProtocol dataBA peerB;
   EvSettleHandler 2 100020 (Ok exAnswer);
   EvRestart exDeps;
   EvReceive exProtocol dataBA peerB].

Definition after (evs : list (event (S:=exS) (I:=exI))) : list observation * Messenger exS exI :=
  default ([], exMessenger) (exec plainEncode plainDecode [] exMessenger evs).

Lemma after_run evs :
  match exec plainEncode plainDecode [] exMessenger evs with Some _ => true | None => false end = true ->
  run plainEncode plainDecode exMessenger evs (after evs).1 (after evs).2.
Proof.
  unfold after. destruct (exec _ _ _ _ _) as [[tr m]|] eqn:E; [|done]. intros _. simpl.
  change evs with ([] ++ evs). eapply exec_run; [constructor|exact E].
Qed.

Lemma exMessenger_ok : newMessenger exDeps = Ok exMessenger.
Proof. apply got_ok. Qed.
