(* ===== verification/MessengerSafety.v ===== *)
(** * What the messenger guarantees

    Over any lawful stores and for every run from a start, restarts included:
    attempts and handlers are exclusive, a queued message stays queued until it is
    delivered or expires, a message is handled once and its copies get the recorded
    answer, and a failed retry is rescheduled. *)

From S2P Require Import Prelude Bytes CodePoints OutboxStore OutboxMemory ProtocolOutbox Idempotency OutboxDrainer Messenger MessengerTheory MessengerExample.

Open Scope Z_scope.

(** An element of an extended trace is in the old part or in the new one. *)
Lemma app_cons_split {A} (l l' l1 l2 : list A) x :
  l ++ l' = l1 ++ x :: l2 ->
  (exists l2', l = l1 ++ x :: l2' /\ l2 = l2' ++ l') \/ (exists l1', l' = l1' ++ x :: l2 /\ l1 = l ++ l1').
Proof.
  intros E. apply app_eq_inv in E as [(k & -> & E)|(k & -> & E)].
  - destruct k as [|y k]; simpl in E.
    + right. exists []. rewrite !app_nil_r. by split.
    + injection E as <- ->. left. by exists k.
  - right. by exists k.
Qed.

Section Safety.
Context {S I : Type} `{!OutboxStore S, !OutboxStoreLaws S, !IdempotencyStore I, !IdempotencyLaws I}.
Variable encodeReliableEnvelope : ReliableEnvelopeMsg -> bytes.
Variable decodeReliableEnvelope : bytes -> result string ReliableEnvelopeMsg.

Notation Messenger := (Messenger S I).
Notation event := (event (S:=S) (I:=I)).
Notation effect := (effect encodeReliableEnvelope decodeReliableEnvelope).
Notation run := (run encodeReliableEnvelope decodeReliableEnvelope).
Implicit Types m : Messenger.

(** A messenger constructed over stores in a lawful state. *)
Definition starts (deps : MessengerDeps S I) (m : Messenger) : Prop :=
  st_ok (dep_outboxStore deps) /\ id_ok (dep_idempotencyStore deps) /\ newMessenger deps = Ok m.

Lemma starts_inv deps m : starts deps m -> inv m.
Proof. intros (Hs & Hi & H). by eapply new_inv. Qed.

(** Nothing is suspended at the start. *)
Lemma starts_idle deps m : starts deps m -> ms_tasks m = ∅ /\ ms_promises m = ∅ /\ pageOf (ms_drainer m) = [].
Proof.
  intros (_ & _ & H). unfold newMessenger in H. apply result_bind_Ok in H as (o & _ & H).
  apply result_bind_Ok in H as (dr & Hd & [= <-]). unfold newDrainer in Hd. by apply result_bind_Ok in Hd as (ro & _ & [= <-]).
Qed.

(** ** Rows *)

(** The entry of a message after more failures. *)
Definition keeps (e e' : ProtocolOutboxEntry) : Prop :=
  oe_payload e' = oe_payload e /\ oe_firstFailureAt e' = oe_firstFailureAt e /\ oe_attempts e <= oe_attempts e'.

#[local] Instance keeps_refl : Reflexive keeps.
Proof. intros e. by unfold keeps. Qed.

#[local] Instance keeps_trans : Transitive keeps.
Proof. intros e1 e2 e3 (A1 & A2 & A3) (B1 & B2 & B3). unfold keeps. split_and!; [congruence..|lia]. Qed.

Lemma advanced_keeps b err now e : keeps e (advanced b err now e).
Proof. unfold keeps, advanced. simpl. split_and!; [done..|lia]. Qed.

Lemma near_rows m m' : near m m' -> rowsM m' = rowsM m.
Proof. intros (E & _). unfold rowsM. by rewrite E. Qed.

Lemma rows_markDelivered m k :
  inv m -> wfKey k = true -> st_rows (ob_store (markDelivered (ms_outbox m) k).2) = delete k (rowsM m).
Proof.
  intros Hm Hk. unfold markDelivered. pose proof (law_markDelivered _ k (inv_store _ Hm) Hk) as L.
  destruct (st_markDelivered _ k) as [b s]. destruct L as (_ & _ & V). unfold st_rows. simpl. by rewrite V.
Qed.

Lemma rows_retry m k err now :
  inv m -> wfKey k = true ->
  st_rows (ob_store (recordRetryFailure (ms_outbox m) k err now).2)
    = alter (advanced (ov_backoff (st_view (ob_store (ms_outbox m)))) err now) k (rowsM m).
Proof.
  intros Hm Hk. unfold recordRetryFailure. pose proof (law_recordRetryFailure _ k err now (inv_store _ Hm) Hk) as L.
  destruct (st_recordRetryFailure _ _ _ _) as [b s]. destruct L as (_ & _ & V). unfold st_rows. simpl. by rewrite V.
Qed.

Definition isQueued (o : observation) : bool :=
  match o with ObsSettled _ (Returned (Queued _ _ _ _)) => true | _ => false end.

Definition backoffM (m : Messenger) : Z -> Z := ov_backoff (st_view (ob_store (ms_outbox m))).
Definition expiredM (m : Messenger) (now : Z) : ProtocolOutboxEntry -> bool :=
  isExpired (ov_maxAgeMs (st_view (ob_store (ms_outbox m)))) now.

(** How an event changes the rows. *)
Inductive rowChange (m : Messenger) (obs : list observation) (rows : Rows) : Prop :=
| rc_same : existsb isQueued obs = false -> rows = rowsM m -> rowChange m obs rows
| rc_delivered k r :
    existsb isQueued obs = false -> ObsDelivered k r ∈ obs -> rows = delete k (rowsM m) -> rowChange m obs rows
| rc_queued t policy k data recover err now :
    let e := enqueued (backoffM m) (rowsM m) k data err now in
    ms_tasks m !! t = Some (SendTask policy k data recover) ->
    obs = [ObsSettled k (Returned (Queued (oe_attempts e) (keyMessageId k) err (oe_nextAttemptAt e)))] ->
    rows = <[k := e]> (rowsM m) -> rowChange m obs rows
| rc_failed k err now :
    existsb isQueued obs = false -> rows = alter (advanced (backoffM m) err now) k (rowsM m) -> rowChange m obs rows
| rc_expired now :
    existsb isQueued obs = false ->
    (forall k e, rowsM m !! k = Some e -> expiredM m now e = true -> ObsExpired k ∈ obs) ->
    rows = filter (fun ke => expiredM m now ke.2 = false) (rowsM m) -> rowChange m obs rows.

Lemma harmless_not_queued obs : forallb harmless obs = true -> existsb isQueued obs = false.
Proof.
  induction obs as [|o obs IH]; simpl; [done|]. intros [Ho Hobs]%andb_true_iff. rewrite (IH Hobs), orb_false_r.
  by destruct o as [| ? [[]|]| | | | | | |].
Qed.

Lemma expire_rowChange m now dropped s :
  inv m -> st_dropExpiredMetadata (ob_store (ms_outbox m)) now = (dropped, s) ->
  rowChange m ((fun e => ObsExpired (om_key e)) <$> dropped) (st_rows s).
Proof.
  intros Hm Hx. pose proof (law_dropExpired _ now (inv_store _ Hm)) as L. rewrite Hx in L. destruct L as (_ & Hl & V).
  apply rc_expired with now.
  - clear. by induction dropped.
  - intros k e He Ee. apply list_elem_of_fmap. exists (entryMetadata e). destruct (rows_wf _ _ _ Hm He) as [Hk _].
    split; [by rewrite <- Hk|]. rewrite Hl. apply list_elem_of_fmap. exists e. split; [done|]. apply elem_of_js_filter.
    split; [|done]. apply elem_of_rowValues; [apply law_rows, Hm|]. by rewrite Hk.
  - unfold st_rows. by rewrite V.
Qed.

Lemma restart_rows m deps m' : inv m -> restart m deps = Ok m' -> rowsM m' = rowsM m.
Proof.
  intros Hm Hr. unfold restart, newMessenger in Hr. apply result_bind_Ok in Hr as (o & Ho & Hr).
  apply result_bind_Ok in Hr as (dr & _ & [= <-]). by destruct (newOutbox_spec _ _ _ (inv_store _ Hm) Ho) as (_ & R & _).
Qed.

Lemma effect_rows m ev obs m' : inv m -> effect m ev obs m' -> rowChange m obs (rowsM m').
Proof.
  intros Hm Heff. case_effect Heff;
    try (apply near_rows in Hn; rewrite Hn); try (apply rc_same; done).
  - apply rc_same; [by apply harmless_not_queued|done].
  - apply rc_same; [done|]. apply begin_then_release in Hb. unfold rowsM. simpl. by rewrite <- Hb.
  - apply rc_delivered with k' r'; [by destruct Hrest as [->| ->]|left|].
    apply rows_markDelivered; [done|by eapply attempt_wf].
  - pose proof (law_enqueue _ k' data err n (inv_store _ Hm) (inv_wf _ Hm _ _ Ht)) as L.
    rewrite Hq in L. destruct L as (_ & -> & V). eapply rc_queued; [exact Ht|done|]. unfold rowsM at 1, st_rows. simpl. by rewrite V.
  - apply rc_failed with k' err n; [done|]. apply rows_retry; [done|by eapply attempt_wf].
  - apply rc_same; [done|]. unfold settleHandler in Hs. rewrite Ht in Hs. injection Hs as <-. by destruct out.
  - apply rc_same; [done|]. unfold handlerCleanup in Hc. destruct (ms_tasks m !! u) as [[]|]; try done. by injection Hc as <-.
  - by apply expire_rowChange with n.
  - apply rc_same; [done|]. by eapply restart_rows.
Qed.

(** A row changes only by failures, and disappears only when its message is
    delivered or expires. *)
Lemma rowChange_kept m obs rows k e :
  rowChange m obs rows -> rowsM m !! k = Some e ->
  (exists r, ObsDelivered k r ∈ obs) \/ ObsExpired k ∈ obs \/ exists e', rows !! k = Some e' /\ keeps e e'.
Proof.
  intros Hc He. destruct Hc as [_ ->|k' r _ Hin ->|t pol k' data rec err now e' _ _ ->|k' err now _ ->|now _ Hx ->].
  - right; right. by exists e.
  - destruct (decide (k' = k)) as [->|Hne]; [left; by exists r|]. right; right. exists e. by rewrite lookup_delete_ne.
  - right; right. destruct (decide (k' = k)) as [->|Hne]; [|exists e; by rewrite lookup_insert_ne].
    exists e'. rewrite lookup_insert_eq. split; [done|]. unfold e', enqueued. rewrite He. apply advanced_keeps.
  - right; right. destruct (decide (k' = k)) as [->|Hne]; [|exists e; by rewrite lookup_alter_ne].
    rewrite lookup_alter_eq, He. eexists. split; [done|]. apply advanced_keeps.
  - destruct (expiredM m now e) eqn:Ee; [right; left; eauto|]. right; right. exists e. split; [|done].
    by apply map_lookup_filter_Some.
Qed.

(** The payload of a row was that of the row before, or of the send that
    failed. *)
Lemma rowChange_origin m obs rows k e' :
  rowChange m obs rows -> rows !! k = Some e' ->
  (exists e, rowsM m !! k = Some e /\ oe_payload e = oe_payload e') \/
  (exists t policy recover, ms_tasks m !! t = Some (SendTask policy k (oe_payload e') recover)).
Proof.
  intros Hc He. destruct Hc as [_ ->|k' r _ Hin ->|t pol k' data rec err now e Ht _ ->|k' err now _ ->|now _ Hx ->].
  - left. by exists e'.
  - apply lookup_delete_Some in He as [_ He]. left. by exists e'.
  - apply lookup_insert_Some in He as [[<- <-]|[_ He]]; [|left; by exists e'].
    unfold e, enqueued. destruct (rowsM m !! k') as [e0|] eqn:E; [left; by exists e0|]. right. eauto.
  - left. apply lookup_alter_Some in He as [(<- & e0 & E & ->)|[_ He]]; [by exists e0|by exists e'].
  - apply map_lookup_filter_Some in He as [He _]. left. by exists e'.
Qed.

Lemma rowChange_queued m obs rows k a i err n :
  rowChange m obs rows -> ObsSettled k (Returned (Queued a i err n)) ∈ obs ->
  obs = [ObsSettled k (Returned (Queued a i err n))] /\
  exists e, rows !! k = Some e /\ oe_attempts e = a /\ oe_nextAttemptAt e = n.
Proof.
  intros Hc Hin. assert (existsb isQueued obs = true) as Hq.
  { apply existsb_exists. exists (ObsSettled k (Returned (Queued a i err n))). split; [by apply list_elem_of_In|done]. }
  destruct Hc as [E ->|k' r E _ ->|t pol k' data rec err' now e Ht -> ->|k' err' now E ->|now E Hx ->]; try congruence.
  apply list_elem_of_singleton in Hin. injection Hin as -> -> -> -> ->. split; [done|]. exists e. by rewrite lookup_insert_eq.
Qed.

(** ** Where the bytes of an attempt come from *)

(** Bytes that were handed to the router for a message, or were queued for it at
    the start. *)
Definition wired (m0 : Messenger) (tr : list observation) (k : messageKey) (data : bytes) : Prop :=
  (exists t, ObsWire t k data ∈ tr) \/ (exists e, rowsM m0 !! k = Some e /\ oe_payload e = data).

Record traced (m0 : Messenger) (tr : list observation) (m : Messenger) : Prop := {
  traced_rows : forall k e, rowsM m !! k = Some e -> wired m0 tr k (oe_payload e);
  traced_page : forall e, e ∈ pageOf (ms_drainer m) -> wired m0 tr (entryKey e) (oe_payload e);
  traced_tasks : forall t task, ms_tasks m !! t = Some task ->
    match task with SendTask _ k data _ | RetryTask _ k data => wired m0 tr k data | _ => True end }.

Lemma wired_app m0 tr obs k data : wired m0 tr k data -> wired m0 (tr ++ obs) k data.
Proof. intros [[t Ht]|H]; [left|by right]. exists t. apply elem_of_app. by left. Qed.

Lemma effect_page m ev obs m' e :
  effect m ev obs m' -> e ∈ pageOf (ms_drainer m') -> e ∈ pageOf (ms_drainer m) \/ e ∈ rowValues (rowsM m).
Proof.
  intros Heff. case_effect Heff;
    try (destruct Hn as (_ & _ & _ & _ & _ & _ & Hn & _); intros He; left; exact (Hn _ He)); try (intros He; left; exact He).
  - intros He. by apply Hp.
  - unfold settleHandler in Hs. rewrite Ht in Hs. injection Hs as <-. left. by destruct out.
  - unfold handlerCleanup in Hc. destruct (ms_tasks m !! u) as [[]|]; try done. injection Hc as <-. by left.
  - unfold restart, newMessenger in Hr. apply result_bind_Ok in Hr as (o' & _ & Hr). apply result_bind_Ok in Hr as (dr & Hd & [= <-]).
    unfold newDrainer in Hd. apply result_bind_Ok in Hd as (r' & _ & [= <-]). by intros ?%not_elem_of_nil.
Qed.

(** A task is an old one, or an attempt that has just been handed to the router,
    or one whose bytes do not matter any more. *)
Lemma effect_tasks m ev obs m' t task :
  effect m ev obs m' -> ms_tasks m' !! t = Some task ->
  ms_tasks m !! t = Some task \/
  match task with
  | SendTask _ k data _ => t = ms_nextTask m /\ ObsWire t k data ∈ obs
  | RetryTask _ k data => t = ms_nextTask m /\ ObsWire t k data ∈ obs
  | SendRecovering k _ _ _ => exists old, ms_tasks m !! t = Some old /\ attemptKey old = Some k
  | RetryResponding _ k r => exists old, ms_tasks m !! t = Some old /\ attemptKey old = Some k /\ answers ev t old r
  | HandlerTask k payload => t = ms_nextTask m /\ ObsHandlerStarts t k payload ∈ obs
  | HandlerSettled k => exists payload, ms_tasks m !! t = Some (HandlerTask k payload)
  end.
Proof.
  intros Heff. case_effect Heff;
    try (apply near_tasks in Hn; rewrite Hn); simpl; try (by left); try (rewrite lookup_delete_Some; intros [_ ?]; by left).
  - rewrite lookup_insert_Some. intros [[<- <-]|[_ ?]]; [|by left]. right.
    destruct Hs as [(? & ? & ? & -> & _)|(? & ? & -> & _)]; (split; [done|by apply list_elem_of_singleton]).
  - rewrite lookup_insert_Some. intros [[<- <-]|[_ ?]]; [|by left]. right. destruct tk'; try done; simpl in Ha'; simplify_eq; eauto.
  - rewrite lookup_insert_Some. intros [[<- <-]|[_ ?]]; [|by left]. right. split; [done|left].
  - unfold settleHandler in Hs. rewrite Ht in Hs. injection Hs as <-. simpl.
    assert (ms_tasks (match out with Ok response => set_idem m (id_record (ms_idem m) k' DirIn (Some response) n) | Err _ => m end)
            = ms_tasks m) as -> by (by destruct out).
    rewrite lookup_insert_Some. intros [[<- <-]|[_ ?]]; [right; eauto|by left].
  - unfold handlerCleanup in Hc. destruct (ms_tasks m !! u) as [[]|]; try done. injection Hc as <-. simpl.
    rewrite lookup_delete_Some. intros [_ ?]. by left.
  - unfold restart, newMessenger in Hr. apply result_bind_Ok in Hr as (o' & _ & Hr). apply result_bind_Ok in Hr as (dr & Hd & [= <-]).
    simpl. by rewrite lookup_empty.
Qed.

Lemma run_traced m0 evs tr m : inv m0 -> pageOf (ms_drainer m0) = [] -> ms_tasks m0 = ∅ -> run m0 evs tr m -> traced m0 tr m.
Proof.
  intros Hm Hp Ht Hr. induction Hr as [|m0 evs tr m1 ev obs m2 Hr IH Hw Hs].
  - split; [right; eauto| |].
    + rewrite Hp. by intros e ?%not_elem_of_nil.
    + intros t task. by rewrite Ht, lookup_empty.
  - destruct (IH Hm Hp Ht) as [T1 T2 T3]. pose proof (run_inv _ _ _ _ _ _ Hm Hr) as Hm1.
    pose proof (step_effect _ _ _ _ _ _ Hm1 Hw Hs) as He. split.
    + intros k e Hk. destruct (rowChange_origin _ _ _ _ _ (effect_rows _ _ _ _ Hm1 He) Hk) as [(e0 & E & <-)|(t & pol & rec & E)].
      * by apply wired_app, T1.
      * apply wired_app. exact (T3 _ _ E).
    + intros e Hin. apply wired_app. destruct (effect_page _ _ _ _ _ He Hin) as [?|Hv]; [by apply T2|].
      apply T1. by apply elem_of_rowValues in Hv; [|apply law_rows, Hm1].
    + intros t task Htask. destruct (effect_tasks _ _ _ _ _ _ He Htask) as [E|E].
      * specialize (T3 _ _ E). destruct task; try done; by apply wired_app.
      * destruct task; try done; destruct E as [_ E]; left; exists t; apply elem_of_app; by right.
Qed.

(** ** The idempotency store *)

Inductive idemChange (m : Messenger) (obs : list observation) (i : I) : Prop :=
| ic_same : i = ms_idem m -> idemChange m obs i
| ic_out k r now :
    wfKey k = true -> ObsDelivered k r ∈ obs -> i = id_record (ms_idem m) k DirOut (Some r) now -> idemChange m obs i
| ic_in t k payload r now :
    ms_tasks m !! t = Some (HandlerTask k payload) -> obs = [ObsHandlerSettles t k now (Ok r)] ->
    i = id_record (ms_idem m) k DirIn (Some r) now -> idemChange m obs i
| ic_prune ts : obs = [ObsPruned ts] -> i = (id_pruneOlderThan (ms_idem m) ts).2 -> idemChange m obs i.

Lemma effect_idem m ev obs m' : inv m -> effect m ev obs m' -> idemChange m obs (ms_idem m').
Proof.
  intros Hm Heff. case_effect Heff;
    try (destruct Hn as (_ & Hn & _); rewrite Hn); try (by apply ic_same).
  - eapply ic_out; [by eapply attempt_wf|left|done].
  - unfold settleHandler in Hs. rewrite Ht in Hs. injection Hs as <-. destruct out; [by eapply ic_in|by apply ic_same].
  - unfold handlerCleanup in Hc. destruct (ms_tasks m !! u) as [[]|]; try done. injection Hc as <-. by apply ic_same.
  - by eapply ic_prune.
  - unfold restart, newMessenger in Hr. apply result_bind_Ok in Hr as (o' & _ & Hr). apply result_bind_Ok in Hr as (dr & Hd & [= <-]).
    by apply ic_same.
Qed.

(** A record stays until it is pruned. *)
Lemma idemChange_keeps m obs i k d c ts :
  inv m -> wfKey k = true -> idemChange m obs i -> id_lookup (ms_idem m) k d = Some (c, ts) ->
  (forall ts', ObsPruned ts' ∈ obs -> ts' <= ts) -> id_lookup i k d = Some (c, ts).
Proof.
  intros Hm Hk Hc Hl Hp. destruct Hc as [->|k' r now Hk' _ ->|t k' p r now Ht _ ->|ts' -> ->].
  - done.
  - destruct (law_record (ms_idem m) k' DirOut (Some r) now (inv_idem _ Hm) Hk') as [_ L]. rewrite L by done.
    case_bool_decide as Hb; [|done]. destruct Hb as [[= -> ->] Hb]. congruence.
  - destruct (record_in_after m t k' now (Some r) p Hm Ht) as [_ L]. rewrite L by done. case_bool_decide as Hb; [|done].
    injection Hb as -> ->. apply (inv_running _ Hm) in Ht. unfold inbound in Ht. congruence.
  - destruct (law_prune (ms_idem m) ts' (inv_idem _ Hm)) as [_ L]. rewrite L by done. rewrite Hl.
    specialize (Hp ts' (list_elem_of_here _ _)). by rewrite (proj2 (Z.ltb_ge ts ts')).
Qed.

(** A record is an old one, or that of a handler that has just answered, or of a
    message that has just been delivered. *)
Lemma idemChange_origin m obs i k d c ts :
  inv m -> wfKey k = true -> idemChange m obs i -> id_lookup i k d = Some (c, ts) ->
  id_lookup (ms_idem m) k d = Some (c, ts) \/
  exists r, c = cacheable (Some r) /\
    match d with DirIn => exists t, ObsHandlerSettles t k ts (Ok r) ∈ obs | DirOut => ObsDelivered k r ∈ obs end.
Proof.
  intros Hm Hk Hc. destruct Hc as [->|k' r now Hk' Hin ->|t k' p r now Ht -> ->|ts' -> ->].
  - by left.
  - destruct (law_record (ms_idem m) k' DirOut (Some r) now (inv_idem _ Hm) Hk') as [_ L]. rewrite L by done.
    case_bool_decide as Hb; [|by left]. destruct Hb as [[= -> ->] Hb]. intros [= <- <-]. right. by exists r.
  - destruct (record_in_after m t k' now (Some r) p Hm Ht) as [_ L]. rewrite L by done. case_bool_decide as Hb; [|by left].
    injection Hb as -> ->. intros [= <- <-]. right. exists r. split; [done|]. exists t. left.
  - destruct (law_prune (ms_idem m) ts' (inv_idem _ Hm)) as [_ L]. rewrite L by done. left.
    destruct (id_lookup (ms_idem m) k d) as [[c0 t0]|]; [|done]. by destruct (t0 <? ts').
Qed.

Definition isInbound (o : observation) : bool :=
  match o with ObsReceived _ _ | ObsHandlerStarts _ _ _ | ObsHandlerSettles _ _ _ _ => true | _ => false end.

(** Copies of [k] are answered with [response], and no handler of [k] starts or
    settles. *)
Definition onlyReplies (k : messageKey) (response : bytes) (obs : list observation) : Prop :=
  (forall R, ObsReceived k R ∈ obs -> R = Replies response) /\
  (forall t p, ObsHandlerStarts t k p ∉ obs) /\ (forall t n o, ObsHandlerSettles t k n o ∉ obs).

Lemma onlyReplies_app k response l1 l2 : onlyReplies k response l1 -> onlyReplies k response l2 -> onlyReplies k response (l1 ++ l2).
Proof.
  intros (A1 & A2 & A3) (B1 & B2 & B3).
  split_and!; [intros R|intros t p|intros t n o]; rewrite elem_of_app; intros [H|H]; eauto;
    [by eapply A2|by eapply B2|by eapply A3|by eapply B3].
Qed.

Lemma not_inbound k response obs : existsb isInbound obs = false -> onlyReplies k response obs.
Proof.
  intros Hf. assert (forall o, o ∈ obs -> isInbound o = false) as H.
  { intros o Ho. apply list_elem_of_In in Ho. destruct (isInbound o) eqn:E; [|done].
    assert (existsb isInbound obs = true); [apply existsb_exists; by exists o|congruence]. }
  split_and!; intros *; intros Hin; by apply H in Hin.
Qed.

Lemma harmless_not_inbound obs : forallb harmless obs = true -> existsb isInbound obs = false.
Proof.
  induction obs as [|o obs IH]; simpl; [done|]. intros [Ho Hobs]%andb_true_iff. rewrite (IH Hobs), orb_false_r. by destruct o.
Qed.

(** With a recorded answer, a copy is answered with it and no handler runs. *)
Lemma effect_recorded m ev obs m' k c ts :
  inv m -> wfKey k = true -> effect m ev obs m' -> inbound m k = Some (c, ts) ->
  onlyReplies k (default RESPONSE_GONE_BYTES c) obs.
Proof.
  intros Hm Hk He Hl.
  case_effect He; try (by apply not_inbound).
  - by apply not_inbound, harmless_not_inbound.
  - apply not_inbound. by destruct Hrest as [->| ->].
  - split_and!; intros *; rewrite list_elem_of_singleton; intros [=]. subst. unfold k' in *. congruence.
  - split_and!; intros *; rewrite list_elem_of_singleton; intros [=]. subst. unfold k' in *. congruence.
  - assert (k <> k') by congruence.
    split_and!; intros *; rewrite elem_of_cons, list_elem_of_singleton; intros [[=]|[=]]; done.
  - apply (inv_running _ Hm) in Ht. assert (k <> k') by congruence.
    split_and!; intros *; rewrite list_elem_of_singleton; intros [=]; done.
  - apply not_inbound. clear. by induction l'.
Qed.

Lemma effect_handled m ev l t k now response tr2 m' :
  inv m -> effect m ev (l ++ ObsHandlerSettles t k now (Ok response) :: tr2) m' ->
  l = [] /\ tr2 = [] /\ wfKey k = true /\ inbound m' k = Some (cacheable (Some response), now).
Proof.
  intros Hm He. remember (l ++ _) as obs eqn:E.
  assert (existsb (fun o => match o with ObsHandlerSettles _ _ _ _ => true | _ => false end) obs = true) as Hin.
  { rewrite E, existsb_app. simpl. apply orb_true_r. }
  case_effect He; try done.
  - exfalso. clear -Hin Hh. induction obs as [|o' obs IH]; simpl in *; [done|]. apply andb_true_iff in Hh as [Ho Hh].
    destruct o'; simpl in *; try done; auto.
  - by destruct Hrest as [->| ->].
  - destruct l as [|o' l]; [|by destruct l]. injection E as -> -> -> -> <-.
    unfold settleHandler in Hs. rewrite Ht in Hs. injection Hs as <-.
    destruct (record_in_after m t k now (Some response) p' Hm Ht) as [_ L]. pose proof (inv_wf _ Hm _ _ Ht) as Hk'.
    split_and!; [done..|]. unfold inbound. simpl. rewrite L by done. by rewrite bool_decide_true.
  - exfalso. clear -Hin. by induction l'.
Qed.

(** ** The guarantees *)

(** C21: in every state the messenger can reach, the keys of the in-flight guard
    are exactly those of the attempts that are suspended somewhere (a leaked key
    would block its message for good); there is at most one attempt per message,
    whether by a send or by a retry, and at most one running handler. *)
Theorem attempts_exclusive deps m0 evs tr m :
  starts deps m0 -> run m0 evs tr m ->
  (forall s, s ∈ ob_inflight (ms_outbox m) <->
     exists t task k, ms_tasks m !! t = Some task /\ attemptKey task = Some k /\ s = inflightKey k) /\
  (forall t t' task task' k, ms_tasks m !! t = Some task -> attemptKey task = Some k ->
     ms_tasks m !! t' = Some task' -> attemptKey task' = Some k -> t = t') /\
  (forall t t' k p p', ms_tasks m !! t = Some (HandlerTask k p) -> ms_tasks m !! t' = Some (HandlerTask k p') -> t = t').
Proof.
  intros Hs Hr. pose proof (run_inv _ _ _ _ _ _ (starts_inv _ _ Hs) Hr) as Hm. split_and!.
  - intros s. split; [by apply (inv_held _ Hm)|]. intros (t & task & k & Ht & Hk & ->). by eapply (inv_holds _ Hm).
  - intros t t' task task' k H1 K1 H2 K2. by eapply (inv_single _ Hm).
  - intros t t' k p p'. by apply handler_unique.
Qed.

(** C6: a message whose send returned [queued] is not lost: as long as neither
    its delivery nor its expiry is seen, the outbox has its entry, whatever fails,
    drains or restarts in between, with the bytes that were once handed to the
    router (or were queued at the start) and no fewer attempts. *)
Theorem queued_message_kept deps m0 evs tr m tr1 tr2 k attempts i error next :
  starts deps m0 -> run m0 evs tr m ->
  tr = tr1 ++ ObsSettled k (Returned (Queued attempts i error next)) :: tr2 ->
  (forall r, ObsDelivered k r ∉ tr2) -> ObsExpired k ∉ tr2 ->
  exists e, rowsM m !! k = Some e /\ attempts <= oe_attempts e /\ wired m0 tr k (oe_payload e).
Proof.
  intros Hs Hr. pose proof (starts_inv _ _ Hs) as Hm0.
  assert (traced m0 tr m) as Htr.
  { destruct (starts_idle _ _ Hs) as (H1 & _ & H2). by apply run_traced with evs. }
  intros E Hd Hx. enough (exists e, rowsM m !! k = Some e /\ attempts <= oe_attempts e) as (e & He & Ha).
  { exists e. split_and!; [done..|]. by apply (traced_rows _ _ _ Htr). }
  clear Htr Hs. revert tr2 E Hd Hx. induction Hr as [|m0 evs tr m1 ev obs m2 Hr IH Hw Hst]; intros tr2 E Hd Hx; [by destruct tr1|].
  pose proof (run_inv _ _ _ _ _ _ Hm0 Hr) as Hm1.
  pose proof (effect_rows _ _ _ _ Hm1 (step_effect _ _ _ _ _ _ Hm1 Hw Hst)) as Hc.
  apply app_cons_split in E as [(tr2' & -> & ->)|(l & -> & _)].
  - destruct (IH Hm0 tr2' eq_refl) as (e & He & Ha); [set_solver..|].
    destruct (rowChange_kept _ _ _ _ _ Hc He) as [(r & Hin)|[Hin|(e' & He' & (_ & _ & Hk))]].
    + destruct (Hd r). apply elem_of_app. by right.
    + destruct Hx. apply elem_of_app. by right.
    + exists e'. split; [done|lia].
  - destruct (rowChange_queued _ _ _ k attempts i error next Hc) as (_ & e & He & <- & _); [apply elem_of_app; right; left|]. by exists e.
Qed.

(** C7: a message is handled once.  After its handler has answered, every copy
    that arrives, from any path and also after a restart, is answered with the
    recorded response (or the marker of a response too large to record), and no
    handler runs for it again, until its record is pruned. *)
Theorem handled_once deps m0 evs tr m tr1 tr2 t k now response :
  starts deps m0 -> run m0 evs tr m ->
  tr = tr1 ++ ObsHandlerSettles t k now (Ok response) :: tr2 ->
  (forall ts, ObsPruned ts ∈ tr2 -> ts <= now) ->
  onlyReplies k (default RESPONSE_GONE_BYTES (cacheable (Some response))) tr2.
Proof.
  intros Hs Hr. pose proof (starts_inv _ _ Hs) as Hm0. clear Hs. intros E Hp.
  enough (wfKey k = true /\ inbound m k = Some (cacheable (Some response), now) /\
          onlyReplies k (default RESPONSE_GONE_BYTES (cacheable (Some response))) tr2) by tauto.
  revert tr2 E Hp. induction Hr as [|m0 evs tr m1 ev obs m2 Hr IH Hw Hst]; intros tr2 E Hp; [by destruct tr1|].
  pose proof (run_inv _ _ _ _ _ _ Hm0 Hr) as Hm1. pose proof (step_effect _ _ _ _ _ _ Hm1 Hw Hst) as He.
  apply app_cons_split in E as [(tr2' & -> & ->)|(l & -> & _)].
  - destruct (IH Hm0 tr2' eq_refl) as (Hk & Hl & Ho); [intros ts Hts; apply Hp, elem_of_app; by left|].
    split_and!; [done| |].
    + eapply idemChange_keeps; [exact Hm1|done|by eapply effect_idem|done|]. intros ts Hts. apply Hp, elem_of_app. by right.
    + apply onlyReplies_app; [done|]. by eapply effect_recorded.
  - destruct (effect_handled _ _ _ _ _ _ _ _ _ Hm1 He) as (-> & -> & Hk & Hl).
    split_and!; [done..|]. by apply not_inbound.
Qed.

(** The attempt [t] for [k] is over. *)
Definition attemptOver (m : Messenger) (t : nat) (k : messageKey) : Prop :=
  ms_tasks m !! t = None /\ inflightKey k ∉ ob_inflight (ms_outbox m).

Lemma near_over m m' t k : near (ends m t k) m' -> attemptOver m' t k.
Proof.
  intros (E1 & _ & _ & _ & E2 & _). unfold attemptOver. rewrite E1, E2. simpl. split; [apply lookup_delete_eq|].
  rewrite elem_of_difference, elem_of_singleton. tauto.
Qed.

Lemma retryFails_spec m t task index k err now :
  inv m -> ms_tasks m !! t = Some task -> attemptKey task = Some k ->
  let m' := retryFails m t index k err now in
  rowsM m' = alter (advanced (backoffM m) (errorMessage err) now) k (rowsM m) /\ attemptOver m' t k.
Proof.
  intros Hm Ht Ha. unfold retryFails. destruct (recordRetryFailure _ _ _ _) as [u o] eqn:E.
  set (m2 := match u with Some _ => _ | None => _ end). assert (near (ends (set_outbox m o) t k) (retryEnds (release (finish m2 t) k) index)) as Hn.
  { etrans; [|apply near_retryEnds]. apply near_ends. unfold m2. destruct u; [|done]. case_match; [apply near_schedule|done]. }
  split; [|by eapply near_over]. rewrite (near_rows _ _ Hn). unfold rowsM at 1. simpl.
  change o with (u, o).2. rewrite <- E. apply rows_retry; [done|by eapply attempt_wf].
Qed.

Lemma retrySucceeds_spec m t task index k response now :
  inv m -> ms_tasks m !! t = Some task -> attemptKey task = Some k ->
  let m' := retrySucceeds m t index k response now in
  rowsM m' = delete k (rowsM m) /\ attemptOver m' t k /\ is_Some (outbound m' k).
Proof.
  intros Hm Ht Ha m'. pose proof (attempt_wf _ _ _ _ Hm Ht Ha) as Hk.
  assert (near (ends (set_outbox (set_idem m (id_record (ms_idem m) k DirOut (Some response) now)) (markDelivered (ms_outbox m) k).2) t k) m') as Hn.
  { etrans; [|apply near_retryEnds]. apply near_ends, noteDelivered_near. }
  split_and!; [|by eapply near_over|].
  - rewrite (near_rows _ _ Hn). by apply rows_markDelivered.
  - unfold outbound. destruct Hn as (_ & -> & _). simpl.
    destruct (law_record (ms_idem m) k DirOut (Some response) now (inv_idem _ Hm) Hk) as [_ L]. rewrite L by done.
    destruct (id_lookup (ms_idem m) k DirOut) eqn:El; [|by rewrite bool_decide_true]. rewrite bool_decide_false; [done|]. by intros [_ ?].
Qed.

(** The validator of the protocol, if there is one, returns true. *)
Definition validatorAccepts (m : Messenger) (protocol : jsstr) (response : bytes) : Prop :=
  forall validator, responseAcceptanceValidators (ms_tables m) !! protocol = Some validator -> validator response = Ok true.

Lemma accepted_Ok m protocol response u : assertResponseAccepted m protocol response = Ok u -> validatorAccepts m protocol response.
Proof. unfold assertResponseAccepted. intros H validator Hv. rewrite Hv in H. by destruct (validator response) as [[]|]. Qed.

Lemma accepted_Err m protocol response e : assertResponseAccepted m protocol response = Err e -> ~ validatorAccepts m protocol response.
Proof.
  unfold assertResponseAccepted, validatorAccepts. intros H Ha. destruct (_ !! _) as [validator|]; [|done].
  by rewrite (Ha validator eq_refl) in H.
Qed.

(** C36: whatever the router answers to a retry, the retry goes on in one of three
    ways.  The response is accepted, the validator of the protocol having returned
    true, and the protocol has no response handler: the message leaves the outbox, its
    response is recorded and the attempt is over.  The response is accepted and a
    response handler has to run first.  Or the router failed, the validator did not
    return true, or the stored bytes do not decode for the response handler: the
    message stays in the outbox with one more attempt and its next attempt after the
    delay for that number, and the attempt is over, so the next drain can retry it. *)
Theorem retry_settles deps m0 evs tr m t index k data now outcome :
  starts deps m0 -> run m0 evs tr m -> ms_tasks m !! t = Some (RetryTask index k data) ->
  exists r m', settleRetry decodeReliableEnvelope m t now outcome = Some (r, m') /\
    match r with
    | Some response =>
        outcome = RouterResponse response /\ validatorAccepts m (keyProtocol k) response /\ keyProtocol k ∉ outboxResponseHandlers (ms_tables m) /\
        rowsM m' = delete k (rowsM m) /\ attemptOver m' t k /\ is_Some (outbound m' k)
    | None =>
        (exists response, outcome = RouterResponse response /\ validatorAccepts m (keyProtocol k) response /\
           keyProtocol k ∈ outboxResponseHandlers (ms_tables m) /\
           ms_tasks m' !! t = Some (RetryResponding index k response) /\ rowsM m' = rowsM m) \/
        (exists error, rowsM m' = alter (advanced (backoffM m) error now) k (rowsM m) /\ attemptOver m' t k /\
           forall response, outcome = RouterResponse response -> validatorAccepts m (keyProtocol k) response ->
             keyProtocol k ∈ outboxResponseHandlers (ms_tables m) /\ exists e, decodeReliableEnvelope data = Err e)
    end.
Proof.
  intros Hs Hr Ht. pose proof (run_inv _ _ _ _ _ _ (starts_inv _ _ Hs) Hr) as Hm. unfold settleRetry. rewrite Ht.
  pose proof (fun err => retryFails_spec m t _ index k err now Hm Ht eq_refl) as Hf.
  destruct outcome as [response|message]; [destruct (assertResponseAccepted _ _ _) eqn:Ea; [apply accepted_Ok in Ea; case_bool_decide as Hh;
    [destruct (decodeReliableEnvelope data) eqn:Ed|]|apply accepted_Err in Ea]|]; eexists _, _; (split; [done|]).
  - left. exists response. split_and!; [done..| |done]. apply lookup_insert_eq.
  - right. eexists. split; [by apply Hf|]. split; [by apply Hf|]. eauto.
  - split_and!; [done..| | |]; by eapply retrySucceeds_spec.
  - right. eexists. split; [by apply Hf|]. split; [by apply Hf|]. by intros ? [= <-].
  - right. eexists. split; [by apply Hf|]. split; [by apply Hf|]. done.
Qed.

Lemma optionsOk_budget dr : optionsOk (dr_options dr) -> validateProtocolOutboxPageBudget (drainBudget dr) = Ok tt.
Proof.
  intros (H1 & _ & H3). assert (forall x, 0 < x <= MAX_SAFE_INTEGER -> isPositiveSafeInteger x = true) as H.
  { intros x Hx. unfold isPositiveSafeInteger. apply andb_true_iff. lia. }
  unfold validateProtocolOutboxPageBudget, drainBudget. simpl. by rewrite !H.
Qed.

Lemma countOf_le {A} (p : A -> bool) l : countOf p l <= Z.of_nat (length l).
Proof.
  unfold countOf, js_length. induction l as [|x l IH]; simpl; [lia|]. destruct (p x); simpl in *; lia.
Qed.

(** C35: a scheduled drain of a messenger over a lawful store loads its page and
    starts, it is never rejected for what the store returned; the page is the
    longest prefix of the due messages, the one that is due for longest first,
    within both budgets, and it is empty only if nothing is due that fits. *)
Theorem drain_starts deps m0 evs tr m now :
  starts deps m0 -> run m0 evs tr m ->
  dr_active (ms_drainer m) = Some (Scheduled now) -> dr_stopping (ms_drainer m) = false ->
  Z.of_nat (size (rowsM m)) <= MAX_SAFE_INTEGER ->
  let options := dr_options (ms_drainer m) in
  let due := eligible (rowsM m) now (drainMaxPayloadBytes options) in
  exists page rest dr, drainLoads m = (Ok dr, set_drainer m dr) /\
    dr_active dr = Some (Draining (startMap (concurrency options) page)) /\
    due = page ++ rest /\ Z.of_nat (length page) <= batchSize options /\ payloadSum page <= drainMaxPayloadBytes options /\
    (forall l r, due = l ++ r -> Z.of_nat (length l) <= batchSize options -> payloadSum l <= drainMaxPayloadBytes options ->
       (length l <= length page)%nat) /\
    (due <> [] -> page <> []).
Proof.
  intros Hs Hr Ha Hst Hsz options due. pose proof (run_inv _ _ _ _ _ _ (starts_inv _ _ Hs) Hr) as Hm.
  pose proof (optionsOk_budget _ (inv_options _ Hm)) as Hv. unfold drainLoads, drainStart, readDuePage. rewrite Ha, Hst, Hv. simpl.
  pose proof (law_readDuePage (ob_store (ms_outbox m)) now (drainBudget (ms_drainer m)) (inv_store _ Hm)) as L.
  destruct (st_readDuePage _ _ _) as [page|e]; [|congruence]. simpl. destruct L as [_ L].
  pose proof (fun e rest => DuePage_progress _ _ _ _ e rest L Hv) as Hp. pose proof (fun l r => DuePage_longest _ _ _ _ l r L) as Hl.
  destruct L as (rest & E & Hn & Hb & _ & Hk). unfold drainBudget in E, Hn, Hb, Hk, Hp, Hl. simpl in E, Hn, Hb, Hk, Hp, Hl.
  assert (0 <= pg_skippedOversizedEntries page <= MAX_SAFE_INTEGER) as Hsk.
  { rewrite Hk. split; [unfold countOf, js_length; lia|]. etrans; [apply countOf_le|]. etrans; [|exact Hsz].
    unfold rowValues. by rewrite length_fmap, length_map_to_list. }
  unfold js_length, options in *. rewrite !(proj2 (Z.ltb_ge _ _)) by lia. simpl.
  exists (pg_entries page), rest. eexists. split; [done|]. split_and!; [done..|exact Hl|].
  fold (rowsM m) in E. fold due in E. intros Hdue. fold (rowsM m) in Hp. fold due in Hp. destruct due as [|e l]; [done|].
  specialize (Hp e l eq_refl). by destruct (pg_entries page).
Qed.

(** C40: a send that is told its message is in flight leaves an entry in the table of
    first attempts that nothing owns.  While a request-owned send that has failed
    waits for the lookup of its peer, it holds the in-flight guard and its own entry
    is gone; a second send of the message in that window adds the entry and returns
    [InFlight].  When the first send is over, however it ends, no attempt for the
    message is suspended, the guard is free, the outbox is as before, and the entry
    is there. *)
Theorem first_attempt_leaks deps m0 evs tr m t k err triggered walk now uuid payload opts policy signal s m2 :
  starts deps m0 -> run m0 evs tr m -> ms_tasks m !! t = Some (SendRecovering k err triggered walk) ->
  firstAttemptAt (ms_slo m) !! sloKeyOf k = None -> id_check (ms_idem m) k DirOut = NotSeen ->
  default uuid (opts_messageId opts) = keyMessageId k ->
  let second := sendFramed encodeReliableEnvelope m now uuid (keyPeer k) (keyProtocol k) payload opts policy None in
  settleRecovery second.2 t signal = Some (s, m2) ->
  second.1 = inl (Returned (InFlight (keyMessageId k))) /\
  (forall t' task, ms_tasks m2 !! t' = Some task -> attemptKey task <> Some k) /\
  inflightKey k ∉ ob_inflight (ms_outbox m2) /\ rowsM m2 = rowsM m /\
  firstAttemptAt (ms_slo m2) !! sloKeyOf k = Some now.
Proof.
  intros Hs Hr Ht Hf Hi Ho second. pose proof (run_inv _ _ _ _ _ _ (starts_inv _ _ Hs) Hr) as Hm.
  assert (second = (inl (Returned (InFlight (keyMessageId k))), set_firstAttemptAt m (<[sloKeyOf k := now]> (firstAttemptAt (ms_slo m))))) as ->.
  { unfold second, sendFramed. rewrite Ho. replace (keyPeer k, keyProtocol k, keyMessageId k) with k by by destruct k as [[] ?].
    assert (beginFramed encodeReliableEnvelope m now k payload (default true (opts_recoverPeerAfterFailure opts)) policy =
      (inl (Returned (InFlight (keyMessageId k))), set_firstAttemptAt m (<[sloKeyOf k := now]> (firstAttemptAt (ms_slo m))))) as E; [|by destruct policy].
    unfold beginFramed, noteFirstAttempt. rewrite Hf. cbn [ms_idem set_firstAttemptAt set_slo]. rewrite Hi. unfold tryBeginAttempt.
    rewrite bool_decide_eq_true_2; [done|]. exact (inv_holds _ Hm _ _ k Ht eq_refl). }
  cbn [snd]. intros H. unfold settleRecovery in H. cbn [ms_tasks set_firstAttemptAt set_slo] in H. rewrite Ht in H.
  assert (m2 = release (finish (set_firstAttemptAt m (<[sloKeyOf k := now]> (firstAttemptAt (ms_slo m)))) t) k) as ->
    by (destruct signal; [destruct triggered|destruct (match walk with Some _ => _ | None => _ end)]; congruence).
  split; [done|]. split; [|split; [|split; [done|apply lookup_insert_eq]]].
  - intros t' task Ht' Hk. cbn in Ht'. apply lookup_delete_Some in Ht' as [Hne Ht'].
    by apply Hne, (inv_single _ Hm _ _ _ _ k k Ht eq_refl Ht' Hk).
  - cbn. set_solver.
Qed.
End Safety.

(** ** A run *)

Lemma none_of {A} (f : A -> bool) l x : existsb f l = false -> f x = true -> x ∉ l.
Proof.
  intros Hl Hx Hin. assert (existsb f l = true); [|congruence]. apply existsb_exists. exists x. by rewrite <- list_elem_of_In.
Qed.

Lemma exMessenger_starts : starts exDeps exMessenger.
Proof. split_and!; [exact (map_Forall_empty (M:=gmap messageKey) _)|exact I|apply exMessenger_ok]. Qed.

Lemma attempts_exclusive_witness :
  let m := (after (exSends ++ exDrains)).2 in
  (forall s, s ∈ ob_inflight (ms_outbox m) <->
     exists t task k, ms_tasks m !! t = Some task /\ attemptKey task = Some k /\ s = inflightKey k) /\
  (forall t t' task task' k, ms_tasks m !! t = Some task -> attemptKey task = Some k ->
     ms_tasks m !! t' = Some task' -> attemptKey task' = Some k -> t = t') /\
  (forall t t' k p p', ms_tasks m !! t = Some (HandlerTask k p) -> ms_tasks m !! t' = Some (HandlerTask k p') -> t = t').
Proof.
  apply (attempts_exclusive plainEncode plainDecode exDeps exMessenger (exSends ++ exDrains) (after (exSends ++ exDrains)).1);
    [apply exMessenger_starts|apply after_run; vm_compute; reflexivity].
Defined.

Lemma queued_message_kept_witness :
  let evs := exSends ++ exDrains ++ exReceives in
  exists e, rowsM (after evs).2 !! keyAB = Some e /\ 1 <= oe_attempts e /\ wired exMessenger (after evs).1 keyAB (oe_payload e).
Proof.
  apply (queued_message_kept plainEncode plainDecode exDeps exMessenger (exSends ++ exDrains ++ exReceives) _ _
    (take 1 (after (exSends ++ exDrains ++ exReceives)).1) (drop 2 (after (exSends ++ exDrains ++ exReceives)).1)
    keyAB 1 exId exTimeout 6010).
  - apply exMessenger_starts.
  - apply after_run. vm_compute. reflexivity.
  - vm_compute. reflexivity.
  - intros r. apply (none_of (fun o => match o with ObsDelivered _ _ => true | _ => false end)); [vm_compute; reflexivity|reflexivity].
  - apply (none_of (fun o => match o with ObsExpired _ => true | _ => false end)); [vm_compute; reflexivity|reflexivity].
Defined.

Lemma handled_once_witness :
  onlyReplies keyBA exAnswer (drop 6 (after (exSends ++ exDrains ++ exReceives)).1).
Proof.
  apply (handled_once plainEncode plainDecode exDeps exMessenger (exSends ++ exDrains ++ exReceives) (after (exSends ++ exDrains ++ exReceives)).1
    (after (exSends ++ exDrains ++ exReceives)).2 (take 5 (after (exSends ++ exDrains ++ exReceives)).1) _ 2 keyBA 100020 exAnswer).
  - apply exMessenger_starts.
  - apply after_run. vm_compute. reflexivity.
  - vm_compute. reflexivity.
  - intros ts Hts. exfalso. revert Hts.
    apply (none_of (fun o => match o with ObsPruned _ => true | _ => false end)); [vm_compute; reflexivity|reflexivity].
Defined.

Lemma retry_settles_witness :
  let m := (after (exSends ++ exDrains)).2 in
  exists r m', settleRetry plainDecode m 1 100010 (RouterError exTimeout) = Some (r, m') /\
    match r with
    | Some response =>
        RouterError exTimeout = RouterResponse response /\ validatorAccepts m (keyProtocol keyAB) response /\
        keyProtocol keyAB ∉ outboxResponseHandlers (ms_tables m) /\
        rowsM m' = delete keyAB (rowsM m) /\ attemptOver m' 1 keyAB /\ is_Some (outbound m' keyAB)
    | None =>
        (exists response, RouterError exTimeout = RouterResponse response /\ validatorAccepts m (keyProtocol keyAB) response /\
           keyProtocol keyAB ∈ outboxResponseHandlers (ms_tables m) /\
           ms_tasks m' !! 1%nat = Some (RetryResponding 0 keyAB response) /\ rowsM m' = rowsM m) \/
        (exists error, rowsM m' = alter (advanced (backoffM m) error 100010) keyAB (rowsM m) /\ attemptOver m' 1 keyAB /\
           forall response, RouterError exTimeout = RouterResponse response -> validatorAccepts m (keyProtocol keyAB) response ->
             keyProtocol keyAB ∈ outboxResponseHandlers (ms_tables m) /\
             exists e, plainDecode (plainEncode {| env_messageId := exId; env_version := 1; env_tsMs := 1000; env_payload := exPayload |}) = Err e)
    end.
Proof.
  apply (retry_settles plainEncode plainDecode exDeps exMessenger (exSends ++ exDrains) (after (exSends ++ exDrains)).1 _ 1 0 keyAB
    (plainEncode {| env_messageId := exId; env_version := 1; env_tsMs := 1000; env_payload := exPayload |})).
  - apply exMessenger_starts.
  - apply after_run. vm_compute. reflexivity.
  - vm_compute. reflexivity.
Defined.

Lemma drain_starts_witness :
  let m := (after (exSends ++ [EvTick 100000])).2 in
  let options := dr_options (ms_drainer m) in
  let due := eligible (rowsM m) 100000 (drainMaxPayloadBytes options) in
  exists page rest dr, drainLoads m = (Ok dr, set_drainer m dr) /\
    dr_active dr = Some (Draining (startMap (concurrency options) page)) /\
    due = page ++ rest /\ Z.of_nat (length page) <= batchSize options /\ payloadSum page <= drainMaxPayloadBytes options /\
    (forall l r, due = l ++ r -> Z.of_nat (length l) <= batchSize options -> payloadSum l <= drainMaxPayloadBytes options ->
       (length l <= length page)%nat) /\
    (due <> [] -> page <> []).
Proof.
  apply (drain_starts plainEncode plainDecode exDeps exMessenger (exSends ++ [EvTick 100000]) (after (exSends ++ [EvTick 100000])).1 _ 100000).
  - apply exMessenger_starts.
  - apply after_run. vm_compute. reflexivity.
  - vm_compute. reflexivity.
  - vm_compute. reflexivity.
  - vm_compute. discriminate.
Defined.

(** The send that the example repeats: its peer is looked up. *)
Definition exRecovering : list (event (S:=exS) (I:=exI)) :=
  [EvSend 1000 exId peerB exProtocol exPayload exOpts RequestOwned None; EvSettleSend 0 1010 (RouterError "no valid addresses") None].

Definition exRepeated :=
  sendFramed plainEncode (after exRecovering).2 1020 exId (keyPeer keyAB) (keyProtocol keyAB) exPayload exOpts RequestOwned None.

Lemma exRepeated_settles : exists s m2, settleRecovery exRepeated.2 0 (Some "aborted"%string) = Some (s, m2).
Proof.
  assert (match settleRecovery exRepeated.2 0 (Some "aborted"%string) with Some _ => true | None => false end = true) as H
    by (vm_compute; reflexivity).
  destruct (settleRecovery exRepeated.2 0 (Some "aborted"%string)) as [[s m2]|]; [by exists s, m2|done].
Qed.

Lemma first_attempt_leaks_witness :
  exists s m2, settleRecovery exRepeated.2 0 (Some "aborted"%string) = Some (s, m2) /\
    exRepeated.1 = inl (Returned (InFlight (keyMessageId keyAB))) /\
    (forall t' task, ms_tasks m2 !! t' = Some task -> attemptKey task <> Some keyAB) /\
    inflightKey keyAB ∉ ob_inflight (ms_outbox m2) /\ rowsM m2 = rowsM (after exRecovering).2 /\
    firstAttemptAt (ms_slo m2) !! sloKeyOf keyAB = Some 1020.
Proof.
  destruct exRepeated_settles as (s & m2 & H). exists s, m2. split; [exact H|].
  assert (run plainEncode plainDecode exMessenger exRecovering (after exRecovering).1 (after exRecovering).2) as Hr
    by (apply after_run; vm_compute; reflexivity).
  assert (exists walk, ms_tasks (after exRecovering).2 !! 0%nat = Some (SendRecovering keyAB "no valid addresses" true walk)) as [walk Ht]
    by (eexists; vm_compute; reflexivity).
  assert (firstAttemptAt (ms_slo (after exRecovering).2) !! sloKeyOf keyAB = None) as Hf by (vm_compute; reflexivity).
  assert (id_check (ms_idem (after exRecovering).2) keyAB DirOut = NotSeen) as Hi by (vm_compute; reflexivity).
  exact (first_attempt_leaks plainEncode plainDecode exDeps exMessenger exRecovering (after exRecovering).1 (after exRecovering).2 0 keyAB
    "no valid addresses" true walk 1020 exId exPayload exOpts RequestOwned (Some "aborted"%string) s m2 exMessenger_starts Hr Ht Hf Hi eq_refl H).
Defined.
