(* ===== verification/MessengerNetwork.v ===== *)
(** * Messengers on a network

    Nodes run messengers and exchange bytes.  What a node hands to its router is a
    packet; a packet can be delivered any number of times, in any order, or never;
    a node learns an answer to an attempt only if the receiver gave it.  A restart
    of a node loses its attempts and what others await from it. *)

From S2P Require Import Prelude Bytes CodePoints OutboxStore OutboxMemory ProtocolOutbox Idempotency OutboxDrainer Messenger MessengerTheory MessengerSafety MessengerExample.

Open Scope Z_scope.

(** Bytes under way: the sender, its attempt unless it restarted since, the
    message, and the bytes. *)
Record Packet : Type := {
  pk_from : jsstr;
  pk_attempt : option nat;
  pk_key : messageKey;
  pk_data : bytes }.

(** A stream whose answer is the settlement of a promise of the receiver. *)
Record Pending : Type := {
  pd_from : jsstr;
  pd_attempt : option nat;
  pd_key : messageKey;
  pd_promise : nat }.

Section Network.
Context {S I : Type} `{!OutboxStore S, !OutboxStoreLaws S, !IdempotencyStore I, !IdempotencyLaws I}.
Variable encodeReliableEnvelope : ReliableEnvelopeMsg -> bytes.
Variable decodeReliableEnvelope : bytes -> result string ReliableEnvelopeMsg.

Notation Messenger := (Messenger S I).
Notation event := (event (S:=S) (I:=I)).
Notation step := (step encodeReliableEnvelope decodeReliableEnvelope).
Notation effect := (effect encodeReliableEnvelope decodeReliableEnvelope).
Notation run := (run encodeReliableEnvelope decodeReliableEnvelope).
Notation wfEvent := (wfEvent (S:=S) (I:=I) decodeReliableEnvelope).

(** A node and what it has done so far. *)
Record Node : Type := {
  nd_messenger : Messenger;
  nd_trace : list observation }.

Record Network : Type := {
  net_nodes : gmap jsstr Node;
  net_packets : list Packet;
  net_pending : list Pending;
  net_answers : list (jsstr * nat * bytes) }.

Definition packetsOf (p : jsstr) (obs : list observation) : list Packet :=
  omap (fun o => match o with
                 | ObsWire t k data => Some {| pk_from := p; pk_attempt := Some t; pk_key := k; pk_data := data |}
                 | _ => None
                 end) obs.

(** The router of [p] may answer an attempt only with what the receiver said. *)
Definition allowed (net : Network) (p : jsstr) (ev : event) : bool :=
  match ev with
  | EvSettleSend t _ (RouterResponse r) _ | EvSettleRetry t _ (RouterResponse r) => bool_decide ((p, t, r) ∈ net_answers net)
  | EvReceive _ _ _ => false
  | _ => true
  end.

Definition isRestart (ev : event) : bool := match ev with EvRestart _ => true | _ => false end.

Definition forgetAttempt (p from : jsstr) (attempt : option nat) : option nat :=
  if bool_decide (from = p) then None else attempt.

(** The connections of [p] are gone. *)
Definition disconnect (net : Network) (p : jsstr) : Network :=
  {| net_nodes := net_nodes net;
     net_packets := (fun x => {| pk_from := pk_from x; pk_attempt := forgetAttempt p (pk_from x) (pk_attempt x);
                                 pk_key := pk_key x; pk_data := pk_data x |}) <$> net_packets net;
     net_pending := (fun x => {| pd_from := pd_from x; pd_attempt := forgetAttempt p (pd_from x) (pd_attempt x);
                                 pd_key := pd_key x; pd_promise := pd_promise x |})
                      <$> filter (fun x => keyPeer (pd_key x) <> p) (net_pending net);
     net_answers := filter (fun a => a.1.1 <> p) (net_answers net) |}.

Definition advance (net : Network) (p : jsstr) (nd : Node) (obs : list observation) (m : Messenger) : Network :=
  {| net_nodes := <[p := {| nd_messenger := m; nd_trace := nd_trace nd ++ obs |}]> (net_nodes net);
     net_packets := packetsOf p obs ++ net_packets net;
     net_pending := net_pending net;
     net_answers := net_answers net |}.

Definition answersOf (from : jsstr) (attempt : option nat) (response : bytes) : list (jsstr * nat * bytes) :=
  match attempt with Some t => [(from, t, response)] | None => [] end.

Definition addAnswer (net : Network) (from : jsstr) (attempt : option nat) (response : bytes) : Network :=
  {| net_nodes := net_nodes net; net_packets := net_packets net; net_pending := net_pending net;
     net_answers := answersOf from attempt response ++ net_answers net |}.

Definition addPending (net : Network) (x : Pending) : Network :=
  {| net_nodes := net_nodes net; net_packets := net_packets net; net_pending := x :: net_pending net;
     net_answers := net_answers net |}.

Inductive netEvent : Type :=
| NetNode (p : jsstr) (ev : event)
| NetDeliver (n : nat)
| NetResolve (n : nat).

(** What the receiver says on the stream of a packet. *)
Definition respond (net : Network) (x : Packet) (r : ReceiveStart) : Network :=
  match r with
  | Replies response => addAnswer net (pk_from x) (pk_attempt x) response
  | Refuses _ => net
  | Awaits t _ => addPending net {| pd_from := pk_from x; pd_attempt := pk_attempt x; pd_key := pk_key x; pd_promise := t |}
  end.

Definition netStep (net : Network) (nev : netEvent) : option Network :=
  match nev with
  | NetNode p ev =>
      nd ← net_nodes net !! p;
      if allowed net p ev && wfEvent ev then
        '(obs, m) ← step (nd_messenger nd) ev;
        Some (advance (if isRestart ev then disconnect net p else net) p nd obs m)
      else None
  | NetDeliver n =>
      x ← net_packets net !! n;
      let p := keyPeer (pk_key x) in
      nd ← net_nodes net !! p;
      let ev := EvReceive (keyProtocol (pk_key x)) (pk_data x) (pk_from x) in
      if wfEvent ev then
        '(obs, m) ← step (nd_messenger nd) ev;
        let r := (reliableHandler decodeReliableEnvelope (nd_messenger nd) (keyProtocol (pk_key x)) (pk_data x) (pk_from x)).1 in
        Some (respond (advance net p nd obs m) x r)
      else None
  | NetResolve n =>
      x ← net_pending net !! n;
      nd ← net_nodes net !! keyPeer (pd_key x);
      match ms_promises (nd_messenger nd) !! pd_promise x with
      | Some (Ok response) => Some (addAnswer net (pd_from x) (pd_attempt x) response)
      | _ => None
      end
  end.

Inductive netRun : Network -> Network -> Prop :=
| netRun_refl net : netRun net net
| netRun_step net net1 nev net2 : netRun net net1 -> netStep net1 nev = Some net2 -> netRun net net2.

(** Every node is new: nothing queued, nothing recorded. *)
Definition netStarts (net : Network) : Prop :=
  net_packets net = [] /\ net_pending net = [] /\ net_answers net = [] /\
  forall p nd, net_nodes net !! p = Some nd ->
    nd_trace nd = [] /\ (exists deps, starts deps (nd_messenger nd)) /\ rowsM (nd_messenger nd) = ∅ /\
    forall k d, wfKey k = true -> id_lookup (ms_idem (nd_messenger nd)) k d = None.

Definition traceOf (net : Network) (p : jsstr) : list observation :=
  match net_nodes net !! p with Some nd => nd_trace nd | None => [] end.

(** ** Effects, seen from the network *)

Lemma effect_obs m ev obs m' o :
  effect m ev obs m' -> o ∈ obs ->
  match o with
  | ObsWire t k data =>
      wfKey k = true /\ t = ms_nextTask m /\ (exists task, ms_tasks m' !! t = Some task /\ attemptKey task = Some k) /\
      ((exists env, data = encodeReliableEnvelope env /\ env_messageId env = keyMessageId k) \/
       (exists e, e ∈ pageOf (ms_drainer m) /\ entryKey e = k /\ oe_payload e = data))
  | ObsDelivered k r => exists t task, ms_tasks m !! t = Some task /\ attemptKey task = Some k /\ answers ev t task r
  | ObsSettled k (Returned (Delivered r _ _)) =>
      (exists t task, ms_tasks m !! t = Some task /\ attemptKey task = Some k /\ answers ev t task r) \/
      (exists c ts, wfKey k = true /\ outbound m k = Some (c, ts) /\ r = default RESPONSE_GONE_BYTES c)
  | ObsHandlerStarts t kk payload =>
      exists protocolId data peerKey env, ev = EvReceive protocolId data peerKey /\ decodeReliableEnvelope data = Ok env /\
        kk = (peerKey, protocolId, env_messageId env) /\ payload = env_payload env
  | ObsHandlerSettles t kk now _ => exists payload, ms_tasks m !! t = Some (HandlerTask kk payload)
  | _ => True
  end.
Proof.
  intros Heff. case_effect Heff; rewrite ?list_elem_of_singleton; try (intros ->; by eauto);
    try (by intros ?%not_elem_of_nil).
  - intros Hin. rewrite forallb_forall in Hh. apply list_elem_of_In, Hh in Hin. by destruct o as [| ? [[]|]| | | | | | |].
  - intros ->. right. eauto.
  - intros ->. apply near_tasks in Hn. rewrite Hn. simpl. rewrite lookup_insert_eq. split_and!; [done..| |].
    + exists tk. split; [done|]. by destruct Hs as [(? & ? & ? & -> & _)|(? & ? & -> & _)].
    + destruct Hs as [(? & ? & env & _ & ? & ?)|(? & e' & _ & ? & ? & ? & _)]; [left|right]; eauto.
  - rewrite elem_of_cons. intros [->|Hin]; [by exists u, tk|]. destruct Hrest as [->| ->]; [by apply not_elem_of_nil in Hin|].
    apply list_elem_of_singleton in Hin as ->. left. by exists u, tk.
  - rewrite elem_of_cons, list_elem_of_singleton. intros [->| ->]; [|done]. by exists pr, data, pk, env.
  - rewrite list_elem_of_fmap. by intros (? & -> & _).
Qed.

(** Ids are fresh, but for a restart, which ends all activations. *)
Lemma effect_next m ev obs m' :
  effect m ev obs m' -> (ms_nextTask m <= ms_nextTask m')%nat \/ (isRestart ev = true /\ ms_tasks m' = ∅).
Proof.
  intros Heff. case_effect Heff;
    try (destruct Hn as (_ & _ & _ & _ & _ & -> & _)); simpl; try (left; lia).
  - unfold settleHandler in Hs. rewrite Ht in Hs. injection Hs as <-. left. by destruct out.
  - unfold handlerCleanup in Hc. destruct (ms_tasks m !! u) as [[]|]; try done. injection Hc as <-. by left.
  - right. rewrite Hev. unfold restart, newMessenger in Hr. apply result_bind_Ok in Hr as (o & _ & Hr). by apply result_bind_Ok in Hr as (dr & Hd & [= <-]).
Qed.

(** A promise changes only when the handler that owns it settles. *)
Lemma effect_promises m ev obs m' t r :
  effect m ev obs m' -> ms_promises m' !! t = Some r ->
  (ms_nextTask m <= ms_nextTask m')%nat /\
  (ms_promises m !! t = Some r \/
   exists k payload now, ms_tasks m !! t = Some (HandlerTask k payload) /\ ObsHandlerSettles t k now r ∈ obs /\
     ms_tasks m' !! t = Some (HandlerSettled k)).
Proof.
  intros Heff. case_effect Heff;
    try (destruct Hn as (_ & _ & _ & -> & _ & -> & _)); simpl; try (intros; split; [lia|by left]).
  - unfold settleHandler in Hs. rewrite Ht in Hs. injection Hs as <-. simpl.
    set (m1 := match out with Ok response => set_idem m (id_record (ms_idem m) k' DirIn (Some response) n) | Err _ => m end).
    assert (ms_promises m1 = ms_promises m /\ ms_nextTask m1 = ms_nextTask m) as [-> ->] by (by destruct out).
    rewrite lookup_insert_Some. intros H. split; [done|]. destruct H as [[-> ->]|[_ ?]]; [|by left]. right. exists k', p', n.
    split_and!; [done|left|]. apply lookup_insert_eq.
  - unfold handlerCleanup in Hc. destruct (ms_tasks m !! u) as [[]|]; try done. injection Hc as <-. intros. split; [done|by left].
  - unfold restart, newMessenger in Hr. apply result_bind_Ok in Hr as (o & _ & Hr). apply result_bind_Ok in Hr as (dr & Hd & [= <-]).
    simpl. by rewrite lookup_empty.
Qed.

(** ** What is true of every network *)

(** The message [k] of [from], as its receiver knows it. *)
Definition receiverKey (from : jsstr) (k : messageKey) : messageKey := (from, keyProtocol k, keyMessageId k).

Section Traces.
(** The traces of all nodes. *)
Variable trs : jsstr -> list observation.

(** [from] handed to its router an envelope of the message with this payload. *)
Definition sentPayload (from : jsstr) (k : messageKey) (payload : bytes) : Prop :=
  exists t env, ObsWire t k (encodeReliableEnvelope env) ∈ trs from /\ env_messageId env = keyMessageId k /\ env_payload env = payload.

Definition sentData (from : jsstr) (k : messageKey) (data : bytes) : Prop :=
  exists t env, ObsWire t k data ∈ trs from /\ data = encodeReliableEnvelope env /\ env_messageId env = keyMessageId k.

(** A handler of [p] ran for [kk] and answered [response]. *)
Definition answered (p : jsstr) (kk : messageKey) (response : bytes) : Prop :=
  exists t payload now, ObsHandlerStarts t kk payload ∈ trs p /\ ObsHandlerSettles t kk now (Ok response) ∈ trs p.

(** The receiver of [k] ran its handler on a payload that [from] sent, and
    [response] is its answer, or the marker that stands for a large one. *)
Definition handledAt (from : jsstr) (k : messageKey) (response : bytes) : Prop :=
  exists t payload now response',
    ObsHandlerStarts t (receiverKey from k) payload ∈ trs (keyPeer k) /\
    ObsHandlerSettles t (receiverKey from k) now (Ok response') ∈ trs (keyPeer k) /\
    (response = response' \/ response = RESPONSE_GONE_BYTES) /\ sentPayload from k payload.

(** The promise [t] is, or was, that of a handler of [kk]. *)
Definition promiseOf (p : jsstr) (m : Messenger) (t : nat) (kk : messageKey) : Prop :=
  (t < ms_nextTask m)%nat /\
  ((exists payload, ms_tasks m !! t = Some (HandlerTask kk payload)) /\ ms_promises m !! t = None \/
   ((forall k' payload, ms_tasks m !! t <> Some (HandlerTask k' payload)) /\
    forall r, ms_promises m !! t = Some (Ok r) -> answered p kk r)).
Record nodeInv (p : jsstr) (m : Messenger) : Prop := {
  ni_inv : inv m;
  ni_tasks : forall t task, ms_tasks m !! t = Some task ->
    match task with
    | SendTask _ k data _ | RetryTask _ k data => sentData p k data
    | RetryResponding _ k r => handledAt p k r
    | HandlerTask kk payload => ObsHandlerStarts t kk payload ∈ trs p
    | _ => True
    end;
  ni_promises : forall t r, ms_promises m !! t = Some r ->
    (t < ms_nextTask m)%nat /\ forall k payload, ms_tasks m !! t <> Some (HandlerTask k payload);
  ni_handlers : forall t task kk, ms_tasks m !! t = Some task -> handlerKey task = Some kk -> promiseOf p m t kk;
  ni_rows : forall k e, rowsM m !! k = Some e -> sentData p k (oe_payload e);
  ni_page : forall e, e ∈ pageOf (ms_drainer m) -> sentData p (entryKey e) (oe_payload e);
  ni_inbound : forall k c ts, wfKey k = true -> inbound m k = Some (c, ts) -> exists r, answered p k r /\ c = cacheable (Some r);
  ni_outbound : forall k c ts, wfKey k = true -> outbound m k = Some (c, ts) -> exists r, ObsDelivered k r ∈ trs p /\ c = cacheable (Some r) }.

Definition obsInv (p : jsstr) (o : observation) : Prop :=
  match o with
  | ObsWire _ k data => sentData p k data
  | ObsDelivered k r | ObsSettled k (Returned (Delivered r _ _)) => handledAt p k r
  | ObsHandlerStarts _ kk payload => sentPayload (keyPeer kk) (receiverKey p kk) payload
  | _ => True
  end.

(** The attempt [t] is for [k], if it is still there. *)
Definition owns (m : Messenger) (t : nat) (k : messageKey) : Prop :=
  (t < ms_nextTask m)%nat /\ forall task, ms_tasks m !! t = Some task -> attemptKey task = Some k.

End Traces.

Definition ownsAt (net : Network) (from : jsstr) (t : nat) (k : messageKey) : Prop :=
  exists nd, net_nodes net !! from = Some nd /\ owns (nd_messenger nd) t k.

Record netInv (net : Network) : Prop := {
  net_node : forall p nd, net_nodes net !! p = Some nd -> nodeInv (traceOf net) p (nd_messenger nd);
  net_obs : forall p o, o ∈ traceOf net p -> obsInv (traceOf net) p o;
  net_packet : forall x, x ∈ net_packets net ->
    wfKey (pk_key x) = true /\ sentData (traceOf net) (pk_from x) (pk_key x) (pk_data x) /\
    forall t, pk_attempt x = Some t -> ownsAt net (pk_from x) t (pk_key x);
  net_promise : forall x, x ∈ net_pending net ->
    (exists nd, net_nodes net !! keyPeer (pd_key x) = Some nd /\
       promiseOf (traceOf net) (keyPeer (pd_key x)) (nd_messenger nd) (pd_promise x) (receiverKey (pd_from x) (pd_key x))) /\
    forall t, pd_attempt x = Some t -> ownsAt net (pd_from x) t (pd_key x);
  net_answer : forall from t r, (from, t, r) ∈ net_answers net ->
    exists k, ownsAt net from t k /\ handledAt (traceOf net) from k r }.

(** *** Longer traces *)

Section Longer.
Context (trs trs' : jsstr -> list observation) (Hlong : forall p o, o ∈ trs p -> o ∈ trs' p).

Lemma sentPayload_mono from k payload : sentPayload trs from k payload -> sentPayload trs' from k payload.
Proof. intros (t & env & H & ?). exists t, env. auto. Qed.

Lemma sentData_mono from k data : sentData trs from k data -> sentData trs' from k data.
Proof. intros (t & env & H & ?). exists t, env. auto. Qed.

Lemma answered_mono p kk r : answered trs p kk r -> answered trs' p kk r.
Proof. intros (t & payload & now & H1 & H2). exists t, payload, now. auto. Qed.

Lemma handledAt_mono from k r : handledAt trs from k r -> handledAt trs' from k r.
Proof.
  intros (t & payload & now & r' & H1 & H2 & H3 & H4). exists t, payload, now, r'. auto using sentPayload_mono.
Qed.

Lemma obsInv_mono p o : obsInv trs p o -> obsInv trs' p o.
Proof. destruct o as [| ? [[]|]| | | | | | |]; simpl; auto using sentData_mono, handledAt_mono, sentPayload_mono. Qed.

Lemma promiseOf_mono p m t kk : promiseOf trs p m t kk -> promiseOf trs' p m t kk.
Proof. intros [Ht [H|[H1 H2]]]; (split; [done|]); [by left|right]. split; [done|]. eauto using answered_mono. Qed.

Lemma nodeInv_mono p m : nodeInv trs p m -> nodeInv trs' p m.
Proof.
  intros [H1 H2 H7 H8 H3 H4 H5 H6]. split; [done| |done|eauto using promiseOf_mono| | | |].
  - intros t task Ht. specialize (H2 t task Ht). destruct task; auto using sentData_mono, handledAt_mono.
  - eauto using sentData_mono.
  - eauto using sentData_mono.
  - intros k c ts Hk Hl. destruct (H5 k c ts Hk Hl) as (r & ? & ?). exists r. auto using answered_mono.
  - intros k c ts Hk Hl. destruct (H6 k c ts Hk Hl) as (r & ? & ?). exists r. auto.
Qed.
End Longer.

(** *** A step of a node *)

Lemma cacheable_default r : default RESPONSE_GONE_BYTES (cacheable (Some r)) = r \/
  default RESPONSE_GONE_BYTES (cacheable (Some r)) = RESPONSE_GONE_BYTES.
Proof. unfold cacheable. case_match; [by left|by right]. Qed.

Lemma handledAt_cached trs p k r : handledAt trs p k r -> handledAt trs p k (default RESPONSE_GONE_BYTES (cacheable (Some r))).
Proof.
  intros (t & payload & now & r' & H1 & H2 & H3 & H4). exists t, payload, now, r'. split_and!; [done..| |done].
  destruct (cacheable_default r) as [->| ->]; [done|by right].
Qed.

Section NodeStep.
Context (trs trs' : jsstr -> list observation) (p : jsstr) (m m' : Messenger) (ev : event) (obs : list observation).
Context (Hlong : forall q o, o ∈ trs q -> o ∈ trs' q) (Hnew : forall o, o ∈ obs -> o ∈ trs' p).
Context (Hm : nodeInv trs p m) (Heff : effect m ev obs m').

(** What the node learns is true. *)
Context (Hanswers : forall t task k r,
  ms_tasks m !! t = Some task -> attemptKey task = Some k -> answers ev t task r -> handledAt trs p k r).
Context (Hreceives : forall protocolId data peerKey env,
  ev = EvReceive protocolId data peerKey -> decodeReliableEnvelope data = Ok env ->
  sentPayload trs peerKey (p, protocolId, env_messageId env) (env_payload env)).
Context (Hpast : forall o, o ∈ trs p -> obsInv trs p o).

Lemma nodeStep_obs o : o ∈ obs -> obsInv trs' p o.
Proof using All.
  intros Ho. pose proof (effect_obs _ _ _ _ _ Heff Ho) as H. destruct o as [t k data|k [[r a i| |]|]|k r| | |t kk payload| | |]; simpl; try done.
  - destruct H as (_ & _ & _ & [(env & -> & Hid)|(e & He & <- & <-)]); [exists t, env; auto|].
    eapply sentData_mono; [exact Hlong|]. by apply (ni_page _ _ _ Hm).
  - eapply handledAt_mono; [exact Hlong|]. destruct H as [(t & task & H1 & H2 & H3)|(c & ts & Hk & Hl & ->)]; [by eapply Hanswers|].
    destruct (ni_outbound _ _ _ Hm k c ts Hk Hl) as (r0 & Hr & ->). apply handledAt_cached. exact (Hpast _ Hr).
  - eapply handledAt_mono; [exact Hlong|]. destruct H as (t & task & H1 & H2 & H3). by eapply Hanswers.
  - destruct H as (pr & data & pk & env & H1 & H2 & -> & ->). eapply sentPayload_mono; [exact Hlong|]. by apply (Hreceives _ _ _ _ H1 H2).
Qed.

Lemma nodeStep_tasks t task :
  ms_tasks m' !! t = Some task ->
  match task with
  | SendTask _ k data _ | RetryTask _ k data => sentData trs' p k data
  | RetryResponding _ k r => handledAt trs' p k r
  | HandlerTask kk payload => ObsHandlerStarts t kk payload ∈ trs' p
  | _ => True
  end.
Proof using All.
  intros Ht. destruct (effect_tasks _ _ _ _ _ _ _ _ Heff Ht) as [H|H].
  - pose proof (ni_tasks _ _ _ (nodeInv_mono _ _ Hlong _ _ Hm) t task H). done.
  - destruct task; try done.
    + destruct H as [_ H]. exact (nodeStep_obs _ H).
    + destruct H as [_ H]. exact (nodeStep_obs _ H).
    + destruct H as (old & H1 & H2 & H3). eapply handledAt_mono; [exact Hlong|]. by eapply Hanswers.
    + destruct H as [_ H]. by apply Hnew.
Qed.

Lemma nodeStep_promises t r :
  ms_promises m' !! t = Some r ->
  (t < ms_nextTask m')%nat /\ forall k payload, ms_tasks m' !! t <> Some (HandlerTask k payload).
Proof using Hm Heff.
  intros Hr. destruct (effect_promises _ _ _ _ _ _ Heff Hr) as [Hle [Ho|(k & payload & now & Ht & _ & Ht')]].
  - destruct (ni_promises _ _ _ Hm t r Ho) as [Hlt Hno]. split; [lia|]. intros k payload Ht.
    destruct (effect_tasks _ _ _ _ _ _ _ _ Heff Ht) as [?|[-> _]]; [by eapply Hno|lia].
  - apply (inv_next _ (ni_inv _ _ _ Hm)) in Ht. split; [lia|]. intros k' p'. by rewrite Ht'.
Qed.

Section Continues.
Context (Hle : (ms_nextTask m <= ms_nextTask m')%nat).

Lemma nodeStep_owns t k : owns m t k -> owns m' t k.
Proof using Heff Hle.
  intros [Hlt Ho]. split; [lia|]. intros task Ht.
  destruct (effect_tasks _ _ _ _ _ _ _ _ Heff Ht) as [H1|H1]; [eauto|].
  destruct task; simpl; try (destruct H1 as [-> _]; lia).
  - destruct H1 as (old & E & Hk). apply Ho in E. congruence.
  - destruct H1 as (old & E & Hk & _). apply Ho in E. congruence.
  - destruct H1 as (payload & E). by apply Ho in E.
Qed.

Lemma nodeStep_promise t kk : promiseOf trs p m t kk -> promiseOf trs' p m' t kk.
Proof using All.
  intros [Hlt Hp]. split; [lia|].
  assert (forall k' payload, ms_tasks m' !! t = Some (HandlerTask k' payload) -> ms_tasks m !! t = Some (HandlerTask k' payload)) as Hback.
  { intros k' payload Ht. destruct (effect_tasks _ _ _ _ _ _ _ _ Heff Ht) as [?|[-> _]]; [done|lia]. }
  destruct Hp as [[[payload Ht] Hnone]|[Hno Hans]].
  - assert (forall r, ms_promises m' !! t = Some (Ok r) -> answered trs' p kk r) as Hnow.
    { intros r Hr. destruct (effect_promises _ _ _ _ _ _ Heff Hr) as [_ [Ho|(k' & payload' & now & Ht' & Hin & _)]]; [congruence|].
      rewrite Ht in Ht'. injection Ht' as <- <-. exists t, payload, now. split; [apply Hlong; exact (ni_tasks _ _ _ Hm _ _ Ht)|auto]. }
    destruct (ms_tasks m' !! t) as [[| | | |k' payload'|]|] eqn:Et; try (by right).
    left. pose proof (Hback _ _ eq_refl) as E. rewrite Ht in E. injection E as <- <-. split; [eauto|].
    destruct (ms_promises m' !! t) as [r|] eqn:Er; [|done]. destruct (nodeStep_promises _ _ Er) as [_ Hc]. by destruct (Hc kk payload).
  - right. split; [intros k' payload Ht; by eapply Hno, Hback|]. intros r Hr.
    destruct (effect_promises _ _ _ _ _ _ Heff Hr) as [_ [Ho|(k' & payload' & now & Ht' & _)]]; [|by destruct (Hno k' payload')].
    eapply answered_mono; [exact Hlong|by apply Hans].
Qed.
End Continues.

Lemma nodeStep_handlers t task kk : ms_tasks m' !! t = Some task -> handlerKey task = Some kk -> promiseOf trs' p m' t kk.
Proof using All.
  intros Ht Hk. destruct (effect_next _ _ _ _ Heff) as [Hle|[_ E]]; [|by rewrite E, lookup_empty in Ht].
  destruct (effect_tasks _ _ _ _ _ _ _ _ Heff Ht) as [H|H]; [by apply nodeStep_promise; [|eapply (ni_handlers _ _ _ Hm)]|].
  destruct task as [| | | |k payload|k]; try done; injection Hk as ->.
  - destruct H as [E H]. split; [by apply (inv_next _ (effect_inv _ _ _ _ _ _ (ni_inv _ _ _ Hm) Heff)) in Ht|]. left. split; [eauto|].
    destruct (ms_promises m' !! t) as [r|] eqn:Er; [|done]. destruct (nodeStep_promises _ _ Er) as [_ Hc]. by destruct (Hc kk payload).
  - destruct H as [payload H]. apply nodeStep_promise; [done|]. by eapply (ni_handlers _ _ _ Hm).
Qed.

Lemma nodeStep_inv : nodeInv trs' p m'.
Proof using All.
  pose proof (ni_inv _ _ _ Hm) as Hi. pose proof (nodeInv_mono _ _ Hlong _ _ Hm) as [_ H2 H7 _ H3 H4 H5 H6].
  split; [by eapply effect_inv|apply nodeStep_tasks|apply nodeStep_promises|apply nodeStep_handlers| | | |].
  - intros k e He. destruct (rowChange_origin _ _ _ _ _ (effect_rows _ _ _ _ _ _ Hi Heff) He) as [(e0 & E & <-)|(t & pol & rec & E)]; [eauto|].
    exact (H2 _ _ E).
  - intros e He. destruct (effect_page _ _ _ _ _ _ _ Heff He) as [?|Hv]; [eauto|]. apply H3.
    by apply elem_of_rowValues in Hv; [|apply law_rows, Hi].
  - intros k c ts Hk Hl. destruct (idemChange_origin _ _ _ _ _ _ _ Hi Hk (effect_idem _ _ _ _ _ _ Hi Heff) Hl) as [?|(r & -> & t & Hin)]; [eauto|].
    exists r. split; [|done]. destruct (effect_obs _ _ _ _ _ Heff Hin) as [payload Ht]. exists t, payload, ts. split; [exact (H2 _ _ Ht)|auto].
  - intros k c ts Hk Hl. destruct (idemChange_origin _ _ _ _ _ _ _ Hi Hk (effect_idem _ _ _ _ _ _ Hi Heff) Hl) as [?|(r & -> & Hin)]; [eauto|].
    exists r. auto.
Qed.

End NodeStep.

(** *** A step of the network *)

(** Nothing is awaited from the attempts and handlers of [p]. *)
Definition detached (net : Network) (p : jsstr) : Prop :=
  (forall x, x ∈ net_packets net -> pk_from x = p -> pk_attempt x = None) /\
  (forall x, x ∈ net_pending net -> keyPeer (pd_key x) <> p /\ (pd_from x = p -> pd_attempt x = None)) /\
  (forall from t r, (from, t, r) ∈ net_answers net -> from <> p).

Lemma traceOf_advance net p nd obs m q :
  net_nodes net !! p = Some nd ->
  traceOf (advance net p nd obs m) q = if decide (q = p) then nd_trace nd ++ obs else traceOf net q.
Proof.
  intros Hp. unfold traceOf, advance. simpl. case_decide as Hq; [subst; by rewrite lookup_insert_eq|by rewrite lookup_insert_ne].
Qed.

Lemma traceOf_node net p nd : net_nodes net !! p = Some nd -> traceOf net p = nd_trace nd.
Proof. intros H. unfold traceOf. by rewrite H. Qed.

Section Advance.
Context (net : Network) (p : jsstr) (nd : Node) (ev : event) (obs : list observation) (m' : Messenger).
Context (Hnet : netInv net) (Hp : net_nodes net !! p = Some nd) (Heff : effect (nd_messenger nd) ev obs m').
Context (Hanswers : forall t task k r, ms_tasks (nd_messenger nd) !! t = Some task -> attemptKey task = Some k ->
  answers ev t task r -> handledAt (traceOf net) p k r).
Context (Hreceives : forall protocolId data peerKey env,
  ev = EvReceive protocolId data peerKey -> decodeReliableEnvelope data = Ok env ->
  sentPayload (traceOf net) peerKey (p, protocolId, env_messageId env) (env_payload env)).
Context (Hstays : isRestart ev = false \/ detached net p).

Notation net' := (advance net p nd obs m').

Lemma advance_longer q o : o ∈ traceOf net q -> o ∈ traceOf net' q.
Proof using Hp.
  rewrite (traceOf_advance _ _ _ _ _ _ Hp). case_decide as Hq; [subst|done]. rewrite (traceOf_node _ _ _ Hp), elem_of_app. by left.
Qed.

Lemma advance_new o : o ∈ obs -> o ∈ traceOf net' p.
Proof using Hp. intros Ho. rewrite (traceOf_advance _ _ _ _ _ _ Hp), decide_True by done. apply elem_of_app. by right. Qed.

Lemma advance_obs o : o ∈ obs -> obsInv (traceOf net') p o.
Proof using All.
  apply (nodeStep_obs (traceOf net) _ p (nd_messenger nd) m' ev obs); auto using advance_longer, advance_new.
  - by apply (net_node _ Hnet).
  - intros. by apply (net_obs _ Hnet).
Qed.

Lemma advance_node : nodeInv (traceOf net') p m'.
Proof using All.
  apply (nodeStep_inv (traceOf net) _ p (nd_messenger nd) m' ev obs); auto using advance_longer, advance_new.
  - by apply (net_node _ Hnet).
  - intros. by apply (net_obs _ Hnet).
Qed.

Lemma advance_owns from t k : ownsAt net from t k -> (from = p -> isRestart ev = false) -> ownsAt net' from t k.
Proof using Hp Heff.
  intros (n & Hn & Ho) Hr. unfold ownsAt, advance. simpl. destruct (decide (from = p)) as [->|Hne].
  - rewrite lookup_insert_eq. eexists. split; [done|]. simpl. rewrite Hp in Hn. injection Hn as <-.
    destruct (effect_next _ _ _ _ Heff) as [Hle|[E _]]; [by eapply nodeStep_owns|]. rewrite Hr in E; done.
  - rewrite lookup_insert_ne by done. eauto.
Qed.

Lemma advance_packet x : x ∈ packetsOf p obs ->
  wfKey (pk_key x) = true /\ sentData (traceOf net') (pk_from x) (pk_key x) (pk_data x) /\
  forall t, pk_attempt x = Some t -> ownsAt net' (pk_from x) t (pk_key x).
Proof using All.
  unfold packetsOf. rewrite list_elem_of_omap. intros (o & Ho & E). destruct o; try done. injection E as <-. simpl.
  destruct (effect_obs _ _ _ _ _ Heff Ho) as (Hk & _ & (task & Ht & Ha) & _). split_and!; [done|exact (advance_obs _ Ho)|].
  intros t' [= <-]. eexists. unfold advance. simpl. rewrite lookup_insert_eq. split; [done|]. simpl. split.
  - by apply (inv_next _ (ni_inv _ _ _ advance_node)) in Ht.
  - intros task' Ht'. congruence.
Qed.

Lemma advance_promise x : x ∈ net_pending net ->
  (exists n, net_nodes net' !! keyPeer (pd_key x) = Some n /\
     promiseOf (traceOf net') (keyPeer (pd_key x)) (nd_messenger n) (pd_promise x) (receiverKey (pd_from x) (pd_key x))) /\
  forall t, pd_attempt x = Some t -> ownsAt net' (pd_from x) t (pd_key x).
Proof using All.
  intros Hx. destruct (net_promise _ Hnet x Hx) as [(n & Hn & Hpr) Ho]. split.
  - unfold advance. simpl. destruct (decide (keyPeer (pd_key x) = p)) as [E|Hne].
    + rewrite E, lookup_insert_eq. eexists. split; [done|]. simpl. rewrite E in Hn, Hpr. rewrite Hp in Hn. injection Hn as <-.
      apply (nodeStep_promise (traceOf net) _ p (nd_messenger nd) m' ev obs); auto using advance_longer, advance_new.
      * by apply (net_node _ Hnet).
      * intros. by apply (net_obs _ Hnet).
      * destruct (effect_next _ _ _ _ Heff) as [?|[Er _]]; [done|]. destruct Hstays as [?|(_ & Hd & _)]; [congruence|]. by destruct (Hd x Hx).
    + rewrite lookup_insert_ne by done. exists n. split; [done|]. eapply promiseOf_mono; [exact advance_longer|done].
  - intros t Ht. apply advance_owns; [by apply Ho|]. intros Hf. destruct Hstays as [?|(_ & Hd & _)]; [done|].
    destruct (Hd x Hx) as [_ Hd']. rewrite (Hd' Hf) in Ht. done.
Qed.

Lemma advance_inv : netInv net'.
Proof using All.
  split.
  - intros q n. unfold advance. simpl. rewrite lookup_insert_Some. intros [[<- <-]|[_ Hq]]; [exact advance_node|].
    eapply nodeInv_mono; [exact advance_longer|]. by apply (net_node _ Hnet).
  - intros q o Ho. rewrite (traceOf_advance _ _ _ _ _ _ Hp) in Ho. case_decide as Hq; [subst q; apply elem_of_app in Ho as [Ho|Ho]; [|by apply advance_obs]|].
    + eapply obsInv_mono; [exact advance_longer|]. apply (net_obs _ Hnet). by rewrite (traceOf_node _ _ _ Hp).
    + eapply obsInv_mono; [exact advance_longer|]. by apply (net_obs _ Hnet).
  - intros x [Hx|Hx]%elem_of_app; [by apply advance_packet|]. destruct (net_packet _ Hnet x Hx) as (Hk & Hs & Ho).
    split_and!; [done|by eapply sentData_mono; [exact advance_longer|]|]. intros t Ht. apply advance_owns; [by apply Ho|].
    intros Hf. destruct Hstays as [?|(Hd & _)]; [done|]. rewrite (Hd x Hx Hf) in Ht. done.
  - exact advance_promise.
  - intros from t r Hin. destruct (net_answer _ Hnet from t r Hin) as (k & Ho & Hh). exists k. split.
    + apply advance_owns; [done|]. intros Hf. destruct Hstays as [?|(_ & _ & Hd)]; [done|]. by destruct (Hd _ _ _ Hin).
    + by eapply handledAt_mono; [exact advance_longer|].
Qed.
End Advance.

Lemma disconnect_detached net p : detached (disconnect net p) p.
Proof.
  unfold detached, disconnect. simpl. split_and!.
  - intros x. rewrite list_elem_of_fmap. intros (y & -> & _). simpl. intros Hf. unfold forgetAttempt. by rewrite bool_decide_true.
  - intros x. rewrite list_elem_of_fmap. intros (y & -> & Hy). simpl. apply list_elem_of_filter in Hy as [Hne _]. split; [done|].
    intros Hf. unfold forgetAttempt. by rewrite bool_decide_true.
  - intros from t r. rewrite list_elem_of_filter. by intros [? _].
Qed.

Lemma forgetAttempt_Some p from attempt t : forgetAttempt p from attempt = Some t -> attempt = Some t.
Proof. unfold forgetAttempt. by case_bool_decide. Qed.

Lemma disconnect_inv net p : netInv net -> netInv (disconnect net p).
Proof.
  intros [H1 H2 H3 H4 H5]. split; [exact H1|exact H2| | |].
  - intros x. simpl. rewrite list_elem_of_fmap. intros (y & -> & Hy). simpl. destruct (H3 y Hy) as (Hk & Hs & Ho).
    split_and!; [done..|]. intros t Ht. by apply Ho, (forgetAttempt_Some p (pk_from y)).
  - intros x. simpl. rewrite list_elem_of_fmap. intros (y & -> & Hy). apply list_elem_of_filter in Hy as [_ Hy]. simpl.
    destruct (H4 y Hy) as [Hp Ho]. split; [exact Hp|]. intros t Ht. by apply Ho, (forgetAttempt_Some p (pd_from y)).
  - intros from t r. simpl. rewrite list_elem_of_filter. intros [_ Hin]. exact (H5 _ _ _ Hin).
Qed.

Lemma addAnswer_inv net from attempt k r :
  netInv net -> (forall t, attempt = Some t -> ownsAt net from t k) -> handledAt (traceOf net) from k r ->
  netInv (addAnswer net from attempt r).
Proof.
  intros [H1 H2 H3 H4 H5] Ho Hh. split; [exact H1|exact H2|exact H3|exact H4|].
  intros from' t r'. simpl. rewrite elem_of_app. intros [Hin|Hin]; [|exact (H5 _ _ _ Hin)].
  unfold answersOf in Hin. destruct attempt as [t0|]; [|by apply not_elem_of_nil in Hin].
  apply list_elem_of_singleton in Hin. injection Hin as -> -> ->. exists k. split; [by apply Ho|done].
Qed.

Lemma addPending_inv net x nd :
  netInv net -> (forall t, pd_attempt x = Some t -> ownsAt net (pd_from x) t (pd_key x)) ->
  net_nodes net !! keyPeer (pd_key x) = Some nd ->
  promiseOf (traceOf net) (keyPeer (pd_key x)) (nd_messenger nd) (pd_promise x) (receiverKey (pd_from x) (pd_key x)) ->
  netInv (addPending net x).
Proof.
  intros [H1 H2 H3 H4 H5] Ho Hn Hp. split; [exact H1|exact H2|exact H3| |exact H5].
  intros y [->|Hy]%elem_of_cons; [|exact (H4 _ Hy)]. split; [by exists nd|exact Ho].
Qed.

(** What the receiver has answered is handled. *)
Lemma answered_handled net from k r :
  netInv net -> answered (traceOf net) (keyPeer k) (receiverKey from k) r -> handledAt (traceOf net) from k r.
Proof.
  intros Hnet (t & payload & now & H1 & H2). exists t, payload, now, r. split_and!; [done..|by left|].
  pose proof (net_obs _ Hnet _ _ H1) as H. simpl in H. by destruct k as [[peer protocol] id].
Qed.

Section Codec.
(** Decoding gives back the message id and the payload that were encoded. *)
Hypothesis codec_roundtrip : forall env, isWellFormed (env_messageId env) = true ->
  exists env', decodeReliableEnvelope (encodeReliableEnvelope env) = Ok env' /\
    env_messageId env' = env_messageId env /\ env_payload env' = env_payload env.

Lemma wfKey_id k : wfKey k = true -> isWellFormed (keyMessageId k) = true.
Proof. unfold wfKey. by intros [_ H]%andb_true_iff. Qed.

(** The receiver finds the id and a payload of the sender in a packet. *)
Lemma packet_decodes net x :
  netInv net -> x ∈ net_packets net ->
  exists env, decodeReliableEnvelope (pk_data x) = Ok env /\ env_messageId env = keyMessageId (pk_key x) /\
    sentPayload (traceOf net) (pk_from x) (pk_key x) (env_payload env).
Proof using codec_roundtrip.
  intros Hnet Hx. destruct (net_packet _ Hnet x Hx) as (Hk & (t & env & Hw & E & Hid) & _).
  destruct (codec_roundtrip env) as (env' & Hd & Hid' & Hp); [rewrite Hid; by apply wfKey_id|].
  exists env'. rewrite E. split_and!; [done|congruence|]. rewrite E in Hw. by exists t, env.
Qed.

Lemma deliver_respond net x nd obs m' :
  netInv net -> x ∈ net_packets net -> net_nodes net !! keyPeer (pk_key x) = Some nd ->
  let ev := EvReceive (keyProtocol (pk_key x)) (pk_data x) (pk_from x) in
  wfEvent ev = true -> step (nd_messenger nd) ev = Some (obs, m') ->
  netInv (advance net (keyPeer (pk_key x)) nd obs m') ->
  netInv (respond (advance net (keyPeer (pk_key x)) nd obs m') x
            (reliableHandler decodeReliableEnvelope (nd_messenger nd) (keyProtocol (pk_key x)) (pk_data x) (pk_from x)).1).
Proof using codec_roundtrip.
  intros Hnet Hx Hn ev Hw Hst Hnet'. destruct (packet_decodes _ _ Hnet Hx) as (env & Hd & Hid & _).
  set (p := keyPeer (pk_key x)) in *. set (net' := advance net p nd obs m') in *.
  assert (x ∈ net_packets net') as Hx' by (apply elem_of_app; by right).
  destruct (net_packet _ Hnet' x Hx') as (_ & _ & Ho).
  assert (net_nodes net' !! p = Some {| nd_messenger := m'; nd_trace := nd_trace nd ++ obs |}) as Hn' by apply lookup_insert_eq.
  pose proof (net_node _ Hnet _ _ Hn) as Hi. pose proof (net_node _ Hnet' _ _ Hn') as Hi'.
  simpl in Hw, Hst. rewrite Hd in Hw, Hst. rewrite Hid in Hw. unfold reliableHandler in *. rewrite Hd in *. rewrite Hid in *.
  set (kk := (pk_from x, keyProtocol (pk_key x), keyMessageId (pk_key x))) in *.
  rewrite law_check in * by (done || apply Hi).
  destruct (id_lookup _ kk DirIn) as [[c ts]|] eqn:El.
  - simpl. eapply addAnswer_inv; [done|exact Ho|]. destruct (ni_inbound _ _ _ Hi kk c ts Hw El) as (r & Ha & ->).
    apply handledAt_cached, answered_handled; [done|]. eapply answered_mono; [|exact Ha]. intros q o. by apply advance_longer.
  - destruct (ms_inboundInFlight _ !! _) as [t|] eqn:Ei.
    + simpl in Hst |- *. injection Hst as <- <-. eapply addPending_inv; [done|exact Ho|exact Hn'|]. simpl.
      destruct (inv_inbound _ (ni_inv _ _ _ Hi) _ _ Ei) as (task & k' & Ht & Hk' & E).
      apply idempotencyKey_inj in E as <-; [|done|apply (inv_wf _ (ni_inv _ _ _ Hi)) in Ht; destruct task; simpl in *; congruence].
      by apply (ni_handlers _ _ _ Hi' _ task).
    + simpl in Hst |- *. rewrite lookup_insert_eq in Hst. injection Hst as <- <-. eapply addPending_inv; [done|exact Ho|exact Hn'|]. simpl.
      eapply (ni_handlers _ _ _ Hi'); [apply lookup_insert_eq|done].
Qed.

Lemma allowed_answers net p nd ev t task k r :
  netInv net -> net_nodes net !! p = Some nd -> allowed net p ev = true ->
  ms_tasks (nd_messenger nd) !! t = Some task -> attemptKey task = Some k -> answers ev t task r ->
  handledAt (traceOf net) p k r.
Proof.
  intros Hnet Hp Hal Ht Ha Hr.
  assert ((p, t, r) ∈ net_answers net -> handledAt (traceOf net) p k r) as Hin.
  { intros Hin. destruct (net_answer _ Hnet _ _ _ Hin) as (k' & (n & Hn & _ & Hown) & Hh). rewrite Hp in Hn. injection Hn as <-.
    apply Hown in Ht. congruence. }
  destruct task as [| | |index k' r'| |]; try done; simpl in Hr.
  - destruct Hr as (now & signal & ->). apply Hin. by apply bool_decide_eq_true in Hal.
  - destruct Hr as (now & ->). apply Hin. by apply bool_decide_eq_true in Hal.
  - subst r'. injection Ha as ->. exact (ni_tasks _ _ _ (net_node _ Hnet _ _ Hp) _ _ Ht).
Qed.

Lemma netStep_inv net nev net' : netInv net -> netStep net nev = Some net' -> netInv net'.
Proof using codec_roundtrip.
  intros Hnet. destruct nev as [p ev|n|n]; cbn [netStep].
  - destruct (net_nodes net !! p) as [nd|] eqn:Hp; [|done]. cbn [mbind option_bind]. destruct (allowed net p ev && wfEvent ev) eqn:E; [|done].
    apply andb_true_iff in E as [Hal Hw]. destruct (step (nd_messenger nd) ev) as [[obs m']|] eqn:Hst; [|done]. intros [= <-].
    pose proof (step_effect _ _ _ _ _ _ (ni_inv _ _ _ (net_node _ Hnet _ _ Hp)) Hw Hst) as Heff.
    assert (forall net, netInv net -> net_nodes net !! p = Some nd -> allowed net p ev = true -> isRestart ev = false \/ detached net p ->
              netInv (advance net p nd obs m')) as Hadv.
    { intros net1 H1 Hp1 Hal1 Hd1. eapply advance_inv; [done|done|exact Heff| |by intros * ->|done].
      intros t task k r. by apply (allowed_answers net1 p nd). }
    destruct (isRestart ev) eqn:Er; [|apply Hadv; auto]. apply Hadv; [by apply disconnect_inv|done| |right; apply disconnect_detached].
    by destruct ev.
  - destruct (net_packets net !! n) as [x|] eqn:Hx; [|done]. cbn [mbind option_bind]. apply list_elem_of_lookup_2 in Hx.
    destruct (net_nodes net !! keyPeer (pk_key x)) as [nd|] eqn:Hp; [|done]. cbn [mbind option_bind].
    set (ev := EvReceive _ _ _). destruct (wfEvent ev) eqn:Hw; [|done].
    destruct (step (nd_messenger nd) ev) as [[obs m']|] eqn:Hst; [|done].
    intros [= <-]. eapply deliver_respond; try done.
    eapply advance_inv; [done|done|by eapply (step_effect _ _ _ ev); [apply (net_node _ Hnet _ _ Hp)|..]| | |by left].
    + intros t task k r Ht Ha Hr. destruct task; simpl in Hr; try done.
      * by destruct Hr as (? & ? & ?).
      * by destruct Hr as (? & ?).
      * subst r. injection Ha as ->. exact (ni_tasks _ _ _ (net_node _ Hnet _ _ Hp) _ _ Ht).
    + intros pr data pk env [= <- <- <-] Hd. destruct (packet_decodes _ _ Hnet Hx) as (env' & Hd' & Hid & Hs).
      rewrite Hd in Hd'. injection Hd' as <-. rewrite Hid. by destruct (pk_key x) as [[a b] c].
  - destruct (net_pending net !! n) as [x|] eqn:Hx; [|done]. simpl. apply list_elem_of_lookup_2 in Hx.
    destruct (net_promise _ Hnet x Hx) as [(nd & Hp & _ & Hpr) Ho]. rewrite Hp. simpl.
    destruct (ms_promises _ !! _) as [[r|]|] eqn:Er; try done. intros [= <-]. eapply addAnswer_inv; [done|exact Ho|].
    apply answered_handled; [done|]. destruct Hpr as [[_ Hnone]|[_ Hans]]; [congruence|by apply Hans].
Qed.

Lemma netStarts_inv net : netStarts net -> netInv net.
Proof using.
  intros (E1 & E2 & E3 & Hn).
  assert (forall p, traceOf net p = []) as Htr.
  { intros p. unfold traceOf. destruct (net_nodes net !! p) as [nd|] eqn:E; [|done]. by apply Hn in E as [-> _]. }
  split.
  - intros p nd Hp. destruct (Hn p nd Hp) as (_ & [deps Hs] & Hrows & Hid). destruct (starts_idle _ _ Hs) as (I1 & I2 & I3).
    split; [by eapply starts_inv| | | | | | |].
    + intros t task. by rewrite I1, lookup_empty.
    + intros t r. by rewrite I2, lookup_empty.
    + intros t task kk. by rewrite I1, lookup_empty.
    + intros k e. by rewrite Hrows, lookup_empty.
    + intros e. rewrite I3. by intros ?%not_elem_of_nil.
    + intros k c ts Hk. unfold inbound. by rewrite Hid.
    + intros k c ts Hk. unfold outbound. by rewrite Hid.
  - intros p o. rewrite Htr. by intros ?%not_elem_of_nil.
  - intros x. rewrite E1. by intros ?%not_elem_of_nil.
  - intros x. rewrite E2. by intros ?%not_elem_of_nil.
  - intros from t r. rewrite E3. by intros ?%not_elem_of_nil.
Qed.

Lemma netRun_inv net net' : netInv net -> netRun net net' -> netInv net'.
Proof using codec_roundtrip. 
  intros Hnet Hr. induction Hr as [|net net1 nev net2 Hr IH Hs]; [done|]. eapply netStep_inv; [by apply IH|exact Hs].
Qed.

(** C1: delivered means handled.  On a network that loses, repeats and reorders
    packets and whose nodes restart at any time, when a node reports a message as
    delivered with a response, from its first attempt, a retry or its record, then
    the handler of the receiver has run for that message, on a payload that the
    node sent under that id, and the response is the handler's answer, or the
    marker that stands for an answer too large to record. *)
Theorem delivered_means_handled net0 net from k response :
  netStarts net0 -> netRun net0 net ->
  ObsDelivered k response ∈ traceOf net from \/
  (exists attempts i, ObsSettled k (Returned (Delivered response attempts i)) ∈ traceOf net from) ->
  handledAt (traceOf net) from k response.
Proof using codec_roundtrip.
  intros H0 Hr H. pose proof (netRun_inv _ _ (netStarts_inv _ H0) Hr) as Hnet.
  destruct H as [H|(a & i & H)]; exact (net_obs _ Hnet _ _ H).
Qed.
End Codec.

(** Runs, computed. *)
Fixpoint netExec (net : Network) (nevs : list netEvent) : option Network :=
  match nevs with
  | [] => Some net
  | nev :: nevs' => net1 ← netStep net nev; netExec net1 nevs'
  end.

Lemma netExec_run net0 net nevs net' : netRun net0 net -> netExec net nevs = Some net' -> netRun net0 net'.
Proof.
  revert net. induction nevs as [|nev nevs IH]; intros net Hr He; simpl in He; [by injection He as <-|].
  destruct (netStep net nev) as [net1|] eqn:E; [|done]. simpl in He. eapply IH; [|exact He]. by econstructor.
Qed.
End Network.

(** ** A run of two nodes

    The first attempt reaches B, whose handler answers, but the stream breaks; the
    message is queued, a drain retries it, and B answers the copy from its record. *)

Definition exNode : Node := {| nd_messenger := exMessenger; nd_trace := [] |}.

Definition exNet : Network :=
  {| net_nodes := {[ peerA := exNode; peerB := exNode ]}; net_packets := []; net_pending := []; net_answers := [] |}.

Definition exNetEvents : list netEvent :=
  (NetNode peerA <$> [EvSend 1000 exId peerB exProtocol exPayload exOpts DurableOutbox None]) ++
  [NetDeliver 0; NetNode peerB (EvSettleHandler 0 1005 (Ok exAnswer));
   NetNode peerA (EvSettleSend 0 1010 (RouterError exTimeout) None)] ++
  (NetNode peerA <$> exDrains) ++
  [NetDeliver 0; NetNode peerA (EvSettleRetry 1 100010 (RouterResponse exAnswer))].

Definition exNetAfter : Network := default exNet (netExec plainEncode plainDecode exNet exNetEvents).

Lemma exNetAfter_run : netRun plainEncode plainDecode exNet exNetAfter.
Proof.
  assert (match netExec plainEncode plainDecode exNet exNetEvents with Some _ => true | None => false end = true) as H
    by (vm_compute; reflexivity).
  unfold exNetAfter. destruct (netExec plainEncode plainDecode exNet exNetEvents) as [net|] eqn:E; [|done].
  eapply netExec_run; [constructor|exact E].
Qed.

Lemma exNet_starts : netStarts exNet.
Proof.
  split_and!; [done..|]. intros p nd. unfold exNet. simpl. rewrite lookup_insert_Some, lookup_singleton_Some.
  intros H. assert (nd = exNode) as -> by (by destruct H as [[_ <-]|[_ [_ <-]]]).
  split; [reflexivity|]. split; [exists exDeps; apply exMessenger_starts|]. split; [exact (fmap_empty (M:=gmap messageKey) _)|].
  intros k d _. unfold exNode. simpl. by rewrite lookup_empty.
Qed.

Lemma delivered_means_handled_witness : handledAt plainEncode (traceOf exNetAfter) peerA keyAB exAnswer.
Proof.
  apply (delivered_means_handled plainEncode plainDecode (fun env _ => plain_roundtrip env) exNet).
  - apply exNet_starts.
  - apply exNetAfter_run.
  - left. apply list_elem_of_lookup_2 with 3%nat. vm_compute. reflexivity.
Defined.
